(* ===== verification/_CoqProject ===== *)
-Q . S2P
Prelude.v
Status.v
Message.v
Wire.v
Address.v
Options.v
Queue.v
Pipe.v
SocketUtils.v
WinSocket.v
Tcp.v
Uds.v
ShmNames.v
ShmRing.v
Shm.v
WinShm.v
Qos.v
NamedPipe.v
StateCallback.v
Reconnect.v
Dial.v
WinWire.v
Windows.v
Convenience.v
Async.v
Slots.v
Raii.v
FloatText.v
Utils.v
Logging.v
Metrics.v
EchoServer.v
QosShm.v
QosStream.v
QosWake.v
ReconnectCalls.v
Programs.v
Runs.v
Network.v
Duplex.v
RingNetwork.v
StreamNetwork.v
UtilsExample.v
AsyncExample.v
ConvenienceExample.v
Tests.v
Future.v
