(* ===== verification/Prelude.v ===== *)
(** * A verification library for duct

    duct is a C++20 message-oriented IPC and networking library: [dial] and
    [listen] turn an address into a [Pipe] or [Listener] over TCP, Unix sockets,
    shared memory or Windows named pipes, and wrappers add queueing, reconnection
    and state reports to a pipe. This library models its implementation files and
    proves what makes them correct.

    ** The parts

    - [Prelude]: machine integers as [Z] with [wrap w], bytes, the
      [std::string] operations used, automation and lemmas shared by all files.
    - [Status] (include/duct/status.h): codes, [Status], [Result] as a sum,
      and the calls that throw.
    - [Message] (message.h, message.cc): handles over a heap of
      reference-counted vectors, so that aliasing is visible.
    - [Wire] (protocol.h, wire.h, wire.cc): the frame header for either host
      byte order and the transfer loops over a socket whose answers are a list
      of events; [WinWire]: the loops as the Windows build has them.
    - [Address] (address.h, address.cc, the builders of utils.h and
      convenience.h): parsing and rendering of addresses.
    - [Options], [Pipe] (duct.h): the option records; the interface classes as
      type classes with the contract of [close] as laws ([PipeLaws]), which each
      transport and wrapper discharges.
    - [Queue] (queue.h, queue.cc): [MessageQueue], a member function being one
      critical section or a wait, and a step relation that interleaves them.
    - [SocketUtils], [WinSocket] (socket_utils.h, socket_utils.cc), [Tcp]
      (tcp_transport.cc), [Uds] (uds_transport.cc), [NamedPipe]
      (pipe_transport.cc): the stream and packet transports over the answers of
      their system calls, with the tables of open descriptors and socket files.
    - [ShmNames], [ShmRing], [Shm] (shm_transport.cc), [WinShm] (win_shm.cc):
      the names of a connection's kernel objects; one direction of the ring as
      two processes whose memory accesses interleave; the creation, sharing and
      release of the objects over a model of the kernel's tables.
    - [Qos] (qos_pipe.h, qos_pipe.cc), [StateCallback]
      (state_callback_pipe.cc), [Reconnect] (reconnect_pipe.cc): the wrappers,
      over any implementation of the Pipe interface, with their worker threads
      as steps between critical sections. [QosWake]: the condition variable of
      the QoS pipe, with who sleeps and what wakes them; [ReconnectCalls]: one
      [send] or [recv] of a reconnecting pipe, from its wait to its answer, amid
      the worker, other calls and [close].
    - [Dial] (duct.cc): [listen] and [dial] over a record of transports, and
      the POSIX build as an instance made of [Tcp] and [Shm]; [Windows]: the
      Windows build, made of the Winsock side of tcp_transport.cc, [WinShm] and
      [NamedPipe].
    - [Convenience] (convenience.h): the builders, [request], the batches and
      the loops, over any implementation of the Pipe interface, with a journal
      of the calls they make.
    - [Async] (async.h): [Channel], the event loop and the calls on threads of
      their own; [EchoServer]: the background echo server, and a client of it
      over shared memory, which composes [Shm], [Convenience] and [Async];
      [Future]: [AsyncResult], a thread that keeps, discards and drops results
      and the threads that make the calls.
    - [QosShm], [QosStream]: the shared-memory pipe and the framed streams (TCP,
      Unix sockets) as a [Carrier] (the interface of [Pipe] that says what a
      transport promises a wrapper that queues), and [Qos] over them.
    - [Programs] (examples/): the programs the build makes, as interaction trees
      over the calls of the library; [Network]: two of them against each other
      over a connection that keeps order; [Duplex]: what a connection made of two
      ways promises them, as a type class ([SeenWay]) against which the refinement
      is proved; [RingNetwork]: a way is a ring of shared memory, access by access,
      which composes [Programs] with [ShmRing]; [StreamNetwork]: a way is a stream
      of bytes, transfer by transfer, which composes [Programs] with [Wire];
      [Runs]: lemmas on the runs of any step relation;
      [Tests] (tests/duct_tests.cc): the unit tests as functions over the models.
    - [UtilsExample], [ConvenienceExample], [AsyncExample] (the other examples):
      what each writes, over the models of what it uses; in the last, a producer
      and a consumer with a channel, and the event loop, as threads.
    - [Slots], [Raii] (raii.h), [Utils] (utils.h): what the variables of a
      program own, as multisets; the scoped pipes and listeners; timers, the
      periodic executor, scope guards, the string builder; [FloatText]: the text
      of a floating-point number.
    - [Logging], [Metrics] (logging.h, logging.cc): loggers in a store of shared
      objects, log streams, the holder of the global logger; counters, gauges,
      histograms and the registry.

    ** How the models are written

    A call is a function from the state it finds to the state it leaves and its
    result; [None], or a constructor of its own, is a call that does not return.
    What the operating system answers (transfers, descriptors, failures, clocks,
    random draws) is an argument. Shared state is stepped under the mutex the
    code takes: a step relation has one rule per critical section, so every
    interleaving of threads is a run, and the theorems quantify over runs with
    the invariants of each file ([evolves], [ring_inv], [qos_inv],
    [control_ok]). Memory shared without a lock (the ring) is stepped one access
    at a time; accesses are sequentially consistent, which the release stores
    and the semaphores of the code provide. Loops recurse on the list of answers
    they consume or on the data they walk. Where a function has a fuel, a
    theorem says how much is enough: the chain of a logger is no longer than its
    address ([Logging.logging_returns]), a server loop takes one turn for each
    message and one for the end ([Convenience.echo_server_spec]), [to_string]
    has twenty digits, enough for 64 bits, and the text of a [double] has 310
    before the point ([FloatText.micros_bound]). The endless loop of a program in
    [Programs] is an [ITree.iter]; a run of two programs is a sequence of steps,
    so nothing there has a fuel.

    ** What is shown

    - Data: addresses, ports and frame headers round-trip and the parsers accept
      exactly the well-formed inputs ([Address.parse_wf],
      [Address.parse_u16_exact], [Wire.decode_header_exact]).
    - Streams: any sequence of messages written by one side is read by the other
      in order, whatever the sizes of the transfers and the interruptions
      ([Wire.stream_roundtrip]); on an error only a prefix is written and nothing
      partial is returned ([Wire.write_frame_prefix], [Wire.read_frame_safe]);
      the Windows build does the same with other error numbers, so the two sides
      may be on different systems ([WinWire.win_wire_as_posix],
      [WinWire.win_to_posix]); the same over packets ([NamedPipe.np_roundtrip]).
    - The ring: under every interleaving and any number of wraps of its counters
      it delivers in order, implements a bounded queue and loses no wake-up
      ([ShmRing.ring_delivers_in_order], [ShmRing.ring_refines_fifo],
      [ShmRing.ring_no_lost_wakeup]); [ShmRing.bodies_are_steps] ties the steps to
      the code of [send] and [recv]; [Shm.shm_end_to_end] composes it with dial
      and accept.
    - Queues: [Queue.queue_fifo], [Queue.queue_lossless], [Queue.queue_bound]
      and the behaviour of each policy, of time to live, of [close] and of the
      notifications; for the QoS pipe [Qos.qos_order], [Qos.qos_lossless],
      [Qos.qos_drains], and of its wake-ups that a message never waits for a
      sleeping worker ([QosWake.worker_not_forgotten], whose steps refine those of
      [Qos] by [QosWake.wake_refines]).
    - Resources: a dial that fails, wherever it fails, leaves no descriptor,
      mapping, semaphore, name or file behind ([Shm.shm_dial_no_leak],
      [WinShm.win_dial_no_leak], [Tcp.connect_tcp_no_leak],
      [Dial.posix_dial_no_leak], [Windows.windows_dial_no_leak]); the owners of
      raii.h close what they own once and the guards of utils.h call what they
      guard once ([Raii.scoped_conservation], [Utils.guards_call_once]).
    - End to end: a client's requests come back from the echo server, through the
      handshake, the rings and the semaphores ([EchoServer.echo_over_shm]); what
      a QoS pipe over shared memory, TCP or a Unix socket has sent is what the far
      end receives, in every interleaving ([QosShm.qos_over_shm],
      [QosStream.qos_over_stream]).
    - Programs: the schedule of two programs over a connection does not matter
      ([Network.one_run_is_all]), so the echo programs, shm_test and pipe_test
      end as they should in every one ([Network.echo_programs],
      [Network.shm_test_programs], [Network.pipe_test_programs]), and how much
      room qos_test needs is exact ([Network.qos_test_room]); what is shown of two
      programs over the connection holds of them over the rings, whatever the
      interleaving of their memory accesses ([RingNetwork.programs_over_rings],
      [RingNetwork.shm_test_over_rings]), and over streams of bytes, whatever the
      sizes and the order of their transfers
      ([StreamNetwork.programs_over_streams], [StreamNetwork.echo_over_streams],
      with [StreamNetwork.stream_steps_are_wire] for the steps); the unit tests pass
      on every system that does its part ([Tests.tests_pass]); the channel example
      comes to its end in every interleaving ([AsyncExample.channel_example_ends]),
      the event loop example in none ([AsyncExample.event_loop_example_hangs]), and
      the others write what their comments say
      ([UtilsExample.utils_example_prints], [ConvenienceExample.batch_example_reports]).
    - Termination: the dial loop on Windows, the calls on loggers, the loops of
      convenience.h and the stopping of the echo server
      ([WinShm.win_dial_loop_returns], [Logging.logging_returns],
      [Convenience.echo_server_spec], [EchoServer.server_stop_returns]).
    - Threads: [Channel] keeps the order and wakes who must wake
      ([Async.channel_fifo]); the metrics registry is a map from names to values
      ([Metrics.registry_refines_names]); the results of asynchronous calls are
      exact, none outlives its [AsyncResult] and a discarded one makes its call
      synchronous ([Future.async_results_exact], [Future.no_call_outlives],
      [Future.discarded_in_order]).
    - Lifecycles: what callbacks hear, who closes each connection, when a
      reconnecting pipe gives up ([Reconnect.reconnect_reports],
      [Reconnect.reconnect_ownership], [Reconnect.reconnect_gives_up],
      [StateCallback.callback_at_most_once]); a message sent through it is accepted
      once at most, a message received is never dropped, and calls end after
      [close] ([ReconnectCalls.send_at_most_once],
      [ReconnectCalls.recv_drops_nothing], [ReconnectCalls.calls_end_after_close]).
    - Behaviour that surprises: a server over shared memory is not told that its
      client is gone ([Network.echo_programs]), [Queue.try_pop_lost_wakeup],
      [Qos.qos_stalls_at_mark], [Qos.qos_close_drops],
      [Qos.qos_close_waits_for_send], [QosWake.blocked_sender_forgotten],
      [Reconnect.reconnect_close_race],
      [Uds.uds_recv_hup], [NamedPipe.np_oversize],
      [Dial.dial_ignores_reconnect], [Async.event_loop_stop_deadlocks],
      [EchoServer.server_accounts], [QosShm.large_message_blocks_queue],
      [Logging.global_logger_lifetime],
      [Metrics.counter_decreases] and [Utils.port_literal_truncates].

    ** What is not modelled

    Socket options, security descriptors and the SIGPIPE guard of wire.cc, none
    of which changes a modelled state. A callable is known by whether it is set or
    by a number, and a callback that calls back into the object that called it is
    not followed. Destructors are the [close] they call, and for a future the wait
    for its thread. Spurious wake-ups re-run a predicate and change nothing. The
    blocks of the unit tests for Windows and macOS; what a connection does with a
    message sent to a program that has returned, which none of the programs run
    here does; how the characters of two threads mix on one stream, whose lines
    are kept by thread. On POSIX, shm_transport.cc is read as if the anonymous
    namespace it opens were closed before [shm_listen]: as it stands the file ends
    inside its namespaces. *)

From Stdlib Require Export ZArith Lia.
From Stdlib Require Strings.Byte.
From stdpp Require Export base numbers list gmap strings relations.

#[global] Set Default Goal Selector "!".

(** ** Notations *)

Declare Scope duct_scope.
Delimit Scope duct_scope with duct.

(** Bytes are the 256 constructors of [Init.Byte]. *)
Abbreviation byte := Init.Byte.byte.

(** The size of a buffer or string, as the [std::size_t] the code computes. *)
Notation "'len' l" := (Z.of_nat (length l)) (at level 10, l at level 9, only parsing) : duct_scope.

(** stdpp blocks the reduction of string concatenation; the proofs here follow
    the characters of literals, so it is allowed again. *)
#[global] Arguments String.append !s1 s2 / : simpl nomatch.

#[global] Open Scope Z_scope.
#[global] Open Scope duct_scope.

(** ** Machine integers

    A w-bit unsigned integer is a [Z]; arithmetic wraps modulo [2 ^ w]. *)

Definition wrap (w z : Z) : Z := z mod 2 ^ w.
Abbreviation wrap8 := (wrap 8).
Abbreviation wrap16 := (wrap 16).
Abbreviation wrap32 := (wrap 32).
Abbreviation wrap64 := (wrap 64).

Definition byte_of_Z (z : Z) : byte :=
  match Strings.Byte.of_N (Z.to_N (wrap8 z)) with
  | Some b => b
  | None => Init.Byte.x00
  end.

Definition Z_of_byte (b : byte) : Z := Z.of_N (Strings.Byte.to_N b).

#[export] Instance byte_eq_dec : EqDecision byte := Strings.Byte.byte_eq_dec.

(** ** Strings *)

Fixpoint str_take (n : nat) (s : string) : string :=
  match n, s with
  | O, _ => EmptyString
  | S n', String c s' => String c (str_take n' s')
  | S _, EmptyString => EmptyString
  end.

Fixpoint str_drop (n : nat) (s : string) : string :=
  match n, s with
  | O, _ => s
  | S n', String _ s' => str_drop n' s'
  | S _, EmptyString => EmptyString
  end.

Fixpoint str_forallb (p : Ascii.ascii -> bool) (s : string) : bool :=
  match s with
  | EmptyString => true
  | String c s' => p c && str_forallb p s'
  end.

(** [sv.find(pat)] of [std::string_view]: the first position at which [pat]
    occurs, [None] for [npos]. *)
Fixpoint str_find (pat s : string) : option nat :=
  if String.prefix pat s then Some O
  else match s with
       | EmptyString => None
       | String _ s' => S <$> str_find pat s'
       end.

(** [sv.rfind(c)]: the last position of the character [c]. *)
Fixpoint str_rfind (c : Ascii.ascii) (s : string) : option nat :=
  match s with
  | EmptyString => None
  | String c' s' =>
      match str_rfind c s' with
      | Some n => Some (S n)
      | None => if Ascii.eqb c c' then Some O else None
      end
  end.

(** The code of a character, 0 to 255. *)
Definition ascii_code (c : Ascii.ascii) : Z := Z.of_N (Ascii.N_of_ascii c).
Definition ascii_of_code (z : Z) : Ascii.ascii := Ascii.ascii_of_N (Z.to_N z).

(** [std::to_string] of an unsigned integer, one decimal digit at a time. The
    fuel is the number of digits available: twenty are enough below [10 ^ 20],
    which covers 64 bits. *)
Fixpoint to_string_go (fuel : nat) (z : Z) (acc : string) : string :=
  match fuel with
  | O => acc
  | S fuel' =>
      let acc' := String (ascii_of_code (48 + z mod 10)) acc in
      if z <? 10 then acc' else to_string_go fuel' (z / 10) acc'
  end.
Definition to_string (z : Z) : string := to_string_go 20 z EmptyString.

(** ** Sums of sizes *)

Definition sum_sizes {A} (f : A -> Z) (l : list A) : Z := foldr (fun a s => f a + s) 0 l.

(** ** Automation *)

Create HintDb duct.
Create Rewrite HintDb duct.
#[export] Hint Unfold wrap : duct.

(** Splits every [match] and [if] of the goal or of a hypothesis. *)
Ltac break_match :=
  match goal with
  | |- context [match ?x with _ => _ end] => destruct x eqn:?
  | H : context [match ?x with _ => _ end] |- _ => destruct x eqn:?
  end.

(** Turns boolean comparisons into propositions. *)
Ltac bool_to_prop :=
  repeat match goal with
  | H : (_ && _) = true |- _ => apply andb_true_iff in H; destruct H
  | H : (_ || _) = false |- _ => apply orb_false_iff in H; destruct H
  | H : negb _ = true |- _ => apply negb_true_iff in H
  | H : negb _ = false |- _ => apply negb_false_iff in H
  | H : (_ <? _) = true |- _ => apply Z.ltb_lt in H
  | H : (_ <? _) = false |- _ => apply Z.ltb_ge in H
  | H : (_ <=? _) = true |- _ => apply Z.leb_le in H
  | H : (_ <=? _) = false |- _ => apply Z.leb_gt in H
  | H : (_ >? _) = true |- _ => rewrite Z.gtb_ltb in H; apply Z.ltb_lt in H
  | H : (_ >? _) = false |- _ => rewrite Z.gtb_ltb in H; apply Z.ltb_ge in H
  | H : (_ >=? _) = true |- _ => rewrite Z.geb_leb in H; apply Z.leb_le in H
  | H : (_ >=? _) = false |- _ => rewrite Z.geb_leb in H; apply Z.leb_gt in H
  | H : (_ =? _) = true |- _ => apply Z.eqb_eq in H
  | H : (_ =? _) = false |- _ => apply Z.eqb_neq in H
  end.

(** ** Invariants of step relations *)

(** Induction on reachability: an invariant of one step holds along all. *)
Lemma rtc_invariant {S : Type} (R : S -> S -> Prop) (I : S -> Prop) :
  (forall s s', I s -> R s s' -> I s') ->
  forall s s', rtc R s s' -> I s -> I s'.
Proof. intros Hstep s s' Hr. induction Hr; eauto. Qed.

(** ** Lemmas on machine integers *)

Lemma wrap_small w z : 0 <= z < 2 ^ w -> wrap w z = z.
Proof. apply Z.mod_small. Qed.

Lemma geb_spec a b : reflect (b <= a) (a >=? b).
Proof. rewrite Z.geb_leb. apply Z.leb_spec0. Qed.

Lemma gtb_spec a b : reflect (b < a) (a >? b).
Proof. rewrite Z.gtb_ltb. apply Z.ltb_spec0. Qed.

Lemma wrap_range w z : 0 <= w -> 0 <= wrap w z < 2 ^ w.
Proof. intros. apply Z.mod_pos_bound. lia. Qed.

Lemma wrap_add_l w a b : wrap w (wrap w a + b) = wrap w (a + b).
Proof. apply Zplus_mod_idemp_l. Qed.

Lemma wrap_sub_l w a b : wrap w (wrap w a - b) = wrap w (a - b).
Proof. apply Zminus_mod_idemp_l. Qed.

Lemma wrap_mod w a k : 0 <= k <= w -> wrap w a mod 2 ^ k = a mod 2 ^ k.
Proof.
  intros Hk. unfold wrap. replace w with (k + (w - k)) by lia.
  rewrite Z.pow_add_r by lia.
  rewrite (Z.mul_comm (2 ^ k)). symmetry.
  rewrite (Z.div_mod a (2 ^ (w - k) * 2 ^ k)) at 1 by nia.
  rewrite Z.mul_comm, Z.mul_assoc, Z.add_comm. apply Z_mod_plus_full.
Qed.

Lemma byte_to_N_bound b : (Strings.Byte.to_N b < 256)%N.
Proof. pose proof (Strings.Byte.to_N_bounded b). lia. Qed.

Lemma Z_of_byte_range b : 0 <= Z_of_byte b < 256.
Proof. unfold Z_of_byte. pose proof (byte_to_N_bound b). lia. Qed.

Lemma byte_of_Z_of_byte b : byte_of_Z (Z_of_byte b) = b.
Proof.
  unfold byte_of_Z. rewrite wrap_small by (apply Z_of_byte_range).
  unfold Z_of_byte. rewrite N2Z.id, Strings.Byte.of_to_N. done.
Qed.

Lemma Z_of_byte_of_Z z : Z_of_byte (byte_of_Z z) = wrap8 z.
Proof.
  unfold byte_of_Z, Z_of_byte.
  pose proof (wrap_range 8 z ltac:(lia)) as Hr. change (2 ^ 8) with 256 in Hr.
  destruct (Strings.Byte.of_N (Z.to_N (wrap8 z))) as [b|] eqn:E.
  - apply Strings.Byte.to_of_N in E. rewrite E. lia.
  - apply Strings.Byte.of_N_None_iff in E. lia.
Qed.

#[export] Hint Rewrite wrap_add_l wrap_sub_l byte_of_Z_of_byte Z_of_byte_of_Z : duct.

(** ** Lemmas on sums *)

Lemma sum_sizes_cons {A} (f : A -> Z) a l : sum_sizes f (a :: l) = f a + sum_sizes f l.
Proof. done. Qed.

Lemma sum_sizes_app {A} (f : A -> Z) l k :
  sum_sizes f (l ++ k) = sum_sizes f l + sum_sizes f k.
Proof. induction l as [|a l IH]; simpl; [lia|]. rewrite IH. lia. Qed.

Lemma sum_sizes_nonneg {A} (f : A -> Z) l : (forall a, 0 <= f a) -> 0 <= sum_sizes f l.
Proof. intros Hf. induction l as [|a l IH]; simpl; [lia|]. specialize (Hf a). lia. Qed.

#[export] Hint Rewrite @sum_sizes_app : duct.

(** ** Lemmas on strings *)

Lemma str_app_nil_r s : s +:+ EmptyString = s.
Proof. induction s as [|c s IH]; simpl; [done|by rewrite IH]. Qed.

Lemma str_app_assoc s t u : (s +:+ t) +:+ u = s +:+ (t +:+ u).
Proof. induction s as [|c s IH]; simpl; [done|by rewrite IH]. Qed.

Lemma str_length_app s t : String.length (s +:+ t) = (String.length s + String.length t)%nat.
Proof. induction s as [|c s IH]; simpl; [done|by rewrite IH]. Qed.

Lemma str_take_app s t : str_take (String.length s) (s +:+ t) = s.
Proof. induction s as [|c s IH]; simpl; [by destruct t|by rewrite IH]. Qed.

Lemma str_drop_app s t : str_drop (String.length s) (s +:+ t) = t.
Proof. induction s; simpl; [by destruct t|done]. Qed.

Lemma str_take_drop n s : str_take n s +:+ str_drop n s = s.
Proof.
  revert s. induction n as [|n IH]; intros [|c s]; simpl; try done. by rewrite IH.
Qed.

Lemma str_length_take n s : String.length (str_take n s) = Nat.min n (String.length s).
Proof. revert s. induction n; intros [|c s]; simpl; congruence. Qed.

Lemma str_forallb_app p s t : str_forallb p (s +:+ t) = str_forallb p s && str_forallb p t.
Proof. induction s; simpl; [done|]. rewrite IHs. apply andb_assoc. Qed.

Lemma str_app_inv_head s t u : s +:+ t = s +:+ u -> t = u.
Proof. induction s; simpl; [done|]. intros H. inv H. auto. Qed.

Lemma str_app_inj s s' t t' :
  String.length s = String.length s' -> s +:+ t = s' +:+ t' -> s = s' /\ t = t'.
Proof.
  revert s'. induction s as [|c s IH]; intros [|c' s']; simpl; intros Hl He; try done.
  inv He. inv Hl. destruct (IH s') as [-> ->]; done.
Qed.

(** A pattern is found at or before any position where it occurs. *)
Lemma str_find_prefix pat s : String.prefix pat s = true -> str_find pat s = Some O.
Proof. destruct s; simpl; intros ->; done. Qed.

Lemma str_rfind_app_none c s t :
  str_rfind c t = None ->
  str_rfind c (s +:+ String c t) = Some (String.length s).
Proof.
  intros Ht. induction s as [|c' s IH]; simpl.
  - rewrite Ht, Ascii.eqb_refl. done.
  - rewrite IH. done.
Qed.

Lemma str_rfind_forallb c p s :
  p c = false -> str_forallb p s = true -> str_rfind c s = None.
Proof.
  intros Hc. induction s as [|c' s IH]; simpl; [done|]. intros H. bool_to_prop.
  rewrite IH by done. destruct (Ascii.eqb_spec c c') as [->|]; congruence.
Qed.

Lemma str_prefix_split pat s :
  String.prefix pat s = true -> s = pat +:+ str_drop (String.length pat) s.
Proof.
  revert s. induction pat as [|c pat IH]; intros [|c' s]; simpl; try done.
  destruct (Ascii.ascii_dec c c') as [<-|]; [|done]. intros H. by rewrite <- IH.
Qed.

Lemma str_find_Some pat s n :
  str_find pat s = Some n ->
  s = str_take n s +:+ pat +:+ str_drop (n + String.length pat) s.
Proof.
  revert n. induction s as [|c s IH]; intros n; cbn [str_find];
    destruct (String.prefix pat _) eqn:E.
  - intros [= <-]. apply (str_prefix_split _ _ E).
  - done.
  - intros [= <-]. apply (str_prefix_split _ _ E).
  - destruct (str_find pat s) as [m|] eqn:Em; simpl; [|done]. intros [= <-]. simpl.
    by rewrite <- IH.
Qed.

Lemma str_rfind_Some c s n :
  str_rfind c s = Some n -> s = str_take n s +:+ String c (str_drop (n + 1) s).
Proof.
  revert n. induction s as [|c' s IH]; intros n; simpl; [done|].
  destruct (str_rfind c s) as [m|] eqn:E.
  - intros [= <-]. simpl. by rewrite <- IH.
  - destruct (Ascii.eqb_spec c c') as [<-|]; [|done]. intros [= <-]. done.
Qed.
