(* ===== verification/Status.v ===== *)
(** * Status codes, results and exceptions (include/duct/status.h)

    [StatusCode], [Status] and [Result<T>] as data, the conversions to text and
    the two exception paths ([throw_if_error], [value_or_throw]). A [Result<T>]
    is built from a value or from a status, and that choice fixes its private
    fields [ok_], [value_] and [status_]; the inductive type below has one
    constructor for each. A [Result<void>] is its status. *)

From S2P Require Import Prelude.

(** src/include/duct/status.h:10-18 [StatusCode] *)
Inductive StatusCode :=
| kOk
| kInvalidArgument
| kNotSupported
| kIoError
| kTimeout
| kClosed
| kProtocolError.

#[export] Instance StatusCode_eq_dec : EqDecision StatusCode.
Proof. solve_decision. Defined.

(** src/include/duct/status.h:23-34 [to_string(StatusCode)] *)
Definition code_to_string (code : StatusCode) : string :=
  match code with
  | kOk => "Ok"
  | kInvalidArgument => "Invalid argument"
  | kNotSupported => "Not supported"
  | kIoError => "I/O error"
  | kTimeout => "Timeout"
  | kClosed => "Closed"
  | kProtocolError => "Protocol error"
  end.

(** src/include/duct/status.h:62-73 [Status] *)
Record Status := mkStatus { code : StatusCode; message : string }.

#[export] Instance Status_eq_dec : EqDecision Status.
Proof. solve_decision. Defined.

(** src/include/duct/status.h:64-64 [Status::Status] *)
Definition Status_default : Status := mkStatus kOk EmptyString.
(** src/include/duct/status.h:67-67 [Status::Ok] *)
Definition Ok : Status := Status_default.
(** src/include/duct/status.h:68-68 [Status::invalid_argument] *)
Definition invalid_argument (m : string) : Status := mkStatus kInvalidArgument m.
(** src/include/duct/status.h:69-69 [Status::not_supported] *)
Definition not_supported (m : string) : Status := mkStatus kNotSupported m.
(** src/include/duct/status.h:70-70 [Status::io_error] *)
Definition io_error (m : string) : Status := mkStatus kIoError m.
(** src/include/duct/status.h:71-71 [Status::timeout] *)
Definition timeout (m : string) : Status := mkStatus kTimeout m.
(** src/include/duct/status.h:72-72 [Status::closed] *)
Definition closed (m : string) : Status := mkStatus kClosed m.
(** src/include/duct/status.h:73-73 [Status::protocol_error] *)
Definition protocol_error (m : string) : Status := mkStatus kProtocolError m.

(** src/include/duct/status.h:75-76 [Status::ok] *)
Definition status_ok (s : Status) : bool := bool_decide (code s = kOk).

(** src/include/duct/status.h:39-57 [Exception] *)
Record Exception := mkException {
  exn_code : StatusCode;
  exn_message : string;
  exn_full_message : string;
}.

(** src/include/duct/status.h:41-44 [Exception::Exception(StatusCode, std::string)] *)
Definition Exception_make (c : StatusCode) (m : string) : Exception :=
  mkException c m ("[" +:+ code_to_string c +:+ "] " +:+ m).

(** src/include/duct/status.h:104-105 [Exception::Exception(const Status&)] *)
Definition Exception_of_status (s : Status) : Exception := Exception_make (code s) (message s).

(** src/include/duct/status.h:48-48 [Exception::what] *)
Definition what (e : Exception) : string := exn_full_message e.

(** src/include/duct/status.h:84-87 [Status::to_string] *)
Definition status_to_string (s : Status) : string :=
  if status_ok s then "Ok"
  else "[" +:+ code_to_string (code s) +:+ "] " +:+ message s.

(** What a call that may throw does. *)
Inductive Outcome (A : Type) :=
| Returns (a : A)
| Throws (e : Exception).
Arguments Returns {A} a.
Arguments Throws {A} e.

(** src/include/duct/status.h:93-97 [Status::throw_if_error] *)
Definition throw_if_error (s : Status) : Outcome unit :=
  if status_ok s then Returns tt else Throws (Exception_of_status s).

(** src/include/duct/status.h:107-111 [Result<T>] *)
Inductive Result (T : Type) :=
| RValue (v : T)
| RStatus (s : Status).
Arguments RValue {T} v.
Arguments RStatus {T} s.

#[export] Instance Result_eq_dec {T} `{EqDecision T} : EqDecision (Result T).
Proof. solve_decision. Defined.

(** src/include/duct/status.h:113-114 [Result<T>::ok] *)
Definition ok {T} (r : Result T) : bool :=
  match r with RValue _ => true | RStatus _ => false end.

(** src/include/duct/status.h:115-115 [Result<T>::status] *)
Definition status {T} (r : Result T) : Status :=
  match r with RValue _ => Status_default | RStatus s => s end.

(** src/include/duct/status.h:117-119 [Result<T>::value] *)
Definition value {T} `{Inhabited T} (r : Result T) : T :=
  match r with RValue v => v | RStatus _ => inhabitant end.

(** src/include/duct/status.h:125-138 [Result<T>::value_or_throw] *)
Definition value_or_throw {T} `{Inhabited T} (r : Result T) : Outcome T :=
  match throw_if_error (status r) with
  | Throws e => Throws e
  | Returns _ => Returns (value r)
  end.

(** src/include/duct/status.h:143-157 [Result<T>::value_or] *)
Definition value_or {T} (r : Result T) (default_value : T) : T :=
  match r with RValue v => v | RStatus _ => default_value end.

(** src/include/duct/status.h:165-173 [Result<void>] *)
Definition Result_void : Type := Status.

(** Result-building notations used by the components. *)
Notation "'Err' s" := (RStatus s) (at level 10, only parsing) : duct_scope.

(** ** Lemmas *)

Lemma status_ok_spec s : status_ok s = true <-> code s = kOk.
Proof. unfold status_ok. apply bool_decide_eq_true. Qed.

Lemma status_ok_false s : status_ok s = false <-> code s <> kOk.
Proof. unfold status_ok. apply bool_decide_eq_false. Qed.

Lemma code_to_string_inj : Inj (=) (=) code_to_string.
Proof. intros [] []; simpl; congruence. Qed.

(** Result statuses that are not Ok: the constructors used on error paths. *)
Lemma error_codes m :
  status_ok (invalid_argument m) = false /\ status_ok (not_supported m) = false /\
  status_ok (io_error m) = false /\ status_ok (timeout m) = false /\
  status_ok (closed m) = false /\ status_ok (protocol_error m) = false.
Proof. repeat split; reflexivity. Qed.

(** [value_or_throw] looks at the status, not at [ok_]. It throws exactly when
    the status is an error, the exception's text is the status's own text, and
    it returns the stored value otherwise. A result built from a status that is
    Ok therefore has [ok () = false] and returns a default-constructed value
    without throwing; every other result that is not ok throws. *)
Theorem value_or_throw_spec {T} `{Inhabited T} (r : Result T) :
  match value_or_throw r with
  | Throws e =>
      exists s, r = RStatus s /\ code s <> kOk /\
        exn_code e = code s /\ what e = status_to_string s
  | Returns v =>
      r = RValue v \/ exists s, r = RStatus s /\ code s = kOk /\ v = inhabitant
  end.
Proof.
  destruct r as [v|s]; [by left|].
  unfold value_or_throw, throw_if_error, status_to_string; simpl.
  destruct (status_ok s) eqn:E; simpl.
  - apply status_ok_spec in E. right. eauto.
  - apply status_ok_false in E as E'. exists s. split; [done|].
    split; [done|]. unfold what, status_to_string. by rewrite E.
Qed.
