(* ===== verification/Message.v ===== *)
(** * Messages and their shared storage (include/duct/message.h, src/message.cc)

    A [Message] is a handle: copying it copies a [shared_ptr] to the vector
    that holds the bytes, so two copies alias. The vectors live in a heap, a
    finite map from locations to their elements and capacity; the operations
    that allocate take the heap and return the new one. [data_] is the address
    of the first element of the backing vector, or null. The wire, ring and
    queue components never write through a message, and use its bytes, the
    list [view] computes. *)

From S2P Require Import Prelude.

Abbreviation loc := positive.

(** A [std::vector<std::uint8_t>]: its elements and reserved capacity. *)
Record Vector := mkVector { elems : list byte; reserved : Z }.

Abbreviation Heap := (gmap loc Vector).

(** src/include/duct/message.h:13-15 [Message] *)
Record Message := mkMessage {
  backing_ : option loc;
  data_ : option loc;
  size_ : Z;
}.

#[export] Instance Message_eq_dec : EqDecision Message.
Proof. solve_decision. Defined.

(** src/include/duct/message.h:65-67 [Message::Message] *)
Definition Message_default : Message := mkMessage None None 0.

(** [std::make_shared<std::vector<std::uint8_t>>]: a new location. *)
Definition make_shared (h : Heap) (v : Vector) : Heap * loc :=
  let l := fresh (dom h) in (<[l := v]> h, l).

(** [std::memcpy] of [n] bytes out of a readable region [src]; reading past its
    end is undefined behaviour, [None]. *)
Definition memcpy (src : list byte) (n : Z) : option (list byte) :=
  if (0 <=? n) && (n <=? len src) then Some (take (Z.to_nat n) src) else None.

(** src/src/message.cc:7-16 [Message::from_bytes] *)
Definition from_bytes (h : Heap) (data : list byte) (size : Z) : option (Heap * Message) :=
  if size =? 0 then
    let '(h', l) := make_shared h (mkVector [] 0) in
    Some (h', mkMessage (Some l) (Some l) 0)
  else
    bytes ← memcpy data size;
    let '(h', l) := make_shared h (mkVector bytes size) in
    Some (h', mkMessage (Some l) (Some l) size).

(** src/src/message.cc:18-20 [Message::from_bytes(std::span)] *)
Definition from_bytes_span (h : Heap) (bytes : list byte) : option (Heap * Message) :=
  from_bytes h bytes (len bytes).

(** src/src/message.cc:22-24 [Message::from_string] *)
Definition from_string (h : Heap) (s : string) : option (Heap * Message) :=
  from_bytes h (String.list_byte_of_string s) (Z.of_nat (String.length s)).

(** src/src/message.cc:26-33 [Message::with_capacity] *)
Definition with_capacity (h : Heap) (capacity : Z) : Heap * Message :=
  let '(h', l) := make_shared h (mkVector [] capacity) in
  (h', mkMessage (Some l) (Some l) 0).

(** src/include/duct/message.h:30-30 [Message::size] *)
Definition size (m : Message) : Z := size_ m.

(** src/include/duct/message.h:31-31 [Message::empty] *)
Definition empty (m : Message) : bool := size_ m =? 0.

(** src/include/duct/message.h:34-34 [Message::backing] *)
Definition backing (m : Message) : option loc := backing_ m.

(** The elements [data_] points to. *)
Definition pointed_bytes (h : Heap) (p : option loc) : list byte :=
  match p with
  | Some l => match h !! l with Some v => elems v | None => [] end
  | None => []
  end.

(** src/include/duct/message.h:37-38 [Message::view] *)
Definition view (h : Heap) (m : Message) : list byte :=
  take (Z.to_nat (size_ m)) (pointed_bytes h (data_ m)).

(** src/include/duct/message.h:41-43 [Message::as_string_view] *)
Definition as_string_view (h : Heap) (m : Message) : string :=
  String.string_of_list_byte (view h m).

(** src/include/duct/message.h:46-52 [Message::copy_to]

    [dest] is the destination region; the result is the byte count and the
    region afterwards. A region shorter than the copy is undefined. *)
Definition copy_to (h : Heap) (m : Message) (dest : list byte) (max_size : Z)
    : option (Z * list byte) :=
  let copy_size := Z.min (size_ m) max_size in
  if copy_size >? 0 then
    if copy_size <=? len dest then
      bytes ← memcpy (view h m) copy_size;
      Some (copy_size, bytes ++ drop (Z.to_nat copy_size) dest)
    else None
  else Some (copy_size, dest).

(** src/include/duct/message.h:55-58 [Message::equals] *)
Definition equals (h : Heap) (m other : Message) : bool :=
  (size_ m =? size_ other) && ((size_ m =? 0) || bool_decide (view h m = view h other)).

(** src/include/duct/message.h:28-29 [Message::data]

    [m.data()[i] = b]: a caller's write through the non-const [data()].
    Out of range it is undefined. *)
Definition data_write (h : Heap) (m : Message) (i : Z) (b : byte) : option Heap :=
  l ← data_ m;
  v ← h !! l;
  if (0 <=? i) && (i <? len (elems v)) then
    Some (<[l := mkVector (<[Z.to_nat i := b]> (elems v)) (reserved v)]> h)
  else None.

(** The class invariant: [data_] is the start of the backing vector, whose
    length is [size_]; a default message has neither. *)
Definition message_wf (h : Heap) (m : Message) : Prop :=
  data_ m = backing_ m /\
  match backing_ m with
  | Some l => exists v, h !! l = Some v /\ size_ m = len (elems v)
  | None => size_ m = 0
  end.

(** ** Lemmas *)

Lemma make_shared_fresh h v h' l :
  make_shared h v = (h', l) -> h !! l = None /\ h' = <[l := v]> h.
Proof.
  unfold make_shared. intros [= <- <-]. split; [|done].
  apply not_elem_of_dom. apply is_fresh.
Qed.

Lemma memcpy_whole bs : memcpy bs (len bs) = Some bs.
Proof.
  unfold memcpy. rewrite (proj2 (Z.leb_le _ _)), (proj2 (Z.leb_le _ _)) by lia; simpl.
  by rewrite Nat2Z.id, firstn_all.
Qed.

Lemma view_wf h m : message_wf h m -> view h m = pointed_bytes h (data_ m).
Proof.
  intros [Hd Hb]. unfold view. rewrite Hd. destruct (backing_ m) as [l|].
  - destruct Hb as (v & Hv & Hs). simpl. rewrite Hv, Hs, Nat2Z.id. apply firstn_all.
  - simpl. by rewrite take_nil.
Qed.

Lemma view_length h m : message_wf h m -> len (view h m) = size_ m.
Proof.
  intros Hwf. rewrite (view_wf _ _ Hwf). destruct Hwf as [Hd Hb]. rewrite Hd.
  destruct (backing_ m) as [l|]; simpl; [|done].
  destruct Hb as (v & -> & ->). done.
Qed.

(** Allocation leaves the existing messages alone. *)
Lemma wf_alloc h m h' l v :
  make_shared h v = (h', l) -> message_wf h m -> message_wf h' m /\ view h' m = view h m.
Proof.
  intros [Hf ->]%make_shared_fresh Hwf. pose proof Hwf as [Hd Hb].
  assert (Hne : forall l', backing_ m = Some l' -> l' <> l).
  { intros l' E ->. rewrite E in Hb. destruct Hb as (? & ? & ?). congruence. }
  split.
  - split; [done|]. destruct (backing_ m) as [l'|]; [|done].
    rewrite lookup_insert_ne by (symmetry; by apply Hne). done.
  - unfold view, pointed_bytes. rewrite Hd. destruct (backing_ m) as [l'|]; [|done].
    by rewrite lookup_insert_ne by (symmetry; by apply Hne).
Qed.

Lemma from_bytes_whole h bs :
  exists h' l, make_shared h (mkVector bs (len bs)) = (h', l) /\
    from_bytes h bs (len bs) = Some (h', mkMessage (Some l) (Some l) (len bs)).
Proof.
  unfold from_bytes. destruct (Z.eqb_spec (len bs) 0) as [E|E].
  - destruct bs; [|simpl in E; lia]. simpl. eauto.
  - rewrite memcpy_whole. simpl. eauto.
Qed.

(** [from_bytes] on a readable region of the given size always succeeds. It
    returns a well-formed message that owns a private copy: its view is exactly
    the bytes, its storage is shared with no existing message, and every
    existing message keeps its well-formedness and its bytes. *)
Theorem from_bytes_copies h bs :
  exists h' m, from_bytes h bs (len bs) = Some (h', m) /\
    message_wf h' m /\ view h' m = bs /\ size m = len bs /\
    forall m0, message_wf h m0 ->
      message_wf h' m0 /\ view h' m0 = view h m0 /\ backing m0 <> backing m.
Proof.
  destruct (from_bytes_whole h bs) as (h' & l & Hms & ->).
  do 2 eexists. split; [done|].
  pose proof (make_shared_fresh _ _ _ _ Hms) as [Hf ->].
  assert (Hwf : message_wf (<[l:=mkVector bs (len bs)]> h) (mkMessage (Some l) (Some l) (len bs))).
  { split; [done|]. simpl. rewrite lookup_insert_eq. eauto. }
  split; [done|]. split.
  { rewrite view_wf by done. simpl. by rewrite lookup_insert_eq. }
  split; [done|]. intros m0 H0.
  destruct (wf_alloc _ _ _ _ _ Hms H0) as [H1 H2]. split; [done|]. split; [done|].
  destruct H0 as [_ Hb]. unfold backing; simpl. intros E. rewrite E in Hb.
  destruct Hb as (? & ? & ?). congruence.
Qed.

Lemma data_write_wf h m i b :
  message_wf h m -> 0 <= i < size_ m ->
  exists l v, data_ m = Some l /\ h !! l = Some v /\
    data_write h m i b =
      Some (<[l := mkVector (<[Z.to_nat i := b]> (elems v)) (reserved v)]> h).
Proof.
  intros [Hd Hb] Hi. rewrite <- Hd in Hb. unfold data_write.
  destruct (data_ m) as [l|]; [|lia]. destruct Hb as (v & Hv & Hs).
  exists l, v. repeat split; [done|]. simpl. rewrite Hv. simpl.
  rewrite (proj2 (Z.leb_le _ _)), (proj2 (Z.ltb_lt _ _)) by lia. done.
Qed.

(** a write through [data()] is seen by every message that shares the backing
    vector (copies of the handle alias) and by no other: the storage of a
    message built by [from_bytes] cannot be changed through an unrelated one. *)
Theorem data_write_aliasing h m i b m' :
  message_wf h m -> message_wf h m' -> 0 <= i < size_ m ->
  exists h', data_write h m i b = Some h' /\ message_wf h' m' /\
    view h' m' =
      if bool_decide (backing m' = backing m) then <[Z.to_nat i := b]> (view h m')
      else view h m'.
Proof.
  intros Hm Hm' Hi. destruct (data_write_wf h m i b Hm Hi) as (l & v & Hd & Hv & ->).
  eexists. split; [done|].
  assert (Hwf : message_wf (<[l:=mkVector (<[Z.to_nat i:=b]> (elems v)) (reserved v)]> h) m').
  { destruct Hm' as [Hd' Hb']. split; [done|]. destruct (backing_ m') as [l'|]; [|done].
    destruct Hb' as (v' & Hv' & Hs'). destruct (decide (l = l')) as [<-|Hne].
    - rewrite lookup_insert_eq. eexists. split; [done|]. simpl. rewrite length_insert.
      congruence.
    - rewrite lookup_insert_ne by done. eauto. }
  split; [done|]. rewrite (view_wf _ m' Hwf), (view_wf _ m' Hm').
  unfold backing. destruct Hm as [Hdm _], Hm' as [Hdm' Hb'].
  rewrite <- Hdm, <- Hdm', Hd. destruct (data_ m') as [l'|] eqn:El'; simpl; [|done].
  case_bool_decide as E; simplify_eq/=.
  - by rewrite lookup_insert_eq, Hv.
  - rewrite lookup_insert_ne; [done|]. intros ->. done.
Qed.

(** [equals] decides equality of the bytes, and is therefore an equivalence
    on well-formed messages, whatever storage they use. *)
Theorem equals_spec h m m' :
  message_wf h m -> message_wf h m' ->
  equals h m m' = bool_decide (view h m = view h m').
Proof.
  intros Hm Hm'. pose proof (view_length _ _ Hm) as L. pose proof (view_length _ _ Hm') as L'.
  unfold equals. symmetry. case_bool_decide as E.
  - rewrite (proj2 (Z.eqb_eq _ _)) by congruence. by rewrite orb_true_r.
  - rewrite orb_false_r. destruct (Z.eqb_spec (size_ m) (size_ m')) as [Es|]; [|done].
    destruct (Z.eqb_spec (size_ m) 0) as [E0|]; [|done]. exfalso. apply E.
    assert (Hn : view h m = []) by (apply nil_length_inv; lia).
    assert (Hn' : view h m' = []) by (apply nil_length_inv; lia). congruence.
Qed.

(** [copy_to] writes the first [min(size, max_size)] bytes of the message at
    the start of the destination, leaves the rest of it unchanged and returns
    the count; it never writes past [max_size] bytes. *)
Theorem copy_to_spec h m dest max_size :
  message_wf h m -> 0 <= max_size <= len dest ->
  exists n, copy_to h m dest max_size =
      Some (n, take (Z.to_nat n) (view h m) ++ drop (Z.to_nat n) dest) /\
    n = Z.min (size m) max_size.
Proof.
  intros Hm Hmax. pose proof (view_length _ _ Hm) as L.
  exists (Z.min (size_ m) max_size). split; [|done]. unfold copy_to.
  rewrite Z.gtb_ltb. destruct (Z.ltb_spec 0 (Z.min (size_ m) max_size)) as [H|H].
  - rewrite (proj2 (Z.leb_le _ _)) by lia. unfold memcpy.
    rewrite (proj2 (Z.leb_le _ _)), (proj2 (Z.leb_le _ _)) by lia. done.
  - replace (Z.to_nat (Z.min (size_ m) max_size)) with 0%nat by lia. done.
Qed.

(** ** Witnesses *)

Definition abc : list byte := [Init.Byte.x61; Init.Byte.x62; Init.Byte.x63].
Definition sample_heap : Heap := {[ 1%positive := mkVector abc 3 ]}.
Definition sample_message : Message := mkMessage (Some 1%positive) (Some 1%positive) 3.

Lemma sample_wf : message_wf sample_heap sample_message.
Proof. split; [done|]. simpl. exists (mkVector abc 3). done. Qed.

Lemma data_write_aliasing_witness :
  exists h', data_write sample_heap sample_message 1 Init.Byte.x7a = Some h' /\
    message_wf h' sample_message /\
    view h' sample_message = [Init.Byte.x61; Init.Byte.x7a; Init.Byte.x63].
Proof.
  apply (data_write_aliasing sample_heap sample_message 1 Init.Byte.x7a sample_message).
  - exact sample_wf.
  - exact sample_wf.
  - simpl. lia.
Defined.

Lemma equals_spec_witness : equals sample_heap sample_message sample_message = true.
Proof. exact (equals_spec sample_heap sample_message sample_message sample_wf sample_wf). Defined.

Lemma copy_to_spec_witness :
  exists n, copy_to sample_heap sample_message [Init.Byte.x00; Init.Byte.x00] 2 =
    Some (n, [Init.Byte.x61; Init.Byte.x62]) /\ n = 2.
Proof.
  destruct (copy_to_spec sample_heap sample_message [Init.Byte.x00; Init.Byte.x00] 2
              sample_wf ltac:(simpl; lia)) as (n & H1 & H2).
  exists n. subst n. split; [exact H1 | reflexivity].
Defined.
