(* ===== verification/Wire.v ===== *)
(** * The framing protocol (include/duct/wire.h, src/wire.cc, include/duct/protocol.h)

    A frame is a 16-byte header in network byte order and at most 64 KiB of
    payload. [encode_header] and [decode_header] are modelled with the host's
    byte order as a parameter: [htonl] and its kin swap on a little-endian host
    and do nothing on a big-endian one, and [memcpy] stores an integer in host
    order. [write_all] and [read_exact] are the loops over [::send] and
    [::recv] on a stream socket whose kernel may transfer any part of the
    buffer, be interrupted, fail or report the peer closed; one scripted
    [io_event] answers one call, so the loops are structural on the script and
    [Blocks] is a call the script never answers. Only the POSIX side is
    modelled; the Winsock initialisation and [SO_NOSIGPIPE] are not. *)

From S2P Require Import Prelude Status.

(** ** Integers in memory *)

(** The byte order of the machine the code runs on. *)
Class HostOrder := little_endian : bool.

(** The [n] low-order bytes of [z], least significant first, and back. *)
Fixpoint le_bytes (n : nat) (z : Z) : list byte :=
  match n with
  | O => []
  | S n' => byte_of_Z z :: le_bytes n' (z / 256)
  end.
Definition le_value (bs : list byte) : Z := foldr (fun b acc => Z_of_byte b + 256 * acc) 0 bs.

(** An unsigned integer of [n] bytes as [memcpy] finds it in memory. *)
Definition host_bytes {H : HostOrder} (n : nat) (z : Z) : list byte :=
  if little_endian then le_bytes n z else rev (le_bytes n z).
Definition host_value {H : HostOrder} (bs : list byte) : Z :=
  if little_endian then le_value bs else le_value (rev bs).

Definition byte_swap (n : nat) (z : Z) : Z := le_value (rev (le_bytes n z)).

(** [htons]/[ntohs] for [n = 2], [htonl]/[ntohl] for [n = 4]. *)
Definition hton {H : HostOrder} (n : nat) (z : Z) : Z :=
  if little_endian then byte_swap n z else z.
Definition ntoh {H : HostOrder} (n : nat) (z : Z) : Z := hton n z.

(** ** The header *)

(** src/include/duct/protocol.h:11-11 [kProtocolMagic] *)
Definition kProtocolMagic : Z := 0x44554354.
(** src/include/duct/protocol.h:12-12 [kProtocolVersion] *)
Definition kProtocolVersion : Z := 1.
(** src/include/duct/wire.h:11-11 [kHeaderLen] *)
Definition kHeaderLen : Z := 16.
(** src/include/duct/wire.h:12-12 [kMaxFramePayload] *)
Definition kMaxFramePayload : Z := 64 * 1024.

(** src/include/duct/protocol.h:22-30 [FrameFlags]

    An enumeration with a fixed underlying type: every 32-bit value is one. *)
Definition FrameFlags : Type := Z.
Definition kNone : FrameFlags := 0.
Definition kReliable : FrameFlags := Z.shiftl 1 0.
Definition kFrag : FrameFlags := Z.shiftl 1 4.
(** src/include/duct/protocol.h:36-38 [to_u32] *)
Definition to_u32 (f : FrameFlags) : Z := f.
(** src/include/duct/protocol.h:32-34 [operator|] *)
Definition flags_or (a b : FrameFlags) : FrameFlags := Z.lor (to_u32 a) (to_u32 b).

(** src/include/duct/wire.h:25-31 [FrameHeader] *)
Record FrameHeader := mkHeader {
  magic : Z;
  version : Z;
  header_len : Z;
  payload_len : Z;
  flags : Z;
}.

(** The fields hold values of their types. *)
Definition header_wf (h : FrameHeader) : Prop :=
  0 <= magic h < 2 ^ 32 /\ 0 <= version h < 2 ^ 16 /\ 0 <= header_len h < 2 ^ 16 /\
  0 <= payload_len h < 2 ^ 32 /\ 0 <= flags h < 2 ^ 32.

(** [std::memcpy(out + off, bs, |bs|)] *)
Definition put (off : nat) (bs out : list byte) : list byte :=
  take off out ++ bs ++ drop (off + length bs) out.
(** [std::memcpy(&x, in + off, n)] *)
Definition get (off n : nat) (inb : list byte) : list byte := take n (drop off inb).

(** src/src/wire.cc:22-34 [encode_header] *)
Definition encode_header {H : HostOrder} (h : FrameHeader) (out : list byte) : list byte :=
  let magic' := hton 4 (magic h) in
  let version' := hton 2 (version h) in
  let header_len' := hton 2 (header_len h) in
  let payload_len' := hton 4 (payload_len h) in
  let flags' := hton 4 (flags h) in
  let out := put 0 (host_bytes 4 magic') out in
  let out := put 4 (host_bytes 2 version') out in
  let out := put 6 (host_bytes 2 header_len') out in
  let out := put 8 (host_bytes 4 payload_len') out in
  put 12 (host_bytes 4 flags') out.

(** src/src/wire.cc:36-69 [decode_header] *)
Definition decode_header {H : HostOrder} (inb : list byte) : Result FrameHeader :=
  let magic' := host_value (get 0 4 inb) in
  let version' := host_value (get 4 2 inb) in
  let header_len' := host_value (get 6 2 inb) in
  let payload_len' := host_value (get 8 4 inb) in
  let flags' := host_value (get 12 4 inb) in
  let h := mkHeader (ntoh 4 magic') (ntoh 2 version') (ntoh 2 header_len')
             (ntoh 4 payload_len') (ntoh 4 flags') in
  if negb (magic h =? kProtocolMagic) then RStatus (protocol_error "bad magic")
  else if negb (version h =? kProtocolVersion) then RStatus (protocol_error "unsupported version")
  else if negb (header_len h =? kHeaderLen) then RStatus (protocol_error "bad header_len")
  else if payload_len h >? kMaxFramePayload then
    RStatus (protocol_error "payload too large (frame)")
  else RValue h.

(** ** Stream sockets *)

(** How the kernel answers one [::send] or [::recv]. *)
Inductive io_event :=
| EvXfer (k : nat)       (* transfers [k] bytes, at least one and at most what it can *)
| EvZero                 (* returns 0 *)
| EvErr (errno : Z).     (* returns -1 *)

(** A connected socket: the events still to come, the bytes the peer has sent
    and the bytes accepted from this side. *)
Record sock := mkSock {
  so_evs : list io_event;
  so_in : list byte;
  so_out : list byte;
}.

Inductive run (A : Type) :=
| Done (a : A) (s : sock)
| Blocks (s : sock).
Arguments Done {A} a s.
Arguments Blocks {A} s.

Definition EINTR : Z := 4.

(** src/src/wire.cc:99-101 [interrupted] *)
Definition interrupted (error : Z) : bool := error =? EINTR.

(** [::send]: the return value and [errno]. *)
Definition sys_send (e : io_event) (n : nat) : Z * Z :=
  match e with
  | EvXfer k => (Z.of_nat (Nat.min (Nat.max 1 k) n), 0)
  | EvZero => (0, 0)
  | EvErr errno => (-1, errno)
  end.

(** [::recv] with [avail] bytes in the socket: a transfer waits for input. *)
Definition sys_recv (e : io_event) (n avail : nat) : option (Z * Z) :=
  match e with
  | EvXfer _ => if (avail =? 0)%nat then None else Some (sys_send e (Nat.min n avail))
  | _ => Some (sys_send e n)
  end.

(** The [while (n != 0)] loop of [write_all]. *)
Fixpoint write_all_loop (evs : list io_event) (inb out p : list byte) : run Status :=
  match p with
  | [] => Done Ok (mkSock evs inb out)
  | _ :: _ =>
      match evs with
      | [] => Blocks (mkSock [] inb out)
      | e :: evs' =>
          let '(w, error) := sys_send e (length p) in
          if w <? 0 then
            if interrupted error then write_all_loop evs' inb out p
            else Done (io_error "send() failed") (mkSock evs' inb out)
          else if w =? 0 then Done (closed "peer closed") (mkSock evs' inb out)
          else write_all_loop evs' inb (out ++ take (Z.to_nat w) p) (drop (Z.to_nat w) p)
      end
  end.

(** src/src/wire.cc:104-131 [write_all] *)
Definition write_all (s : sock) (p : list byte) : run Status :=
  write_all_loop (so_evs s) (so_in s) (so_out s) p.

(** The [while (n != 0)] loop of [read_exact]; [buf] is what has been stored. *)
Fixpoint read_exact_loop (evs : list io_event) (inb out buf : list byte) (n : nat)
    : run (Status * list byte) :=
  match n with
  | O => Done (Ok, buf) (mkSock evs inb out)
  | S _ =>
      match evs with
      | [] => Blocks (mkSock [] inb out)
      | e :: evs' =>
          match sys_recv e n (length inb) with
          | None => Blocks (mkSock evs inb out)
          | Some (r, error) =>
              if r <? 0 then
                if interrupted error then read_exact_loop evs' inb out buf n
                else Done (io_error "recv() failed", buf) (mkSock evs' inb out)
              else if r =? 0 then Done (closed "peer closed", buf) (mkSock evs' inb out)
              else read_exact_loop evs' (drop (Z.to_nat r) inb) out
                     (buf ++ take (Z.to_nat r) inb) (n - Z.to_nat r)
          end
      end
  end.

(** src/src/wire.cc:133-155 [read_exact] *)
Definition read_exact (s : sock) (n : nat) : run (Status * list byte) :=
  read_exact_loop (so_evs s) (so_in s) (so_out s) [] n.

(** The header [write_frame] sends for a payload. *)
Definition frame_header (msg : list byte) (fl : Z) : FrameHeader :=
  mkHeader kProtocolMagic kProtocolVersion (wrap16 kHeaderLen) (wrap32 (len msg)) fl.

(** An uninitialised [std::uint8_t hdr[kHeaderLen]]. *)
Definition hdr_buffer : list byte := replicate 16 Init.Byte.x00.

(** src/src/wire.cc:159-176 [write_frame] *)
Definition write_frame {H : HostOrder} (s : sock) (msg : list byte) (fl : Z) : run Status :=
  if len msg >? kMaxFramePayload then
    Done (invalid_argument "message too large; enable fragmentation (todo)") s
  else
    match write_all s (encode_header (frame_header msg fl) hdr_buffer) with
    | Blocks s' => Blocks s'
    | Done st s' => if status_ok st then write_all s' msg else Done st s'
    end.

(** src/src/wire.cc:178-192 [read_frame] *)
Definition read_frame {H : HostOrder} (s : sock) : run (Result (list byte)) :=
  match read_exact s (Z.to_nat kHeaderLen) with
  | Blocks s' => Blocks s'
  | Done (st, hdr) s' =>
      if negb (status_ok st) then Done (RStatus st) s'
      else
        match decode_header hdr with
        | RStatus e => Done (RStatus e) s'
        | RValue h =>
            if negb (payload_len h =? 0) then
              match read_exact s' (Z.to_nat (payload_len h)) with
              | Blocks s'' => Blocks s''
              | Done (st', buf) s'' =>
                  if status_ok st' then Done (RValue buf) s'' else Done (RStatus st') s''
              end
            else Done (RValue []) s'
        end
  end.

(** A sender's and a receiver's sequence of calls on one socket. *)
Fixpoint write_frames {H : HostOrder} (s : sock) (msgs : list (list byte)) : run (list Status) :=
  match msgs with
  | [] => Done [] s
  | m :: msgs' =>
      match write_frame s m 0 with
      | Blocks s' => Blocks s'
      | Done st s' =>
          match write_frames s' msgs' with
          | Blocks s'' => Blocks s''
          | Done sts s'' => Done (st :: sts) s''
          end
      end
  end.

Fixpoint read_frames {H : HostOrder} (s : sock) (n : nat) : run (list (Result (list byte))) :=
  match n with
  | O => Done [] s
  | S n' =>
      match read_frame s with
      | Blocks s' => Blocks s'
      | Done r s' =>
          match read_frames s' n' with
          | Blocks s'' => Blocks s''
          | Done rs s'' => Done (r :: rs) s''
          end
      end
  end.

(** ** Specification *)

(** The big-endian bytes of an integer. *)
Definition be_bytes (n : nat) (z : Z) : list byte := rev (le_bytes n z).

(** What a header is on the wire, whatever the host. *)
Definition header_bytes (h : FrameHeader) : list byte :=
  be_bytes 4 (magic h) ++ be_bytes 2 (version h) ++ be_bytes 2 (header_len h) ++
  be_bytes 4 (payload_len h) ++ be_bytes 4 (flags h).

Definition frame_bytes (msg : list byte) (fl : Z) : list byte :=
  header_bytes (frame_header msg fl) ++ msg.

(** A kernel that keeps transferring: only transfers and interruptions. *)
Definition ev_live (e : io_event) : bool :=
  match e with EvXfer _ => true | EvZero => false | EvErr errno => interrupted errno end.
Definition is_xfer (e : io_event) : bool := match e with EvXfer _ => true | _ => false end.
Definition live (evs : list io_event) : Prop := Forall (fun e => ev_live e = true) evs.
Definition transfers (evs : list io_event) : nat := length (List.filter is_xfer evs).

(** ** Lemmas: integers in memory *)

Lemma le_bytes_length n z : length (le_bytes n z) = n.
Proof. revert z. induction n; intros z; simpl; congruence. Qed.

Lemma le_value_bytes n z : le_value (le_bytes n z) = wrap (8 * Z.of_nat n) z.
Proof.
  revert z. induction n as [|n IH]; intros z.
  - unfold wrap. simpl. by rewrite Z.mod_1_r.
  - change (le_value (le_bytes (S n) z))
      with (Z_of_byte (byte_of_Z z) + 256 * le_value (le_bytes n (z / 256))).
    rewrite Z_of_byte_of_Z, IH. unfold wrap.
    replace (8 * Z.of_nat (S n)) with (8 + 8 * Z.of_nat n) by lia.
    rewrite Z.pow_add_r by lia. change (2 ^ 8) with 256.
    rewrite Z.rem_mul_r by lia. lia.
Qed.

Lemma le_bytes_value bs : le_bytes (length bs) (le_value bs) = bs.
Proof.
  induction bs as [|b bs IH]; [done|].
  change (le_value (b :: bs)) with (Z_of_byte b + 256 * le_value bs).
  pose proof (Z_of_byte_range b) as Hb. cbn [length le_bytes]. f_equal.
  - rewrite <- (byte_of_Z_of_byte b) at 2. unfold byte_of_Z. f_equal.
    unfold wrap. change (2 ^ 8) with 256.
    rewrite (Z.mul_comm 256), Z_mod_plus_full. done.
  - rewrite (Z.mul_comm 256), Z.div_add, Z.div_small by lia. exact IH.
Qed.

Lemma le_value_range bs : 0 <= le_value bs < 2 ^ (8 * len bs).
Proof.
  rewrite <- (le_bytes_value bs) at 1 2. rewrite le_value_bytes. apply wrap_range. lia.
Qed.

Lemma byte_swap_bytes n z : le_bytes n (byte_swap n z) = rev (le_bytes n z).
Proof.
  unfold byte_swap. rewrite <- (le_bytes_length n z) at 1.
  rewrite <- length_rev. apply le_bytes_value.
Qed.

Section host.
Context {H : HostOrder}.

(** [memcpy] of a [hton]ed integer puts it on the wire big-endian. *)
Lemma host_bytes_hton n z : host_bytes n (hton n z) = be_bytes n z.
Proof.
  unfold host_bytes, hton, be_bytes. destruct little_endian; [|done]. apply byte_swap_bytes.
Qed.

(** [ntoh] of the integer read by [memcpy] is the big-endian value. *)
Lemma ntoh_host_value n bs : length bs = n -> ntoh n (host_value bs) = le_value (rev bs).
Proof.
  intros Hn. unfold ntoh, hton, host_value, byte_swap. destruct little_endian; [|done].
  rewrite <- Hn. by rewrite le_bytes_value.
Qed.

Lemma ntoh_be_bytes n z :
  0 <= z < 2 ^ (8 * Z.of_nat n) -> ntoh n (host_value (be_bytes n z)) = z.
Proof.
  intros Hz. unfold be_bytes.
  rewrite ntoh_host_value by (by rewrite length_rev, le_bytes_length).
  rewrite rev_involutive, le_value_bytes. by apply wrap_small.
Qed.

Lemma be_bytes_length n z : length (be_bytes n z) = n.
Proof. unfold be_bytes. by rewrite length_rev, le_bytes_length. Qed.

Lemma be_bytes_value n bs : length bs = n -> be_bytes n (ntoh n (host_value bs)) = bs.
Proof.
  intros Hn. rewrite ntoh_host_value by done. unfold be_bytes.
  replace n with (length (rev bs)) by (by rewrite length_rev).
  by rewrite le_bytes_value, rev_involutive.
Qed.

(** ** Lemmas: the header *)

Lemma put_app off bs a b c :
  length a = off -> length b = length bs -> put off bs (a ++ b ++ c) = a ++ bs ++ c.
Proof.
  intros Ha Hb. unfold put. rewrite take_app_length' by done. f_equal. f_equal.
  rewrite app_assoc, drop_app_length'; [done|]. rewrite length_app. lia.
Qed.

Lemma get_app off n a b c : length a = off -> length b = n -> get off n (a ++ b ++ c) = b.
Proof.
  intros Ha Hb. unfold get. rewrite drop_app_length' by done. by apply take_app_length'.
Qed.

Lemma put_app0 bs b c : length b = length bs -> put 0 bs (b ++ c) = bs ++ c.
Proof. intros Hb. exact (put_app 0 bs [] b c eq_refl Hb). Qed.

Lemma get_app0 n b c : length b = n -> get 0 n (b ++ c) = b.
Proof. intros Hb. exact (get_app 0 n [] b c eq_refl Hb). Qed.

Lemma header_bytes_length h : length (header_bytes h) = 16%nat.
Proof. unfold header_bytes. by rewrite !length_app, !be_bytes_length. Qed.

(** Splits sixteen bytes at the field offsets. *)
Lemma split16 (l : list byte) :
  length l = 16%nat ->
  exists a b c d e, l = a ++ b ++ c ++ d ++ e /\ length a = 4%nat /\ length b = 2%nat /\
    length c = 2%nat /\ length d = 4%nat /\ length e = 4%nat.
Proof.
  intros Hl. exists (take 4 l), (take 2 (drop 4 l)), (take 2 (drop 6 l)),
    (take 4 (drop 8 l)), (drop 12 l).
  rewrite !length_take, !length_drop, Hl. repeat split.
  do 16 (destruct l as [|? l]; [done|]). destruct l; [done|]. done.
Qed.

Lemma encode_header_bytes h out : length out = 16%nat -> encode_header h out = header_bytes h.
Proof.
  intros (a & b & c & d & e & -> & La & Lb & Lc & Ld & Le)%split16.
  unfold encode_header, header_bytes. rewrite !host_bytes_hton.
  pose proof be_bytes_length as Lbe.
  rewrite (put_app0 _ a) by (rewrite ?Lbe; done).
  rewrite (put_app 4 _ _ b) by (rewrite ?Lbe; done).
  rewrite (app_assoc _ _ (c ++ _)), (put_app 6 _ _ c) by (rewrite ?length_app, ?Lbe; done).
  rewrite (app_assoc _ _ (d ++ _)), (put_app 8 _ _ d) by (rewrite ?length_app, ?Lbe; done).
  rewrite <- (app_nil_r e), (app_assoc _ _ (e ++ _)), (put_app 12 _ _ e)
    by (rewrite ?length_app, ?Lbe; done).
  by rewrite app_nil_r, <- !app_assoc.
Qed.

(** The checks of [decode_header], in order, on the decoded fields. *)
Definition check_header (h : FrameHeader) : Result FrameHeader :=
  if negb (magic h =? kProtocolMagic) then RStatus (protocol_error "bad magic")
  else if negb (version h =? kProtocolVersion) then RStatus (protocol_error "unsupported version")
  else if negb (header_len h =? kHeaderLen) then RStatus (protocol_error "bad header_len")
  else if payload_len h >? kMaxFramePayload then
    RStatus (protocol_error "payload too large (frame)")
  else RValue h.

Lemma decode_header_bytes h : header_wf h -> decode_header (header_bytes h) = check_header h.
Proof.
  intros (H1 & H2 & H3 & H4 & H5). unfold decode_header, header_bytes.
  pose proof be_bytes_length as L.
  rewrite (get_app0 4 (be_bytes 4 (magic h))) by (by rewrite ?L).
  rewrite (get_app 4 2 (be_bytes 4 (magic h))) by (by rewrite ?L).
  rewrite (app_assoc (be_bytes 4 (magic h))).
  rewrite (get_app 6 2 _ (be_bytes 2 (header_len h))) by (by rewrite ?length_app, ?L).
  rewrite (app_assoc _ (be_bytes 2 (header_len h))).
  rewrite (get_app 8 4 _ (be_bytes 4 (payload_len h))) by (by rewrite ?length_app, ?L).
  rewrite (app_assoc _ (be_bytes 4 (payload_len h))).
  rewrite <- (app_nil_r (be_bytes 4 (flags h))).
  rewrite (get_app 12 4 _ (be_bytes 4 (flags h))) by (by rewrite ?length_app, ?L).
  rewrite !ntoh_be_bytes by done. by destruct h.
Qed.

(** Sixteen bytes are the header of some well-formed value. *)
Lemma bytes_are_header l :
  length l = 16%nat -> exists h, header_wf h /\ l = header_bytes h.
Proof.
  intros (a & b & c & d & e & -> & La & Lb & Lc & Ld & Le)%split16.
  exists (mkHeader (le_value (rev a)) (le_value (rev b)) (le_value (rev c))
            (le_value (rev d)) (le_value (rev e))).
  assert (Hr : forall n bs, length bs = n -> 0 <= le_value (rev bs) < 2 ^ (8 * Z.of_nat n)).
  { intros n bs <-. rewrite <- length_rev. apply le_value_range. }
  split.
  - exact (conj (Hr 4%nat a La) (conj (Hr 2%nat b Lb) (conj (Hr 2%nat c Lc)
             (conj (Hr 4%nat d Ld) (Hr 4%nat e Le))))).
  - unfold header_bytes, be_bytes. cbn [magic version header_len payload_len flags].
    assert (He : forall n bs, length bs = n -> rev (le_bytes n (le_value (rev bs))) = bs).
    { intros n bs <-. rewrite <- (length_rev bs), le_bytes_value. apply rev_involutive. }
    by rewrite (He 4%nat a), (He 2%nat b), (He 2%nat c), (He 4%nat d), (He 4%nat e).
Qed.

(** ** Lemmas: the socket loops *)

Lemma transfers_cons e evs :
  transfers (e :: evs) = ((if is_xfer e then 1 else 0) + transfers evs)%nat.
Proof. unfold transfers; simpl. by destruct (is_xfer e). Qed.

(** The three cases of a call: progress, a retry, and a final error. *)
Lemma sys_send_cases e n :
  (0 < n)%nat ->
  match e with
  | EvXfer k => exists w, sys_send e n = (Z.of_nat w, 0) /\ (1 <= w <= n)%nat
  | EvZero => sys_send e n = (0, 0)
  | EvErr errno => sys_send e n = (-1, errno)
  end.
Proof. intros Hn. destruct e as [k| |]; [|done..]. exists (Nat.min (Nat.max 1 k) n). split; [done|lia]. Qed.

Lemma sys_recv_cases e n avail :
  (0 < n)%nat ->
  match e with
  | EvXfer k =>
      (avail = 0%nat /\ sys_recv e n avail = None) \/
      exists w, sys_recv e n avail = Some (Z.of_nat w, 0) /\ (1 <= w <= n)%nat /\ (w <= avail)%nat
  | EvZero => sys_recv e n avail = Some (0, 0)
  | EvErr errno => sys_recv e n avail = Some (-1, errno)
  end.
Proof.
  intros Hn. destruct e as [k| |]; [|done..]. unfold sys_recv.
  destruct (Nat.eqb_spec avail 0) as [E|E]; [by left|right].
  exists (Nat.min (Nat.max 1 k) (Nat.min n avail)). split; [done|lia].
Qed.

(** A script as the loops go through it: what is sent is a prefix of the
    buffer, all of it exactly when the loop reports Ok. *)
Lemma write_all_loop_spec evs inb out p :
  match write_all_loop evs inb out p with
  | Done st s' =>
      so_in s' = inb /\ exists sent rest, p = sent ++ rest /\ so_out s' = out ++ sent /\
        (st = Ok <-> rest = []) /\ (st = Ok \/ status_ok st = false)
  | Blocks s' =>
      so_in s' = inb /\ so_evs s' = [] /\
      exists sent rest, p = sent ++ rest /\ rest <> [] /\ so_out s' = out ++ sent
  end.
Proof.
  revert out p. induction evs as [|e evs IH]; intros out p; destruct p as [|b p]; simpl.
  - split; [done|]. exists [], []. rewrite ?app_nil_r. split_and!; (done || naive_solver).
  - split_and!; [done..|]. exists [], (b :: p). by rewrite app_nil_r.
  - split; [done|]. exists [], []. rewrite ?app_nil_r. split_and!; (done || naive_solver).
  - pose proof (sys_send_cases e (S (length p)) ltac:(lia)) as He.
    destruct e as [k| |errno].
    + destruct He as (w & -> & Hw).
      rewrite (proj2 (Z.ltb_ge _ _)), (proj2 (Z.eqb_neq _ _)), Nat2Z.id by lia.
      specialize (IH (out ++ take w (b :: p)) (drop w (b :: p))).
      destruct (write_all_loop _ _ _ _) as [st s'|s'].
      * destruct IH as (-> & sent & rest & Hp & -> & Hst). split; [done|].
        exists (take w (b :: p) ++ sent), rest.
        by rewrite <- app_assoc, <- Hp, take_drop, app_assoc.
      * destruct IH as (-> & -> & sent & rest & Hp & Hr & ->). split_and!; [done..|].
        exists (take w (b :: p) ++ sent), rest.
        by rewrite <- app_assoc, <- Hp, take_drop, app_assoc.
    + rewrite He. simpl. split; [done|]. exists [], (b :: p). rewrite ?app_nil_r. split_and!; (done || naive_solver).
    + rewrite He. simpl. destruct (interrupted errno); [apply IH|]. simpl.
      split; [done|]. exists [], (b :: p). rewrite ?app_nil_r. split_and!; (done || naive_solver).
Qed.

Lemma write_all_loop_code evs inb out p st s' :
  write_all_loop evs inb out p = Done st s' -> st = Ok \/ code st = kClosed \/ code st = kIoError.
Proof.
  revert out p. induction evs as [|e evs IH]; intros out [|b p]; cbn [write_all_loop];
    [intros [= <- _]; by left|done|intros [= <- _]; by left|].
  destruct (sys_send e (length (b :: p))) as [w error]. destruct (w <? 0).
  - destruct (interrupted error); [apply IH|]. intros [= <- _]. by right; right.
  - destruct (w =? 0); [|apply IH]. intros [= <- _]. by right; left.
Qed.

(** A kernel that transfers at least a byte a call gets the whole buffer out. *)
Lemma write_all_loop_live evs inb out p :
  live evs -> (length p <= transfers evs)%nat ->
  exists evs', write_all_loop evs inb out p = Done Ok (mkSock evs' inb (out ++ p)) /\
    live evs' /\ (transfers evs <= transfers evs' + length p)%nat.
Proof.
  revert out p. induction evs as [|e evs IH]; intros out p Hl Ht; destruct p as [|b p]; simpl in *.
  - exists []. rewrite app_nil_r. done.
  - unfold transfers in Ht. simpl in Ht. lia.
  - exists (e :: evs). rewrite app_nil_r. split_and!; [done..|lia].
  - apply Forall_cons in Hl as [He Hl]. rewrite transfers_cons in Ht |- *.
    pose proof (sys_send_cases e (S (length p)) ltac:(lia)) as Hs.
    destruct e as [k| |errno]; [|done|]; simpl is_xfer in *; cbv iota in *.
    + destruct Hs as (w & -> & Hw).
      rewrite (proj2 (Z.ltb_ge _ _)), (proj2 (Z.eqb_neq _ _)), Nat2Z.id by lia.
      destruct (IH (out ++ take w (b :: p)) (drop w (b :: p)) Hl) as (evs' & -> & Hl' & Ht').
      { rewrite length_drop; simpl. lia. }
      exists evs'. rewrite <- app_assoc, take_drop. split_and!; [done..|].
      rewrite length_drop in Ht'; simpl in *. lia.
    + rewrite Hs. simpl in He. simpl. rewrite He. apply IH; [done|]. simpl. lia.
Qed.

Lemma take_split {A} w n (l : list A) :
  (w <= n)%nat -> take w l ++ take (n - w) (drop w l) = take n l.
Proof.
  intros Hw. rewrite <- (take_drop w (take n l)), take_take, skipn_firstn_comm.
  by replace (Nat.min w n) with w by lia.
Qed.

Lemma read_exact_loop_spec evs inb out buf n :
  match read_exact_loop evs inb out buf n with
  | Done (st, buf') s' =>
      so_out s' = out /\ exists got, inb = got ++ so_in s' /\ buf' = buf ++ got /\
        (length got <= n)%nat /\ (st = Ok <-> length got = n) /\ (st = Ok \/ status_ok st = false)
  | Blocks s' => so_out s' = out /\ exists got, inb = got ++ so_in s' /\ (length got < n)%nat
  end.
Proof.
  revert inb buf n. induction evs as [|e evs IH]; intros inb buf n; destruct n as [|n]; cbn [read_exact_loop].
  - split; [done|]. exists []. rewrite !app_nil_r. split_and!; simpl; (done || lia || naive_solver).
  - split; [done|]. exists []. split; [done|simpl; lia].
  - split; [done|]. exists []. rewrite !app_nil_r. split_and!; simpl; (done || lia || naive_solver).
  - pose proof (sys_recv_cases e (S n) (length inb) ltac:(lia)) as He.
    destruct e as [k| |errno].
    + destruct He as [[_ ->]|(w & -> & Hw & Hw')].
      { split; [done|]. exists []. split; [done|simpl; lia]. }
      rewrite (proj2 (Z.ltb_ge _ _)), (proj2 (Z.eqb_neq _ _)), Nat2Z.id by lia.
      specialize (IH (drop w inb) (buf ++ take w inb) (S n - w)%nat).
      destruct (read_exact_loop _ _ _ _ _) as [[st buf'] s'|s'].
      * destruct IH as (-> & got & Hi & -> & Hlen & Hst & Hst'). split; [done|].
        exists (take w inb ++ got). rewrite <- app_assoc, <- Hi, take_drop, app_assoc.
        rewrite length_app, length_take_le by lia. split_and!; [done..|lia| |done].
        rewrite Hst. lia.
      * destruct IH as (-> & got & Hi & Hlen). split; [done|].
        exists (take w inb ++ got). rewrite <- app_assoc, <- Hi, take_drop.
        split; [done|]. rewrite length_app, length_take_le by lia. lia.
    + rewrite He. simpl. split; [done|]. exists []. rewrite !app_nil_r.
      split_and!; simpl; (done || lia || naive_solver).
    + rewrite He. simpl. destruct (interrupted errno); [apply IH|].
      split; [done|]. exists []. rewrite !app_nil_r. split_and!; simpl; (done || lia || naive_solver).
Qed.

Lemma read_exact_loop_live evs inb out buf n :
  live evs -> (n <= transfers evs)%nat -> (n <= length inb)%nat ->
  exists evs', read_exact_loop evs inb out buf n =
      Done (Ok, buf ++ take n inb) (mkSock evs' (drop n inb) out) /\
    live evs' /\ (transfers evs <= transfers evs' + n)%nat.
Proof.
  revert inb buf n. induction evs as [|e evs IH]; intros inb buf n Hl Ht Hn; destruct n as [|n]; cbn [read_exact_loop].
  - exists []. rewrite take_0, app_nil_r. done.
  - unfold transfers in Ht. simpl in Ht. lia.
  - exists (e :: evs). rewrite take_0, app_nil_r. split_and!; [done..|lia].
  - apply Forall_cons in Hl as [He Hl]. rewrite transfers_cons in Ht |- *.
    pose proof (sys_recv_cases e (S n) (length inb) ltac:(lia)) as Hs.
    destruct e as [k| |errno]; [|done|]; cbn [is_xfer] in *.
    + destruct Hs as [[E _]|(w & -> & Hw & Hw')]; [lia|].
      rewrite (proj2 (Z.ltb_ge _ _)), (proj2 (Z.eqb_neq _ _)), Nat2Z.id by lia.
      destruct (IH (drop w inb) (buf ++ take w inb) (S n - w)%nat Hl) as (evs' & -> & Hl' & Ht');
        [lia|rewrite length_drop; lia|].
      exists evs'. rewrite drop_drop, <- app_assoc.
      replace (w + (S n - w))%nat with (S n) by lia. split_and!; [|done|lia].
      by rewrite take_split by lia.
    + rewrite Hs. simpl in He. simpl. rewrite He. apply IH; [done|lia..].
Qed.

(** ** Lemmas: frames *)

Lemma frame_header_wf msg fl :
  len msg <= kMaxFramePayload -> 0 <= fl < 2 ^ 32 ->
  header_wf (frame_header msg fl) /\ check_header (frame_header msg fl) = RValue (frame_header msg fl) /\
  payload_len (frame_header msg fl) = len msg.
Proof.
  intros Hm Hf. unfold kMaxFramePayload in Hm.
  assert (Hp : wrap32 (len msg) = len msg) by (apply wrap_small; lia).
  split_and!; [|unfold check_header|]; unfold frame_header, header_wf;
    cbn [magic version header_len payload_len flags]; rewrite ?Hp; [|..|done].
  - rewrite wrap_small by (vm_compute; split; congruence).
    unfold kProtocolMagic, kProtocolVersion, kHeaderLen. lia.
  - rewrite Z.gtb_ltb, (proj2 (Z.ltb_ge _ _)) by (unfold kMaxFramePayload; lia). done.
Qed.

Lemma frame_bytes_length msg fl : length (frame_bytes msg fl) = (16 + length msg)%nat.
Proof. unfold frame_bytes. by rewrite length_app, header_bytes_length. Qed.

Lemma write_frame_live evs inb out msg fl :
  len msg <= kMaxFramePayload ->
  live evs -> (16 + length msg <= transfers evs)%nat ->
  exists evs', write_frame (mkSock evs inb out) msg fl =
      Done Ok (mkSock evs' inb (out ++ frame_bytes msg fl)) /\
    live evs' /\ (transfers evs <= transfers evs' + (16 + length msg))%nat.
Proof.
  intros Hm Hl Ht. unfold write_frame, write_all, frame_bytes.
  rewrite Z.gtb_ltb, (proj2 (Z.ltb_ge _ _)) by done.
  rewrite encode_header_bytes by done. cbn [so_evs so_in so_out].
  destruct (write_all_loop_live evs inb out (header_bytes (frame_header msg fl)) Hl)
    as (evs1 & -> & Hl1 & Ht1); [rewrite header_bytes_length; lia|].
  rewrite header_bytes_length in Ht1. cbn [so_evs so_in so_out]. simpl status_ok.
  destruct (write_all_loop_live evs1 inb (out ++ header_bytes (frame_header msg fl)) msg Hl1)
    as (evs2 & -> & Hl2 & Ht2); [lia|].
  exists evs2. rewrite <- app_assoc. split_and!; [done..|lia].
Qed.

Lemma read_frame_live evs out msg fl rest :
  len msg <= kMaxFramePayload -> 0 <= fl < 2 ^ 32 ->
  live evs -> (16 + length msg <= transfers evs)%nat ->
  exists evs', read_frame (mkSock evs (frame_bytes msg fl ++ rest) out) =
      Done (RValue msg) (mkSock evs' rest out) /\
    live evs' /\ (transfers evs <= transfers evs' + (16 + length msg))%nat.
Proof.
  intros Hm Hf Hl Ht. destruct (frame_header_wf msg fl Hm Hf) as (Hwf & Hck & Hpl).
  unfold read_frame, read_exact, frame_bytes. cbn [so_evs so_in so_out].
  change (Z.to_nat kHeaderLen) with 16%nat. rewrite <- app_assoc.
  destruct (read_exact_loop_live evs
              (header_bytes (frame_header msg fl) ++ msg ++ rest) out [] 16 Hl)
    as (evs1 & -> & Hl1 & Ht1); [lia|rewrite length_app, header_bytes_length; lia|].
  rewrite take_app_length', drop_app_length' by (by rewrite header_bytes_length).
  simpl app. cbn [status_ok so_evs so_in so_out]. simpl negb. cbv iota.
  rewrite (decode_header_bytes _ Hwf), Hck, Hpl.
  destruct (Z.eqb_spec (len msg) 0) as [E|E]; simpl negb; cbv iota.
  - destruct msg; [|simpl in E; lia]. exists evs1. split_and!; [done..|simpl; lia].
  - rewrite Nat2Z.id.
    destruct (read_exact_loop_live evs1 (msg ++ rest) out [] (length msg) Hl1)
      as (evs2 & -> & Hl2 & Ht2); [lia|rewrite length_app; lia|].
    rewrite take_app_length, drop_app_length. exists evs2. split_and!; [done..|lia].
Qed.

(** A sequence of frames and the number of its bytes. *)
Definition frames (msgs : list (list byte)) : list byte := concat (map (fun m => frame_bytes m 0) msgs).
Definition frames_size (msgs : list (list byte)) : nat := length (frames msgs).

Lemma frames_cons m msgs : frames (m :: msgs) = frame_bytes m 0 ++ frames msgs.
Proof. done. Qed.

Lemma frames_length msgs : length (frames msgs) = frames_size msgs.
Proof. done. Qed.

Lemma frames_app msgs msgs' : frames (msgs ++ msgs') = frames msgs ++ frames msgs'.
Proof. unfold frames. by rewrite map_app, concat_app. Qed.

Lemma frames_size_cons m msgs : frames_size (m :: msgs) = (16 + length m + frames_size msgs)%nat.
Proof. unfold frames_size. by rewrite frames_cons, length_app, frame_bytes_length. Qed.

Definition fits (m : list byte) : Prop := len m <= kMaxFramePayload.

Lemma write_frames_live msgs evs inb out :
  Forall fits msgs -> live evs -> (frames_size msgs <= transfers evs)%nat ->
  exists evs', write_frames (mkSock evs inb out) msgs =
    Done (map (fun _ => Ok) msgs)
      (mkSock evs' inb (out ++ frames msgs)).
Proof.
  revert evs out. induction msgs as [|m msgs IH]; intros evs out Hf Hl Ht; cbn [write_frames].
  - exists evs. simpl. by rewrite app_nil_r.
  - apply Forall_cons in Hf as [Hm Hf]. rewrite frames_size_cons in Ht.
    destruct (write_frame_live evs inb out m 0 Hm Hl) as (evs1 & -> & Hl1 & Ht1); [lia|].
    destruct (IH evs1 (out ++ frame_bytes m 0) Hf Hl1) as (evs2 & ->); [lia|].
    exists evs2. simpl. by rewrite <- app_assoc.
Qed.

Lemma read_frames_live msgs evs out rest :
  Forall fits msgs -> live evs -> (frames_size msgs <= transfers evs)%nat ->
  exists evs', read_frames (mkSock evs (frames msgs ++ rest) out)
      (length msgs) = Done (map RValue msgs) (mkSock evs' rest out).
Proof.
  revert evs. induction msgs as [|m msgs IH]; intros evs Hf Hl Ht; cbn [read_frames length].
  - by exists evs.
  - apply Forall_cons in Hf as [Hm Hf]. rewrite frames_size_cons in Ht.
    cbn [map concat]. rewrite frames_cons, <- app_assoc.
    destruct (read_frame_live evs out m 0 (frames msgs ++ rest) Hm)
      as (evs1 & -> & Hl1 & Ht1); [lia|done|lia|].
    destruct (IH evs1 Hf Hl1) as (evs2 & ->); [lia|]. by exists evs2.
Qed.

End host.

(** A successful decode determines the bytes and passed every check; a failed
    one is a protocol error. *)
Lemma decode_header_cases {H : HostOrder} inb :
  length inb = 16%nat ->
  match decode_header inb with
  | RValue h =>
      inb = header_bytes h /\ header_wf h /\ magic h = kProtocolMagic /\
      version h = kProtocolVersion /\ header_len h = kHeaderLen /\
      payload_len h <= kMaxFramePayload
  | RStatus e => code e = kProtocolError
  end.
Proof.
  intros (h & Hwf & ->)%bytes_are_header. rewrite decode_header_bytes by done.
  unfold check_header. repeat case_match; try done; simplify_eq; bool_to_prop; done.
Qed.

Lemma read_exact_spec s n :
  match read_exact s n with
  | Done (st, buf) s' =>
      so_out s' = so_out s /\ so_in s = buf ++ so_in s' /\ (length buf <= n)%nat /\
      (status_ok st = true <-> length buf = n)
  | Blocks s' => so_out s' = so_out s /\ exists got, so_in s = got ++ so_in s' /\ (length got < n)%nat
  end.
Proof.
  unfold read_exact.
  pose proof (read_exact_loop_spec (so_evs s) (so_in s) (so_out s) [] n) as Hr.
  destruct (read_exact_loop _ _ _ _ _) as [[st buf] s'|s']; [|done].
  destruct Hr as (Ho & got & Hi & -> & Hlen & Hst & Hor). split_and!; [done..|].
  simpl. rewrite <- Hst. destruct Hor as [->|E]; [done|].
  rewrite E. split; [done|]. intros ->. done.
Qed.

(** ** Theorems *)

(** a valid header encoded on one host and decoded on any other, of either
    byte order, comes back unchanged, whatever the output buffer held; and the
    sixteen bytes on the wire are the fields big-endian, in order. *)
Theorem header_roundtrip (H1 H2 : HostOrder) h out :
  length out = 16%nat -> header_wf h ->
  magic h = kProtocolMagic -> version h = kProtocolVersion ->
  header_len h = kHeaderLen -> payload_len h <= kMaxFramePayload ->
  encode_header (H := H1) h out = header_bytes h /\
  decode_header (H := H2) (encode_header (H := H1) h out) = RValue h.
Proof.
  intros Hout Hwf Hm Hv Hh Hp. rewrite encode_header_bytes by done. split; [done|].
  rewrite decode_header_bytes by done. unfold check_header.
  rewrite Hm, Hv, Hh, !Z.eqb_refl, Z.gtb_ltb, (proj2 (Z.ltb_ge _ _)) by done. done.
Qed.

(** [decode_header] accepts exactly the canonical encodings of valid headers:
    a successful decode determines the sixteen bytes, and every other input is
    a protocol error. No input is accepted with a payload length over 64 KiB. *)
Theorem decode_header_exact (H : HostOrder) inb :
  length inb = 16%nat ->
  match decode_header inb with
  | RValue h =>
      inb = header_bytes h /\ header_wf h /\ magic h = kProtocolMagic /\
      version h = kProtocolVersion /\ header_len h = kHeaderLen /\
      payload_len h <= kMaxFramePayload
  | RStatus e => code e = kProtocolError /\
      forall h, header_wf h -> inb = header_bytes h ->
        magic h <> kProtocolMagic \/ version h <> kProtocolVersion \/
        header_len h <> kHeaderLen \/ kMaxFramePayload < payload_len h
  end.
Proof.
  intros Hlen. pose proof (decode_header_cases inb Hlen) as Hc.
  destruct (decode_header inb) as [h|e] eqn:E; [done|]. split; [done|].
  intros h Hwf ->. rewrite decode_header_bytes in E by done. unfold check_header in E.
  repeat case_match; try done; bool_to_prop; tauto.
Qed.

(** C1: framing over a byte stream. Any sequence of messages of at most 64 KiB,
    written by [write_frame] through a kernel that splits and interrupts the
    transfers in any way, is read back by [read_frame] on the other side, on a
    host of either byte order and under any other splitting, as exactly those
    messages in that order, leaving exactly the bytes that follow them. Both
    loops terminate as long as the kernel keeps transferring. *)
Theorem stream_roundtrip (H1 H2 : HostOrder) msgs evs1 evs2 inb out rest :
  Forall fits msgs ->
  live evs1 -> (frames_size msgs <= transfers evs1)%nat ->
  live evs2 -> (frames_size msgs <= transfers evs2)%nat ->
  exists evs1' evs2' wire,
    write_frames (H := H1) (mkSock evs1 inb []) msgs =
      Done (map (fun _ => Ok) msgs) (mkSock evs1' inb wire) /\
    read_frames (H := H2) (mkSock evs2 (wire ++ rest) out) (length msgs) =
      Done (map RValue msgs) (mkSock evs2' rest out).
Proof.
  intros Hf Hl1 Ht1 Hl2 Ht2.
  destruct (write_frames_live (H := H1) msgs evs1 inb [] Hf Hl1 Ht1) as (evs1' & Hw).
  destruct (read_frames_live (H := H2) msgs evs2 out rest Hf Hl2 Ht2) as (evs2' & Hr).
  by exists evs1', evs2', (frames msgs).
Qed.

(** what [write_frame] puts on the wire is always a prefix of one frame: the
    whole frame when it reports Ok, nothing at all when the message is over the
    limit, and a proper prefix when the peer closed or the call failed. *)
Theorem write_frame_prefix (H : HostOrder) s msg fl :
  match write_frame s msg fl with
  | Done st s' =>
      so_in s' = so_in s /\
      exists sent rest, frame_bytes msg fl = sent ++ rest /\ so_out s' = so_out s ++ sent /\
        (st = Ok <-> rest = []) /\ (st = Ok \/ status_ok st = false) /\
        (kMaxFramePayload < len msg -> sent = [] /\ code st = kInvalidArgument)
  | Blocks s' =>
      so_evs s' = [] /\ len msg <= kMaxFramePayload /\
      exists sent rest, frame_bytes msg fl = sent ++ rest /\ rest <> [] /\
        so_out s' = so_out s ++ sent
  end.
Proof.
  unfold write_frame, write_all, frame_bytes.
  set (hdr := header_bytes (frame_header msg fl)).
  assert (Hne : hdr <> []).
  { intros E. pose proof (header_bytes_length (frame_header msg fl)) as L.
    fold hdr in L. by rewrite E in L. }
  rewrite Z.gtb_ltb. destruct (Z.ltb_spec kMaxFramePayload (len msg)) as [Hm|Hm].
  { split; [done|]. exists [], (hdr ++ msg). rewrite app_nil_r. split_and!; try done. by right. }
  rewrite encode_header_bytes by done. fold hdr.
  pose proof (write_all_loop_spec (so_evs s) (so_in s) (so_out s) hdr) as Hh.
  destruct (write_all_loop _ _ _ _) as [st s1|s1].
  - destruct Hh as (Hin & sent & rest & Hp & Hout & Hst & Hor).
    destruct (status_ok st) eqn:Eok.
    + destruct Hor as [->|?]; [|congruence].
      rewrite (proj1 Hst eq_refl), app_nil_r in Hp. subst sent.
      pose proof (write_all_loop_spec (so_evs s1) (so_in s1) (so_out s1) msg) as Hm'.
      destruct (write_all_loop _ _ _ _) as [st2 s2|s2].
      * destruct Hm' as (-> & sent2 & rest2 & -> & -> & Hst2 & Hor2). split; [done|].
        exists (hdr ++ sent2), rest2. rewrite Hout, <- !app_assoc. split_and!; try done. lia.
      * destruct Hm' as (_ & -> & sent2 & rest2 & -> & Hne2 & ->). split_and!; [done..|].
        exists (hdr ++ sent2), rest2. by rewrite Hout, <- !app_assoc.
    + split; [done|]. exists sent, (rest ++ msg). rewrite Hp, <- !app_assoc. split_and!; try (done || lia).
      2: by right.
      split; [intros ->; done|]. intros E. apply app_eq_nil in E as [E _].
      rewrite (proj2 Hst E) in Eok. done.
  - destruct Hh as (Hin & Hev & sent & rest & Hp & Hr & Hout). split_and!; [done..|].
    exists sent, (rest ++ msg). rewrite Hp, <- !app_assoc. split_and!; try done.
    intros E. apply app_eq_nil in E as [E _]. done.
Qed.

(** C33: [read_frame] is safe on arbitrary input and under any kernel behaviour. A
    message it returns is preceded on the stream by a valid header that states
    its length, is at most 64 KiB, and exactly its bytes have been consumed. An
    error or a block consumes at most one frame's worth of the stream, and
    nothing is ever written. *)
Theorem read_frame_safe (H : HostOrder) s :
  match read_frame s with
  | Done (RValue m) s' =>
      so_out s' = so_out s /\ len m <= kMaxFramePayload /\
      exists h, so_in s = header_bytes h ++ m ++ so_in s' /\ header_wf h /\
        payload_len h = len m /\ magic h = kProtocolMagic /\ version h = kProtocolVersion
  | Done (RStatus e) s' =>
      so_out s' = so_out s /\ status_ok e = false /\
      exists got, so_in s = got ++ so_in s' /\ len got <= kHeaderLen + kMaxFramePayload
  | Blocks s' =>
      so_out s' = so_out s /\
      exists got, so_in s = got ++ so_in s' /\ len got < kHeaderLen + kMaxFramePayload
  end.
Proof.
  unfold read_frame. change (Z.to_nat kHeaderLen) with 16%nat.
  pose proof (read_exact_spec s 16) as H1. unfold kHeaderLen, kMaxFramePayload.
  destruct (read_exact s 16) as [[st hdr] s1|s1];
    [|destruct H1 as (? & got & ? & ?); split; [done|]; exists got; split; [done|lia]].
  destruct H1 as (Ho1 & Hi1 & Hl1 & Hok). destruct (status_ok st) eqn:Est; simpl negb; cbv iota.
  2: { split_and!; [done..|]. exists hdr. split; [done|lia]. }
  pose proof (decode_header_cases hdr (proj1 Hok eq_refl)) as Hd.
  destruct (decode_header hdr) as [h|e].
  2: { split_and!; [done|unfold status_ok; by rewrite Hd|]. exists hdr. split; [done|lia]. }
  destruct Hd as (-> & Hwf & Hmag & Hver & Hhl & Hpl). unfold kMaxFramePayload in Hpl.
  pose proof Hwf as (_ & _ & _ & Hp0 & _).
  destruct (Z.eqb_spec (payload_len h) 0) as [E|E]; simpl negb; cbv iota.
  { split_and!; [done|simpl; lia|]. exists h. split_and!; [done..|simpl; lia|done|done]. }
  pose proof (read_exact_spec s1 (Z.to_nat (payload_len h))) as H2.
  destruct (read_exact s1 _) as [[st2 buf] s2|s2].
  - destruct H2 as (Ho2 & Hi2 & Hl2 & Hok2). destruct (status_ok st2) eqn:Est2.
    + pose proof (proj1 Hok2 eq_refl). split_and!; [congruence|lia|].
      exists h. rewrite Hi1, Hi2. split_and!; [done..|lia|done|done].
    + split_and!; [congruence|done|]. exists (header_bytes h ++ buf).
      rewrite Hi1, Hi2, <- app_assoc. split; [done|]. rewrite length_app. lia.
  - destruct H2 as (Ho2 & got & Hi2 & Hl2). split; [congruence|].
    exists (header_bytes h ++ got). rewrite Hi1, Hi2, <- app_assoc. split; [done|].
    rewrite length_app. lia.
Qed.

(** ** Witnesses *)

Definition little_host : HostOrder := true.
Definition big_host : HostOrder := false.

Definition sample_header : FrameHeader := mkHeader kProtocolMagic 1 16 3 7.

Lemma sample_header_wf : header_wf sample_header.
Proof. unfold header_wf, sample_header, kProtocolMagic; simpl. lia. Qed.

Lemma header_roundtrip_witness :
  encode_header (H := little_host) sample_header hdr_buffer = header_bytes sample_header /\
  decode_header (H := big_host) (encode_header (H := little_host) sample_header hdr_buffer) =
    RValue sample_header.
Proof.
  apply (header_roundtrip little_host big_host sample_header hdr_buffer);
    [reflexivity|apply sample_header_wf|reflexivity..|vm_compute; discriminate].
Defined.

Lemma decode_header_exact_witness :
  match decode_header (H := little_host) hdr_buffer with
  | RValue _ => False
  | RStatus e => code e = kProtocolError
  end.
Proof. exact (proj1 (decode_header_exact little_host hdr_buffer eq_refl)). Defined.

Definition hello : list byte := String.list_byte_of_string "hello".
Definition one_byte_at_a_time : list io_event := replicate 60 (EvXfer 1).
Definition interrupted_chunks : list io_event := concat (replicate 60 [EvErr EINTR; EvXfer 7]).

Lemma stream_roundtrip_witness :
  exists evs1' evs2' wire,
    write_frames (H := little_host) (mkSock one_byte_at_a_time [] []) [hello; []; hello] =
      Done [Ok; Ok; Ok] (mkSock evs1' [] wire) /\
    read_frames (H := big_host) (mkSock interrupted_chunks (wire ++ hello) []) 3 =
      Done [RValue hello; RValue []; RValue hello] (mkSock evs2' hello []).
Proof.
  apply (stream_roundtrip little_host big_host [hello; []; hello] one_byte_at_a_time
           interrupted_chunks [] [] hello).
  - repeat constructor; unfold fits; vm_compute; discriminate.
  - repeat constructor.
  - vm_compute. repeat constructor.
  - repeat constructor.
  - vm_compute. repeat constructor.
Defined.

(** Corner cases: a message of the full 64 KiB round-trips in one frame; one
    byte more is refused. *)
Example max_payload_frame :
  match write_frame (H := little_host) (mkSock [EvXfer (Z.to_nat 65552); EvXfer (Z.to_nat 65552)] [] [])
          (replicate (Z.to_nat 65536) Init.Byte.x78) 0 with
  | Done st s' => status_ok st && (len (so_out s') =? 65552)
  | Blocks _ => false
  end = true.
Proof. vm_compute. reflexivity. Qed.
