(* ===== verification/Address.v ===== *)
(** * Addresses (include/duct/address.h, src/address.cc)

    [Address::parse], with the [std::from_chars] it uses for the port, and the
    functions that build address strings: the typed builders of
    include/duct/utils.h, the factories of include/duct/convenience.h and the
    text a TCP listener reports. The theorems say what [parse] accepts and that
    it inverts each builder. *)

From S2P Require Import Prelude Status.

(** src/include/duct/protocol.h:14-20 [Scheme] *)
Inductive Scheme := kUnknown | kTcp | kUds | kShm | kPipe.

#[export] Instance Scheme_eq_dec : EqDecision Scheme.
Proof. solve_decision. Defined.

(** src/include/duct/address.h:11-14 [TcpAddress] *)
Record TcpAddress := mkTcpAddress { host : string; port : Z }.

(** src/include/duct/address.h:16-23 [Address] *)
Record Address := mkAddress {
  scheme : Scheme;
  scheme_text : string;
  raw : string;
  tcp : TcpAddress;
  name : string;
}.

#[export] Instance Address_eq_dec : EqDecision Address.
Proof.
  assert (EqDecision TcpAddress) by solve_decision. solve_decision.
Defined.

(** [std::from_chars] into an [unsigned]: the error, how many characters were
    consumed and the value, which is left alone on an error. There is no sign
    and no space to skip. *)
Inductive errc := ErrcNone | ErrcInvalidArgument | ErrcOutOfRange.

Definition is_digit (c : Ascii.ascii) : bool := (48 <=? ascii_code c) && (ascii_code c <=? 57).

Fixpoint scan_digits (s : string) (acc : Z) (n : nat) : Z * nat :=
  match s with
  | String c s' =>
      if is_digit c then scan_digits s' (acc * 10 + (ascii_code c - 48)) (S n) else (acc, n)
  | EmptyString => (acc, n)
  end.

Definition from_chars (s : string) (v0 : Z) : errc * nat * Z :=
  let '(v, n) := scan_digits s 0 0 in
  if (n =? 0)%nat then (ErrcInvalidArgument, 0%nat, v0)
  else if v >? 2 ^ 32 - 1 then (ErrcOutOfRange, n, v0)
  else (ErrcNone, n, v).

(** src/src/address.cc:9-19 [parse_u16] *)
Definition parse_u16 (s : string) : option Z :=
  let '(ec, ptr, v) := from_chars s 0 in
  match ec with
  | ErrcNone =>
      if negb (ptr =? String.length s)%nat || (v >? 65535) then None else Some (wrap16 v)
  | _ => None
  end.

(** The character [':']. *)
Definition colon_char : Ascii.ascii := Eval cbv in ascii_of_code 58.

(** src/src/address.cc:35-40 [Address::parse, the scheme] *)
Definition scheme_of_text (t : string) : Scheme :=
  if bool_decide (t = "tcp") then kTcp
  else if bool_decide (t = "uds") then kUds
  else if bool_decide (t = "shm") then kShm
  else if bool_decide (t = "pipe") then kPipe
  else kUnknown.

(** src/src/address.cc:29-41 [Address::parse, splitting the scheme] *)
Definition split_scheme (s : string) : Scheme * string * string :=
  match str_find "://" s with
  | None => (kTcp, "tcp", s)
  | Some pos => let t := str_take pos s in (scheme_of_text t, t, str_drop (pos + 3) s)
  end.

(** src/src/address.cc:23-77 [Address::parse] *)
Definition parse (s : string) : Result Address :=
  let '(sch, text, sv) := split_scheme s in
  let a := mkAddress sch text s in
  match sch with
  | kTcp =>
      match str_rfind colon_char sv with
      | None => RStatus (invalid_argument "tcp address must be host:port")
      | Some colon =>
          let h := str_take colon sv in
          let h := if bool_decide (h = EmptyString) then "127.0.0.1" else h in
          match parse_u16 (str_drop (colon + 1) sv) with
          | None => RStatus (invalid_argument "invalid tcp port")
          | Some p => RValue (a (mkTcpAddress h p) EmptyString)
          end
      end
  | kShm | kPipe =>
      if bool_decide (sv = EmptyString) then
        RStatus (invalid_argument (text +:+ " address must be non-empty name"))
      else RValue (a (mkTcpAddress EmptyString 0) sv)
  | kUds =>
      if bool_decide (sv = EmptyString) then
        RStatus (invalid_argument "uds address must be non-empty path")
      else RValue (a (mkTcpAddress EmptyString 0) sv)
  | kUnknown => RStatus (invalid_argument ("unknown scheme: " +:+ text))
  end.

(** ** Builders *)

(** src/include/duct/utils.h:21-31 [Port] *)
Record Port := mkPort { port_value : Z }.
(** src/include/duct/utils.h:97-99 [operator_port] *)
Definition port_literal (value : Z) : Port := mkPort (wrap16 value).

(** src/include/duct/utils.h:36-55 [TcpAddr] *)
Record TcpAddr := mkTcpAddr { addr_host : string; addr_port : Port }.
(** src/include/duct/utils.h:42-44 [TcpAddr::build] *)
Definition TcpAddr_build (a : TcpAddr) : string :=
  "tcp://" +:+ addr_host a +:+ ":" +:+ to_string (port_value (addr_port a)).

(** src/include/duct/utils.h:60-74 [ShmAddr::build] *)
Definition ShmAddr_build (name : string) : string := "shm://" +:+ name.
(** src/include/duct/utils.h:79-93 [UdsAddr::build] *)
Definition UdsAddr_build (path : string) : string := "uds://" +:+ path.

(** src/include/duct/convenience.h:136-138 [tcp] *)
Definition tcp_url (host : string) (port : Z) : string :=
  "tcp://" +:+ host +:+ ":" +:+ to_string port.
(** src/include/duct/convenience.h:143-145 [shm] *)
Definition shm_url (name : string) : string := "shm://" +:+ name.
(** src/include/duct/convenience.h:150-152 [uds] *)
Definition uds_url (path : string) : string := "uds://" +:+ path.
(** src/include/duct/convenience.h:157-159 [listen_tcp] *)
Definition listen_tcp_url (host : string) (port : Z) : string :=
  "tcp://" +:+ host +:+ ":" +:+ to_string port.
(** src/include/duct/convenience.h:164-166 [listen_shm] *)
Definition listen_shm_url (name : string) : string := "shm://" +:+ name.
(** src/include/duct/convenience.h:171-173 [listen_uds] *)
Definition listen_uds_url (path : string) : string := "uds://" +:+ path.

(** ** Specification *)

(** The decimal value of a string of digits. *)
Definition decimal_value (s : string) : Z := fst (scan_digits s 0 0).

Definition all_digits (s : string) : Prop := s <> EmptyString /\ str_forallb is_digit s = true.

(** What every address [parse] returns satisfies. *)
Definition address_wf (s : string) (a : Address) : Prop :=
  raw a = s /\
  match scheme a with
  | kTcp => scheme_text a = "tcp" /\ host (tcp a) <> EmptyString /\
            0 <= port (tcp a) <= 65535 /\ name a = EmptyString
  | kUds => scheme_text a = "uds" /\ name a <> EmptyString /\ s = "uds://" +:+ name a
  | kShm => scheme_text a = "shm" /\ name a <> EmptyString /\ s = "shm://" +:+ name a
  | kPipe => scheme_text a = "pipe" /\ name a <> EmptyString /\ s = "pipe://" +:+ name a
  | kUnknown => False
  end.

(** ** Lemmas *)

Lemma scan_digits_all s acc n :
  str_forallb is_digit s = true ->
  snd (scan_digits s acc n) = (n + String.length s)%nat.
Proof.
  revert acc n. induction s as [|c s IH]; simpl; intros acc n H; [lia|].
  bool_to_prop. rewrite H. rewrite IH by done. lia.
Qed.

Lemma scan_digits_count s acc n :
  (n <= snd (scan_digits s acc n) <= n + String.length s)%nat /\
  (snd (scan_digits s acc n) = n + String.length s -> str_forallb is_digit s = true)%nat.
Proof.
  revert acc n. induction s as [|c s IH]; simpl; intros acc n; [split; [lia|done]|].
  destruct (is_digit c); simpl; [|split; [lia|intros; lia]].
  destruct (IH (acc * 10 + (ascii_code c - 48)) (S n)) as [H1 H2].
  split; [lia|]. intros E. apply H2. lia.
Qed.

Lemma scan_digits_nonneg s acc n : 0 <= acc -> 0 <= fst (scan_digits s acc n).
Proof.
  revert acc n. induction s as [|c s IH]; simpl; intros acc n H; [done|].
  destruct (is_digit c) eqn:E; [|done]. apply IH. unfold is_digit in E. bool_to_prop. lia.
Qed.

Lemma ascii_code_digit d : 0 <= d < 10 ->
  ascii_code (ascii_of_code (48 + d)) = 48 + d /\ is_digit (ascii_of_code (48 + d)) = true.
Proof.
  intros Hd. assert (d = 0 \/ d = 1 \/ d = 2 \/ d = 3 \/ d = 4 \/ d = 5 \/ d = 6 \/ d = 7 \/
                     d = 8 \/ d = 9) as H by lia.
  repeat destruct H as [->|H]; try done. by subst.
Qed.

(** Printing a number and scanning it back. *)
Lemma scan_to_string_go f z acc :
  (0 < f)%nat -> 0 <= z < 10 ^ Z.of_nat f ->
  exists k, (0 < k)%nat /\ (forall a n,
      scan_digits (to_string_go f z acc) a n =
      scan_digits acc (a * 10 ^ Z.of_nat k + z) (n + k)) /\
    String.length (to_string_go f z acc) = (k + String.length acc)%nat /\
    str_forallb is_digit (to_string_go f z acc) = str_forallb is_digit acc.
Proof.
  revert z acc. induction f as [|f IH]; intros z acc Hf Hz; [lia|].
  cbn [to_string_go].
  pose proof (Z.mod_pos_bound z 10 ltac:(lia)) as Hm.
  destruct (ascii_code_digit (z mod 10) Hm) as [Hc Hd].
  destruct (Z.ltb_spec z 10) as [Hlt|Hge].
  - exists 1%nat. split_and!; [lia| |done|cbn [str_forallb]; by rewrite Hd].
    intros a n. cbn [scan_digits]. rewrite Hd, Hc, Z.mod_small by lia.
    change (10 ^ Z.of_nat 1) with 10. rewrite Nat.add_1_r. f_equal. lia.
  - rewrite Nat2Z.inj_succ, Z.pow_succ_r in Hz by lia.
    destruct (IH (z / 10) (String (ascii_of_code (48 + z mod 10)) acc)) as (k & Hk & Hs & Hl & Hp).
    { destruct f; [simpl in Hz|]; lia. }
    { split; [apply Z.div_pos; lia|apply Z.div_lt_upper_bound; lia]. }
    exists (S k). split_and!; [lia| | |].
    + intros a n. rewrite Hs. cbn [scan_digits]. rewrite Hd, Hc.
      rewrite Nat2Z.inj_succ, Z.pow_succ_r by lia.
      f_equal; [|lia]. pose proof (Z.div_mod z 10 ltac:(lia)). lia.
    + rewrite Hl. simpl. lia.
    + rewrite Hp. cbn [str_forallb]. by rewrite Hd.
Qed.

Lemma to_string_digits z :
  0 <= z < 10 ^ 20 ->
  all_digits (to_string z) /\ decimal_value (to_string z) = z.
Proof.
  intros Hz. destruct (scan_to_string_go 20 z EmptyString ltac:(lia) Hz) as (k & Hk & Hs & Hl & Hp).
  split; [split|].
  - intros E. unfold to_string in E. rewrite E in Hl. simpl in Hl. lia.
  - exact Hp.
  - unfold decimal_value, to_string. rewrite Hs. simpl. lia.
Qed.

Lemma parse_u16_digits s :
  all_digits s -> decimal_value s <= 65535 -> parse_u16 s = Some (decimal_value s).
Proof.
  intros [Hne Hd] Hv. unfold parse_u16, from_chars, decimal_value in *.
  pose proof (scan_digits_all s 0 0 Hd) as Hn.
  pose proof (scan_digits_nonneg s 0 0 ltac:(lia)) as H0.
  destruct (scan_digits s 0 0) as [v n] eqn:E; simpl in *. subst n.
  destruct (Nat.eqb_spec (String.length s) 0) as [E0|E0]; [destruct s; done|].
  rewrite Z.gtb_ltb, (proj2 (Z.ltb_ge _ _)) by lia. rewrite Nat.eqb_refl. simpl.
  rewrite Z.gtb_ltb, (proj2 (Z.ltb_ge _ _)) by lia. by rewrite wrap_small by lia.
Qed.

Lemma parse_u16_inv s v :
  parse_u16 s = Some v -> all_digits s /\ v = decimal_value s /\ 0 <= v <= 65535.
Proof.
  unfold parse_u16, from_chars, decimal_value, all_digits.
  pose proof (scan_digits_nonneg s 0 0 ltac:(lia)) as H0.
  destruct (scan_digits_count s 0 0) as [Hc Hall].
  destruct (scan_digits s 0 0) as [v' n] eqn:E; simpl in *.
  destruct (Nat.eqb_spec n 0) as [|Hn]; [done|].
  destruct (v' >? 2 ^ 32 - 1); [done|].
  destruct (Nat.eqb_spec n (String.length s)) as [En|]; [|done]. simpl.
  destruct (v' >? 65535) eqn:Ev; [done|]. intros [= <-]. bool_to_prop.
  rewrite wrap_small by lia. split_and!; [|by apply Hall|lia..].
  intros ->. simpl in En. lia.
Qed.

Lemma digit_not_colon : is_digit colon_char = false.
Proof. reflexivity. Qed.

(** The part of [parse] after the scheme, for [host:port] text. *)
Lemma rfind_host_port h p :
  0 <= p <= 65535 ->
  str_rfind colon_char (h +:+ ":" +:+ to_string p) = Some (String.length h) /\
  str_take (String.length h) (h +:+ ":" +:+ to_string p) = h /\
  parse_u16 (str_drop (String.length h + 1) (h +:+ ":" +:+ to_string p)) = Some p.
Proof.
  intros Hp. destruct (to_string_digits p ltac:(lia)) as [[Hne Hd] Hv].
  split_and!.
  - apply str_rfind_app_none. by eapply str_rfind_forallb; [apply digit_not_colon|].
  - apply str_take_app.
  - rewrite <- (str_app_assoc h). replace (String.length h + 1)%nat
      with (String.length (h +:+ ":")) by (rewrite str_length_app; simpl; lia).
    rewrite str_drop_app. rewrite parse_u16_digits by (rewrite ?Hv; done || lia). by rewrite Hv.
Qed.

Lemma split_scheme_literal t sv :
  t = "tcp" \/ t = "uds" \/ t = "shm" \/ t = "pipe" ->
  split_scheme (t +:+ "://" +:+ sv) = (scheme_of_text t, t, sv).
Proof. intros [->|[->|[->| ->]]]; unfold split_scheme; simpl; by destruct sv. Qed.

Lemma scheme_of_text_spec t :
  match scheme_of_text t with
  | kTcp => t = "tcp"
  | kUds => t = "uds"
  | kShm => t = "shm"
  | kPipe => t = "pipe"
  | kUnknown => t <> "tcp" /\ t <> "uds" /\ t <> "shm" /\ t <> "pipe"
  end.
Proof. unfold scheme_of_text. repeat case_bool_decide; done. Qed.

#[export] Instance TcpAddress_inhabited : Inhabited TcpAddress := populate (mkTcpAddress EmptyString 0).
#[export] Instance Address_inhabited : Inhabited Address :=
  populate (mkAddress kUnknown EmptyString EmptyString inhabitant EmptyString).

(** What parsing a [tcp://] text gives, for clients of the parser. *)
Lemma parse_tcp_url h p :
  0 <= p <= 65535 ->
  exists a, parse ("tcp://" +:+ h +:+ ":" +:+ to_string p) = RValue a /\ scheme a = kTcp /\
    tcp a = mkTcpAddress (if bool_decide (h = EmptyString) then "127.0.0.1" else h) p.
Proof.
  intros Hp. unfold parse.
  change ("tcp://" +:+ h +:+ ":" +:+ to_string p)
    with ("tcp" +:+ "://" +:+ (h +:+ ":" +:+ to_string p)).
  rewrite split_scheme_literal by auto. simpl scheme_of_text. cbv iota.
  destruct (rfind_host_port h p Hp) as (-> & -> & ->). eauto.
Qed.

(** What parsing a named address gives, for clients of the parser. *)
Lemma parse_named_url (t n : string) :
  n <> EmptyString -> t = "shm" \/ t = "pipe" ->
  parse (t +:+ "://" +:+ n) =
    RValue (mkAddress (scheme_of_text t) t (t +:+ "://" +:+ n) (mkTcpAddress EmptyString 0) n).
Proof.
  intros Hn Ht. unfold parse. rewrite split_scheme_literal by (destruct Ht as [-> | ->]; auto).
  destruct Ht as [-> | ->]; cbn [scheme_of_text]; cbv iota; by rewrite bool_decide_eq_false_2.
Qed.

Lemma parse_error_code s e : parse s = RStatus e -> code e = kInvalidArgument.
Proof. unfold parse. repeat case_match; by intros [= <-]. Qed.

(** ** Theorems *)

(** the typed builder, the convenience factories and the listener's
    [local_address] all render [tcp://host:port], and [parse] inverts them: for
    any host at all and any 16-bit port it returns the TCP address with that
    port and host, an empty host meaning 127.0.0.1. *)
Theorem tcp_build_parse h p :
  0 <= p <= 65535 ->
  TcpAddr_build (mkTcpAddr h (mkPort p)) = tcp_url h p /\ listen_tcp_url h p = tcp_url h p /\
  parse (tcp_url h p) =
    RValue (mkAddress kTcp "tcp" (tcp_url h p)
              (mkTcpAddress (if bool_decide (h = EmptyString) then "127.0.0.1" else h) p)
              EmptyString).
Proof.
  intros Hp. split; [done|]. split; [done|]. unfold parse, tcp_url.
  change ("tcp://" +:+ h +:+ ":" +:+ to_string p)
    with ("tcp" +:+ "://" +:+ (h +:+ ":" +:+ to_string p)) at 1.
  rewrite split_scheme_literal by auto. simpl scheme_of_text. cbv iota.
  destruct (rfind_host_port h p Hp) as (-> & -> & ->). done.
Qed.

(** [parse] inverts the shared-memory, Unix-socket and named-pipe forms for
    every non-empty name, and rejects the empty one. *)
Theorem name_build_parse n sch :
  sch = kShm \/ sch = kUds \/ sch = kPipe ->
  let text := match sch with kShm => "shm" | kUds => "uds" | _ => "pipe" end in
  let s := text +:+ "://" +:+ n in
  (sch = kShm -> s = ShmAddr_build n /\ s = shm_url n /\ s = listen_shm_url n) /\
  (sch = kUds -> s = UdsAddr_build n /\ s = uds_url n /\ s = listen_uds_url n) /\
  if bool_decide (n = EmptyString) then code (status (parse s)) = kInvalidArgument
  else parse s = RValue (mkAddress sch text s (mkTcpAddress EmptyString 0) n).
Proof.
  intros Hs text s. split_and!; [intros ->; done|intros ->; done|].
  unfold parse, s. rewrite split_scheme_literal by (unfold text; destruct Hs as [->|[->| ->]]; auto).
  destruct Hs as [->|[->| ->]]; simpl; by case_bool_decide.
Qed.

(** without a scheme the text is taken as [host:port]. *)
Theorem bare_tcp_parse h p :
  0 <= p <= 65535 -> str_find "://" (h +:+ ":" +:+ to_string p) = None ->
  parse (h +:+ ":" +:+ to_string p) =
    RValue (mkAddress kTcp "tcp" (h +:+ ":" +:+ to_string p)
              (mkTcpAddress (if bool_decide (h = EmptyString) then "127.0.0.1" else h) p)
              EmptyString).
Proof.
  intros Hp Hf. unfold parse, split_scheme. rewrite Hf.
  destruct (rfind_host_port h p Hp) as (-> & -> & ->). done.
Qed.

(** C37: every address [parse] returns is well formed: it keeps the input, its
    scheme is known and agrees with the scheme text, a TCP address has a
    non-empty host and a 16-bit port, and the others have a non-empty name that
    is all of the input after the scheme. Every rejection is an invalid
    argument. *)
Theorem parse_wf s :
  match parse s with
  | RValue a => address_wf s a
  | RStatus e => code e = kInvalidArgument
  end.
Proof.
  unfold parse, split_scheme. destruct (str_find "://" s) as [pos|] eqn:Ef.
  - pose proof (str_find_Some _ _ _ Ef) as Hs. simpl String.length in Hs.
    pose proof (scheme_of_text_spec (str_take pos s)) as Ht.
    destruct (scheme_of_text (str_take pos s)); [done| | | |].
    2-4: case_bool_decide; [done|]; rewrite Ht in Hs |- *; done.
    destruct (str_rfind _ _) as [c|]; [|done].
    destruct (parse_u16 _) as [v|] eqn:Ev; [|done].
    apply parse_u16_inv in Ev as (_ & _ & Hv). unfold address_wf; simpl.
    split_and!; try done; try lia. by case_bool_decide.
  - destruct (str_rfind _ _) as [c|]; [|done].
    destruct (parse_u16 _) as [v|] eqn:Ev; [|done].
    apply parse_u16_inv in Ev as (_ & _ & Hv). unfold address_wf; simpl.
    split_and!; try done; try lia. by case_bool_decide.
Qed.

(** the port parser accepts exactly the non-empty all-digit strings whose
    decimal value fits 16 bits, with that value: no sign, no space, no trailing
    text, and no value that would wrap. *)
Theorem parse_u16_exact s v :
  parse_u16 s = Some v <-> all_digits s /\ decimal_value s = v /\ v <= 65535.
Proof.
  split.
  - intros (H1 & -> & H2)%parse_u16_inv. split_and!; [done..|lia].
  - intros (H1 & <- & H2). by apply parse_u16_digits.
Qed.

(** ** Witnesses *)

Lemma tcp_build_parse_witness :
  TcpAddr_build (mkTcpAddr "localhost" (mkPort 8080)) = tcp_url "localhost" 8080 /\
  listen_tcp_url "localhost" 8080 = tcp_url "localhost" 8080 /\
  parse "tcp://localhost:8080" =
    RValue (mkAddress kTcp "tcp" "tcp://localhost:8080" (mkTcpAddress "localhost" 8080) "").
Proof. exact (tcp_build_parse "localhost" 8080 ltac:(lia)). Defined.

Lemma name_build_parse_witness :
  parse "uds:///tmp/duct.sock" =
    RValue (mkAddress kUds "uds" "uds:///tmp/duct.sock" (mkTcpAddress "" 0) "/tmp/duct.sock").
Proof.
  exact (proj2 (proj2 (name_build_parse "/tmp/duct.sock" kUds (or_intror (or_introl eq_refl))))).
Defined.

Lemma bare_tcp_parse_witness :
  parse "127.0.0.1:1234" =
    RValue (mkAddress kTcp "tcp" "127.0.0.1:1234" (mkTcpAddress "127.0.0.1" 1234) "").
Proof. exact (bare_tcp_parse "127.0.0.1" 1234 ltac:(lia) eq_refl). Defined.

(** The inputs of tests/duct_tests.cc and some it does not try. *)
Example parse_default_host :
  parse "tcp://:9" = RValue (mkAddress kTcp "tcp" "tcp://:9" (mkTcpAddress "127.0.0.1" 9) "").
Proof. reflexivity. Qed.
Example parse_rejects_port_overflow : ok (parse "tcp://a:65536") = false.
Proof. reflexivity. Qed.
Example parse_rejects_sign : ok (parse "tcp://a:+1") = false.
Proof. reflexivity. Qed.
Example parse_rejects_scheme :
  parse "http://a:1" = RStatus (invalid_argument "unknown scheme: http").
Proof. reflexivity. Qed.
