(* ===== verification/Options.v ===== *)
(** * Options and enumerations of the public interface (include/duct/duct.h)

    The option records with their default member values, and the conversions
    between [std::chrono] units the components use. A duration in milliseconds
    and a [steady_clock] time point in nanoseconds are integers. *)

From Stdlib Require Import SpecFloat.
From S2P Require Import Prelude.

(** src/include/duct/duct.h:16-21 [BackpressurePolicy] *)
Inductive BackpressurePolicy := kBlock | kDropNew | kDropOld | kFailFast.

#[export] Instance BackpressurePolicy_eq_dec : EqDecision BackpressurePolicy.
Proof. solve_decision. Defined.

(** src/include/duct/duct.h:23-26 [Reliability] *)
Inductive Reliability := kAtMostOnce | kAtLeastOnce.

(** An IEEE binary64 [double]. *)
Abbreviation double := spec_float.
Definition two_point_zero : double := S754_finite false 4503599627370496 (-51).

(** src/include/duct/duct.h:28-44 [ReconnectPolicy] *)
Record ReconnectPolicy := mkReconnectPolicy {
  enabled : bool;
  initial_delay : Z;
  max_delay : Z;
  backoff_multiplier : double;
  max_attempts : Z;
  heartbeat_interval : Z;
}.
Definition ReconnectPolicy_default : ReconnectPolicy :=
  mkReconnectPolicy false 100 30000 two_point_zero 0 5000.

(** src/include/duct/duct.h:46-52 [ConnectionState] *)
Inductive ConnectionState :=
| kConnecting | kConnected | kDisconnected | kReconnecting | kStateClosed.

#[export] Instance ConnectionState_eq_dec : EqDecision ConnectionState.
Proof. solve_decision. Defined.

(** src/include/duct/duct.h:54-54 [ConnectionCallback]

    Whether a callback is set; the calls it receives are logged by the
    components that make them. *)
Definition ConnectionCallback : Type := bool.

(** src/include/duct/duct.h:56-69 [QosOptions] *)
Record QosOptions := mkQosOptions {
  snd_hwm_bytes : Z;
  rcv_hwm_bytes : Z;
  backpressure : BackpressurePolicy;
  ttl : Z;
  linger : Z;
  reliability : Reliability;
}.
Definition QosOptions_default : QosOptions :=
  mkQosOptions (4 * 1024 * 1024) (4 * 1024 * 1024) kBlock 0 0 kAtMostOnce.

(** src/include/duct/duct.h:71-75 [SendOptions] *)
Record SendOptions := mkSendOptions { send_timeout : Z }.
(** src/include/duct/duct.h:77-79 [RecvOptions] *)
Record RecvOptions := mkRecvOptions { recv_timeout : Z }.

(** src/include/duct/duct.h:101-108 [DialOptions] *)
Record DialOptions := mkDialOptions {
  dial_timeout : Z;
  dial_qos : QosOptions;
  reconnect : ReconnectPolicy;
  on_state_change : ConnectionCallback;
}.
Definition DialOptions_default : DialOptions :=
  mkDialOptions 0 QosOptions_default ReconnectPolicy_default false.

(** src/include/duct/duct.h:110-113 [ListenOptions] *)
Record ListenOptions := mkListenOptions { listen_qos : QosOptions; backlog : Z }.
Definition ListenOptions_default : ListenOptions := mkListenOptions QosOptions_default 128.

(** A duration in milliseconds as the nanoseconds it is compared in. *)
Definition ms_to_ns (ms : Z) : Z := ms * 1000000.
