(* ===== verification/Queue.v ===== *)
(** * The message queue (include/duct/queue.h, src/queue.cc)

    [MessageQueue] is a monitor: every operation runs under the mutex, except
    while it waits on a condition variable. An operation is therefore one or
    more critical sections, each a function of the queue: the section a call
    enters with, and for [push] and [pop] the section a waiter re-enters with
    when it is woken or its time has elapsed. A section returns the queue, what
    the call does next ([Return] or [Wait]) and the effects it had, in order:
    the notifications it issued, and what became of which message. The step
    relation at the end lets any thread run any section at any time. *)

From S2P Require Import Prelude Status Options.

Abbreviation payload := (list byte).

(** src/include/duct/queue.h:16-21 [QueuedMessage]

    [deadline] is 0, the default time point, when there is no TTL. *)
Record QueuedMessage := mkQueued {
  msg : payload;
  enqueue_time : Z;
  deadline : Z;
}.

(** src/include/duct/queue.h:25-77 [MessageQueue] *)
Record MessageQueue := mkQueue {
  queue_ : list QueuedMessage;
  total_bytes_ : Z;
  closed_ : bool;
  hwm_bytes_ : Z;
  policy_ : BackpressurePolicy;
  ttl_ : Z;
}.

Inductive effect :=
| NotFullOne | NotFullAll | NotEmptyOne | NotEmptyAll
| Enqueued (m : payload) | DroppedNew (m : payload) | DroppedOld (m : payload)
| Expired (m : payload) | Delivered (m : payload).

(** What a call does after a critical section. *)
Inductive next (A : Type) := Return (a : A) | Wait.
Arguments Return {A} a.
Arguments Wait {A}.

Definition msg_size (m : payload) : Z := len m.
Definition entry_size (qm : QueuedMessage) : Z := msg_size (msg qm).

Definition set_entries (q : MessageQueue) (l : list QueuedMessage) (total : Z) : MessageQueue :=
  mkQueue l total (closed_ q) (hwm_bytes_ q) (policy_ q) (ttl_ q).

(** src/src/queue.cc:7-10 [MessageQueue::MessageQueue] *)
Definition MessageQueue_new (hwm : Z) (policy : BackpressurePolicy) (ttl : Z) : MessageQueue :=
  mkQueue [] 0 false hwm policy ttl.

(** src/src/queue.cc:220-223 [MessageQueue::has_space_unlocked] *)
Definition has_space_unlocked (q : MessageQueue) : bool :=
  if hwm_bytes_ q =? 0 then true else total_bytes_ q <? hwm_bytes_ q.

(** src/src/queue.cc:214-218 [MessageQueue::drop_oldest_unlocked] *)
Definition drop_oldest_unlocked (q : MessageQueue) : MessageQueue * list effect :=
  match queue_ q with
  | [] => (q, [])
  | qm :: l => (set_entries q l (wrap64 (total_bytes_ q - entry_size qm)), [DroppedOld (msg qm)])
  end.

(** The loop [while (!has_space && !queue_.empty()) drop_oldest]: its fuel is
    the length of the queue, which each turn shortens. *)
Fixpoint drop_old_loop (fuel : nat) (q : MessageQueue) : MessageQueue * list effect :=
  match fuel with
  | O => (q, [])
  | S fuel' =>
      if negb (has_space_unlocked q) && negb (bool_decide (queue_ q = [])) then
        let '(q1, e1) := drop_oldest_unlocked q in
        let '(q2, e2) := drop_old_loop fuel' q1 in
        (q2, e1 ++ e2)
      else (q, [])
  end.

(** src/src/queue.cc:62-76 [MessageQueue::push, enqueueing] *)
Definition enqueue (now : Z) (m : payload) (q : MessageQueue)
    : MessageQueue * next Status * list effect :=
  let dl := if ttl_ q >? 0 then now + ms_to_ns (ttl_ q) else 0 in
  (set_entries q (queue_ q ++ [mkQueued m now dl]) (wrap64 (total_bytes_ q + msg_size m)),
   Return Ok, [Enqueued m; NotEmptyOne]).

(** src/src/queue.cc:26-30 [MessageQueue::push, the wait predicate] *)
Definition push_pred (m : payload) (q : MessageQueue) : bool :=
  closed_ q || has_space_unlocked q || (hwm_bytes_ q =? 0) ||
  (wrap64 (total_bytes_ q + msg_size m) <=? hwm_bytes_ q).

(** src/src/queue.cc:32-43 [MessageQueue::push, waiting]

    One turn of [wait] or [wait_for]: the predicate is evaluated under the
    lock; [elapsed] says that the timeout, when there is one, has run out. *)
Definition push_wait (timeout : Z) (elapsed : bool) (now : Z) (m : payload) (q : MessageQueue)
    : MessageQueue * next Status * list effect :=
  if push_pred m q then
    if closed_ q then (q, Return (closed "queue closed"), []) else enqueue now m q
  else if (timeout >? 0) && elapsed then
    (q, Return (Status.timeout "push timed out waiting for queue space"), [])
  else (q, Wait, []).

(** src/src/queue.cc:12-77 [MessageQueue::push] *)
Definition push (timeout : Z) (now : Z) (m : payload) (q : MessageQueue)
    : MessageQueue * next Status * list effect :=
  if closed_ q then (q, Return (closed "queue closed"), [])
  else if negb (has_space_unlocked q) ||
          ((wrap64 (total_bytes_ q + msg_size m) >? hwm_bytes_ q) && (hwm_bytes_ q >? 0)) then
    match policy_ q with
    | kBlock => push_wait timeout false now m q
    | kDropNew => (q, Return Ok, [DroppedNew m])
    | kDropOld =>
        let '(q1, e1) := drop_old_loop (length (queue_ q)) q in
        let '(q2, r, e2) := enqueue now m q1 in
        (q2, r, e1 ++ e2)
    | kFailFast => (q, Return (io_error "queue at high water mark (EAGAIN)"), [])
    end
  else enqueue now m q.

Definition is_expired (now : Z) (qm : QueuedMessage) : bool :=
  negb (deadline qm =? 0) && (now >? deadline qm).

(** src/src/queue.cc:101-111 [MessageQueue::pop, skipping expired messages]

    [notify] says whether each removal notifies a producer: [pop] does, the
    same loop in [try_pop] does not. *)
Fixpoint skip_expired (notify : bool) (now : Z) (l : list QueuedMessage) (total : Z)
    : list QueuedMessage * Z * list effect :=
  match l with
  | [] => ([], total, [])
  | qm :: l' =>
      if is_expired now qm then
        let '(l2, total2, e) := skip_expired notify now l' (wrap64 (total - entry_size qm)) in
        (l2, total2, Expired (msg qm) :: (if notify then [NotFullOne] else []) ++ e)
      else (l, total, [])
  end.

(** src/src/queue.cc:92-125 [MessageQueue::pop, after the wait] *)
Definition pop_go (now : Z) (q : MessageQueue)
    : MessageQueue * next (Result payload) * list effect :=
  if bool_decide (queue_ q = []) then
    if closed_ q then (q, Return (RStatus (closed "queue closed")), [])
    else (q, Return (RStatus (Status.timeout "queue empty")), [])
  else
    let '(l, total, e) := skip_expired true now (queue_ q) (total_bytes_ q) in
    match l with
    | [] =>
        (set_entries q [] total,
         Return (RStatus (if closed_ q then closed "queue closed"
                          else Status.timeout "all messages expired")), e)
    | qm :: l' =>
        (set_entries q l' (wrap64 (total - entry_size qm)), Return (RValue (msg qm)),
         e ++ [Delivered (msg qm); NotFullOne])
    end.

(** src/src/queue.cc:82-82 [MessageQueue::pop, the wait predicate] *)
Definition pop_pred (q : MessageQueue) : bool := closed_ q || negb (bool_decide (queue_ q = [])).

(** src/src/queue.cc:79-126 [MessageQueue::pop] *)
Definition pop (timeout : Z) (elapsed : bool) (now : Z) (q : MessageQueue)
    : MessageQueue * next (Result payload) * list effect :=
  if pop_pred q then pop_go now q
  else if (timeout >? 0) && elapsed then
    (q, Return (RStatus (Status.timeout "pop timed out waiting for message")), [])
  else (q, Wait, []).

(** src/src/queue.cc:128-157 [MessageQueue::try_pop] *)
Definition try_pop (now : Z) (q : MessageQueue) : MessageQueue * option payload * list effect :=
  if bool_decide (queue_ q = []) then (q, None, [])
  else
    let '(l, total, e) := skip_expired false now (queue_ q) (total_bytes_ q) in
    match l with
    | [] => (set_entries q [] total, None, e)
    | qm :: l' =>
        (set_entries q l' (wrap64 (total - entry_size qm)), Some (msg qm),
         e ++ [Delivered (msg qm); NotFullOne])
    end.

(** src/src/queue.cc:159-162 [MessageQueue::size_bytes] *)
Definition size_bytes (q : MessageQueue) : Z := total_bytes_ q.
(** src/src/queue.cc:164-167 [MessageQueue::size_msgs] *)
Definition size_msgs (q : MessageQueue) : Z := len (queue_ q).
(** src/src/queue.cc:169-172 [MessageQueue::at_hwm] *)
Definition at_hwm (q : MessageQueue) : bool :=
  (hwm_bytes_ q >? 0) && (total_bytes_ q >=? hwm_bytes_ q).
(** src/src/queue.cc:174-179 [MessageQueue::close] *)
Definition close (q : MessageQueue) : MessageQueue * list effect :=
  (mkQueue (queue_ q) (total_bytes_ q) true (hwm_bytes_ q) (policy_ q) (ttl_ q),
   [NotFullAll; NotEmptyAll]).
(** src/src/queue.cc:181-184 [MessageQueue::is_closed] *)
Definition is_closed (q : MessageQueue) : bool := closed_ q.

(** src/src/queue.cc:193-205 [MessageQueue::purge_expired, the erase loop] *)
Fixpoint purge_loop (now : Z) (l : list QueuedMessage) (total : Z)
    : list QueuedMessage * Z * list effect * Z :=
  match l with
  | [] => ([], total, [], 0)
  | qm :: l' =>
      if is_expired now qm then
        let '(l2, total2, e, n) := purge_loop now l' (wrap64 (total - entry_size qm)) in
        (l2, total2, Expired (msg qm) :: e, n + 1)
      else
        let '(l2, total2, e, n) := purge_loop now l' total in
        (qm :: l2, total2, e, n)
  end.

(** src/src/queue.cc:186-212 [MessageQueue::purge_expired] *)
Definition purge_expired (now : Z) (q : MessageQueue) : MessageQueue * Z * list effect :=
  if ttl_ q =? 0 then (q, 0, [])
  else
    let '(l, total, e, purged) := purge_loop now (queue_ q) (total_bytes_ q) in
    (set_entries q l total, purged, e ++ (if purged >? 0 then [NotFullAll] else [])).

(** ** The monitor as a step relation

    The state is the queue and the history of effects. Any thread may run any
    critical section, with any message, clock and timeout; a waiter's next
    section is [push_wait] or [pop] again, woken, timed out or spuriously. *)

Inductive qstep : MessageQueue * list effect -> MessageQueue * list effect -> Prop :=
| step_push q tr timeout now m q' r e :
    push timeout now m q = (q', r, e) -> qstep (q, tr) (q', tr ++ e)
| step_push_resume q tr timeout elapsed now m q' r e :
    policy_ q = kBlock ->
    push_wait timeout elapsed now m q = (q', r, e) -> qstep (q, tr) (q', tr ++ e)
| step_pop q tr timeout elapsed now q' r e :
    pop timeout elapsed now q = (q', r, e) -> qstep (q, tr) (q', tr ++ e)
| step_try_pop q tr now q' r e :
    try_pop now q = (q', r, e) -> qstep (q, tr) (q', tr ++ e)
| step_purge q tr now q' n e :
    purge_expired now q = (q', n, e) -> qstep (q, tr) (q', tr ++ e)
| step_close q tr q' e :
    close q = (q', e) -> qstep (q, tr) (q', tr ++ e).

(** ** Specification: histories *)

Definition accepted (tr : list effect) : list payload :=
  omap (fun e => match e with Enqueued m => Some m | _ => None end) tr.
Definition delivered (tr : list effect) : list payload :=
  omap (fun e => match e with Delivered m => Some m | _ => None end) tr.
(** Messages discarded after they had been accepted. *)
Definition discarded (tr : list effect) : list payload :=
  omap (fun e => match e with DroppedOld m | Expired m => Some m | _ => None end) tr.

Definition contents (q : MessageQueue) : list payload := map msg (queue_ q).
Definition content_bytes (q : MessageQueue) : Z := sum_sizes entry_size (queue_ q).

(** The accounting invariant. *)
Definition queue_wf (q : MessageQueue) : Prop := total_bytes_ q = wrap64 (content_bytes q).

(** An effect that wakes a producer, or a consumer. *)
Definition wakes_producer (e : effect) : bool :=
  match e with NotFullOne | NotFullAll => true | _ => false end.
Definition wakes_consumer (e : effect) : bool :=
  match e with NotEmptyOne | NotEmptyAll => true | _ => false end.

(** What one critical section does to the contents, given its effects. *)
Record evolves (q q' : MessageQueue) (e : list effect) : Prop := mkEvolves {
  ev_wf : queue_wf q -> queue_wf q';
  ev_order : delivered e ++ contents q' `sublist_of` contents q ++ accepted e;
  ev_perm : contents q ++ accepted e ≡ₚ delivered e ++ discarded e ++ contents q';
  ev_exact : discarded e = [] -> delivered e ++ contents q' = contents q ++ accepted e;
  ev_config : hwm_bytes_ q' = hwm_bytes_ q /\ policy_ q' = policy_ q /\ ttl_ q' = ttl_ q;
  ev_closed : closed_ q = true -> closed_ q' = true /\ accepted e = [];
  ev_deadlines : ttl_ q <= 0 -> Forall (fun qm => deadline qm = 0) (queue_ q) ->
    Forall (fun qm => deadline qm = 0) (queue_ q') /\
    (policy_ q <> kDropOld -> discarded e = []);
}.

(** ** Lemmas *)

Lemma histories_app tr e :
  accepted (tr ++ e) = accepted tr ++ accepted e /\
  delivered (tr ++ e) = delivered tr ++ delivered e /\
  discarded (tr ++ e) = discarded tr ++ discarded e.
Proof. unfold accepted, delivered, discarded. by rewrite !omap_app. Qed.

Lemma entry_size_nonneg qm : 0 <= entry_size qm.
Proof. unfold entry_size, msg_size. lia. Qed.
#[export] Hint Resolve entry_size_nonneg : duct.

(** Removing an entry keeps the byte count right, modulo the word size. *)
Lemma wf_remove total qm l :
  total = wrap64 (sum_sizes entry_size (qm :: l)) ->
  wrap64 (total - entry_size qm) = wrap64 (sum_sizes entry_size l).
Proof.
  intros ->. rewrite wrap_sub_l. f_equal.
  change (sum_sizes entry_size (qm :: l)) with (entry_size qm + sum_sizes entry_size l). lia.
Qed.

Lemma evolves_refl q e :
  accepted e = [] -> delivered e = [] -> discarded e = [] -> evolves q q e.
Proof. intros Ha Hd Hx. split; rewrite ?Ha, ?Hd, ?Hx; rewrite ?app_nil_r; naive_solver. Qed.

Lemma evolves_trans q q1 q2 e1 e2 :
  evolves q q1 e1 -> evolves q1 q2 e2 -> evolves q q2 (e1 ++ e2).
Proof.
  intros [W1 O1 P1 X1 C1 K1 D1] [W2 O2 P2 X2 C2 K2 D2].
  destruct (histories_app e1 e2) as (Ha & Hd & Hx).
  split; rewrite ?Ha, ?Hd, ?Hx.
  - auto.
  - rewrite <- app_assoc. etrans; [by apply sublist_app; [reflexivity|exact O2]|].
    rewrite !app_assoc. apply sublist_app; [exact O1|reflexivity].
  - rewrite (assoc_L (++)), P1. rewrite <- !app_assoc. f_equiv.
    rewrite P2. apply Permutation_app_swap_app.
  - intros [E1 E2]%app_eq_nil. rewrite <- app_assoc, (X2 E2), app_assoc, (X1 E1).
    by rewrite <- app_assoc.
  - destruct_and!. split_and!; congruence.
  - intros Hc. destruct (K1 Hc) as [Hc1 ->]. destruct (K2 Hc1) as [-> ->]. done.
  - intros Ht Hq. destruct (D1 Ht Hq) as [Hq1 Hn1].
    destruct C1 as (_ & Hp & Ht1). rewrite <- Ht1 in Ht.
    destruct (D2 Ht Hq1) as [Hq2 Hn2]. split; [done|]. intros Hpol.
    rewrite Hn1, Hn2 by congruence. done.
Qed.

Lemma is_expired_deadline now qm : deadline qm = 0 -> is_expired now qm = false.
Proof. unfold is_expired. by intros ->. Qed.

(** The expired prefix is removed, and accounted for. *)
Lemma skip_expired_spec b now l total l2 total2 e :
  skip_expired b now l total = (l2, total2, e) ->
  exists l1, l = l1 ++ l2 /\ Forall (fun qm => is_expired now qm = true) l1 /\
    match l2 with [] => True | qm :: _ => is_expired now qm = false end /\
    accepted e = [] /\ delivered e = [] /\ discarded e = map msg l1 /\
    (total = wrap64 (sum_sizes entry_size l) -> total2 = wrap64 (sum_sizes entry_size l2)).
Proof.
  revert total e. induction l as [|qm l IH]; intros total e; simpl.
  - intros [= <- <- <-]. by exists [].
  - destruct (is_expired now qm) eqn:E.
    + destruct (skip_expired _ _ _ _) as [[l3 total3] e3] eqn:Es. intros [= <- <- <-].
      destruct (IH _ _ Es) as (l1 & -> & Hf & Hh & Ha & Hd & Hx & Ht).
      exists (qm :: l1). split_and!; [done|by constructor|done| | | |].
      * by destruct b.
      * by destruct b.
      * rewrite map_cons, <- Hx. by destruct b.
      * intros Htot. apply Ht. by apply wf_remove.
    + intros [= <- <- <-]. exists []. naive_solver.
Qed.

(** Removing entries anywhere, with the byte count following. *)
Lemma evolves_remove q l total e x :
  accepted e = [] -> delivered e = [] -> discarded e = x ->
  map msg l `sublist_of` contents q ->
  contents q ≡ₚ x ++ map msg l ->
  (x = [] -> map msg l = contents q) ->
  (queue_wf q -> total = wrap64 (sum_sizes entry_size l)) ->
  (Forall (fun qm => deadline qm = 0) (queue_ q) ->
     Forall (fun qm => deadline qm = 0) l /\ (policy_ q <> kDropOld -> x = [])) ->
  evolves q (set_entries q l total) e.
Proof.
  intros Ha Hd <- Hs Hp Hx Hw Hdl. split; rewrite ?Ha, ?Hd, ?app_nil_r; done.
Qed.

Lemma drop_oldest_evolves q : policy_ q = kDropOld ->
  evolves q (fst (drop_oldest_unlocked q)) (snd (drop_oldest_unlocked q)).
Proof.
  intros Hpol. unfold drop_oldest_unlocked.
  destruct (queue_ q) as [|qm l] eqn:Eq; simpl; [by apply evolves_refl|].
  apply (evolves_remove _ _ _ _ [msg qm]); try done; unfold contents, queue_wf, content_bytes;
    rewrite ?Eq.
  - by apply sublist_cons.
  - reflexivity.
  - by apply wf_remove.
  - rewrite Forall_cons. by intros [_ ?].
Qed.

Lemma drop_old_loop_evolves fuel q : policy_ q = kDropOld ->
  evolves q (fst (drop_old_loop fuel q)) (snd (drop_old_loop fuel q)).
Proof.
  revert q. induction fuel as [|fuel IH]; intros q Hpol; simpl; [by apply evolves_refl|].
  destruct (_ && _); [|by apply evolves_refl].
  pose proof (drop_oldest_evolves q Hpol) as H1.
  destruct (drop_oldest_unlocked q) as [q1 e1]. simpl in H1.
  assert (Hp1 : policy_ q1 = kDropOld) by (destruct (ev_config _ _ _ H1) as (_ & -> & _); done).
  specialize (IH q1 Hp1). destruct (drop_old_loop fuel q1) as [q2 e2].
  by apply (evolves_trans _ q1).
Qed.

Lemma drop_old_loop_silent fuel q q' e :
  drop_old_loop fuel q = (q', e) -> accepted e = [] /\ closed_ q' = closed_ q.
Proof.
  revert q e. induction fuel as [|fuel IH]; intros q e; simpl; [by intros [= <- <-]|].
  destruct (_ && _); [|by intros [= <- <-]]. unfold drop_oldest_unlocked.
  destruct (queue_ q) as [|qm l].
  - destruct (drop_old_loop fuel q) as [q2 e2] eqn:E. intros [= <- <-]. by apply IH.
  - destruct (drop_old_loop fuel _) as [q2 e2] eqn:E. intros [= <- <-].
    by destruct (IH _ _ E) as [H1 H2].
Qed.

(** The loop ends with space, or with nothing left to drop. *)
Lemma drop_old_loop_space fuel q :
  (length (queue_ q) <= fuel)%nat ->
  let q' := fst (drop_old_loop fuel q) in
  has_space_unlocked q' = true \/ queue_ q' = [].
Proof.
  revert q. induction fuel as [|fuel IH]; intros q Hf; simpl.
  - right. destruct (queue_ q); [done|simpl in Hf; lia].
  - destruct (has_space_unlocked q) eqn:Es; simpl; [by left|].
    case_bool_decide as Eq; simpl; [by right|].
    unfold drop_oldest_unlocked. destruct (queue_ q) as [|qm l] eqn:E; [done|].
    specialize (IH (set_entries q l (wrap64 (total_bytes_ q - entry_size qm)))).
    destruct (drop_old_loop fuel _) as [q2 e2]. simpl in *. apply IH. lia.
Qed.

Lemma enqueue_evolves now m q q' r e :
  closed_ q = false -> enqueue now m q = (q', r, e) -> evolves q q' e /\ r = Return Ok /\ accepted e = [m].
Proof.
  unfold enqueue. intros Hc [= <- <- <-]. split; [|done].
  split; unfold contents; simpl; rewrite ?map_app; simpl; try done.
  - unfold queue_wf, content_bytes, msg_size. simpl. intros ->.
    rewrite wrap_add_l, sum_sizes_app. f_equal. simpl. unfold entry_size, msg_size. simpl. lia.
  - congruence.
  - intros Ht Hq. split; [|done]. apply Forall_app. split; [done|].
    constructor; [|done]. simpl. rewrite Z.gtb_ltb, (proj2 (Z.ltb_ge _ _)) by lia. done.
Qed.

(** A message is enqueued only onto an open queue that has space, or where it
    fits, or that dropping has emptied. *)
Definition may_enqueue (m : payload) (q : MessageQueue) : Prop :=
  closed_ q = false /\
  (has_space_unlocked q = true \/ queue_ q = [] \/
   wrap64 (total_bytes_ q + msg_size m) <= hwm_bytes_ q).

Lemma push_wait_cases timeout elapsed now m q q' r e :
  push_wait timeout elapsed now m q = (q', r, e) ->
  (q' = q /\ e = [] /\ r <> Return Ok) \/ (may_enqueue m q /\ enqueue now m q = (q', r, e)).
Proof.
  unfold push_wait. destruct (push_pred m q) eqn:Ep.
  - destruct (closed_ q) eqn:Ec; [intros [= <- <- <-]; left; naive_solver|].
    intros H. right. split; [|done]. split; [done|].
    unfold push_pred in Ep. rewrite Ec in Ep. simpl in Ep.
    destruct (has_space_unlocked q) eqn:Es; [by left|]. unfold has_space_unlocked in Es.
    destruct (hwm_bytes_ q =? 0); [done|]. simpl in Ep. bool_to_prop. tauto.
  - destruct (_ && _); intros [= <- <- <-]; left; naive_solver.
Qed.

Lemma push_cases timeout now m q q' r e :
  push timeout now m q = (q', r, e) ->
  (q' = q /\ accepted e = [] /\ delivered e = [] /\ discarded e = [] /\
     (r = Return Ok -> policy_ q = kDropNew /\ e = [DroppedNew m])) \/
  (exists q1 e1 e2, closed_ q = false /\ evolves q q1 e1 /\ accepted e1 = [] /\ may_enqueue m q1 /\
     enqueue now m q1 = (q', r, e2) /\ e = e1 ++ e2 /\ (policy_ q <> kDropOld -> q1 = q)).
Proof.
  unfold push. destruct (closed_ q) eqn:Ec; [intros [= <- <- <-]; left; naive_solver|].
  assert (Hsame : may_enqueue m q -> enqueue now m q = (q', r, e) ->
    exists q1 e1 e2, false = false /\ evolves q q1 e1 /\ accepted e1 = [] /\ may_enqueue m q1 /\
      enqueue now m q1 = (q', r, e2) /\ e = e1 ++ e2 /\ (policy_ q <> kDropOld -> q1 = q)).
  { intros Hm He. exists q, [], e. split_and!; try done. by apply evolves_refl. }
  destruct (_ || _) eqn:Efull.
  - destruct (policy_ q) eqn:Ep.
    + intros [(-> & -> & Hr)|[Hm He]]%push_wait_cases; [left; naive_solver|right; auto].
    + intros [= <- <- <-]. left. naive_solver.
    + intros H. right.
      pose proof (drop_old_loop_evolves (length (queue_ q)) q Ep) as Hev.
      pose proof (drop_old_loop_space (length (queue_ q)) q ltac:(lia)) as Hsp.
      destruct (drop_old_loop (length (queue_ q)) q) as [q1 e1] eqn:El. cbn [fst snd] in *.
      destruct (enqueue now m q1) as [[q2 r2] e2] eqn:Ee. injection H as <- <- <-.
      assert (Ha : accepted e1 = [] /\ closed_ q1 = false).
      { by destruct (drop_old_loop_silent _ _ _ _ El) as [-> ->]. }
      destruct Ha as [Ha1 Ha2]. exists q1, e1, e2. split_and!; try done.
      split; [done|]. destruct Hsp; tauto.
    + intros [= <- <- <-]. left. naive_solver.
  - intros He. right. apply Hsame; [|done]. split; [done|]. bool_to_prop. by left.
Qed.

Lemma push_wait_evolves timeout elapsed now m q q' r e :
  push_wait timeout elapsed now m q = (q', r, e) -> evolves q q' e.
Proof.
  intros [(-> & -> & _)|[[Hc _] He]]%push_wait_cases; [by apply evolves_refl|].
  by destruct (enqueue_evolves _ _ _ _ _ _ Hc He).
Qed.

Lemma push_evolves timeout now m q q' r e :
  push timeout now m q = (q', r, e) -> evolves q q' e.
Proof.
  intros [(-> & ? & ? & ? & _)|(q1 & e1 & e2 & _ & Hev & _ & [Hc _] & He & -> & _)]%push_cases;
    [by apply evolves_refl|].
  apply (evolves_trans _ q1); [done|]. by destruct (enqueue_evolves _ _ _ _ _ _ Hc He).
Qed.

Lemma Forall_no_deadline_expired now l :
  Forall (fun qm => deadline qm = 0) l -> Forall (fun qm => is_expired now qm = true) l -> l = [].
Proof.
  intros H1 H2. destruct l as [|qm l]; [done|].
  inv H1. inv H2. rewrite is_expired_deadline in * by done. done.
Qed.

Lemma skip_expired_evolves b now q l total e :
  skip_expired b now (queue_ q) (total_bytes_ q) = (l, total, e) ->
  evolves q (set_entries q l total) e.
Proof.
  intros (l1 & Hq & Hf & _ & Ha & Hd & Hx & Ht)%skip_expired_spec.
  apply (evolves_remove _ _ _ _ (map msg l1)); unfold contents, queue_wf, content_bytes;
    rewrite ?Hq, ?map_app in *; try done.
  - by apply sublist_inserts_l.
  - destruct l1; done.
  - intros [H1 H2]%Forall_app. split; [done|]. intros _.
    by rewrite (Forall_no_deadline_expired _ _ H1 Hf).
Qed.

(** Delivering the first entry. *)
Lemma deliver_evolves q qm l :
  queue_ q = qm :: l ->
  evolves q (set_entries q l (wrap64 (total_bytes_ q - entry_size qm)))
    [Delivered (msg qm); NotFullOne].
Proof.
  intros Hq. split; unfold contents, queue_wf, content_bytes; simpl; rewrite ?Hq; simpl;
    rewrite ?app_nil_r; try done.
  - by apply wf_remove.
  - rewrite Forall_cons. by intros _ [_ ?].
Qed.

(** The common tail of [pop] and [try_pop]. *)
Lemma skip_deliver_evolves b now q l total e :
  skip_expired b now (queue_ q) (total_bytes_ q) = (l, total, e) ->
  match l with
  | [] => evolves q (set_entries q [] total) e
  | qm :: l' => evolves q (set_entries q l' (wrap64 (total - entry_size qm)))
                  (e ++ [Delivered (msg qm); NotFullOne])
  end.
Proof.
  intros H%skip_expired_evolves. destruct l as [|qm l]; [done|].
  eapply evolves_trans; [exact H|]. exact (deliver_evolves (set_entries q (qm :: l) total) qm l eq_refl).
Qed.

Lemma pop_evolves timeout elapsed now q q' r e :
  pop timeout elapsed now q = (q', r, e) -> evolves q q' e.
Proof.
  unfold pop, pop_go. destruct (pop_pred q).
  - case_bool_decide; [destruct (closed_ q); intros [= <- <- <-]; by apply evolves_refl|].
    destruct (skip_expired _ _ _ _) as [[l total] e1] eqn:E.
    apply skip_deliver_evolves in E. destruct l; by intros [= <- <- <-].
  - destruct (_ && _); intros [= <- <- <-]; by apply evolves_refl.
Qed.

Lemma try_pop_evolves now q q' r e : try_pop now q = (q', r, e) -> evolves q q' e.
Proof.
  unfold try_pop. case_bool_decide; [intros [= <- <- <-]; by apply evolves_refl|].
  destruct (skip_expired _ _ _ _) as [[l total] e1] eqn:E.
  apply skip_deliver_evolves in E. destruct l; by intros [= <- <- <-].
Qed.

Lemma purge_loop_spec now l total l2 total2 e n :
  purge_loop now l total = (l2, total2, e, n) ->
  l2 = filter (fun qm => is_expired now qm = false) l /\ n = len (discarded e) /\
  map msg l2 `sublist_of` map msg l /\ map msg l ≡ₚ discarded e ++ map msg l2 /\
  accepted e = [] /\ delivered e = [] /\ (discarded e = [] -> l2 = l) /\
  (forall x, total = wrap64 (x + sum_sizes entry_size l) ->
     total2 = wrap64 (x + sum_sizes entry_size l2)) /\
  (Forall (fun qm => deadline qm = 0) l -> discarded e = []) /\
  Forall (fun x => wakes_producer x = false) e.
Proof.
  revert total l2 total2 e n. induction l as [|qm l IH]; intros total l2 total2 e n; simpl.
  - intros [= <- <- <- <-]. done.
  - destruct (is_expired now qm) eqn:E.
    + destruct (purge_loop now l _) as [[[l3 total3] e3] n3] eqn:Ep. intros [= <- <- <- <-].
      destruct (IH _ _ _ _ _ Ep) as (-> & -> & Hs & Hp & Ha & Hd & Hx & Ht & Hdl & Hw).
      rewrite filter_cons_False by congruence. split_and!; try done; simpl.
      * lia.
      * by apply sublist_cons.
      * by constructor.
      * intros x ->. apply Ht. rewrite wrap_sub_l. f_equal. simpl. lia.
      * intros [Hz _]%Forall_cons. rewrite is_expired_deadline in E; done.
      * by constructor.
    + destruct (purge_loop now l _) as [[[l3 total3] e3] n3] eqn:Ep. intros [= <- <- <- <-].
      destruct (IH _ _ _ _ _ Ep) as (-> & -> & Hs & Hp & Ha & Hd & Hx & Ht & Hdl & Hw).
      rewrite filter_cons_True by done. split_and!; try done; simpl.
      * by apply sublist_skip.
      * rewrite <- Permutation_middle. by constructor.
      * intros Hz. by rewrite Hx.
      * intros x ->. rewrite Z.add_assoc. apply Ht. f_equal. lia.
      * intros [_ Hz]%Forall_cons. auto.
Qed.

Lemma purge_evolves now q q' n e : purge_expired now q = (q', n, e) -> evolves q q' e.
Proof.
  unfold purge_expired. destruct (ttl_ q =? 0); [intros [= <- <- <-]; by apply evolves_refl|].
  destruct (purge_loop now _ _) as [[[l total] e1] n1] eqn:E.
  apply purge_loop_spec in E as (-> & -> & Hs & Hp & Ha & Hd & Hx & Ht & Hdl & _).
  intros [= <- <- <-].
  set (e2 := if _ >? 0 then _ else _).
  assert (accepted e2 = [] /\ delivered e2 = [] /\ discarded e2 = []) as (Ha2 & Hd2 & Hx2)
    by (unfold e2; by case_match).
  destruct (histories_app e1 e2) as (Ea & Ed & Ex).
  rewrite Ha2, Hd2, Hx2, Ha, Hd, ?app_nil_r in *.
  apply (evolves_remove _ _ _ _ (discarded e1)); try done.
  - intros H. unfold contents. by rewrite Hx.
  - intros Hw. specialize (Ht 0). unfold queue_wf, content_bytes in Hw. by apply Ht.
  - intros H. split; [|auto]. apply Forall_forall. intros x [_ Hin]%list_elem_of_filter.
    by apply (proj1 (Forall_forall _ _) H).
Qed.

Lemma close_evolves q q' e : close q = (q', e) -> evolves q q' e.
Proof.
  intros [= <- <-]. split; unfold contents; simpl; rewrite ?app_nil_r; done.
Qed.

(** Every step of the monitor evolves the queue. *)
Lemma qstep_evolves q tr q' tr' :
  qstep (q, tr) (q', tr') -> exists e, tr' = tr ++ e /\ evolves q q' e.
Proof.
  inversion 1; simplify_eq; eexists; (split; [done|]);
    eauto using push_evolves, push_wait_evolves, pop_evolves, try_pop_evolves, purge_evolves,
      close_evolves.
Qed.

(** Reachability from a new queue, as one [evolves]. *)
Lemma reach_evolves q0 q tr :
  rtc qstep (q0, []) (q, tr) -> evolves q0 q tr.
Proof.
  intros Hr. change (evolves q0 (fst (q, tr)) (snd (q, tr))).
  eapply (rtc_invariant qstep (fun s => evolves q0 (fst s) (snd s))); [|exact Hr|by apply evolves_refl].
  intros [q1 tr1] [q2 tr2] H1 (e & -> & H2)%qstep_evolves. by eapply evolves_trans.
Qed.

(** The size of the contents, bounded by the high water mark and one message. *)
Definition within (M : Z) (q : MessageQueue) : Prop := content_bytes q < hwm_bytes_ q + M.

Lemma content_bytes_nonneg q : 0 <= content_bytes q.
Proof. apply sum_sizes_nonneg. apply entry_size_nonneg. Qed.

Lemma wf_exact M q :
  hwm_bytes_ q + M <= 2 ^ 64 -> queue_wf q -> within M q -> total_bytes_ q = content_bytes q.
Proof.
  unfold queue_wf, within. intros HM -> Hw. pose proof (content_bytes_nonneg q).
  apply wrap_small. lia.
Qed.

Lemma sublist_bytes (l k : list payload) :
  l `sublist_of` k -> sum_sizes msg_size l <= sum_sizes msg_size k.
Proof.
  induction 1 as [|x l k _ IH|x l k _ IH]; simpl; [lia|lia|].
  assert (0 <= msg_size x) by (unfold msg_size; lia). lia.
Qed.

Lemma content_bytes_contents q : content_bytes q = sum_sizes msg_size (contents q).
Proof.
  unfold content_bytes, contents. induction (queue_ q) as [|qm l IH]; simpl; [done|].
  rewrite IH. done.
Qed.

(** A section that accepts nothing does not grow the queue. *)
Lemma evolves_shrinks q q' e : evolves q q' e -> accepted e = [] -> content_bytes q' <= content_bytes q.
Proof.
  intros Hev Ha. rewrite !content_bytes_contents. apply sublist_bytes.
  pose proof (ev_order _ _ _ Hev) as Ho. rewrite Ha, app_nil_r in Ho.
  etrans; [|exact Ho]. by apply sublist_inserts_l.
Qed.

Lemma enqueue_within M now m q q' r e :
  0 < hwm_bytes_ q -> hwm_bytes_ q + 2 * M <= 2 ^ 64 -> 1 <= M -> msg_size m <= M ->
  queue_wf q -> within M q -> may_enqueue m q -> enqueue now m q = (q', r, e) -> within M q'.
Proof.
  intros Hh H64 HM Hm Hwf Hw [_ Hsp] He.
  pose proof (wf_exact M q ltac:(lia) Hwf Hw) as Ht. unfold enqueue in He. injection He as <- _ _.
  assert (0 <= msg_size m) by (unfold msg_size; lia). pose proof (content_bytes_nonneg q).
  unfold within, content_bytes in *; simpl. rewrite sum_sizes_app. simpl.
  unfold entry_size at 2; simpl.
  destruct Hsp as [Hs|[Hs|Hs]].
  - unfold has_space_unlocked in Hs. destruct (Z.eqb_spec (hwm_bytes_ q) 0); [lia|].
    bool_to_prop. lia.
  - rewrite Hs in *. simpl in *. lia.
  - rewrite wrap_small in Hs by lia. lia.
Qed.

(** Only [push] accepts messages. *)
Lemma pop_silent timeout elapsed now q q' r e :
  pop timeout elapsed now q = (q', r, e) -> accepted e = [].
Proof.
  unfold pop, pop_go. destruct (pop_pred q); [|by destruct (_ && _); intros [= <- <- <-]].
  case_bool_decide; [by destruct (closed_ q); intros [= <- <- <-]|].
  destruct (skip_expired _ _ _ _) as [[l total] e1] eqn:E.
  apply skip_expired_spec in E as (? & _ & _ & _ & Ha & _).
  destruct l; intros [= <- <- <-]; [done|]. unfold accepted in *. by rewrite omap_app, Ha.
Qed.

Lemma try_pop_silent now q q' r e : try_pop now q = (q', r, e) -> accepted e = [].
Proof.
  unfold try_pop. case_bool_decide; [by intros [= <- <- <-]|].
  destruct (skip_expired _ _ _ _) as [[l total] e1] eqn:E.
  apply skip_expired_spec in E as (? & _ & _ & _ & Ha & _).
  destruct l; intros [= <- <- <-]; [done|]. unfold accepted in *. by rewrite omap_app, Ha.
Qed.

Lemma purge_silent now q q' n e : purge_expired now q = (q', n, e) -> accepted e = [].
Proof.
  unfold purge_expired. destruct (ttl_ q =? 0); [by intros [= <- <- <-]|].
  destruct (purge_loop now _ _) as [[[l total] e1] n1] eqn:E.
  apply purge_loop_spec in E as (_ & _ & _ & _ & Ha & _).
  intros [= <- <- <-]. unfold accepted in *. rewrite omap_app, Ha. by case_match.
Qed.

(** A step that accepts a message is a [push] that ends in an [enqueue]. *)
Lemma qstep_within M q tr q' tr' e :
  0 < hwm_bytes_ q -> hwm_bytes_ q + 2 * M <= 2 ^ 64 -> 1 <= M -> queue_wf q -> within M q ->
  qstep (q, tr) (q', tr') -> tr' = tr ++ e -> accepted e <> [] ->
  Forall (fun m => msg_size m <= M) (accepted e) -> within M q'.
Proof.
  intros Hh H64 HM Hwf Hw Hstep Etr Hne Hall.
  inversion Hstep; simplify_list_eq;
    match goal with H : _ = (_, _, _) |- _ => rename H into Hs | H : close _ = _ |- _ => by inversion H; simplify_eq end.
  - apply push_cases in Hs as [(_ & Hn & _)|(q1 & e1 & e2 & _ & Hev & Ha & Hm & He & -> & _)]; [done|].
    pose proof (ev_config _ _ _ Hev) as (Hc & _ & _).
    pose proof (evolves_shrinks _ _ _ Hev Ha) as Hsh.
    destruct (histories_app e1 e2) as (Ea & _ & _). rewrite Ea, Ha in Hall.
    destruct (enqueue_evolves _ _ _ _ _ _ (proj1 Hm) He) as (_ & _ & Hacc).
    rewrite Hacc in Hall. apply Forall_cons in Hall as [Hms _].
    eapply (enqueue_within M); [..|exact Hm|exact He]; try lia; try done.
    + by apply (ev_wf _ _ _ Hev).
    + unfold within in *. lia.
  - apply push_wait_cases in Hs as [(_ & -> & _)|[Hm He]]; [done|].
    destruct (enqueue_evolves _ _ _ _ _ _ (proj1 Hm) He) as (_ & _ & Hacc).
    rewrite Hacc in Hall. apply Forall_cons in Hall as [Hms _].
    by eapply (enqueue_within M).
  - exfalso. apply Hne. by eapply pop_silent.
  - exfalso. apply Hne. by eapply try_pop_silent.
  - exfalso. apply Hne. by eapply purge_silent.
Qed.

(** ** Lemmas: single operations *)

Lemma skip_expired_split b now l1 qm l2 total :
  Forall (fun x => is_expired now x = true) l1 -> is_expired now qm = false ->
  total = wrap64 (sum_sizes entry_size (l1 ++ qm :: l2)) ->
  exists e, skip_expired b now (l1 ++ qm :: l2) total =
    (qm :: l2, wrap64 (sum_sizes entry_size (qm :: l2)), e) /\
    discarded e = map msg l1 /\ delivered e = [].
Proof.
  revert total. induction l1 as [|x l1 IH]; intros total Hf Hq Ht; simpl.
  - rewrite Hq. exists []. by rewrite Ht.
  - apply Forall_cons in Hf as [H1 H2]. rewrite H1. destruct (IH (wrap64 (total - entry_size x)) H2 Hq) as (e & -> & Hx & Hd).
    { by apply (wf_remove _ _ _ Ht). }
    eexists. split; [done|]. rewrite <- Hx. by destruct b.
Qed.

Lemma skip_expired_nil b now l total :
  Forall (fun x => is_expired now x = true) l ->
  exists total' e, skip_expired b now l total = ([], total', e) /\ delivered e = [].
Proof.
  revert total. induction l as [|x l IH]; intros total Hf; simpl; [eauto|].
  apply Forall_cons in Hf as [H1 H2]. rewrite H1. destruct (IH (wrap64 (total - entry_size x)) H2) as (t' & e & -> & Hd).
  do 2 eexists. split; [done|]. unfold delivered in *. by destruct b.
Qed.

Lemma discarded_drops (l : list QueuedMessage) :
  discarded (map (fun qm => DroppedOld (msg qm)) l) = map msg l.
Proof. induction l as [|x l IH]; [done|]. cbn. by f_equal. Qed.

(** Whether removals notify does not change what is removed. *)
Lemma skip_expired_notify now l total :
  fst (skip_expired true now l total) = fst (skip_expired false now l total).
Proof.
  revert total. induction l as [|x l IH]; intros total; simpl; [done|].
  destruct (is_expired now x); [|done]. specialize (IH (wrap64 (total - entry_size x))).
  destruct (skip_expired true _ _ _) as [[? ?] ?], (skip_expired false _ _ _) as [[? ?] ?]. done.
Qed.

(** The first entries, exactly those needed to make space, are dropped. *)
Lemma drop_old_loop_spec fuel q q' e :
  (length (queue_ q) <= fuel)%nat -> drop_old_loop fuel q = (q', e) ->
  exists l1, queue_ q = l1 ++ queue_ q' /\ e = map (fun qm => DroppedOld (msg qm)) l1 /\
    (queue_wf q -> queue_wf q') /\ ttl_ q' = ttl_ q /\ hwm_bytes_ q' = hwm_bytes_ q /\
    (has_space_unlocked q' = true \/ queue_ q' = []) /\
    (has_space_unlocked q = true -> l1 = []).
Proof.
  revert q e. induction fuel as [|fuel IH]; intros q e Hf; simpl.
  - intros [= <- <-]. exists []. destruct (queue_ q); [naive_solver|simpl in Hf; lia].
  - destruct (has_space_unlocked q) eqn:Es; simpl.
    { intros [= <- <-]. exists []. naive_solver. }
    case_bool_decide as Eq; simpl.
    { intros [= <- <-]. exists []. rewrite Eq. naive_solver. }
    unfold drop_oldest_unlocked. destruct (queue_ q) as [|qm l] eqn:E; [done|].
    destruct (drop_old_loop fuel _) as [q2 e2] eqn:El. intros [= <- <-].
    apply IH in El as (l1 & Hl & -> & Hwf & Ht & Hh & Hsp & _); [|simpl in *; lia].
    simpl in *. exists (qm :: l1). rewrite Hl. split_and!; try done.
    unfold queue_wf at 1, content_bytes. rewrite E. intros Hw. apply Hwf.
    unfold queue_wf, content_bytes. simpl. by apply wf_remove.
Qed.

(** A critical section of [pop] or [purge_expired] that changes the queue wakes
    a producer. *)
Lemma skip_expired_changes now l total l2 total2 e :
  skip_expired true now l total = (l2, total2, e) ->
  (l2 = l /\ total2 = total /\ e = []) \/ Exists (fun x => wakes_producer x = true) e.
Proof.
  destruct l as [|qm l]; simpl; [intros [= <- <- <-]; by left|].
  destruct (is_expired now qm); [|intros [= <- <- <-]; by left].
  destruct (skip_expired _ _ _ _) as [[? ?] ?]. intros [= <- <- <-]. right. right. by left.
Qed.

Lemma set_entries_id q : set_entries q (queue_ q) (total_bytes_ q) = q.
Proof. by destruct q. Qed.

Lemma pop_changes_notify timeout elapsed now q q' r e :
  pop timeout elapsed now q = (q', r, e) -> q' <> q -> Exists (fun x => wakes_producer x = true) e.
Proof.
  unfold pop, pop_go. destruct (pop_pred q); [|by destruct (_ && _); intros [= <- <- <-]].
  case_bool_decide as Hq; [by destruct (closed_ q); intros [= <- <- <-]|].
  destruct (skip_expired _ _ _ _) as [[l total] e1] eqn:E.
  apply skip_expired_changes in E as [(-> & -> & ->)|He].
  - destruct (queue_ q) as [|qm l]; [done|]. intros [= <- <- <-] _. right. by left.
  - destruct l; intros [= <- <- <-] _; [done|]. apply Exists_app. by left.
Qed.

Lemma purge_changes_notify now q q' n e :
  purge_expired now q = (q', n, e) -> q' <> q -> Exists (fun x => wakes_producer x = true) e.
Proof.
  unfold purge_expired. destruct (ttl_ q =? 0); [by intros [= <- <- <-]|].
  destruct (purge_loop now _ _) as [[[l total] e1] n1] eqn:E.
  pose proof (purge_loop_spec _ _ _ _ _ _ _ E) as (_ & Hn & _).
  intros [= <- <- <-] Hne. apply Exists_app. right.
  rewrite Z.gtb_ltb. destruct (Z.ltb_spec 0 n1) as [|H0]; [by left|]. exfalso. apply Hne.
  assert (Hnone : n1 = 0) by lia. clear Hn H0 Hne.
  assert (l = queue_ q /\ total = total_bytes_ q) as [-> ->]; [|apply set_entries_id].
  subst n1. revert E. generalize (total_bytes_ q). revert l total e1.
  induction (queue_ q) as [|qm k IH]; intros l total e1 t0; simpl; [by intros [= <- <- <-]|].
  destruct (is_expired now qm).
  - destruct (purge_loop now k _) as [[[l3 t3] e3] n3] eqn:Ep. intros [= <- <- <- Hn].
    apply purge_loop_spec in Ep as (_ & -> & _). lia.
  - destruct (purge_loop now k t0) as [[[l3 t3] e3] n3] eqn:Ep. intros [= <- <- <- ->].
    by destruct (IH _ _ _ _ Ep) as [-> ->].
Qed.

(** ** Theorems *)

(** C3: whatever the threads do, the queue is a FIFO that invents, duplicates and
    loses nothing unaccounted for: the messages delivered so far followed by
    those still queued are an in-order selection of the accepted ones; every
    accepted message is exactly one of delivered, dropped, expired or still
    queued; and the byte counter is the size of the contents, modulo the word. *)
Theorem queue_fifo hwm policy ttl q tr :
  rtc qstep (MessageQueue_new hwm policy ttl, []) (q, tr) ->
  delivered tr ++ contents q `sublist_of` accepted tr /\
  accepted tr ≡ₚ delivered tr ++ discarded tr ++ contents q /\
  total_bytes_ q = wrap64 (content_bytes q).
Proof.
  intros Hev%reach_evolves. split_and!.
  - apply (ev_order _ _ _ Hev).
  - apply (ev_perm _ _ _ Hev).
  - by apply (ev_wf _ _ _ Hev).
Qed.

(** with no TTL and any policy but drop-old, nothing accepted is ever
    discarded: the accepted messages are exactly those delivered followed by
    those queued, in order. *)
Theorem queue_lossless hwm policy ttl q tr :
  rtc qstep (MessageQueue_new hwm policy ttl, []) (q, tr) ->
  policy <> kDropOld -> ttl <= 0 ->
  accepted tr = delivered tr ++ contents q.
Proof.
  intros Hev%reach_evolves Hp Ht.
  destruct (ev_deadlines _ _ _ Hev Ht) as [_ Hd]; [done|].
  symmetry. by apply (ev_exact _ _ _ Hev), Hd.
Qed.

(** C15: the high water mark bounds the queue to within one message. With a
    non-zero mark and messages of at most [M] bytes, the contents stay below
    [hwm + M] under every policy and every interleaving, and the byte counter
    is then exact. *)
Theorem queue_bound hwm policy ttl M q tr :
  0 < hwm -> 1 <= M -> hwm + 2 * M <= 2 ^ 64 ->
  rtc qstep (MessageQueue_new hwm policy ttl, []) (q, tr) ->
  Forall (fun m => msg_size m <= M) (accepted tr) ->
  content_bytes q < hwm + M /\ total_bytes_ q = content_bytes q.
Proof.
  intros Hh HM H64 Hr Hall.
  assert (Hw : within M q).
  { pose proof (rtc_invariant qstep (fun s =>
      evolves (MessageQueue_new hwm policy ttl) (fst s) (snd s) /\
      (Forall (fun m => msg_size m <= M) (accepted (snd s)) -> within M (fst s)))) as Hinv.
    refine (proj2 (Hinv _ _ _ Hr _) Hall).
    - clear q tr Hr Hall Hinv. intros [q1 tr1] [q2 tr2] [Hev1 Hw1] Hstep. simpl in *.
      destruct (qstep_evolves _ _ _ _ Hstep) as (e & Etr & Hev).
      split; [subst tr2; by eapply evolves_trans|]. intros Hall.
      pose proof (ev_config _ _ _ Hev1) as (Hc & _ & _). simpl in Hc.
      assert (Hall1 : Forall (fun m => msg_size m <= M) (accepted tr1) /\
                      Forall (fun m => msg_size m <= M) (accepted e)).
      { subst tr2. destruct (histories_app tr1 e) as (Ha & _ & _).
        rewrite Ha in Hall. by apply Forall_app in Hall. }
      destruct Hall1 as [Ha1 Hae]. specialize (Hw1 Ha1).
      assert (Hwf1 : queue_wf q1) by (by apply (ev_wf _ _ _ Hev1)).
      destruct (decide (accepted e = [])) as [Hn|Hn].
      { unfold within in *. pose proof (evolves_shrinks _ _ _ Hev Hn).
        pose proof (ev_config _ _ _ Hev) as (Hc2 & _ & _). lia. }
      apply (qstep_within M q1 tr1 q2 tr2 e); try done; lia.
    - split; [by apply evolves_refl|]. intros _. unfold within, content_bytes; simpl. lia. }
  split.
  - apply reach_evolves in Hr. pose proof (ev_config _ _ _ Hr) as (Hc & _ & _). simpl in Hc.
    unfold within in Hw. lia.
  - apply reach_evolves in Hr. pose proof (ev_config _ _ _ Hr) as (Hc & _ & _). simpl in Hc.
    apply (wf_exact M); [lia|by apply (ev_wf _ _ _ Hr)|done].
Qed.

(** what [push] does on an open queue that is full (at the mark, or with no
    room for this message), for each policy: drop-new reports Ok and changes
    nothing, fail-fast reports an error and changes nothing, block enqueues,
    times out or waits according to the wait predicate, and drop-old discards
    the oldest messages until there is space or none is left, then enqueues. *)
Theorem push_when_full timeout now m q q' r e :
  queue_wf q -> closed_ q = false -> hwm_bytes_ q > 0 ->
  has_space_unlocked q = false \/ hwm_bytes_ q < wrap64 (total_bytes_ q + msg_size m) ->
  push timeout now m q = (q', r, e) ->
  match policy_ q with
  | kDropNew => q' = q /\ r = Return Ok /\ e = [DroppedNew m]
  | kFailFast => q' = q /\ e = [] /\ exists t, r = Return (io_error t)
  | kBlock =>
      if push_pred m q then r = Return Ok /\ contents q' = contents q ++ [m]
      else q' = q /\ r = Wait /\ e = []
  | kDropOld =>
      r = Return Ok /\ exists l1 l2, contents q = l1 ++ l2 /\ contents q' = l2 ++ [m] /\
        discarded e = l1 /\ (has_space_unlocked q = true -> l1 = []) /\
        (l2 <> [] -> wrap64 (sum_sizes msg_size l2) < hwm_bytes_ q)
  end.
Proof.
  intros Hwf Hc Hh Hfull. unfold push. rewrite Hc.
  replace (_ || _) with true.
  2: { symmetry. apply orb_true_iff. destruct Hfull as [->|Hf]; [by left|right].
       rewrite !Z.gtb_ltb, !(proj2 (Z.ltb_lt _ _)) by lia. done. }
  destruct (policy_ q).
  - unfold push_wait. destruct (push_pred m q); [rewrite Hc|].
    + intros [= <- <- <-]. split; [done|]. unfold contents; simpl. by rewrite map_app.
    + rewrite andb_false_r. by intros [= <- <- <-].
  - by intros [= <- <- <-].
  - destruct (drop_old_loop _ q) as [q1 e1] eqn:El.
    apply drop_old_loop_spec in El as (l1 & Hl & -> & Hwf1 & Ht & Hh1 & Hsp & Hnone); [|lia].
    intros [= <- <- <-]. split; [done|].
    exists (map msg l1), (contents q1). unfold contents; simpl. rewrite Hl, !map_app.
    split_and!; try done.
    + destruct (histories_app (map (fun qm => DroppedOld (msg qm)) l1) [Enqueued m; NotEmptyOne])
        as (_ & _ & ->). rewrite app_nil_r. apply discarded_drops.
    + intros Hs. by rewrite (Hnone Hs).
    + intros Hne. destruct Hsp as [Hs|Hs]; [|by rewrite Hs in Hne].
      specialize (Hwf1 Hwf). unfold queue_wf in Hwf1. rewrite content_bytes_contents in Hwf1.
      unfold contents in Hwf1. rewrite <- Hwf1, <- Hh1. unfold has_space_unlocked in Hs.
      destruct (Z.eqb_spec (hwm_bytes_ q1) 0); [lia|]. by bool_to_prop.
  - intros [= <- <- <-]. eauto.
Qed.

(** [pop] and [try_pop] deliver the first message whose deadline has not
    passed, and remove it and the expired ones before it; when every queued
    message has expired they empty the queue and report closed or timeout
    (nothing, for [try_pop]). *)
Theorem pop_first_live timeout elapsed now q :
  queue_wf q -> queue_ q <> [] ->
  (forall l1 qm l2, queue_ q = l1 ++ qm :: l2 ->
     Forall (fun x => is_expired now x = true) l1 -> is_expired now qm = false ->
     exists q' e e', pop timeout elapsed now q = (q', Return (RValue (msg qm)), e) /\
       try_pop now q = (q', Some (msg qm), e') /\
       queue_ q' = l2 /\ discarded e = map msg l1 /\ delivered e = [msg qm] /\ queue_wf q') /\
  (Forall (fun x => is_expired now x = true) (queue_ q) ->
     exists q' s e e', pop timeout elapsed now q = (q', Return (RStatus s), e) /\
       try_pop now q = (q', None, e') /\ queue_ q' = [] /\ delivered e = [] /\
       code s = if closed_ q then kClosed else kTimeout).
Proof.
  intros Hwf Hne. unfold pop, pop_go, try_pop, pop_pred.
  assert (Hb : bool_decide (queue_ q = []) = false) by (by apply bool_decide_eq_false).
  rewrite Hb, orb_true_r. split.
  - intros l1 qm l2 Hq Hf Hx. unfold queue_wf, content_bytes in Hwf. rewrite Hq in *.
    destruct (skip_expired_split true now l1 qm l2 _ Hf Hx Hwf) as (e & -> & Hd & Hv).
    destruct (skip_expired_split false now l1 qm l2 _ Hf Hx Hwf) as (e' & -> & _ & _).
    do 3 eexists. split; [done|]. split; [done|].
    destruct (histories_app e [Delivered (msg qm); NotFullOne]) as (_ & -> & ->).
    rewrite Hd, Hv, app_nil_r. split_and!; try done.
    unfold queue_wf, content_bytes. simpl. by apply wf_remove.
  - intros Hf.
    destruct (skip_expired_nil true now _ (total_bytes_ q) Hf) as (t & e & E & Hd).
    destruct (skip_expired_nil false now _ (total_bytes_ q) Hf) as (t' & e' & E' & _).
    assert (t' = t) as ->.
    { pose proof (skip_expired_notify now (queue_ q) (total_bytes_ q)) as Hn.
      rewrite E, E' in Hn. by injection Hn. }
    rewrite E, E'. do 4 eexists. split_and!; try done. by destruct (closed_ q).
Qed.

(** closing is final and clean. On a closed queue [push] fails with kClosed
    whatever the policy and never waits, [pop] never waits and drains what is
    queued before it reports kClosed, and no step reopens the queue or accepts
    another message. *)
Theorem queue_closed_final q tr q' tr' :
  closed_ q = true -> rtc qstep (q, tr) (q', tr') ->
  closed_ q' = true /\ accepted tr' = accepted tr /\
  (forall timeout now m, exists s, push timeout now m q' = (q', Return s, []) /\ code s = kClosed) /\
  (forall timeout elapsed now, exists q2 r e, pop timeout elapsed now q' = (q2, Return r, e) /\
     (queue_ q' = [] -> exists s, r = RStatus s /\ code s = kClosed)).
Proof.
  intros Hc Hr.
  assert (closed_ q' = true /\ accepted tr' = accepted tr) as [Hc' Ha].
  { apply (rtc_invariant qstep (fun s => closed_ (fst s) = true /\ accepted (snd s) = accepted tr)
             ) in Hr; [done| |done].
    intros [q1 t1] [q2 t2] [H1 H2] (e & -> & Hev)%qstep_evolves. simpl in *.
    destruct (ev_closed _ _ _ Hev H1) as [H3 H4]. split; [done|].
    destruct (histories_app t1 e) as (-> & _ & _). by rewrite H4, app_nil_r. }
  split_and!; [done..| |].
  - intros timeout now m. unfold push. rewrite Hc'. eauto.
  - intros timeout elapsed now. unfold pop, pop_go, pop_pred. rewrite Hc'. simpl.
    case_bool_decide; [do 3 eexists; split; [done|]; eauto|].
    destruct (skip_expired _ _ _ _) as [[l total] e1].
    destruct l; do 3 eexists; (split; [done|]); done.
Qed.

(** wake-ups. Whenever a critical section of [pop], [purge_expired] or
    [close] makes a blocked producer's predicate true it notifies the producers,
    and whenever one of [push] (entering or resumed) or [close] makes a blocked
    consumer's predicate true it notifies the consumers. *)
Theorem wakeups_issued q q' e m :
  ((exists timeout elapsed now r, pop timeout elapsed now q = (q', r, e)) \/
     (exists now n, purge_expired now q = (q', n, e)) \/ close q = (q', e) ->
   push_pred m q = false -> push_pred m q' = true -> Exists (fun x => wakes_producer x = true) e) /\
  ((exists timeout now m' r, push timeout now m' q = (q', r, e)) \/
     (exists timeout elapsed now m' r, push_wait timeout elapsed now m' q = (q', r, e)) \/
     close q = (q', e) ->
   pop_pred q = false -> pop_pred q' = true -> Exists (fun x => wakes_consumer x = true) e).
Proof.
  split.
  - intros Hop H1 H2.
    assert (q' <> q) as Hne by (intros ->; congruence).
    destruct Hop as [(t & el & now & r & H)|[(now & n & H)|H]].
    + by eapply pop_changes_notify.
    + by eapply purge_changes_notify.
    + injection H as _ <-. by left.
  - intros Hop H1 H2.
    assert (q' <> q) as Hne by (intros ->; congruence).
    destruct Hop as [(t & now & m' & r & H)|[(t & el & now & m' & r & H)|H]].
    + apply push_cases in H as [(-> & _)|(q1 & e1 & e2 & _ & _ & _ & _ & He & -> & _)]; [done|].
      injection He as _ _ <-. apply Exists_app. right. right. by left.
    + apply push_wait_cases in H as [(-> & _)|[_ He]]; [done|].
      injection He as _ _ <-. right. by left.
    + injection H as _ <-. right. by left.
Qed.

(** [try_pop] can lose a wake-up. When every queued message has expired it
    empties the queue and makes the predicate of a producer blocked in [push]
    true, but notifies no one: the producer stays asleep although there is
    space. [pop] on the same queue does notify. *)
Theorem try_pop_lost_wakeup :
  exists q q' q2 e e2 r m now,
    rtc qstep (MessageQueue_new 4 kBlock 1, []) (q, [Enqueued m; NotEmptyOne]) /\
    push_pred m q = false /\
    try_pop now q = (q', None, e) /\ push_pred m q' = true /\
    Forall (fun x => wakes_producer x = false) e /\
    pop 0 false now q = (q2, r, e2) /\ Exists (fun x => wakes_producer x = true) e2.
Proof.
  set (m := [Init.Byte.x61; Init.Byte.x62; Init.Byte.x63; Init.Byte.x64]).
  exists (mkQueue [mkQueued m 5 1000005] 4 false 4 kBlock 1).
  do 5 eexists. exists m, 2000000. split_and!.
  - eapply rtc_l; [|apply rtc_refl]. eapply (step_push _ [] 0 5 m _ (Return Ok)). vm_compute. reflexivity.
  - vm_compute. reflexivity.
  - vm_compute. reflexivity.
  - vm_compute. reflexivity.
  - repeat constructor.
  - vm_compute. reflexivity.
  - right. by left.
Qed.

(** ** Witnesses *)

Definition byte_x : payload := [Init.Byte.x78].

Lemma sample_run :
  rtc qstep (MessageQueue_new 10 kBlock 0, [])
    (mkQueue [] 0 false 10 kBlock 0, [Enqueued byte_x; NotEmptyOne; Delivered byte_x; NotFullOne]).
Proof.
  apply (rtc_l _ _ (mkQueue [mkQueued byte_x 7 0] 1 false 10 kBlock 0, [Enqueued byte_x; NotEmptyOne])).
  - exact (step_push (MessageQueue_new 10 kBlock 0) [] 0 7 byte_x _ (Return Ok)
             [Enqueued byte_x; NotEmptyOne] eq_refl).
  - apply rtc_once.
    exact (step_pop (mkQueue [mkQueued byte_x 7 0] 1 false 10 kBlock 0)
             [Enqueued byte_x; NotEmptyOne] 0 false 9 (mkQueue [] 0 false 10 kBlock 0) (Return (RValue byte_x))
             [Delivered byte_x; NotFullOne] eq_refl).
Qed.

Lemma queue_fifo_witness :
  [byte_x] ++ [] `sublist_of` [byte_x] /\ [byte_x] ≡ₚ [byte_x] ++ [] ++ [] /\ 0 = wrap64 0.
Proof. exact (queue_fifo 10 kBlock 0 _ _ sample_run). Defined.

Lemma queue_lossless_witness : [byte_x] = [byte_x] ++ [].
Proof. refine (queue_lossless 10 kBlock 0 _ _ sample_run _ _); [discriminate|lia]. Defined.

Lemma queue_bound_witness : 0 < 10 + 1 /\ 0 = 0.
Proof.
  refine (queue_bound 10 kBlock 0 1 _ _ _ _ _ sample_run _); [lia..|].
  repeat constructor; vm_compute; discriminate.
Defined.

Definition full_queue (p : BackpressurePolicy) : MessageQueue :=
  mkQueue [mkQueued byte_x 1 0; mkQueued byte_x 2 0] 2 false 2 p 0.

Lemma push_when_full_witness :
  exists l1 l2, contents (full_queue kDropOld) = l1 ++ l2 /\
    contents (fst (fst (push 0 9 [] (full_queue kDropOld)))) = l2 ++ [[]] /\ l1 = [byte_x].
Proof.
  destruct (push_when_full 0 9 [] (full_queue kDropOld)
              (fst (fst (push 0 9 [] (full_queue kDropOld)))) (Return Ok)
              [DroppedOld byte_x; Enqueued []; NotEmptyOne] eq_refl eq_refl
              eq_refl (or_introl eq_refl) eq_refl) as (_ & l1 & l2 & H1 & H2 & H3 & _).
  exists l1, l2. split; [exact H1|]. split; [exact H2|]. rewrite <- H3. reflexivity.
Defined.

Lemma pop_first_live_witness :
  exists q' e e', pop 0 false 9 (full_queue kBlock) = (q', Return (RValue byte_x), e) /\
    try_pop 9 (full_queue kBlock) = (q', Some byte_x, e') /\
    queue_ q' = [mkQueued byte_x 2 0] /\ discarded e = [] /\ delivered e = [byte_x] /\ queue_wf q'.
Proof.
  refine (proj1 (pop_first_live 0 false 9 (full_queue kBlock) eq_refl _)
            [] (mkQueued byte_x 1 0) [mkQueued byte_x 2 0] eq_refl _ eq_refl);
    [discriminate|constructor].
Defined.

Lemma queue_closed_final_witness :
  is_closed (fst (close (full_queue kBlock))) = true /\
  accepted [] = accepted [].
Proof.
  destruct (queue_closed_final (fst (close (full_queue kBlock))) [] (fst (close (full_queue kBlock))) []
              eq_refl (rtc_refl _ _)) as (H1 & H2 & _).
  split; [exact H1|exact H2].
Defined.

Lemma wakeups_issued_witness : Exists (fun x => wakes_producer x = true) [NotFullAll; NotEmptyAll].
Proof.
  exact (proj1 (wakeups_issued (full_queue kBlock) (fst (close (full_queue kBlock))) _ byte_x)
           (or_intror (or_intror eq_refl)) eq_refl eq_refl).
Defined.
