(* ===== verification/Pipe.v ===== *)
(** * The Pipe and Listener interfaces (include/duct/duct.h)

    A pipe is anything with [send], [recv] and [close]. The operations are
    functions of the pipe's state, which includes what the operating system will
    answer; a [send] or [recv] that never returns is [None]. [PipeLaws] is the
    contract every transport and wrapper discharges and every client relies on:
    once closed, a pipe answers kClosed to everything and does not change. *)

From S2P Require Import Prelude Status Options.

Abbreviation payload := (list byte).

(** src/include/duct/duct.h:81-87 [Pipe] *)
Class PipeOps (P : Type) := {
  pipe_send : P -> payload -> SendOptions -> option (P * Status);
  pipe_recv : P -> RecvOptions -> option (P * Result payload);
  pipe_close : P -> P;
}.

Class PipeLaws (P : Type) `{PipeOps P} := {
  shut : P -> Prop;
  close_shuts p : shut (pipe_close p);
  shut_close p : shut p -> pipe_close p = p;
  shut_send p m opt : shut p -> exists s, pipe_send p m opt = Some (p, s) /\ code s = kClosed;
  shut_recv p opt : shut p -> exists s, pipe_recv p opt = Some (p, RStatus s) /\ code s = kClosed;
}.

(** src/include/duct/duct.h:89-99 [Listener] *)
Class ListenerOps (L P : Type) := {
  listener_accept : L -> option (L * Result P);
  listener_local_address : L -> Result string;
  listener_close : L -> L;
}.

(** src/include/duct/duct.h:95-97 [Listener::local_address] *)
Definition local_address_default : Result string :=
  RStatus (not_supported "local_address not supported").

(** A [std::unique_ptr<Pipe>]: a pipe of some concrete type, with its virtual
    functions. *)
Record AnyPipe := mkAnyPipe {
  any_type : Type;
  any_ops : PipeOps any_type;
  any_state : any_type;
}.
Arguments mkAnyPipe {any_type any_ops} any_state.

#[export] Instance AnyPipe_ops : PipeOps AnyPipe := {|
  pipe_send p m opt :=
    '(s, r) ← @pipe_send _ (any_ops p) (any_state p) m opt;
    Some (@mkAnyPipe (any_type p) (any_ops p) s, r);
  pipe_recv p opt :=
    '(s, r) ← @pipe_recv _ (any_ops p) (any_state p) opt;
    Some (@mkAnyPipe (any_type p) (any_ops p) s, r);
  pipe_close p := @mkAnyPipe (any_type p) (any_ops p) (@pipe_close _ (any_ops p) (any_state p));
|}.

(** ** Laws of the contract *)

Section laws.
Context {P : Type} `{PipeLaws P}.

Lemma pipe_close_idem p : pipe_close (pipe_close p) = pipe_close p.
Proof. apply shut_close, close_shuts. Qed.

Lemma send_after_close p m opt :
  exists s, pipe_send (pipe_close p) m opt = Some (pipe_close p, s) /\ code s = kClosed.
Proof. apply shut_send, close_shuts. Qed.

Lemma recv_after_close p opt :
  exists s, pipe_recv (pipe_close p) opt = Some (pipe_close p, RStatus s) /\ code s = kClosed.
Proof. apply shut_recv, close_shuts. Qed.

End laws.
#[export] Hint Rewrite @pipe_close_idem : duct.

(** ** Carriers

    What a transport promises to a wrapper that queues: over one connection it
    knows which messages it has been given and the peer has not received; an
    accepted [send] adds one at the end, a [recv] does not change them, and a
    refused [send] changes them only if it reports the connection lost. *)
Definition connection_lost (st : Status) : Prop := code st = kClosed \/ code st = kIoError.

Class Carrier (P : Type) `{PipeOps P} := {
  connection : Type;
  carries : connection -> P -> list payload -> Prop;
  carries_send c p q m opt p' st :
    carries c p q -> pipe_send p m opt = Some (p', st) ->
    if status_ok st then carries c p' (q ++ [m]) else carries c p' q \/ connection_lost st;
  carries_recv c p q opt p' r : carries c p q -> pipe_recv p opt = Some (p', r) -> carries c p' q;
}.

(** A carrier whose messages, once given to it, stay on their way whatever
    happens to this end. *)
Class LastingCarrier (P : Type) `{Carrier P} := {
  leaves : connection -> P -> list payload -> Prop;
  carries_leaves c p q : carries c p q -> leaves c p q;
  leaves_send c p q m opt p' st : leaves c p q -> pipe_send p m opt = Some (p', st) -> leaves c p' q;
  leaves_recv c p q opt p' r : leaves c p q -> pipe_recv p opt = Some (p', r) -> leaves c p' q;
  leaves_close c p q : leaves c p q -> leaves c (pipe_close p) q;
}.

(** A transport that never accepts a message. *)
Definition refuses {P} `{PipeOps P} (m : payload) : Prop :=
  forall p opt p' st, pipe_send p m opt = Some (p', st) -> status_ok st = false.

(** ** Journals

    The calls a pipe receives and what it answers, to state what an operation
    on it did. *)

Inductive io := DidRecv (r : Result payload) | DidSend (m : payload) (st : Status).

Record journaled (P : Type) := mkJ { j_pipe : P; journal : list io }.
Arguments mkJ {P}. Arguments j_pipe {P}. Arguments journal {P}.

#[export] Instance journaled_ops {P} `{PipeOps P} : PipeOps (journaled P) := {|
  pipe_send p m opt :=
    '(q, st) ← pipe_send (j_pipe p) m opt; Some (mkJ q (journal p ++ [DidSend m st]), st);
  pipe_recv p opt :=
    '(q, r) ← pipe_recv (j_pipe p) opt; Some (mkJ q (journal p ++ [DidRecv r]), r);
  pipe_close p := mkJ (pipe_close (j_pipe p)) (journal p);
|}.

Definition sends (ms : list (payload * Status)) : list io := map (fun x => DidSend x.1 x.2) ms.
Definition receives (ms : list payload) : list io := map (fun m => DidRecv (RValue m)) ms.
Definition echoes (ms : list (payload * Status)) : list io :=
  flat_map (fun x => [DidRecv (RValue x.1); DidSend x.1 x.2]) ms.
Definition all_ok (ms : list (payload * Status)) : Prop := Forall (fun x => status_ok x.2 = true) ms.

Section journal_lemmas.
Context {P : Type} `{PipeOps P}.

Lemma journal_send p l m opt q st :
  pipe_send (mkJ p l) m opt = Some (q, st) -> journal q = l ++ [DidSend m st].
Proof. cbn. destruct (pipe_send p m opt) as [[? ?]|]; cbn; [by intros [= <- <-]|done]. Qed.

Lemma journal_recv p l opt q r :
  pipe_recv (mkJ p l) opt = Some (q, r) -> journal q = l ++ [DidRecv r].
Proof. cbn. destruct (pipe_recv p opt) as [[? ?]|]; cbn; [by intros [= <- <-]|done]. Qed.

End journal_lemmas.
