(* ===== verification/SocketUtils.v ===== *)
(** * Socket helpers (include/duct/socket_utils.h, src/socket_utils.cc)

    The POSIX side: waiting on a descriptor with [poll], switching blocking
    mode with [fcntl] and closing. The answers of the system calls are
    arguments. Event and file-status masks are integers combined bitwise. *)

From S2P Require Import Prelude Status.

(** The kernel's constants. *)
Definition POLLIN : Z := 1.
Definition POLLOUT : Z := 4.
Definition POLLERR : Z := 8.
Definition POLLHUP : Z := 16.
Definition POLLNVAL : Z := 32.
Definition O_NONBLOCK : Z := 2048.

(** src/include/duct/socket_utils.h:16-16 [kInvalidSocket] *)
Definition kInvalidSocket : Z := -1.

(** [flags & mask] used as a condition. *)
Definition has (flags mask : Z) : bool := negb (Z.land flags mask =? 0).

(** src/src/socket_utils.cc:17-32 [ensure_networking] *)
Definition ensure_networking : Status := Ok.

(** The answer of [::poll]: its return value and the [revents] it stored. *)
Record poll_answer := mkPoll { poll_rc : Z; revents : Z }.

(** src/src/socket_utils.cc:60-82 [wait_readable] *)
Definition wait_readable (timeout_ms : Z) (answer : poll_answer) : Status :=
  if timeout_ms =? 0 then Ok
  else if poll_rc answer <? 0 then io_error "poll() failed"
  else if poll_rc answer =? 0 then timeout "read timed out"
  else if has (revents answer) POLLHUP then closed "peer closed"
  else if has (revents answer) (Z.lor POLLERR POLLNVAL) then
    io_error "poll() reported error on fd"
  else Ok.

(** src/src/socket_utils.cc:112-134 [wait_writable] *)
Definition wait_writable (timeout_ms : Z) (answer : poll_answer) : Status :=
  if timeout_ms =? 0 then Ok
  else if poll_rc answer <? 0 then io_error "poll() failed"
  else if poll_rc answer =? 0 then timeout "write timed out"
  else if has (revents answer) POLLHUP then closed "peer closed"
  else if has (revents answer) (Z.lor POLLERR POLLNVAL) then
    io_error "poll() reported error on fd"
  else Ok.

(** src/src/socket_utils.cc:151-165 [set_nonblocking]

    [getfl] is what [F_GETFL] returns and [setfl_fails] whether [F_SETFL] does;
    the second component is the descriptor's flags afterwards. *)
Definition set_nonblocking (nonblock : bool) (getfl : Z) (setfl_fails : bool) : Status * Z :=
  if getfl <? 0 then (io_error "fcntl(F_GETFL) failed", getfl)
  else
    let flags :=
      if nonblock then Z.lor getfl O_NONBLOCK else Z.land getfl (Z.lnot O_NONBLOCK) in
    if setfl_fails then (io_error "fcntl(F_SETFL) failed", getfl) else (Ok, flags).

(** src/src/socket_utils.cc:180-184 [close_socket]

    On the table of open descriptors. *)
Definition close_socket (fd : Z) (close_fails : bool) (open : gset Z) : Status * gset Z :=
  if fd <? 0 then (Ok, open)
  else if close_fails then (io_error "close() failed", open)
  else (Ok, open ∖ {[fd]}).

(** ** Lemmas *)

Lemma wait_readable_ok t a :
  wait_readable t a = Ok <->
  t = 0 \/ (0 < poll_rc a /\ has (revents a) POLLHUP = false /\
            has (revents a) (Z.lor POLLERR POLLNVAL) = false).
Proof.
  unfold wait_readable. destruct (Z.eqb_spec t 0); [naive_solver|].
  destruct (Z.ltb_spec (poll_rc a) 0); [naive_solver lia|].
  destruct (Z.eqb_spec (poll_rc a) 0); [naive_solver lia|].
  destruct (has _ POLLHUP); [naive_solver|].
  destruct (has _ _); [naive_solver|]. naive_solver lia.
Qed.

Lemma testbit_O_NONBLOCK i : 0 <= i -> Z.testbit O_NONBLOCK i = bool_decide (i = 11).
Proof.
  intros Hi. change O_NONBLOCK with (2 ^ 11). rewrite Z.pow2_bits_eqb by lia.
  case_bool_decide; [subst; done|]. apply Z.eqb_neq. lia.
Qed.

Lemma set_nonblocking_restore fl :
  0 <= fl -> Z.testbit fl 11 = false ->
  snd (set_nonblocking false (snd (set_nonblocking true fl false)) false) = fl.
Proof.
  intros Hfl H11. unfold set_nonblocking. rewrite (proj2 (Z.ltb_ge fl 0)) by done. simpl.
  rewrite (proj2 (Z.ltb_ge _ _)) by (apply Z.lor_nonneg; unfold O_NONBLOCK; lia). simpl.
  apply Z.bits_inj'. intros j Hj.
  rewrite Z.land_spec, Z.lor_spec, Z.lnot_spec, testbit_O_NONBLOCK by done.
  case_bool_decide; [subst j; by rewrite H11|]. by rewrite orb_false_r, andb_true_r.
Qed.

(** [set_nonblocking] changes exactly the O_NONBLOCK bit: it is set or clear
    afterwards as asked and every other status flag of the descriptor is kept,
    so switching to non-blocking and back restores a blocking descriptor. *)
Theorem set_nonblocking_bits nonblock fl i :
  0 <= fl -> 0 <= i ->
  fst (set_nonblocking nonblock fl false) = Ok /\
  Z.testbit (snd (set_nonblocking nonblock fl false)) i =
    (if bool_decide (i = 11) then nonblock else Z.testbit fl i) /\
  (Z.testbit fl 11 = false ->
     snd (set_nonblocking false (snd (set_nonblocking true fl false)) false) = fl).
Proof.
  intros Hfl Hi. unfold set_nonblocking at 1 2. rewrite (proj2 (Z.ltb_ge fl 0)) by done.
  split; [done|]. split; [|intros; by apply set_nonblocking_restore].
  destruct nonblock; simpl.
  - rewrite Z.lor_spec, testbit_O_NONBLOCK by done.
    case_bool_decide; [by rewrite orb_true_r|by rewrite orb_false_r].
  - rewrite Z.land_spec, Z.lnot_spec, testbit_O_NONBLOCK by done.
    case_bool_decide; [by rewrite andb_false_r|by rewrite andb_true_r].
Qed.

Lemma set_nonblocking_bits_witness :
  fst (set_nonblocking true 2 false) = Ok /\
  Z.testbit (snd (set_nonblocking true 2 false)) 11 = true /\
  (Z.testbit 2 11 = false ->
     snd (set_nonblocking false (snd (set_nonblocking true 2 false)) false) = 2).
Proof. exact (set_nonblocking_bits true 2 11 ltac:(lia) ltac:(lia)). Defined.
