(* ===== verification/WinSocket.v ===== *)
(** * Socket helpers on Windows (src/socket_utils.cc)

    The Winsock branch of the same functions: initialisation through a once
    flag, waiting with [select], non-blocking mode with [ioctlsocket]. The
    answers of the system calls are arguments; the once flag is state. *)

From S2P Require Import Prelude Status.

(** src/include/duct/socket_utils.h:13-14 [kInvalidSocket] *)
Definition kInvalidSocket : Z := wrap64 (-1).

(** src/src/socket_utils.cc:19-28 [ensure_networking]

    [init_rc] is the once flag with the return code it guards; [startup] is what
    [WSAStartup] answers if it is called. *)
Definition ensure_networking (init_rc : option Z) (startup : Z) : Status * option Z :=
  let rc := match init_rc with Some rc => rc | None => startup end in
  (if negb (rc =? 0) then io_error "WSAStartup failed" else Ok, Some rc).

(** The [timeval] of a duration in milliseconds: seconds and microseconds. *)
Definition timeval_of (timeout_ms : Z) : Z * Z :=
  (Z.quot timeout_ms 1000, Z.rem timeout_ms 1000 * 1000).

(** [::select] on one socket: its return value and whether the exception set
    still holds the socket, given the [timeval]. *)
Definition selector : Type := Z * Z -> Z * bool.

(** src/src/socket_utils.cc:35-58 [wait_readable] *)
Definition wait_readable (fd timeout_ms : Z) (init_rc : option Z) (startup : Z) (select : selector)
    : Status * option Z :=
  if fd =? kInvalidSocket then (invalid_argument "invalid socket", init_rc)
  else if timeout_ms =? 0 then (Ok, init_rc)
  else
    let '(st, init_rc') := ensure_networking init_rc startup in
    if negb (status_ok st) then (st, init_rc')
    else
      let '(rc, failed) := select (timeval_of timeout_ms) in
      (if rc =? -1 then io_error "select() failed"
       else if rc =? 0 then timeout "read timed out"
       else if failed then io_error "select() reported error on socket"
       else Ok, init_rc').

(** src/src/socket_utils.cc:87-110 [wait_writable] *)
Definition wait_writable (fd timeout_ms : Z) (init_rc : option Z) (startup : Z) (select : selector)
    : Status * option Z :=
  if fd =? kInvalidSocket then (invalid_argument "invalid socket", init_rc)
  else if timeout_ms =? 0 then (Ok, init_rc)
  else
    let '(st, init_rc') := ensure_networking init_rc startup in
    if negb (status_ok st) then (st, init_rc')
    else
      let '(rc, failed) := select (timeval_of timeout_ms) in
      (if rc =? -1 then io_error "select() failed"
       else if rc =? 0 then timeout "write timed out"
       else if failed then io_error "select() reported error on socket"
       else Ok, init_rc').

(** src/src/socket_utils.cc:139-149 [set_nonblocking]

    [ioctl] is [ioctlsocket(FIONBIO)] with the mode it is given. *)
Definition set_nonblocking (fd : Z) (nonblock : bool) (init_rc : option Z) (startup : Z)
    (ioctl : Z -> Z) : Status * option Z :=
  if fd =? kInvalidSocket then (invalid_argument "invalid socket", init_rc)
  else
    let '(st, init_rc') := ensure_networking init_rc startup in
    if negb (status_ok st) then (st, init_rc')
    else (if negb (ioctl (if nonblock then 1 else 0) =? 0) then io_error "ioctlsocket(FIONBIO) failed"
          else Ok, init_rc').

(** src/src/socket_utils.cc:170-178 [close_socket] *)
Definition close_socket (fd : Z) (init_rc : option Z) (startup : Z) (close_rc : Z)
    : Status * option Z :=
  if fd =? kInvalidSocket then (Ok, init_rc)
  else
    let '(st, init_rc') := ensure_networking init_rc startup in
    if negb (status_ok st) then (st, init_rc')
    else (if negb (close_rc =? 0) then io_error "closesocket() failed" else Ok, init_rc').

(** ** Lemmas *)

(** The Winsock initialisation runs once: its first answer is kept for ever. *)
Lemma ensure_networking_once init_rc startup startup' :
  let '(st, s) := ensure_networking init_rc startup in
  ensure_networking s startup' = (st, s).
Proof. done. Qed.

(** The time [select] is given is the timeout, whole and in range. *)
Lemma timeval_of_spec t :
  0 <= t -> let '(sec, usec) := timeval_of t in
  sec * 1000000 + usec = t * 1000 /\ 0 <= sec /\ 0 <= usec < 1000000.
Proof.
  intros Ht. unfold timeval_of. rewrite Z.quot_div_nonneg, Z.rem_mod_nonneg by lia.
  pose proof (Z.div_mod t 1000 ltac:(lia)). pose proof (Z.mod_pos_bound t 1000 ltac:(lia)).
  pose proof (Z.div_pos t 1000 Ht ltac:(lia)). lia.
Qed.

(** ** Theorems *)

(** waiting on Windows. An invalid handle is refused before anything else, a
    zero timeout succeeds without a system call, a failed initialisation is
    reported for ever, and otherwise [select] is called once, for exactly the
    timeout, and decides: kTimeout when it times out, kIoError when it fails or
    flags the socket, Ok otherwise. *)
Theorem wait_readable_spec fd t init_rc startup select :
  0 <= t ->
  let '(st, s) := wait_readable fd t init_rc startup select in
  if fd =? kInvalidSocket then code st = kInvalidArgument /\ s = init_rc
  else if t =? 0 then st = Ok /\ s = init_rc
  else
    s = Some (default startup init_rc) /\
    if negb (default startup init_rc =? 0) then st = io_error "WSAStartup failed"
    else exists sec usec, sec * 1000000 + usec = t * 1000 /\ 0 <= usec < 1000000 /\
      let '(rc, failed) := select (sec, usec) in
      code st = (if rc =? -1 then kIoError else if rc =? 0 then kTimeout
                 else if (failed : bool) then kIoError else kOk).
Proof.
  intros Ht. unfold wait_readable. destruct (fd =? kInvalidSocket); [done|].
  destruct (t =? 0); [done|]. unfold ensure_networking.
  change (match init_rc with Some rc => rc | None => startup end) with (default startup init_rc).
  destruct (negb (default startup init_rc =? 0)); simpl; [done|].
  pose proof (timeval_of_spec t Ht) as Htv. destruct (timeval_of t) as [sec usec].
  destruct Htv as (Hs & _ & Hu). destruct (select (sec, usec)) as [rc failed] eqn:Es.
  split; [done|]. exists sec, usec. rewrite Es. split; [done|]. split; [done|].
  by repeat case_match.
Qed.

Lemma wait_readable_spec_witness :
  let '(st, s) := wait_readable 5 1500 None 0 (fun _ => (0, false)) in
  s = Some 0 /\ exists sec usec, sec * 1000000 + usec = 1500 * 1000 /\ 0 <= usec < 1000000 /\
     code st = kTimeout.
Proof. exact (wait_readable_spec 5 1500 None 0 (fun _ => (0, false)) ltac:(lia)). Defined.
