(* ===== verification/Tcp.v ===== *)
(** * The TCP transport (src/tcp_transport.cc)

    [TcpPipe] and [TcpListener], and the loops over the address candidates that
    [getaddrinfo] resolves, on POSIX. The resolver and the socket calls are
    parameters: a candidate says what [socket], and then [connect] or
    [bind]/[listen], answer for it. The table of open descriptors is threaded
    through, so that leaks are visible. *)

From S2P Require Import Prelude Status Options Pipe SocketUtils Wire Address.

(** src/src/tcp_transport.cc:44-50 [close_socket] *)
Definition tcp_close_socket (fd : Z) (open : gset Z) : gset Z := open ∖ {[fd]}.

(** src/src/tcp_transport.cc:52-76 [TcpPipe]

    The handle, the socket behind it and the open descriptors. *)
Record TcpPipe := mkTcpPipe { tp_fd : Z; tp_sock : sock; tp_open : gset Z }.

(** src/src/tcp_transport.cc:57-60 [TcpPipe::send] *)
Definition tcp_send {H : HostOrder} (p : TcpPipe) (m : payload) (opt : SendOptions)
    : option (TcpPipe * Status) :=
  if tp_fd p =? kInvalidSocket then Some (p, closed "pipe closed")
  else
    match write_frame (tp_sock p) m 0 with
    | Done st s => Some (mkTcpPipe (tp_fd p) s (tp_open p), st)
    | Blocks _ => None
    end.

(** src/src/tcp_transport.cc:62-65 [TcpPipe::recv] *)
Definition tcp_recv {H : HostOrder} (p : TcpPipe) (opt : RecvOptions)
    : option (TcpPipe * Result payload) :=
  if tp_fd p =? kInvalidSocket then Some (p, RStatus (closed "pipe closed"))
  else
    match read_frame (tp_sock p) with
    | Done r s => Some (mkTcpPipe (tp_fd p) s (tp_open p), r)
    | Blocks _ => None
    end.

(** src/src/tcp_transport.cc:67-72 [TcpPipe::close] *)
Definition tcp_close (p : TcpPipe) : TcpPipe :=
  if negb (tp_fd p =? kInvalidSocket) then
    mkTcpPipe kInvalidSocket (tp_sock p) (tcp_close_socket (tp_fd p) (tp_open p))
  else p.

#[export] Instance TcpPipe_ops {H : HostOrder} : PipeOps TcpPipe :=
  {| pipe_send := tcp_send; pipe_recv := tcp_recv; pipe_close := tcp_close |}.

(** src/src/tcp_transport.cc:78-113 [TcpListener] *)
Record TcpListener := mkTcpListener {
  tl_fd : Z;
  tl_host : string;
  tl_port : Z;
  tl_open : gset Z;
}.

(** src/src/tcp_transport.cc:84-95 [TcpListener::accept]

    [cfd] and [s] are what [::accept] returns: a new descriptor and its socket,
    or [-1]. *)
Definition tcp_accept (l : TcpListener) (cfd : Z) (s : sock) : TcpListener * Result TcpPipe :=
  if tl_fd l =? kInvalidSocket then (l, RStatus (closed "listener closed"))
  else if cfd =? kInvalidSocket then (l, RStatus (io_error "accept() failed"))
  else
    let open := tl_open l ∪ {[cfd]} in
    (mkTcpListener (tl_fd l) (tl_host l) (tl_port l) open, RValue (mkTcpPipe cfd s open)).

(** src/src/tcp_transport.cc:97-100 [TcpListener::local_address] *)
Definition tcp_local_address (l : TcpListener) : Result string :=
  if tl_fd l =? kInvalidSocket then RStatus (closed "listener closed")
  else RValue ("tcp://" +:+ (if bool_decide (tl_host l = EmptyString) then "127.0.0.1" else tl_host l)
               +:+ ":" +:+ to_string (tl_port l)).

(** src/src/tcp_transport.cc:102-107 [TcpListener::close] *)
Definition tcp_listener_close (l : TcpListener) : TcpListener :=
  if negb (tl_fd l =? kInvalidSocket) then
    mkTcpListener kInvalidSocket (tl_host l) (tl_port l) (tcp_close_socket (tl_fd l) (tl_open l))
  else l.

(** One [addrinfo] of the resolver: what [::socket] returns for it, and whether
    the calls that follow ([connect], or [bind] and [listen]) succeed. *)
Record candidate := mkCandidate { cand_socket : Z; cand_ok : bool }.

(** src/src/tcp_transport.cc:131-153 [connect_tcp, the candidate loop]

    Also the loop of [listen_tcp], which differs in the calls that [cand_ok]
    stands for. Returns the handle left in [fd] and the open descriptors. *)
Fixpoint try_candidates (cands : list candidate) (open : gset Z) : Z * gset Z :=
  match cands with
  | [] => (kInvalidSocket, open)
  | c :: cands' =>
      let fd := cand_socket c in
      if fd =? kInvalidSocket then try_candidates cands' open
      else if cand_ok c then (fd, open ∪ {[fd]})
      else try_candidates cands' (tcp_close_socket fd (open ∪ {[fd]}))
  end.

(** src/src/tcp_transport.cc:115-160 [connect_tcp] *)
Definition connect_tcp (gai_rc : Z) (cands : list candidate) (open : gset Z) : Result Z * gset Z :=
  if negb (gai_rc =? 0) then (RStatus (io_error "getaddrinfo() failed"), open)
  else
    let '(fd, open') := try_candidates cands open in
    if fd =? kInvalidSocket then (RStatus (io_error "connect() failed"), open')
    else (RValue fd, open').

(** src/src/tcp_transport.cc:162-210 [listen_tcp] *)
Definition listen_tcp (gai_rc : Z) (cands : list candidate) (open : gset Z) : Result Z * gset Z :=
  if negb (gai_rc =? 0) then (RStatus (io_error "getaddrinfo() failed"), open)
  else
    let '(fd, open') := try_candidates cands open in
    if fd =? kInvalidSocket then (RStatus (io_error "bind/listen failed"), open')
    else (RValue fd, open').

(** What [getsockname] reports: the address family and port, when it succeeds. *)
Inductive sockname := SockInet (port : Z) | SockInet6 (port : Z) | SockOther.

(** src/src/tcp_transport.cc:214-239 [tcp_listen] *)
Definition tcp_listen (resolve : string -> Z -> Z * list candidate) (getsockname : Z -> option sockname)
    (addr : TcpAddress) (opt : ListenOptions) (open : gset Z) : Result TcpListener * gset Z :=
  let '(rc, cands) := resolve (host addr) (port addr) in
  match listen_tcp rc cands open with
  | (RStatus e, open') => (RStatus e, open')
  | (RValue fd, open') =>
      let effective_port :=
        if port addr =? 0 then
          match getsockname fd with
          | Some (SockInet p) => p
          | Some (SockInet6 p) => p
          | Some SockOther | None => port addr
          end
        else port addr in
      (RValue (mkTcpListener fd (host addr) effective_port open'), open')
  end.

(** src/src/tcp_transport.cc:241-246 [tcp_dial]

    [socket_of] is the connected socket behind a descriptor. *)
Definition tcp_dial (resolve : string -> Z -> Z * list candidate) (socket_of : Z -> sock)
    (addr : TcpAddress) (opt : DialOptions) (open : gset Z) : Result TcpPipe * gset Z :=
  let '(rc, cands) := resolve (host addr) (port addr) in
  match connect_tcp rc cands open with
  | (RStatus e, open') => (RStatus e, open')
  | (RValue fd, open') => (RValue (mkTcpPipe fd (socket_of fd) open'), open')
  end.

(** ** Lemmas *)

#[export, refine] Instance TcpPipe_laws {H : HostOrder} : PipeLaws TcpPipe :=
  {| shut p := tp_fd p = kInvalidSocket |}.
Proof.
  - intros p. simpl. unfold tcp_close. destruct (Z.eqb_spec (tp_fd p) kInvalidSocket); done.
  - intros p Hp. simpl. unfold tcp_close. by rewrite Hp.
  - intros p m opt Hp. simpl. unfold tcp_send. rewrite Hp. simpl. eauto.
  - intros p opt Hp. simpl. unfold tcp_recv. rewrite Hp. simpl. eauto.
Defined.

(** A descriptor the kernel hands out is not already open. *)
Definition fresh_fds (open : gset Z) (cands : list candidate) : Prop :=
  Forall (fun c => cand_socket c = kInvalidSocket \/ cand_socket c ∉ open) cands.

(** A candidate no socket can be made for, or whose calls fail. *)
Definition unusable (c : candidate) : Prop := cand_socket c = kInvalidSocket \/ cand_ok c = false.

Lemma try_candidates_spec cands open :
  fresh_fds open cands ->
  let '(fd, open') := try_candidates cands open in
  (fd = kInvalidSocket /\ open' = open /\
     Forall unusable cands) \/
  (fd <> kInvalidSocket /\ fd ∉ open /\ open' = open ∪ {[fd]} /\
     exists l1 c l2, cands = l1 ++ c :: l2 /\ cand_socket c = fd /\ cand_ok c = true /\
       Forall unusable l1).
Proof.
  induction cands as [|c cands IH]; intros Hf; simpl; [by left|].
  apply Forall_cons in Hf as [Hc Hf]. specialize (IH Hf).
  destruct (Z.eqb_spec (cand_socket c) kInvalidSocket) as [E|E].
  - destruct (try_candidates cands open) as [fd open'].
    destruct IH as [(-> & -> & Hall)|(? & ? & -> & l1 & c' & l2 & -> & ? & ? & ?)].
    + left. split_and!; [done..|]. constructor; [unfold unusable; tauto|done].
    + right. split_and!; [done..|]. exists (c :: l1), c', l2. split_and!; [done..|].
      constructor; [unfold unusable; tauto|done].
  - destruct Hc as [|Hc]; [done|]. destruct (cand_ok c) eqn:Eok.
    + right. split_and!; [done..|]. exists [], c, cands. done.
    + assert (tcp_close_socket (cand_socket c) (open ∪ {[cand_socket c]}) = open) as ->.
      { unfold tcp_close_socket. set_solver. }
      destruct (try_candidates cands open) as [fd open'].
      destruct IH as [(-> & -> & Hall)|(? & ? & -> & l1 & c' & l2 & -> & ? & ? & ?)].
      * left. split_and!; [done..|]. constructor; [unfold unusable; tauto|done].
      * right. split_and!; [done..|]. exists (c :: l1), c', l2. split_and!; [done..|].
        constructor; [unfold unusable; tauto|done].
Qed.

Lemma connect_tcp_result rc cands open :
  fresh_fds open cands ->
  match connect_tcp rc cands open with
  | (RValue fd, open') =>
      rc = 0 /\ fd ∉ open /\ open' = open ∪ {[fd]} /\
      exists l1 c l2, cands = l1 ++ c :: l2 /\ cand_socket c = fd /\ cand_ok c = true /\
        Forall unusable l1
  | (RStatus e, open') =>
      code e = kIoError /\ open' = open /\
      (rc = 0 -> Forall unusable cands)
  end.
Proof.
  intros Hf. unfold connect_tcp. destruct (Z.eqb_spec rc 0) as [E|E]; simpl; [|done].
  pose proof (try_candidates_spec cands open Hf) as Ht.
  destruct (try_candidates cands open) as [fd open'].
  destruct (Z.eqb_spec fd kInvalidSocket); [|naive_solver]. naive_solver.
Qed.

(** ** Theorems *)

(** connecting leaks no descriptor. On success exactly one new descriptor is
    open, that of the first candidate that connected; on failure (resolver
    error, or no candidate works) the table of open descriptors is as before. *)
Theorem connect_tcp_no_leak rc cands open :
  fresh_fds open cands ->
  match connect_tcp rc cands open with
  | (RValue fd, open') =>
      rc = 0 /\ fd ∉ open /\ open' = open ∪ {[fd]} /\
      exists l1 c l2, cands = l1 ++ c :: l2 /\ cand_socket c = fd /\ cand_ok c = true /\
        Forall unusable l1
  | (RStatus e, open') =>
      code e = kIoError /\ open' = open /\
      (rc = 0 -> Forall unusable cands)
  end.
Proof. exact (connect_tcp_result rc cands open). Qed.

(** the address a TCP listener reports parses back to its host (loopback when
    it listens on any) and its effective port, so it can be dialled. *)
Theorem tcp_local_address_parse l :
  tl_fd l <> kInvalidSocket -> 0 <= tl_port l <= 65535 ->
  exists s, tcp_local_address l = RValue s /\
    ok (parse s) = true /\ scheme (value (parse s)) = kTcp /\
    tcp (value (parse s)) =
      mkTcpAddress (if bool_decide (tl_host l = EmptyString) then "127.0.0.1" else tl_host l) (tl_port l).
Proof.
  intros Hfd Hp. unfold tcp_local_address.
  destruct (Z.eqb_spec (tl_fd l) kInvalidSocket); [done|].
  eexists. split; [done|].
  set (h := if bool_decide (tl_host l = EmptyString) then "127.0.0.1" else tl_host l).
  assert (Hne : h <> EmptyString) by (unfold h; by case_bool_decide).
  destruct (parse_tcp_url h (tl_port l) Hp) as (a & Ha & Hs & Ht).
  rewrite Ha. simpl. rewrite Hs, Ht. by rewrite bool_decide_eq_false_2.
Qed.

(** ** Witnesses *)

Lemma connect_tcp_no_leak_witness :
  connect_tcp 0 [mkCandidate 5 false; mkCandidate (-1) true; mkCandidate 5 true] {[1]} =
    (RValue 5, {[1]} ∪ {[5]}) /\ 5 ∉ ({[1]} : gset Z).
Proof.
  pose proof (connect_tcp_no_leak 0
    [mkCandidate 5 false; mkCandidate (-1) true; mkCandidate 5 true] {[1]}) as H.
  split; [reflexivity|].
  refine (proj1 (proj2 (H _))).
  unfold fresh_fds. rewrite !Forall_cons. simpl.
  repeat split; (left; reflexivity) || (right; set_solver) || apply Forall_nil_2.
Defined.

Lemma tcp_local_address_parse_witness :
  exists s, tcp_local_address (mkTcpListener 7 "" 40000 ∅) = RValue s /\
    ok (parse s) = true /\ scheme (value (parse s)) = kTcp /\
    tcp (value (parse s)) = mkTcpAddress "127.0.0.1" 40000.
Proof. apply (tcp_local_address_parse (mkTcpListener 7 "" 40000 ∅)); simpl; [discriminate|lia]. Defined.
