(* ===== verification/Uds.v ===== *)
(** * The Unix-domain-socket transport (src/uds_transport.cc)

    [UdsPipe], [UdsListener] and the two constructors, on POSIX. The kernel's
    answers are parameters; the open descriptors, the socket files of the file
    system and the descriptor's file-status flags are state. *)

From S2P Require Import Prelude Status Options Pipe SocketUtils Wire.

(** src/src/uds_transport.cc:25-63 [UdsPipe]

    The handle, the socket behind it, the answers to the calls of [::poll] to
    come and the open descriptors. *)
Record UdsPipe := mkUdsPipe {
  up_fd : Z;
  up_sock : sock;
  up_polls : list poll_answer;
  up_open : gset Z;
}.

(** What a pipe does once its socket call is answered. *)
Definition up_done {A} (p : UdsPipe) (r : run A) : option (UdsPipe * A) :=
  match r with
  | Done a s => Some (mkUdsPipe (up_fd p) s (up_polls p) (up_open p), a)
  | Blocks _ => None
  end.

(** src/src/uds_transport.cc:30-40 [UdsPipe::send] *)
Definition uds_send {H : HostOrder} (p : UdsPipe) (m : payload) (opt : SendOptions)
    : option (UdsPipe * Status) :=
  if up_fd p <? 0 then Some (p, closed "pipe closed")
  else if send_timeout opt >? 0 then
    match up_polls p with
    | [] => None
    | a :: polls =>
        let p' := mkUdsPipe (up_fd p) (up_sock p) polls (up_open p) in
        let st := wait_writable (send_timeout opt) a in
        if negb (status_ok st) then Some (p', st)
        else up_done p' (write_frame (up_sock p') m 0)
    end
  else up_done p (write_frame (up_sock p) m 0).

(** src/src/uds_transport.cc:42-52 [UdsPipe::recv] *)
Definition uds_recv {H : HostOrder} (p : UdsPipe) (opt : RecvOptions)
    : option (UdsPipe * Result payload) :=
  if up_fd p <? 0 then Some (p, RStatus (closed "pipe closed"))
  else if recv_timeout opt >? 0 then
    match up_polls p with
    | [] => None
    | a :: polls =>
        let p' := mkUdsPipe (up_fd p) (up_sock p) polls (up_open p) in
        let st := wait_readable (recv_timeout opt) a in
        if negb (status_ok st) then Some (p', RStatus st)
        else up_done p' (read_frame (up_sock p'))
    end
  else up_done p (read_frame (up_sock p)).

(** src/src/uds_transport.cc:54-59 [UdsPipe::close] *)
Definition uds_close (p : UdsPipe) : UdsPipe :=
  if up_fd p >=? 0 then
    mkUdsPipe (-1) (up_sock p) (up_polls p) (up_open p ∖ {[up_fd p]})
  else p.

#[export] Instance UdsPipe_ops {H : HostOrder} : PipeOps UdsPipe :=
  {| pipe_send := uds_send; pipe_recv := uds_recv; pipe_close := uds_close |}.

(** The process's open descriptors and the socket files of the system. *)
Record host_state := mkHost { open_fds : gset Z; socket_files : gset string }.

Definition fd_open (fd : Z) (h : host_state) : host_state :=
  mkHost (open_fds h ∪ {[fd]}) (socket_files h).
Definition fd_close (fd : Z) (h : host_state) : host_state :=
  mkHost (open_fds h ∖ {[fd]}) (socket_files h).
Definition file_create (path : string) (h : host_state) : host_state :=
  mkHost (open_fds h) (socket_files h ∪ {[path]}).
Definition unlink (path : string) (h : host_state) : host_state :=
  mkHost (open_fds h) (socket_files h ∖ {[path]}).

(** src/src/uds_transport.cc:65-102 [UdsListener] *)
Record UdsListener := mkUdsListener { ul_fd : Z; ul_path : string }.

(** src/src/uds_transport.cc:71-83 [UdsListener::accept]

    [cfd] and [s] are what [::accept] returns: a new descriptor and its socket,
    or a negative number. *)
Definition uds_accept (l : UdsListener) (cfd : Z) (s : sock) (polls : list poll_answer)
    (h : host_state) : Result UdsPipe * host_state :=
  if ul_fd l <? 0 then (RStatus (closed "listener closed"), h)
  else if cfd <? 0 then (RStatus (io_error "accept() failed"), h)
  else
    let h' := fd_open cfd h in
    (RValue (mkUdsPipe cfd s polls (open_fds h')), h').

(** src/src/uds_transport.cc:85-88 [UdsListener::local_address] *)
Definition uds_local_address (l : UdsListener) : Result string :=
  if ul_fd l <? 0 then RStatus (closed "listener closed")
  else RValue ("uds://" +:+ ul_path l).

(** src/src/uds_transport.cc:90-97 [UdsListener::close] *)
Definition uds_listener_close (l : UdsListener) (h : host_state) : UdsListener * host_state :=
  if ul_fd l >=? 0 then
    (mkUdsListener (-1) (ul_path l), unlink (ul_path l) (fd_close (ul_fd l) h))
  else (l, h).

(** The answers of the system to the calls of one connection attempt: the new
    descriptor, its file-status flags, which [fcntl] calls fail, what
    [::connect] stores in [errno] ([None] on success), the answer of [::poll]
    and what [getsockopt(SO_ERROR)] reports ([None] when it fails). *)
Record connect_answers := mkConnect {
  ca_socket : Z;
  ca_getfl : Z;
  ca_setfl_fails : bool;
  ca_restore_fails : bool;
  ca_connect : option Z;
  ca_poll : poll_answer;
  ca_so_error : option Z;
}.

Definition EINPROGRESS : Z := 115.

Definition connect_failed (path : string) : Status :=
  io_error ("connect() failed for uds path: " +:+ path).

(** src/src/uds_transport.cc:104-171 [connect_uds]

    [sun_path] is the size of the address's path field (104 or 108). The last
    component is the file-status flags of the new descriptor. *)
Definition connect_uds (sun_path : Z) (path : string) (timeout_ms : Z) (k : connect_answers)
    (h : host_state) : Result Z * host_state * Z :=
  let fd := ca_socket k in
  let fl := ca_getfl k in
  if fd <? 0 then (RStatus (io_error "socket(AF_UNIX) failed"), h, fl)
  else
    let h1 := fd_open fd h in
    let h0 := fd_close fd h1 in
    if Z.of_nat (String.length path) >=? sun_path then
      (RStatus (invalid_argument "uds path too long"), h0, fl)
    else if timeout_ms >? 0 then
      let '(st, fl1) := set_nonblocking true fl (ca_setfl_fails k) in
      if negb (status_ok st) then (RStatus st, h0, fl1)
      else
        match ca_connect k with
        | None =>
            let '(_, fl2) := set_nonblocking false fl1 (ca_restore_fails k) in
            (RValue fd, h1, fl2)
        | Some errno =>
            if negb (errno =? EINPROGRESS) then (RStatus (connect_failed path), h0, fl1)
            else
              let st := wait_writable timeout_ms (ca_poll k) in
              if negb (status_ok st) then (RStatus st, h0, fl1)
              else
                match ca_so_error k with
                | Some 0 =>
                    let '(_, fl2) := set_nonblocking false fl1 (ca_restore_fails k) in
                    (RValue fd, h1, fl2)
                | _ => (RStatus (connect_failed path), h0, fl1)
                end
        end
    else
      match ca_connect k with
      | Some _ => (RStatus (connect_failed path), h0, fl)
      | None => (RValue fd, h1, fl)
      end.

(** src/src/uds_transport.cc:173-207 [listen_uds] *)
Definition listen_uds (sun_path : Z) (path : string) (fd : Z) (bind_ok listen_ok : bool)
    (h : host_state) : Result Z * host_state :=
  if fd <? 0 then (RStatus (io_error "socket(AF_UNIX) failed"), h)
  else
    let h := unlink path (fd_open fd h) in
    if Z.of_nat (String.length path) >=? sun_path then
      (RStatus (invalid_argument "uds path too long"), fd_close fd h)
    else if negb bind_ok then
      (RStatus (io_error ("bind() failed for uds path: " +:+ path)), fd_close fd h)
    else
      let h := file_create path h in
      if negb listen_ok then
        (RStatus (io_error ("listen() failed for uds path: " +:+ path)), unlink path (fd_close fd h))
      else (RValue fd, h).

(** src/src/uds_transport.cc:219-221 [uds_listen] *)
Definition uds_listen (sun_path : Z) (path : string) (opt : ListenOptions) (fd : Z)
    (bind_ok listen_ok : bool) (h : host_state) : Result UdsListener * host_state :=
  match listen_uds sun_path path fd bind_ok listen_ok h with
  | (RStatus e, h') => (RStatus e, h')
  | (RValue fd', h') => (RValue (mkUdsListener fd' path), h')
  end.

(** src/src/uds_transport.cc:231-233 [uds_dial] *)
Definition uds_dial (sun_path : Z) (path : string) (opt : DialOptions) (k : connect_answers)
    (s : sock) (polls : list poll_answer) (h : host_state) : Result UdsPipe * host_state :=
  match connect_uds sun_path path (dial_timeout opt) k h with
  | (RStatus e, h', _) => (RStatus e, h')
  | (RValue fd, h', _) => (RValue (mkUdsPipe fd s polls (open_fds h')), h')
  end.

(** ** Lemmas *)

#[export, refine] Instance UdsPipe_laws {H : HostOrder} : PipeLaws UdsPipe :=
  {| shut p := up_fd p < 0 |}.
Proof.
  - intros p. simpl. unfold uds_close. rewrite Z.geb_leb. destruct (Z.leb_spec 0 (up_fd p)); simpl; lia.
  - intros p Hp. simpl. unfold uds_close. rewrite Z.geb_leb, (proj2 (Z.leb_gt _ _)); done.
  - intros p m opt Hp. simpl. unfold uds_send. rewrite (proj2 (Z.ltb_lt _ _)) by done. eauto.
  - intros p opt Hp. simpl. unfold uds_recv. rewrite (proj2 (Z.ltb_lt _ _)) by done. eauto.
Defined.

Lemma fd_close_open fd h : fd ∉ open_fds h -> fd_close fd (fd_open fd h) = h.
Proof. destruct h. unfold fd_close, fd_open. simpl. intros. f_equal. set_solver. Qed.

Lemma wait_status_ok t a : status_ok (wait_writable t a) = true -> wait_writable t a = Ok.
Proof. unfold wait_writable. by repeat break_match. Qed.

(** ** Theorems *)

(** whatever the system answers, dialling a Unix socket either yields the new
    descriptor, open, or leaves the process's descriptors as they were, with a
    status that says why; and unless the final [fcntl], whose result the code
    ignores, fails, a descriptor that was blocking is blocking again. *)
Theorem connect_uds_no_leak sun_path path timeout_ms k h :
  ca_socket k ∉ open_fds h -> 0 <= ca_getfl k -> Z.testbit (ca_getfl k) 11 = false ->
  let '(r, h', fl) := connect_uds sun_path path timeout_ms k h in
  match r with
  | RValue fd =>
      fd = ca_socket k /\ h' = fd_open fd h /\ Z.of_nat (String.length path) < sun_path /\
      (ca_restore_fails k = false -> fl = ca_getfl k)
  | RStatus e =>
      h' = h /\ status_ok e = false /\
      (0 <= ca_socket k -> Z.of_nat (String.length path) >= sun_path -> code e = kInvalidArgument)
  end.
Proof.
  intros Hfresh Hfl Hbit. unfold connect_uds. rewrite fd_close_open by done.
  destruct (Z.ltb_spec (ca_socket k) 0) as [|Hk]; [split_and!; simpl; done || lia|].
  destruct (geb_spec (Z.of_nat (String.length path)) sun_path) as [|Hp]; [done|].
  assert (Hrest : forall fl1, fst (set_nonblocking true (ca_getfl k) (ca_setfl_fails k)) = Ok ->
            fl1 = snd (set_nonblocking true (ca_getfl k) (ca_setfl_fails k)) ->
            ca_restore_fails k = false ->
            snd (set_nonblocking false fl1 (ca_restore_fails k)) = ca_getfl k).
  { intros fl1 Hok -> ->. destruct (ca_setfl_fails k).
    - unfold set_nonblocking in Hok. by destruct (ca_getfl k <? 0).
    - by apply set_nonblocking_restore. }
  destruct (gtb_spec timeout_ms 0) as [Ht|Ht].
  2: { destruct (ca_connect k); split_and!; try done; lia. }
  destruct (set_nonblocking true _ _) as [st fl1] eqn:E1. simpl in Hrest.
  destruct (status_ok st) eqn:Est; simpl; [|split_and!; done || lia].
  assert (st = Ok) as ->.
  { unfold set_nonblocking in E1. by repeat (break_match; simplify_eq). }
  specialize (Hrest fl1 eq_refl eq_refl).
  destruct (set_nonblocking false fl1 _) as [st2 fl2].
  destruct (ca_connect k) as [errno|]; [|split_and!; done || lia].
  destruct (errno =? EINPROGRESS); simpl; [|split_and!; done || lia].
  destruct (status_ok (wait_writable _ _)) eqn:Ew; simpl; [|split_and!; done || lia].
  destruct (ca_so_error k) as [[]|]; split_and!; done || lia.
Qed.

(** binding a Unix listener removes whatever socket file was at the path, then
    either the path is bound to the new descriptor or the file is gone and no
    descriptor is left. A path that is too long therefore still costs the file
    it names, and a second listener on a live path takes it over. *)
Theorem listen_uds_files sun_path path fd bind_ok listen_ok h :
  0 <= fd -> fd ∉ open_fds h ->
  let '(r, h') := listen_uds sun_path path fd bind_ok listen_ok h in
  match r with
  | RValue fd' =>
      fd' = fd /\ open_fds h' = open_fds h ∪ {[fd]} /\ socket_files h' = socket_files h ∪ {[path]} /\
      snd (uds_listener_close (mkUdsListener fd path) h') =
        mkHost (open_fds h) (socket_files h ∖ {[path]})
  | RStatus e =>
      status_ok e = false /\ open_fds h' = open_fds h /\ socket_files h' = socket_files h ∖ {[path]}
  end.
Proof.
  intros Hfd Hfresh. unfold listen_uds, uds_listener_close, unlink, file_create, fd_open, fd_close.
  destruct (Z.ltb_spec fd 0); [lia|]. cbn [ul_fd ul_path fst snd open_fds socket_files].
  destruct (geb_spec fd 0); [|lia].
  repeat case_match; simplify_eq/=; split_and!; try done; try set_solver.
  - apply set_eq. intros x. destruct (decide (x = path)); set_solver.
  - f_equal; set_solver.
Qed.

(** with a timeout, [recv] gives the hang-up priority over the data: when
    [poll] reports POLLHUP it answers kClosed even with a complete frame
    buffered in the socket and POLLIN set, while the same pipe without a
    timeout returns that frame. *)
Theorem uds_recv_hup (H : HostOrder) p m opt a polls rest evs :
  up_sock p = mkSock evs (frame_bytes m 0 ++ rest) [] -> fits m -> live evs ->
  (16 + length m <= transfers evs)%nat ->
  0 <= up_fd p -> up_polls p = a :: polls -> 0 < recv_timeout opt ->
  0 < poll_rc a -> has (revents a) POLLHUP = true ->
  (exists p', uds_recv p opt = Some (p', RStatus (closed "peer closed")) /\
     up_sock p' = up_sock p) /\
  (exists p', uds_recv p (mkRecvOptions 0) = Some (p', RValue m)).
Proof.
  intros Hs Hm Hl Ht Hfd Hp Hto Hrc Hhup. unfold uds_recv.
  destruct (Z.ltb_spec (up_fd p) 0); [lia|]. split.
  - destruct (gtb_spec (recv_timeout opt) 0); [|done]. rewrite Hp. cbn [up_sock].
    unfold wait_readable. destruct (Z.eqb_spec (recv_timeout opt) 0); [lia|].
    destruct (Z.ltb_spec (poll_rc a) 0); [lia|]. destruct (Z.eqb_spec (poll_rc a) 0); [lia|].
    rewrite Hhup. simpl. eauto.
  - simpl. rewrite Hs.
    destruct (read_frame_live evs [] m 0 rest Hm ltac:(lia) Hl Ht) as (evs' & -> & _).
    simpl. eauto.
Qed.

(** ** Witnesses *)

Lemma connect_uds_no_leak_witness :
  let k := mkConnect 3 2 false false (Some EINPROGRESS) (mkPoll 1 POLLOUT) (Some 0) in
  connect_uds 108 "/tmp/s" 1000 k (mkHost {[1]} ∅) = (RValue 3, fd_open 3 (mkHost {[1]} ∅), 2) /\
  fd_open 3 (mkHost {[1]} ∅) = fd_open 3 (mkHost {[1]} ∅) /\
  Z.of_nat (String.length "/tmp/s") < 108.
Proof.
  intros k. pose proof (connect_uds_no_leak 108 "/tmp/s" 1000 k (mkHost {[1]} ∅)) as H.
  split; [reflexivity|].
  destruct (H ltac:(set_solver) ltac:(simpl; lia) eq_refl) as (_ & H2 & H3 & _).
  exact (conj H2 H3).
Defined.

Lemma listen_uds_files_witness :
  let '(r, h') := listen_uds 108 "/tmp/s" 3 true false (mkHost {[1]} {["/tmp/s"]}) in
  open_fds h' = {[1]}.
Proof.
  pose proof (listen_uds_files 108 "/tmp/s" 3 true false (mkHost {[1]} {["/tmp/s"]})
                ltac:(lia) ltac:(set_solver)) as H.
  exact (proj1 (proj2 H)).
Defined.

Definition buffered : UdsPipe :=
  mkUdsPipe 5 (mkSock (replicate 30 (EvXfer 9)) (frame_bytes [Init.Byte.x41] 0) [])
    [mkPoll 1 (POLLIN + POLLHUP)] {[5]}.

Lemma uds_recv_hup_witness :
  (exists p', uds_recv (H := true) buffered (mkRecvOptions 50) =
     Some (p', RStatus (closed "peer closed")) /\ up_sock p' = up_sock buffered) /\
  (exists p', uds_recv (H := true) buffered (mkRecvOptions 0) = Some (p', RValue [Init.Byte.x41])).
Proof.
  apply (uds_recv_hup true buffered [Init.Byte.x41] (mkRecvOptions 50)
           (mkPoll 1 (POLLIN + POLLHUP)) [] [] (replicate 30 (EvXfer 9))).
  - by rewrite app_nil_r.
  - vm_compute. discriminate.
  - repeat constructor.
  - vm_compute. repeat constructor.
  - simpl. lia.
  - reflexivity.
  - simpl. lia.
  - simpl. lia.
  - reflexivity.
Defined.
