(* ===== verification/ShmNames.v ===== *)
(** * Names of the shared-memory transport (src/shm_transport.cc)

    A client and a server of one bus never exchange object names: both compute
    them from the bus name and the 16 characters the client sends over the
    rendezvous socket. This file models the computation and proves that the two
    sides agree, that the names of one
    connection are distinct, short and well formed, and that they differ
    between connections whose random parts differ. *)

From S2P Require Import Prelude.
From Stdlib Require Ascii.

(** ** Characters and digits *)

(** The test of [sanitize_name]: a letter, a digit or an underscore. *)
Definition name_char (c : Ascii.ascii) : bool :=
  let z := ascii_code c in
  ((97 <=? z) && (z <=? 122)) || ((65 <=? z) && (z <=? 90)) ||
  ((48 <=? z) && (z <=? 57)) || (z =? 95).

Definition underscore : Ascii.ascii := ascii_of_code 95.

(** The loop of [sanitize_name]. *)
Fixpoint sanitize_loop (s : string) : string :=
  match s with
  | EmptyString => EmptyString
  | String c s' => String (if name_char c then c else underscore) (sanitize_loop s')
  end.

(** src/src/shm_transport.cc:45-57 [sanitize_name] *)
Definition sanitize_name (s : string) : string :=
  let out := sanitize_loop s in
  if bool_decide (out = EmptyString) then "duct" else out.

(** One lower-case hexadecimal digit. *)
Definition hex_digit (d : Z) : Ascii.ascii := ascii_of_code (if d <? 10 then 48 + d else 87 + d).

(** [snprintf("%0nx")] of an integer below [16 ^ n]: exactly [n] digits. *)
Fixpoint hex_digits (n : nat) (v : Z) : string :=
  match n with
  | O => EmptyString
  | S n' => hex_digits n' (v / 16) +:+ String (hex_digit (v mod 16)) EmptyString
  end.

(** src/src/shm_transport.cc:81-85 [hex8] *)
Definition hex8 (v : Z) : string := hex_digits 8 v.

(** src/src/shm_transport.cc:59-65 [random_conn_id_hex16]

    [r1] and [r2] are the two 32-bit draws of [std::random_device]. *)
Definition random_conn_id_hex16 (r1 r2 : Z) : string :=
  let v := Z.lxor (wrap64 (Z.shiftl r1 32)) r2 in
  hex_digits 16 v.

(** The loop of [fnv1a_32], from the running hash [h]. *)
Fixpoint fnv1a_loop (h : Z) (s : string) : Z :=
  match s with
  | EmptyString => h
  | String c s' => fnv1a_loop (wrap32 (Z.lxor h (ascii_code c) * 16777619)) s'
  end.

(** src/src/shm_transport.cc:72-79 [fnv1a_32] *)
Definition fnv1a_32 (s : string) : Z := fnv1a_loop 2166136261 s.

(** ** The names of a connection *)

(** src/src/shm_transport.cc:169-178 [ShmNames] *)
Record ShmNames := mkShmNames {
  base : string;
  connid : string;
  shm : string;
  c2s_items_sem : string;
  c2s_spaces_sem : string;
  s2c_items_sem : string;
  s2c_spaces_sem : string;
  bootstrap_path : string;
}.

(** src/src/shm_transport.cc:180-201 [make_names] *)
Definition make_names (bus_name conn : string) : ShmNames :=
  let b := sanitize_name bus_name in
  let hash8 := hex8 (fnv1a_32 b) in
  let conn8 := str_take 8 conn in
  let prefix := "d" +:+ hash8 +:+ conn8 in
  mkShmNames b conn
    ("/" +:+ prefix +:+ "m")
    ("/" +:+ prefix +:+ "a")
    ("/" +:+ prefix +:+ "b")
    ("/" +:+ prefix +:+ "c")
    ("/" +:+ prefix +:+ "d")
    ("/tmp/duct_shm_" +:+ hash8 +:+ ".sock").

(** The five kernel objects of a connection. *)
Definition object_names (n : ShmNames) : list string :=
  [shm n; c2s_items_sem n; c2s_spaces_sem n; s2c_items_sem n; s2c_spaces_sem n].

(** ** Lemmas *)

Lemma name_char_underscore : name_char underscore = true.
Proof. reflexivity. Qed.

Lemma sanitize_loop_idem s : sanitize_loop (sanitize_loop s) = sanitize_loop s.
Proof.
  induction s as [|c s IH]; [done|]. cbn [sanitize_loop]. rewrite IH.
  destruct (name_char c) eqn:E; [by rewrite E|by rewrite name_char_underscore].
Qed.

Lemma sanitize_loop_chars s : str_forallb name_char (sanitize_loop s) = true.
Proof.
  induction s as [|c s IH]; [done|]. cbn [sanitize_loop str_forallb]. rewrite IH.
  destruct (name_char c) eqn:E; [by rewrite E|by rewrite name_char_underscore].
Qed.

Lemma sanitize_loop_fix s : str_forallb name_char s = true -> sanitize_loop s = s.
Proof.
  induction s as [|c s IH]; [done|]. cbn [sanitize_loop str_forallb].
  destruct (name_char c); [|done]. intros H. by rewrite IH.
Qed.

Lemma sanitize_chars s :
  str_forallb name_char (sanitize_name s) = true /\ sanitize_name s <> EmptyString.
Proof.
  unfold sanitize_name. case_bool_decide as E; [done|]. split; [apply sanitize_loop_chars|done].
Qed.

Lemma sanitize_idem s : sanitize_name (sanitize_name s) = sanitize_name s.
Proof.
  destruct (sanitize_chars s) as [Hc Hne]. unfold sanitize_name at 1.
  rewrite sanitize_loop_fix by done. by rewrite bool_decide_eq_false_2.
Qed.

Lemma fnv1a_loop_range h s : 0 <= h < 2 ^ 32 -> 0 <= fnv1a_loop h s < 2 ^ 32.
Proof.
  revert h. induction s as [|c s IH]; intros h Hh; cbn [fnv1a_loop]; [done|].
  apply IH, wrap_range. lia.
Qed.

Lemma fnv1a_range s : 0 <= fnv1a_32 s < 2 ^ 32.
Proof. apply fnv1a_loop_range. lia. Qed.

Lemma hex_digits_length n v : String.length (hex_digits n v) = n.
Proof.
  revert v. induction n as [|n IH]; intros v; [done|]. cbn [hex_digits].
  rewrite str_length_app, IH. simpl. lia.
Qed.

Lemma hex_digit_inj a b :
  0 <= a < 16 -> 0 <= b < 16 -> hex_digit a = hex_digit b -> a = b.
Proof.
  intros Ha Hb He. cut (forall n m, (n < 16)%nat -> (m < 16)%nat ->
    hex_digit (Z.of_nat n) = hex_digit (Z.of_nat m) -> n = m).
  { intros Hn. specialize (Hn (Z.to_nat a) (Z.to_nat b) ltac:(lia) ltac:(lia)).
    rewrite !Z2Nat.id in Hn by lia. specialize (Hn He). lia. }
  intros n m Hn Hm. do 16 (destruct n as [|n]; [do 16 (destruct m as [|m]; [vm_compute; congruence|]); lia|]).
  lia.
Qed.

Lemma hex_digits_inj n v w :
  0 <= v < 16 ^ Z.of_nat n -> 0 <= w < 16 ^ Z.of_nat n ->
  hex_digits n v = hex_digits n w -> v = w.
Proof.
  revert v w. induction n as [|n IH]; intros v w Hv Hw He; [simpl in *; lia|].
  cbn [hex_digits] in He.
  apply str_app_inj in He as [He Hd]; [|by rewrite !hex_digits_length].
  rewrite Nat2Z.inj_succ, Z.pow_succ_r in * by lia.
  apply IH in He; [|split; [apply Z.div_pos; lia|apply Z.div_lt_upper_bound; lia]..].
  injection Hd as Hd. apply hex_digit_inj in Hd; [|apply Z.mod_pos_bound; lia..].
  rewrite (Z.div_mod v 16), (Z.div_mod w 16) by lia. congruence.
Qed.

Lemma hex_digits_app n m v :
  hex_digits (n + m) v = hex_digits n (v / 16 ^ Z.of_nat m) +:+ hex_digits m v.
Proof.
  revert v. induction m as [|m IH]; intros v.
  - rewrite Nat.add_0_r. cbn [hex_digits]. by rewrite Z.div_1_r, str_app_nil_r.
  - rewrite Nat.add_succ_r. cbn [hex_digits]. rewrite IH, str_app_assoc. f_equal. f_equal.
    rewrite Z.div_div by lia. f_equal. rewrite Nat2Z.inj_succ, Z.pow_succ_r by lia. lia.
Qed.

(** The first eight characters of a connection id are the first draw. *)
Lemma conn8_first_draw r1 r2 :
  0 <= r1 < 2 ^ 32 -> 0 <= r2 < 2 ^ 32 -> str_take 8 (random_conn_id_hex16 r1 r2) = hex8 r1.
Proof.
  intros H1 H2. unfold random_conn_id_hex16, hex8.
  assert (Z.lxor (wrap64 (Z.shiftl r1 32)) r2 / 16 ^ Z.of_nat 8 = r1) as Hq.
  { rewrite Z.shiftl_mul_pow2, wrap_small by lia.
    change (16 ^ Z.of_nat 8) with (2 ^ 32). rewrite <- !Z.shiftr_div_pow2 by lia.
    rewrite Z.shiftr_lxor, !Z.shiftr_div_pow2, Z.div_mul, (Z.div_small r2) by lia.
    apply Z.lxor_0_r. }
  rewrite (hex_digits_app 8 8), Hq.
  rewrite <- (hex_digits_length 8 r1) at 1. apply str_take_app.
Qed.

Lemma random_conn_id_length r1 r2 : String.length (random_conn_id_hex16 r1 r2) = 16%nat.
Proof. apply hex_digits_length. Qed.

Lemma str_take_length_le n s : (n <= String.length s)%nat -> String.length (str_take n s) = n.
Proof. rewrite str_length_take. lia. Qed.

(** The names both sides compute: the server starts from the sanitized name it
    stored, the client from the name it was given. *)
Lemma make_names_agree bus c0 c : make_names (base (make_names bus c0)) c = make_names bus c.
Proof. unfold make_names. cbn [base]. by rewrite sanitize_idem. Qed.

Lemma hex_digit_name_char d : 0 <= d < 16 -> name_char (hex_digit d) = true.
Proof.
  intros Hd. rewrite <- (Z2Nat.id d) by lia.
  assert (Hn : (Z.to_nat d < 16)%nat) by lia. revert Hn. generalize (Z.to_nat d). clear.
  intros n Hn. do 16 (destruct n as [|n]; [reflexivity|]). lia.
Qed.

Lemma hex_digits_chars n v : str_forallb name_char (hex_digits n v) = true.
Proof.
  revert v. induction n as [|n IH]; intros v; [done|]. cbn [hex_digits].
  rewrite str_forallb_app, IH. cbn [str_forallb].
  rewrite hex_digit_name_char by (apply Z.mod_pos_bound; lia). done.
Qed.

(** The shape of every object name of a connection. *)
Lemma object_names_shape bus r1 r2 :
  0 <= r1 < 2 ^ 32 -> 0 <= r2 < 2 ^ 32 ->
  object_names (make_names bus (random_conn_id_hex16 r1 r2)) =
    map (fun suffix => "/" +:+ ("d" +:+ hex8 (fnv1a_32 (sanitize_name bus)) +:+ hex8 r1) +:+ suffix)
      ["m"; "a"; "b"; "c"; "d"].
Proof.
  intros H1 H2. unfold object_names, make_names. cbn [shm c2s_items_sem c2s_spaces_sem s2c_items_sem s2c_spaces_sem].
  by rewrite conn8_first_draw.
Qed.

Lemma object_names_nodup bus r1 r2 :
  0 <= r1 < 2 ^ 32 -> 0 <= r2 < 2 ^ 32 ->
  NoDup (object_names (make_names bus (random_conn_id_hex16 r1 r2))).
Proof.
  intros H1 H2. rewrite object_names_shape by done.
  apply NoDup_fmap_2_strong; [|repeat constructor; set_solver].
    intros x y _ _ He. by do 2 apply str_app_inv_head in He.
Qed.

Lemma object_names_chars bus r1 r2 :
  0 <= r1 < 2 ^ 32 -> 0 <= r2 < 2 ^ 32 ->
  Forall (fun s => String.length s = 19%nat /\
            exists s', s = "/" +:+ s' /\ str_forallb name_char s' = true)
    (object_names (make_names bus (random_conn_id_hex16 r1 r2))).
Proof.
  intros H1 H2. rewrite object_names_shape by done.
  apply Forall_fmap, Forall_forall. intros x Hx. unfold compose. split.
    + rewrite !str_length_app. unfold hex8. rewrite !hex_digits_length.
      repeat (apply elem_of_cons in Hx as [->|Hx]; [done|]). by apply elem_of_nil in Hx.
    + eexists. split; [done|]. unfold hex8.
      rewrite !str_forallb_app, !hex_digits_chars.
      repeat (apply elem_of_cons in Hx as [->|Hx]; [done|]). by apply elem_of_nil in Hx.
Qed.

(** ** Theorems *)

(** client and server compute the same names. The server, which keeps only the
    sanitized bus name and reads the connection id from the client, arrives at
    exactly the record the client used; and a client
    that dials the bus by any spelling that sanitizes to the same name meets the
    listener at the same rendezvous. *)
Theorem names_agree bus bus' c :
  sanitize_name bus' = sanitize_name bus ->
  make_names (base (make_names bus "0000000000000000")) c = make_names bus' c /\
  bootstrap_path (make_names bus' c) = bootstrap_path (make_names bus "0000000000000000").
Proof.
  intros Hb. rewrite make_names_agree. unfold make_names. rewrite Hb. done.
Qed.

(** the names of one connection are usable: the five object names are pairwise
    distinct, 19 characters long (within the 31 of the smallest platform) and
    consist of a slash and identifier characters; the rendezvous path has 27
    characters, which always fits a socket address. *)
Theorem names_wf bus r1 r2 :
  0 <= r1 < 2 ^ 32 -> 0 <= r2 < 2 ^ 32 ->
  let n := make_names bus (random_conn_id_hex16 r1 r2) in
  NoDup (object_names n) /\
  Forall (fun s => String.length s = 19%nat /\
            exists s', s = "/" +:+ s' /\ str_forallb name_char s' = true) (object_names n) /\
  String.length (bootstrap_path n) = 27%nat.
Proof.
  intros H1 H2 n. split; [by apply object_names_nodup|]. split; [by apply object_names_chars|].
  unfold n, make_names. cbn [bootstrap_path]. rewrite !str_length_app. unfold hex8.
    by rewrite hex_digits_length.
Qed.

(** two connections share an object name only when their buses hash alike and
    their first 32 random bits are equal; the second draw of the connection id
    never separates two connections. Kinds never collide either: equal names
    name the same kind of object. *)
Theorem names_collide bus1 bus2 r1 r2 q1 q2 i j s :
  0 <= r1 < 2 ^ 32 -> 0 <= r2 < 2 ^ 32 -> 0 <= q1 < 2 ^ 32 -> 0 <= q2 < 2 ^ 32 ->
  object_names (make_names bus1 (random_conn_id_hex16 r1 r2)) !! i = Some s ->
  object_names (make_names bus2 (random_conn_id_hex16 q1 q2)) !! j = Some s ->
  i = j /\ r1 = q1 /\ fnv1a_32 (sanitize_name bus1) = fnv1a_32 (sanitize_name bus2).
Proof.
  intros Hr1 Hr2 Hq1 Hq2 Hi Hj. rewrite object_names_shape in Hi by done.
  rewrite object_names_shape in Hj by done.
  apply list_lookup_fmap_Some in Hi as (x & -> & Hx).
  apply list_lookup_fmap_Some in Hj as (y & He & Hy).
  apply str_app_inv_head in He. rewrite !str_app_assoc in He. apply str_app_inv_head in He.
  apply str_app_inj in He as [Hh He]; [|unfold hex8; by rewrite !hex_digits_length].
  apply str_app_inj in He as [Hc ->]; [|unfold hex8; by rewrite !hex_digits_length].
  apply hex_digits_inj in Hh; [|apply fnv1a_range..].
  apply hex_digits_inj in Hc; [|done..].
  split; [|done]. eapply (NoDup_lookup ["m"; "a"; "b"; "c"; "d"]); [|done..].
  repeat constructor; set_solver.
Qed.

(** ** Witnesses *)

Lemma names_agree_witness :
  make_names (base (make_names "my bus" "0000000000000000")) "0123456789abcdef" =
    make_names "my.bus" "0123456789abcdef".
Proof. exact (proj1 (names_agree "my bus" "my.bus" "0123456789abcdef" eq_refl)). Defined.

Lemma names_wf_witness :
  String.length (bootstrap_path (make_names "x" (random_conn_id_hex16 1 2))) = 27%nat.
Proof. exact (proj2 (proj2 (names_wf "x" 1 2 ltac:(lia) ltac:(lia)))). Defined.

Lemma names_collide_witness :
  (0%nat = 0%nat) /\ 5 = 5 /\ fnv1a_32 (sanitize_name "a b") = fnv1a_32 (sanitize_name "a_b").
Proof.
  apply (names_collide "a b" "a_b" 5 6 5 7 0 0 (shm (make_names "a b" (random_conn_id_hex16 5 6))));
    lia || (vm_compute; reflexivity).
Defined.

(** The hash and the digits on known inputs. *)
Example fnv1a_empty : fnv1a_32 "" = 2166136261. Proof. reflexivity. Qed.
Example fnv1a_a : hex8 (fnv1a_32 "a") = "e40c292c". Proof. reflexivity. Qed.
Example sanitize_example : sanitize_name "my/bus 1" = "my_bus_1". Proof. reflexivity. Qed.
