(* ===== verification/ShmRing.v ===== *)
(** * The shared-memory ring (src/shm_transport.cc, src/win_shm.cc)

    One direction of a shared-memory connection: a ring of 64 slots of 64 KiB
    with 32-bit free-running [head] and [tail] counters, and two counting
    semaphores. The bodies of [ShmPipe::send] and [ShmPipe::recv] are modelled
    twice: as straight-line functions, and as the memory accesses of two
    processes that interleave one access at a time. Accesses are sequentially
    consistent: what the release stores and the semaphores order in the code. *)

From S2P Require Import Prelude Status Pipe.

(** src/src/shm_transport.cc:42-42 [kSlotPayloadMax] *)
Definition kSlotPayloadMax : Z := 64 * 1024.
(** src/src/shm_transport.cc:43-43 [kSlotCount] *)
Definition kSlotCount : Z := 64.

(** src/src/shm_transport.cc:151-155 [Slot] *)
Record Slot := mkSlot { slot_len : Z; slot_data : list byte }.

(** src/src/shm_transport.cc:146-160 [RingMeta, Ring] *)
Record Ring := mkRing { head : Z; tail : Z; slots : list Slot }.

(** A slot and a ring of zeroed memory. *)
Definition zero_slot : Slot := mkSlot 0 (replicate (Z.to_nat kSlotPayloadMax) Init.Byte.x00).
Definition zero_ring : Ring := mkRing 0 0 (replicate 64 zero_slot).

#[export] Instance Slot_inhabited : Inhabited Slot := populate (mkSlot 0 []).

(** ** Memory accesses *)

Definition slot_at (idx : Z) (r : Ring) : Slot := slots r !!! Z.to_nat idx.
Definition set_slot (idx : Z) (f : Slot -> Slot) (r : Ring) : Ring :=
  mkRing (head r) (tail r) (alter f (Z.to_nat idx) (slots r)).
(** [slots[idx].len = n] *)
Definition store_len (idx n : Z) : Ring -> Ring :=
  set_slot idx (fun sl => mkSlot n (slot_data sl)).
(** [memcpy(slots[idx].data, bs, |bs|)] *)
Definition store_data (idx : Z) (bs : list byte) : Ring -> Ring :=
  set_slot idx (fun sl => mkSlot (slot_len sl) (bs ++ drop (length bs) (slot_data sl))).
Definition store_head (v : Z) (r : Ring) : Ring := mkRing v (tail r) (slots r).
Definition store_tail (v : Z) (r : Ring) : Ring := mkRing (head r) v (slots r).

(** A ring with the counts of its two semaphores. *)
Record channel := mkChan { ring : Ring; items : Z; spaces : Z }.

Definition zero_channel : channel := mkChan zero_ring 0 kSlotCount.

(** [::sem_post] *)
Definition post_items (c : channel) : channel := mkChan (ring c) (items c + 1) (spaces c).
Definition post_spaces (c : channel) : channel := mkChan (ring c) (items c) (spaces c + 1).
Definition on_ring (f : Ring -> Ring) (c : channel) : channel :=
  mkChan (f (ring c)) (items c) (spaces c).

(** ** The bodies of send and recv, once the semaphore is taken *)

(** src/src/shm_transport.cc:396-404 [ShmPipe::send, after the wait] *)
Definition send_body (msg : payload) (c : channel) : channel * Status :=
  let h := head (ring c) in
  let idx := h mod kSlotCount in
  let c := on_ring (store_len idx (wrap32 (len msg))) c in
  let c := if negb (len msg =? 0) then on_ring (store_data idx msg) c else c in
  let c := on_ring (store_head (wrap32 (h + 1))) c in
  (post_items c, Ok).

(** src/src/shm_transport.cc:417-427 [ShmPipe::recv, after the wait] *)
Definition recv_body (c : channel) : channel * Result payload :=
  let t := tail (ring c) in
  let idx := t mod kSlotCount in
  let n := slot_len (slot_at idx (ring c)) in
  if n >? kSlotPayloadMax then (c, RStatus (protocol_error "shm slot len too large"))
  else
    let m := take (Z.to_nat n) (slot_data (slot_at idx (ring c))) in
    let c := on_ring (store_tail (wrap32 (t + 1))) c in
    (post_spaces c, RValue m).

(** ** The two processes, one memory access at a time *)

(** Where the sender is: outside [send], or past the wait, the load of [head],
    the store of the length, the copy of the data, the store of [head]. *)
Inductive producer :=
| PIdle
| PHold (m : payload)
| PLoaded (m : payload) (h : Z)
| PLen (m : payload) (h : Z)
| PData (m : payload) (h : Z)
| PStored (m : payload).

(** Where the receiver is: outside [recv], or past the wait, the load of [tail],
    the load of the length, the copy of the data, the store of [tail]. *)
Inductive consumer :=
| CIdle
| CHold
| CLoaded (t : Z)
| CLen (t n : Z)
| CData (t : Z) (m : payload)
| CStored (m : payload).

(** src/src/shm_transport.cc:396-404 [ShmPipe::send, access by access] *)
Definition producer_step (p : producer) (c : channel) : option (producer * channel) :=
  match p with
  | PIdle => None
  | PHold m => Some (PLoaded m (head (ring c)), c)
  | PLoaded m h => Some (PLen m h, on_ring (store_len (h mod kSlotCount) (wrap32 (len m))) c)
  | PLen m h =>
      Some (PData m h,
        if negb (len m =? 0) then on_ring (store_data (h mod kSlotCount) m) c else c)
  | PData m h => Some (PStored m, on_ring (store_head (wrap32 (h + 1))) c)
  | PStored m => Some (PIdle, post_items c)
  end.

(** src/src/shm_transport.cc:417-427 [ShmPipe::recv, access by access]

    The last component is the value [recv] returns on this step. *)
Definition consumer_step (k : consumer) (c : channel)
    : option (consumer * channel * option (Result payload)) :=
  match k with
  | CIdle => None
  | CHold => Some (CLoaded (tail (ring c)), c, None)
  | CLoaded t => Some (CLen t (slot_len (slot_at (t mod kSlotCount) (ring c))), c, None)
  | CLen t n =>
      if n >? kSlotPayloadMax then
        Some (CIdle, c, Some (RStatus (protocol_error "shm slot len too large")))
      else
        Some (CData t (take (Z.to_nat n) (slot_data (slot_at (t mod kSlotCount) (ring c)))), c, None)
  | CData t m => Some (CStored m, on_ring (store_tail (wrap32 (t + 1))) c, None)
  | CStored m => Some (CIdle, post_spaces c, Some (RValue m))
  end.

(** The connection: both processes, the messages whose publication (the store of
    [head]) has happened, in order, and the values [recv] has returned. *)
Record ring_state := mkRS {
  chan : channel;
  prod : producer;
  cons : consumer;
  published : list payload;
  returned : list (Result payload);
}.

Definition ring_start : ring_state := mkRS zero_channel PIdle CIdle [] [].

(** What a producer step publishes. *)
Definition publishes (p : producer) : list payload :=
  match p with PData m _ => [m] | _ => [] end.

Inductive ring_step : ring_state -> ring_state -> Prop :=
| step_send_wait c k pub ret m :
    len m <= kSlotPayloadMax -> 0 < spaces c ->
    ring_step (mkRS c PIdle k pub ret)
      (mkRS (mkChan (ring c) (items c) (spaces c - 1)) (PHold m) k pub ret)
| step_producer c p k pub ret p' c' :
    producer_step p c = Some (p', c') ->
    ring_step (mkRS c p k pub ret) (mkRS c' p' k (pub ++ publishes p) ret)
| step_recv_wait c p pub ret :
    0 < items c ->
    ring_step (mkRS c p CIdle pub ret)
      (mkRS (mkChan (ring c) (items c - 1) (spaces c)) p CHold pub ret)
| step_consumer c p k pub ret k' c' r :
    consumer_step k c = Some (k', c', r) ->
    ring_step (mkRS c p k pub ret)
      (mkRS c' p k' pub (ret ++ match r with Some v => [v] | None => [] end)).

Definition reachable : ring_state -> Prop := rtc ring_step ring_start.

(** ** The specification: a bounded queue *)

(** A queue of at most 64 messages and the messages taken from it. *)
Record fifo := mkFifo { queue : list payload; taken : list payload }.

Inductive fifo_step : fifo -> fifo -> Prop :=
| fifo_put q d m :
    len q < kSlotCount -> fifo_step (mkFifo q d) (mkFifo (q ++ [m]) d)
| fifo_get m q d :
    fifo_step (mkFifo (m :: q) d) (mkFifo q (d ++ [m])).

(** The queue a state of the ring stands for: published and not yet returned. *)
Definition ring_fifo (s : ring_state) : fifo :=
  mkFifo (drop (length (returned s)) (published s)) (take (length (returned s)) (published s)).

(** ** The invariant *)

(** The producer holds a space it has not yet published in; it has published
    and not yet posted; the consumer holds an item it has not yet released; it
    has released it and not yet posted. *)
Definition p_holds (p : producer) : Z :=
  match p with PHold _ | PLoaded _ _ | PLen _ _ | PData _ _ => 1 | _ => 0 end.
Definition p_stored (p : producer) : Z := match p with PStored _ => 1 | _ => 0 end.
Definition c_holds (k : consumer) : Z :=
  match k with CHold | CLoaded _ | CLen _ _ | CData _ _ => 1 | _ => 0 end.
Definition c_stored (k : consumer) : Z := match k with CStored _ => 1 | _ => 0 end.

(** The number of messages published, and of slots released. *)
Definition nP (s : ring_state) : Z := len (published s).
Definition nC (s : ring_state) : Z := len (returned s) + c_stored (cons s).

Definition slot_holds (sl : Slot) (m : payload) : Prop :=
  slot_len sl = len m /\ take (length m) (slot_data sl) = m.

Definition small (m : payload) : Prop := len m <= kSlotPayloadMax.

Definition slot_of (s : ring_state) (i : Z) : Slot := slot_at (i mod kSlotCount) (ring (chan s)).

Definition producer_inv (s : ring_state) : Prop :=
  match prod s with
  | PIdle | PStored _ => True
  | PHold m => small m
  | PLoaded m h => small m /\ h = wrap32 (nP s)
  | PLen m h => small m /\ h = wrap32 (nP s) /\ slot_len (slot_of s (nP s)) = len m
  | PData m h => small m /\ h = wrap32 (nP s) /\ slot_holds (slot_of s (nP s)) m
  end.

Definition consumer_inv (s : ring_state) : Prop :=
  match cons s with
  | CIdle | CHold => True
  | CLoaded t => t = wrap32 (nC s)
  | CLen t n => t = wrap32 (nC s) /\ exists m, published s !! Z.to_nat (nC s) = Some m /\ n = len m
  | CData t m => t = wrap32 (nC s) /\ published s !! Z.to_nat (nC s) = Some m
  | CStored m => published s !! length (returned s) = Some m
  end.

Record ring_inv (s : ring_state) : Prop := {
  inv_slots : length (slots (ring (chan s))) = 64%nat;
  inv_head : head (ring (chan s)) = wrap32 (nP s);
  inv_tail : tail (ring (chan s)) = wrap32 (nC s);
  inv_small : Forall small (published s);
  inv_prod : producer_inv s;
  inv_cons : consumer_inv s;
  inv_items : 0 <= items (chan s) /\
    items (chan s) + p_stored (prod s) + c_holds (cons s) = nP s - nC s;
  inv_spaces : 0 <= spaces (chan s) /\
    spaces (chan s) + p_holds (prod s) + c_stored (cons s) = kSlotCount - (nP s - nC s);
  inv_returned : returned s = map RValue (take (length (returned s)) (published s));
  inv_content : forall i m, nC s <= i -> published s !! Z.to_nat i = Some m ->
    slot_holds (slot_of s i) m;
}.

(** ** Lemmas on slots *)

Lemma slot_at_set i j f r :
  length (slots r) = 64%nat -> 0 <= i < 64 -> 0 <= j < 64 ->
  slot_at j (set_slot i f r) = if decide (i = j) then f (slot_at i r) else slot_at j r.
Proof.
  intros Hl Hi Hj. unfold slot_at, set_slot. cbn [slots]. rewrite !list_lookup_total_alt.
  case_decide as E.
  - subst j. rewrite list_lookup_alter_eq.
    destruct (lookup_lt_is_Some_2 (slots r) (Z.to_nat i)) as [sl ->]; [lia|done].
  - rewrite list_lookup_alter_ne by lia. done.
Qed.

Lemma set_slot_length i f r : length (slots (set_slot i f r)) = length (slots r).
Proof. apply length_alter. Qed.

Lemma idx_wrap n : wrap32 n mod kSlotCount = n mod kSlotCount.
Proof. apply (wrap_mod 32 n 6). lia. Qed.

Lemma idx_range n : 0 <= n mod kSlotCount < 64.
Proof. apply Z.mod_pos_bound. done. Qed.

(** Slots of counters less than 64 apart are different. *)
Lemma idx_distinct i n : i < n -> n - i < 64 -> n mod kSlotCount <> i mod kSlotCount.
Proof. unfold kSlotCount. intros. intros E. pose proof (Z.div_mod n 64 ltac:(lia)). pose proof (Z.div_mod i 64 ltac:(lia)). lia. Qed.

Lemma wrap32_succ n : wrap32 (wrap32 n + 1) = wrap32 (n + 1).
Proof. apply wrap_add_l. Qed.

Lemma small_wrap m : small m -> wrap32 (len m) = len m.
Proof. unfold small, kSlotPayloadMax. intros. apply wrap_small. lia. Qed.

Lemma slot_holds_take sl m : slot_holds sl m -> take (Z.to_nat (slot_len sl)) (slot_data sl) = m.
Proof. intros [-> H]. by rewrite Nat2Z.id. Qed.

(** What the copy of the data leaves in a slot whose length is already stored. *)
Lemma slot_holds_copy sl m :
  slot_len sl = len m ->
  slot_holds (if negb (len m =? 0) then mkSlot (slot_len sl) (m ++ drop (length m) (slot_data sl)) else sl) m.
Proof.
  intros Hl. destruct (Z.eqb_spec (len m) 0) as [E|E]; simpl.
  - destruct m; [done|simpl in E; lia].
  - split; [done|]. simpl. apply take_app_length.
Qed.

Lemma on_ring_if (b : bool) f c : (if b then on_ring f c else c) = on_ring (if b then f else id) c.
Proof. destruct b, c; done. Qed.

Lemma set_slot_if (b : bool) i f r :
  (if b then set_slot i f else id) r = set_slot i (fun sl => if b then f sl else sl) r.
Proof.
  destruct b; [done|]. destruct r. unfold set_slot, id. simpl. f_equal. symmetry.
  apply list_alter_id. done.
Qed.

(** ** The invariant holds *)

Lemma ring_start_inv : ring_inv ring_start.
Proof.
  split; simpl; done.
Qed.

(** A message already in the ring survives a write to the producer's slot. *)
Lemma content_kept s f i m :
  ring_inv s -> nP s - nC s < 64 -> nC s <= i ->
  published s !! Z.to_nat i = Some m ->
  slot_holds (slot_at (i mod kSlotCount) (set_slot (nP s mod kSlotCount) f (ring (chan s)))) m.
Proof.
  intros Hs Hr Hi Hm. rewrite slot_at_set by (apply Hs || apply idx_range).
  assert (i < nP s) by (apply lookup_lt_Some in Hm; unfold nP, nC in *; destruct (cons s); simpl in *; lia).
  rewrite decide_False by (apply idx_distinct; lia).
  by apply Hs.
Qed.

Lemma c_stored_range k : 0 <= c_stored k <= 1.
Proof. destruct k; simpl; lia. Qed.

Lemma nC_nonneg s : 0 <= nC s.
Proof. unfold nC. destruct (cons s); simpl; lia. Qed.

(** The consumer's view only depends on what is published and released. *)
Lemma consumer_inv_mono s s' :
  cons s' = cons s -> returned s' = returned s -> published s `prefix_of` published s' ->
  consumer_inv s -> consumer_inv s'.
Proof.
  intros Hk Hr Hp. unfold consumer_inv, nC. rewrite Hk, Hr.
  destruct (cons s); try done; [intros (? & m & ? & ?); split; [done|]; exists m; split; [|done]
    |intros [? ?]; split; [done|]|intros ?]; by eapply prefix_lookup_Some.
Qed.

Lemma producer_write_inv s f p' :
  ring_inv s -> p_holds (prod s) = 1 -> p_holds p' = 1 -> p_stored p' = 0 -> p_stored (prod s) = 0 ->
  let s' := mkRS (on_ring (set_slot (nP s mod kSlotCount) f) (chan s)) p' (cons s)
              (published s) (returned s) in
  producer_inv s' -> ring_inv s'.
Proof.
  intros Hs Hh Hh' Hst' Hst s' Hp.
  pose proof (inv_items _ Hs) as Hi. pose proof (inv_spaces _ Hs) as Hsp.
  split; try done; unfold s', nP, nC in *; simpl in *; try apply Hs.
  - by rewrite length_alter; apply Hs.
  - rewrite Hst in Hi. rewrite Hst'. apply Hi.
  - rewrite Hh in Hsp. rewrite Hh'. apply Hsp.
  - intros i m Hci Hm. apply (content_kept s f i m Hs); [|done..].
    pose proof (c_stored_range (cons s)). unfold nP, nC, kSlotCount in *. lia.
Qed.

Lemma send_wait_inv c k pub ret m :
  ring_inv (mkRS c PIdle k pub ret) -> small m -> 0 < spaces c ->
  ring_inv (mkRS (mkChan (ring c) (items c) (spaces c - 1)) (PHold m) k pub ret).
Proof.
  intros Hs Hm Hsp. pose proof (inv_spaces _ Hs) as Hi. simpl in Hi.
  split; try apply Hs; simpl; [done|]. unfold nP, nC in *. simpl in *. lia.
Qed.

Lemma recv_wait_inv c p pub ret :
  ring_inv (mkRS c p CIdle pub ret) -> 0 < items c ->
  ring_inv (mkRS (mkChan (ring c) (items c - 1) (spaces c)) p CHold pub ret).
Proof.
  intros Hs Hit. pose proof (inv_items _ Hs) as Hi. simpl in Hi.
  split; try apply Hs; simpl. unfold nP, nC in *. simpl in *. lia.
Qed.

Lemma publish_inv c m h k pub ret (s := mkRS c (PData m h) k pub ret) :
  ring_inv s -> small m -> h = wrap32 (len pub) -> slot_holds (slot_of s (len pub)) m ->
  ring_inv (mkRS (on_ring (store_head (wrap32 (h + 1))) c) (PStored m) k (pub ++ [m]) ret).
Proof.
  intros Hs Hm Hh Hl. pose proof (inv_items _ Hs) as Hi. pose proof (inv_spaces _ Hs) as Hsp.
  unfold nP, nC in Hi, Hsp. cbn [s chan prod cons published returned p_holds p_stored] in Hi, Hsp.
  assert (Hret : (length ret <= length pub)%nat) by (destruct k; simpl in *; lia).
  split; unfold nP, nC; cbn [chan prod cons published returned p_holds p_stored on_ring ring items spaces store_head];
    rewrite ?length_app, ?Nat2Z.inj_add; try apply Hs; try (cbn [length]; lia).
  - by rewrite Hh, wrap32_succ.
  - apply Forall_app. split; [apply Hs|by apply Forall_singleton].
  - done.
  - eapply (consumer_inv_mono s), Hs; [done..|]. by exists [m].
  - rewrite take_app_le by done. apply Hs.
  - intros i m' Hi' Hm'. apply lookup_app_Some in Hm' as [Hm'|[Hle Hm']]; [by apply Hs|].
    apply list_lookup_singleton_Some in Hm' as [Hz <-].
    replace i with (len pub) by (destruct k; simpl in *; lia). done.
Qed.

Lemma producer_step_inv c p k pub ret p' c' :
  ring_inv (mkRS c p k pub ret) -> producer_step p c = Some (p', c') ->
  ring_inv (mkRS c' p' k (pub ++ publishes p) ret).
Proof.
  intros Hs Hp. set (s := mkRS c p k pub ret) in Hs.
  pose proof (inv_prod _ Hs) as Hpi. unfold producer_inv in Hpi. cbn [s prod] in Hpi.
  destruct p as [|m|m h|m h|m h|m]; simplify_eq/=; rewrite ?app_nil_r.
  - (* load head *) destruct Hs. split; done.
  - (* store the length *)
    destruct Hpi as [Hm Hh]. rewrite Hh, idx_wrap.
    apply (producer_write_inv s _ (PLen m (wrap32 (nP s))) Hs); try done. cbn [producer_inv prod].
    split_and!; [done..|]. unfold slot_of. cbn [chan on_ring ring nP published].
    rewrite slot_at_set by (apply Hs || apply idx_range). rewrite decide_True by done.
    by apply small_wrap.
  - (* copy the data *)
    destruct Hpi as (Hm & Hh & Hl). rewrite Hh, idx_wrap, on_ring_if.
    replace (on_ring _ c) with (on_ring (set_slot (nP s mod kSlotCount) (fun sl =>
      if negb (len m =? 0) then mkSlot (slot_len sl) (m ++ drop (length m) (slot_data sl)) else sl)) c).
    2: { unfold on_ring. by rewrite <- (set_slot_if (negb (len m =? 0))). }
    apply (producer_write_inv s _ (PData m (wrap32 (nP s))) Hs); try done. cbn [producer_inv prod].
    split_and!; [done..|]. unfold slot_of. cbn [chan on_ring ring nP published].
    rewrite slot_at_set by (apply Hs || apply idx_range). rewrite decide_True by done.
    by apply slot_holds_copy.
  - (* publish *) destruct Hpi as (Hm & Hh & Hl). by apply (publish_inv c m h).
  - (* post *)
    pose proof (inv_items _ Hs) as Hi. simpl in Hi.
    split; try apply Hs; unfold nP, nC in *; simpl in *; try done; lia.
Qed.

(** While the consumer holds an item, the next message is in its slot. *)
Lemma next_message s :
  ring_inv s -> c_holds (cons s) = 1 ->
  exists m, published s !! Z.to_nat (nC s) = Some m /\ small m /\ slot_holds (slot_of s (nC s)) m.
Proof.
  intros Hs Hk. pose proof (inv_items _ Hs) as Hi. pose proof (nC_nonneg s).
  assert (0 <= p_stored (prod s)) by (destruct (prod s); simpl; lia).
  destruct (lookup_lt_is_Some_2 (published s) (Z.to_nat (nC s))) as [m Hm].
  { unfold nP in Hi. lia. }
  exists m. split_and!; [done| |by apply Hs].
  eapply Forall_lookup_1; [apply Hs|done].
Qed.

Lemma consumer_step_inv c p k pub ret k' c' r :
  ring_inv (mkRS c p k pub ret) -> consumer_step k c = Some (k', c', r) ->
  ring_inv (mkRS c' p k' pub (ret ++ match r with Some v => [v] | None => [] end)).
Proof.
  intros Hs Hk. pose proof (inv_cons _ Hs) as Hci. unfold consumer_inv in Hci.
  pose proof (next_message _ Hs) as Hnext. cbn [cons] in Hci, Hnext.
  destruct k as [| |t|t n|t m|m]; simplify_eq/=; rewrite ?app_nil_r.
  - (* load tail *) destruct Hs. split; done.
  - (* load the length *)
    destruct (Hnext eq_refl) as (m & Hm & _ & Hh). destruct Hs. split; try done.
    simpl. split; [done|]. exists m. split; [done|]. rewrite Hci, idx_wrap. apply Hh.
  - (* check it and copy the data *)
    destruct (Hnext eq_refl) as (m & Hm & Hsm & Hh). destruct Hci as (Ht & m' & Hm' & ->).
    assert (m' = m) as -> by (unfold nC in *; simpl in *; congruence).
    destruct (gtb_spec (len m) kSlotPayloadMax); [unfold small in Hsm; lia|]. simplify_eq.
    rewrite app_nil_r. destruct Hs. split; try done. simpl. split; [done|].
    rewrite Ht, idx_wrap, Nat2Z.id. destruct Hh as [_ Hh]. unfold slot_of in Hh. cbn [chan] in Hh.
    rewrite Hh. done.
  - (* release the slot *)
    destruct Hci as [Ht Hm].
    assert (HnC : nC (mkRS c p (CData t m) pub ret) = len ret) by (unfold nC; simpl; lia).
    rewrite HnC in *. pose proof (inv_items _ Hs) as Hi. pose proof (inv_spaces _ Hs) as Hsp.
    rewrite HnC in Hi, Hsp. unfold nP in *. cbn [chan prod cons published c_holds c_stored] in *.
    split; try apply Hs; unfold nP, nC;
      cbn [chan prod cons published returned c_holds c_stored on_ring items spaces ring store_tail]; try lia.
    + rewrite Ht, wrap32_succ. by f_equal.
    + simpl. by rewrite Nat2Z.id in Hm.
    + intros i m' Hi' Hm'. apply (inv_content _ Hs); [rewrite HnC; simpl; lia|done].
  - (* post and return *)
    pose proof (inv_items _ Hs) as Hi. pose proof (inv_spaces _ Hs) as Hsp.
    assert (HnC : nC (mkRS (post_spaces c) p CIdle pub (ret ++ [RValue m])) =
                  nC (mkRS c p (CStored m) pub ret)).
    { unfold nC. cbn [returned cons c_stored]. rewrite length_app. simpl. lia. }
    split; try apply Hs; rewrite ?HnC; cbn [chan prod cons published returned c_holds c_stored post_spaces items spaces];
      try apply Hs; [done|unfold nP in *; cbn [chan prod cons published c_stored] in *; lia|].
    rewrite length_app, Nat.add_1_r, (take_S_r _ _ m), map_app by done.
    f_equal. apply Hs.
Qed.

Lemma ring_step_inv s s' : ring_inv s -> ring_step s s' -> ring_inv s'.
Proof.
  intros Hs Hst. destruct Hst;
    eauto using send_wait_inv, recv_wait_inv, producer_step_inv, consumer_step_inv.
Qed.

Lemma reachable_inv s : reachable s -> ring_inv s.
Proof.
  intros Hr. eapply rtc_invariant; [apply ring_step_inv|exact Hr|apply ring_start_inv].
Qed.

Lemma ring_counts s :
  ring_inv s -> (length (returned s) <= length (published s))%nat /\
  len (queue (ring_fifo s)) = nP s - nC s + c_stored (cons s).
Proof.
  intros Hs. pose proof (inv_items _ Hs) as Hi. pose proof (c_stored_range (cons s)).
  assert (0 <= c_holds (cons s)) by (destruct (cons s); simpl; lia).
  assert (0 <= p_stored (prod s)) by (destruct (prod s); simpl; lia).
  unfold nP, nC in *. split; [lia|]. cbn [ring_fifo queue]. rewrite length_drop. lia.
Qed.

Lemma producer_step_fifo c p k pub ret p' c' :
  ring_inv (mkRS c p k pub ret) -> producer_step p c = Some (p', c') ->
  let s' := mkRS c' p' k (pub ++ publishes p) ret in
  ring_fifo s' = ring_fifo (mkRS c p k pub ret) \/ fifo_step (ring_fifo (mkRS c p k pub ret)) (ring_fifo s').
Proof.
  intros Hs Hp s'. destruct (ring_counts _ Hs) as [Hle Hq].
  destruct p as [|m|m h|m h|m h|m]; simpl in Hp; simplify_eq;
    unfold s'; cbn [publishes]; rewrite ?app_nil_r; try by left.
  right. unfold ring_fifo. cbn [published returned] in *.
  rewrite drop_app_le, take_app_le by done. apply fifo_put.
  pose proof (inv_spaces _ Hs) as Hsp. cbn [ring_fifo queue published returned chan prod cons p_holds] in *. lia.
Qed.

Lemma consumer_step_fifo c p k pub ret k' c' r :
  ring_inv (mkRS c p k pub ret) -> consumer_step k c = Some (k', c', r) ->
  let s' := mkRS c' p k' pub (ret ++ match r with Some v => [v] | None => [] end) in
  ring_fifo s' = ring_fifo (mkRS c p k pub ret) \/ fifo_step (ring_fifo (mkRS c p k pub ret)) (ring_fifo s').
Proof.
  intros Hs Hk s'. pose proof (consumer_step_inv _ _ _ _ _ _ _ _ Hs Hk) as Hs'.
  destruct r as [v|]; [|left; unfold s', ring_fifo; simpl; by rewrite app_nil_r].
  right. pose proof (inv_returned _ Hs') as Hret. destruct (ring_counts _ Hs') as [Hle _].
  unfold s', ring_fifo. cbn [published returned] in *.
  rewrite length_app, Nat.add_1_r in *. cbn [length] in *.
  destruct (lookup_lt_is_Some_2 pub (length ret)) as [m Hm]; [lia|].
  rewrite (drop_S _ m) by done. rewrite (take_S_r _ _ m) by done. apply fifo_get.
Qed.

(** The steps of a process run to the end of its call. *)
Fixpoint run_producer (n : nat) (p : producer) (c : channel) : option (producer * channel) :=
  match n with
  | O => Some (p, c)
  | S n' => '(p', c') ← producer_step p c; run_producer n' p' c'
  end.

Fixpoint run_consumer (n : nat) (k : consumer) (c : channel) : option (channel * Result payload) :=
  match n with
  | O => None
  | S n' =>
      '(k', c', r) ← consumer_step k c;
      match r with Some v => Some (c', v) | None => run_consumer n' k' c' end
  end.

(** A channel between two calls, with the messages queued in it. *)
Definition quiescent (c : channel) (q : list payload) : Prop :=
  exists pub ret, reachable (mkRS c PIdle CIdle pub ret) /\ drop (length ret) pub = q.

Lemma zero_quiescent : quiescent zero_channel [].
Proof. exists [], []. split; [apply rtc_refl|done]. Qed.

Lemma quiescent_counts c q :
  quiescent c q -> items c = len q /\ spaces c = kSlotCount - len q /\ Forall small q.
Proof.
  intros (pub & ret & Hr & <-). apply reachable_inv in Hr as Hs.
  destruct (ring_counts _ Hs) as [_ Hq]. pose proof (inv_items _ Hs) as Hi.
  pose proof (inv_spaces _ Hs) as Hsp. cbn [ring_fifo queue prod cons chan published returned p_holds p_stored c_holds c_stored] in *.
  split_and!; [lia..|]. apply Forall_drop, Hs.
Qed.

Lemma send_body_quiescent c q m :
  quiescent c q -> small m -> len q < kSlotCount ->
  exists c', send_body m (mkChan (ring c) (items c) (spaces c - 1)) = (c', Ok) /\ quiescent c' (q ++ [m]).
Proof.
  intros Hq Hm Hl. destruct (quiescent_counts _ _ Hq) as (_ & Hsp & _).
  destruct Hq as (pub & ret & Hr & Hd). eexists. split; [reflexivity|].
  exists (pub ++ [m]), ret. split.
  - eapply rtc_trans; [exact Hr|].
    eapply rtc_l; [apply (step_send_wait c CIdle pub ret m); [done|lia]|].
    do 5 (eapply rtc_l; [eapply step_producer; reflexivity|]). cbn [publishes].
    rewrite !app_nil_r. apply rtc_refl.
  - apply reachable_inv, ring_counts in Hr as [Hle _]. by rewrite drop_app_le, Hd.
Qed.

Lemma recv_body_quiescent c q m :
  quiescent c (m :: q) ->
  exists c', recv_body (mkChan (ring c) (items c - 1) (spaces c)) = (c', RValue m) /\ quiescent c' q.
Proof.
  intros Hq. destruct (quiescent_counts _ _ Hq) as (Hit & _ & Hsm). cbn [length] in Hit.
  apply Forall_cons in Hsm as [Hm _]. destruct Hq as (pub & ret & Hr & Hd).
  apply reachable_inv in Hr as Hs. pose proof (inv_tail _ Hs) as Ht.
  assert (Hpub : pub !! length ret = Some m).
  { rewrite <- (Nat.add_0_r (length ret)), <- lookup_drop, Hd. done. }
  pose proof (inv_content _ Hs (len ret) m) as Hc. unfold nC, slot_of in Hc, Ht.
  cbn [returned cons c_stored chan published] in Hc, Ht. rewrite Nat2Z.id, Z.add_0_r in *.
  specialize (Hc ltac:(lia) Hpub).
  set (c0 := mkChan (ring c) (items c - 1) (spaces c)).
  assert (Hslot : slot_holds (slot_at (tail (ring c0) mod kSlotCount) (ring c0)) m).
  { cbn. by rewrite Ht, idx_wrap. }
  pose proof Hslot as [Hlen Hdata].
  assert (Hbig : (slot_len (slot_at (tail (ring c0) mod kSlotCount) (ring c0)) >? kSlotPayloadMax) = false).
  { rewrite Hlen. destruct (gtb_spec (len m) kSlotPayloadMax); [unfold small in Hm; lia|done]. }
  exists (post_spaces (on_ring (store_tail (wrap32 (tail (ring c0) + 1))) c0)). split.
  - unfold recv_body. rewrite Hbig. by rewrite (slot_holds_take _ m Hslot).
  - exists pub, (ret ++ [RValue m]). split.
    + eapply rtc_trans; [exact Hr|].
      eapply rtc_l; [apply step_recv_wait; lia|]. fold c0.
      eapply rtc_l; [eapply step_consumer; reflexivity|].
      eapply rtc_l; [eapply step_consumer; reflexivity|].
      eapply rtc_l; [eapply step_consumer; cbn [consumer_step]; rewrite Hbig; reflexivity|].
      eapply rtc_l; [eapply step_consumer; reflexivity|].
      eapply rtc_l; [eapply step_consumer; reflexivity|].
      rewrite (slot_holds_take _ m Hslot), !app_nil_r. apply rtc_refl.
    + rewrite length_app, Nat.add_1_r. by rewrite (drop_S _ m _ Hpub) in Hd; inv Hd.
Qed.

(** ** Theorems *)

(** C2: however a sender and a receiver interleave, and however often the 32-bit
    counters wrap, what [recv] has returned is exactly the first messages that
    were published, in order, none lost, duplicated or torn by a concurrent
    write, and never the length error; at most 64 messages are outstanding. *)
Theorem ring_delivers_in_order s :
  reachable s ->
  returned s = map RValue (take (length (returned s)) (published s)) /\
  len (published s) - len (returned s) <= kSlotCount /\
  Forall (fun m => len m <= kSlotPayloadMax) (published s).
Proof.
  intros Hr. apply reachable_inv in Hr as Hs. split; [apply Hs|]. split; [|apply Hs].
  pose proof (inv_spaces _ Hs) as Hsp. unfold nP, nC in Hsp.
  assert (0 <= p_holds (prod s)) by (destruct (prod s); simpl; lia).
  pose proof (c_stored_range (cons s)). lia.
Qed.

(** C8: the ring implements a bounded queue. Every step of either process, seen
    through the messages published and not yet returned, is no step at all, a
    put into a queue of fewer than 64 messages, or the removal of its head. *)
Theorem ring_refines_fifo s s' :
  reachable s -> ring_step s s' ->
  ring_fifo s' = ring_fifo s \/ fifo_step (ring_fifo s) (ring_fifo s').
Proof.
  intros Hr Hst. apply reachable_inv in Hr as Hs. destruct Hst.
  - by left.
  - by apply producer_step_fifo.
  - by left.
  - by apply consumer_step_fifo.
Qed.

(** C21: the semaphores never get out of step with the ring. With both processes
    outside their calls, [items] counts the queued messages and [spaces] the
    free slots. A sender that has to wait has a queued message, a receiver in
    its call or a post under way to wait for; a receiver that waits while a
    message is queued is about to be posted. *)
Theorem ring_no_lost_wakeup s :
  reachable s ->
  (prod s = PIdle -> cons s = CIdle ->
     items (chan s) = len (queue (ring_fifo s)) /\
     spaces (chan s) = kSlotCount - len (queue (ring_fifo s))) /\
  (prod s = PIdle -> spaces (chan s) = 0 -> cons s <> CIdle \/ 0 < items (chan s)) /\
  (cons s = CIdle -> items (chan s) = 0 -> queue (ring_fifo s) <> [] -> exists m, prod s = PStored m).
Proof.
  intros Hr. apply reachable_inv in Hr as Hs. destruct (ring_counts _ Hs) as [_ Hq].
  pose proof (inv_items _ Hs) as Hi. pose proof (inv_spaces _ Hs) as Hsp. rewrite Hq.
  split_and!.
  - intros Hp Hk. rewrite Hp, Hk in *. simpl in *. lia.
  - intros Hp H0. rewrite Hp in *. destruct (cons s); [right|left; done..].
    simpl in *. unfold kSlotCount in *. lia.
  - intros Hk H0 Hne. rewrite Hk in *. destruct (queue (ring_fifo s)) eqn:E; [done|].
    simpl in *. destruct (prod s); simpl in *; try lia. eauto.
Qed.

(** the interleaved processes run the code of [send] and [recv]: from the
    return of the wait, five accesses of the sender alone make exactly the
    change [send] makes, and the receiver's accesses return exactly what [recv]
    returns, on the error branch too. *)
Theorem bodies_are_steps m c :
  run_producer 5 (PHold m) c = Some (PIdle, fst (send_body m c)) /\
  run_consumer 5 CHold c = Some (recv_body c).
Proof.
  split; [unfold send_body; simpl; by destruct (negb _)|].
  unfold recv_body. simpl. by destruct (_ >? _).
Qed.

(** ** Witnesses *)

Definition msg_a : payload := [Init.Byte.x61].

(** One message published and not yet posted, the receiver idle. *)
Definition after_publish : ring_state :=
  mkRS (mkChan (ring (fst (send_body msg_a zero_channel))) 0 63) (PStored msg_a) CIdle [msg_a] [].

Lemma after_publish_reachable : reachable after_publish.
Proof.
  unfold reachable.
  eapply rtc_l; [apply (step_send_wait zero_channel CIdle [] [] msg_a); done|].
  do 4 (eapply rtc_l; [eapply step_producer; reflexivity|]). simpl. apply rtc_refl.
Qed.

Lemma ring_delivers_in_order_witness :
  len (published after_publish) - len (returned after_publish) <= kSlotCount.
Proof. exact (proj1 (proj2 (ring_delivers_in_order after_publish after_publish_reachable))). Defined.

Definition after_post : ring_state :=
  mkRS (post_items (chan after_publish)) PIdle CIdle [msg_a] [].

Lemma ring_refines_fifo_witness :
  ring_fifo after_post = ring_fifo after_publish \/
  fifo_step (ring_fifo after_publish) (ring_fifo after_post).
Proof.
  apply (ring_refines_fifo after_publish after_post after_publish_reachable).
  apply (step_producer (chan after_publish) (PStored msg_a) CIdle [msg_a] [] PIdle
           (post_items (chan after_publish))).
  reflexivity.
Defined.

Lemma ring_no_lost_wakeup_witness : exists m, prod after_publish = PStored m.
Proof.
  apply (proj2 (proj2 (ring_no_lost_wakeup after_publish after_publish_reachable)));
    [reflexivity|reflexivity|discriminate].
Defined.

(** A receiver finds the published message once it is posted. *)
Example recv_after_send :
  match recv_body (fst (send_body msg_a zero_channel)) with
  | (c, RValue m) => (m, tail (ring c), spaces c) = (msg_a, 1, 65)
  | _ => False
  end.
Proof. vm_compute. reflexivity. Qed.
