(* ===== verification/Shm.v ===== *)
(** * The shared-memory transport (src/shm_transport.cc)

    Semaphore waits, the creation and opening of a connection's kernel objects,
    [ShmPipe] and [ShmListener], and [shm_listen]/[shm_dial], over a model of
    the kernel's name spaces: shared-memory objects, named semaphores, open
    descriptors, mappings, semaphore handles and socket files. Whether a system
    call succeeds is part of its answer. An object lives as long as it is
    mapped, so the memory of an unlinked object is not reclaimed here. *)

From stdpp Require Import gmultiset.
From S2P Require Import Prelude Status Options Pipe Wire ShmNames ShmRing.

(** ** Time and semaphore waits *)

(** src/src/shm_transport.cc:88-107 [to_abs_timespec]

    [(sec, nsec)] is what [clock_gettime] returned; [dur] is in milliseconds. *)
Definition to_abs_timespec (now : Z * Z) (dur : Z) : Z * Z :=
  let ns := ms_to_ns dur in
  let sec := fst now + Z.quot ns 1000000000 in
  let nsec := snd now + Z.rem ns 1000000000 in
  if nsec >=? 1000000000 then (sec + 1, nsec - 1000000000) else (sec, nsec).

(** How one [sem_wait] or [sem_timedwait] ends: the semaphore was taken, or the
    call failed with an error. *)
Inductive wait_event := Taken | WaitErr (errno : Z).

Definition ETIMEDOUT : Z := 110.
Definition EAGAIN : Z := 11.

(** What a wait leaves: the status, the count and the events not consumed;
    [None] while it is still blocked. *)
Definition wait_result : Type := option (Status * Z * list wait_event).

(** The loop of [sem_wait_opt], with or without a deadline. *)
Fixpoint sem_wait_loop (timed : bool) (evs : list wait_event) (count : Z) : wait_result :=
  match evs with
  | [] => None
  | Taken :: evs' => if count >? 0 then Some (Ok, count - 1, evs') else None
  | WaitErr e :: evs' =>
      if e =? EINTR then sem_wait_loop timed evs' count
      else if timed && (e =? ETIMEDOUT) then Some (timeout "sem_timedwait timeout", count, evs')
      else
        Some (io_error (if timed then "sem_timedwait failed" else "sem_wait failed"), count, evs')
  end.

(** src/src/shm_transport.cc:110-144 [sem_wait_opt]

    On a system with [sem_timedwait]. *)
Definition sem_wait_opt (timeout_ms : Z) (evs : list wait_event) (count : Z) : wait_result :=
  if timeout_ms =? 0 then sem_wait_loop false evs count else sem_wait_loop true evs count.

(** src/src/shm_transport.cc:121-134 [sem_wait_opt, macOS]

    One [sem_trywait] per event, with the clock read after it. *)
Fixpoint sem_trywait_loop (deadline : Z) (evs : list (wait_event * Z)) (count : Z)
    : option (Status * Z * list (wait_event * Z)) :=
  match evs with
  | [] => None
  | (Taken, _) :: evs' => Some (Ok, count - 1, evs')
  | (WaitErr e, now) :: evs' =>
      if e =? EINTR then sem_trywait_loop deadline evs' count
      else if negb (e =? EAGAIN) then Some (io_error "sem_trywait failed", count, evs')
      else if now >=? deadline then Some (timeout "semaphore wait timeout", count, evs')
      else sem_trywait_loop deadline evs' count
  end.

(** ** The kernel *)

(** src/src/shm_transport.cc:162-165 [ShmLayout] *)
Record ShmLayout := mkLayout { c2s : Ring; s2c : Ring }.
Definition zero_layout : ShmLayout := mkLayout zero_ring zero_ring.

#[export] Instance Ring_inhabited : Inhabited Ring := populate (mkRing 0 0 []).
#[export] Instance ShmLayout_inhabited : Inhabited ShmLayout := populate (mkLayout inhabitant inhabitant).

Record kernel := mkKernel {
  k_shm : gmap string Z;          (* shm_open's names, and the objects they name *)
  k_sem : gmap string Z;          (* sem_open's names *)
  k_mem : gmap Z ShmLayout;       (* the memory of each object *)
  k_counts : gmap Z Z;            (* the count of each semaphore *)
  k_next : Z;                     (* the next object *)
  k_fds : gset Z;                 (* open descriptors *)
  k_maps : gmultiset Z;           (* mapped objects *)
  k_handles : gmultiset Z;        (* open semaphore handles *)
  k_files : gset string;          (* socket files *)
}.

(** What a C function reads of a [std::string]: up to its first NUL. *)
Fixpoint c_str (s : string) : string :=
  match s with
  | EmptyString => EmptyString
  | String c s' => if ascii_code c =? 0 then EmptyString else String c (c_str s')
  end.

Definition k_open_fd (fd : Z) (k : kernel) : kernel :=
  mkKernel (k_shm k) (k_sem k) (k_mem k) (k_counts k) (k_next k) (k_fds k ∪ {[fd]})
    (k_maps k) (k_handles k) (k_files k).
Definition k_close_fd (fd : Z) (k : kernel) : kernel :=
  mkKernel (k_shm k) (k_sem k) (k_mem k) (k_counts k) (k_next k) (k_fds k ∖ {[fd]})
    (k_maps k) (k_handles k) (k_files k).
Definition k_map (o : Z) (k : kernel) : kernel :=
  mkKernel (k_shm k) (k_sem k) (k_mem k) (k_counts k) (k_next k) (k_fds k)
    (k_maps k ⊎ {[+ o +]}) (k_handles k) (k_files k).
Definition k_unmap (o : Z) (k : kernel) : kernel :=
  mkKernel (k_shm k) (k_sem k) (k_mem k) (k_counts k) (k_next k) (k_fds k)
    (k_maps k ∖ {[+ o +]}) (k_handles k) (k_files k).
Definition k_files_set (f : gset string -> gset string) (k : kernel) : kernel :=
  mkKernel (k_shm k) (k_sem k) (k_mem k) (k_counts k) (k_next k) (k_fds k)
    (k_maps k) (k_handles k) (f (k_files k)).
Definition k_set_mem (o : Z) (m : ShmLayout) (k : kernel) : kernel :=
  mkKernel (k_shm k) (k_sem k) (<[o := m]> (k_mem k)) (k_counts k) (k_next k) (k_fds k)
    (k_maps k) (k_handles k) (k_files k).
Definition k_set_count (o n : Z) (k : kernel) : kernel :=
  mkKernel (k_shm k) (k_sem k) (k_mem k) (<[o := n]> (k_counts k)) (k_next k) (k_fds k)
    (k_maps k) (k_handles k) (k_files k).

(** [shm_unlink], [sem_unlink] and [sem_close]. *)
Definition shm_unlink (name : string) (k : kernel) : kernel :=
  mkKernel (delete (c_str name) (k_shm k)) (k_sem k) (k_mem k) (k_counts k) (k_next k) (k_fds k)
    (k_maps k) (k_handles k) (k_files k).
Definition sem_unlink (name : string) (k : kernel) : kernel :=
  mkKernel (k_shm k) (delete (c_str name) (k_sem k)) (k_mem k) (k_counts k) (k_next k) (k_fds k)
    (k_maps k) (k_handles k) (k_files k).
Definition sem_close (o : Z) (k : kernel) : kernel :=
  mkKernel (k_shm k) (k_sem k) (k_mem k) (k_counts k) (k_next k) (k_fds k)
    (k_maps k) (k_handles k ∖ {[+ o +]}) (k_files k).

(** [shm_open(name, O_CREAT | O_EXCL)]: a new zeroed object and the descriptor
    [fd], unless the call fails or the name exists. *)
Definition shm_create (name : string) (fd : Z) (k : kernel) : option Z * kernel :=
  match k_shm k !! c_str name with
  | Some _ => (None, k)
  | None =>
      if fd <? 0 then (None, k)
      else
        (Some (k_next k),
         mkKernel (<[c_str name := k_next k]> (k_shm k)) (k_sem k)
           (<[k_next k := zero_layout]> (k_mem k)) (k_counts k) (k_next k + 1) (k_fds k ∪ {[fd]})
           (k_maps k) (k_handles k) (k_files k))
  end.

(** [sem_open(name, O_CREAT | O_EXCL, 0600, n)] and [sem_open(name, 0)]. *)
Definition sem_create (name : string) (n : Z) (good : bool) (k : kernel) : option Z * kernel :=
  match k_sem k !! c_str name with
  | Some _ => (None, k)
  | None =>
      if negb good then (None, k)
      else
        (Some (k_next k),
         mkKernel (k_shm k) (<[c_str name := k_next k]> (k_sem k)) (k_mem k)
           (<[k_next k := n]> (k_counts k)) (k_next k + 1) (k_fds k)
           (k_maps k) (k_handles k ⊎ {[+ k_next k +]}) (k_files k))
  end.
Definition sem_open (name : string) (good : bool) (k : kernel) : option Z * kernel :=
  match k_sem k !! c_str name with
  | None => (None, k)
  | Some o =>
      if negb good then (None, k)
      else
        (Some o,
         mkKernel (k_shm k) (k_sem k) (k_mem k) (k_counts k) (k_next k) (k_fds k)
           (k_maps k) (k_handles k ⊎ {[+ o +]}) (k_files k))
  end.

(** ** Handles and resources *)

(** src/src/shm_transport.cc:276-283 [ShmHandles] *)
Record ShmHandles := mkHandles {
  shm_fd : Z;
  mem : option Z;
  c2s_items : option Z;
  c2s_spaces : option Z;
  s2c_items : option Z;
  s2c_spaces : option Z;
}.
Definition no_handles : ShmHandles := mkHandles (-1) None None None None None.

Definition close_sem (o : option Z) (k : kernel) : kernel :=
  match o with Some o => sem_close o k | None => k end.

(** src/src/shm_transport.cc:285-303 [close_handles] *)
Definition close_handles (h : ShmHandles) (k : kernel) : ShmHandles * kernel :=
  let k := match mem h with Some o => k_unmap o k | None => k end in
  let k := if shm_fd h >=? 0 then k_close_fd (shm_fd h) k else k in
  let k := close_sem (c2s_items h) k in
  let k := close_sem (c2s_spaces h) k in
  let k := close_sem (s2c_items h) k in
  let k := close_sem (s2c_spaces h) k in
  (mkHandles (if shm_fd h >=? 0 then -1 else shm_fd h) None None None None None, k).

(** The four [sem_unlink]s and the [shm_unlink] that several paths end with. *)
Definition unlink_all (n : ShmNames) (k : kernel) : kernel :=
  let k := sem_unlink (c2s_items_sem n) k in
  let k := sem_unlink (c2s_spaces_sem n) k in
  let k := sem_unlink (s2c_items_sem n) k in
  let k := sem_unlink (s2c_spaces_sem n) k in
  shm_unlink (shm n) k.

Section errors.
Context (strerror : Z -> string).

(** src/src/shm_transport.cc:67-70 [errno_suffix] *)
Definition errno_suffix (e : Z) : string :=
  " (errno=" +:+ (if e <? 0 then "-" +:+ to_string (- e) else to_string e) +:+ " " +:+ strerror e +:+ ")".

(** The answers of the system to [create_resources] and [open_resources]: the
    descriptor [shm_open] returns, which calls succeed, and [errno] on failure. *)
Record resource_answers := mkAnswers {
  ra_fd : Z;
  ra_truncate : bool;
  ra_map : bool;
  ra_c2s_items : bool;
  ra_c2s_spaces : bool;
  ra_s2c_items : bool;
  ra_s2c_spaces : bool;
  ra_errno : Z;
}.

(** [c2s_items == SEM_FAILED || ...] *)
Definition some_failed (a b c d : option Z) : bool :=
  bool_decide (a = None) || bool_decide (b = None) || bool_decide (c = None) || bool_decide (d = None).

(** src/src/shm_transport.cc:305-346 [create_resources] *)
Definition create_resources (n : ShmNames) (a : resource_answers) (k : kernel)
    : Result ShmHandles * kernel :=
  match shm_create (shm n) (ra_fd a) k with
  | (None, k) =>
      (RStatus (io_error ("shm_open(create) failed: " +:+ shm n +:+ errno_suffix (ra_errno a))), k)
  | (Some o, k) =>
      let h := mkHandles (ra_fd a) None None None None None in
      if negb (ra_truncate a) then
        let '(_, k) := close_handles h k in
        let k := shm_unlink (shm n) k in
        (RStatus (io_error ("ftruncate(shm) failed" +:+ errno_suffix (ra_errno a))), k)
      else if negb (ra_map a) then
        let '(_, k) := close_handles h k in
        let k := shm_unlink (shm n) k in
        (RStatus (io_error ("mmap(shm) failed" +:+ errno_suffix (ra_errno a))), k)
      else
        let k := k_map o k in
        let k := k_set_mem o zero_layout k in
        let '(ci, k) := sem_create (c2s_items_sem n) 0 (ra_c2s_items a) k in
        let '(cs, k) := sem_create (c2s_spaces_sem n) kSlotCount (ra_c2s_spaces a) k in
        let '(si, k) := sem_create (s2c_items_sem n) 0 (ra_s2c_items a) k in
        let '(ss, k) := sem_create (s2c_spaces_sem n) kSlotCount (ra_s2c_spaces a) k in
        let h := mkHandles (ra_fd a) (Some o) ci cs si ss in
        if some_failed ci cs si ss then
          let '(_, k) := close_handles h k in
          let k := unlink_all n k in
          (RStatus (io_error ("sem_open(create) failed" +:+ errno_suffix (ra_errno a))), k)
        else (RValue h, k)
  end.

(** src/src/shm_transport.cc:348-373 [open_resources] *)
Definition open_resources (n : ShmNames) (a : resource_answers) (k : kernel)
    : Result ShmHandles * kernel :=
  match (if ra_fd a <? 0 then None else k_shm k !! c_str (shm n)) with
  | None =>
      (RStatus (io_error ("shm_open(open) failed: " +:+ shm n +:+ errno_suffix (ra_errno a))), k)
  | Some o =>
      let k := k_open_fd (ra_fd a) k in
      if negb (ra_map a) then
        let '(_, k) := close_handles (mkHandles (ra_fd a) None None None None None) k in
        (RStatus (io_error ("mmap(shm) failed" +:+ errno_suffix (ra_errno a))), k)
      else
        let k := k_map o k in
        let '(ci, k) := sem_open (c2s_items_sem n) (ra_c2s_items a) k in
        let '(cs, k) := sem_open (c2s_spaces_sem n) (ra_c2s_spaces a) k in
        let '(si, k) := sem_open (s2c_items_sem n) (ra_s2c_items a) k in
        let '(ss, k) := sem_open (s2c_spaces_sem n) (ra_s2c_spaces a) k in
        let h := mkHandles (ra_fd a) (Some o) ci cs si ss in
        if some_failed ci cs si ss then
          let '(_, k) := close_handles h k in
          (RStatus (io_error ("sem_open(open) failed" +:+ errno_suffix (ra_errno a))), k)
        else (RValue h, k)
  end.

(** ** The rendezvous socket *)

(** src/src/shm_transport.cc:203-225 [uds_listen] *)
Definition uds_listen (sun_path : Z) (path : string) (fd errno : Z) (bind_ok listen_ok : bool)
    (k : kernel) : Result Z * kernel :=
  if fd <? 0 then (RStatus (io_error ("socket(AF_UNIX) failed" +:+ errno_suffix errno)), k)
  else
    let k := k_open_fd fd k in
    if Z.of_nat (String.length path) >=? sun_path then
      (RStatus (invalid_argument "uds path too long"), k_close_fd fd k)
    else
      let k := k_files_set (fun fs => fs ∖ {[path]}) k in
      if negb bind_ok then
        (RStatus (io_error ("bind(AF_UNIX) failed" +:+ errno_suffix errno)), k_close_fd fd k)
      else
        let k := k_files_set (fun fs => fs ∪ {[path]}) k in
        if negb listen_ok then
          (RStatus (io_error ("listen(AF_UNIX) failed" +:+ errno_suffix errno)), k_close_fd fd k)
        else (RValue fd, k).

(** src/src/shm_transport.cc:227-244 [uds_connect] *)
Definition uds_connect (sun_path : Z) (path : string) (fd errno : Z) (connect_ok : bool)
    (k : kernel) : Result Z * kernel :=
  if fd <? 0 then (RStatus (io_error ("socket(AF_UNIX) failed" +:+ errno_suffix errno)), k)
  else
    let k := k_open_fd fd k in
    if Z.of_nat (String.length path) >=? sun_path then
      (RStatus (invalid_argument "uds path too long"), k_close_fd fd k)
    else if negb connect_ok then
      (RStatus (io_error ("connect(AF_UNIX) failed" +:+ errno_suffix errno)), k_close_fd fd k)
    else (RValue fd, k).

(** The text of a socket error here carries [errno]; the loops are otherwise
    those of [wire::write_all] and [wire::read_exact], repeated in this file. *)
Definition with_errno (errno : Z) (st : Status) : Status :=
  match code st with
  | kIoError => io_error (message st +:+ errno_suffix errno)
  | _ => st
  end.

(** src/src/shm_transport.cc:246-259 [write_all] *)
Definition shm_write_all (s : sock) (errno : Z) (p : list byte) : option (Status * sock) :=
  match write_all s p with
  | Done st s' => Some (with_errno errno st, s')
  | Blocks _ => None
  end.

(** src/src/shm_transport.cc:261-274 [read_exact] *)
Definition shm_read_exact (s : sock) (errno : Z) (n : nat) : option (Status * list byte * sock) :=
  match read_exact s n with
  | Done (st, buf) s' => Some (with_errno errno st, buf, s')
  | Blocks _ => None
  end.

(** ** Pipes *)

(** src/src/shm_transport.cc:375-379 [ShmPipe] *)
Record ShmPipe := mkShmPipe {
  h_ : ShmHandles;
  names_ : ShmNames;
  owner_ : bool;
  is_client_ : bool;
}.

(** The memory object, items semaphore and spaces semaphore of one direction:
    [to_server] is the client's sending ring and the server's receiving ring. *)
Definition dir_items (to_server : bool) (h : ShmHandles) : Z :=
  default 0 (if to_server then c2s_items h else s2c_items h).
Definition dir_spaces (to_server : bool) (h : ShmHandles) : Z :=
  default 0 (if to_server then c2s_spaces h else s2c_spaces h).
Definition dir_ring (to_server : bool) (l : ShmLayout) : Ring := if to_server then c2s l else s2c l.
Definition set_dir_ring (to_server : bool) (r : Ring) (l : ShmLayout) : ShmLayout :=
  if to_server then mkLayout r (s2c l) else mkLayout (c2s l) r.

(** The ring and semaphores of one direction, as they are in the kernel. *)
Definition dir_channel (to_server : bool) (h : ShmHandles) (o : Z) (k : kernel) : channel :=
  mkChan (dir_ring to_server (k_mem k !!! o))
    (k_counts k !!! dir_items to_server h) (k_counts k !!! dir_spaces to_server h).

(** src/src/shm_transport.cc:383-405 [ShmPipe::send] *)
Definition shm_send (p : ShmPipe) (msg : payload) (opt : SendOptions) (evs : list wait_event)
    (k : kernel) : option (Status * kernel * list wait_event) :=
  match mem (h_ p) with
  | None => Some (closed "pipe closed", k, evs)
  | Some o =>
      if len msg >? kSlotPayloadMax then
        Some (invalid_argument "message too large; fragmentation TODO", k, evs)
      else
        let to_server := is_client_ p in
        let spaces := dir_spaces to_server (h_ p) in
        let items := dir_items to_server (h_ p) in
        '(st, count, evs) ← sem_wait_opt (send_timeout opt) evs (k_counts k !!! spaces);
        let k := k_set_count spaces count k in
        if negb (status_ok st) then Some (st, k, evs)
        else
          let '(c, st) := send_body msg (dir_channel to_server (h_ p) o k) in
          let k := k_set_mem o (set_dir_ring to_server (ring c) (k_mem k !!! o)) k in
          let k := k_set_count items (ShmRing.items c) k in
          Some (st, k, evs)
  end.

(** src/src/shm_transport.cc:407-428 [ShmPipe::recv] *)
Definition shm_recv (p : ShmPipe) (opt : RecvOptions) (evs : list wait_event) (k : kernel)
    : option (Result payload * kernel * list wait_event) :=
  match mem (h_ p) with
  | None => Some (RStatus (closed "pipe closed"), k, evs)
  | Some o =>
      let to_server := negb (is_client_ p) in
      let items := dir_items to_server (h_ p) in
      let spaces := dir_spaces to_server (h_ p) in
      '(st, count, evs) ← sem_wait_opt (recv_timeout opt) evs (k_counts k !!! items);
      let k := k_set_count items count k in
      if negb (status_ok st) then Some (RStatus st, k, evs)
      else
        let '(c, r) := recv_body (dir_channel to_server (h_ p) o k) in
        let k := k_set_mem o (set_dir_ring to_server (ring c) (k_mem k !!! o)) k in
        let k := k_set_count spaces (ShmRing.spaces c) k in
        Some (r, k, evs)
  end.

(** src/src/shm_transport.cc:430-440 [ShmPipe::close] *)
Definition shm_close (p : ShmPipe) (k : kernel) : ShmPipe * kernel :=
  if bool_decide (mem (h_ p) = None) && (shm_fd (h_ p) <? 0) then (p, k)
  else
    let '(h, k) := close_handles (h_ p) k in
    let k := if owner_ p then unlink_all (names_ p) k else k in
    (mkShmPipe h (names_ p) (owner_ p) (is_client_ p), k).

(** A pipe with the kernel it runs on and the waits to come. *)
Record shm_side := mkSide { side_pipe : ShmPipe; side_kernel : kernel; side_evs : list wait_event }.

#[export] Instance ShmPipe_ops : PipeOps shm_side := {|
  pipe_send p m opt :=
    '(st, k, evs) ← shm_send (side_pipe p) m opt (side_evs p) (side_kernel p);
    Some (mkSide (side_pipe p) k evs, st);
  pipe_recv p opt :=
    '(r, k, evs) ← shm_recv (side_pipe p) opt (side_evs p) (side_kernel p);
    Some (mkSide (side_pipe p) k evs, r);
  pipe_close p :=
    let '(q, k) := shm_close (side_pipe p) (side_kernel p) in mkSide q k (side_evs p);
|}.

(** ** Listening and dialling *)

(** src/src/shm_transport.cc:449-452 [ShmListener] *)
Record ShmListener := mkShmListener { sl_names : ShmNames; sl_fd : Z }.

(** The 16 bytes of the handshake as a [std::string], and back. *)
Definition string_of_bytes (bs : list byte) : string := String.string_of_list_byte bs.
Definition bytes_of_string (s : string) : list byte := String.list_byte_of_string s.

(** src/src/shm_transport.cc:454-468 [ShmListener::accept]

    [cfd] and [s] are what [::accept] returns. *)
Definition shm_accept (l : ShmListener) (cfd errno : Z) (s : sock) (a : resource_answers)
    (k : kernel) : option (Result ShmPipe * kernel) :=
  if sl_fd l <? 0 then Some (RStatus (closed "listener closed"), k)
  else if cfd <? 0 then
    Some (RStatus (io_error ("accept(uds bootstrap) failed" +:+ errno_suffix errno)), k)
  else
    let k := k_open_fd cfd k in
    '(st, conn, _) ← shm_read_exact s errno 16;
    let k := k_close_fd cfd k in
    if negb (status_ok st) then Some (RStatus st, k)
    else
      let n := make_names (base (sl_names l)) (string_of_bytes conn) in
      match open_resources n a k with
      | (RStatus e, k) => Some (RStatus e, k)
      | (RValue h, k) => Some (RValue (mkShmPipe h n false false), k)
      end.

(** src/src/shm_transport.cc:470-470 [ShmListener::local_address] *)
Definition shm_local_address (l : ShmListener) : Result string :=
  RValue ("shm://" +:+ base (sl_names l)).

(** src/src/shm_transport.cc:472-479 [ShmListener::close] *)
Definition shm_listener_close (l : ShmListener) (k : kernel) : ShmListener * kernel :=
  if sl_fd l >=? 0 then
    (mkShmListener (sl_names l) (-1),
     k_files_set (fun fs => fs ∖ {[bootstrap_path (sl_names l)]}) (k_close_fd (sl_fd l) k))
  else (l, k).

(** src/src/shm_transport.cc:488-493 [shm_listen] *)
Definition shm_listen (sun_path : Z) (name : string) (opt : ListenOptions) (fd errno : Z)
    (bind_ok listen_ok : bool) (k : kernel) : Result ShmListener * kernel :=
  let n := make_names name "0000000000000000" in
  match uds_listen sun_path (bootstrap_path n) fd errno bind_ok listen_ok k with
  | (RStatus e, k) => (RStatus e, k)
  | (RValue fd, k) => (RValue (mkShmListener n fd), k)
  end.

(** src/src/shm_transport.cc:495-527 [shm_dial]

    [r1] and [r2] are the draws of the random device; [cfd], [errno],
    [connect_ok] and [s] answer the calls on the rendezvous socket. *)
Definition shm_dial (sun_path : Z) (name : string) (opt : DialOptions) (r1 r2 : Z)
    (a : resource_answers) (cfd errno : Z) (connect_ok : bool) (s : sock) (k : kernel)
    : option (Result ShmPipe * kernel * sock) :=
  let conn := random_conn_id_hex16 r1 r2 in
  let n := make_names name conn in
  match create_resources n a k with
  | (RStatus e, k) => Some (RStatus e, k, s)
  | (RValue h, k) =>
      match uds_connect sun_path (bootstrap_path n) cfd errno connect_ok k with
      | (RStatus e, k) =>
          let '(_, k) := close_handles h k in
          Some (RStatus e, unlink_all n k, s)
      | (RValue fd, k) =>
          '(st, s) ← shm_write_all s errno (bytes_of_string conn);
          let k := k_close_fd fd k in
          if negb (status_ok st) then
            let '(_, k) := close_handles h k in
            Some (RStatus st, unlink_all n k, s)
          else Some (RValue (mkShmPipe h n true true), k, s)
      end
  end.

End errors.

(** ** Lemmas on the kernel *)

#[export, refine] Instance ShmPipe_laws : PipeLaws shm_side :=
  {| shut p := mem (h_ (side_pipe p)) = None /\ shm_fd (h_ (side_pipe p)) < 0 |}.
Proof.
  - intros [p k evs]. simpl. unfold shm_close.
    destruct (bool_decide (mem (h_ p) = None)) eqn:E; simpl.
    + apply bool_decide_eq_true in E. destruct (Z.ltb_spec (shm_fd (h_ p)) 0); simpl; [done|].
      destruct (geb_spec (shm_fd (h_ p)) 0); simpl; [done|lia].
    + destruct (geb_spec (shm_fd (h_ p)) 0); simpl; (split; [done|lia]).
  - intros [p k evs] [Hm Hf]. simpl in *. unfold shm_close.
    rewrite bool_decide_eq_true_2, (proj2 (Z.ltb_lt _ _)) by done. done.
  - intros [p k evs] m opt [Hm _]. simpl in *. unfold shm_send. rewrite Hm. simpl. eauto.
  - intros [p k evs] opt [Hm _]. simpl in *. unfold shm_recv. rewrite Hm. simpl. eauto.
Defined.

(** The handle a [sem_open] adds to the process, if any. *)
Definition handle_ms (o : option Z) : gmultiset Z :=
  match o with Some o => {[+ o +]} | None => ∅ end.

Lemma sem_create_frame name n g k o k' :
  sem_create name n g k = (o, k') ->
  k_shm k' = k_shm k /\ k_fds k' = k_fds k /\ k_maps k' = k_maps k /\ k_files k' = k_files k /\
  k_handles k' = k_handles k ⊎ handle_ms o /\
  (forall x, x <> c_str name -> k_sem k' !! x = k_sem k !! x).
Proof.
  unfold sem_create. destruct (k_sem k !! c_str name); [|destruct g]; simpl; intros [= <- <-]; simpl;
    split_and!; try done; try multiset_solver.
  intros x Hx. by rewrite lookup_insert_ne.
Qed.

Lemma ms_difference_empty (X : gmultiset Z) : X ∖ ∅ = X.
Proof. multiset_solver. Qed.

Lemma close_sem_frame o k :
  k_shm (close_sem o k) = k_shm k /\ k_fds (close_sem o k) = k_fds k /\
  k_maps (close_sem o k) = k_maps k /\ k_files (close_sem o k) = k_files k /\
  k_handles (close_sem o k) = k_handles k ∖ handle_ms o /\ k_sem (close_sem o k) = k_sem k.
Proof. destruct o; simpl; split_and!; try done. by rewrite ms_difference_empty. Qed.

Lemma close_handles_frame h k h' k' :
  close_handles h k = (h', k') ->
  k_shm k' = k_shm k /\ k_sem k' = k_sem k /\ k_files k' = k_files k /\
  k_fds k' = (if shm_fd h >=? 0 then k_fds k ∖ {[shm_fd h]} else k_fds k) /\
  k_maps k' = k_maps k ∖ handle_ms (mem h) /\
  k_handles k' = k_handles k ∖ handle_ms (c2s_items h) ∖ handle_ms (c2s_spaces h)
                   ∖ handle_ms (s2c_items h) ∖ handle_ms (s2c_spaces h).
Proof.
  unfold close_handles. intros [= <- <-].
  set (k1 := if shm_fd h >=? 0 then _ else _).
  pose proof (close_sem_frame (c2s_items h) k1) as (A1 & A2 & A3 & A4 & A5 & A6).
  set (k2 := close_sem (c2s_items h) k1) in *.
  pose proof (close_sem_frame (c2s_spaces h) k2) as (B1 & B2 & B3 & B4 & B5 & B6).
  set (k3 := close_sem (c2s_spaces h) k2) in *.
  pose proof (close_sem_frame (s2c_items h) k3) as (C1 & C2 & C3 & C4 & C5 & C6).
  set (k4 := close_sem (s2c_items h) k3) in *.
  pose proof (close_sem_frame (s2c_spaces h) k4) as (D1 & D2 & D3 & D4 & D5 & D6).
  rewrite D1, C1, B1, A1, D6, C6, B6, A6, D4, C4, B4, A4, D2, C2, B2, A2, D3, C3, B3, A3, D5, C5, B5, A5.
  unfold k1. destruct (mem h), (shm_fd h >=? 0); simpl; split_and!; try done;
    by rewrite ms_difference_empty.
Qed.

(** ** Names as C strings *)

Lemma c_str_chars s : str_forallb name_char s = true -> c_str s = s.
Proof.
  induction s as [|c s IH]; [done|]. cbn [str_forallb c_str]. intros H. bool_to_prop.
  rewrite IH by done. unfold name_char in *. destruct (Z.eqb_spec (ascii_code c) 0) as [E|]; [|done].
  by rewrite E in *.
Qed.

Lemma c_str_name s : (exists s', s = "/" +:+ s' /\ str_forallb name_char s' = true) -> c_str s = s.
Proof. intros (s' & -> & H). cbn. by rewrite c_str_chars. Qed.

(** The names of a connection as the kernel sees them are distinct. *)
Lemma c_names_nodup bus r1 r2 (n := make_names bus (random_conn_id_hex16 r1 r2)) :
  0 <= r1 < 2 ^ 32 -> 0 <= r2 < 2 ^ 32 ->
  NoDup [c_str (c2s_items_sem n); c_str (c2s_spaces_sem n); c_str (s2c_items_sem n); c_str (s2c_spaces_sem n)].
Proof.
  intros H1 H2. pose proof (object_names_nodup bus r1 r2 H1 H2) as Hn.
  pose proof (object_names_chars bus r1 r2 H1 H2) as Hc. unfold object_names in *. fold n in Hn, Hc.
  rewrite !Forall_cons in Hc. destruct Hc as (_ & (_ & Ha) & (_ & Hb) & (_ & Hc) & (_ & Hd) & _).
  rewrite !c_str_name by done. by apply NoDup_cons in Hn as [_ Hn].
Qed.

(** ** What creating and opening do *)

(** The connection whose objects are [o] (memory) and the four semaphores after. *)
Definition handles_at (fd o : Z) : ShmHandles :=
  mkHandles fd (Some o) (Some (o + 1)) (Some (o + 2)) (Some (o + 3)) (Some (o + 4)).

Lemma sem_create_ok name n g k o k' :
  sem_create name n g k = (Some o, k') ->
  o = k_next k /\ k_next k' = o + 1 /\ k_shm k' = k_shm k /\
  k_sem k' = <[c_str name := o]> (k_sem k) /\ k_mem k' = k_mem k /\
  k_counts k' = <[o := n]> (k_counts k).
Proof. unfold sem_create. repeat case_match; naive_solver. Qed.

Lemma some_failed_false a b c d :
  some_failed a b c d = false -> is_Some a /\ is_Some b /\ is_Some c /\ is_Some d.
Proof. destruct a, b, c, d; simpl; try done; eauto. Qed.

Lemma count_lookup (m : gmap Z Z) o x : (<[o := x]> m) !!! o = x.
Proof. apply lookup_total_insert_eq. Qed.

Lemma create_resources_ok strerror n a k h k' :
  create_resources strerror n a k = (RValue h, k') ->
  0 <= ra_fd a /\ h = handles_at (ra_fd a) (k_next k) /\
  k_shm k' = <[c_str (shm n) := k_next k]> (k_shm k) /\
  k_sem k' = <[c_str (s2c_spaces_sem n) := k_next k + 4]> (<[c_str (s2c_items_sem n) := k_next k + 3]>
    (<[c_str (c2s_spaces_sem n) := k_next k + 2]> (<[c_str (c2s_items_sem n) := k_next k + 1]> (k_sem k)))) /\
  (forall d, dir_channel d h (k_next k) k' = zero_channel).
Proof.
  unfold create_resources. unfold shm_create at 1. destruct (k_shm k !! _); [done|].
  destruct (Z.ltb_spec (ra_fd a) 0) as [|Hfd]; [done|]. cbv iota.
  destruct (ra_truncate a); [|destruct (close_handles _ _); done].
  destruct (ra_map a); [|destruct (close_handles _ _); done]. cbn [negb]. cbv zeta iota.
  destruct (sem_create _ _ _ _) as [ci k1] eqn:E1.
  destruct (sem_create _ _ _ k1) as [cs k2] eqn:E2.
  destruct (sem_create _ _ _ k2) as [si k3] eqn:E3.
  destruct (sem_create _ _ _ k3) as [ss k4] eqn:E4.
  destruct (some_failed ci cs si ss) eqn:Ef; [destruct (close_handles _ _); done|].
  apply some_failed_false in Ef as ([? ->] & [? ->] & [? ->] & [? ->]).
  apply sem_create_ok in E1 as (A1 & A2 & A3 & A4 & A5 & A6).
  apply sem_create_ok in E2 as (B1 & B2 & B3 & B4 & B5 & B6).
  apply sem_create_ok in E3 as (C1 & C2 & C3 & C4 & C5 & C6).
  apply sem_create_ok in E4 as (D1 & D2 & D3 & D4 & D5 & D6).
  cbn [k_map k_set_mem k_shm k_sem k_mem k_counts k_next] in A1, A3, A4, A5, A6.
  rewrite D1, C2, C1, B2, B1, A2, A1 in *.
  replace (k_next k + 1 + 1) with (k_next k + 2) in * by lia.
  replace (k_next k + 2 + 1) with (k_next k + 3) in * by lia.
  replace (k_next k + 3 + 1) with (k_next k + 4) in * by lia.
  intros [= <- <-]. rewrite D4, C4, B4, A4, D3, C3, B3, A3. split_and!; [done..|]. intros d.
  unfold dir_channel, zero_channel.
  rewrite D5, C5, B5, A5, D6, C6, B6, A6, lookup_total_insert_eq.
  destruct d; cbn [dir_ring dir_items dir_spaces default from_option id zero_layout c2s s2c
    c2s_items c2s_spaces s2c_items s2c_spaces];
    repeat first [rewrite count_lookup | rewrite lookup_total_insert_ne by lia]; done.
Qed.

Lemma open_resources_ok strerror n a k o ci cs si ss :
  0 <= ra_fd a -> ra_map a = true -> ra_c2s_items a = true -> ra_c2s_spaces a = true ->
  ra_s2c_items a = true -> ra_s2c_spaces a = true ->
  k_shm k !! c_str (shm n) = Some o ->
  k_sem k !! c_str (c2s_items_sem n) = Some ci -> k_sem k !! c_str (c2s_spaces_sem n) = Some cs ->
  k_sem k !! c_str (s2c_items_sem n) = Some si -> k_sem k !! c_str (s2c_spaces_sem n) = Some ss ->
  exists k', open_resources strerror n a k =
      (RValue (mkHandles (ra_fd a) (Some o) (Some ci) (Some cs) (Some si) (Some ss)), k') /\
    k_mem k' = k_mem k /\ k_counts k' = k_counts k.
Proof.
  intros Hfd Hm H1 H2 H3 H4 Ho Hci Hcs Hsi Hss. unfold open_resources, sem_open.
  rewrite (proj2 (Z.ltb_ge _ _)) by done. rewrite Ho, Hm, H1, H2, H3, H4.
  repeat (simpl; rewrite ?Hci, ?Hcs, ?Hsi, ?Hss). eauto.
Qed.

(** What a process and the name spaces hold, apart from the contents of memory. *)
Definition same_resources (k k' : kernel) : Prop :=
  k_shm k' = k_shm k /\ k_sem k' = k_sem k /\ k_fds k' = k_fds k /\ k_maps k' = k_maps k /\
  k_handles k' = k_handles k /\ k_files k' = k_files k.

(** No object of the connection exists and the descriptor is not in use. *)
Definition fresh_connection (n : ShmNames) (fd : Z) (k : kernel) : Prop :=
  k_shm k !! c_str (shm n) = None /\ k_sem k !! c_str (c2s_items_sem n) = None /\
  k_sem k !! c_str (c2s_spaces_sem n) = None /\ k_sem k !! c_str (s2c_items_sem n) = None /\
  k_sem k !! c_str (s2c_spaces_sem n) = None /\ fd ∉ k_fds k.

Lemma delete4_restore (M M' : gmap string Z) a b c d :
  (forall x, x <> a -> x <> b -> x <> c -> x <> d -> M' !! x = M !! x) ->
  M !! a = None -> M !! b = None -> M !! c = None -> M !! d = None ->
  delete d (delete c (delete b (delete a M'))) = M.
Proof.
  intros HM Ha Hb Hc Hd. apply map_eq. intros x.
  destruct (decide (x = d)) as [->|]; [by rewrite lookup_delete_eq|rewrite lookup_delete_ne by done].
  destruct (decide (x = c)) as [->|]; [by rewrite lookup_delete_eq|rewrite lookup_delete_ne by done].
  destruct (decide (x = b)) as [->|]; [by rewrite lookup_delete_eq|rewrite lookup_delete_ne by done].
  destruct (decide (x = a)) as [->|]; [by rewrite lookup_delete_eq|rewrite lookup_delete_ne by done].
  by apply HM.
Qed.

(** What the objects a successful or a late-failing creation leaves add to [k]. *)
Record created_from (n : ShmNames) (h : ShmHandles) (k k' : kernel) : Prop := {
  cf_shm : k_shm k' = <[c_str (shm n) := default 0 (mem h)]> (k_shm k);
  cf_sem : forall x, x <> c_str (c2s_items_sem n) -> x <> c_str (c2s_spaces_sem n) ->
             x <> c_str (s2c_items_sem n) -> x <> c_str (s2c_spaces_sem n) ->
             k_sem k' !! x = k_sem k !! x;
  cf_fds : 0 <= shm_fd h /\ k_fds k' = k_fds k ∪ {[shm_fd h]};
  cf_maps : k_maps k' = k_maps k ⊎ handle_ms (mem h);
  cf_handles : k_handles k' = k_handles k ⊎ handle_ms (c2s_items h) ⊎ handle_ms (c2s_spaces h)
                 ⊎ handle_ms (s2c_items h) ⊎ handle_ms (s2c_spaces h);
  cf_files : k_files k' = k_files k;
}.

(** Closing and unlinking undoes a creation. *)
Lemma cleanup_restores n h k k' h' k'' :
  fresh_connection n (shm_fd h) k -> created_from n h k k' -> close_handles h k' = (h', k'') ->
  same_resources k (unlink_all n k'').
Proof.
  intros (F1 & F2 & F3 & F4 & F5 & F6) [] Hc.
  apply close_handles_frame in Hc as (A1 & A2 & A3 & A4 & A5 & A6).
  unfold unlink_all, shm_unlink, sem_unlink, same_resources. cbn [k_shm k_sem k_fds k_maps k_handles k_files].
  rewrite A1, A2, A3, A4, A5, A6. destruct cf_fds0 as [Hfd Hfds].
  rewrite cf_shm0, cf_maps0, cf_handles0, cf_files0, Hfds. destruct (geb_spec (shm_fd h) 0); [|lia].
  split_and!; try done.
  - by rewrite delete_insert_id.
  - by apply delete4_restore.
  - set_solver.
  - multiset_solver.
  - multiset_solver.
Qed.

(** The four [sem_open]s of [create_resources], whatever they answer. *)
Lemma create_sems_created n fd k g1 g2 g3 g4 ci cs si ss k1 k2 k3 k4 :
  0 <= fd ->
  let k0 := k_set_mem (k_next k) zero_layout (k_map (k_next k) (snd (shm_create (shm n) fd k))) in
  k_shm k !! c_str (shm n) = None ->
  sem_create (c2s_items_sem n) 0 g1 k0 = (ci, k1) ->
  sem_create (c2s_spaces_sem n) kSlotCount g2 k1 = (cs, k2) ->
  sem_create (s2c_items_sem n) 0 g3 k2 = (si, k3) ->
  sem_create (s2c_spaces_sem n) kSlotCount g4 k3 = (ss, k4) ->
  created_from n (mkHandles fd (Some (k_next k)) ci cs si ss) k k4.
Proof.
  intros Hfd k0 Hf E1 E2 E3 E4.
  apply sem_create_frame in E1 as (A1 & A2 & A3 & A4 & A5 & A6).
  apply sem_create_frame in E2 as (B1 & B2 & B3 & B4 & B5 & B6).
  apply sem_create_frame in E3 as (C1 & C2 & C3 & C4 & C5 & C6).
  apply sem_create_frame in E4 as (D1 & D2 & D3 & D4 & D5 & D6).
  unfold k0, shm_create in *. rewrite Hf in *. rewrite (proj2 (Z.ltb_ge _ _)) in * by done.
  cbn in A1, A2, A3, A4, A5, A6.
  split; cbn [shm_fd mem c2s_items c2s_spaces s2c_items s2c_spaces].
  - cbn. congruence.
  - intros x N1 N2 N3 N4. by rewrite D6, C6, B6, A6.
  - split; [done|congruence].
  - cbn. congruence.
  - rewrite D5, C5, B5, A5. done.
  - congruence.
Qed.

Lemma create_resources_result strerror n a k :
  fresh_connection n (ra_fd a) k ->
  match create_resources strerror n a k with
  | (RValue h, k') => shm_fd h = ra_fd a /\ created_from n h k k'
  | (RStatus e, k') => code e = kIoError /\ same_resources k k'
  end.
Proof.
  intros Hf. pose proof Hf as (F1 & F2 & F3 & F4 & F5 & F6). unfold create_resources.
  pose proof (create_sems_created n (ra_fd a) k (ra_c2s_items a) (ra_c2s_spaces a)
                (ra_s2c_items a) (ra_s2c_spaces a)) as Hsems.
  unfold shm_create in *. rewrite F1 in *. destruct (Z.ltb_spec (ra_fd a) 0) as [|Hfd].
  { split; [done|]. unfold same_resources. done. }
  cbn [snd] in Hsems. cbv iota zeta in Hsems |- *.
  assert (Hundo : forall h' k'', close_handles
             (mkHandles (ra_fd a) None None None None None)
             (mkKernel (<[c_str (shm n) := k_next k]> (k_shm k)) (k_sem k)
               (<[k_next k := zero_layout]> (k_mem k)) (k_counts k) (k_next k + 1)
               (k_fds k ∪ {[ra_fd a]}) (k_maps k) (k_handles k) (k_files k)) = (h', k'') ->
             same_resources k (shm_unlink (shm n) k'')).
  { intros h' k''. unfold close_handles. cbn [shm_fd]. destruct (geb_spec (ra_fd a) 0); [|lia].
    intros [= <- <-]. unfold same_resources. cbn. split_and!; try done; [by rewrite delete_insert_id|set_solver]. }
  destruct (ra_truncate a); [|destruct (close_handles _ _) eqn:E; split; [done|]; by eapply Hundo].
  destruct (ra_map a); [|destruct (close_handles _ _) eqn:E; split; [done|]; by eapply Hundo].
  clear Hundo. cbn [negb]. cbv iota.
  destruct (sem_create _ _ _ _) as [ci k1] eqn:E1.
  destruct (sem_create _ _ _ k1) as [cs k2] eqn:E2.
  destruct (sem_create _ _ _ k2) as [si k3] eqn:E3.
  destruct (sem_create _ _ _ k3) as [ss k4] eqn:E4.
  pose proof (Hsems _ _ _ _ _ _ _ _ Hfd eq_refl eq_refl E2 E3 E4) as Hcr.
  destruct (some_failed ci cs si ss); [|done].
  destruct (close_handles _ _) as [h' k5] eqn:E5. split; [done|].
  by eapply cleanup_restores; [|exact Hcr|exact E5].
Qed.

Lemma created_from_socket n h k k' fd :
  created_from n h k k' -> fd ∉ k_fds k' -> created_from n h k (k_close_fd fd (k_open_fd fd k')).
Proof.
  intros [] Hfd. split; try done. split; [apply cf_fds0|]. cbn. destruct cf_fds0 as [_ <-]. set_solver.
Qed.

Lemma with_errno_ok strerror e st : st = Ok \/ status_ok st = false ->
  (status_ok (with_errno strerror e st) = true <-> st = Ok) /\
  (with_errno strerror e st = Ok \/ status_ok (with_errno strerror e st) = false).
Proof.
  intros [->|Hst]; [by split; [|left]|]. apply status_ok_false in Hst. unfold with_errno.
  destruct st as [c m]. simpl in *. destruct c; simpl; split; try (by right); try done; split; done.
Qed.

Lemma shm_write_all_spec strerror s e p :
  match shm_write_all strerror s e p with
  | None => True
  | Some (st, s') => (status_ok st = true -> so_out s' = so_out s ++ p) /\ (st = Ok \/ status_ok st = false)
  end.
Proof.
  unfold shm_write_all, write_all. pose proof (write_all_loop_spec (so_evs s) (so_in s) (so_out s) p) as H.
  destruct (write_all_loop _ _ _ _) as [st s'|]; [|done].
  destruct H as (_ & sent & rest & -> & -> & Hst & Hok). destruct (with_errno_ok strerror e st Hok) as [H1 H2].
  split; [|done]. intros Ht. apply H1, Hst in Ht as ->. by rewrite app_nil_r.
Qed.

Lemma uds_connect_cases strerror sun_path path fd e good k r k' :
  fd ∉ k_fds k -> uds_connect strerror sun_path path fd e good k = (r, k') ->
  (exists st, r = RStatus st /\ status_ok st = false /\ (k' = k \/ k' = k_close_fd fd (k_open_fd fd k))) \/
  (r = RValue fd /\ k' = k_open_fd fd k).
Proof.
  intros Hfd. unfold uds_connect. repeat case_match; intros [= <- <-]; try (by right); left;
    eexists; (split; [done|]); (split; [done|]); by (left + right).
Qed.

(** ** One side's calls on a shared channel *)

(** All handles of a connection are open, on four different semaphores. *)
Definition handles_wf (h : ShmHandles) (o : Z) : Prop :=
  mem h = Some o /\ is_Some (c2s_items h) /\ is_Some (c2s_spaces h) /\
  is_Some (s2c_items h) /\ is_Some (s2c_spaces h) /\
  NoDup [dir_items true h; dir_spaces true h; dir_items false h; dir_spaces false h].

Lemma handles_wf_distinct h o d :
  handles_wf h o -> dir_items d h <> dir_spaces d h /\
  forall d', d' <> d -> dir_items d' h <> dir_items d h /\ dir_items d' h <> dir_spaces d h /\
    dir_spaces d' h <> dir_items d h /\ dir_spaces d' h <> dir_spaces d h.
Proof.
  intros (_ & _ & _ & _ & _ & Hn). rewrite !NoDup_cons, !not_elem_of_cons in Hn.
  destruct d; (split; [naive_solver|]); intros [] ?; naive_solver.
Qed.

Lemma handles_at_wf fd o : handles_wf (handles_at fd o) o.
Proof.
  unfold handles_wf. cbn. split_and!; try done; try (by eexists).
  rewrite !NoDup_cons, !not_elem_of_cons. split_and!; try lia; try apply not_elem_of_nil. apply NoDup_nil_2.
Qed.

(** What a call that stores the ring and one count leaves in each direction. *)
Lemma dir_channel_store d h o k c v w :
  handles_wf h o ->
  (v = dir_items d h /\ w = items c /\ spaces c = k_counts k !!! dir_spaces d h \/
   v = dir_spaces d h /\ w = spaces c /\ items c = k_counts k !!! dir_items d h) ->
  let k' := k_set_count v w (k_set_mem o (set_dir_ring d (ring c) (k_mem k !!! o)) k) in
  dir_channel d h o k' = c /\ (forall d', d' <> d -> dir_channel d' h o k' = dir_channel d' h o k).
Proof.
  intros Hh Hv k'. destruct (handles_wf_distinct h o d Hh) as [H1 H2]. unfold k', dir_channel.
  cbn [k_set_count k_set_mem k_mem k_counts]. rewrite lookup_total_insert_eq. split.
  - destruct c as [r it sp], Hv as [(-> & -> & Hs)|(-> & -> & Hs)]; cbn [ring items spaces] in *;
      rewrite lookup_total_insert_eq, lookup_total_insert_ne, <- Hs by congruence; by destruct d.
  - intros d' Hd. destruct (H2 d' Hd) as (? & ? & ? & ?).
    destruct Hv as [(-> & _)|(-> & _)]; rewrite !lookup_total_insert_ne by congruence;
      by destruct d, d'.
Qed.

Lemma dir_channel_count d h o k v n d' :
  handles_wf h o -> (v = dir_items d h \/ v = dir_spaces d h) -> d' <> d ->
  dir_channel d' h o (k_set_count v n k) = dir_channel d' h o k.
Proof.
  intros Hh Hv Hd. destruct (handles_wf_distinct h o d Hh) as [_ H2].
  destruct (H2 d' Hd) as (? & ? & ? & ?). unfold dir_channel. cbn [k_set_count k_mem k_counts].
  destruct Hv as [-> | ->]; by rewrite !lookup_total_insert_ne by congruence.
Qed.

Lemma sem_wait_taken t evs n :
  sem_wait_opt t (Taken :: evs) n = if n >? 0 then Some (Ok, n - 1, evs) else None.
Proof. unfold sem_wait_opt. by destruct (t =? 0). Qed.

Lemma shm_send_quiescent p o m opt evs k q :
  handles_wf (h_ p) o -> small m -> len q < kSlotCount ->
  quiescent (dir_channel (is_client_ p) (h_ p) o k) q ->
  exists k', shm_send p m opt (Taken :: evs) k = Some (Ok, k', evs) /\
    quiescent (dir_channel (is_client_ p) (h_ p) o k') (q ++ [m]) /\
    dir_channel (negb (is_client_ p)) (h_ p) o k' = dir_channel (negb (is_client_ p)) (h_ p) o k.
Proof.
  intros Hh Hm Hl Hq. set (d := is_client_ p) in *. pose proof (quiescent_counts _ _ Hq) as (_ & Hsp & _).
  destruct (handles_wf_distinct _ _ d Hh) as [Hne _].
  unfold shm_send. rewrite (proj1 Hh). fold d.
  destruct (gtb_spec (len m) kSlotPayloadMax); [unfold small in Hm; lia|].
  rewrite sem_wait_taken. cbn [dir_channel spaces] in Hsp. rewrite Hsp.
  destruct (gtb_spec (kSlotCount - len q) 0); [|lia]. cbn [mbind option_bind].
  change (status_ok Ok) with true. cbn [negb]. cbv iota.
  set (k1 := k_set_count (dir_spaces d (h_ p)) _ k).
  destruct (send_body_quiescent _ q m Hq Hm Hl) as (c' & Hc & Hq').
  assert (Hk1 : dir_channel d (h_ p) o k1 = mkChan (ring (dir_channel d (h_ p) o k))
            (items (dir_channel d (h_ p) o k)) (spaces (dir_channel d (h_ p) o k) - 1)).
  { unfold k1, dir_channel. cbn [k_set_count k_mem k_counts ring items spaces].
    rewrite lookup_total_insert_eq, lookup_total_insert_ne by congruence. by rewrite Hsp. }
  rewrite Hk1, Hc. eexists. split; [reflexivity|].
  destruct (dir_channel_store d (h_ p) o k1 c' (dir_items d (h_ p)) (items c') Hh) as [H1 H2].
  { left. split_and!; [done..|]. unfold send_body in Hc. injection Hc as <-.
    transitivity (spaces (dir_channel d (h_ p) o k1)); [rewrite Hk1|done]. by destruct (negb _). }
  rewrite H1. split; [done|]. rewrite H2 by (by destruct d).
  apply (dir_channel_count d); [done|by right|by destruct d].
Qed.

Lemma shm_recv_quiescent p o m opt evs k q :
  handles_wf (h_ p) o ->
  quiescent (dir_channel (negb (is_client_ p)) (h_ p) o k) (m :: q) ->
  exists k', shm_recv p opt (Taken :: evs) k = Some (RValue m, k', evs) /\
    quiescent (dir_channel (negb (is_client_ p)) (h_ p) o k') q /\
    dir_channel (is_client_ p) (h_ p) o k' = dir_channel (is_client_ p) (h_ p) o k.
Proof.
  intros Hh Hq. set (d := negb (is_client_ p)) in *. pose proof (quiescent_counts _ _ Hq) as (Hit & _ & _).
  destruct (handles_wf_distinct _ _ d Hh) as [Hne _].
  unfold shm_recv. rewrite (proj1 Hh). fold d.
  rewrite sem_wait_taken. cbn [dir_channel items length] in Hit. rewrite Hit.
  destruct (gtb_spec (Z.of_nat (S (length q))) 0); [|lia]. cbn [mbind option_bind].
  change (status_ok Ok) with true. cbn [negb]. cbv iota.
  set (k1 := k_set_count (dir_items d (h_ p)) _ k).
  destruct (recv_body_quiescent _ q m Hq) as (c' & Hc & Hq').
  assert (Hk1 : dir_channel d (h_ p) o k1 = mkChan (ring (dir_channel d (h_ p) o k))
            (items (dir_channel d (h_ p) o k) - 1) (spaces (dir_channel d (h_ p) o k))).
  { unfold k1, dir_channel. cbn [k_set_count k_mem k_counts ring items spaces].
    rewrite lookup_total_insert_eq, lookup_total_insert_ne by congruence. by rewrite Hit. }
  rewrite Hk1, Hc. eexists. split; [reflexivity|].
  destruct (dir_channel_store d (h_ p) o k1 c' (dir_spaces d (h_ p)) (spaces c') Hh) as [H1 H2].
  { right. split_and!; [done..|]. unfold recv_body in Hc. destruct (_ >? _); [done|]. injection Hc as <- _.
    transitivity (items (dir_channel d (h_ p) o k1)); [by rewrite Hk1|done]. }
  rewrite H1. split; [done|]. rewrite H2 by (unfold d; by destruct (is_client_ p)).
  apply (dir_channel_count d); [done|by left|unfold d; by destruct (is_client_ p)].
Qed.

Lemma uds_connect_ok strerror sun_path path fd e good k fd' k' :
  uds_connect strerror sun_path path fd e good k = (RValue fd', k') -> k' = k_open_fd fd' k.
Proof. unfold uds_connect. repeat case_match; by intros [= <- <-]. Qed.

(** A sequence of calls, every wait taken at once. *)
Fixpoint shm_sends (p : ShmPipe) (msgs : list payload) (k : kernel) : option (list Status * kernel) :=
  match msgs with
  | [] => Some ([], k)
  | m :: msgs' =>
      '(st, k, _) ← shm_send p m (mkSendOptions 0) [Taken] k;
      '(sts, k) ← shm_sends p msgs' k;
      Some (st :: sts, k)
  end.

Fixpoint shm_recvs (p : ShmPipe) (n : nat) (k : kernel) : option (list (Result payload) * kernel) :=
  match n with
  | O => Some ([], k)
  | S n' =>
      '(r, k, _) ← shm_recv p (mkRecvOptions 0) [Taken] k;
      '(rs, k) ← shm_recvs p n' k;
      Some (r :: rs, k)
  end.

Lemma shm_sends_quiescent p o msgs k q :
  handles_wf (h_ p) o -> Forall small msgs -> len q + len msgs <= kSlotCount ->
  quiescent (dir_channel (is_client_ p) (h_ p) o k) q ->
  exists k', shm_sends p msgs k = Some (map (fun _ => Ok) msgs, k') /\
    quiescent (dir_channel (is_client_ p) (h_ p) o k') (q ++ msgs).
Proof.
  intros Hh. revert k q. induction msgs as [|m msgs IH]; intros k q Hs Hl Hq; cbn [shm_sends map].
  { exists k. by rewrite app_nil_r. }
  apply Forall_cons in Hs as [Hm Hs]. cbn [length] in Hl.
  destruct (shm_send_quiescent p o m (mkSendOptions 0) [] k q Hh Hm ltac:(lia) Hq) as (k1 & -> & Hq1 & _).
  cbn [mbind option_bind].
  destruct (IH k1 (q ++ [m]) Hs) as (k2 & -> & Hq2); [rewrite length_app; simpl; lia|done|].
  exists k2. split; [done|]. by rewrite <- app_assoc in Hq2.
Qed.

Lemma shm_recvs_quiescent p o msgs k q :
  handles_wf (h_ p) o ->
  quiescent (dir_channel (negb (is_client_ p)) (h_ p) o k) (msgs ++ q) ->
  exists k', shm_recvs p (length msgs) k = Some (map RValue msgs, k') /\
    quiescent (dir_channel (negb (is_client_ p)) (h_ p) o k') q.
Proof.
  intros Hh. revert k. induction msgs as [|m msgs IH]; intros k Hq; cbn [length shm_recvs map].
  { by exists k. }
  destruct (shm_recv_quiescent p o m (mkRecvOptions 0) [] k (msgs ++ q) Hh Hq) as (k1 & -> & Hq1 & _).
  cbn [mbind option_bind]. destruct (IH k1 Hq1) as (k2 & -> & Hq2). by exists k2.
Qed.

Lemma lookup4 (M : gmap string Z) a b c d va vb vc vd :
  NoDup [a; b; c; d] ->
  let M' := <[d := vd]> (<[c := vc]> (<[b := vb]> (<[a := va]> M))) in
  M' !! a = Some va /\ M' !! b = Some vb /\ M' !! c = Some vc /\ M' !! d = Some vd.
Proof.
  rewrite !NoDup_cons, !not_elem_of_cons. intros ((N1 & N2 & N3 & _) & (N4 & N5 & _) & (N6 & _) & _).
  split_and!; repeat (rewrite lookup_insert_eq || rewrite lookup_insert_ne by congruence); done.
Qed.

(** The kernel a successful dial leaves. *)
Lemma shm_dial_objects strerror sun_path name opt r1 r2 a cfd errno good s k p k1 s1
    (n := make_names name (random_conn_id_hex16 r1 r2)) (o := k_next k) :
  0 <= r1 < 2 ^ 32 -> 0 <= r2 < 2 ^ 32 ->
  shm_dial strerror sun_path name opt r1 r2 a cfd errno good s k = Some (RValue p, k1, s1) ->
  p = mkShmPipe (handles_at (ra_fd a) o) n true true /\
  so_out s1 = so_out s ++ bytes_of_string (connid n) /\
  k_shm k1 !! c_str (shm n) = Some o /\
  k_sem k1 !! c_str (c2s_items_sem n) = Some (o + 1) /\ k_sem k1 !! c_str (c2s_spaces_sem n) = Some (o + 2) /\
  k_sem k1 !! c_str (s2c_items_sem n) = Some (o + 3) /\ k_sem k1 !! c_str (s2c_spaces_sem n) = Some (o + 4) /\
  (forall d, dir_channel d (h_ p) o k1 = zero_channel).
Proof.
  intros H1 H2. unfold shm_dial. fold n. pose proof (c_names_nodup name r1 r2 H1 H2) as Hnd. fold n in Hnd.
  destruct (create_resources _ n a k) as [[h|e] k2] eqn:Ec; [|done].
  apply create_resources_ok in Ec as (Hfd & -> & Hshm & Hsem & Hch). fold o in Hshm, Hsem, Hch.
  destruct (uds_connect _ _ _ _ _ _ _) as [[fd|e] k3] eqn:Eu; [|by destruct (close_handles _ _)].
  pose proof (shm_write_all_spec strerror s errno (bytes_of_string (random_conn_id_hex16 r1 r2))) as Hw.
  destruct (shm_write_all _ _ _ _) as [[st s']|]; [|done]. destruct Hw as [Hw _].
  cbn [mbind option_bind]. destruct (status_ok st); [|by destruct (close_handles _ _)].
  cbn [negb]. cbv iota. intros [= <- <- <-].
  apply uds_connect_ok in Eu as ->.
  split; [done|]. split; [by apply Hw|]. cbn [k_close_fd k_open_fd k_shm k_sem].
  rewrite Hshm, Hsem. split; [by rewrite lookup_insert_eq|].
  destruct (lookup4 (k_sem k) _ _ _ _ (o + 1) (o + 2) (o + 3) (o + 4) Hnd) as (? & ? & ? & ?). done.
Qed.

Lemma shm_dial_result strerror sun_path name opt r1 r2 a cfd errno good s k :
  let n := make_names name (random_conn_id_hex16 r1 r2) in
  fresh_connection n (ra_fd a) k -> cfd ∉ k_fds k -> cfd <> ra_fd a ->
  match shm_dial strerror sun_path name opt r1 r2 a cfd errno good s k with
  | None => True
  | Some (RStatus e, k', _) => status_ok e = false /\ same_resources k k'
  | Some (RValue p, k', s') =>
      names_ p = n /\ is_client_ p = true /\ created_from n (h_ p) k k' /\
      so_out s' = so_out s ++ bytes_of_string (connid n) /\
      same_resources k (snd (shm_close p k'))
  end.
Proof.
  intros n Hf Hcfd Hne. unfold shm_dial. fold n.
  pose proof (create_resources_result strerror n a k Hf) as Hc.
  destruct (create_resources strerror n a k) as [[h|e] k1].
  2: { destruct Hc as [He Hs]. split; [|done]. apply status_ok_false. by rewrite He. }
  destruct Hc as [Hfd Hcr].
  assert (Hcfd1 : cfd ∉ k_fds k1) by (destruct (cf_fds _ _ _ _ Hcr) as [_ ->]; set_solver).
  pose proof (created_from_socket n h k k1 cfd Hcr Hcfd1) as Hcr2.
  rewrite <- Hfd in Hf.
  destruct (uds_connect _ _ _ _ _ _ _) as [r k2] eqn:E.
  apply uds_connect_cases in E as [(st & -> & Hst & Hk)|[-> ->]]; [| |done].
  - destruct (close_handles h k2) as [h' k3] eqn:Ec. split; [done|].
    destruct Hk as [-> | ->]; eauto using cleanup_restores.
  - pose proof (shm_write_all_spec strerror s errno (bytes_of_string (random_conn_id_hex16 r1 r2))) as Hw.
    destruct (shm_write_all _ _ _ _) as [[st s']|]; [|done]. destruct Hw as [Hw Hok].
    cbn [mbind option_bind]. destruct (status_ok st) eqn:Est; cbn [negb]; cbv iota.
    + split_and!; [done..|by apply Hw|]. unfold shm_close. cbn [h_ owner_ names_].
      destruct (geb_spec (shm_fd h) 0) as [Hge|Hge]; [|apply cf_fds in Hcr as [? _]; lia].
      rewrite (proj2 (Z.ltb_ge _ _)), andb_false_r by done.
      destruct (close_handles h _) as [h' k3] eqn:Ec. eauto using cleanup_restores.
    + destruct (close_handles h _) as [h' k3] eqn:Ec. split; [done|]. eauto using cleanup_restores.
Qed.


(** ** Theorems *)

(** dialling a bus leaves nothing behind when it fails. Whichever call fails
    (the object, its size, its mapping, any of the four semaphores, the
    rendezvous socket, the handshake), every name, descriptor, mapping, handle
    and file is as before; when it succeeds, the connection id is on the wire,
    the objects exist under the connection's names, and closing the pipe
    removes every trace of them. *)
Theorem shm_dial_no_leak strerror sun_path name opt r1 r2 a cfd errno good s k :
  let n := make_names name (random_conn_id_hex16 r1 r2) in
  fresh_connection n (ra_fd a) k -> cfd ∉ k_fds k -> cfd <> ra_fd a ->
  match shm_dial strerror sun_path name opt r1 r2 a cfd errno good s k with
  | None => True
  | Some (RStatus e, k', _) => status_ok e = false /\ same_resources k k'
  | Some (RValue p, k', s') =>
      names_ p = n /\ is_client_ p = true /\ created_from n (h_ p) k k' /\
      so_out s' = so_out s ++ bytes_of_string (connid n) /\
      same_resources k (snd (shm_close p k'))
  end.
Proof. exact (shm_dial_result strerror sun_path name opt r1 r2 a cfd errno good s k). Qed.

(** The answers of a system on which every call succeeds. *)
Definition good_answers (a : resource_answers) : Prop :=
  0 <= ra_fd a /\ ra_map a = true /\ ra_c2s_items a = true /\ ra_c2s_spaces a = true /\
  ra_s2c_items a = true /\ ra_s2c_spaces a = true.

Lemma list_byte_of_string_length s : length (String.list_byte_of_string s) = String.length s.
Proof. induction s as [|c s IH]; [done|]. cbn. by f_equal. Qed.

Lemma sem_create_fresh name n k :
  k_sem k !! c_str name = None -> exists k', sem_create name n true k = (Some (k_next k), k').
Proof. intros H. unfold sem_create. rewrite H. eauto. Qed.

(** No object of the connection exists. *)
Definition unused_names (n : ShmNames) (k : kernel) : Prop :=
  k_shm k !! c_str (shm n) = None /\ k_sem k !! c_str (c2s_items_sem n) = None /\
  k_sem k !! c_str (c2s_spaces_sem n) = None /\ k_sem k !! c_str (s2c_items_sem n) = None /\
  k_sem k !! c_str (s2c_spaces_sem n) = None.

Lemma create_resources_good strerror name r1 r2 a k (n := make_names name (random_conn_id_hex16 r1 r2)) :
  0 <= r1 < 2 ^ 32 -> 0 <= r2 < 2 ^ 32 -> good_answers a -> ra_truncate a = true -> unused_names n k ->
  exists h k', create_resources strerror n a k = (RValue h, k').
Proof.
  intros H1 H2 (Hfd & Hm & G1 & G2 & G3 & G4) Ht (U0 & U1 & U2 & U3 & U4).
  pose proof (c_names_nodup name r1 r2 H1 H2) as Hnd. fold n in Hnd.
  rewrite !NoDup_cons, !not_elem_of_cons in Hnd. destruct Hnd as ((N1 & N2 & N3 & _) & (N4 & N5 & _) & (N6 & _) & _).
  unfold create_resources, shm_create. rewrite U0, (proj2 (Z.ltb_ge _ _)), Ht, Hm by done. cbn [negb].
  rewrite G1, G2, G3, G4. clearbody n.
  match goal with |- context [sem_create (c2s_items_sem n) 0 true ?k0] => set (k1 := k0) end.
  assert (Hk1 : k_sem k1 = k_sem k) by done. clearbody k1.
  destruct (sem_create_fresh (c2s_items_sem n) 0 k1) as [k2 E2]; [by rewrite Hk1|].
  rewrite E2. apply sem_create_ok in E2 as (_ & _ & _ & Hk2 & _).
  destruct (sem_create_fresh (c2s_spaces_sem n) kSlotCount k2) as [k3 E3];
    [by rewrite Hk2, lookup_insert_ne, Hk1 by congruence|].
  rewrite E3. apply sem_create_ok in E3 as (_ & _ & _ & Hk3 & _).
  destruct (sem_create_fresh (s2c_items_sem n) 0 k3) as [k4 E4];
    [by rewrite Hk3, lookup_insert_ne, Hk2, lookup_insert_ne, Hk1 by congruence|].
  rewrite E4. apply sem_create_ok in E4 as (_ & _ & _ & Hk4 & _).
  destruct (sem_create_fresh (s2c_spaces_sem n) kSlotCount k4) as [k5 E5];
    [by rewrite Hk4, lookup_insert_ne, Hk3, lookup_insert_ne, Hk2, lookup_insert_ne, Hk1 by congruence|].
  rewrite E5. eauto.
Qed.

(** A dial succeeds when the system does its part: the names drawn are not in
    use, the calls succeed and the socket takes the sixteen bytes. *)
Lemma shm_dial_good strerror sun_path name opt r1 r2 a cfd errno s k (n := make_names name (random_conn_id_hex16 r1 r2)) :
  0 <= r1 < 2 ^ 32 -> 0 <= r2 < 2 ^ 32 -> good_answers a -> ra_truncate a = true -> unused_names n k ->
  0 <= cfd -> Z.of_nat (String.length (bootstrap_path n)) < sun_path ->
  live (so_evs s) -> (16 <= transfers (so_evs s))%nat ->
  exists p k1 s1, shm_dial strerror sun_path name opt r1 r2 a cfd errno true s k = Some (RValue p, k1, s1).
Proof.
  intros H1 H2 Ha Ht Hu Hcfd Hpath Hl Hx. unfold shm_dial. fold n.
  destruct (create_resources_good strerror name r1 r2 a k H1 H2 Ha Ht Hu) as (h & k1 & Hc). fold n in Hc. rewrite Hc.
  unfold uds_connect. destruct (Z.ltb_spec cfd 0); [lia|].
  rewrite Z.geb_leb, (proj2 (Z.leb_gt _ _)) by done. cbn [negb].
  unfold shm_write_all, write_all.
  destruct (write_all_loop_live (so_evs s) (so_in s) (so_out s) (bytes_of_string (random_conn_id_hex16 r1 r2)))
    as (evs' & -> & _); [done| |].
  { unfold bytes_of_string. rewrite list_byte_of_string_length, random_conn_id_length. done. }
  cbn [mbind option_bind]. change (with_errno strerror errno Ok) with Ok. change (status_ok Ok) with true.
  cbn [negb]. eauto.
Qed.

(** The server opens what the client created. *)
Lemma shm_accept_meets strerror sun_path name bus opt r1 r2 a cfd errno good s k p k1 s1
    l cfd2 errno2 a2 evs rest out :
  0 <= r1 < 2 ^ 32 -> 0 <= r2 < 2 ^ 32 ->
  shm_dial strerror sun_path name opt r1 r2 a cfd errno good s k = Some (RValue p, k1, s1) ->
  so_out s = [] -> live evs -> (16 <= transfers evs)%nat ->
  sl_names l = make_names bus "0000000000000000" -> sanitize_name bus = sanitize_name name ->
  0 <= sl_fd l -> 0 <= cfd2 -> good_answers a2 ->
  exists q k2,
    shm_accept strerror l cfd2 errno2 (mkSock evs (so_out s1 ++ rest) out) a2 k1 = Some (RValue q, k2) /\
    is_client_ p = true /\ is_client_ q = false /\ names_ q = names_ p /\
    exists o, handles_wf (h_ p) o /\ handles_wf (h_ q) o /\
      forall d k, dir_channel d (h_ q) o k = dir_channel d (h_ p) o k /\
        dir_channel d (h_ p) o k2 = zero_channel.
Proof.
  intros H1 H2 Hd Hout Hl Ht Hn Hb Hfd Hcfd (G1 & G2 & G3 & G4 & G5 & G6).
  apply shm_dial_objects in Hd as (-> & Hw & Hshm & Ha & Hbb & Hc & Hdd & Hch); [|done..].
  rewrite Hout in Hw. cbn [app] in Hw. set (n := make_names name (random_conn_id_hex16 r1 r2)) in *.
  unfold shm_accept. destruct (Z.ltb_spec (sl_fd l) 0); [lia|]. destruct (Z.ltb_spec cfd2 0); [lia|].
  unfold shm_read_exact, read_exact. cbn [so_evs so_in so_out].
  assert (Hlen : length (so_out s1) = 16%nat).
  { rewrite Hw. unfold bytes_of_string. rewrite list_byte_of_string_length. apply random_conn_id_length. }
  destruct (read_exact_loop_live evs (so_out s1 ++ rest) out [] 16 Hl Ht) as (evs' & -> & _);
    [rewrite length_app; lia|].
  cbn [mbind option_bind with_errno code app]. change (with_errno strerror errno2 Ok) with Ok.
  change (status_ok Ok) with true. cbn [negb]. cbv iota.
  assert (Hname : make_names (base (sl_names l)) (string_of_bytes (take 16 (so_out s1 ++ rest))) = n).
  { rewrite take_app_length', Hn, make_names_agree, Hw by done. unfold string_of_bytes, bytes_of_string.
    rewrite String.string_of_list_byte_of_string. unfold n, make_names. cbn [connid]. by rewrite Hb. }
  rewrite Hname. clear Hname. clearbody n.
  destruct (open_resources_ok strerror n a2 (k_close_fd cfd2 (k_open_fd cfd2 k1)) (k_next k) (k_next k + 1)
              (k_next k + 2) (k_next k + 3) (k_next k + 4)) as (k2 & -> & Hmem & Hcnt); [done..|].
  eexists _, k2. split; [reflexivity|]. split_and!; [done..|].
  exists (k_next k). cbn [h_]. split; [apply handles_at_wf|]. split; [apply (handles_at_wf (ra_fd a2))|].
  intros d k'. split; [by destruct d|]. rewrite <- (Hch d). unfold dir_channel. rewrite Hmem, Hcnt. done.
Qed.

(** C12: from dialling to delivery. When a client dials a bus and the listener of
    that bus, under any spelling of its name, accepts the handshake the client
    wrote, the two ends are connected crosswise through one object: up to 64
    messages of up to 64 KiB sent by either end before the other reads are all
    accepted and are received by the other end, unchanged and in order. *)
Theorem shm_end_to_end strerror sun_path name bus opt r1 r2 a cfd errno good s k p k1 s1
    l cfd2 errno2 a2 evs rest out msgs replies :
  0 <= r1 < 2 ^ 32 -> 0 <= r2 < 2 ^ 32 ->
  shm_dial strerror sun_path name opt r1 r2 a cfd errno good s k = Some (RValue p, k1, s1) ->
  so_out s = [] -> live evs -> (16 <= transfers evs)%nat ->
  sl_names l = make_names bus "0000000000000000" -> sanitize_name bus = sanitize_name name ->
  0 <= sl_fd l -> 0 <= cfd2 -> good_answers a2 ->
  Forall small msgs -> len msgs <= kSlotCount -> Forall small replies -> len replies <= kSlotCount ->
  exists q k2 k3 k4 k5 k6,
    shm_accept strerror l cfd2 errno2 (mkSock evs (so_out s1 ++ rest) out) a2 k1 = Some (RValue q, k2) /\
    (shm_sends p msgs k2 = Some (map (fun _ => Ok) msgs, k3) /\
     shm_recvs q (length msgs) k3 = Some (map RValue msgs, k4)) /\
    (shm_sends q replies k2 = Some (map (fun _ => Ok) replies, k5) /\
     shm_recvs p (length replies) k5 = Some (map RValue replies, k6)).
Proof.
  intros H1 H2 Hd Hout Hl Ht Hn Hb Hfd Hcfd Ha Hm Hlen Hm' Hlen'.
  destruct (shm_accept_meets strerror sun_path name bus opt r1 r2 a cfd errno good s k p k1 s1 l cfd2
              errno2 a2 evs rest out) as (q & k2 & Hacc & Hcp & Hcq & _ & o & Hp & Hq & Hch); [done..|].
  assert (Hz : forall d, dir_channel d (h_ p) o k2 = zero_channel) by (intros d; by destruct (Hch d k2)).
  assert (Hpq : forall d k', dir_channel d (h_ q) o k' = dir_channel d (h_ p) o k') by (intros d k'; by destruct (Hch d k')).
  destruct (shm_sends_quiescent p o msgs k2 []) as (k3 & Hs & Hq3); [done..|rewrite Hz; apply zero_quiescent|].
  destruct (shm_recvs_quiescent q o msgs k3 []) as (k4 & Hr & _); [done|rewrite Hcq, Hpq, app_nil_r, Hcp in *; done|].
  destruct (shm_sends_quiescent q o replies k2 []) as (k5 & Hs' & Hq5); [done..|rewrite Hpq, Hz; apply zero_quiescent|].
  destruct (shm_recvs_quiescent p o replies k5 []) as (k6 & Hr' & _);
    [done|rewrite Hcp, <- Hpq, app_nil_r, Hcq in *; done|].
  by exists q, k2, k3, k4, k5, k6.
Qed.

(** every branch of [send] on a connected pipe with [q] queued messages. An
    oversized message is refused without touching the ring; with room, the
    message goes to the end of the queue and the other direction is untouched;
    a full ring blocks, or times out leaving both directions as they were; an
    interrupted wait is repeated. *)
Theorem shm_send_branches p o m opt evs k q :
  handles_wf (h_ p) o -> quiescent (dir_channel (is_client_ p) (h_ p) o k) q ->
  (kSlotPayloadMax < len m -> exists st, shm_send p m opt evs k = Some (st, k, evs) /\ code st = kInvalidArgument) /\
  (small m -> len q < kSlotCount ->
     exists k', shm_send p m opt (Taken :: evs) k = Some (Ok, k', evs) /\
       quiescent (dir_channel (is_client_ p) (h_ p) o k') (q ++ [m]) /\
       dir_channel (negb (is_client_ p)) (h_ p) o k' = dir_channel (negb (is_client_ p)) (h_ p) o k) /\
  (small m -> len q = kSlotCount -> shm_send p m opt (Taken :: evs) k = None) /\
  (small m -> send_timeout opt <> 0 ->
     exists st k', shm_send p m opt (WaitErr ETIMEDOUT :: evs) k = Some (st, k', evs) /\
       code st = kTimeout /\ forall d, dir_channel d (h_ p) o k' = dir_channel d (h_ p) o k) /\
  (small m -> shm_send p m opt (WaitErr EINTR :: evs) k = shm_send p m opt evs k).
Proof.
  intros Hh Hq. pose proof (quiescent_counts _ _ Hq) as (_ & Hsp & _).
  assert (Hs : small m -> (len m >? kSlotPayloadMax) = false).
  { unfold small. intros. destruct (gtb_spec (len m) kSlotPayloadMax); [lia|done]. }
  split_and!.
  - intros Hm. unfold shm_send. rewrite (proj1 Hh).
    destruct (gtb_spec (len m) kSlotPayloadMax); [eauto|lia].
  - intros. by apply shm_send_quiescent.
  - intros Hm Hl. unfold shm_send. rewrite (proj1 Hh), Hs, sem_wait_taken by done.
    cbn [dir_channel spaces] in Hsp. rewrite Hsp, Hl. done.
  - intros Hm Ht. unfold shm_send, sem_wait_opt. rewrite (proj1 Hh), Hs by done.
    rewrite (proj2 (Z.eqb_neq _ _)) by done. cbn. eexists _, _. split; [reflexivity|]. split; [done|].
    intros d. unfold dir_channel. cbn [k_set_count k_mem k_counts].
    set (v := dir_spaces _ _).
    assert (Hid : forall x, <[v := k_counts k !!! v]> (k_counts k) !!! x = k_counts k !!! x).
    { intros x. destruct (decide (x = v)) as [->|]; [by rewrite lookup_total_insert_eq|].
      by rewrite lookup_total_insert_ne. }
    by rewrite !Hid.
  - intros Hm. unfold shm_send, sem_wait_opt. rewrite (proj1 Hh), Hs by done.
    by destruct (send_timeout opt =? 0).
Qed.

(** the absolute deadline of a wait is exact and normalised: for a clock
    reading with nanoseconds in range and a non-negative timeout, it is that
    many nanoseconds later and its nanoseconds are again in range. *)
Theorem to_abs_timespec_exact sec nsec dur :
  0 <= nsec < 1000000000 -> 0 <= dur ->
  let '(sec', nsec') := to_abs_timespec (sec, nsec) dur in
  0 <= nsec' < 1000000000 /\ sec' * 1000000000 + nsec' = sec * 1000000000 + nsec + ms_to_ns dur.
Proof.
  intros Hn Hd. unfold to_abs_timespec. cbn [fst snd].
  assert (0 <= ms_to_ns dur) by (unfold ms_to_ns; lia). revert H. generalize (ms_to_ns dur). intros ns Hns.
  rewrite Z.quot_div_nonneg, Z.rem_mod_nonneg by lia.
  pose proof (Z.div_mod ns 1000000000 ltac:(lia)). pose proof (Z.mod_pos_bound ns 1000000000 ltac:(lia)).
  destruct (geb_spec (nsec + ns mod 1000000000) 1000000000); lia.
Qed.

(** ** Witnesses *)

Definition no_strerror (e : Z) : string := "error".
Definition empty_kernel : kernel := mkKernel ∅ ∅ ∅ ∅ 1 ∅ ∅ ∅ ∅.
Definition all_good (fd : Z) : resource_answers := mkAnswers fd true true true true true true 0.
Definition eager_socket : sock := mkSock (replicate 20 (EvXfer 4)) [] [].

Lemma shm_dial_no_leak_witness :
  let n := make_names "bus" (random_conn_id_hex16 7 9) in
  match shm_dial no_strerror 108 "bus" DialOptions_default 7 9 (all_good 3) 4 111 false eager_socket
          empty_kernel with
  | None => True
  | Some (RStatus e, k', _) => status_ok e = false /\ same_resources empty_kernel k'
  | Some (RValue p, k', s') =>
      names_ p = n /\ is_client_ p = true /\ created_from n (h_ p) empty_kernel k' /\
      so_out s' = so_out eager_socket ++ bytes_of_string (connid n) /\
      same_resources empty_kernel (snd (shm_close p k'))
  end.
Proof.
  apply (shm_dial_no_leak no_strerror 108 "bus" DialOptions_default 7 9 (all_good 3) 4 111 false
           eager_socket empty_kernel).
  - unfold fresh_connection. repeat split; try apply lookup_empty. cbn. set_solver.
  - cbn. set_solver.
  - discriminate.
Defined.

(** A client's dial on a fresh system, with the kernel it leaves. *)
Definition dialled : option (Result ShmPipe * kernel * sock) :=
  shm_dial no_strerror 108 "bus" DialOptions_default 7 9 (all_good 3) 4 0 true eager_socket empty_kernel.
Definition dialled_pipe : ShmPipe :=
  mkShmPipe (handles_at 3 1) (make_names "bus" (random_conn_id_hex16 7 9)) true true.
Definition dialled_kernel : kernel :=
  match dialled with Some (_, k, _) => k | None => empty_kernel end.
Definition dialled_socket : sock := match dialled with Some (_, _, s) => s | None => eager_socket end.

Lemma dialled_eq :
  shm_dial no_strerror 108 "bus" DialOptions_default 7 9 (all_good 3) 4 0 true eager_socket empty_kernel =
    Some (RValue dialled_pipe, dialled_kernel, dialled_socket).
Proof.
  assert (H : match dialled with Some (RValue p, _, _) => p = dialled_pipe | _ => False end)
    by (vm_compute; reflexivity).
  unfold dialled_kernel, dialled_socket. change (shm_dial _ _ _ _ _ _ _ _ _ _ _ _) with dialled.
  destruct dialled as [[[[p|e] k] s]|]; [by subst|done..].
Qed.

Lemma dialled_zero d : dir_channel d (h_ dialled_pipe) 1 dialled_kernel = zero_channel.
Proof.
  destruct (shm_dial_objects no_strerror 108 "bus" DialOptions_default 7 9 (all_good 3) 4 0 true
    eager_socket empty_kernel dialled_pipe dialled_kernel dialled_socket) as (_ & _ & _ & _ & _ & _ & _ & H);
    [lia|lia|apply dialled_eq|apply H].
Qed.

Lemma shm_end_to_end_witness :
  exists q k2 k3 k4 k5 k6,
    shm_accept no_strerror (mkShmListener (make_names "bus" "0000000000000000") 5) 6 0
      (mkSock (replicate 16 (EvXfer 1)) (so_out dialled_socket ++ []) []) (all_good 8) dialled_kernel =
      Some (RValue q, k2) /\
    (shm_sends dialled_pipe [msg_a; []] k2 = Some ([Ok; Ok], k3) /\
     shm_recvs q 2 k3 = Some ([RValue msg_a; RValue []], k4)) /\
    (shm_sends q [msg_a] k2 = Some ([Ok], k5) /\
     shm_recvs dialled_pipe 1 k5 = Some ([RValue msg_a], k6)).
Proof.
  apply (shm_end_to_end no_strerror 108 "bus" "bus" DialOptions_default 7 9 (all_good 3) 4 0 true
           eager_socket empty_kernel dialled_pipe dialled_kernel dialled_socket
           (mkShmListener (make_names "bus" "0000000000000000") 5) 6 0 (all_good 8)
           (replicate 16 (EvXfer 1)) [] [] [msg_a; []] [msg_a]).
  - lia.
  - lia.
  - apply dialled_eq.
  - reflexivity.
  - repeat constructor.
  - vm_compute. repeat constructor.
  - reflexivity.
  - reflexivity.
  - cbn. lia.
  - lia.
  - repeat split; discriminate.
  - repeat constructor; vm_compute; discriminate.
  - vm_compute. discriminate.
  - repeat constructor; vm_compute; discriminate.
  - vm_compute. discriminate.
Defined.

Lemma shm_send_branches_witness :
  small msg_a -> len ([] : list payload) < kSlotCount ->
  exists k', shm_send dialled_pipe msg_a (mkSendOptions 0) [Taken] dialled_kernel = Some (Ok, k', []) /\
    quiescent (dir_channel true (h_ dialled_pipe) 1 k') ([] ++ [msg_a]) /\
    dir_channel false (h_ dialled_pipe) 1 k' = dir_channel false (h_ dialled_pipe) 1 dialled_kernel.
Proof.
  refine (proj1 (proj2 (shm_send_branches dialled_pipe 1 msg_a (mkSendOptions 0) [] dialled_kernel []
            (handles_at_wf 3 1) _))).
  cbn [is_client_ dialled_pipe]. change (h_ _) with (h_ dialled_pipe).
  rewrite dialled_zero. apply zero_quiescent.
Defined.

Lemma to_abs_timespec_exact_witness :
  let '(sec', nsec') := to_abs_timespec (10, 999000000) 1500 in
  0 <= nsec' < 1000000000 /\ sec' * 1000000000 + nsec' = 10 * 1000000000 + 999000000 + ms_to_ns 1500.
Proof. apply (to_abs_timespec_exact 10 999000000 1500); lia. Defined.
