(* ===== verification/WinShm.v ===== *)
(** * The shared-memory transport on Windows (src/win_shm.cc)

    The same ring as on POSIX over named file mappings and counting semaphores,
    with a named pipe for the rendezvous. A kernel object lives as long as a
    handle to it is open; creating a name that is in use opens the object in
    use. Handle values and failures are the answers of the system calls. *)

From S2P Require Import Prelude Status Options Pipe ShmRing.
From S2P Require ShmNames.

(** ** Names *)

(** src/src/win_shm.cc:31-43 [sanitize_name] *)
Definition sanitize_name : string -> string := ShmNames.sanitize_name.
(** src/src/win_shm.cc:45-51 [random_conn_id_hex16] *)
Definition random_conn_id_hex16 : Z -> Z -> string := ShmNames.random_conn_id_hex16.
(** src/src/win_shm.cc:53-60 [fnv1a_32] *)
Definition fnv1a_32 : string -> Z := ShmNames.fnv1a_32.
(** src/src/win_shm.cc:62-66 [hex8] *)
Definition hex8 : Z -> string := ShmNames.hex8.

(** src/src/win_shm.cc:69-71 [make_win_name] *)
Definition make_win_name (prefix suffix : string) : string :=
  "Duct_" +:+ prefix +:+ "_" +:+ suffix.

(** src/src/win_shm.cc:96-105 [ShmNames] *)
Record ShmNames := mkShmNames {
  base : string;
  connid : string;
  shm : string;
  n_c2s_items : string;
  n_c2s_spaces : string;
  n_s2c_items : string;
  n_s2c_spaces : string;
  bootstrap_pipe : string;
}.

(** src/src/win_shm.cc:107-126 [make_names] *)
Definition make_names (bus_name conn : string) : ShmNames :=
  let b := sanitize_name bus_name in
  let hash8 := hex8 (fnv1a_32 b) in
  let conn8 := str_take 8 conn in
  let prefix := "d" +:+ hash8 +:+ conn8 in
  mkShmNames b conn
    (make_win_name prefix "shm")
    (make_win_name prefix "c2i")
    (make_win_name prefix "c2s")
    (make_win_name prefix "s2i")
    (make_win_name prefix "s2s")
    ("\\.\pipe\duct_shm_" +:+ hash8).

(** ** The kernel *)

Definition INVALID_HANDLE_VALUE : Z := wrap64 (-1).
Definition NULL : Z := 0.

(** src/src/win_shm.cc:89-92 [ShmLayout] *)
Record ShmLayout := mkLayout { c2s : Ring; s2c : Ring }.

#[export] Instance Ring_inhabited : Inhabited Ring := populate (mkRing 0 0 []).
#[export] Instance ShmLayout_inhabited : Inhabited ShmLayout := populate (mkLayout inhabitant inhabitant).

(** The objects names were last given to, the contents of mappings, the counts of
    semaphores, the next object and the objects of the open handles. *)
Record wkernel := mkW {
  w_names : gmap string Z;
  w_mem : gmap Z ShmLayout;
  w_counts : gmap Z Z;
  w_next : Z;
  w_handles : gmap Z Z;
}.

(** The object a name refers to, while a handle keeps it alive. *)
Definition resolve (name : string) (k : wkernel) : option Z :=
  o ← w_names k !! name;
  if existsb (fun p => snd p =? o) (map_to_list (w_handles k)) then Some o else None.

Definition add_handle (h o : Z) (k : wkernel) : wkernel :=
  mkW (w_names k) (w_mem k) (w_counts k) (w_next k) (<[h := o]> (w_handles k)).
(** [CloseHandle]; closing NULL does nothing. *)
Definition close_handle (h : Z) (k : wkernel) : wkernel :=
  mkW (w_names k) (w_mem k) (w_counts k) (w_next k) (delete h (w_handles k)).
Definition set_mem (o : Z) (m : ShmLayout) (k : wkernel) : wkernel :=
  mkW (w_names k) (<[o := m]> (w_mem k)) (w_counts k) (w_next k) (w_handles k).
Definition set_count (o n : Z) (k : wkernel) : wkernel :=
  mkW (w_names k) (w_mem k) (<[o := n]> (w_counts k)) (w_next k) (w_handles k).

(** A new object under a name. *)
Definition new_object (name : string) (k : wkernel) : wkernel :=
  mkW (<[name := w_next k]> (w_names k)) (w_mem k) (w_counts k) (w_next k + 1) (w_handles k).

(** [CreateFileMappingA] and [CreateSemaphoreA]: [h] is the handle returned. *)
Definition create_mapping (name : string) (h : Z) (k : wkernel) : wkernel :=
  if h =? NULL then k
  else
    match resolve name k with
    | Some o => add_handle h o k
    | None =>
        let o := w_next k in
        add_handle h o (set_mem o (mkLayout zero_ring zero_ring) (new_object name k))
    end.
Definition create_semaphore (name : string) (initial h : Z) (k : wkernel) : wkernel :=
  if h =? NULL then k
  else
    match resolve name k with
    | Some o => add_handle h o k
    | None => let o := w_next k in add_handle h o (set_count o initial (new_object name k))
    end.
(** [OpenFileMappingA] and [OpenSemaphoreA]: the handle and the kernel; NULL when
    the name refers to nothing. *)
Definition open_object (name : string) (h : Z) (k : wkernel) : Z * wkernel :=
  if h =? NULL then (NULL, k)
  else match resolve name k with Some o => (h, add_handle h o k) | None => (NULL, k) end.

(** ** Handles and resources *)

(** src/src/win_shm.cc:150-157 [ShmHandles]

    [mem]: whether a view is mapped. *)
Record ShmHandles := mkHandles {
  shm_handle : Z;
  mem : bool;
  c2s_items : Z;
  c2s_spaces : Z;
  s2c_items : Z;
  s2c_spaces : Z;
}.
Definition no_handles (h : Z) : ShmHandles :=
  mkHandles h false INVALID_HANDLE_VALUE INVALID_HANDLE_VALUE INVALID_HANDLE_VALUE INVALID_HANDLE_VALUE.

Definition close_if_valid (h : Z) (k : wkernel) : wkernel :=
  if negb (h =? INVALID_HANDLE_VALUE) then close_handle h k else k.

(** src/src/win_shm.cc:159-186 [close_handles] *)
Definition close_handles (h : ShmHandles) (k : wkernel) : ShmHandles * wkernel :=
  let mem' := if mem h && negb (shm_handle h =? INVALID_HANDLE_VALUE) then false else mem h in
  let k := close_if_valid (shm_handle h) k in
  let k := close_if_valid (c2s_items h) k in
  let k := close_if_valid (c2s_spaces h) k in
  let k := close_if_valid (s2c_items h) k in
  let k := close_if_valid (s2c_spaces h) k in
  (mkHandles INVALID_HANDLE_VALUE mem' INVALID_HANDLE_VALUE INVALID_HANDLE_VALUE
     INVALID_HANDLE_VALUE INVALID_HANDLE_VALUE, k).

(** What [WaitForSingleObject] returns. *)
Inductive wait_answer := WAIT_OBJECT_0 | WAIT_TIMEOUT | WAIT_FAILED.

(** src/src/win_shm.cc:188-206 [wait_handle_opt]

    [wait] is [WaitForSingleObject] given the timeout in milliseconds, [None] for
    INFINITE; the count is taken from the semaphore when it returns
    WAIT_OBJECT_0, which it cannot while the count is zero. *)
Definition wait_handle_opt (timeout_ms : Z) (wait : option Z -> wait_answer) (count : Z)
    : option (Status * Z) :=
  match wait (if timeout_ms =? 0 then None else Some (wrap32 timeout_ms)) with
  | WAIT_OBJECT_0 => if count >? 0 then Some (Ok, count - 1) else None
  | WAIT_TIMEOUT => Some (timeout "wait timeout", count)
  | WAIT_FAILED => Some (io_error "WaitForSingleObject failed", count)
  end.

(** The handles the calls return (NULL on failure), whether the view is mapped,
    and the last error. *)
Record resource_answers := mkAnswers {
  ra_shm : Z;
  ra_view : bool;
  ra_c2s_items : Z;
  ra_c2s_spaces : Z;
  ra_s2c_items : Z;
  ra_s2c_spaces : Z;
  ra_error : Z;
}.

Definition any_null (a b c d : Z) : bool :=
  (a =? NULL) || (b =? NULL) || (c =? NULL) || (d =? NULL).

(** src/src/win_shm.cc:208-259 [create_resources] *)
Definition create_resources (n : ShmNames) (a : resource_answers) (k : wkernel)
    : Result ShmHandles * wkernel :=
  let k := create_mapping (shm n) (ra_shm a) k in
  if ra_shm a =? NULL then
    (RStatus (io_error ("CreateFileMapping failed with error: " +:+ to_string (ra_error a))), k)
  else if negb (ra_view a) then
    let '(_, k) := close_handles (no_handles (ra_shm a)) k in
    (RStatus (io_error "MapViewOfFile failed"), k)
  else
    let k := set_mem (default 0 (w_handles k !! ra_shm a)) (mkLayout zero_ring zero_ring) k in
    let max_count := kSlotCount in
    let k := create_semaphore (n_c2s_items n) 0 (ra_c2s_items a) k in
    let k := create_semaphore (n_c2s_spaces n) max_count (ra_c2s_spaces a) k in
    let k := create_semaphore (n_s2c_items n) 0 (ra_s2c_items a) k in
    let k := create_semaphore (n_s2c_spaces n) max_count (ra_s2c_spaces a) k in
    let h := mkHandles (ra_shm a) true (ra_c2s_items a) (ra_c2s_spaces a) (ra_s2c_items a) (ra_s2c_spaces a) in
    if any_null (c2s_items h) (c2s_spaces h) (s2c_items h) (s2c_spaces h) then
      let '(_, k) := close_handles h k in
      (RStatus (io_error ("CreateSemaphore failed with error: " +:+ to_string (ra_error a))), k)
    else (RValue h, k).

(** src/src/win_shm.cc:261-298 [open_resources] *)
Definition open_resources (n : ShmNames) (a : resource_answers) (k : wkernel)
    : Result ShmHandles * wkernel :=
  let '(hm, k) := open_object (shm n) (ra_shm a) k in
  if hm =? NULL then
    (RStatus (io_error ("OpenFileMapping failed with error: " +:+ to_string (ra_error a))), k)
  else if negb (ra_view a) then
    let '(_, k) := close_handles (no_handles hm) k in
    (RStatus (io_error "MapViewOfFile failed"), k)
  else
    let '(ci, k) := open_object (n_c2s_items n) (ra_c2s_items a) k in
    let '(cs, k) := open_object (n_c2s_spaces n) (ra_c2s_spaces a) k in
    let '(si, k) := open_object (n_s2c_items n) (ra_s2c_items a) k in
    let '(ss, k) := open_object (n_s2c_spaces n) (ra_s2c_spaces a) k in
    let h := mkHandles hm true ci cs si ss in
    if any_null ci cs si ss then
      let '(_, k) := close_handles h k in
      (RStatus (io_error ("OpenSemaphore failed with error: " +:+ to_string (ra_error a))), k)
    else (RValue h, k).

(** src/src/win_shm.cc:303-319 [create_bootstrap_pipe]

    The bootstrap pipe is not one of the named objects above; its handle refers
    to itself. *)
Definition create_bootstrap_pipe (h error : Z) (k : wkernel) : Result Z * wkernel :=
  if h =? INVALID_HANDLE_VALUE then
    (RStatus (io_error ("CreateNamedPipe failed with error: " +:+ to_string error)), k)
  else (RValue h, add_handle h (- h) k).

(** ** Pipes *)

(** src/src/win_shm.cc:321-324 [ShmPipe] *)
Record ShmPipe := mkShmPipe { h_ : ShmHandles; names_ : ShmNames; owner_ : bool; is_client_ : bool }.

(** [ReleaseSemaphore(h, 1, NULL)]: fails when the count is at its maximum. *)
Definition release (count : Z) : option Z := if count <? kSlotCount then Some (count + 1) else None.

(** src/src/win_shm.cc:328-354 [ShmPipe::send]

    On the channel the pipe's handles refer to: the ring of its sending direction
    and the counts of its two semaphores. *)
Definition win_send (p : ShmPipe) (msg : payload) (opt : SendOptions)
    (wait : option Z -> wait_answer) (error : Z) (c : channel) : option (Status * channel) :=
  if negb (mem (h_ p)) then Some (closed "pipe closed", c)
  else if len msg >? kSlotPayloadMax then
    Some (invalid_argument "message too large; fragmentation TODO", c)
  else
    '(st, count) ← wait_handle_opt (send_timeout opt) wait (spaces c);
    let c := mkChan (ring c) (items c) count in
    if negb (status_ok st) then Some (st, c)
    else
      let h := head (ring c) in
      let idx := h mod kSlotCount in
      let c := on_ring (store_len idx (wrap32 (len msg))) c in
      let c := if negb (len msg =? 0) then on_ring (store_data idx msg) c else c in
      let c := on_ring (store_head (wrap32 (h + 1))) c in
      match release (items c) with
      | None => Some (io_error ("ReleaseSemaphore(items) failed with error: " +:+ to_string error), c)
      | Some count => Some (Ok, mkChan (ring c) count (spaces c))
      end.

(** src/src/win_shm.cc:356-381 [ShmPipe::recv] *)
Definition win_recv (p : ShmPipe) (opt : RecvOptions) (wait : option Z -> wait_answer) (error : Z)
    (c : channel) : option (Result payload * channel) :=
  if negb (mem (h_ p)) then Some (RStatus (closed "pipe closed"), c)
  else
    '(st, count) ← wait_handle_opt (recv_timeout opt) wait (items c);
    let c := mkChan (ring c) count (spaces c) in
    if negb (status_ok st) then Some (RStatus st, c)
    else
      let t := tail (ring c) in
      let idx := t mod kSlotCount in
      let n := slot_len (slot_at idx (ring c)) in
      if n >? kSlotPayloadMax then Some (RStatus (protocol_error "shm slot len too large"), c)
      else
        let m := take (Z.to_nat n) (slot_data (slot_at idx (ring c))) in
        let c := on_ring (store_tail (wrap32 (t + 1))) c in
        match release (spaces c) with
        | None => Some (RStatus (io_error ("ReleaseSemaphore(spaces) failed with error: " +:+ to_string error)), c)
        | Some count => Some (RValue m, mkChan (ring c) (items c) count)
        end.

(** The object behind a handle, and one direction of a connection as the pipe's
    handles see it in the kernel. *)
Definition object_of (h : Z) (k : wkernel) : Z := default 0 (w_handles k !! h).
Definition dir_ring (to_server : bool) (l : ShmLayout) : Ring := if to_server then c2s l else s2c l.
Definition set_dir_ring (to_server : bool) (r : Ring) (l : ShmLayout) : ShmLayout :=
  if to_server then mkLayout r (s2c l) else mkLayout (c2s l) r.
Definition dir_items (to_server : bool) (h : ShmHandles) : Z := if to_server then c2s_items h else s2c_items h.
Definition dir_spaces (to_server : bool) (h : ShmHandles) : Z := if to_server then c2s_spaces h else s2c_spaces h.
Definition dir_channel (to_server : bool) (h : ShmHandles) (k : wkernel) : channel :=
  mkChan (dir_ring to_server (w_mem k !!! object_of (shm_handle h) k))
    (w_counts k !!! object_of (dir_items to_server h) k) (w_counts k !!! object_of (dir_spaces to_server h) k).
Definition put_channel (to_server : bool) (h : ShmHandles) (c : channel) (k : wkernel) : wkernel :=
  let o := object_of (shm_handle h) k in
  set_count (object_of (dir_spaces to_server h) k) (spaces c)
    (set_count (object_of (dir_items to_server h) k) (items c)
       (set_mem o (set_dir_ring to_server (ring c) (w_mem k !!! o)) k)).

(** A pipe with the kernel it runs on, how its waits will end and the last error. *)
Record win_side := mkWinSide {
  ws_pipe : ShmPipe;
  ws_kernel : wkernel;
  ws_waits : list (option Z -> wait_answer);
  ws_error : Z;
}.

(** One call on one direction of a connection, with the next wait. *)
Definition on_channel {A} (to_server : bool) (s : win_side)
    (call : (option Z -> wait_answer) -> channel -> option (A * channel)) : option (win_side * A) :=
  let h := h_ (ws_pipe s) in
  match ws_waits s with
  | [] => None
  | wait :: waits =>
      '(r, c) ← call wait (dir_channel to_server h (ws_kernel s));
      Some (mkWinSide (ws_pipe s) (put_channel to_server h c (ws_kernel s)) waits (ws_error s), r)
  end.

(** src/src/win_shm.cc:383-391 [ShmPipe::close] *)
Definition win_close (p : ShmPipe) (k : wkernel) : ShmPipe * wkernel :=
  if negb (mem (h_ p)) && (shm_handle (h_ p) =? INVALID_HANDLE_VALUE) then (p, k)
  else let '(h, k) := close_handles (h_ p) k in (mkShmPipe h (names_ p) (owner_ p) (is_client_ p), k).

(** A closed pipe answers before it looks at the rings. *)
#[export] Instance WinShmPipe_ops : PipeOps win_side := {|
  pipe_send s m opt :=
    if negb (mem (h_ (ws_pipe s))) then Some (s, closed "pipe closed")
    else on_channel (is_client_ (ws_pipe s)) s (fun wait => win_send (ws_pipe s) m opt wait (ws_error s));
  pipe_recv s opt :=
    if negb (mem (h_ (ws_pipe s))) then Some (s, RStatus (closed "pipe closed"))
    else on_channel (negb (is_client_ (ws_pipe s))) s (fun wait => win_recv (ws_pipe s) opt wait (ws_error s));
  pipe_close s :=
    let '(p, k) := win_close (ws_pipe s) (ws_kernel s) in mkWinSide p k (ws_waits s) (ws_error s);
|}.

(** ** Listening and dialling *)

(** src/src/win_shm.cc:400-403 [ShmListener] *)
Record ShmListener := mkShmListener { sl_names : ShmNames; bootstrap_pipe_ : Z }.

Definition ERROR_PIPE_CONNECTED : Z := 535.
Definition ERROR_PIPE_BUSY : Z := 231.
Definition ERROR_FILE_NOT_FOUND : Z := 2.

(** What the system answers to one accept: [ConnectNamedPipe], [ReadFile] (success
    and the bytes of the id it read) and the next [CreateNamedPipe]. *)
Record accept_answers := mkAccept {
  aa_connected : bool;
  aa_connect_error : Z;
  aa_read : option (list byte);
  aa_next : Z;
  aa_next_error : Z;
}.

Definition next_bootstrap (a : accept_answers) (k : wkernel) : Z * wkernel :=
  match create_bootstrap_pipe (aa_next a) (aa_next_error a) k with
  | (RValue h, k) => (h, k)
  | (RStatus _, k) => (INVALID_HANDLE_VALUE, k)
  end.

(** src/src/win_shm.cc:405-449 [ShmListener::accept] *)
Definition win_accept (l : ShmListener) (aa : accept_answers) (a : resource_answers) (k : wkernel)
    : Result ShmPipe * ShmListener * wkernel :=
  if bootstrap_pipe_ l =? INVALID_HANDLE_VALUE then (RStatus (closed "listener closed"), l, k)
  else
    let pipe := bootstrap_pipe_ l in
    if negb (aa_connected aa) && negb (aa_connect_error aa =? ERROR_PIPE_CONNECTED) then
      let k := close_handle pipe k in
      let '(next, k) := next_bootstrap aa k in
      (RStatus (io_error "ConnectNamedPipe failed"), mkShmListener (sl_names l) next, k)
    else
      let k := close_handle pipe k in
      let '(next, k) := next_bootstrap aa k in
      let l := mkShmListener (sl_names l) next in
      match aa_read aa with
      | None => (RStatus (io_error "Failed to read connection ID"), l, k)
      | Some id =>
          if negb (len id =? 16) then (RStatus (io_error "Failed to read connection ID"), l, k)
          else
            let n := make_names (base (sl_names l)) (String.string_of_list_byte id) in
            match open_resources n a k with
            | (RStatus e, k) => (RStatus e, l, k)
            | (RValue h, k) => (RValue (mkShmPipe h n false false), l, k)
            end
      end.

(** src/src/win_shm.cc:451-453 [ShmListener::local_address] *)
Definition win_local_address (l : ShmListener) : Result string := RValue ("shm://" +:+ base (sl_names l)).

(** src/src/win_shm.cc:455-460 [ShmListener::close] *)
Definition win_listener_close (l : ShmListener) (k : wkernel) : ShmListener * wkernel :=
  if negb (bootstrap_pipe_ l =? INVALID_HANDLE_VALUE) then
    (mkShmListener (sl_names l) INVALID_HANDLE_VALUE, close_handle (bootstrap_pipe_ l) k)
  else (l, k).

(** src/src/win_shm.cc:469-475 [shm_listen] *)
Definition shm_listen (name : string) (opt : ListenOptions) (h error : Z) (k : wkernel)
    : Result ShmListener * wkernel :=
  let n := make_names name "0000000000000000" in
  match create_bootstrap_pipe h error k with
  | (RStatus e, k) => (RStatus e, k)
  | (RValue h, k) => (RValue (mkShmListener n h), k)
  end.

(** One try of the dial: the handle [CreateFile] returns, or its error, the clock
    after it, and whether [WaitNamedPipe] succeeds with the time that remains. *)
Record try_answer := mkTry { try_handle : Z; try_error : Z; try_now : Z; try_wait : Z -> bool }.

(** src/src/win_shm.cc:494-528 [shm_dial, the connection loop]

    The connected handle, or the status it fails with, and the tries not used. *)
Fixpoint dial_loop (timeout_ms start : Z) (tries : list try_answer) : option (Result Z * list try_answer) :=
  match tries with
  | [] => None
  | t :: tries' =>
      if negb (try_handle t =? INVALID_HANDLE_VALUE) then Some (RValue (try_handle t), tries')
      else
        let elapsed := wrap64 (try_now t - start) in
        if elapsed >=? timeout_ms then
          Some (RStatus (timeout "timeout connecting to shm bootstrap pipe"), tries')
        else if try_error t =? ERROR_PIPE_BUSY then
          if negb (try_wait t (wrap32 (timeout_ms - wrap32 elapsed))) then
            Some (RStatus (timeout "timeout connecting to shm bootstrap pipe"), tries')
          else dial_loop timeout_ms start tries'
        else if try_error t =? ERROR_FILE_NOT_FOUND then dial_loop timeout_ms start tries'
        else
          Some (RStatus (io_error ("Failed to connect to named pipe with error: " +:+ to_string (try_error t))), tries')
  end.

(** src/src/win_shm.cc:477-543 [shm_dial]

    [written]: what [WriteFile] reports for the connection id, [None] on failure. *)
Definition shm_dial (name : string) (opt : DialOptions) (r1 r2 : Z) (a : resource_answers)
    (start : Z) (tries : list try_answer) (written : option Z) (k : wkernel)
    : option (Result ShmPipe * wkernel) :=
  let conn := random_conn_id_hex16 r1 r2 in
  let n := make_names name conn in
  match create_resources n a k with
  | (RStatus e, k) => Some (RStatus e, k)
  | (RValue h, k) =>
      let timeout_ms := if dial_timeout opt =? 0 then 5000 else wrap32 (dial_timeout opt) in
      '(r, _) ← dial_loop timeout_ms start tries;
      match r with
      | RStatus e => let '(_, k) := close_handles h k in Some (RStatus e, k)
      | RValue pipe =>
          let k := close_handle pipe (add_handle pipe (- pipe) k) in
          if bool_decide (written = Some (Z.of_nat (String.length conn))) then
            Some (RValue (mkShmPipe h n true true), k)
          else
            let '(_, k) := close_handles h k in
            Some (RStatus (io_error "Failed to send connection ID"), k)
      end
  end.

(** ** Lemmas *)

Lemma create_mapping_handles name h k :
  w_handles (create_mapping name h k) = w_handles k \/
  h <> NULL /\ exists o, w_handles (create_mapping name h k) = <[h := o]> (w_handles k).
Proof.
  unfold create_mapping. destruct (Z.eqb_spec h NULL); [by left|right].
  split; [done|]. destruct (resolve name k); by eexists.
Qed.

Lemma create_semaphore_handles name n h k :
  w_handles (create_semaphore name n h k) = w_handles k \/
  h <> NULL /\ exists o, w_handles (create_semaphore name n h k) = <[h := o]> (w_handles k).
Proof.
  unfold create_semaphore. destruct (Z.eqb_spec h NULL); [by left|right].
  split; [done|]. destruct (resolve name k); by eexists.
Qed.

Lemma close_if_valid_handles h k :
  h <> INVALID_HANDLE_VALUE -> w_handles (close_if_valid h k) = delete h (w_handles k).
Proof. intros Hh. unfold close_if_valid. by rewrite (proj2 (Z.eqb_neq _ _)). Qed.

Lemma close_if_valid_none k : close_if_valid INVALID_HANDLE_VALUE k = k.
Proof. unfold close_if_valid. by rewrite Z.eqb_refl. Qed.

(** Outside one key, a step that may insert there changes nothing. *)
Lemma insert_or_same (m m' : gmap Z Z) h :
  (m' = m \/ h <> NULL /\ exists o, m' = <[h := o]> m) -> forall x, x <> h -> m' !! x = m !! x.
Proof. intros [->|[_ [o ->]]] x Hx; [done|]. by rewrite lookup_insert_ne. Qed.

Lemma delete5_restore (m m' : gmap Z Z) a b c d e :
  (forall x, x <> a -> x <> b -> x <> c -> x <> d -> x <> e -> m' !! x = m !! x) ->
  m !! a = None -> m !! b = None -> m !! c = None -> m !! d = None -> m !! e = None ->
  delete e (delete d (delete c (delete b (delete a m')))) = m.
Proof.
  intros Hm Ha Hb Hc Hd He. apply map_eq. intros x.
  destruct (decide (x = e)) as [->|]; [by rewrite lookup_delete_eq|rewrite lookup_delete_ne by done].
  destruct (decide (x = d)) as [->|]; [by rewrite lookup_delete_eq|rewrite lookup_delete_ne by done].
  destruct (decide (x = c)) as [->|]; [by rewrite lookup_delete_eq|rewrite lookup_delete_ne by done].
  destruct (decide (x = b)) as [->|]; [by rewrite lookup_delete_eq|rewrite lookup_delete_ne by done].
  destruct (decide (x = a)) as [->|]; [by rewrite lookup_delete_eq|rewrite lookup_delete_ne by done].
  by apply Hm.
Qed.

(** The values the system returns as handles are not those of open handles, and
    the calls do not return INVALID_HANDLE_VALUE. *)
Definition fresh_answers (a : resource_answers) (k : wkernel) : Prop :=
  Forall (fun h => h <> INVALID_HANDLE_VALUE /\ w_handles k !! h = None)
    [ra_shm a; ra_c2s_items a; ra_c2s_spaces a; ra_s2c_items a; ra_s2c_spaces a].

(** After [create_resources] the handles of the result, and of nothing else, have
    been added; closing them restores the handle table. *)
Definition adds_handles (h : ShmHandles) (k k' : wkernel) : Prop :=
  forall k'', (forall x, x <> shm_handle h -> x <> c2s_items h -> x <> c2s_spaces h -> x <> s2c_items h ->
                 x <> s2c_spaces h -> w_handles k'' !! x = w_handles k' !! x) ->
    w_handles (snd (close_handles h k'')) = w_handles k.

Lemma win_create_resources_result n a k :
  fresh_answers a k ->
  match create_resources n a k with
  | (RValue h, k') => h = mkHandles (ra_shm a) true (ra_c2s_items a) (ra_c2s_spaces a) (ra_s2c_items a) (ra_s2c_spaces a) /\
      adds_handles h k k'
  | (RStatus e, k') => code e = kIoError /\ w_handles k' = w_handles k
  end.
Proof.
  intros Hf. unfold fresh_answers in Hf. rewrite !Forall_cons in Hf.
  destruct Hf as ([N1 F1] & [N2 F2] & [N3 F3] & [N4 F4] & [N5 F5] & _). unfold create_resources.
  pose proof (create_mapping_handles (shm n) (ra_shm a) k) as H0.
  destruct (Z.eqb_spec (ra_shm a) NULL) as [E|E].
  { split; [done|]. destruct H0 as [->|[? _]]; done. }
  set (k0 := create_mapping (shm n) (ra_shm a) k) in *.
  destruct (ra_view a); cbn [negb]; cbv iota.
  2: { unfold close_handles, no_handles. cbn [shm_handle c2s_items c2s_spaces s2c_items s2c_spaces].
    split; [done|]. rewrite !close_if_valid_none, (close_if_valid_handles (ra_shm a)) by done.
    apply map_eq. intros x. destruct (decide (x = ra_shm a)) as [->|]; [by rewrite lookup_delete_eq|].
    rewrite lookup_delete_ne by done. by rewrite (insert_or_same _ _ _ H0). }
  set (k1 := set_mem _ _ k0).
  set (k2 := create_semaphore (n_c2s_items n) 0 (ra_c2s_items a) k1).
  set (k3 := create_semaphore (n_c2s_spaces n) kSlotCount (ra_c2s_spaces a) k2).
  set (k4 := create_semaphore (n_s2c_items n) 0 (ra_s2c_items a) k3).
  set (k5 := create_semaphore (n_s2c_spaces n) kSlotCount (ra_s2c_spaces a) k4).
  set (h := mkHandles _ _ _ _ _ _).
  assert (Hadds : adds_handles h k k5).
  { intros k'' Hk. unfold close_handles, h in *. cbn [shm_handle c2s_items c2s_spaces s2c_items s2c_spaces snd] in *.
    rewrite !close_if_valid_handles by done. apply delete5_restore; try done.
    intros x X1 X2 X3 X4 X5. rewrite Hk by done.
    unfold k5. rewrite (insert_or_same _ _ _ (create_semaphore_handles _ _ _ k4)) by done.
    unfold k4. rewrite (insert_or_same _ _ _ (create_semaphore_handles _ _ _ k3)) by done.
    unfold k3. rewrite (insert_or_same _ _ _ (create_semaphore_handles _ _ _ k2)) by done.
    unfold k2. rewrite (insert_or_same _ _ _ (create_semaphore_handles _ _ _ k1)) by done.
    change (w_handles k1) with (w_handles k0). by rewrite (insert_or_same _ _ _ H0). }
  destruct (any_null _ _ _ _); [|done].
  pose proof (Hadds k5 ltac:(done)) as Hr. destruct (close_handles h k5) as [h' k6]. done.
Qed.

Lemma dial_loop_status timeout_ms start tries e tries' :
  dial_loop timeout_ms start tries = Some (RStatus e, tries') -> code e = kTimeout \/ code e = kIoError.
Proof.
  induction tries as [|t tries IH]; cbn [dial_loop]; [done|].
  repeat (case_match; try done); try (by intros [= <- _]; auto); try by intros; simplify_eq; auto.
Qed.

Lemma win_dial_result name opt r1 r2 a start tries written k :
  fresh_answers a k -> Forall (fun t => w_handles k !! try_handle t = None /\
    try_handle t ∉ [ra_shm a; ra_c2s_items a; ra_c2s_spaces a; ra_s2c_items a; ra_s2c_spaces a]) tries ->
  match shm_dial name opt r1 r2 a start tries written k with
  | None => True
  | Some (RStatus e, k') => status_ok e = false /\ w_handles k' = w_handles k
  | Some (RValue p, k') =>
      is_client_ p = true /\ mem (h_ p) = true /\ w_handles (snd (win_close p k')) = w_handles k
  end.
Proof.
  intros Hf Ht. unfold shm_dial.
  pose proof (win_create_resources_result (make_names name (random_conn_id_hex16 r1 r2)) a k Hf) as Hc.
  destruct (create_resources _ a k) as [[h|e] k1].
  2: { destruct Hc as [He Hk]. split; [|done]. apply status_ok_false. by rewrite He. }
  destruct Hc as [Hh Hadds].
  assert (Hpipe : forall k2, k2 = k1 \/ (exists p, p ∈ map try_handle tries /\ k2 = close_handle p (add_handle p (- p) k1)) ->
    w_handles (snd (close_handles h k2)) = w_handles k).
  { intros k2 [->|(p & Hp & ->)]; apply Hadds; [done|]. intros x X1 X2 X3 X4 X5. cbn.
    apply list_elem_of_fmap in Hp as (t & -> & Hp). rewrite Forall_forall in Ht. destruct (Ht t Hp) as [Hk Hnot].
    destruct (decide (x = try_handle t)) as [->|]; [|by rewrite lookup_delete_ne, lookup_insert_ne].
    rewrite lookup_delete_eq. symmetry. clear Hp Ht. pose proof (Hadds k1 ltac:(done)) as Hr.
    rewrite <- Hr in Hk. rewrite Hh in Hk, X1, X2, X3, X4, X5.
    unfold fresh_answers in Hf. rewrite !Forall_cons in Hf. destruct Hf as ([? _] & [? _] & [? _] & [? _] & [? _] & _).
    unfold close_handles in Hk. cbn [shm_handle c2s_items c2s_spaces s2c_items s2c_spaces snd] in *.
    rewrite !close_if_valid_handles, !lookup_delete_ne in Hk by done. done. }
  destruct (dial_loop _ start tries) as [[r tries']|] eqn:Ed; [|done]. cbn [mbind option_bind].
  destruct r as [pipe|e].
  - assert (Hin : pipe ∈ map try_handle tries).
    { clear -Ed. revert Ed. generalize (if dial_timeout opt =? 0 then 5000 else wrap32 (dial_timeout opt)).
      intros tm. induction tries as [|t tries IH]; cbn [dial_loop map]; [done|].
      rewrite elem_of_cons. repeat case_match; intros; simplify_eq; auto. }
    case_bool_decide.
    + split; [done|]. split; [by rewrite Hh|]. unfold win_close. cbn [h_ names_].
      rewrite Hh at 1. cbn [mem negb andb]. pose proof (Hpipe _ (or_intror (ex_intro _ pipe (conj Hin eq_refl)))) as Hr.
      destruct (close_handles h _). done.
    + pose proof (Hpipe _ (or_intror (ex_intro _ pipe (conj Hin eq_refl)))) as Hr.
      destruct (close_handles h _). done.
  - pose proof (Hpipe k1 (or_introl eq_refl)) as Hr. destruct (close_handles h k1). split; [|done].
    apply status_ok_false. apply dial_loop_status in Ed as [-> | ->]; done.
Qed.

(** ** Theorems *)

(** client and server agree on the names on Windows too, and a client that
    spells the bus differently but to the same sanitized name reaches the same
    bootstrap pipe. *)
Theorem win_names_agree bus bus' c :
  sanitize_name bus' = sanitize_name bus ->
  make_names (base (make_names bus "0000000000000000")) c = make_names bus' c /\
  bootstrap_pipe (make_names bus' c) = bootstrap_pipe (make_names bus "0000000000000000").
Proof.
  intros Hb. unfold make_names, sanitize_name in *. cbn [base].
  by rewrite ShmNames.sanitize_idem, Hb.
Qed.

(** dialling on Windows leaks no handle. Whatever fails (the mapping, its view,
    a semaphore, the rendezvous pipe, the handshake), every handle opened on the
    way is closed again and the failure is an error status; when it succeeds,
    closing the pipe closes them all. *)
Theorem win_dial_no_leak name opt r1 r2 a start tries written k :
  fresh_answers a k -> Forall (fun t => w_handles k !! try_handle t = None /\
    try_handle t ∉ [ra_shm a; ra_c2s_items a; ra_c2s_spaces a; ra_s2c_items a; ra_s2c_spaces a]) tries ->
  match shm_dial name opt r1 r2 a start tries written k with
  | None => True
  | Some (RStatus e, k') => status_ok e = false /\ w_handles k' = w_handles k
  | Some (RValue p, k') =>
      is_client_ p = true /\ mem (h_ p) = true /\ w_handles (snd (win_close p k')) = w_handles k
  end.
Proof. exact (win_dial_result name opt r1 r2 a start tries written k). Qed.

(** the dial loop ends in time: as soon as one of the tries succeeds or finds
    the clock past the timeout, the loop has returned, at that try or before. *)
Theorem win_dial_loop_returns timeout_ms start tries1 t tries2 :
  try_handle t <> INVALID_HANDLE_VALUE \/ wrap64 (try_now t - start) >= timeout_ms ->
  exists r used rest, dial_loop timeout_ms start (tries1 ++ t :: tries2) = Some (r, rest) /\
    tries1 ++ t :: tries2 = used ++ rest /\ (length used <= S (length tries1))%nat.
Proof.
  intros Ht. induction tries1 as [|t1 tries1 IH]; cbn [app dial_loop].
  - destruct (Z.eqb_spec (try_handle t) INVALID_HANDLE_VALUE) as [E|E]; cbn [negb].
    2: { by exists (RValue (try_handle t)), [t], tries2. }
    destruct Ht as [|Ht]; [done|]. destruct (geb_spec (wrap64 (try_now t - start)) timeout_ms); [|lia].
    by eexists _, [t], tries2.
  - destruct IH as (r & used & rest & IH & Hu & Hl).
    repeat case_match; try (by eexists _, [t1], (tries1 ++ t :: tries2); cbn; split_and!; [done|done|lia]);
      (exists r, (t1 :: used), rest; cbn; split_and!; [done|by rewrite Hu|lia]).
Qed.

(** the Windows calls move messages as the POSIX ones do: with the semaphore
    granted, [send] on a ring with room queues the message at the end and [recv]
    returns the first one, and releasing the other semaphore never fails. *)
Theorem win_send_recv p m opt ropt wait error c q :
  mem (h_ p) = true -> (forall t, wait t = WAIT_OBJECT_0) -> quiescent c q ->
  (small m -> len q < kSlotCount ->
     exists c', win_send p m opt wait error c = Some (Ok, c') /\ quiescent c' (q ++ [m])) /\
  (forall m' q', q = m' :: q' ->
     exists c', win_recv p ropt wait error c = Some (RValue m', c') /\ quiescent c' q').
Proof.
  intros Hm Hw Hq. destruct (quiescent_counts _ _ Hq) as (Hit & Hsp & _). split.
  - intros Hs Hl. destruct (send_body_quiescent c q m Hq Hs Hl) as (c' & Hc & Hq').
    exists c'. split; [|done]. unfold win_send, wait_handle_opt. rewrite Hm, Hw. cbn [negb].
    destruct (gtb_spec (len m) kSlotPayloadMax); [unfold small in Hs; lia|].
    destruct (gtb_spec (spaces c) 0); [|lia]. cbn [mbind option_bind]. change (status_ok Ok) with true. cbn [negb].
    unfold send_body in Hc. injection Hc as Hc. subst c'. unfold release.
    destruct (negb (len m =? 0)); cbn [on_ring items ring spaces];
      (destruct (Z.ltb_spec (items c) kSlotCount); [done|lia]).
  - intros m' q' ->. destruct (recv_body_quiescent c q' m' Hq) as (c' & Hc & Hq').
    exists c'. split; [|done]. cbn [length] in *. unfold win_recv, wait_handle_opt. rewrite Hm, Hw. cbn [negb].
    destruct (gtb_spec (items c) 0); [|lia]. cbn [mbind option_bind]. change (status_ok Ok) with true. cbn [negb].
    unfold recv_body in Hc. cbn [ring] in *. destruct (_ >? kSlotPayloadMax); [done|]. injection Hc as Hc Hm'.
    unfold release. cbn [on_ring items ring spaces]. destruct (Z.ltb_spec (spaces c) kSlotCount); [|lia].
    rewrite <- Hc, <- Hm'. done.
Qed.

Definition no_kernel : wkernel := mkW ∅ ∅ ∅ 1 ∅.
Definition some_answers : resource_answers := mkAnswers 1 true 2 3 4 5 0.
Definition busy_then_connected : list try_answer :=
  [mkTry INVALID_HANDLE_VALUE ERROR_PIPE_BUSY 10 (fun _ => true); mkTry 6 0 20 (fun _ => true)].

Lemma win_names_agree_witness :
  make_names (base (make_names "a/b" "0000000000000000")) "00112233" = make_names "a:b" "00112233" /\
  bootstrap_pipe (make_names "a:b" "00112233") = bootstrap_pipe (make_names "a/b" "0000000000000000").
Proof. apply (win_names_agree "a/b" "a:b" "00112233"). vm_compute. reflexivity. Defined.

Lemma win_dial_no_leak_witness :
  match shm_dial "bus" DialOptions_default 1 2 some_answers 0 busy_then_connected (Some 16) no_kernel with
  | None => True
  | Some (RStatus e, k') => status_ok e = false /\ w_handles k' = w_handles no_kernel
  | Some (RValue p, k') =>
      is_client_ p = true /\ mem (h_ p) = true /\ w_handles (snd (win_close p k')) = w_handles no_kernel
  end.
Proof.
  apply (win_dial_no_leak "bus" DialOptions_default 1 2 some_answers 0 busy_then_connected (Some 16) no_kernel).
  - repeat constructor; vm_compute; congruence.
  - repeat constructor; cbn; set_solver.
Defined.

Lemma win_dial_loop_returns_witness :
  exists r used rest, dial_loop 5000 0 busy_then_connected = Some (r, rest) /\
    busy_then_connected = used ++ rest /\ (length used <= 2)%nat.
Proof.
  apply (win_dial_loop_returns 5000 0 [mkTry INVALID_HANDLE_VALUE ERROR_PIPE_BUSY 10 (fun _ => true)]
    (mkTry 6 0 20 (fun _ => true)) []).
  left. vm_compute. congruence.
Defined.

Definition some_pipe : ShmPipe := mkShmPipe (mkHandles 1 true 2 3 4 5) (make_names "bus" "00112233") true true.

Lemma win_send_recv_witness :
  (small [Byte.x01] -> len (@nil payload) < kSlotCount ->
     exists c', win_send some_pipe [Byte.x01] (mkSendOptions 0) (fun _ => WAIT_OBJECT_0) 0 zero_channel = Some (Ok, c') /\
       quiescent c' [[Byte.x01]]) /\
  (forall m' q', [] = m' :: q' ->
     exists c', win_recv some_pipe (mkRecvOptions 0) (fun _ => WAIT_OBJECT_0) 0 zero_channel = Some (RValue m', c') /\
       quiescent c' q').
Proof.
  apply (win_send_recv some_pipe [Byte.x01] (mkSendOptions 0) (mkRecvOptions 0) (fun _ => WAIT_OBJECT_0) 0 zero_channel []);
    [reflexivity|reflexivity|exact zero_quiescent].
Defined.
