(* ===== verification/Qos.v ===== *)
(** * The quality-of-service pipe (include/duct/qos_pipe.h, src/qos_pipe.cc)

    [QosPipe] wraps any pipe with a send queue and a worker thread that drains
    it. [send] runs on the callers' threads, [send_worker] on its own; both hold
    the mutex, the worker also while it is inside the wrapped pipe's [send]. The
    operations are functions of the object's state, over any implementation of
    the Pipe interface; the step relation interleaves callers, worker and
    [close]. The clock is an argument of the operations that read it. *)

From S2P Require Import Prelude Status Options Pipe.

(** src/include/duct/qos_pipe.h:17-23 [QueuedMessage] *)
Record QueuedMessage := mkQueued { qm_message : payload; qm_timestamp : Z }.

Section qos.
Context {P : Type} `{PipeOps P}.

(** src/include/duct/qos_pipe.h:25-52 [QosPipe]

    [send_bytes] and [send_count] are 64-bit unsigned atomics. *)
Record QosPipe := mkQos {
  underlying : P;
  qos : QosOptions;
  send_queue : list QueuedMessage;
  running : bool;
  send_bytes : Z;
  send_count : Z;
}.

(** src/src/qos_pipe.cc:7-11 [QosPipe::QosPipe] *)
Definition QosPipe_make (u : P) (q : QosOptions) : QosPipe := mkQos u q [] true 0 0.

Definition set_queue (queue : list QueuedMessage) (bytes count : Z) (s : QosPipe) : QosPipe :=
  mkQos (underlying s) (qos s) queue (running s) bytes count.
Definition set_running (b : bool) (s : QosPipe) : QosPipe :=
  mkQos (underlying s) (qos s) (send_queue s) b (send_bytes s) (send_count s).
Definition set_underlying (u : P) (s : QosPipe) : QosPipe :=
  mkQos u (qos s) (send_queue s) (running s) (send_bytes s) (send_count s).

(** Whether a message queued at [t] has outlived its time to live at [now]. *)
Definition expired (s : QosPipe) (now t : Z) : bool := now - t >? ms_to_ns (ttl (qos s)).

(** src/src/qos_pipe.cc:20-36 [QosPipe::can_send_message] *)
Definition can_send_message (s : QosPipe) (now : Z) (m : QueuedMessage) : bool :=
  if (ttl (qos s) >? 0) && expired s now (qm_timestamp m) then false
  else if send_bytes s >=? snd_hwm_bytes (qos s) then false
  else true.

(** [remove_if] of the expired messages, with the counters its predicate
    updates. *)
Fixpoint remove_expired (s : QosPipe) (now : Z) (queue : list QueuedMessage) (bytes count : Z)
    : list QueuedMessage * Z * Z :=
  match queue with
  | [] => ([], bytes, count)
  | m :: queue' =>
      if expired s now (qm_timestamp m) then
        remove_expired s now queue' (wrap64 (bytes - len (qm_message m))) (wrap64 (count - 1))
      else
        let '(kept, b, c) := remove_expired s now queue' bytes count in (m :: kept, b, c)
  end.

(** src/src/qos_pipe.cc:47-63 [QosPipe::send_worker, expiry] *)
Definition worker_expire (now : Z) (s : QosPipe) : QosPipe :=
  if ttl (qos s) >? 0 then
    let '(queue, bytes, count) := remove_expired s now (send_queue s) (send_bytes s) (send_count s) in
    set_queue queue bytes count s
  else s.

(** What one pass of the worker's loop comes to once it holds the mutex. *)
Inductive worker_pass :=
| WExit                        (* leaves the loop *)
| WWait                        (* waits on the condition variable *)
| WAgain                       (* nothing to send, or not allowed to: loops *)
| WSend (m : payload).         (* calls the wrapped pipe's [send] *)

(** src/src/qos_pipe.cc:38-71 [QosPipe::send_worker, up to the call of send]

    [now] and [now'] are the clock readings of the expiry and of the check. *)
Definition worker_pass_of (now now' : Z) (s : QosPipe) : QosPipe * worker_pass :=
  if negb (running s) then (s, WExit)
  else
    match send_queue s with
    | [] => (s, WWait)
    | _ :: _ =>
        let s := worker_expire now s in
        match send_queue s with
        | [] => (s, WAgain)
        | m :: _ => if can_send_message s now' m then (s, WSend (qm_message m)) else (s, WAgain)
        end
    end.

(** src/src/qos_pipe.cc:71-100 [QosPipe::send_worker, the call of send]

    [None] while the wrapped pipe's [send] has not returned; the mutex is held
    throughout. *)
Definition worker_send (m : payload) (s : QosPipe) : option (QosPipe * Status) :=
  '(u, result) ← pipe_send (underlying s) m (mkSendOptions 0);
  let s := set_underlying u s in
  Some
    (if status_ok result then
       set_queue (drop 1 (send_queue s)) (wrap64 (send_bytes s - len m)) (wrap64 (send_count s - 1)) s
     else if bool_decide (code result = kClosed \/ code result = kIoError) then set_running false s
     else s,
     result).

(** What [send] comes to on one holding of the mutex: it returns, it queues the
    message and returns Ok, or it waits. *)
Inductive send_outcome :=
| SReturn (st : Status) (s : QosPipe)
| SQueued (s : QosPipe)
| SWait.

(** src/src/qos_pipe.cc:147-155 [QosPipe::send, the enqueue] *)
Definition send_enqueue (now : Z) (msg : payload) (s : QosPipe) : send_outcome :=
  SQueued (set_queue (send_queue s ++ [mkQueued msg now]) (wrap64 (send_bytes s + len msg))
             (wrap64 (send_count s + 1)) s).

(** src/src/qos_pipe.cc:104-112 [QosPipe::send, before the lock] *)
Definition send_check (msg : payload) (s : QosPipe) : option Status :=
  if negb (running s) then Some (closed "pipe closed")
  else if len msg >? snd_hwm_bytes (qos s) then
    Some (invalid_argument "message too large for queue limits")
  else None.

(** The predicate of the wait of a blocked sender. *)
Definition block_pred (s : QosPipe) : bool :=
  (send_bytes s <? snd_hwm_bytes (qos s)) || negb (running s).

(** src/src/qos_pipe.cc:135-143 [QosPipe::send, kBlock]

    [timed_out]: the deadline of [wait_for] has passed. *)
Definition send_block (timed_out : bool) (now : Z) (msg : payload) (s : QosPipe) : send_outcome :=
  if negb (block_pred s) && negb timed_out then SWait
  else if send_bytes s >=? snd_hwm_bytes (qos s) then
    SReturn (timeout "send queue full (timeout)") s
  else send_enqueue now msg s.

(** src/src/qos_pipe.cc:114-155 [QosPipe::send, with the lock] *)
Definition send_locked (timed_out : bool) (now : Z) (msg : payload) (s : QosPipe) : send_outcome :=
  if send_bytes s >=? snd_hwm_bytes (qos s) then
    match backpressure (qos s) with
    | kFailFast => SReturn (io_error "send queue at high water mark (fail fast)") s
    | kDropNew => SReturn Ok s
    | kDropOld =>
        let s :=
          match send_queue s with
          | [] => s
          | m :: queue =>
              set_queue queue (wrap64 (send_bytes s - len (qm_message m))) (wrap64 (send_count s - 1)) s
          end in
        send_enqueue now msg s
    | kBlock => send_block timed_out now msg s
    end
  else send_enqueue now msg s.

(** src/src/qos_pipe.cc:158-160 [QosPipe::recv] *)
Definition qos_recv (s : QosPipe) (opt : RecvOptions) : option (QosPipe * Result payload) :=
  '(u, r) ← pipe_recv (underlying s) opt; Some (set_underlying u s, r).

(** src/src/qos_pipe.cc:162-169 [QosPipe::close]

    Its two parts: under the mutex, and the wrapped pipe's [close] after it. *)
Definition close_locked (s : QosPipe) : QosPipe := set_running false s.
Definition close_underlying (s : QosPipe) : QosPipe := set_underlying (pipe_close (underlying s)) s.
Definition qos_close (s : QosPipe) : QosPipe := close_underlying (close_locked s).

(** ** Callers, worker and close, interleaved *)

(** The worker: in its loop without the mutex, in the wrapped pipe's [send] with
    the mutex held, or gone. *)
Inductive worker_pc := WLoop | WSending (m : payload) | WExited.

(** The object, its worker, the sends that have passed the checks before the
    lock or wait for space, whether [close] has yet to close the wrapped pipe,
    and, in order, the messages accepted into the queue and those the wrapped
    pipe accepted. *)
Record qos_state := mkQS {
  obj : QosPipe;
  worker : worker_pc;
  entered : list payload;
  accepted : list payload;
  sent : list payload;
}.

Definition qos_start (u : P) (q : QosOptions) : qos_state :=
  mkQS (QosPipe_make u q) WLoop [] [] [].

Inductive qos_step : qos_state -> qos_state -> Prop :=
(* a call of send passes its checks, which do not take the mutex *)
| q_enter s w en acc snt msg :
    send_check msg s = None ->
    qos_step (mkQS s w en acc snt) (mkQS s w (msg :: en) acc snt)
(* it, or a waiting sender that is woken or times out, runs with the mutex *)
| q_return s w en1 en2 acc snt msg timed_out now st s' :
    (forall m, w <> WSending m) -> send_locked timed_out now msg s = SReturn st s' ->
    qos_step (mkQS s w (en1 ++ msg :: en2) acc snt) (mkQS s' w (en1 ++ en2) acc snt)
| q_queue s w en1 en2 acc snt msg timed_out now s' :
    (forall m, w <> WSending m) -> send_locked timed_out now msg s = SQueued s' ->
    qos_step (mkQS s w (en1 ++ msg :: en2) acc snt)
      (mkQS s' w (en1 ++ en2) (acc ++ [msg]) snt)
(* the worker takes the mutex for a pass *)
| q_pass s en acc snt now now' s' r :
    worker_pass_of now now' s = (s', r) ->
    qos_step (mkQS s WLoop en acc snt)
      (mkQS s' (match r with WExit => WExited | WSend m => WSending m | _ => WLoop end) en acc snt)
(* the wrapped pipe's send returns *)
| q_sent s m en acc snt s' st :
    worker_send m s = Some (s', st) ->
    qos_step (mkQS s (WSending m) en acc snt)
      (mkQS s' (if running s' then WLoop else WExited) en acc
         (snt ++ if status_ok st then [m] else []))
(* a receiver, which does not take the mutex *)
| q_recv s w en acc snt opt s' r :
    qos_recv s opt = Some (s', r) ->
    qos_step (mkQS s w en acc snt) (mkQS s' w en acc snt)
(* close takes the mutex, and later closes the wrapped pipe without it *)
| q_close s w en acc snt :
    (forall m, w <> WSending m) ->
    qos_step (mkQS s w en acc snt) (mkQS (close_locked s) w en acc snt)
| q_close_underlying s w en acc snt :
    running s = false ->
    qos_step (mkQS s w en acc snt) (mkQS (close_underlying s) w en acc snt).

Definition reachable (u : P) (q : QosOptions) : qos_state -> Prop := rtc qos_step (qos_start u q).

(** ** The invariants *)

Definition queued_bytes (s : QosPipe) : Z := sum_sizes (fun m => len (qm_message m)) (send_queue s).
Definition queued (s : QosPipe) : list payload := map qm_message (send_queue s).

(** The counters are the queue's; the message being sent is the queue's first. *)
Record qos_inv (s : qos_state) : Prop := {
  inv_bytes : send_bytes (obj s) = wrap64 (queued_bytes (obj s));
  inv_count : send_count (obj s) = wrap64 (len (send_queue (obj s)));
  inv_sending : forall m, worker s = WSending m -> exists q, queued (obj s) = m :: q;
  inv_order : sublist (sent s ++ queued (obj s)) (accepted s);
}.

(** ** Lemmas *)

Definition unexpired (s : QosPipe) (now : Z) (queue : list QueuedMessage) : list QueuedMessage :=
  List.filter (fun m => negb (expired s now (qm_timestamp m))) queue.

Abbreviation bytes_of := (sum_sizes (fun m => len (qm_message m))).

Lemma wrap64_sub_l a b c : wrap64 (wrap64 (a + (b + c)) - b) = wrap64 (a + c).
Proof. rewrite wrap_sub_l. f_equal. lia. Qed.

Lemma remove_expired_spec s now queue x y :
  remove_expired s now queue (wrap64 (x + bytes_of queue)) (wrap64 (y + len queue)) =
    (unexpired s now queue, wrap64 (x + bytes_of (unexpired s now queue)),
     wrap64 (y + len (unexpired s now queue))).
Proof.
  revert x y. induction queue as [|m queue IH]; intros x y; [done|].
  cbn [remove_expired unexpired List.filter length]. fold (unexpired s now queue). rewrite sum_sizes_cons.
  destruct (expired s now (qm_timestamp m)); cbn [negb].
  - rewrite wrap64_sub_l, wrap_sub_l. rewrite <- IH. f_equal. f_equal. lia.
  - replace (x + (len (qm_message m) + bytes_of queue)) with ((x + len (qm_message m)) + bytes_of queue) by lia.
    replace (y + Z.of_nat (S (length queue))) with ((y + 1) + len queue) by lia.
    rewrite IH, sum_sizes_cons. cbn [length]. f_equal; [f_equal|]; f_equal; lia.
Qed.

Lemma unexpired_sublist s now queue : sublist (unexpired s now queue) queue.
Proof. induction queue as [|m queue IH]; simpl; [done|]. by destruct (negb _); constructor. Qed.

(** The counters agree with the queue. *)
Definition counted (s : QosPipe) : Prop :=
  send_bytes s = wrap64 (queued_bytes s) /\ send_count s = wrap64 (len (send_queue s)).

Lemma worker_expire_spec now s :
  counted s ->
  counted (worker_expire now s) /\
  send_queue (worker_expire now s) =
    (if ttl (qos s) >? 0 then unexpired s now (send_queue s) else send_queue s) /\
  qos (worker_expire now s) = qos s /\ running (worker_expire now s) = running s /\
  underlying (worker_expire now s) = underlying s.
Proof.
  intros [Hb Hc]. unfold worker_expire. destruct (ttl (qos s) >? 0); [|done].
  unfold queued_bytes in Hb. rewrite Hb, Hc.
  rewrite <- (Z.add_0_l (bytes_of (send_queue s))), <- (Z.add_0_l (len (send_queue s))), remove_expired_spec.
  split_and!; done.
Qed.

Lemma counted_pop s m q :
  counted s -> send_queue s = m :: q ->
  counted (set_queue q (wrap64 (send_bytes s - len (qm_message m))) (wrap64 (send_count s - 1)) s).
Proof.
  intros [Hb Hc] Hq. unfold counted, queued_bytes in *. cbn [set_queue send_queue send_bytes send_count]. rewrite Hb, Hc, Hq, !wrap_sub_l, sum_sizes_cons.
  cbn [length]. split; f_equal; lia.
Qed.

Lemma counted_push s m t :
  counted s ->
  counted (set_queue (send_queue s ++ [mkQueued m t]) (wrap64 (send_bytes s + len m))
             (wrap64 (send_count s + 1)) s).
Proof.
  intros [Hb Hc]. unfold counted, queued_bytes in *. cbn [set_queue send_queue send_bytes send_count]. rewrite Hb, Hc, !wrap_add_l, sum_sizes_app, sum_sizes_cons, length_app.
  cbn [length qm_message]. split; f_equal; [|lia]. change (bytes_of []) with 0. lia.
Qed.

(** Every way a locked pass of [send] can queue a message: the queue before it,
    less its first message under kDropOld at the mark, and the message. *)
Lemma send_locked_queued timed_out now msg s s' :
  counted s -> send_locked timed_out now msg s = SQueued s' ->
  counted s' /\ qos s' = qos s /\ running s' = running s /\ underlying s' = underlying s /\
  exists kept, send_queue s' = kept ++ [mkQueued msg now] /\
    ((send_bytes s < snd_hwm_bytes (qos s) /\ kept = send_queue s) \/
     (snd_hwm_bytes (qos s) <= send_bytes s /\ backpressure (qos s) = kDropOld /\ kept = drop 1 (send_queue s))).
Proof.
  intros Hs. unfold send_locked, send_block, send_enqueue.
  destruct (geb_spec (send_bytes s) (snd_hwm_bytes (qos s))) as [Hge|Hlt].
  2: { intros [= <-]. split; [by apply counted_push|]. split_and!; try done.
       exists (send_queue s). split; [done|]. left. split; [lia|done]. }
  destruct (backpressure (qos s)) eqn:Ebp; try done; [by destruct (_ && _)|].
  intros [= <-]. destruct (send_queue s) as [|m q] eqn:Eq.
  - split; [by apply counted_push|]. split_and!; try done. exists []. rewrite Eq. split; [done|]. by right.
  - split; [apply (counted_push (set_queue q _ _ s)), (counted_pop s m q Hs Eq)|].
    split_and!; try done. exists q. split; [done|]. by right.
Qed.

Lemma send_locked_return timed_out now msg s st s' :
  send_locked timed_out now msg s = SReturn st s' -> s' = s.
Proof. unfold send_locked, send_block, send_enqueue. by repeat case_match; intros; simplify_eq. Qed.

Lemma worker_pass_spec now now' s s' r :
  counted s -> worker_pass_of now now' s = (s', r) ->
  counted s' /\ qos s' = qos s /\ running s' = running s /\ underlying s' = underlying s /\
  sublist (send_queue s') (send_queue s) /\ (ttl (qos s) <= 0 -> s' = s) /\
  (forall m, r = WSend m -> running s = true /\ send_bytes s' < snd_hwm_bytes (qos s) /\
     exists t q, send_queue s' = mkQueued m t :: q) /\
  (r = WExit -> running s = false).
Proof.
  intros Hs. unfold worker_pass_of. destruct (running s) eqn:Er; simpl.
  2: { intros [= <- <-]. split_and!; done. }
  destruct (send_queue s) as [|m0 q0] eqn:Eq.
  { intros [= <- <-]. rewrite Eq. split_and!; done. }
  destruct (worker_expire_spec now s Hs) as (H1 & H2 & H3 & H4 & H5).
  assert (Hsub : sublist (send_queue (worker_expire now s)) (m0 :: q0)).
  { rewrite H2, Eq. destruct (_ >? _); [apply unexpired_sublist|done]. }
  assert (Hid : ttl (qos s) <= 0 -> worker_expire now s = s).
  { intros Ht. unfold worker_expire. destruct (gtb_spec (ttl (qos s)) 0); [lia|done]. }
  rewrite Er in H4.
  destruct (send_queue (worker_expire now s)) as [|m q] eqn:Eq'.
  { intros [= <- <-]. rewrite Eq'. split_and!; done. }
  destruct (can_send_message _ _ _) eqn:Ecan; intros [= <- <-]; rewrite Eq'; split_and!; try done.
  intros m' [= <-]. split; [done|]. split; [|destruct m; simpl; by eexists _, _].
  unfold can_send_message in Ecan. rewrite H3 in Ecan.
  destruct (_ && _); [done|]. destruct (geb_spec (send_bytes (worker_expire now s)) (snd_hwm_bytes (qos s))); [done|lia].
Qed.

Lemma worker_send_spec m s s' st :
  counted s -> worker_send m s = Some (s', st) -> (exists q, queued s = m :: q) ->
  counted s' /\ qos s' = qos s /\
  (status_ok st = true -> queued s = m :: queued s' /\ running s' = running s) /\
  (status_ok st = false -> queued s' = queued s /\ queued_bytes s' = queued_bytes s /\
     (running s' = true -> running s = true)).
Proof.
  intros Hs Hw [q Hq]. unfold worker_send in Hw.
  destruct (pipe_send _ _ _) as [[u r]|]; cbn [mbind option_bind] in Hw; [|done].
  injection Hw as <- <-. destruct (send_queue s) as [|qm0 q0] eqn:Eq; [unfold queued in Hq; by rewrite Eq in Hq|].
  unfold queued in Hq |- *. rewrite Eq in Hq |- *. cbn [map] in Hq. injection Hq as Hm Hq. subst m.
  destruct (status_ok r) eqn:Er.
  - split; [|split_and!; done]. pose proof (counted_pop s qm0 q0 Hs Eq) as Hc. by destruct s.
  - unfold queued_bytes. case_bool_decide; cbn; rewrite ?Eq; split_and!; done.
Qed.

Lemma queued_snoc s q m t : send_queue s = q ++ [mkQueued m t] -> queued s = map qm_message q ++ [m].
Proof. intros E. unfold queued. rewrite E, map_app. done. Qed.

Lemma sublist_map {A B} (f : A -> B) l k : sublist l k -> sublist (map f l) (map f k).
Proof. induction 1; simpl; by constructor. Qed.

Lemma sum_sizes_sublist {A} (f : A -> Z) l k :
  (forall a, 0 <= f a) -> sublist l k -> sum_sizes f l <= sum_sizes f k.
Proof. intros Hf. induction 1 as [|x l k _ IH|x l k _ IH]; rewrite ?sum_sizes_cons; [done|lia|]. specialize (Hf x). lia. Qed.

Lemma qos_step_inv s s' : qos_inv s -> qos_step s s' -> qos_inv s'.
Proof.
  intros [I1 I2 I3 I4] Hst. assert (Hc : counted (obj s)) by done. clear I1 I2.
  destruct Hst as [s w en acc snt msg Hck|s w en1 en2 acc snt msg b now st s' Hw Hl
    |s w en1 en2 acc snt msg b now s' Hw Hl|s en acc snt now now' s' r Hp|s m en acc snt s' st Hp
    |s w en acc snt opt s' r Hr|s w en acc snt Hw|s w en acc snt Hr]; cbn [obj worker accepted sent] in *.
  - split; try done; apply Hc.
  - apply send_locked_return in Hl as ->. split; try done; apply Hc.
  - apply send_locked_queued in Hl as (Hc' & _ & _ & _ & kept & Hq & Hk); [|done].
    split; cbn [obj worker accepted sent]; try apply Hc'.
    + intros m Hm. by apply Hw in Hm.
    + rewrite (queued_snoc _ _ _ _ Hq), app_assoc. apply sublist_app; [|done].
      etrans; [|exact I4]. apply sublist_app; [done|].
      destruct Hk as [[_ ->]|(_ & _ & ->)]; [done|apply sublist_map, sublist_drop].
  - apply worker_pass_spec in Hp as (Hc' & _ & _ & _ & Hsub & _ & Hsend & _); [|done].
    split; cbn [obj worker accepted sent]; try apply Hc'.
    + intros m Hm. destruct r; try done. injection Hm as ->.
      destruct (Hsend m eq_refl) as (_ & _ & t & q & Hq). unfold queued. rewrite Hq. by eexists.
    + etrans; [|exact I4]. apply sublist_app; [done|]. by apply sublist_map.
  - apply worker_send_spec in Hp as (Hc' & _ & Hok & Hbad); [|done|by apply I3].
    split; cbn [obj worker accepted sent]; try apply Hc'.
    + by destruct (running s').
    + destruct (status_ok st).
      * destruct (Hok eq_refl) as [E _]. rewrite E in I4. by rewrite <- app_assoc.
      * destruct (Hbad eq_refl) as (E & _). by rewrite app_nil_r, E.
  - unfold qos_recv in Hr. destruct (pipe_recv _ _) as [[u v]|]; [|done]. injection Hr as <- <-.
    split; try done; apply Hc.
  - split; try done; apply Hc.
  - split; try done; apply Hc.
Qed.

Lemma qos_reachable_inv u q s : reachable u q s -> qos_inv s.
Proof.
  intros Hr. eapply rtc_invariant; [apply qos_step_inv|exact Hr|].
  split; done.
Qed.


(** ** What the steps keep *)

Definition not_sending (w : worker_pc) : Prop := forall m, w <> WSending m.

Lemma not_sending_loop : not_sending WLoop. Proof. done. Qed.
Lemma not_sending_exited : not_sending WExited. Proof. done. Qed.

Lemma qos_step_const s s' : qos_inv s -> qos_step s s' -> qos (obj s') = qos (obj s).
Proof.
  intros [I1 I2 I3 _] Hst. assert (Hc : counted (obj s)) by done. destruct Hst; cbn [obj worker] in *; try done.
  - by apply send_locked_return in H1 as ->.
  - by apply send_locked_queued in H1 as (_ & ? & _).
  - by apply worker_pass_spec in H0 as (_ & ? & _).
  - by apply worker_send_spec in H0 as (_ & ? & _); [| |apply I3].
  - unfold qos_recv in H0. by destruct (pipe_recv _ _) as [[? ?]|]; simplify_eq/=.
Qed.

Lemma reachable_qos u q s : reachable u q s -> qos_inv s /\ qos (obj s) = q.
Proof.
  intros Hr. split; [by eapply qos_reachable_inv|].
  eapply (rtc_invariant qos_step (fun s => qos_inv s /\ qos (obj s) = q)); [|exact Hr|].
  - intros s1 s2 [Hi Hq] Hst. split; [by eapply qos_step_inv|]. by rewrite (qos_step_const s1 s2).
  - split; done.
Qed.

(** Options under which no message is discarded on purpose. *)
Definition lossless (q : QosOptions) : Prop := ttl q <= 0 /\ backpressure q <> kDropOld.

Lemma lossless_step s s' :
  qos_inv s -> lossless (qos (obj s)) -> sent s ++ queued (obj s) = accepted s -> qos_step s s' ->
  sent s' ++ queued (obj s') = accepted s'.
Proof.
  intros [I1 I2 I3 _] [Ht Hb] Heq Hst. assert (Hc : counted (obj s)) by done.
  destruct Hst; cbn [obj worker accepted sent] in *; try done.
  - by apply send_locked_return in H1 as ->.
  - apply send_locked_queued in H1 as (_ & _ & _ & _ & kept & Hq & [[_ ->]|(_ & ? & _)]); [|done..].
    by rewrite (queued_snoc _ _ _ _ Hq), <- Heq, app_assoc.
  - apply worker_pass_spec in H0 as (_ & _ & _ & _ & _ & Hid & _); [|done]. by rewrite Hid.
  - apply worker_send_spec in H0 as (_ & _ & Hok & Hbad); [|done|by apply I3].
    destruct (status_ok st).
    + destruct (Hok eq_refl) as [E _]. by rewrite <- Heq, E, <- app_assoc.
    + destruct (Hbad eq_refl) as (E & _). by rewrite app_nil_r, E.
  - unfold qos_recv in H0. by destruct (pipe_recv _ _) as [[? ?]|]; simplify_eq/=.
Qed.

Lemma lossless_reachable u q s :
  lossless q -> reachable u q s -> sent s ++ queued (obj s) = accepted s.
Proof.
  intros Hl Hr.
  eapply (rtc_invariant qos_step (fun s => (qos_inv s /\ qos (obj s) = q) /\ sent s ++ queued (obj s) = accepted s));
    [|exact Hr|].
  - intros s1 s2 [[Hi Hq] He] Hst. split; [split|].
    + by eapply qos_step_inv.
    + by rewrite (qos_step_const s1 s2).
    + eapply lossless_step; [done| |done..]. by rewrite Hq.
  - split; [split|]; done.
Qed.

(** A queue at the mark: nothing moves any more. *)
Definition stalled (s : qos_state) : Prop :=
  qos_inv s /\ lossless (qos (obj s)) /\ not_sending (worker s) /\
  snd_hwm_bytes (qos (obj s)) <= send_bytes (obj s).

Lemma stalled_step s s' :
  stalled s -> qos_step s s' -> stalled s' /\ sent s' = sent s /\ accepted s' = accepted s.
Proof.
  intros (Hi & Hl & Hw & Hb) Hst. pose proof (qos_step_inv _ _ Hi Hst) as Hi'.
  pose proof (qos_step_const _ _ Hi Hst) as Hq. unfold stalled. rewrite Hq.
  assert (Hc : counted (obj s)) by (split; apply Hi). clear Hi Hq. destruct Hl as [Ht Hbp].
  destruct Hst; cbn [obj worker accepted sent] in *.
  - done.
  - by apply send_locked_return in H1 as ->.
  - apply send_locked_queued in H1 as (_ & _ & _ & _ & kept & _ & [[? _]|(_ & ? & _)]); [lia|done..].
  - apply worker_pass_spec in H0 as (_ & _ & _ & _ & _ & Hid & Hsend & _); [|done].
    rewrite Hid in * by done. destruct r; try done.
    destruct (Hsend m eq_refl) as (_ & ? & _). lia.
  - by destruct (Hw m).
  - unfold qos_recv in H0. by destruct (pipe_recv _ _) as [[? ?]|]; simplify_eq/=.
  - done.
  - done.
Qed.

Lemma stalled_forever s s' :
  stalled s -> rtc qos_step s s' -> stalled s' /\ sent s' = sent s /\ accepted s' = accepted s.
Proof.
  intros Hs Hr. eapply (rtc_invariant qos_step (fun s' => stalled s' /\ sent s' = sent s /\ accepted s' = accepted s));
    [|exact Hr|done].
  intros s1 s2 (H1 & H2 & H3) Hst. destruct (stalled_step _ _ H1 Hst) as (? & ? & ?). split_and!; congruence || done.
Qed.

(** A stopped worker sends nothing. *)
Lemma stopped_step s s' :
  running (obj s) = false /\ not_sending (worker s) -> qos_inv s -> qos_step s s' ->
  (running (obj s') = false /\ not_sending (worker s')) /\ sent s' = sent s.
Proof.
  intros [Hr Hw] Hi Hst. assert (Hc : counted (obj s)) by (split; apply Hi).
  destruct Hst; cbn [obj worker accepted sent] in *; try done.
  - by apply send_locked_return in H1 as ->.
  - apply send_locked_queued in H1 as (_ & _ & -> & _); done.
  - unfold worker_pass_of in H0. rewrite Hr in H0. cbn in H0. by injection H0 as <- <-.
  - by destruct (Hw m).
  - unfold qos_recv in H0. by destruct (pipe_recv _ _) as [[? ?]|]; simplify_eq/=.
Qed.

(** Queued bytes stay below twice the mark. *)
Definition bounded (hwm : Z) (s : qos_state) : Prop :=
  queued_bytes (obj s) < 2 * hwm /\ Forall (fun m => len m <= hwm) (entered s).

Lemma bounded_step s s' (hwm := snd_hwm_bytes (qos (obj s))) :
  qos_inv s -> backpressure (qos (obj s)) <> kDropOld -> hwm < 2 ^ 63 -> bounded hwm s ->
  qos_step s s' -> bounded hwm s'.
Proof.
  intros Hi Hb Hh [Hq He] Hst. assert (Hc : counted (obj s)) by (split; apply Hi).
  assert (H0q : 0 <= queued_bytes (obj s)) by (apply sum_sizes_nonneg; lia).
  assert (Hsb : send_bytes (obj s) = queued_bytes (obj s)).
  { rewrite (proj1 Hc). apply wrap_small. lia. }
  unfold bounded. destruct Hst; cbn [obj worker entered] in *.
  - split; [done|]. constructor; [|done]. unfold send_check in H0.
    destruct (negb _); [done|]. fold hwm in H0. destruct (gtb_spec (len msg) hwm); [done|lia].
  - apply send_locked_return in H1 as ->. split; [done|]. rewrite Forall_app, Forall_cons in *. tauto.
  - apply send_locked_queued in H1 as (_ & _ & _ & _ & kept & E & [[? ->]|(_ & ? & _)]); [|done..].
    rewrite Forall_app, Forall_cons in He. split; [|rewrite Forall_app; tauto].
    unfold queued_bytes in *. rewrite E, sum_sizes_app, sum_sizes_cons. cbn [qm_message].
    change (bytes_of []) with 0. destruct He as (_ & Hm & _). unfold hwm in *. lia.
  - apply worker_pass_spec in H0 as (_ & _ & _ & _ & Hsub & _); [|done]. split; [|done].
    pose proof (sum_sizes_sublist (fun m => len (qm_message m)) _ _ (fun a => Nat2Z.is_nonneg _) Hsub).
    unfold queued_bytes in *. lia.
  - pose proof (inv_sending _ Hi m eq_refl) as Hhd. apply worker_send_spec in H0 as (_ & _ & Hok & Hbad); [|done..].
    split; [|done]. destruct (status_ok st).
    + destruct (Hok eq_refl) as [E _]. unfold queued_bytes, queued in *.
      enough (bytes_of (send_queue s') <= bytes_of (send_queue s)) by lia.
      destruct (send_queue s) as [|qm q]; [done|]. cbn [map] in E. injection E as _ E.
      rewrite sum_sizes_cons. enough (bytes_of (send_queue s') = bytes_of q) by lia.
      clear -E. revert q E. induction (send_queue s') as [|a l IH]; intros [|b q] E; try done.
      cbn [map] in E. injection E as E1 E2. rewrite !sum_sizes_cons, E1. by rewrite (IH q).
    + by destruct (Hbad eq_refl) as (_ & -> & _).
  - unfold qos_recv in H0. by destruct (pipe_recv _ _) as [[? ?]|]; simplify_eq/=.
  - done.
  - done.
Qed.

Lemma bounded_reachable u q s :
  backpressure q <> kDropOld -> 0 < snd_hwm_bytes q < 2 ^ 63 -> reachable u q s ->
  bounded (snd_hwm_bytes q) s.
Proof.
  intros Hb Hh Hr.
  eapply (rtc_invariant qos_step (fun s => (qos_inv s /\ qos (obj s) = q) /\ bounded (snd_hwm_bytes q) s));
    [|exact Hr|].
  - intros s1 s2 [[Hi <-] Hbd] Hst. split; [split|].
    + by eapply qos_step_inv.
    + by apply qos_step_const.
    + eapply bounded_step; [done..|lia|done|done].
  - split; [split; [split|]; done|]. split; [|constructor]. cbn. lia.
Qed.

(** The two steps of a worker that sends the first message. *)
Lemma worker_sends s en acc snt m t q :
  running s = true -> counted s -> send_queue s = mkQueued m t :: q -> ttl (qos s) <= 0 ->
  send_bytes s < snd_hwm_bytes (qos s) ->
  (exists u', pipe_send (underlying s) m (mkSendOptions 0) = Some (u', Ok)) ->
  exists u', let s' := set_queue q (wrap64 (send_bytes s - len m)) (wrap64 (send_count s - 1)) (set_underlying u' s) in
    counted s' /\ rtc qos_step (mkQS s WLoop en acc snt) (mkQS s' WLoop en acc (snt ++ [m])).
Proof.
  intros Hr Hc Hq Ht Hb [u' Hu]. exists u'. intros s'. split.
  { pose proof (counted_pop s _ q Hc Hq) as Hc'. by destruct s. }
  eapply rtc_l; [apply (q_pass s en acc snt 0 0 s (WSend m))|].
  - assert (Et : (ttl (qos s) >? 0) = false) by (destruct (gtb_spec (ttl (qos s)) 0); [lia|done]).
    unfold worker_pass_of, worker_expire, can_send_message. rewrite Hr, Hq, Et, Hq. cbn. rewrite Et. cbn.
    destruct (geb_spec (send_bytes s) (snd_hwm_bytes (qos s))); [lia|done].
  - assert (Hw : worker_send m s = Some (s', Ok)).
    { unfold worker_send. rewrite Hu. cbn. unfold s'. by rewrite Hq. }
    pose proof (q_sent s m en acc snt s' Ok Hw) as Hst. cbn in Hst. rewrite Hr in Hst.
    exact (rtc_once _ _ Hst).
Qed.

Lemma worker_drains queue : forall s en acc snt,
  send_queue s = queue -> running s = true -> counted s -> ttl (qos s) <= 0 ->
  queued_bytes s < snd_hwm_bytes (qos s) -> snd_hwm_bytes (qos s) < 2 ^ 64 ->
  (forall u m, exists u', pipe_send u m (mkSendOptions 0) = Some (u', Ok)) ->
  exists s', rtc qos_step (mkQS s WLoop en acc snt)
      (mkQS s' WLoop en acc (snt ++ map qm_message queue)) /\ send_queue s' = [].
Proof.
  induction queue as [|[m t] q IH]; intros s en acc snt Hq Hr Hc Ht Hb Hh Hok.
  { exists s. rewrite app_nil_r. split; [apply rtc_refl|done]. }
  assert (Hqb : queued_bytes s = len m + bytes_of q) by (unfold queued_bytes; by rewrite Hq, sum_sizes_cons).
  assert (0 <= bytes_of q) by (apply sum_sizes_nonneg; lia).
  assert (Hsb : send_bytes s = queued_bytes s) by (rewrite (proj1 Hc); apply wrap_small; lia).
  destruct (worker_sends s en acc snt m t q Hr Hc Hq Ht) as (u' & Hc' & Hst); [lia|apply Hok|].
  destruct (IH (set_queue q (wrap64 (send_bytes s - len m)) (wrap64 (send_count s - 1)) (set_underlying u' s))
              en acc (snt ++ [m])) as (s' & Hst' & Hq'); [done..| |done|done|].
  { unfold queued_bytes in *. cbn [send_queue set_queue qos set_underlying]. lia. }
  exists s'. split; [|done]. eapply rtc_trans; [exact Hst|]. by rewrite <- app_assoc in Hst'.
Qed.

(** A first message that the wrapped pipe never accepts stays first: nothing is
    sent any more. *)
Definition blocked_on (m : payload) (s : qos_state) : Prop :=
  qos_inv s /\ lossless (qos (obj s)) /\ exists q, queued (obj s) = m :: q.

Lemma blocked_step m s s' :
  refuses (P := P) m -> blocked_on m s -> qos_step s s' -> blocked_on m s' /\ sent s' = sent s.
Proof.
  intros Hm (Hi & Hl & q & Hq) Hst. pose proof (qos_step_inv _ _ Hi Hst) as Hi'.
  pose proof (qos_step_const _ _ Hi Hst) as Hqos. unfold blocked_on. rewrite Hqos.
  assert (Hc : counted (obj s)) by (split; apply Hi). pose proof (inv_sending _ Hi) as Hhd. destruct Hl as [Ht Hbp].
  enough ((exists q', queued (obj s') = m :: q') /\ sent s' = sent s) as [? ?] by done. clear Hi Hi' Hqos.
  destruct Hst; cbn [obj worker accepted sent] in *; try (split; [by eexists|done]).
  - apply send_locked_return in H1 as ->. split; [by eexists|done].
  - apply send_locked_queued in H1 as (_ & _ & _ & _ & kept & E & [[_ ->]|(_ & ? & _)]); [|done..].
    rewrite (queued_snoc _ _ _ _ E). split; [|done]. fold (queued s). rewrite Hq. by eexists.
  - apply worker_pass_spec in H0 as (_ & _ & _ & _ & _ & Hid & _); [|done]. rewrite Hid by done. split; [by eexists|done].
  - destruct (Hhd _ eq_refl) as [q0 Hq0]. rewrite Hq in Hq0. injection Hq0 as <- <-.
    assert (Hst : status_ok st = false).
    { unfold worker_send in H0. destruct (pipe_send _ _ _) as [[u r]|] eqn:Eu; [|done]. cbn in H0. injection H0 as _ <-. by eapply Hm. }
    apply worker_send_spec in H0 as (_ & _ & _ & Hbad); [|done|by eexists].
    destruct (Hbad Hst) as (-> & _). rewrite Hst, app_nil_r. split; [by eexists|done].
  - unfold qos_recv in H0. destruct (pipe_recv _ _) as [[? ?]|]; simplify_eq/=. split; [by eexists|done].
Qed.

Lemma blocked_forever m s s' :
  refuses (P := P) m -> blocked_on m s -> rtc qos_step s s' -> blocked_on m s' /\ sent s' = sent s.
Proof.
  intros Hm Hb Hr. eapply (rtc_invariant qos_step (fun s' => blocked_on m s' /\ sent s' = sent s)); [|exact Hr|done].
  intros s1 s2 [H1 H2] Hst. destruct (blocked_step m s1 s2 Hm H1 Hst). split; [done|congruence].
Qed.

(** An empty pipe takes a message below the mark. *)
Lemma first_message u q m :
  0 < snd_hwm_bytes q -> len m <= snd_hwm_bytes q -> 
  exists s, reachable u q s /\ accepted s = [m] /\ queued (obj s) = [m] /\ running (obj s) = true /\ sent s = [].
Proof.
  intros H0 Hl.
  exists (mkQS (set_queue [mkQueued m 0] (wrap64 (0 + len m)) (wrap64 (0 + 1)) (QosPipe_make u q)) WLoop [] [m] []).
  split; [|done]. eapply rtc_l; [apply (q_enter _ _ _ _ _ m)|apply rtc_once].
  - unfold send_check. cbn. destruct (gtb_spec (len m) (snd_hwm_bytes q)); [lia|done].
  - apply (q_queue (QosPipe_make u q) WLoop [] [] [] [] m false 0); [done|].
    unfold send_locked. cbn. destruct (geb_spec 0 (snd_hwm_bytes q)); [lia|done].
Qed.

(** The worker runs while it is inside a send, and stops when one reports the
    connection lost. *)
Lemma worker_send_underlying m s s' st :
  worker_send m s = Some (s', st) ->
  pipe_send (underlying s) m (mkSendOptions 0) = Some (underlying s', st) /\
  (running s' = true -> running s = true /\ (status_ok st = true \/ ~ connection_lost st)).
Proof.
  unfold worker_send, connection_lost. destruct (pipe_send _ _ _) as [[u r]|] eqn:Eu; [|done]. cbn. intros [= <- <-].
  destruct (status_ok r); [by split; [|intros; split; [|left]]|].
  case_bool_decide as Hd; cbn; [done|]. split; [done|]. intros Hr. split; [done|by right].
Qed.

Definition sending_runs (s : qos_state) : Prop := not_sending (worker s) \/ running (obj s) = true.

Lemma sending_runs_step s s' : qos_inv s -> sending_runs s -> qos_step s s' -> sending_runs s'.
Proof.
  intros Hi Hs Hst. assert (Hc : counted (obj s)) by (split; apply Hi).
  destruct Hst; unfold sending_runs in *; cbn [obj worker] in *; try done; try (by left).
  - apply worker_pass_spec in H0 as (_ & _ & -> & _ & _ & _ & Hsend & _); [|done].
    destruct r; try by left. right. by destruct (Hsend m eq_refl).
  - by destruct (running s'); left.
  - destruct Hs as [Hs|Hs]; [by left|right]. unfold qos_recv in H0.
    destruct (pipe_recv _ _) as [[u v]|]; [|done]. by injection H0 as <- _.
Qed.

(** Over a carrier, while the pipe runs, what is on its way is what was sent. *)
Lemma carries_step `{!Carrier P} c l s1 s2 :
  qos_inv s1 -> (running (obj s1) = true -> carries c (underlying (obj s1)) (l ++ sent s1)) -> qos_step s1 s2 ->
  running (obj s2) = true -> carries c (underlying (obj s2)) (l ++ sent s2).
Proof.
  intros Hi Hcar Hst. assert (Hc : counted (obj s1)) by (split; apply Hi).
  destruct Hst; cbn [obj worker accepted sent] in *; try done.
  - by apply send_locked_return in H1 as ->.
  - by apply send_locked_queued in H1 as (_ & _ & -> & -> & _).
  - by apply worker_pass_spec in H0 as (_ & _ & -> & -> & _).
  - intros Hrun. apply worker_send_underlying in H0 as [Hu Hr]. destruct (Hr Hrun) as [Hrun1 Hst'].
    pose proof (carries_send _ _ _ _ _ _ _ (Hcar Hrun1) Hu) as Hnew.
    destruct (status_ok st); [by rewrite app_assoc|]. rewrite app_nil_r. destruct Hnew as [?|?]; [done|].
    by destruct Hst'.
  - unfold qos_recv in H0. destruct (pipe_recv _ _) as [[u' v]|] eqn:Eu; [|done]. injection H0 as <- _.
    intros Hrun. by eapply carries_recv; [apply Hcar|exact Eu].
  - intros Hrun. cbn in Hrun. congruence.
Qed.

Lemma qos_carries `{!Carrier P} c u l q x :
  carries c u l -> reachable u q x -> running (obj x) = true -> carries c (underlying (obj x)) (l ++ sent x).
Proof.
  intros Hu Hr.
  eapply (rtc_invariant qos_step (fun s => qos_inv s /\ (running (obj s) = true -> carries c (underlying (obj s)) (l ++ sent s))));
    [|exact Hr|split; [done|cbn; by rewrite app_nil_r]].
  intros s1 s2 [Hi Hcar] Hst. split; [by eapply qos_step_inv|by eapply carries_step].
Qed.

(** And over a lasting one it stays so when the pipe has stopped. *)
Lemma qos_leaves `{!Carrier P, !LastingCarrier P} c u l q x :
  carries c u l -> reachable u q x -> leaves c (underlying (obj x)) (l ++ sent x).
Proof.
  intros Hu Hr.
  assert (H1 : qos_inv x /\ sending_runs x /\ (running (obj x) = true -> carries c (underlying (obj x)) (l ++ sent x)) /\
    leaves c (underlying (obj x)) (l ++ sent x)); [|apply H1].
  eapply (rtc_invariant qos_step (fun s => qos_inv s /\ sending_runs s /\
      (running (obj s) = true -> carries c (underlying (obj s)) (l ++ sent s)) /\ leaves c (underlying (obj s)) (l ++ sent s)));
    [|exact Hr|cbn; rewrite app_nil_r; split_and!; [done|by left|done|by apply carries_leaves]].
  intros s1 s2 (Hi & Hsr & Hcar & Hl) Hst. pose proof (carries_step _ _ _ _ Hi Hcar Hst) as Hcar2.
  split_and!; [by eapply qos_step_inv|by eapply sending_runs_step|done|]. clear Hcar2.
  assert (Hc : counted (obj s1)) by (split; apply Hi).
  destruct Hst; cbn [obj worker accepted sent] in *; try done.
  - by apply send_locked_return in H1 as ->.
  - by apply send_locked_queued in H1 as (_ & _ & _ & -> & _).
  - by apply worker_pass_spec in H0 as (_ & _ & _ & -> & _).
  - apply worker_send_underlying in H0 as [Hsend _]. destruct Hsr as [Hsr|Hrun]; [by destruct (Hsr m)|].
    destruct (status_ok st) eqn:Est; [|rewrite app_nil_r; by eapply leaves_send].
    pose proof (carries_send _ _ _ _ _ _ _ (Hcar Hrun) Hsend) as Hnew. rewrite Est, <- app_assoc in Hnew. by apply carries_leaves.
  - unfold qos_recv in H0. destruct (pipe_recv _ _) as [[u' v]|] eqn:Eu; [|done]. injection H0 as <- _. by eapply leaves_recv.
  - by apply leaves_close.
Qed.

(** ** Theorems *)

(** C13: order and accounting of the send queue. In every reachable state the byte
    and message counters are those of the queue, whatever mix of callers,
    expiries, drops, failures and closes led there; and the messages sent,
    followed by those still queued, are a subsequence of the messages accepted:
    nothing is sent twice, reordered or invented. *)
Theorem qos_order u q s :
  reachable u q s ->
  send_bytes (obj s) = wrap64 (queued_bytes (obj s)) /\
  send_count (obj s) = wrap64 (len (send_queue (obj s))) /\
  sublist (sent s ++ queued (obj s)) (accepted s).
Proof. intros Hr. apply qos_reachable_inv in Hr. split_and!; apply Hr. Qed.

(** without a time to live and without kDropOld nothing accepted is lost: the
    messages sent and those still queued are exactly the messages accepted, in
    order; and the queue holds fewer bytes than twice the high water mark. *)
Theorem qos_lossless u q s :
  ttl q <= 0 -> backpressure q <> kDropOld -> 0 < snd_hwm_bytes q < 2 ^ 63 -> reachable u q s ->
  sent s ++ queued (obj s) = accepted s /\ queued_bytes (obj s) < 2 * snd_hwm_bytes q.
Proof.
  intros Ht Hb Hh Hr. split; [by apply (lossless_reachable u q)|]. by apply (bounded_reachable u q).
Qed.

(** a worker left alone drains a queue that is below the mark: if the wrapped
    pipe accepts messages and nothing expires, there is a run in which every
    queued message is sent, in order, and the queue is empty. *)
Theorem qos_drains u q s :
  reachable u q s -> worker s = WLoop -> running (obj s) = true -> ttl q <= 0 ->
  queued_bytes (obj s) < snd_hwm_bytes q -> snd_hwm_bytes q < 2 ^ 64 ->
  (forall u m, exists u', pipe_send u m (mkSendOptions 0) = Some (u', Ok)) ->
  exists s', rtc qos_step s s' /\ sent s' = sent s ++ queued (obj s) /\ queued (obj s') = [] /\
    accepted s' = accepted s.
Proof.
  intros Hr Hw Hrun Ht Hb Hh Hok. destruct (reachable_qos _ _ _ Hr) as [Hi <-].
  destruct s as [o w en acc snt]. cbn [obj worker accepted sent] in *. subst w.
  destruct (worker_drains (send_queue o) o en acc snt) as (s' & Hst & Hq); try done.
  { split; apply Hi. }
  exists (mkQS s' WLoop en acc (snt ++ map qm_message (send_queue o))). split_and!; [done..| |done].
  unfold queued. cbn. by rewrite Hq.
Qed.

(** C39: at the high water mark the pipe stalls for good. Once the queued bytes
    reach the mark, with no time to live and a policy other than kDropOld, the
    worker's own check refuses to send, so nothing is ever sent or accepted
    again. One message of exactly the mark's size gets there: [send] accepts it
    and it is never sent. *)
Theorem qos_stalls_at_mark u q m :
  ttl q <= 0 -> backpressure q <> kDropOld -> 0 < len m -> len m = snd_hwm_bytes q -> len m < 2 ^ 64 ->
  (forall s s', reachable u q s -> (forall x, worker s <> WSending x) ->
     snd_hwm_bytes q <= send_bytes (obj s) -> rtc qos_step s s' ->
     sent s' = sent s /\ accepted s' = accepted s) /\
  exists s, reachable u q s /\ accepted s = [m] /\ running (obj s) = true /\
    forall s', rtc qos_step s s' -> sent s' = [].
Proof.
  intros Ht Hb Hm Hl Hw.
  assert (Hgen : forall s s', reachable u q s -> (forall x, worker s <> WSending x) ->
     snd_hwm_bytes q <= send_bytes (obj s) -> rtc qos_step s s' ->
     sent s' = sent s /\ accepted s' = accepted s).
  { intros s s' Hr Hns Hge Hst. destruct (reachable_qos _ _ _ Hr) as [Hi Hq].
    destruct (stalled_forever s s') as (_ & ? & ?); [|done..]. unfold stalled. by rewrite Hq. }
  split; [exact Hgen|].
  set (o := set_queue [mkQueued m 0] (wrap64 (0 + len m)) (wrap64 (0 + 1)) (QosPipe_make u q)).
  assert (Hr : reachable u q (mkQS o WLoop [] [m] [])).
  { eapply rtc_l; [apply (q_enter _ _ _ _ _ m)|apply rtc_once].
    - unfold send_check. cbn. destruct (gtb_spec (len m) (snd_hwm_bytes q)); [lia|done].
    - apply (q_queue (QosPipe_make u q) WLoop [] [] [] [] m false 0 o); [done|].
      unfold send_locked. cbn. destruct (geb_spec 0 (snd_hwm_bytes q)); [lia|done]. }
  exists (mkQS o WLoop [] [m] []). split_and!; try done.
  intros s' Hst. apply (Hgen _ _ Hr) in Hst as [-> _]; [done|done|].
  cbn. rewrite wrap_small by lia. lia.
Qed.

(** [close] abandons the queue. Once the pipe is not running and the worker is
    not inside a send, no queued message is ever sent, whatever the linger
    option says, and every later [send] answers kClosed. *)
Theorem qos_close_drops u q s s' :
  reachable u q s -> running (obj s) = false -> (forall m, worker s <> WSending m) ->
  rtc qos_step s s' ->
  sent s' = sent s /\ forall m, send_check m (obj s') = Some (closed "pipe closed").
Proof.
  intros Hr Hrun Hw Hst.
  assert ((running (obj s') = false /\ not_sending (worker s')) /\ sent s' = sent s) as [[Hr' _] ?].
  { eapply (rtc_invariant qos_step (fun s' => qos_inv s' /\ (running (obj s') = false /\ not_sending (worker s')) /\ sent s' = sent s));
      [|exact Hst|].
    - intros s1 s2 (Hi & H1 & H2) Hs. destruct (stopped_step s1 s2) as [? ?]; [done..|].
      split_and!; [by eapply qos_step_inv|naive_solver|naive_solver|congruence].
    - split; [by eapply qos_reachable_inv|done]. }
  split; [done|]. intros m. unfold send_check. by rewrite Hr'.
Qed.

(** the worker holds the mutex while it is inside the wrapped pipe's [send]. As
    long as that send does not return, no call of [send] gets past the lock and
    [close] cannot even stop the pipe: every step leaves the worker where it is
    and the queue and the running flag as they are. *)
Theorem qos_close_waits_for_send s s' m :
  worker s = WSending m -> worker_send m (obj s) = None -> qos_step s s' ->
  worker s' = WSending m /\ running (obj s') = running (obj s) /\
  send_queue (obj s') = send_queue (obj s) /\ accepted s' = accepted s.
Proof.
  intros Hw Hs Hst. destruct Hst; cbn [obj worker accepted] in *; simplify_eq; try done; try by destruct (H0 m).
  unfold qos_recv in H0. by destruct (pipe_recv _ _) as [[? ?]|]; simplify_eq/=.
Qed.

End qos.
Arguments QosPipe : clear implicits.
Arguments qos_state : clear implicits.

(** ** Witnesses *)

(** A wrapped pipe that accepts every message, and one whose send never returns. *)
Definition sink : Type := list payload.
#[local] Instance sink_ops : PipeOps sink :=
  {| pipe_send l m _ := Some (l ++ [m], Ok); pipe_recv _ _ := None; pipe_close l := l |}.
Inductive wedged := Wedged.
#[local] Instance wedged_ops : PipeOps wedged :=
  {| pipe_send _ _ _ := None; pipe_recv _ _ := None; pipe_close l := l |}.

Definition ten_bytes : QosOptions := mkQosOptions 10 10 kBlock 0 0 kAtMostOnce.
Definition abc : payload := [Init.Byte.x61; Init.Byte.x62; Init.Byte.x63].

(** One message of three bytes queued under a mark of ten. *)
Definition one_queued : qos_state sink :=
  mkQS (mkQos ([] : sink) ten_bytes [mkQueued abc 0] true 3 1) WLoop [] [abc] [].

Lemma one_queued_reachable : reachable ([] : sink) ten_bytes one_queued.
Proof.
  eapply rtc_l; [apply (q_enter (QosPipe_make [] ten_bytes) WLoop [] [] [] abc); reflexivity|].
  apply rtc_once.
  apply (q_queue (QosPipe_make [] ten_bytes) WLoop [] [] [] [] abc false 0); [discriminate|reflexivity].
Qed.

Lemma qos_order_witness : sublist (sent one_queued ++ queued (obj one_queued)) (accepted one_queued).
Proof. exact (proj2 (proj2 (qos_order [] ten_bytes one_queued one_queued_reachable))). Defined.

Lemma qos_lossless_witness : [] ++ [abc] = [abc] /\ queued_bytes (obj one_queued) < 2 * 10.
Proof.
  apply (qos_lossless [] ten_bytes one_queued); [cbn; lia|discriminate|cbn; lia|apply one_queued_reachable].
Defined.

Lemma qos_drains_witness :
  exists s', rtc qos_step one_queued s' /\ sent s' = [abc] /\ queued (obj s') = [] /\ accepted s' = [abc].
Proof.
  apply (qos_drains [] ten_bytes one_queued one_queued_reachable); try reflexivity; try (cbn; lia).
  intros u m. eexists. reflexivity.
Defined.

Lemma qos_stalls_at_mark_witness :
  exists s : qos_state sink, reachable [] (mkQosOptions 3 3 kBlock 0 0 kAtMostOnce) s /\
    accepted s = [abc] /\ running (obj s) = true /\ forall s', rtc qos_step s s' -> sent s' = [].
Proof.
  refine (proj2 (qos_stalls_at_mark [] (mkQosOptions 3 3 kBlock 0 0 kAtMostOnce) abc _ _ _ _ _));
    first [discriminate | cbn; lia | reflexivity].
Defined.

Definition closed_queue : qos_state sink :=
  mkQS (close_locked (obj one_queued)) WLoop [] [abc] [].

Lemma closed_queue_reachable : reachable ([] : sink) ten_bytes closed_queue.
Proof.
  eapply rtc_r; [apply one_queued_reachable|]. apply (q_close (obj one_queued)). discriminate.
Qed.

Lemma qos_close_drops_witness :
  sent closed_queue = [] /\ forall m, send_check m (obj closed_queue) = Some (closed "pipe closed").
Proof.
  apply (qos_close_drops [] ten_bytes closed_queue closed_queue closed_queue_reachable);
    [reflexivity|discriminate|apply rtc_refl].
Defined.

Definition wedged_sending : qos_state wedged :=
  mkQS (mkQos Wedged ten_bytes [mkQueued abc 0] true 3 1) (WSending abc) [] [abc] [].

Lemma qos_close_waits_for_send_witness :
  let s' := mkQS (obj wedged_sending) (WSending abc) [[]] [abc] [] in
  worker s' = WSending abc /\ running (obj s') = true.
Proof.
  intros s'.
  destruct (qos_close_waits_for_send (H := wedged_ops) wedged_sending s' abc eq_refl eq_refl
              (q_enter (H := wedged_ops) (obj wedged_sending) (WSending abc) [] [abc] [] [] eq_refl)) as (H1 & H2 & _).
  exact (conj H1 H2).
Defined.

(** kDropOld makes room for one message, whatever its size: three sends under a
    mark of ten bytes leave nineteen queued. *)
Example drop_old_overshoots :
  let q := mkQosOptions 10 10 kDropOld 0 0 kAtMostOnce in
  let big := replicate 9 Init.Byte.x61 in
  match send_locked false 0 [Init.Byte.x61] (QosPipe_make ([] : sink) q) with
  | SQueued s1 =>
      match send_locked false 0 big s1 with
      | SQueued s2 =>
          match send_locked false 0 (replicate 10 Init.Byte.x61) s2 with
          | SQueued s3 => (send_bytes s3, send_count s3) = (19, 2)
          | _ => False
          end
      | _ => False
      end
  | _ => False
  end.
Proof. reflexivity. Qed.
