(* ===== verification/NamedPipe.v ===== *)
(** * The Windows named-pipe transport (src/pipe_transport.cc)

    [NamedPipePipe] frames messages with the wire protocol over a pipe in message
    mode: each [WriteFile] is one pipe message, each [ReadFile] takes at most one
    and fails with ERROR_MORE_DATA when the message is longer than the buffer.
    How each call ends is scripted; the names the transport derives from an
    address are computed as in the source. *)

From S2P Require Import Prelude Status Options Pipe Wire Address ShmNames.

(** ** Names *)

(** The test of this transport's [sanitize_name]: also a dash. *)
Definition pipe_name_char (c : Ascii.ascii) : bool := name_char c || (ascii_code c =? 45).

Fixpoint sanitize_pipe_loop (s : string) : string :=
  match s with
  | EmptyString => EmptyString
  | String c s' => String (if pipe_name_char c then c else underscore) (sanitize_pipe_loop s')
  end.

(** src/src/pipe_transport.cc:27-39 [sanitize_name] *)
Definition sanitize_pipe_name (s : string) : string :=
  let out := sanitize_pipe_loop s in
  if bool_decide (out = EmptyString) then "duct" else out.

Definition pipe_prefix : string := "\\.\pipe\duct_".

(** src/src/pipe_transport.cc:43-46 [make_pipe_path] *)
Definition make_pipe_path (name : string) : string := pipe_prefix +:+ sanitize_pipe_name name.

(** ** The pipe *)

(** How a [WriteFile] or [ReadFile] ends: as the pipe would have it, or failing
    with an error code; [NShort] is a write that reports fewer bytes. *)
Inductive np_event := NOk | NErr (error : Z) | NShort (written : Z) (error : Z).

Definition ERROR_BROKEN_PIPE : Z := 109.
Definition ERROR_MORE_DATA : Z := 234.
Definition ERROR_PIPE_CONNECTED : Z := 535.
Definition ERROR_FILE_NOT_FOUND : Z := 2.
Definition ERROR_TIMEOUT : Z := 1460.
Definition INVALID_HANDLE_VALUE : Z := wrap64 (-1).
(** src/src/pipe_transport.cc:25-25 [kDefaultTimeoutMs] *)
Definition kDefaultTimeoutMs : Z := 5000.

(** src/src/pipe_transport.cc:71-76 [NamedPipePipe]

    The handle with the pipe behind it: the events to come, the messages waiting
    to be read and those written. *)
Record NamedPipePipe := mkNP {
  np_handle : Z;
  np_events : list np_event;
  np_in : list (list byte);
  np_out : list (list byte);
}.

(** [WriteFile]: success, the count of bytes written and the last error. *)
Definition write_file (bs : list byte) (p : NamedPipePipe) : option (bool * Z * Z * NamedPipePipe) :=
  match np_events p with
  | [] => None
  | NOk :: evs => Some (true, len bs, 0, mkNP (np_handle p) evs (np_in p) (np_out p ++ [bs]))
  | NErr e :: evs => Some (false, 0, e, mkNP (np_handle p) evs (np_in p) (np_out p))
  | NShort n e :: evs => Some (true, n, e, mkNP (np_handle p) evs (np_in p) (np_out p))
  end.

(** [ReadFile] into a buffer of [n] bytes: success, the bytes read and the last
    error. A longer message is left with its first [n] bytes taken. *)
Definition read_file (n : Z) (p : NamedPipePipe) : option (bool * list byte * Z * NamedPipePipe) :=
  match np_events p with
  | [] => None
  | (NErr e | NShort _ e) :: evs =>
      Some (false, [], e, mkNP (np_handle p) evs (np_in p) (np_out p))
  | NOk :: evs =>
      match np_in p with
      | [] => None
      | m :: ms =>
          if len m <=? n then Some (true, m, 0, mkNP (np_handle p) evs ms (np_out p))
          else Some (false, take (Z.to_nat n) m, ERROR_MORE_DATA,
                     mkNP (np_handle p) evs (drop (Z.to_nat n) m :: ms) (np_out p))
      end
  end.

(** The status of a failed call. *)
Definition np_error (what : string) (error : Z) : Status :=
  if error =? ERROR_BROKEN_PIPE then closed "pipe closed"
  else io_error (what +:+ " failed with error: " +:+ to_string error).

(** src/src/pipe_transport.cc:78-122 [NamedPipePipe::send] *)
Definition np_send {H : HostOrder} (p : NamedPipePipe) (msg : payload) (opt : SendOptions)
    : option (NamedPipePipe * Status) :=
  if np_handle p =? INVALID_HANDLE_VALUE then Some (p, closed "pipe closed")
  else
    let hdr := encode_header (frame_header msg 0) hdr_buffer in
    '(good, written, error, p) ← write_file hdr p;
    if negb good || negb (written =? kHeaderLen) then Some (p, np_error "WriteFile header" error)
    else if len msg >? 0 then
      '(good, written, error, p) ← write_file msg p;
      if negb good || negb (written =? wrap32 (len msg)) then Some (p, np_error "WriteFile payload" error)
      else Some (p, Ok)
    else Some (p, Ok).

(** src/src/pipe_transport.cc:124-177 [NamedPipePipe::recv] *)
Definition np_recv {H : HostOrder} (p : NamedPipePipe) (opt : RecvOptions)
    : option (NamedPipePipe * Result payload) :=
  if np_handle p =? INVALID_HANDLE_VALUE then Some (p, RStatus (closed "pipe closed"))
  else
    '(good, hdr, error, p) ← read_file kHeaderLen p;
    if negb good then Some (p, RStatus (np_error "ReadFile header" error))
    else if negb (len hdr =? kHeaderLen) then
      Some (p, RStatus (io_error ("incomplete header read: " +:+ to_string (len hdr) +:+ " bytes")))
    else
      match decode_header hdr with
      | RStatus e => Some (p, RStatus e)
      | RValue header =>
          if payload_len header >? kMaxFramePayload then
            Some (p, RStatus (protocol_error ("payload too large: " +:+ to_string (payload_len header) +:+ " bytes")))
          else if payload_len header >? 0 then
            '(good, buffer, error, p) ← read_file (payload_len header) p;
            if negb good then Some (p, RStatus (np_error "ReadFile payload" error))
            else if negb (len buffer =? payload_len header) then
              Some (p, RStatus (io_error ("incomplete payload read: " +:+ to_string (len buffer) +:+ " / "
                                          +:+ to_string (payload_len header) +:+ " bytes")))
            else Some (p, RValue buffer)
          else Some (p, RValue [])
      end.

(** src/src/pipe_transport.cc:179-184 [NamedPipePipe::close] *)
Definition np_close (p : NamedPipePipe) : NamedPipePipe :=
  if negb (np_handle p =? INVALID_HANDLE_VALUE) then
    mkNP INVALID_HANDLE_VALUE (np_events p) (np_in p) (np_out p)
  else p.

#[export] Instance NamedPipePipe_ops {H : HostOrder} : PipeOps NamedPipePipe :=
  {| pipe_send := np_send; pipe_recv := np_recv; pipe_close := np_close |}.

(** ** Listening and dialling *)

(** src/src/pipe_transport.cc:191-194 [NamedPipeListener] *)
Record NamedPipeListener := mkNPL { pipe_path : string; npl_backlog : Z }.

(** src/src/pipe_transport.cc:198-227 [NamedPipeListener::accept]

    [handle] and [error] answer [CreateNamedPipe]; [connected] and [cerror]
    answer [ConnectNamedPipe]; [p] is the pipe behind the handle. *)
Definition np_accept (l : NamedPipeListener) (handle error : Z) (connected : bool) (cerror : Z)
    (p : NamedPipePipe) (open : gset Z) : Result NamedPipePipe * gset Z :=
  if handle =? INVALID_HANDLE_VALUE then
    (RStatus (io_error ("CreateNamedPipe failed with error: " +:+ to_string error)), open)
  else
    let open := open ∪ {[handle]} in
    if negb connected && negb (cerror =? ERROR_PIPE_CONNECTED) then
      (RStatus (io_error ("ConnectNamedPipe failed with error: " +:+ to_string cerror)),
       open ∖ {[handle]})
    else (RValue (mkNP handle (np_events p) (np_in p) (np_out p)), open).

(** src/src/pipe_transport.cc:229-236 [NamedPipeListener::local_address] *)
Definition np_local_address (l : NamedPipeListener) : Result string :=
  if bool_decide (str_find pipe_prefix (pipe_path l) = Some O) then
    RValue ("pipe://" +:+ str_drop (String.length pipe_prefix) (pipe_path l))
  else RValue "pipe://unknown".

(** src/src/pipe_transport.cc:238-240 [NamedPipeListener::close] *)
Definition np_listener_close (l : NamedPipeListener) : NamedPipeListener := l.

(** src/src/pipe_transport.cc:250-254 [pipe_listen] *)
Definition pipe_listen (name : string) (opt : ListenOptions) : Result NamedPipeListener :=
  RValue (mkNPL (make_pipe_path name) (backlog opt)).

(** The answers to a dial: [WaitNamedPipe] (given the timeout), [CreateFile] and
    [SetNamedPipeHandleState], with the last error each leaves. *)
Record np_dial_answers := mkNPDial {
  nd_wait : Z -> bool;
  nd_wait_error : Z;
  nd_handle : Z;
  nd_create_error : Z;
  nd_mode : bool;
  nd_mode_error : Z;
}.

(** src/src/pipe_transport.cc:256-303 [pipe_dial] *)
Definition pipe_dial (name : string) (opt : DialOptions) (a : np_dial_answers) (p : NamedPipePipe)
    (open : gset Z) : Result NamedPipePipe * gset Z :=
  let timeout_ms := wrap32 (dial_timeout opt) in
  let timeout_ms := if timeout_ms =? 0 then kDefaultTimeoutMs else timeout_ms in
  if negb (nd_wait a timeout_ms) then
    let error := nd_wait_error a in
    (RStatus
       (if error =? ERROR_FILE_NOT_FOUND then io_error "named pipe not found"
        else if error =? ERROR_TIMEOUT then timeout "timeout waiting for named pipe"
        else io_error ("WaitNamedPipe failed with error: " +:+ to_string error)), open)
  else if nd_handle a =? INVALID_HANDLE_VALUE then
    (RStatus (io_error ("CreateFile failed with error: " +:+ to_string (nd_create_error a))), open)
  else
    let open := open ∪ {[nd_handle a]} in
    if negb (nd_mode a) then
      (RStatus (io_error ("SetNamedPipeHandleState failed with error: " +:+ to_string (nd_mode_error a))),
       open ∖ {[nd_handle a]})
    else (RValue (mkNP (nd_handle a) (np_events p) (np_in p) (np_out p)), open).

(** A sender's and a receiver's sequence of calls. *)
Fixpoint np_sends {H : HostOrder} (p : NamedPipePipe) (msgs : list payload)
    : option (NamedPipePipe * list Status) :=
  match msgs with
  | [] => Some (p, [])
  | m :: msgs' =>
      '(p, st) ← np_send p m (mkSendOptions 0);
      '(p, sts) ← np_sends p msgs';
      Some (p, st :: sts)
  end.

Fixpoint np_recvs {H : HostOrder} (p : NamedPipePipe) (n : nat)
    : option (NamedPipePipe * list (Result payload)) :=
  match n with
  | O => Some (p, [])
  | S n' =>
      '(p, r) ← np_recv p (mkRecvOptions 0);
      '(p, rs) ← np_recvs p n';
      Some (p, r :: rs)
  end.

(** ** Lemmas *)

#[export, refine] Instance NamedPipePipe_laws {H : HostOrder} : PipeLaws NamedPipePipe :=
  {| shut p := np_handle p = INVALID_HANDLE_VALUE |}.
Proof.
  - intros p. cbn. unfold np_close. by destruct (Z.eqb_spec (np_handle p) INVALID_HANDLE_VALUE).
  - intros p Hp. cbn. unfold np_close. by rewrite Hp, Z.eqb_refl.
  - intros p m opt Hp. cbn. unfold np_send. rewrite Hp, Z.eqb_refl. eauto.
  - intros p opt Hp. cbn. unfold np_recv. rewrite Hp, Z.eqb_refl. eauto.
Defined.

(** The pipe messages one message becomes. *)
Definition np_packets (m : payload) : list (list byte) :=
  header_bytes (frame_header m 0) :: (if len m >? 0 then [m] else []).

Lemma np_send_packets {H : HostOrder} h evs i o m opt :
  h <> INVALID_HANDLE_VALUE -> len m < 2 ^ 32 ->
  np_send (mkNP h (NOk :: NOk :: evs) i o) m opt =
    Some (mkNP h (if len m >? 0 then evs else NOk :: evs) i (o ++ np_packets m), Ok).
Proof.
  intros Hh Hm. unfold np_send, np_packets. cbn [np_handle].
  rewrite (proj2 (Z.eqb_neq _ _)) by done. cbn [write_file np_events np_handle np_in np_out mbind option_bind].
  rewrite encode_header_bytes by done. rewrite header_bytes_length. cbn [negb orb].
  change (Z.of_nat 16 =? kHeaderLen) with true. cbn [negb].
  destruct (gtb_spec (len m) 0).
  - cbn [write_file np_events np_handle np_in np_out mbind option_bind].
    rewrite wrap_small, Z.eqb_refl by lia. cbn [negb orb]. by rewrite <- app_assoc.
  - done.
Qed.

Lemma np_recv_packets {H : HostOrder} h evs i o m opt :
  h <> INVALID_HANDLE_VALUE -> fits m ->
  np_recv (mkNP h (NOk :: NOk :: evs) (np_packets m ++ i) o) opt =
    Some (mkNP h (if len m >? 0 then evs else NOk :: evs) i o, RValue m).
Proof.
  intros Hh Hm. unfold np_recv, np_packets. cbn [np_handle].
  destruct (frame_header_wf m 0 Hm ltac:(lia)) as (Hwf & Hck & Hpl).
  rewrite (proj2 (Z.eqb_neq _ _)) by done.
  cbn [app read_file np_events np_in mbind option_bind]. rewrite header_bytes_length.
  change (Z.of_nat 16 <=? kHeaderLen) with true. cbv iota. cbn [negb mbind option_bind]. rewrite header_bytes_length.
  change (Z.of_nat 16 =? kHeaderLen) with true. cbn [negb]. cbv iota.
  rewrite (decode_header_bytes _ Hwf), Hck, Hpl.
  destruct (gtb_spec (len m) kMaxFramePayload); [unfold fits in Hm; lia|].
  destruct (gtb_spec (len m) 0).
  - cbn [app read_file np_events np_in np_handle np_out mbind option_bind].
    rewrite Z.leb_refl. cbn [negb mbind option_bind]. by rewrite Z.eqb_refl.
  - destruct m; [done|simpl in *; lia].
Qed.

Lemma np_sends_packets {H : HostOrder} h msgs : forall evs i o,
  h <> INVALID_HANDLE_VALUE -> Forall (fun m => len m < 2 ^ 32) msgs ->
  Forall (fun e => e = NOk) evs -> (2 * length msgs <= length evs)%nat ->
  exists evs', np_sends (mkNP h evs i o) msgs =
    Some (mkNP h evs' i (o ++ concat (map np_packets msgs)), map (fun _ => Ok) msgs).
Proof.
  induction msgs as [|m msgs IH]; intros evs i o Hh Hm He Hl; cbn [np_sends concat map].
  { exists evs. by rewrite app_nil_r. }
  apply Forall_cons in Hm as [Hm Hms]. cbn [length] in Hl.
  destruct evs as [|e1 [|e2 evs]]; cbn [length] in Hl; [lia..|].
  apply Forall_cons in He as [-> He]. apply Forall_cons in He as [-> He].
  rewrite np_send_packets by done. cbn [mbind option_bind].
  destruct (IH (if len m >? 0 then evs else NOk :: evs) i (o ++ np_packets m) Hh Hms) as (evs' & ->).
  { destruct (_ >? _); [done|by constructor]. }
  { destruct (_ >? _); cbn [length]; lia. }
  exists evs'. cbn [mbind option_bind]. by rewrite <- app_assoc.
Qed.

Lemma np_recvs_packets {H : HostOrder} h msgs : forall evs i o,
  h <> INVALID_HANDLE_VALUE -> Forall fits msgs ->
  Forall (fun e => e = NOk) evs -> (2 * length msgs <= length evs)%nat ->
  exists evs', np_recvs (mkNP h evs (concat (map np_packets msgs) ++ i) o) (length msgs) =
    Some (mkNP h evs' i o, map RValue msgs).
Proof.
  induction msgs as [|m msgs IH]; intros evs i o Hh Hm He Hl; cbn [length np_recvs concat map].
  { by exists evs. }
  apply Forall_cons in Hm as [Hm Hms]. cbn [length] in Hl.
  destruct evs as [|e1 [|e2 evs]]; cbn [length] in Hl; [lia..|].
  apply Forall_cons in He as [-> He]. apply Forall_cons in He as [-> He].
  rewrite <- app_assoc, np_recv_packets by done. cbn [mbind option_bind].
  destruct (IH (if len m >? 0 then evs else NOk :: evs) i o Hh Hms) as (evs' & ->).
  { destruct (_ >? _); [done|by constructor]. }
  { destruct (_ >? _); cbn [length]; lia. }
  by exists evs'.
Qed.

Lemma sanitize_pipe_loop_fix s : str_forallb pipe_name_char s = true -> sanitize_pipe_loop s = s.
Proof.
  induction s as [|c s IH]; [done|]. cbn [sanitize_pipe_loop str_forallb].
  destruct (pipe_name_char c); [|done]. intros H. by rewrite IH.
Qed.

Lemma sanitize_pipe_chars s :
  str_forallb pipe_name_char (sanitize_pipe_name s) = true /\ sanitize_pipe_name s <> EmptyString.
Proof.
  assert (Hloop : str_forallb pipe_name_char (sanitize_pipe_loop s) = true).
  { induction s as [|c s IH]; [done|]. cbn [sanitize_pipe_loop str_forallb]. rewrite IH.
    destruct (pipe_name_char c) eqn:E; [by rewrite E|done]. }
  unfold sanitize_pipe_name. by case_bool_decide.
Qed.

Lemma sanitize_pipe_idem s : sanitize_pipe_name (sanitize_pipe_name s) = sanitize_pipe_name s.
Proof.
  destruct (sanitize_pipe_chars s) as [Hc Hne]. unfold sanitize_pipe_name at 1.
  rewrite sanitize_pipe_loop_fix by done. by rewrite bool_decide_eq_false_2.
Qed.

Lemma prefix_app pat s : String.prefix pat (pat +:+ s) = true.
Proof. induction pat as [|c pat IH]; simpl; [by destruct s|]. by destruct (Ascii.ascii_dec c c). Qed.

(** ** Theorems *)

(** C27: named pipes carry messages of up to 64 KiB: as long as the system's calls
    succeed, any sequence of such messages is accepted by [send] and returned by
    [recv] on the other end unchanged, in order, and nothing is left over; the
    two hosts may differ in byte order. *)
Theorem np_roundtrip (H1 H2 : HostOrder) h1 h2 msgs evs1 evs2 rest :
  h1 <> INVALID_HANDLE_VALUE -> h2 <> INVALID_HANDLE_VALUE -> Forall fits msgs ->
  Forall (fun e => e = NOk) evs1 -> (2 * length msgs <= length evs1)%nat ->
  Forall (fun e => e = NOk) evs2 -> (2 * length msgs <= length evs2)%nat ->
  exists evs1' evs2' packets,
    np_sends (H := H1) (mkNP h1 evs1 [] []) msgs =
      Some (mkNP h1 evs1' [] packets, map (fun _ => Ok) msgs) /\
    np_recvs (H := H2) (mkNP h2 evs2 (packets ++ rest) []) (length msgs) =
      Some (mkNP h2 evs2' rest [], map RValue msgs).
Proof.
  intros Hh1 Hh2 Hf He1 Hl1 He2 Hl2.
  destruct (np_sends_packets (H := H1) h1 msgs evs1 [] [] Hh1) as (evs1' & Hs); [|done..|].
  { eapply Forall_impl; [exact Hf|]. intros m Hm. unfold fits, kMaxFramePayload in Hm. lia. }
  destruct (np_recvs_packets (H := H2) h2 msgs evs2 rest [] Hh2 Hf He2 Hl2) as (evs2' & Hr).
  by exists evs1', evs2', (concat (map np_packets msgs)).
Qed.

(** this transport does not check the frame limit when sending. A message of
    more than 64 KiB is accepted by [send] with Ok, but the receiver rejects its
    header with kProtocolError and leaves the payload in the pipe, so that its
    next [recv] fails too. *)
Theorem np_oversize (H : HostOrder) h1 h2 m evs1 evs2 rest :
  h1 <> INVALID_HANDLE_VALUE -> h2 <> INVALID_HANDLE_VALUE ->
  kMaxFramePayload < len m < 2 ^ 32 ->
  exists packets p1 p2 e2,
    np_send (mkNP h1 (NOk :: NOk :: evs1) [] []) m (mkSendOptions 0) =
      Some (mkNP h1 evs1 [] packets, Ok) /\
    np_recv (mkNP h2 (NOk :: NOk :: evs2) (packets ++ rest) []) (mkRecvOptions 0) =
      Some (p1, RStatus (protocol_error "payload too large (frame)")) /\
    np_recv p1 (mkRecvOptions 0) = Some (p2, RStatus e2) /\ code e2 = kIoError.
Proof.
  intros Hh1 Hh2 Hm. exists (np_packets m).
  pose proof (np_send_packets (H := H) h1 evs1 [] [] m (mkSendOptions 0) Hh1 ltac:(lia)) as Hs.
  unfold kMaxFramePayload in Hm. destruct (gtb_spec (len m) 0) as [Hm0|]; [|lia].
  unfold np_packets in *. destruct (gtb_spec (len m) 0); [|lia].
  set (hd := header_bytes (frame_header m 0)) in *.
  assert (Hdec : decode_header hd = RStatus (protocol_error "payload too large (frame)")).
  { unfold hd. rewrite decode_header_bytes.
    - unfold check_header, frame_header. cbn [magic version header_len payload_len]. rewrite (wrap_small 32) by lia.
      unfold kMaxFramePayload. destruct (gtb_spec (len m) (64 * 1024)); [done|lia].
    - unfold header_wf, frame_header. cbn [magic version header_len payload_len flags].
      pose proof (wrap_range 32 (len m) ltac:(lia)). unfold kProtocolMagic, kProtocolVersion.
      change (wrap16 kHeaderLen) with 16. lia. }
  eexists (mkNP h2 (NOk :: evs2) (m :: rest) []), _, _. split; [exact Hs|]. split; [|split].
  - unfold np_recv. cbn [np_handle]. rewrite (proj2 (Z.eqb_neq _ _)) by done.
    cbn [app read_file np_events np_in np_handle np_out mbind option_bind].
    replace (len hd) with 16 by (unfold hd; by rewrite header_bytes_length).
    change (16 <=? kHeaderLen) with true. cbv iota. cbn [negb mbind option_bind].
    replace (len hd) with 16 by (unfold hd; by rewrite header_bytes_length).
    change (16 =? kHeaderLen) with true. cbn [negb]. cbv iota. by rewrite Hdec.
  - unfold np_recv. cbn [np_handle]. rewrite (proj2 (Z.eqb_neq _ _)) by done.
    cbn [read_file np_events np_in np_handle np_out mbind option_bind].
    change kHeaderLen with 16. rewrite (proj2 (Z.leb_gt _ _)) by lia. cbn [negb mbind option_bind]. reflexivity.
  - done.
Qed.

(** a named-pipe listener can be dialled at the address it reports: the address
    parses as a [pipe] address, and the name in it leads to the same pipe path as
    the name the listener was created with. *)
Theorem np_local_address_dials n opt l :
  pipe_listen n opt = RValue l ->
  exists s a, np_local_address l = RValue s /\ parse s = RValue a /\ scheme a = kPipe /\
    make_pipe_path (name a) = pipe_path l.
Proof.
  intros [= <-]. destruct (sanitize_pipe_chars n) as [_ Hne]. unfold np_local_address, make_pipe_path.
  cbn [pipe_path].
  assert (str_find pipe_prefix (pipe_prefix +:+ sanitize_pipe_name n) = Some O) as ->
    by (apply str_find_prefix, prefix_app).
  rewrite bool_decide_eq_true_2 by done. rewrite str_drop_app.
  eexists _, _. split; [reflexivity|]. split; [apply (parse_named_url "pipe"); auto|].
  split; [done|]. cbn [name]. by rewrite sanitize_pipe_idem.
Qed.

(** ** Witnesses *)

Lemma np_roundtrip_witness :
  exists evs1' evs2' packets,
    np_sends (H := little_host) (mkNP 4 (replicate 4 NOk) [] []) [hello; []] =
      Some (mkNP 4 evs1' [] packets, [Ok; Ok]) /\
    np_recvs (H := big_host) (mkNP 8 (replicate 4 NOk) (packets ++ []) []) 2 =
      Some (mkNP 8 evs2' [] [], [RValue hello; RValue []]).
Proof.
  apply (np_roundtrip little_host big_host 4 8 [hello; []] (replicate 4 NOk) (replicate 4 NOk) []);
    first [discriminate | repeat constructor; unfold fits; vm_compute; discriminate | cbn; lia | idtac].
  all: repeat constructor.
Defined.

Lemma np_oversize_witness :
  exists packets p1 p2 e2,
    np_send (H := little_host) (mkNP 4 [NOk; NOk] [] []) (replicate (Z.to_nat 65537) Init.Byte.x61) (mkSendOptions 0) =
      Some (mkNP 4 [] [] packets, Ok) /\
    np_recv (H := little_host) (mkNP 8 [NOk; NOk] (packets ++ []) []) (mkRecvOptions 0) =
      Some (p1, RStatus (protocol_error "payload too large (frame)")) /\
    np_recv (H := little_host) p1 (mkRecvOptions 0) = Some (p2, RStatus e2) /\ code e2 = kIoError.
Proof.
  apply (np_oversize little_host 4 8 (replicate (Z.to_nat 65537) Init.Byte.x61) [] [] []);
    [discriminate..|].
  rewrite length_replicate, Z2Nat.id by lia. unfold kMaxFramePayload. lia.
Defined.

Lemma np_local_address_dials_witness :
  exists s a, np_local_address (mkNPL (make_pipe_path "my bus") 128) = RValue s /\ parse s = RValue a /\
    scheme a = kPipe /\ make_pipe_path (name a) = make_pipe_path "my bus".
Proof. exact (np_local_address_dials "my bus" ListenOptions_default _ eq_refl). Defined.
