(* ===== verification/StateCallback.v ===== *)
(** * The state-callback pipe (src/state_callback_pipe.cc)

    [StateCallbackPipe] forwards every call to an inner pipe and reports
    disconnection and closing to a callback. The calls the callback receives are
    logged in the state. Any implementation of the Pipe interface can be wrapped
    and the result implements it again. *)

From S2P Require Import Prelude Status Options Pipe.

(** One call of the callback. *)
Definition event : Type := ConnectionState * string.

Section state_callback.
Context {P : Type} `{PipeOps P}.

(** src/src/state_callback_pipe.cc:10-13 [StateCallbackPipe]

    [destroyed] is the inner pipe as it was when [inner_] was reset. *)
Record StateCallbackPipe := mkSCP {
  inner_ : option P;
  cb_ : ConnectionCallback;
  closed_ : bool;
  disconnected_ : bool;
  log : list event;
  destroyed : option P;
}.

(** [if (cb_) cb_(state, reason)] *)
Definition call_back (cb : ConnectionCallback) (e : event) (l : list event) : list event :=
  if cb then l ++ [e] else l.

(** src/src/state_callback_pipe.cc:45-47 [StateCallbackPipe::is_disconnect] *)
Definition is_disconnect (st : Status) : bool :=
  bool_decide (code st = kClosed) || bool_decide (code st = kIoError).

(** src/src/state_callback_pipe.cc:49-53 [StateCallbackPipe::emit_disconnected] *)
Definition emit_disconnected (reason : string) (p : StateCallbackPipe) : StateCallbackPipe :=
  if disconnected_ p then p
  else mkSCP (inner_ p) (cb_ p) (closed_ p) true (call_back (cb_ p) (kDisconnected, reason) (log p))
         (destroyed p).

(** The inner pipe as a call left it. *)
Definition set_inner (i : P) (p : StateCallbackPipe) : StateCallbackPipe :=
  mkSCP (Some i) (cb_ p) (closed_ p) (disconnected_ p) (log p) (destroyed p).

(** src/src/state_callback_pipe.cc:17-24 [StateCallbackPipe::send] *)
Definition scp_send (p : StateCallbackPipe) (m : payload) (opt : SendOptions)
    : option (StateCallbackPipe * Status) :=
  match inner_ p with
  | None => Some (p, closed "pipe closed")
  | Some i =>
      '(i, st) ← pipe_send i m opt;
      let p := set_inner i p in
      let p := if negb (status_ok st) && is_disconnect st
               then emit_disconnected ("send: " +:+ message st) p else p in
      Some (p, st)
  end.

(** src/src/state_callback_pipe.cc:26-33 [StateCallbackPipe::recv] *)
Definition scp_recv (p : StateCallbackPipe) (opt : RecvOptions)
    : option (StateCallbackPipe * Result payload) :=
  match inner_ p with
  | None => Some (p, RStatus (closed "pipe closed"))
  | Some i =>
      '(i, r) ← pipe_recv i opt;
      let p := set_inner i p in
      let p := if negb (ok r) && is_disconnect (status r)
               then emit_disconnected ("recv: " +:+ message (status r)) p else p in
      Some (p, r)
  end.

(** src/src/state_callback_pipe.cc:35-42 [StateCallbackPipe::close] *)
Definition scp_close (p : StateCallbackPipe) : StateCallbackPipe :=
  if closed_ p then p
  else
    let l := call_back (cb_ p) (kStateClosed, "closed") (log p) in
    match pipe_close <$> inner_ p with
    | Some i => mkSCP None (cb_ p) true (disconnected_ p) l (Some i)
    | None => mkSCP None (cb_ p) true (disconnected_ p) l (destroyed p)
    end.

#[export] Instance StateCallbackPipe_ops : PipeOps StateCallbackPipe :=
  {| pipe_send := scp_send; pipe_recv := scp_recv; pipe_close := scp_close |}.

(** A sequence of calls on the pipe. *)
Inductive call := CallSend (m : payload) (opt : SendOptions) | CallRecv (opt : RecvOptions) | CallClose.

Definition call_step (c : call) (p : StateCallbackPipe) : option StateCallbackPipe :=
  match c with
  | CallSend m opt => '(p, _) ← scp_send p m opt; Some p
  | CallRecv opt => '(p, _) ← scp_recv p opt; Some p
  | CallClose => Some (scp_close p)
  end.

Fixpoint calls (cs : list call) (p : StateCallbackPipe) : option StateCallbackPipe :=
  match cs with
  | [] => Some p
  | c :: cs' => p ← call_step c p; calls cs' p
  end.

(** src/src/state_callback_pipe.cc:13-14 [StateCallbackPipe::StateCallbackPipe] *)
Definition StateCallbackPipe_make (i : P) (cb : ConnectionCallback) : StateCallbackPipe :=
  mkSCP (Some i) cb false false [] None.

(** src/src/state_callback_pipe.cc:63-66 [make_state_callback_pipe] *)
Definition make_state_callback_pipe (i : P) (cb : ConnectionCallback) : P + StateCallbackPipe :=
  if negb cb then inl i else inr (StateCallbackPipe_make i cb).

(** ** Lemmas *)

(** The log is what the two flags say: at most one disconnection, then at most
    one close; the inner pipe is there exactly until the close, which closes and
    destroys it. *)
Definition scp_inv (p : StateCallbackPipe) : Prop :=
  cb_ p = true /\ (closed_ p = true <-> inner_ p = None) /\
  (if closed_ p then exists i, destroyed p = Some (pipe_close i) else destroyed p = None) /\
  exists d, (disconnected_ p = true <-> d <> []) /\
    (d = [] \/ exists reason, d = [(kDisconnected, reason)]) /\
    log p = d ++ (if closed_ p then [(kStateClosed, "closed")] else []).

Lemma emit_inv reason p : scp_inv p -> closed_ p = false -> scp_inv (emit_disconnected reason p).
Proof.
  intros (Hcb & Hci & Hde & d & Hd & Hshape & Hlog) Hc. unfold emit_disconnected.
  destruct (disconnected_ p) eqn:E; [do 3 (split; [done|]); exists d; by rewrite E|].
  do 3 (split; [done|]). exists [(kDisconnected, reason)]. cbn. rewrite Hcb, Hc in *.
  destruct Hshape as [->|[? ->]]; [|by pose proof (proj2 Hd ltac:(done))].
  rewrite Hlog. split; [done|]. split; [right; eauto|done].
Qed.

Lemma set_inner_inv i p : scp_inv p -> inner_ p <> None -> scp_inv (set_inner i p) /\ closed_ p = false.
Proof.
  intros (Hcb & Hci & Hde & d & Hd) Hi.
  destruct (closed_ p) eqn:E; [by destruct Hci as [Hci _]; specialize (Hci eq_refl)|].
  unfold scp_inv. cbn. rewrite E. split; [|done]. do 3 (split; [done|]). by exists d.
Qed.

Lemma call_step_inv c p p' : scp_inv p -> call_step c p = Some p' -> scp_inv p'.
Proof.
  intros Hp. destruct c as [m opt|opt|]; cbn.
  - unfold scp_send. destruct (inner_ p) as [i|] eqn:Ei; [|by intros [= <-]].
    destruct (pipe_send i m opt) as [[i' st]|]; [|done]. cbn. intros [= <-].
    destruct (set_inner_inv i' p Hp) as [Hi Hc]; [by rewrite Ei|].
    destruct (_ && _); [by apply emit_inv|done].
  - unfold scp_recv. destruct (inner_ p) as [i|] eqn:Ei; [|by intros [= <-]].
    destruct (pipe_recv i opt) as [[i' r]|]; [|done]. cbn. intros [= <-].
    destruct (set_inner_inv i' p Hp) as [Hi Hc]; [by rewrite Ei|].
    destruct (_ && _); [by apply emit_inv|done].
  - intros [= <-]. unfold scp_close. destruct (closed_ p) eqn:E; [done|].
    destruct Hp as (Hcb & Hci & _ & d & Hd & Hshape & Hlog). rewrite E in Hci.
    destruct (inner_ p) as [i|]; [|by destruct Hci as [_ Hci]; specialize (Hci eq_refl)].
    split; [done|]. split; [done|]. split; [by exists i|].
    exists d. cbn. rewrite Hcb, Hlog, E, app_nil_r. done.
Qed.

Lemma calls_inv cs p p' : scp_inv p -> calls cs p = Some p' -> scp_inv p'.
Proof.
  revert p. induction cs as [|c cs IH]; intros p Hp; cbn; [by intros [= <-]|].
  destruct (call_step c p) as [p1|] eqn:E; [|done]. cbn. apply IH. by eapply call_step_inv.
Qed.

Lemma fresh_inv i : scp_inv (StateCallbackPipe_make i true).
Proof. do 3 (split; [done|]). exists []. cbn. split_and!; [done|by left|done]. Qed.

End state_callback.
Arguments StateCallbackPipe : clear implicits.


(** ** Theorems *)

(** C38: the callback is called sensibly: through any sequence of calls on a wrapped
    pipe, whatever the inner pipe does, it hears of at most one disconnection
    and at most one close, the close last; the close closes the inner pipe and
    destroys it, once, and from then on every call answers kClosed and reports
    nothing. *)
Theorem callback_at_most_once {P} `{PipeOps P} (i : P) cs p :
  calls cs (StateCallbackPipe_make i true) = Some p ->
  (exists d, (d = [] \/ exists reason, d = [(kDisconnected, reason)]) /\
     log p = d ++ (if closed_ p then [(kStateClosed, "closed")] else [])) /\
  (closed_ p = false -> inner_ p <> None /\ destroyed p = None) /\
  (closed_ p = true ->
     inner_ p = None /\ (exists i', destroyed p = Some (pipe_close i')) /\
     (forall m opt, scp_send p m opt = Some (p, closed "pipe closed")) /\
     (forall opt, scp_recv p opt = Some (p, RStatus (closed "pipe closed"))) /\ scp_close p = p).
Proof.
  intros Hc. destruct (calls_inv cs _ _ (fresh_inv i) Hc) as (_ & Hci & Hde & d & _ & Hshape & Hlog).
  split; [by exists d|]. split.
  - intros Hcl. rewrite Hcl in *. split; [|done]. by intros Hi%Hci.
  - intros Hcl. apply Hci in Hcl as Hi. unfold scp_send, scp_recv, scp_close. by rewrite Hcl, Hi in *.
Qed.

(** apart from the reports the wrapper is transparent: on an open pipe [send]
    and [recv] return what the inner pipe returns and leave the inner pipe as
    the call left it; the report is made exactly on kClosed or kIoError. *)
Theorem callback_transparent {P} `{PipeOps P} (p : StateCallbackPipe P) i m sopt ropt :
  inner_ p = Some i ->
  match pipe_send i m sopt, scp_send p m sopt with
  | None, None => True
  | Some (i', st), Some (p', st') =>
      st' = st /\ inner_ p' = Some i' /\
      (log p' <> log p -> code st = kClosed \/ code st = kIoError)
  | _, _ => False
  end /\
  match pipe_recv i ropt, scp_recv p ropt with
  | None, None => True
  | Some (i', r), Some (p', r') => r' = r /\ inner_ p' = Some i'
  | _, _ => False
  end.
Proof.
  intros Hi. unfold scp_send, scp_recv, emit_disconnected, set_inner. rewrite Hi. split.
  - destruct (pipe_send i m sopt) as [[i' st]|]; [|done]. cbn.
    destruct (negb (status_ok st) && is_disconnect st) eqn:E; [|done].
    assert (code st = kClosed \/ code st = kIoError).
    { bool_to_prop. unfold is_disconnect in *. rewrite orb_true_iff, !bool_decide_eq_true in *. done. }
    by destruct (disconnected_ p).
  - destruct (pipe_recv i ropt) as [[i' r]|]; [|done]. cbn.
    destruct (_ && _); [|done]. by destruct (disconnected_ p).
Qed.

(** ** Witnesses *)

(** An inner pipe whose peer is gone. *)
Inductive gone := Gone.
#[local] Instance gone_ops : PipeOps gone :=
  {| pipe_send g _ _ := Some (g, closed "peer closed");
     pipe_recv g _ := Some (g, RStatus (io_error "recv() failed")); pipe_close g := g |}.

Lemma callback_at_most_once_witness :
  exists d, (d = [] \/ exists reason, d = [(kDisconnected, reason)]) /\
    [(kDisconnected, "send: peer closed"); (kStateClosed, "closed")] = d ++ [(kStateClosed, "closed")].
Proof.
  apply (callback_at_most_once Gone
    [CallSend [] (mkSendOptions 0); CallRecv (mkRecvOptions 0); CallClose; CallClose;
     CallSend [] (mkSendOptions 0)]
    (mkSCP None true true true [(kDisconnected, "send: peer closed"); (kStateClosed, "closed")] (Some Gone))).
  reflexivity.
Defined.

Lemma callback_transparent_witness :
  match scp_send (StateCallbackPipe_make Gone true) [] (mkSendOptions 0) with
  | Some (p', st') =>
      st' = closed "peer closed" /\ inner_ p' = Some Gone /\
      (log p' <> [] -> code (closed "peer closed") = kClosed \/ code (closed "peer closed") = kIoError)
  | None => False
  end.
Proof.
  exact (proj1 (callback_transparent (StateCallbackPipe_make Gone true) Gone [] (mkSendOptions 0) (mkRecvOptions 0) eq_refl)).
Defined.
