(* ===== verification/Reconnect.v ===== *)
(** * The reconnecting pipe (src/reconnect_pipe.cc)

    [ReconnectPipe] keeps a connection alive from a worker thread that dials,
    backs off and dials again; callers' [send] and [recv] wait for a connection,
    use a snapshot of it and report it broken. Every critical section, callback
    and dial is one step; the steps of the worker, of callers and of [close]
    interleave. An inner pipe is known by the number of the dial that made it
    (the identity [inner_ != which] compares). The delays are computed in binary64
    as the code computes them. *)

From Stdlib Require Import SpecFloat.
From S2P Require Import Prelude Status Options StateCallback.

(** ** Delays *)

(** [static_cast<double>] of a [long long]. *)
Definition double_of_ll (z : Z) : double := binary_normalize 53 1024 z 0 false.

(** [static_cast<long long>] of a double: towards zero; undefined for a value
    that is not finite or does not fit. *)
Definition ll_of_double (d : double) : option Z :=
  match d with
  | S754_zero _ => Some 0
  | S754_finite s m e =>
      let z := if 0 <=? e then Z.pos m * 2 ^ e else Z.pos m / 2 ^ (- e) in
      let z := if s then - z else z in
      if (- 2 ^ 63 <=? z) && (z <? 2 ^ 63) then Some z else None
  | _ => None
  end.

(** src/src/reconnect_pipe.cc:194-195 [ReconnectPipe::worker_loop, next delay] *)
Definition next_delay (policy : ReconnectPolicy) (delay : Z) : option Z :=
  next_ms ← ll_of_double (SFmul 53 1024 (double_of_ll delay) (backoff_multiplier policy));
  Some (Z.min (max_delay policy) (Z.max 0 next_ms)).

(** src/src/reconnect_pipe.cc:183-189 [ReconnectPipe::worker_loop, backoff]

    [draw] is the generator's uniform choice from the given bounds. *)
Definition sleep_for (draw : Z -> Z -> Z) (delay : Z) : Z :=
  let jitter := if delay >? 0 then draw 0 (Z.max 0 (Z.quot delay 2)) else 0 in
  delay + jitter.

(** ** The object *)

Abbreviation conn := nat.

(** src/src/reconnect_pipe.cc:210-223 [ReconnectPipe] *)
Record ReconnectPipe := mkRC {
  rc_closed : bool;
  permanently_failed : bool;
  state_ : ConnectionState;
  ever_connected : bool;
  last_error : string;
  inner : option conn;
}.

(** The members before the constructor's [set_state]. *)
Definition RC_default : ReconnectPipe := mkRC false false kDisconnected false EmptyString None.

(** src/src/reconnect_pipe.cc:82-84 [ReconnectPipe::is_disconnect_error] *)
Definition is_disconnect_error (st : Status) : bool :=
  bool_decide (code st = kClosed) || bool_decide (code st = kIoError).

(** src/src/reconnect_pipe.cc:86-95 [ReconnectPipe::set_state]

    The state and the callback's log. *)
Definition set_state (next : ConnectionState) (reason : string) (s : ReconnectPipe * list event)
    : ReconnectPipe * list event :=
  let '(r, l) := s in
  if bool_decide (state_ r = next) then s
  else (mkRC (rc_closed r) (permanently_failed r) next (ever_connected r) (last_error r) (inner r),
        l ++ [(next, reason)]).

(** src/src/reconnect_pipe.cc:104-104 [ReconnectPipe::wait_connected, pred] *)
Definition connected_pred (r : ReconnectPipe) : bool :=
  rc_closed r || bool_decide (inner r <> None) || permanently_failed r.

(** src/src/reconnect_pipe.cc:102-115 [ReconnectPipe::wait_connected]

    [timed_out]: the deadline has passed. [None] while it waits. *)
Definition wait_connected (timeout_ms : Z) (timed_out : bool) (r : ReconnectPipe) : option Status :=
  if negb (connected_pred r) then
    if (timeout_ms >? 0) && timed_out then Some (timeout "connect timed out") else None
  else if rc_closed r then Some (closed "pipe closed")
  else if permanently_failed r then
    Some (io_error ("reconnect attempts exhausted: " +:+ last_error r))
  else Some Ok.

(** What a caller does with the result of the inner call: return it, or report the
    connection broken and try again. *)
Inductive after_call := ReturnIt | MarkAndRetry (reason : string).

(** src/src/reconnect_pipe.cc:36-43 [ReconnectPipe::send, after the inner send] *)
Definition after_send (st : Status) : after_call :=
  if status_ok st then ReturnIt
  else if bool_decide (code st = kTimeout) then ReturnIt
  else if is_disconnect_error st then MarkAndRetry ("send: " +:+ message st)
  else ReturnIt.

(** src/src/reconnect_pipe.cc:55-62 [ReconnectPipe::recv, after the inner recv] *)
Definition after_recv {A} (r : Result A) : after_call :=
  if ok r then ReturnIt
  else if bool_decide (code (status r) = kTimeout) then ReturnIt
  else if is_disconnect_error (status r) then MarkAndRetry ("recv: " +:+ message (status r))
  else ReturnIt.

(** src/src/reconnect_pipe.cc:117-127 [ReconnectPipe::mark_disconnected, locked]

    The object, and the connection taken out of it, if any. *)
Definition mark_disconnected (which : conn) (reason : string) (r : ReconnectPipe)
    : ReconnectPipe * option conn :=
  if rc_closed r then (r, None)
  else
    match inner r with
    | None => (r, None)
    | Some c =>
        if negb (bool_decide (c = which)) then (r, None)
        else (mkRC false (permanently_failed r) (state_ r) (ever_connected r) reason None, Some c)
    end.

(** src/src/reconnect_pipe.cc:68-74 [ReconnectPipe::close, locked] *)
Definition close_locked (r : ReconnectPipe) : ReconnectPipe * option conn :=
  (mkRC true (permanently_failed r) (state_ r) (ever_connected r) (last_error r) None, inner r).

(** ** The worker *)

(** The places between two steps of [worker_loop]. *)
Inductive worker_pc :=
| WTop                                   (* line 135 *)
| WCheck                                 (* line 139 *)
| WWait                                  (* line 141 *)
| WAnnounce                              (* line 147 *)
| WAttempt (attempts delay : Z)          (* line 153 *)
| WLimit (attempts delay : Z)            (* line 154 *)
| WExhausted                             (* line 160 *)
| WDial (attempts delay : Z)             (* line 164 *)
| WInstall (c : conn)                    (* line 167 *)
| WConnected                             (* line 173 *)
| WFailed (attempts delay : Z) (e : string)  (* line 177 *)
| WBackoff (attempts delay : Z)          (* line 183 *)
| WDone.

(** Where a call of [close] is: not made, past the lock, past its callback, past
    closing the inner pipe, returned. *)
Inductive close_pc := CNot | CLocked (c : option conn) | CCalled (c : option conn) | CJoin | CReturned.

(** The whole: the object, its worker, the callback's log, the number of
    connections made, the reports of callers past the lock, [close], and the
    connections that have been closed. *)
Record sys := mkSys {
  rc : ReconnectPipe;
  worker : worker_pc;
  log : list event;
  dialled : nat;
  reports : list (conn * string);
  closer : close_pc;
  shut_conns : list conn;
}.

(** src/src/reconnect_pipe.cc:18-24 [ReconnectPipe::ReconnectPipe] *)
Definition rc_start : sys :=
  let '(r, l) := set_state kConnecting "initial connect" (RC_default, []) in
  mkSys r WTop l 0 [] CNot [].

(** [text.empty() ? default : text] *)
Definition or_text (s d : string) : string := if bool_decide (s = EmptyString) then d else s.

(** src/src/reconnect_pipe.cc:132-198 [ReconnectPipe::worker_loop]

    One step of the worker on the object and the log. [dial] is what
    [dial_once_] returns: [None] on success, the status's message otherwise;
    [fresh] numbers the connection. [None]: it waits at line 141, or the next
    delay is undefined. *)
Definition worker_step (policy : ReconnectPolicy) (dial : option string) (fresh : conn)
    (w : worker_pc) (s : ReconnectPipe * list event) : option (worker_pc * (ReconnectPipe * list event)) :=
  let '(r, l) := s in
  match w with
  | WTop => Some (if rc_closed r then WDone else WCheck, s)
  | WCheck =>
      match inner r with
      | Some _ => Some (WWait, s)
      | None => Some (if permanently_failed r then WDone else WAnnounce, s)
      end
  | WWait => if rc_closed r || bool_decide (inner r = None) then Some (WTop, s) else None
  | WAnnounce =>
      Some (WAttempt 0 (initial_delay policy),
            set_state (if ever_connected r then kReconnecting else kConnecting)
              (or_text (last_error r) "connecting") s)
  | WAttempt a d => Some (if rc_closed r then WDone else WLimit a d, s)
  | WLimit a d =>
      if negb (max_attempts policy =? 0) && (a >=? max_attempts policy) then
        Some (WExhausted,
              (mkRC (rc_closed r) true (state_ r) (ever_connected r) (last_error r) (inner r), l))
      else Some (WDial a d, s)
  | WExhausted =>
      Some (WDone, set_state kDisconnected (or_text (last_error r) "reconnect attempts exhausted") s)
  | WDial a d => Some (match dial with None => WInstall fresh | Some e => WFailed a d e end, s)
  | WInstall c =>
      Some (WConnected,
            (mkRC (rc_closed r) (permanently_failed r) (state_ r) true EmptyString (Some c), l))
  | WConnected => Some (WTop, set_state kConnected "connected" s)
  | WFailed a d e =>
      Some (WBackoff (a + 1) d,
            (mkRC (rc_closed r) (permanently_failed r) (state_ r) (ever_connected r) e (inner r), l))
  | WBackoff a d => d' ← next_delay policy d; Some (WAttempt a d', s)
  | WDone => None
  end.

Section steps.
Context (policy : ReconnectPolicy).

Inductive rc_step : sys -> sys -> Prop :=
| s_worker s w' dial r' l' :
    worker_step policy dial (dialled s) (worker s) (rc s, log s) = Some (w', (r', l')) ->
    rc_step s (mkSys r' w' l'
      (match w' with WInstall _ => S (dialled s) | _ => dialled s end)
      (reports s) (closer s) (shut_conns s))
(* a caller whose snapshot was [which] reports it broken *)
| s_mark s which reason r' c :
    mark_disconnected which reason (rc s) = (r', Some c) ->
    rc_step s (mkSys r' (worker s) (log s) (dialled s) ((c, reason) :: reports s) (closer s) (shut_conns s))
(* and, past the lock, calls back and closes it *)
| s_report s l1 c reason l2 r' l' :
    reports s = l1 ++ (c, reason) :: l2 ->
    set_state kDisconnected reason (rc s, log s) = (r', l') ->
    rc_step s (mkSys r' (worker s) l' (dialled s) (l1 ++ l2) (closer s) (c :: shut_conns s))
| s_close s r' c :
    closer s = CNot -> close_locked (rc s) = (r', c) ->
    rc_step s (mkSys r' (worker s) (log s) (dialled s) (reports s) (CLocked c) (shut_conns s))
| s_close_call s c r' l' :
    closer s = CLocked c -> set_state kStateClosed "closed" (rc s, log s) = (r', l') ->
    rc_step s (mkSys r' (worker s) l' (dialled s) (reports s) (CCalled c) (shut_conns s))
| s_close_inner s c :
    closer s = CCalled c ->
    rc_step s (mkSys (rc s) (worker s) (log s) (dialled s) (reports s) CJoin
                 (match c with Some c => c :: shut_conns s | None => shut_conns s end))
| s_close_join s :
    closer s = CJoin -> worker s = WDone ->
    rc_step s (mkSys (rc s) (worker s) (log s) (dialled s) (reports s) CReturned (shut_conns s)).

Definition reachable : sys -> Prop := rtc rc_step rc_start.

End steps.

(** The delay before each attempt, while every dial fails. *)
Fixpoint delay_before (policy : ReconnectPolicy) (n : nat) : option Z :=
  match n with
  | O => Some (initial_delay policy)
  | S n' => d ← delay_before policy n'; next_delay policy d
  end.

(** ** The invariants *)

Definition last_state (l : list event) : ConnectionState := default kDisconnected (fst <$> last l).

(** The callback has been told the current state, and never the same one twice
    in a row. *)
Definition log_ok (s : ReconnectPipe * list event) : Prop :=
  state_ (fst s) = last_state (snd s) /\
  forall l1 e1 e2 l2, snd s = l1 ++ e1 :: e2 :: l2 -> fst e1 <> fst e2.

(** The worker is between finding no connection and installing one. *)
Definition dialling (w : worker_pc) : bool :=
  match w with
  | WTop | WCheck | WWait | WConnected | WDone => false
  | _ => true
  end.

Definition attempts_ok (policy : ReconnectPolicy) (w : worker_pc) : Prop :=
  max_attempts policy > 0 ->
  match w with
  | WAttempt a _ | WLimit a _ | WBackoff a _ => 0 <= a <= max_attempts policy
  | WDial a _ | WFailed a _ _ => 0 <= a < max_attempts policy
  | _ => True
  end.

Record control_ok (policy : ReconnectPolicy) (s : sys) : Prop := {
  ok_failed : permanently_failed (rc s) = true -> worker s = WExhausted \/ worker s = WDone;
  ok_done : worker s = WDone -> rc_closed (rc s) = true \/ permanently_failed (rc s) = true;
  ok_dialling : dialling (worker s) = true -> inner (rc s) = None;
  ok_exhausted : worker s = WExhausted -> permanently_failed (rc s) = true;
  ok_attempts : attempts_ok policy (worker s);
  ok_closed : rc_closed (rc s) = true <-> closer s <> CNot;
  ok_failed_inner : permanently_failed (rc s) = true -> inner (rc s) = None;
}.

(** Who has a connection that is not closed yet. *)
Definition held (s : sys) (c : conn) : Prop :=
  c ∈ shut_conns s \/ c ∈ (reports s).*1 \/ closer s = CLocked (Some c) \/ closer s = CCalled (Some c) \/
  inner (rc s) = Some c \/ worker s = WInstall c.

Definition none_lost (s : sys) : Prop := forall c, (c < dialled s)%nat -> held s c.

(** ** Lemmas *)

Lemma set_state_ok next reason s : log_ok s -> log_ok (set_state next reason s).
Proof.
  destruct s as [r l]. intros [H1 H2]. cbn in *. case_bool_decide as E; [done|]. split; cbn.
  - unfold last_state. rewrite last_snoc. done.
  - intros l1 e1 e2 l2 Hl. destruct l2 as [|e3 l2] using rev_ind.
    + replace (l1 ++ [e1; e2]) with ((l1 ++ [e1]) ++ [e2]) in Hl by (by rewrite <- app_assoc).
      apply app_inj_tail in Hl as [-> <-]. cbn.
      rewrite H1 in E. unfold last_state in E. rewrite last_snoc in E. done.
    + clear IHl2. change (l1 ++ e1 :: e2 :: l2 ++ [e3]) with (l1 ++ (e1 :: e2 :: l2) ++ [e3]) in Hl.
      rewrite app_assoc in Hl. apply app_inj_tail in Hl as [-> _]. by eapply H2.
Qed.

Lemma set_state_frame next reason r l r' l' :
  set_state next reason (r, l) = (r', l') ->
  rc_closed r' = rc_closed r /\ permanently_failed r' = permanently_failed r /\
  ever_connected r' = ever_connected r /\ inner r' = inner r /\ last_error r' = last_error r.
Proof. unfold set_state. case_bool_decide; by intros [= <- <-]. Qed.

#[local] Arguments set_state : simpl never.

(** The worker's steps keep the log, and only install into the object. *)
Lemma worker_step_log policy dial fresh w s w' s' :
  log_ok s -> worker_step policy dial fresh w s = Some (w', s') -> log_ok s'.
Proof.
  intros Hs. destruct s as [r l]. unfold worker_step. destruct w; repeat case_match; try done;
    try (intros [= <- <-]; first [done | by apply set_state_ok]).
  destruct (next_delay policy delay); cbn; [by intros [= <- <-]|done].
Qed.

Lemma worker_step_frame policy dial fresh w r l w' r' l' :
  worker_step policy dial fresh w (r, l) = Some (w', (r', l')) ->
  rc_closed r' = rc_closed r /\
  (permanently_failed r' = permanently_failed r \/ permanently_failed r' = true /\ w' = WExhausted) /\
  (inner r' = inner r \/ exists c, w = WInstall c /\ w' = WConnected /\ inner r' = Some c).
Proof.
  unfold worker_step. destruct w; repeat case_match; try done; intros Hst; simplify_eq/=;
    try (match goal with E : set_state _ _ _ = _ |- _ => apply set_state_frame in E as (? & ? & ? & ? & _) end);
    try (by split_and!; [done|by left|by left]).
  - split_and!; [done|right|left]; done.
  - split_and!; [done|by left|]. right. eauto.
  - destruct (next_delay policy delay); simplify_eq/=. split_and!; [done|by left|by left].
Qed.

Lemma worker_step_control policy dial fresh w r l w' r' l' :
  worker_step policy dial fresh w (r, l) = Some (w', (r', l')) ->
  (permanently_failed r = true -> w = WExhausted \/ w = WDone) ->
  (dialling w = true -> inner r = None) -> attempts_ok policy w ->
  (w = WExhausted -> permanently_failed r = true) ->
  (permanently_failed r' = true -> w' = WExhausted \/ w' = WDone) /\
  (w' = WDone -> rc_closed r' = true \/ permanently_failed r' = true) /\
  (dialling w' = true -> inner r' = None) /\
  (w' = WExhausted -> permanently_failed r' = true) /\ attempts_ok policy w'.
Proof.
  intros Hst Hf Hd Ha He. unfold worker_step in Hst. unfold attempts_ok in *.
  destruct w; repeat case_match; simplify_eq/=;
    try (match goal with E : set_state _ _ _ = _ |- _ => apply set_state_frame in E as (E1 & E2 & E3 & E4 & _) end);
    try (destruct (next_delay policy delay); simplify_eq/=); bool_to_prop;
    split_and!; intros; try done; try congruence; try lia; try (by left); try (by right);
    try (by (rewrite ?E2, ?E4; naive_solver)); try naive_solver lia.
Qed.

Lemma mark_disconnected_some which reason r r' c :
  mark_disconnected which reason r = (r', Some c) ->
  inner r = Some c /\ c = which /\ rc_closed r = false /\ rc_closed r' = false /\ inner r' = None /\
  permanently_failed r' = permanently_failed r /\ state_ r' = state_ r.
Proof.
  unfold mark_disconnected. destruct (rc_closed r) eqn:E; [done|]. destruct (inner r) as [c'|]; [|done].
  case_bool_decide; simpl; [|done]. by intros [= <- <-].
Qed.

Lemma control_step policy s s' : control_ok policy s -> rc_step policy s s' -> control_ok policy s'.
Proof.
  intros [I1 I2 I3 I4 I5 I6 I7] Hst.
  destruct Hst as [s w' dial r' l' Hw|s which reason r' c Hm|s l1 c reason l2 r' l' Hr Hset
    |s r' c Hc Hcl|s c r' l' Hc Hset|s c Hc|s Hc Hd].
  - pose proof (worker_step_frame _ _ _ _ _ _ _ _ _ Hw) as (F1 & F2 & F3).
    apply worker_step_control in Hw as (C1 & C2 & C3 & C4 & C5); [|done..].
    split; cbn; try done; [by rewrite F1|]. intros Hf. destruct (C1 Hf) as [-> | ->]; [by apply C3|].
    destruct F3 as [->|(c & _ & ? & _)]; [|done]. destruct F2 as [F2|[_ ?]]; [|done].
    rewrite F2 in Hf. by rewrite I7.
  - apply mark_disconnected_some in Hm as (H1 & -> & H2 & H3 & H4 & H5 & _).
    split; cbn; rewrite ?H5, ?H3, ?H2 in *; try done.
  - apply set_state_frame in Hset as (H1 & H2 & _ & H4 & _).
    split; cbn; rewrite ?H1, ?H2, ?H4; done.
  - unfold close_locked in Hcl. injection Hcl as <- <-. split; cbn; try done. by left.
  - apply set_state_frame in Hset as (H1 & H2 & _ & H4 & _).
    split; cbn; rewrite ?H1, ?H2, ?H4; try done. rewrite I6, Hc. done.
  - split; cbn; try done. rewrite I6, Hc. done.
  - split; cbn; try done. rewrite I6, Hc. done.
Qed.

Lemma log_step policy s s' : log_ok (rc s, log s) -> rc_step policy s s' -> log_ok (rc s', log s').
Proof.
  intros Hl Hst. destruct Hst as [s w' dial r' l' Hw|s which reason r' c Hm|s l1 c reason l2 r' l' Hr Hset
    |s r' c Hc Hcl|s c r' l' Hc Hset|s c Hc|s Hc Hd]; cbn; try done.
  - by eapply worker_step_log.
  - apply mark_disconnected_some in Hm as (_ & _ & _ & _ & _ & _ & Hst). destruct Hl as [H1 H2].
    split; cbn in *; [congruence|done].
  - rewrite <- Hset. by apply set_state_ok.
  - unfold close_locked in Hcl. by injection Hcl as <- <-.
  - rewrite <- Hset. by apply set_state_ok.
Qed.

Lemma held_step policy s s' : control_ok policy s -> none_lost s -> rc_step policy s s' -> none_lost s'.
Proof.
  intros Hok Hn Hst c Hlt.
  destruct Hst as [s w' dial r' l' Hw|s which reason r' c' Hm|s l1 c' reason l2 r' l' Hr Hset
    |s r' c' Hc Hcl|s c' r' l' Hc Hset|s c' Hc|s Hc Hd]; cbn in Hlt; unfold held;
    cbn [shut_conns reports closer rc worker].
  - pose proof (worker_step_frame _ _ _ _ _ _ _ _ _ Hw) as (_ & _ & F3).
    assert (Hcase : (c < dialled s)%nat \/ w' = WInstall c).
    { destruct w'; try (by left). destruct (decide (c = dialled s)) as [->|]; [right|left; lia].
      revert Hw. unfold worker_step. destruct (worker s); repeat case_match; intros; simplify_eq/=; try done.
      destruct (next_delay policy delay); simplify_eq/=. }
    destruct Hcase as [Hlt'| ->]; [|by do 5 right].
    destruct (Hn c Hlt') as [?|[?|[?|[?|[Hi|Hi]]]]]; [tauto..| |].
    + destruct F3 as [->|(c' & Hwi & _ & _)]; [tauto|].
      pose proof (ok_dialling _ _ Hok) as Hd. rewrite Hwi in Hd. rewrite Hd in Hi; done.
    + destruct F3 as [Hin|(c' & Hwi & _ & Hin)]; [|rewrite Hi in Hwi; injection Hwi as <-; tauto].
      rewrite Hi in Hw. cbn in Hw. simplify_eq/=. tauto.
  - apply mark_disconnected_some in Hm as (H1 & _ & _ & _ & H4 & _). rewrite fmap_cons, elem_of_cons. cbn.
    destruct (Hn c Hlt) as [?|[?|[?|[?|[Hi|?]]]]]; try tauto. rewrite H1 in Hi. injection Hi as ->. tauto.
  - apply set_state_frame in Hset as (_ & _ & _ & H4 & _). rewrite H4, elem_of_cons.
    destruct (Hn c Hlt) as [?|[Hi|?]]; try tauto. rewrite Hr, fmap_app, fmap_cons, elem_of_app, elem_of_cons in Hi.
    rewrite fmap_app, elem_of_app. cbn in Hi. tauto.
  - unfold close_locked in Hcl. injection Hcl as <- <-. cbn.
    destruct (Hn c Hlt) as [?|[?|[?|[?|[Hi|?]]]]]; try tauto; [congruence..|]. rewrite Hi. tauto.
  - apply set_state_frame in Hset as (_ & _ & _ & H4 & _). rewrite H4.
    destruct (Hn c Hlt) as [?|[?|[Hi|[?|?]]]]; try tauto; [|congruence]. rewrite Hc in Hi. injection Hi as ->. tauto.
  - destruct (Hn c Hlt) as [?|[?|[Hi|[Hi|?]]]]; try tauto; [|congruence|].
    + left. destruct c'; [by apply elem_of_cons; right|done].
    + rewrite Hc in Hi. injection Hi as ->. left. by apply elem_of_cons; left.
  - destruct (Hn c Hlt) as [?|[?|[?|[?|?]]]]; try tauto; congruence.
Qed.

Lemma rc_start_ok policy : control_ok policy rc_start /\ log_ok (rc rc_start, log rc_start) /\ none_lost rc_start.
Proof.
  split_and!.
  - split; cbn; try done.
  - split; [done|]. intros [|? [|]] ? ? ?; discriminate.
  - intros c Hc. change (dialled rc_start) with 0%nat in Hc. lia.
Qed.

Lemma reachable_ok policy s :
  reachable policy s -> control_ok policy s /\ log_ok (rc s, log s) /\ none_lost s.
Proof.
  intros Hr. eapply (rtc_invariant (rc_step policy) (fun s => control_ok policy s /\ log_ok (rc s, log s) /\ none_lost s));
    [|exact Hr|apply rc_start_ok].
  intros s1 s2 (H1 & H2 & H3) Hst. split_and!; eauto using control_step, log_step, held_step.
Qed.

(** A failed pipe stays failed and dials no more. *)
Lemma failed_step policy s s' :
  control_ok policy s -> permanently_failed (rc s) = true -> rc_step policy s s' ->
  permanently_failed (rc s') = true /\ dialled s' = dialled s.
Proof.
  intros Hok Hf Hst. pose proof (ok_failed _ _ Hok Hf) as Hw.
  destruct Hst as [s w' dial r' l' Hs|s which reason r' c Hm|s l1 c reason l2 r' l' Hr Hset
    |s r' c Hc Hcl|s c r' l' Hc Hset|s c Hc|s Hc Hd]; cbn [rc dialled]; try done.
  - pose proof (worker_step_frame _ _ _ _ _ _ _ _ _ Hs) as (_ & [->|[-> _]] & _);
      (split; [done|]); destruct Hw as [Hw|Hw]; rewrite Hw in Hs; cbn in Hs; by simplify_eq.
  - by apply mark_disconnected_some in Hm as (_ & _ & _ & _ & _ & -> & _).
  - by apply set_state_frame in Hset as (_ & -> & _).
  - unfold close_locked in Hcl. by injection Hcl as <- <-.
  - by apply set_state_frame in Hset as (_ & -> & _).
Qed.

(** One failing attempt, and a run of [n] of them. *)
Lemma one_attempt policy a d d' e r l n reps cl sh :
  rc_closed r = false -> (max_attempts policy = 0 \/ a < max_attempts policy) -> next_delay policy d = Some d' ->
  rtc (rc_step policy) (mkSys r (WAttempt a d) l n reps cl sh)
    (mkSys (mkRC false (permanently_failed r) (state_ r) (ever_connected r) e (inner r))
       (WAttempt (a + 1) d') l n reps cl sh).
Proof.
  intros Hc Ha Hd.
  eapply rtc_l; [eapply (s_worker policy _ _ None); cbn; by rewrite Hc|]. cbn.
  eapply rtc_l; [eapply (s_worker policy _ _ None); cbn|].
  { replace (negb (max_attempts policy =? 0) && (a >=? max_attempts policy)) with false; [reflexivity|].
    destruct Ha as [-> |Ha]; [done|]. destruct (geb_spec a (max_attempts policy)); [lia|by rewrite andb_false_r]. }
  cbn. eapply rtc_l; [eapply (s_worker policy _ _ (Some e)); reflexivity|]. cbn.
  eapply rtc_l; [eapply (s_worker policy _ _ None); reflexivity|]. cbn.
  apply rtc_once. pose proof (s_worker policy
    (mkSys (mkRC (rc_closed r) (permanently_failed r) (state_ r) (ever_connected r) e (inner r))
       (WBackoff (a + 1) d) l n reps cl sh)) as Hw.
  cbn in Hw. rewrite Hd in Hw. cbn in Hw. specialize (Hw _ None _ _ eq_refl). cbn in Hw. by rewrite Hc in *.
Qed.

Lemma attempts_run policy e k : forall r l n reps cl sh d,
  rc_closed r = false -> max_attempts policy > 0 -> Z.of_nat k <= max_attempts policy ->
  delay_before policy k = Some d ->
  exists e', rtc (rc_step policy) (mkSys r (WAttempt 0 (initial_delay policy)) l n reps cl sh)
    (mkSys (mkRC false (permanently_failed r) (state_ r) (ever_connected r) e' (inner r))
       (WAttempt (Z.of_nat k) d) l n reps cl sh) /\ (k = O -> e' = last_error r) /\ (k <> O -> e' = e).
Proof.
  induction k as [|k IH]; intros r l n reps cl sh d Hc Hm Hk Hd; cbn in Hd.
  - injection Hd as <-. exists (last_error r). destruct r; cbn in *; subst. split_and!; [apply rtc_refl|done..].
  - destruct (delay_before policy k) as [d0|] eqn:E; [|done]. cbn in Hd.
    destruct (IH r l n reps cl sh d0 Hc Hm ltac:(lia) eq_refl) as (e' & Hr & _).
    exists e. split_and!; [|done..]. eapply rtc_trans; [exact Hr|].
    replace (Z.of_nat (S k)) with (Z.of_nat k + 1) by lia.
    eapply rtc_trans; [apply (one_attempt policy _ _ d e)|]; cbn; [done|right; lia|done|apply rtc_refl].
Qed.

(** Runs one step of the worker, or one step by the rule [r], on a concrete state. *)
Ltac worker_runs d :=
  eapply rtc_l; [eapply (s_worker _ _ _ d); vm_compute; reflexivity|];
  cbv -[ReconnectPolicy_default].
Ltac rule_runs r :=
  eapply rtc_l; [eapply r; vm_compute; reflexivity|]; cbv -[ReconnectPolicy_default].

(** ** Theorems *)


(** giving up is final. With a limit of [n] attempts the worker never has more
    than [n] in a row; once the pipe has failed there is no connection, no
    further dial is ever made, and a caller is told so: kClosed if the pipe was
    closed, kIoError otherwise, without waiting. *)
Theorem reconnect_gives_up policy s s' timeout_ms :
  reachable policy s -> permanently_failed (rc s) = true -> rtc (rc_step policy) s s' ->
  dialled s' = dialled s /\ inner (rc s') = None /\
  exists st, wait_connected timeout_ms false (rc s') = Some st /\
    code st = (if rc_closed (rc s') then kClosed else kIoError).
Proof.
  intros Hr Hf Hst.
  assert (control_ok policy s' /\ permanently_failed (rc s') = true /\ dialled s' = dialled s) as (Hok & Hf' & Hd).
  { eapply (rtc_invariant (rc_step policy) (fun s' => control_ok policy s' /\
      permanently_failed (rc s') = true /\ dialled s' = dialled s)); [|exact Hst|].
    - intros s1 s2 (H1 & H2 & H3) Hs. destruct (failed_step policy s1 s2) as [? ?]; [done..|].
      split_and!; [by eapply control_step|done|congruence].
    - split; [by destruct (reachable_ok policy s Hr)|done]. }
  split; [done|]. split; [by apply (ok_failed_inner policy)|].
  unfold wait_connected, connected_pred. rewrite Hf', orb_true_r. cbn.
  destruct (rc_closed (rc s')); eauto.
Qed.


(** the late connection exists: under the default policy there is a run in which
    [close] returns, the callback hears kClosed and after it kConnected, the
    state is left kConnected, and the connection made by the overtaken dial is
    installed in the closed pipe and not closed. *)
Theorem reconnect_close_race :
  exists s, reachable ReconnectPolicy_default s /\ closer s = CReturned /\ rc_closed (rc s) = true /\
    inner (rc s) = Some O /\ shut_conns s = [] /\ state_ (rc s) = kConnected /\
    map fst (log s) = [kConnecting; kStateClosed; kConnected].
Proof.
  eexists. split.
  - unfold reachable. do 5 worker_runs (@None string). rule_runs s_close. rule_runs s_close_call. rule_runs s_close_inner.
    do 4 worker_runs (@None string). rule_runs s_close_join. apply rtc_refl.
  - vm_compute. split_and!; reflexivity.
Qed.

(** with a limit of [n] attempts and a dial that always fails, the worker makes
    exactly [n] dials and ends in the failed state, reporting kDisconnected,
    provided the delays of the policy are defined. *)
Theorem reconnect_exhausts policy e n d :
  0 < n -> max_attempts policy = n -> e <> EmptyString -> delay_before policy (Z.to_nat n) = Some d ->
  exists s, reachable policy s /\ worker s = WDone /\ permanently_failed (rc s) = true /\
    state_ (rc s) = kDisconnected /\ last_error (rc s) = e /\ dialled s = O.
Proof.
  intros Hn Hm He Hd. eexists. split.
  - unfold reachable. do 3 (eapply rtc_l; [eapply (s_worker policy _ _ None); reflexivity|]). cbn.
    destruct (attempts_run policy e (Z.to_nat n)
      (mkRC false false kConnecting false EmptyString None) [(kConnecting, "initial connect")] 0 [] CNot [] d)
      as (e' & Hr & _ & He'); [done|lia|lia|done|].
    rewrite (He' ltac:(lia)) in Hr. eapply rtc_trans; [exact Hr|]. rewrite Z2Nat.id by lia. cbn.
    eapply rtc_l; [eapply (s_worker policy _ _ None); reflexivity|]. cbn.
    eapply rtc_l; [eapply (s_worker policy _ _ None); cbn|].
    { replace (negb (max_attempts policy =? 0) && (n >=? max_attempts policy)) with true; [reflexivity|].
      destruct (Z.eqb_spec (max_attempts policy) 0), (geb_spec n (max_attempts policy)); done || lia. }
    cbn. eapply rtc_l; [eapply (s_worker policy _ _ None); reflexivity|]. apply rtc_refl.
  - cbn. done.
Qed.

(** the delays. Under the default policy the delay doubles from 100 ms and
    stays at 30 s from the tenth attempt on; under any policy a delay that is
    defined never exceeds the maximum delay nor goes below zero, and the sleep
    adds at most half of the delay. *)
Theorem backoff_schedule :
  map (delay_before ReconnectPolicy_default) (seq 0 10) =
    map Some [100; 200; 400; 800; 1600; 3200; 6400; 12800; 25600; 30000] /\
  (forall n, (9 <= n)%nat -> delay_before ReconnectPolicy_default n = Some 30000) /\
  (forall policy d d', next_delay policy d = Some d' -> 0 <= max_delay policy ->
     0 <= d' <= max_delay policy) /\
  (forall draw d, (forall a b, a <= b -> a <= draw a b <= b) -> 0 <= d ->
     d <= sleep_for draw d <= d + Z.quot d 2).
Proof.
  split_and!.
  - vm_compute. reflexivity.
  - intros n Hn. induction n as [|n IH]; [lia|]. destruct (decide (n = 8)%nat) as [->|]; [vm_compute; reflexivity|].
    cbn [delay_before]. rewrite IH by lia. vm_compute. reflexivity.
  - intros policy d d' Hd Hm. unfold next_delay in Hd. destruct (ll_of_double _); [|done].
    cbn in Hd. injection Hd as <-. lia.
  - intros draw d Hdraw Hd. unfold sleep_for. pose proof (Z.quot_pos d 2 Hd ltac:(lia)).
    destruct (gtb_spec d 0); [|lia]. specialize (Hdraw 0 (Z.max 0 (Z.quot d 2)) ltac:(lia)). lia.
Qed.

(** ** Witnesses *)


Definition two_attempts : ReconnectPolicy := mkReconnectPolicy true 100 30000 two_point_zero 2 5000.

Definition exhausted_state : sys :=
  mkSys (mkRC false true kDisconnected false "refused" None) WDone
    [(kConnecting, "initial connect"); (kDisconnected, "refused")] 0 [] CNot [].

Lemma exhausted_state_reachable : reachable two_attempts exhausted_state.
Proof.
  unfold reachable, two_attempts. do 3 worker_runs (@None string).
  do 2 (do 2 worker_runs (@None string); worker_runs (Some "refused"); do 2 worker_runs (@None string)).
  do 3 worker_runs (@None string). apply rtc_refl.
Qed.

Lemma reconnect_gives_up_witness :
  dialled exhausted_state = O /\ inner (rc exhausted_state) = None /\
  exists st, wait_connected 0 false (rc exhausted_state) = Some st /\ code st = kIoError.
Proof.
  exact (reconnect_gives_up two_attempts exhausted_state exhausted_state 0 exhausted_state_reachable
           eq_refl (rtc_refl _ _)).
Defined.

Definition connected_state : sys :=
  mkSys (mkRC false false kConnecting true EmptyString (Some O)) WConnected
    [(kConnecting, "initial connect")] 1 [] CNot [].

Lemma connected_state_reachable : reachable ReconnectPolicy_default connected_state.
Proof.
  unfold reachable. do 7 worker_runs (@None string). apply rtc_refl.
Qed.


Lemma reconnect_exhausts_witness :
  exists s, reachable two_attempts s /\ worker s = WDone /\ permanently_failed (rc s) = true /\
    state_ (rc s) = kDisconnected /\ last_error (rc s) = "refused" /\ dialled s = O.
Proof.
  apply (reconnect_exhausts two_attempts "refused" 2 400); [lia|reflexivity|discriminate|vm_compute; reflexivity].
Defined.
