(* ===== verification/Dial.v ===== *)
(** * The public entry points (src/duct.cc)

    [listen] and [dial] parse the address, hand it to the transport of its
    scheme and, for [dial], wrap what comes back in a [QosPipe]. The transports
    are a record of functions over the state of the system, so that the dispatch
    is the same on every platform; [posix] is the instance made of the TCP and
    shared-memory transports of this library. *)

From S2P Require Import Prelude Status Options Pipe Wire Address Qos.
From S2P Require ShmNames Tcp Shm.

(** [None] is a call that never returns. *)
Definition M (W A : Type) : Type := W -> option (Result A * W).

Definition fail {W A} (e : Status) : M W A := fun w => Some (RStatus e, w).

(** The transports a build links: named pipes on Windows only. *)
Record Transports (W L : Type) := mkTransports {
  t_tcp_listen : TcpAddress -> ListenOptions -> M W L;
  t_shm_listen : string -> ListenOptions -> M W L;
  t_pipe_listen : option (string -> ListenOptions -> M W L);
  t_tcp_dial : TcpAddress -> DialOptions -> M W AnyPipe;
  t_shm_dial : string -> DialOptions -> M W AnyPipe;
  t_pipe_dial : option (string -> DialOptions -> M W AnyPipe);
}.
Arguments t_tcp_listen {W L}. Arguments t_shm_listen {W L}. Arguments t_pipe_listen {W L}.
Arguments t_tcp_dial {W L}. Arguments t_shm_dial {W L}. Arguments t_pipe_dial {W L}.

(** The pipe [dial] returns: the transport's, or a [QosPipe] around it whose
    worker has been started. *)
Inductive Dialled :=
| Bare (p : AnyPipe)
| Wrapped (s : @qos_state AnyPipe).

Section dispatch.
Context {W L : Type} (T : Transports W L).

(** src/src/duct.cc:24-43 [listen] *)
Definition listen (address : string) (opt : ListenOptions) : M W L :=
  match parse address with
  | RStatus e => fail e
  | RValue a =>
      let not_supported_yet := fail (not_supported ("listen scheme not supported yet: " +:+ scheme_text a)) in
      match scheme a with
      | kTcp => t_tcp_listen T (tcp a) opt
      | kShm => t_shm_listen T (name a) opt
      | kPipe =>
          match t_pipe_listen T with
          | Some pipe_listen => pipe_listen (name a) opt
          | None => not_supported_yet
          end
      | kUds | kUnknown => not_supported_yet
      end
  end.

(** src/src/duct.cc:75-81 [dial, the QoS wrapper] *)
Definition apply_qos (q : QosOptions) (p : AnyPipe) : Dialled :=
  if negb (snd_hwm_bytes q =? 0) || negb (bool_decide (backpressure q = kBlock)) then
    Wrapped (qos_start p q)
  else Bare p.

(** The base pipe of the scheme, then the wrapper. *)
Definition dial_with (dialer : M W AnyPipe) (q : QosOptions) : M W Dialled := fun w =>
  '(r, w) ← dialer w;
  match r with
  | RStatus e => Some (RStatus e, w)
  | RValue p => Some (RValue (apply_qos q p), w)
  end.

(** src/src/duct.cc:45-82 [dial] *)
Definition dial (address : string) (opt : DialOptions) : M W Dialled :=
  match parse address with
  | RStatus e => fail e
  | RValue a =>
      let not_supported_yet := fail (not_supported ("dial scheme not supported yet: " +:+ scheme_text a)) in
      match scheme a with
      | kTcp => dial_with (t_tcp_dial T (tcp a) opt) (dial_qos opt)
      | kShm => dial_with (t_shm_dial T (name a) opt) (dial_qos opt)
      | kPipe =>
          match t_pipe_dial T with
          | Some pipe_dial => dial_with (pipe_dial (name a) opt) (dial_qos opt)
          | None => not_supported_yet
          end
      | kUds | kUnknown => not_supported_yet
      end
  end.

End dispatch.

(** ** The POSIX build *)

(** What the system answers to the calls of one dial or listen. *)
Record posix_answers := mkPosixAnswers {
  pa_resolve : string -> Z -> Z * list Tcp.candidate;
  pa_socket_of : Z -> sock;
  pa_getsockname : Z -> option Tcp.sockname;
  pa_strerror : Z -> string;
  pa_sun_path : Z;
  pa_random1 : Z;
  pa_random2 : Z;
  pa_objects : Shm.resource_answers;
  pa_fd : Z;
  pa_errno : Z;
  pa_good : bool;
  pa_listen_good : bool;
  pa_rendezvous : sock;
  pa_waits : list Shm.wait_event;
}.

(** The descriptors of the sockets and the kernel objects of the shared-memory
    transport. *)
Record posix_system := mkPosix { sys_sockets : gset Z; sys_kernel : Shm.kernel }.

Section posix.
Context {H : HostOrder} (a : posix_answers).

Definition posix_tcp_dial (addr : TcpAddress) (opt : DialOptions) : M posix_system AnyPipe := fun w =>
  let '(r, open) := Tcp.tcp_dial (pa_resolve a) (pa_socket_of a) addr opt (sys_sockets w) in
  Some (match r with RValue p => RValue (mkAnyPipe (any_ops := Tcp.TcpPipe_ops) p) | RStatus e => RStatus e end,
        mkPosix open (sys_kernel w)).

Definition posix_tcp_listen (addr : TcpAddress) (opt : ListenOptions)
    : M posix_system (Tcp.TcpListener + Shm.ShmListener) := fun w =>
  let '(r, open) := Tcp.tcp_listen (pa_resolve a) (pa_getsockname a) addr opt (sys_sockets w) in
  Some (match r with RValue l => RValue (inl l) | RStatus e => RStatus e end, mkPosix open (sys_kernel w)).

Definition posix_shm_dial (bus : string) (opt : DialOptions) : M posix_system AnyPipe := fun w =>
  '(r, k, _) ← Shm.shm_dial (pa_strerror a) (pa_sun_path a) bus opt (pa_random1 a) (pa_random2 a)
    (pa_objects a) (pa_fd a) (pa_errno a) (pa_good a) (pa_rendezvous a) (sys_kernel w);
  Some (match r with
        | RValue p => RValue (mkAnyPipe (any_ops := Shm.ShmPipe_ops) (Shm.mkSide p k (pa_waits a)))
        | RStatus e => RStatus e
        end, mkPosix (sys_sockets w) k).

Definition posix_shm_listen (bus : string) (opt : ListenOptions)
    : M posix_system (Tcp.TcpListener + Shm.ShmListener) := fun w =>
  let '(r, k) := Shm.shm_listen (pa_strerror a) (pa_sun_path a) bus opt (pa_fd a) (pa_errno a)
    (pa_good a) (pa_listen_good a) (sys_kernel w) in
  Some (match r with RValue l => RValue (inr l) | RStatus e => RStatus e end, mkPosix (sys_sockets w) k).

Definition posix : Transports posix_system (Tcp.TcpListener + Shm.ShmListener) :=
  {| t_tcp_listen := posix_tcp_listen; t_shm_listen := posix_shm_listen; t_pipe_listen := None;
     t_tcp_dial := posix_tcp_dial; t_shm_dial := posix_shm_dial; t_pipe_dial := None |}.

(** The names and descriptors the system would hand to a dial are not in use. *)
Definition posix_fresh (w : posix_system) : Prop :=
  (forall h p, Tcp.fresh_fds (sys_sockets w) (snd (pa_resolve a h p))) /\
  (forall bus, Shm.fresh_connection
     (ShmNames.make_names bus (ShmNames.random_conn_id_hex16 (pa_random1 a) (pa_random2 a)))
     (Shm.ra_fd (pa_objects a)) (sys_kernel w)) /\
  pa_fd a ∉ Shm.k_fds (sys_kernel w) /\ pa_fd a <> Shm.ra_fd (pa_objects a).

End posix.

(** What a failed call leaves: the open sockets and the kernel's tables. *)
Definition same_system (w w' : posix_system) : Prop :=
  sys_sockets w' = sys_sockets w /\ Shm.same_resources (sys_kernel w) (sys_kernel w').

(** ** Lemmas *)

Lemma parse_scheme_url sch n :
  sch = kShm \/ sch = kUds \/ sch = kPipe -> n <> EmptyString ->
  let text := match sch with kShm => "shm" | kUds => "uds" | _ => "pipe" end in
  exists a, parse (text +:+ "://" +:+ n) = RValue a /\ scheme a = sch /\ name a = n /\ scheme_text a = text.
Proof.
  intros Hs Hn text. unfold parse. rewrite split_scheme_literal by (unfold text; destruct Hs as [->|[->| ->]]; auto).
  destruct Hs as [->|[->| ->]]; cbn; rewrite bool_decide_eq_false_2 by done; eauto.
Qed.

Lemma same_system_refl w : same_system w w.
Proof. done. Qed.

Lemma dial_with_cases {W} (d : M W AnyPipe) q w r w' :
  dial_with d q w = Some (r, w') ->
  exists r0, d w = Some (r0, w') /\
    r = match r0 with RValue p => RValue (apply_qos q p) | RStatus e => RStatus e end.
Proof. unfold dial_with. destruct (d w) as [[[p|e] w1]|]; cbn; intros [= <- <-]; eauto. Qed.

Section posix_lemmas.
Context {H : HostOrder} (a : posix_answers).

Lemma posix_tcp_dial_failed addr opt w e w' :
  posix_fresh a w -> posix_tcp_dial a addr opt w = Some (RStatus e, w') -> same_system w w' /\ status_ok e = false.
Proof.
  intros (Hf & _) Hd. unfold posix_tcp_dial, Tcp.tcp_dial in Hd. specialize (Hf (host addr) (port addr)).
  destruct (pa_resolve a (host addr) (port addr)) as [rc cands].
  pose proof (Tcp.connect_tcp_result rc cands (sys_sockets w) Hf) as Hc.
  destruct (Tcp.connect_tcp rc cands (sys_sockets w)) as [[fd|e'] open]; [done|].
  injection Hd as -> <-. destruct Hc as (Hc & -> & _). split; [done|]. apply status_ok_false. by rewrite Hc.
Qed.

Lemma posix_shm_dial_failed bus opt w e w' :
  posix_fresh a w -> posix_shm_dial a bus opt w = Some (RStatus e, w') -> same_system w w' /\ status_ok e = false.
Proof.
  intros (_ & Hf & Hfd & Hne) Hd. unfold posix_shm_dial in Hd.
  pose proof (Shm.shm_dial_result (pa_strerror a) (pa_sun_path a) bus opt (pa_random1 a) (pa_random2 a) (pa_objects a)
    (pa_fd a) (pa_errno a) (pa_good a) (pa_rendezvous a) (sys_kernel w) (Hf bus) Hfd Hne) as Hr.
  destruct (Shm.shm_dial _ _ _ _ _ _ _ _ _ _ _ _) as [[[[p|e'] k'] s']|]; [done| |done].
  injection Hd as -> <-. destruct Hr as [He Hs]. done.
Qed.

End posix_lemmas.

(** ** Theorems *)

(** [dial] reaches the transport and the endpoint the address names: every
    TCP URL with a 16-bit port calls the TCP transport with that port and host
    (an empty host being the loopback), a shared-memory URL the shared-memory
    transport with that name, a named-pipe URL the named-pipe transport where
    the build has one; a Unix-socket URL, although it parses, is refused on every
    platform without any effect. The wrapper is all that is done to the
    transport's answer. *)
Theorem dial_dispatch W L (T : Transports W L) h p n opt w :
  0 <= p <= 65535 -> n <> EmptyString ->
  dial T (tcp_url h p) opt w =
    dial_with (t_tcp_dial T (mkTcpAddress (if bool_decide (h = EmptyString) then "127.0.0.1" else h) p) opt)
      (dial_qos opt) w /\
  dial T (shm_url n) opt w = dial_with (t_shm_dial T n opt) (dial_qos opt) w /\
  dial T ("pipe://" +:+ n) opt w =
    match t_pipe_dial T with
    | Some pipe_dial => dial_with (pipe_dial n opt) (dial_qos opt) w
    | None => Some (RStatus (not_supported "dial scheme not supported yet: pipe"), w)
    end /\
  dial T (uds_url n) opt w = Some (RStatus (not_supported "dial scheme not supported yet: uds"), w).
Proof.
  intros Hp Hn. unfold dial.
  destruct (parse_tcp_url h p Hp) as (a & Ha & Hs & Ht). unfold tcp_url. rewrite Ha, Hs, Ht.
  destruct (parse_scheme_url kShm n ltac:(auto) Hn) as (b & Hb & Hbs & Hbn & _).
  destruct (parse_scheme_url kPipe n ltac:(auto) Hn) as (c & Hc & Hcs & Hcn & Hct).
  destruct (parse_scheme_url kUds n ltac:(auto) Hn) as (d & Hd & Hds & _ & Hdt).
  unfold shm_url, uds_url. cbn [String.append] in *. rewrite Hb, Hbs, Hbn, Hc, Hcs, Hcn, Hct, Hd, Hds, Hdt.
  split_and!; [done..| |done]. by destruct (t_pipe_dial T).
Qed.

(** [listen] dispatches in the same way, and a URL it is given for a scheme
    that has no transport is refused without any effect. *)
Theorem listen_dispatch W L (T : Transports W L) h p n opt w :
  0 <= p <= 65535 -> n <> EmptyString ->
  listen T (tcp_url h p) opt w =
    t_tcp_listen T (mkTcpAddress (if bool_decide (h = EmptyString) then "127.0.0.1" else h) p) opt w /\
  listen T (shm_url n) opt w = t_shm_listen T n opt w /\
  listen T ("pipe://" +:+ n) opt w =
    match t_pipe_listen T with
    | Some pipe_listen => pipe_listen n opt w
    | None => Some (RStatus (not_supported "listen scheme not supported yet: pipe"), w)
    end /\
  listen T (uds_url n) opt w = Some (RStatus (not_supported "listen scheme not supported yet: uds"), w).
Proof.
  intros Hp Hn. unfold listen.
  destruct (parse_tcp_url h p Hp) as (a & Ha & Hs & Ht). unfold tcp_url. rewrite Ha, Hs, Ht.
  destruct (parse_scheme_url kShm n ltac:(auto) Hn) as (b & Hb & Hbs & Hbn & _).
  destruct (parse_scheme_url kPipe n ltac:(auto) Hn) as (c & Hc & Hcs & Hcn & Hct).
  destruct (parse_scheme_url kUds n ltac:(auto) Hn) as (d & Hd & Hds & _ & Hdt).
  unfold shm_url, uds_url. cbn [String.append] in *. rewrite Hb, Hbs, Hbn, Hc, Hcs, Hcn, Hct, Hd, Hds, Hdt.
  split_and!; [done..| |done]. by destruct (t_pipe_listen T).
Qed.


(** [dial] does not reconnect and does not report state changes: its result
    is the same whatever the reconnection policy and the state callback in the
    options, and it is the base pipe or a [QosPipe] directly around it. *)
Theorem dial_ignores_reconnect (H : HostOrder) a address t q rp rp' cb cb' w :
  dial (posix a) address (mkDialOptions t q rp cb) w = dial (posix a) address (mkDialOptions t q rp' cb') w /\
  forall r w', dial (posix a) address (mkDialOptions t q rp cb) w = Some (RValue r, w') ->
    exists p, r = Bare p /\ snd_hwm_bytes q = 0 /\ backpressure q = kBlock \/
              r = Wrapped (qos_start p q).
Proof.
  split.
  - unfold dial. destruct (parse address) as [ad|]; [|done]. by destruct (scheme ad).
  - intros r w'. unfold dial. destruct (parse address) as [ad|]; [|done].
    assert (Hq : forall p, apply_qos q p = Bare p /\ snd_hwm_bytes q = 0 /\ backpressure q = kBlock \/
                           apply_qos q p = Wrapped (qos_start p q)).
    { intros p. unfold apply_qos. destruct (Z.eqb_spec (snd_hwm_bytes q) 0); case_bool_decide; cbn; auto. }
    destruct (scheme ad); cbn [t_pipe_dial posix]; try done;
      intros ([r0|e0] & _ & Hr)%dial_with_cases; try done; injection Hr as ->; exists r0; apply Hq.
Qed.

(** ** Witnesses *)

(** A system on which no host resolves and every other call succeeds. *)
Definition no_resolver : posix_answers :=
  mkPosixAnswers (fun _ _ => (1, [])) (fun _ => mkSock [] [] []) (fun _ => None) Shm.no_strerror 108 7 9
    (Shm.all_good 3) 4 0 true true Shm.eager_socket [].
Definition idle_system : posix_system := mkPosix ∅ Shm.empty_kernel.
#[local] Instance some_order : HostOrder := true.

Lemma idle_fresh : posix_fresh no_resolver idle_system.
Proof.
  split_and!; cbn.
  - intros h p. apply Forall_nil_2.
  - intros bus. unfold Shm.fresh_connection. repeat split; try apply lookup_empty. cbn. set_solver.
  - set_solver.
  - discriminate.
Qed.

Lemma dial_dispatch_witness :
  dial (posix no_resolver) (uds_url "/tmp/a") DialOptions_default idle_system =
    Some (RStatus (not_supported "dial scheme not supported yet: uds"), idle_system).
Proof.
  exact (proj2 (proj2 (proj2 (dial_dispatch _ _ (posix no_resolver) "" 80 "/tmp/a" DialOptions_default idle_system
    ltac:(lia) ltac:(discriminate))))).
Defined.

Lemma listen_dispatch_witness :
  listen (posix no_resolver) (uds_url "/tmp/a") ListenOptions_default idle_system =
    Some (RStatus (not_supported "listen scheme not supported yet: uds"), idle_system).
Proof.
  exact (proj2 (proj2 (proj2 (listen_dispatch _ _ (posix no_resolver) "" 80 "/tmp/a" ListenOptions_default idle_system
    ltac:(lia) ltac:(discriminate))))).
Defined.

