(* ===== verification/WinWire.v ===== *)
(** * Framing on Windows (src/wire.cc, the blocks for Windows)

    The transfer loops as the Windows build compiles them: Winsock is started
    before the first transfer, and a call was interrupted when its error is
    WSAEINTR. They are the loops of [Wire] with other error numbers
    ([win_wire_as_posix]), so what is proved of those holds of these, and the two
    sides of a connection may be on different systems ([win_to_posix]). *)

From S2P Require Import Prelude Status Wire.

(** A static with the return code of WSAStartup: [wsa] once it is initialised,
    [startup] what it answers if it is called now. *)
Definition wsa_code (wsa : option Z) (startup : Z) : Z := default startup wsa.

(** src/src/wire.cc:75-86 [ensure_winsock] *)
Definition ensure_winsock (wsa : option Z) (startup : Z) : Status * option Z :=
  let wsa_rc := wsa_code wsa startup in
  (if negb (wsa_rc =? 0) then
     io_error ("WSAStartup failed with error: " +:+ (if wsa_rc <? 0 then "-" +:+ to_string (- wsa_rc) else to_string wsa_rc))
   else Ok, Some wsa_rc).

Definition WSAEINTR : Z := 10004.

(** src/src/wire.cc:88-93 [get_last_error, interrupted]

    The error is the one the call left. *)
Definition win_interrupted (error : Z) : bool := error =? WSAEINTR.

Fixpoint win_write_all_loop (evs : list io_event) (inb out p : list byte) : run Status :=
  match p with
  | [] => Done Ok (mkSock evs inb out)
  | _ :: _ =>
      match evs with
      | [] => Blocks (mkSock [] inb out)
      | e :: evs' =>
          let '(w, error) := sys_send e (length p) in
          if w <? 0 then
            if win_interrupted error then win_write_all_loop evs' inb out p
            else Done (io_error "send() failed") (mkSock evs' inb out)
          else if w =? 0 then Done (closed "peer closed") (mkSock evs' inb out)
          else win_write_all_loop evs' inb (out ++ take (Z.to_nat w) p) (drop (Z.to_nat w) p)
      end
  end.

Fixpoint win_read_exact_loop (evs : list io_event) (inb out buf : list byte) (n : nat)
    : run (Status * list byte) :=
  match n with
  | O => Done (Ok, buf) (mkSock evs inb out)
  | S _ =>
      match evs with
      | [] => Blocks (mkSock [] inb out)
      | e :: evs' =>
          match sys_recv e n (length inb) with
          | None => Blocks (mkSock evs inb out)
          | Some (r, error) =>
              if r <? 0 then
                if win_interrupted error then win_read_exact_loop evs' inb out buf n
                else Done (io_error "recv() failed", buf) (mkSock evs' inb out)
              else if r =? 0 then Done (closed "peer closed", buf) (mkSock evs' inb out)
              else win_read_exact_loop evs' (drop (Z.to_nat r) inb) out
                     (buf ++ take (Z.to_nat r) inb) (n - Z.to_nat r)
          end
      end
  end.

(** A process's Winsock and one of its sockets. *)
Record win_sock := mkWinSock { wsa_rc : option Z; startup_rc : Z; ws : sock }.

(** What a call leaves: [started] the static, the rest as the loop left it. *)
Definition with_winsock {A} (s : win_sock) (failed : Status -> A) (loop : sock -> run A) : run A * option Z :=
  let '(wsa, st) := ensure_winsock (wsa_rc s) (startup_rc s) in
  (if negb (status_ok wsa) then Done (failed wsa) (ws s) else loop (ws s), st).

(** src/src/wire.cc:104-131 [write_all, on Windows] *)
Definition win_write_all (s : win_sock) (p : list byte) : run Status * option Z :=
  with_winsock s (fun st => st) (fun s => win_write_all_loop (so_evs s) (so_in s) (so_out s) p).

(** src/src/wire.cc:133-155 [read_exact, on Windows] *)
Definition win_read_exact (s : win_sock) (n : nat) : run (Status * list byte) * option Z :=
  with_winsock s (fun st => (st, [])) (fun s => win_read_exact_loop (so_evs s) (so_in s) (so_out s) [] n).

(** src/src/wire.cc:159-176 [write_frame, on Windows] *)
Definition win_write_frame {H : HostOrder} (s : win_sock) (msg : list byte) (fl : Z) : run Status * option Z :=
  if len msg >? kMaxFramePayload then
    (Done (invalid_argument "message too large; enable fragmentation (todo)") (ws s), wsa_rc s)
  else
    match win_write_all s (encode_header (frame_header msg fl) hdr_buffer) with
    | (Blocks s', wsa) => (Blocks s', wsa)
    | (Done st s', wsa) =>
        if status_ok st then win_write_all (mkWinSock wsa (startup_rc s) s') msg else (Done st s', wsa)
    end.

(** src/src/wire.cc:178-192 [read_frame, on Windows] *)
Definition win_read_frame {H : HostOrder} (s : win_sock) : run (Result (list byte)) * option Z :=
  match win_read_exact s (Z.to_nat kHeaderLen) with
  | (Blocks s', wsa) => (Blocks s', wsa)
  | (Done (st, hdr) s', wsa) =>
      if negb (status_ok st) then (Done (RStatus st) s', wsa)
      else
        match decode_header hdr with
        | RStatus e => (Done (RStatus e) s', wsa)
        | RValue h =>
            if negb (payload_len h =? 0) then
              match win_read_exact (mkWinSock wsa (startup_rc s) s') (Z.to_nat (payload_len h)) with
              | (Blocks s'', wsa) => (Blocks s'', wsa)
              | (Done (st', buf) s'', wsa) =>
                  (if status_ok st' then Done (RValue buf) s'' else Done (RStatus st') s'', wsa)
              end
            else (Done (RValue []) s', wsa)
        end
  end.

(** The messages of one sender, one after another, and what a receiver reads. *)
Fixpoint win_write_frames {H : HostOrder} (s : win_sock) (msgs : list (list byte)) : run (list Status) * option Z :=
  match msgs with
  | [] => (Done [] (ws s), wsa_rc s)
  | m :: msgs' =>
      match win_write_frame s m 0 with
      | (Blocks s', wsa) => (Blocks s', wsa)
      | (Done st s', wsa) =>
          match win_write_frames (mkWinSock wsa (startup_rc s) s') msgs' with
          | (Blocks s'', wsa) => (Blocks s'', wsa)
          | (Done sts s'', wsa) => (Done (st :: sts) s'', wsa)
          end
      end
  end.

Fixpoint win_read_frames {H : HostOrder} (s : win_sock) (n : nat) : run (list (Result (list byte))) * option Z :=
  match n with
  | O => (Done [] (ws s), wsa_rc s)
  | S n' =>
      match win_read_frame s with
      | (Blocks s', wsa) => (Blocks s', wsa)
      | (Done r s', wsa) =>
          match win_read_frames (mkWinSock wsa (startup_rc s) s') n' with
          | (Blocks s'', wsa) => (Blocks s'', wsa)
          | (Done rs s'', wsa) => (Done (r :: rs) s'', wsa)
          end
      end
  end.

(** ** The same with the other error numbers *)

(** An event of Winsock as one of POSIX: WSAEINTR is EINTR, and the number EINTR
    has there is no interruption. *)
Definition posix_event (e : io_event) : io_event :=
  match e with
  | EvErr x => EvErr (if win_interrupted x then EINTR else if interrupted x then 0 else x)
  | _ => e
  end.
Definition posix_sock (s : sock) : sock := mkSock (map posix_event (so_evs s)) (so_in s) (so_out s).
Definition map_run {A} (f : sock -> sock) (r : run A) : run A :=
  match r with Done a s => Done a (f s) | Blocks s => Blocks (f s) end.

(** Winsock starts, or has started. *)
Definition winsock_up (s : win_sock) : Prop := wsa_code (wsa_rc s) (startup_rc s) = 0.

Lemma posix_interrupted x :
  interrupted (if win_interrupted x then EINTR else if interrupted x then 0 else x) = win_interrupted x.
Proof.
  unfold interrupted, win_interrupted, EINTR, WSAEINTR. destruct (Z.eqb_spec x 10004); [done|].
  destruct (Z.eqb_spec x 4); [done|]. by apply Z.eqb_neq.
Qed.

Lemma posix_send e n :
  (sys_send (posix_event e) n).1 = (sys_send e n).1 /\
  ((sys_send e n).1 < 0 -> interrupted (sys_send (posix_event e) n).2 = win_interrupted (sys_send e n).2).
Proof. destruct e as [k| |x]; cbn; (split; [done|]); [lia|lia|intros _; apply posix_interrupted]. Qed.

Lemma write_loop_as_posix evs inb out p :
  map_run posix_sock (win_write_all_loop evs inb out p) = write_all_loop (map posix_event evs) inb out p.
Proof.
  revert out p. induction evs as [|e evs IH]; intros out [|b p]; cbn [win_write_all_loop write_all_loop map map_run]; try done.
  destruct (posix_send e (length (b :: p))) as [H1 H2].
  destruct (sys_send (posix_event e) _) as [w' err'] eqn:E', (sys_send e _) as [w err]. cbn [fst snd] in H1, H2. subst w'.
  destruct (Z.ltb_spec w 0); [rewrite H2 by done; destruct (win_interrupted err); [apply IH|done]|].
  destruct (w =? 0); [done|]. apply IH.
Qed.

Lemma posix_recv e n avail :
  match sys_recv e n avail, sys_recv (posix_event e) n avail with
  | None, None => True
  | Some (r, err), Some (r', err') => r' = r /\ (r < 0 -> interrupted err' = win_interrupted err)
  | _, _ => False
  end.
Proof.
  destruct e as [k| |x]; cbn; [destruct (avail =? 0)%nat; [done|]; split; [done|lia]|split; [done|lia]|].
  split; [done|]. intros _. apply posix_interrupted.
Qed.

Lemma read_loop_as_posix evs inb out buf n :
  map_run posix_sock (win_read_exact_loop evs inb out buf n) = read_exact_loop (map posix_event evs) inb out buf n.
Proof.
  revert inb buf n. induction evs as [|e evs IH]; intros inb buf [|n]; cbn [win_read_exact_loop read_exact_loop map map_run]; try done.
  pose proof (posix_recv e (S n) (length inb)) as H.
  destruct (sys_recv e _ _) as [[r err]|], (sys_recv (posix_event e) _ _) as [[r' err']|]; try done. destruct H as [-> H].
  destruct (Z.ltb_spec r 0); [rewrite H by done; destruct (win_interrupted err); [apply IH|done]|].
  destruct (r =? 0); [done|]. apply IH.
Qed.

Lemma with_winsock_up {A} s (failed : Status -> A) loop :
  winsock_up s -> with_winsock s failed loop = (loop (ws s), Some 0).
Proof. unfold winsock_up, with_winsock, ensure_winsock. intros ->. done. Qed.

Lemma write_all_as_posix s p :
  winsock_up s -> map_run posix_sock (win_write_all s p).1 = write_all (posix_sock (ws s)) p /\ (win_write_all s p).2 = Some 0.
Proof. intros Hu. unfold win_write_all. rewrite with_winsock_up by done. split; [apply write_loop_as_posix|done]. Qed.

Lemma read_exact_as_posix s n :
  winsock_up s -> map_run posix_sock (win_read_exact s n).1 = read_exact (posix_sock (ws s)) n /\ (win_read_exact s n).2 = Some 0.
Proof. intros Hu. unfold win_read_exact. rewrite with_winsock_up by done. split; [apply read_loop_as_posix|done]. Qed.

Lemma write_frame_as_posix {H : HostOrder} s msg fl :
  winsock_up s -> map_run posix_sock (win_write_frame s msg fl).1 = write_frame (posix_sock (ws s)) msg fl /\
    ((win_write_frame s msg fl).2 = Some 0 \/ (win_write_frame s msg fl).2 = wsa_rc s).
Proof.
  intros Hu. unfold win_write_frame, write_frame. destruct (_ >? _); [split; [done|by right]|].
  destruct (write_all_as_posix s (encode_header (frame_header msg fl) hdr_buffer) Hu) as [<- Hw].
  destruct (win_write_all s _) as [[st s1|s1] wsa]; cbn [fst snd map_run] in *; subst wsa; [|by split; [|left]].
  destruct (status_ok st); [|by split; [|left]].
  destruct (write_all_as_posix (mkWinSock (Some 0) (startup_rc s) s1) msg eq_refl) as [-> ->]. split; [done|by left].
Qed.

Lemma read_frame_as_posix {H : HostOrder} s :
  winsock_up s -> map_run posix_sock (win_read_frame s).1 = read_frame (posix_sock (ws s)) /\ (win_read_frame s).2 = Some 0.
Proof.
  intros Hu. unfold win_read_frame, read_frame.
  destruct (read_exact_as_posix s (Z.to_nat kHeaderLen) Hu) as [<- Hw].
  destruct (win_read_exact s _) as [[[st hdr] s1|s1] wsa]; cbn [fst snd map_run] in *; subst wsa; [|done].
  destruct (status_ok st); cbn [negb]; [|done]. destruct (decode_header hdr) as [h|e]; [|done].
  destruct (payload_len h =? 0); cbn [negb]; [done|].
  destruct (read_exact_as_posix (mkWinSock (Some 0) (startup_rc s) s1) (Z.to_nat (payload_len h)) eq_refl) as [Hr Hw'].
  cbn [ws] in Hr. rewrite <- Hr. destruct (win_read_exact _ _) as [[[st' buf] s2|s2] wsa]; cbn [fst snd map_run] in *; subst wsa; [|done].
  by destruct (status_ok st').
Qed.

Lemma write_frames_as_posix {H : HostOrder} s msgs :
  winsock_up s -> map_run posix_sock (win_write_frames s msgs).1 = write_frames (posix_sock (ws s)) msgs.
Proof.
  revert s. induction msgs as [|m msgs IH]; intros s Hu; [done|]. cbn [win_write_frames write_frames].
  destruct (write_frame_as_posix s m 0 Hu) as [<- Hw].
  destruct (win_write_frame s m 0) as [[st s1|s1] wsa]; cbn [fst snd map_run] in *; [|done].
  assert (Hu' : winsock_up (mkWinSock wsa (startup_rc s) s1)) by (destruct Hw as [-> | ->]; [done|exact Hu]).
  pose proof (IH _ Hu') as Hr. cbn [ws] in Hr. rewrite <- Hr.
  by destruct (win_write_frames _ _) as [[sts s2|s2] wsa'].
Qed.

Lemma read_frames_as_posix {H : HostOrder} s n :
  winsock_up s -> map_run posix_sock (win_read_frames s n).1 = read_frames (posix_sock (ws s)) n.
Proof.
  revert s. induction n as [|n IH]; intros s Hu; [done|]. cbn [win_read_frames read_frames].
  destruct (read_frame_as_posix s Hu) as [<- Hw].
  destruct (win_read_frame s) as [[r s1|s1] wsa]; cbn [fst snd map_run] in *; [|done]. subst wsa.
  pose proof (IH (mkWinSock (Some 0) (startup_rc s) s1) eq_refl) as Hr. cbn [ws] in Hr. rewrite <- Hr.
  by destruct (win_read_frames _ _) as [[rs s2|s2] wsa'].
Qed.

Lemma run_done {A} (r : run A) a s : map_run posix_sock r = Done a s -> exists s', r = Done a s' /\ posix_sock s' = s.
Proof. destruct r; cbn; [|done]. intros [= -> <-]. by eexists. Qed.

(** A socket that is interrupted and moves bytes, and never fails. *)
Definition win_live (evs : list io_event) : Prop := live (map posix_event evs).
Lemma win_transfers evs : transfers (map posix_event evs) = transfers evs.
Proof. unfold transfers. induction evs as [|[] evs IH]; cbn; [done|by rewrite IH|done|done]. Qed.

(** ** Theorems *)

(** C34: framing on Windows is framing on POSIX with other error numbers: once
    Winsock is up, [write_frame] and [read_frame] of the Windows build return, take
    from the socket and give to it exactly what those of the POSIX build do, with
    WSAEINTR in the place of EINTR; when Winsock does not start, both report an I/O
    error, or the oversized message, and the socket is untouched. *)
Theorem win_wire_as_posix {H : HostOrder} s msg fl :
  (winsock_up s ->
     map_run posix_sock (win_write_frame s msg fl).1 = write_frame (posix_sock (ws s)) msg fl /\
     map_run posix_sock (win_read_frame s).1 = read_frame (posix_sock (ws s))) /\
  (~ winsock_up s ->
     (exists st, (win_write_frame s msg fl).1 = Done st (ws s) /\
        code st = if len msg >? kMaxFramePayload then kInvalidArgument else kIoError) /\
     exists e, (win_read_frame s).1 = Done (RStatus e) (ws s) /\ code e = kIoError).
Proof.
  split.
  - intros Hu. split; [by apply write_frame_as_posix|by apply read_frame_as_posix].
  - intros Hu.
    assert (Hw : forall A (failed : Status -> A) loop, exists st, code st = kIoError /\ (with_winsock s failed loop).1 = Done (failed st) (ws s)).
    { intros A failed loop. unfold with_winsock, ensure_winsock, winsock_up in *.
      rewrite (proj2 (Z.eqb_neq _ _)) by done. cbn [negb]. rewrite (proj2 (status_ok_false (io_error _))) by done.
      eexists. split; [|cbn [negb fst]; reflexivity]. reflexivity. }
    split.
    + unfold win_write_frame. destruct (_ >? _); [by eexists|]. unfold win_write_all.
      destruct (Hw _ (fun st => st) (fun s => win_write_all_loop (so_evs s) (so_in s) (so_out s)
        (encode_header (frame_header msg fl) hdr_buffer))) as (st & Hst & Hr).
      destruct (with_winsock s _ _) as [r wsa]. cbn [fst] in Hr. subst r.
      rewrite (proj2 (status_ok_false st)) by congruence. by exists st.
    + unfold win_read_frame, win_read_exact.
      destruct (Hw _ (fun st => (st, [])) (fun s => win_read_exact_loop (so_evs s) (so_in s) (so_out s) []
        (Z.to_nat kHeaderLen))) as (st & Hst & Hr).
      destruct (with_winsock s _ _) as [r wsa]. cbn [fst] in Hr. subst r.
      rewrite (proj2 (status_ok_false st)) by congruence. by exists st.
Qed.

(** The two sides of a connection may be on different systems: what a Windows host
    writes a POSIX host reads, and the other way round, whatever the byte orders,
    the sizes of the transfers and the interruptions. *)
Theorem win_to_posix (H1 H2 : HostOrder) msgs s evs rest :
  winsock_up s -> so_out (ws s) = [] -> Forall fits msgs ->
  win_live (so_evs (ws s)) -> (frames_size msgs <= transfers (so_evs (ws s)))%nat ->
  live evs -> (frames_size msgs <= transfers evs)%nat ->
  (exists s' evs', (win_write_frames (H := H1) s msgs).1 = Done (map (fun _ => Ok) msgs) s' /\
     read_frames (H := H2) (mkSock evs (so_out s' ++ rest) []) (length msgs) = Done (map RValue msgs) (mkSock evs' rest [])) /\
  exists evs' wire s', write_frames (H := H1) (mkSock evs [] []) msgs = Done (map (fun _ => Ok) msgs) (mkSock evs' [] wire) /\
    (win_read_frames (H := H2) (mkWinSock (wsa_rc s) (startup_rc s) (mkSock (so_evs (ws s)) (wire ++ rest) [])) (length msgs)).1 =
      Done (map RValue msgs) s' /\ so_in s' = rest.
Proof.
  intros Hu Ho Hf Hl Ht Hl2 Ht2. rewrite <- win_transfers in Ht. split.
  - destruct (write_frames_live (H := H1) msgs (map posix_event (so_evs (ws s))) (so_in (ws s)) [] Hf Hl Ht) as (e1 & Hw).
    pose proof (write_frames_as_posix (H := H1) s msgs Hu) as Hs. unfold posix_sock at 2 in Hs. rewrite Ho, Hw in Hs.
    apply run_done in Hs as (s' & -> & Hs'). cbn [fst].
    destruct (read_frames_live (H := H2) msgs evs [] rest Hf Hl2 Ht2) as (e2 & Hr). exists s', e2. split; [done|].
    apply (f_equal so_out) in Hs'. cbn in Hs'. by rewrite Hs'.
  - destruct (write_frames_live (H := H1) msgs evs [] [] Hf Hl2 Ht2) as (e1 & Hw). cbn [app] in Hw.
    set (wire := frames msgs) in *.
    destruct (read_frames_live (H := H2) msgs (map posix_event (so_evs (ws s))) [] rest Hf Hl Ht) as (e2 & Hr).
    set (t := mkWinSock (wsa_rc s) (startup_rc s) (mkSock (so_evs (ws s)) (wire ++ rest) [])).
    pose proof (read_frames_as_posix (H := H2) t (length msgs) Hu) as Hs. cbn [ws t] in Hs. unfold posix_sock at 2 in Hs.
    cbn [so_evs so_in so_out] in Hs. fold wire in Hr. rewrite Hr in Hs. apply run_done in Hs as (s' & Hs & Hs').
    exists e1, wire, s'. split; [done|]. split; [done|]. by apply (f_equal so_in) in Hs'.
Qed.

(** ** Witnesses *)

#[local] Instance a_host : HostOrder := true.

(** A process that has not started Winsock yet, over a socket that is interrupted. *)
Definition fresh_win (rc : Z) : win_sock :=
  mkWinSock None rc (mkSock (EvErr WSAEINTR :: replicate 60 (EvXfer 3)) [] []).

Lemma win_wire_as_posix_witness :
  map_run posix_sock (win_write_frame (fresh_win 0) [Init.Byte.x61] 0).1 =
    write_frame (mkSock (EvErr EINTR :: replicate 60 (EvXfer 3)) [] []) [Init.Byte.x61] 0 /\
  exists e, (win_read_frame (fresh_win 10091)).1 = Done (RStatus e) (ws (fresh_win 10091)) /\ code e = kIoError.
Proof.
  split.
  - exact (proj1 (proj1 (win_wire_as_posix (fresh_win 0) [Init.Byte.x61] 0) eq_refl)).
  - apply (proj2 (win_wire_as_posix (fresh_win 10091) [] 0)). discriminate.
Defined.

Lemma win_to_posix_witness :
  exists s' evs', (win_write_frames (fresh_win 0) [[Init.Byte.x61]; []]).1 = Done [Ok; Ok] s' /\
    read_frames (mkSock (replicate 60 (EvXfer 1)) (so_out s' ++ []) []) 2 = Done [RValue [Init.Byte.x61]; RValue []] (mkSock evs' [] []).
Proof.
  apply (win_to_posix true true [[Init.Byte.x61]; []] (fresh_win 0) (replicate 60 (EvXfer 1)) []).
  - reflexivity.
  - reflexivity.
  - repeat constructor; unfold fits; vm_compute; discriminate.
  - repeat constructor.
  - vm_compute. repeat constructor.
  - repeat constructor.
  - vm_compute. repeat constructor.
Defined.
