(* ===== verification/Windows.v ===== *)
(** * The Windows build (src/tcp_transport.cc, src/uds_transport.cc, src/duct.cc)

    What the transports do differently on Windows: Winsock is started before TCP
    sockets are made, Unix sockets are refused; and [windows], the transports
    [dial] and [listen] reach there. A SOCKET is known by its signed value, so
    that the invalid one is -1 as on POSIX. *)

From S2P Require Import Prelude Status Options Pipe Wire Address Qos Dial.
From S2P Require SocketUtils Tcp WinShm NamedPipe.

(** ** TCP *)

(** src/src/tcp_transport.cc:28-40 [ensure_winsock]

    [wsa] is the static with the return code, once it is initialised; [startup]
    is what [WSAStartup] answers if it is called. *)
Definition ensure_winsock (wsa : option Z) (startup : Z) : Status * option Z :=
  let rc := match wsa with Some rc => rc | None => startup end in
  (if negb (rc =? 0) then io_error ("WSAStartup failed with error: " +:+ to_string rc) else Ok, Some rc).

(** The statics and sockets of the process. *)
Record winsock := mkWinsock { wsa_rc : option Z; sockets : gset Z }.

Definition with_winsock {A} (startup : Z) (call : gset Z -> Result A * gset Z) (w : winsock)
    : Result A * winsock :=
  let '(st, wsa) := ensure_winsock (wsa_rc w) startup in
  if negb (status_ok st) then (RStatus st, mkWinsock wsa (sockets w))
  else let '(r, open) := call (sockets w) in (r, mkWinsock wsa open).

(** src/src/tcp_transport.cc:115-160 [connect_tcp, on Windows] *)
Definition win_connect_tcp (startup rc : Z) (cands : list Tcp.candidate) : winsock -> Result Z * winsock :=
  with_winsock startup (Tcp.connect_tcp rc cands).
(** src/src/tcp_transport.cc:162-210 [listen_tcp, on Windows] *)
Definition win_listen_tcp (startup rc : Z) (cands : list Tcp.candidate) : winsock -> Result Z * winsock :=
  with_winsock startup (Tcp.listen_tcp rc cands).

(** ** Unix sockets *)

Definition uds_refused : Status := not_supported "uds not available on windows; use pipe:// instead".
(** src/src/uds_transport.cc:214-217 [uds_listen, on Windows] *)
Definition win_uds_listen {L} (path : string) (opt : ListenOptions) : Result L := RStatus uds_refused.
(** src/src/uds_transport.cc:226-229 [uds_dial, on Windows] *)
Definition win_uds_dial {P} (path : string) (opt : DialOptions) : Result P := RStatus uds_refused.

(** ** The transports *)

(** What the system answers to the calls of one dial or listen. *)
Record win_answers := mkWinAnswers {
  wa_startup : Z;
  wa_resolve : string -> Z -> Z * list Tcp.candidate;
  wa_socket_of : Z -> sock;
  wa_getsockname : Z -> option Tcp.sockname;
  wa_random1 : Z;
  wa_random2 : Z;
  wa_objects : WinShm.resource_answers;
  wa_start : Z;
  wa_tries : list WinShm.try_answer;
  wa_written : option Z;
  wa_bootstrap : Z;
  wa_error : Z;
  wa_waits : list (option Z -> WinShm.wait_answer);
  wa_named : NamedPipe.np_dial_answers;
  wa_pipe : NamedPipe.NamedPipePipe;
}.

(** The sockets, the kernel objects of the shared-memory transport and the
    handles of named pipes. *)
Record win_system := mkWin { win_sockets : winsock; win_kernel : WinShm.wkernel; win_pipes : gset Z }.

Definition win_listener : Type := Tcp.TcpListener + WinShm.ShmListener + NamedPipe.NamedPipeListener.

Section windows.
Context {H : HostOrder} (a : win_answers).

(** src/src/tcp_transport.cc:241-246 [tcp_dial, on Windows] *)
Definition windows_tcp_dial (addr : TcpAddress) (opt : DialOptions) : M win_system AnyPipe := fun w =>
  let '(rc, cands) := wa_resolve a (host addr) (port addr) in
  let '(r, ws) := win_connect_tcp (wa_startup a) rc cands (win_sockets w) in
  Some (match r with
        | RValue fd => RValue (mkAnyPipe (any_ops := Tcp.TcpPipe_ops) (Tcp.mkTcpPipe fd (wa_socket_of a fd) (sockets ws)))
        | RStatus e => RStatus e
        end, mkWin ws (win_kernel w) (win_pipes w)).

(** src/src/tcp_transport.cc:214-239 [tcp_listen, on Windows] *)
Definition windows_tcp_listen (addr : TcpAddress) (opt : ListenOptions) : M win_system win_listener := fun w =>
  let '(rc, cands) := wa_resolve a (host addr) (port addr) in
  let '(r, ws) := win_listen_tcp (wa_startup a) rc cands (win_sockets w) in
  Some (match r with
        | RValue fd =>
            let effective_port :=
              if port addr =? 0 then
                match wa_getsockname a fd with
                | Some (Tcp.SockInet p) | Some (Tcp.SockInet6 p) => p
                | Some Tcp.SockOther | None => port addr
                end
              else port addr in
            RValue (inl (inl (Tcp.mkTcpListener fd (host addr) effective_port (sockets ws))))
        | RStatus e => RStatus e
        end, mkWin ws (win_kernel w) (win_pipes w)).

Definition windows_shm_dial (bus : string) (opt : DialOptions) : M win_system AnyPipe := fun w =>
  '(r, k) ← WinShm.shm_dial bus opt (wa_random1 a) (wa_random2 a) (wa_objects a) (wa_start a) (wa_tries a)
    (wa_written a) (win_kernel w);
  Some (match r with
        | RValue p => RValue (mkAnyPipe (any_ops := WinShm.WinShmPipe_ops) (WinShm.mkWinSide p k (wa_waits a) (wa_error a)))
        | RStatus e => RStatus e
        end, mkWin (win_sockets w) k (win_pipes w)).

Definition windows_shm_listen (bus : string) (opt : ListenOptions) : M win_system win_listener := fun w =>
  let '(r, k) := WinShm.shm_listen bus opt (wa_bootstrap a) (wa_error a) (win_kernel w) in
  Some (match r with RValue l => RValue (inl (inr l)) | RStatus e => RStatus e end,
        mkWin (win_sockets w) k (win_pipes w)).

Definition windows_pipe_dial (pipe : string) (opt : DialOptions) : M win_system AnyPipe := fun w =>
  let '(r, open) := NamedPipe.pipe_dial pipe opt (wa_named a) (wa_pipe a) (win_pipes w) in
  Some (match r with
        | RValue p => RValue (mkAnyPipe (any_ops := NamedPipe.NamedPipePipe_ops) p)
        | RStatus e => RStatus e
        end, mkWin (win_sockets w) (win_kernel w) open).

Definition windows_pipe_listen (pipe : string) (opt : ListenOptions) : M win_system win_listener := fun w =>
  Some (match NamedPipe.pipe_listen pipe opt with RValue l => RValue (inr l) | RStatus e => RStatus e end, w).

Definition windows : Transports win_system win_listener :=
  {| t_tcp_listen := windows_tcp_listen; t_shm_listen := windows_shm_listen;
     t_pipe_listen := Some windows_pipe_listen;
     t_tcp_dial := windows_tcp_dial; t_shm_dial := windows_shm_dial; t_pipe_dial := Some windows_pipe_dial |}.

(** The handles and sockets the system would hand to a dial are not in use. *)
Definition win_fresh (w : win_system) : Prop :=
  (forall h p, Tcp.fresh_fds (sockets (win_sockets w)) (snd (wa_resolve a h p))) /\
  WinShm.fresh_answers (wa_objects a) (win_kernel w) /\
  Forall (fun t => WinShm.w_handles (win_kernel w) !! WinShm.try_handle t = None /\
    WinShm.try_handle t ∉ [WinShm.ra_shm (wa_objects a); WinShm.ra_c2s_items (wa_objects a);
      WinShm.ra_c2s_spaces (wa_objects a); WinShm.ra_s2c_items (wa_objects a); WinShm.ra_s2c_spaces (wa_objects a)])
    (wa_tries a) /\
  NamedPipe.nd_handle (wa_named a) ∉ win_pipes w.

End windows.

(** What a failed call leaves: the sockets, the handles and the named pipes. *)
Definition same_handles (w w' : win_system) : Prop :=
  sockets (win_sockets w') = sockets (win_sockets w) /\
  WinShm.w_handles (win_kernel w') = WinShm.w_handles (win_kernel w) /\ win_pipes w' = win_pipes w.

(** ** Lemmas *)

Section windows_lemmas.
Context {H : HostOrder} (a : win_answers).

Lemma ensure_winsock_status wsa startup st wsa' :
  ensure_winsock wsa startup = (st, wsa') -> st = Ok \/ code st = kIoError.
Proof. unfold ensure_winsock. case_match; intros [= <- <-]; auto. Qed.

Lemma windows_tcp_dial_failed addr opt w e w' :
  win_fresh a w -> windows_tcp_dial a addr opt w = Some (RStatus e, w') -> same_handles w w' /\ status_ok e = false.
Proof.
  intros (Hf & _) Hd. unfold windows_tcp_dial in Hd. specialize (Hf (host addr) (port addr)).
  destruct (wa_resolve a (host addr) (port addr)) as [rc cands]. unfold win_connect_tcp, with_winsock in Hd.
  destruct (ensure_winsock _ _) as [st wsa] eqn:Es. apply ensure_winsock_status in Es.
  destruct (status_ok st) eqn:Est; cbn [negb] in Hd.
  - pose proof (Tcp.connect_tcp_result rc cands (sockets (win_sockets w)) Hf) as Hc.
    destruct (Tcp.connect_tcp rc cands _) as [[fd|e'] open]; [done|]. injection Hd as -> <-.
    destruct Hc as (Hc & -> & _). split; [done|]. apply status_ok_false. by rewrite Hc.
  - injection Hd as <- <-. done.
Qed.

Lemma windows_shm_dial_failed bus opt w e w' :
  win_fresh a w -> windows_shm_dial a bus opt w = Some (RStatus e, w') -> same_handles w w' /\ status_ok e = false.
Proof.
  intros (_ & Ha & Ht & _) Hd. unfold windows_shm_dial in Hd.
  pose proof (WinShm.win_dial_result bus opt (wa_random1 a) (wa_random2 a) (wa_objects a) (wa_start a) (wa_tries a)
    (wa_written a) (win_kernel w) Ha Ht) as Hr.
  destruct (WinShm.shm_dial _ _ _ _ _ _ _ _ _) as [[[p|e'] k']|]; [done| |done].
  injection Hd as -> <-. destruct Hr as [He Hk]. done.
Qed.

Lemma windows_pipe_dial_failed pipe opt w e w' :
  win_fresh a w -> windows_pipe_dial a pipe opt w = Some (RStatus e, w') -> same_handles w w' /\ status_ok e = false.
Proof.
  intros (_ & _ & _ & Hn) Hd. unfold windows_pipe_dial, NamedPipe.pipe_dial in Hd.
  destruct (NamedPipe.nd_wait _ _); cbn [negb] in Hd.
  - destruct (_ =? NamedPipe.INVALID_HANDLE_VALUE); [by injection Hd as <- <-|].
    destruct (NamedPipe.nd_mode _); cbn [negb] in Hd; [done|]. injection Hd as <- <-.
    split; [|done]. unfold same_handles. cbn. split_and!; [done..|]. set_solver.
  - injection Hd as <- <-. split; [done|]. by repeat case_match.
Qed.

End windows_lemmas.

(** ** Theorems *)

(** C25: on Windows too a [dial] that fails leaves no trace: whichever transport the
    address names and wherever it fails, Winsock's start-up included, the
    sockets, object handles and pipe handles are as before, and the result is an
    error status. *)
Theorem windows_dial_no_leak (H : HostOrder) a address opt w e w' :
  win_fresh a w -> dial (windows a) address opt w = Some (RStatus e, w') ->
  same_handles w w' /\ status_ok e = false.
Proof.
  intros Hf. unfold dial. destruct (parse address) as [ad|e'] eqn:Hp.
  2: { intros [= <- <-]. split; [done|]. apply status_ok_false. by rewrite (parse_error_code _ _ Hp). }
  destruct (scheme ad); cbn [t_pipe_dial windows t_tcp_dial t_shm_dial];
    try (by intros [= <- <-]); intros ([r|e0] & Hd & Hr)%dial_with_cases; try done; injection Hr as ->;
    eauto using windows_tcp_dial_failed, windows_shm_dial_failed, windows_pipe_dial_failed.
Qed.

(** Winsock is started at most once: whatever the later answers of
    [WSAStartup], the first code decides every later call; if it is an error, no
    socket is ever made, and if it is not, the Windows calls are those of POSIX. *)
Theorem winsock_once startup startup' rc cands w :
  let '(r1, w1) := win_connect_tcp startup rc cands w in
  wsa_rc w1 = Some (default startup (wsa_rc w)) /\
  fst (ensure_winsock (wsa_rc w1) startup') = fst (ensure_winsock (wsa_rc w) startup) /\
  if default startup (wsa_rc w) =? 0 then
    (r1, sockets w1) = Tcp.connect_tcp rc cands (sockets w)
  else code (status r1) = kIoError /\ ok r1 = false /\ sockets w1 = sockets w.
Proof.
  unfold win_connect_tcp, with_winsock, ensure_winsock. destruct w as [wsa open]. cbn [wsa_rc sockets].
  replace (match wsa with Some rc => rc | None => startup end) with (default startup wsa) by by destruct wsa.
  set (c := default startup wsa). destruct (c =? 0) eqn:E; cbn [negb].
  - change (status_ok Ok) with true. cbn [negb].
    destruct (Tcp.connect_tcp rc cands open); cbn [wsa_rc sockets fst negb]. by rewrite E.
  - rewrite (proj2 (status_ok_false (io_error _))) by done. cbn [negb wsa_rc sockets fst]. by rewrite E.
Qed.

(** ** Witnesses *)

(** A system on which Winsock does not start. *)
Definition no_winsock : win_answers :=
  mkWinAnswers 10091 (fun _ _ => (0, [])) (fun _ => mkSock [] [] []) (fun _ => None) 7 9 WinShm.some_answers 0
    WinShm.busy_then_connected (Some 16) 8 0 []
    (NamedPipe.mkNPDial (fun _ => true) 0 9 0 true 0) (NamedPipe.mkNP 9 [] [] []).
Definition idle_windows : win_system := mkWin (mkWinsock None ∅) WinShm.no_kernel ∅.
#[local] Instance some_order : HostOrder := true.

Lemma idle_windows_fresh : win_fresh no_winsock idle_windows.
Proof.
  split_and!.
  - intros h p. apply Forall_nil_2.
  - repeat constructor; vm_compute; congruence.
  - repeat constructor; cbn; set_solver.
  - cbn. set_solver.
Qed.

Lemma windows_dial_no_leak_witness :
  same_handles idle_windows (mkWin (mkWinsock (Some 10091) ∅) WinShm.no_kernel ∅) /\
  status_ok (io_error "WSAStartup failed with error: 10091") = false.
Proof.
  apply (windows_dial_no_leak some_order no_winsock "tcp://nowhere:1" DialOptions_default idle_windows
    (io_error "WSAStartup failed with error: 10091") (mkWin (mkWinsock (Some 10091) ∅) WinShm.no_kernel ∅)
    idle_windows_fresh).
  reflexivity.
Defined.
