(* ===== verification/Convenience.v ===== *)
(** * The convenience operations (include/duct/convenience.h)

    The option builders over [dial] and [listen], and the operations on a pipe:
    request and reply, batches, and the server, producer and consumer loops. The
    operations are over any implementation of the Pipe interface. A loop runs
    for a number of turns, [None] meaning that it is still running or blocked;
    [loop_returns] says when a loop does return. *)

From S2P Require Import Prelude Status Options Pipe Address Qos Dial.

(** ** Builders *)

(** src/include/duct/convenience.h:21-23 [DialBuilder] *)
Record DialBuilder := mkDialBuilder { db_address : string; db_options : DialOptions }.
Definition DialBuilder_make (address : string) : DialBuilder := mkDialBuilder address DialOptions_default.

Definition on_dial_options (f : DialOptions -> DialOptions) (b : DialBuilder) : DialBuilder :=
  mkDialBuilder (db_address b) (f (db_options b)).
Definition on_dial_qos (f : QosOptions -> QosOptions) : DialBuilder -> DialBuilder :=
  on_dial_options (fun o => mkDialOptions (dial_timeout o) (f (dial_qos o)) (reconnect o) (on_state_change o)).
Definition on_reconnect (f : ReconnectPolicy -> ReconnectPolicy) : DialBuilder -> DialBuilder :=
  on_dial_options (fun o => mkDialOptions (dial_timeout o) (dial_qos o) (f (reconnect o)) (on_state_change o)).

Definition set_snd_hwm (n : Z) (q : QosOptions) : QosOptions :=
  mkQosOptions n (rcv_hwm_bytes q) (Options.backpressure q) (ttl q) (linger q) (reliability q).
Definition set_rcv_hwm (n : Z) (q : QosOptions) : QosOptions :=
  mkQosOptions (snd_hwm_bytes q) n (Options.backpressure q) (ttl q) (linger q) (reliability q).
Definition set_backpressure (p : BackpressurePolicy) (q : QosOptions) : QosOptions :=
  mkQosOptions (snd_hwm_bytes q) (rcv_hwm_bytes q) p (ttl q) (linger q) (reliability q).

(** src/include/duct/convenience.h:26-29 [DialBuilder::timeout] *)
Definition db_timeout (ms : Z) : DialBuilder -> DialBuilder :=
  on_dial_options (fun o => mkDialOptions ms (dial_qos o) (reconnect o) (on_state_change o)).
(** src/include/duct/convenience.h:32-35 [DialBuilder::send_hwm] *)
Definition db_send_hwm (bytes : Z) : DialBuilder -> DialBuilder := on_dial_qos (set_snd_hwm bytes).
(** src/include/duct/convenience.h:38-41 [DialBuilder::recv_hwm] *)
Definition db_recv_hwm (bytes : Z) : DialBuilder -> DialBuilder := on_dial_qos (set_rcv_hwm bytes).
(** src/include/duct/convenience.h:44-47 [DialBuilder::backpressure] *)
Definition db_backpressure (policy : BackpressurePolicy) : DialBuilder -> DialBuilder :=
  on_dial_qos (set_backpressure policy).
(** src/include/duct/convenience.h:50-54 [DialBuilder::auto_reconnect] *)
Definition db_auto_reconnect (initial : Z) : DialBuilder -> DialBuilder :=
  on_reconnect (fun r => mkReconnectPolicy true initial (max_delay r) (backoff_multiplier r) (max_attempts r)
                           (heartbeat_interval r)).
(** src/include/duct/convenience.h:57-60 [DialBuilder::heartbeat] *)
Definition db_heartbeat (interval : Z) : DialBuilder -> DialBuilder :=
  on_reconnect (fun r => mkReconnectPolicy (enabled r) (initial_delay r) (max_delay r) (backoff_multiplier r)
                           (max_attempts r) interval).
(** src/include/duct/convenience.h:63-66 [DialBuilder::on_state_change] *)
Definition db_on_state_change (cb : ConnectionCallback) : DialBuilder -> DialBuilder :=
  on_dial_options (fun o => mkDialOptions (dial_timeout o) (dial_qos o) (reconnect o) cb).
(** src/include/duct/convenience.h:69-76 [DialBuilder::connect] *)
Definition db_connect {W L} (T : Transports W L) (b : DialBuilder) : M W Dialled :=
  dial T (db_address b) (db_options b).

(** src/include/duct/convenience.h:86-88 [ListenBuilder] *)
Record ListenBuilder := mkListenBuilder { lb_address : string; lb_options : ListenOptions }.
Definition ListenBuilder_make (address : string) : ListenBuilder := mkListenBuilder address ListenOptions_default.

Definition on_listen_qos (f : QosOptions -> QosOptions) (b : ListenBuilder) : ListenBuilder :=
  mkListenBuilder (lb_address b) (mkListenOptions (f (listen_qos (lb_options b))) (Options.backlog (lb_options b))).
(** src/include/duct/convenience.h:91-94 [ListenBuilder::backlog] *)
Definition lb_backlog (value : Z) (b : ListenBuilder) : ListenBuilder :=
  mkListenBuilder (lb_address b) (mkListenOptions (listen_qos (lb_options b)) value).
(** src/include/duct/convenience.h:97-100 [ListenBuilder::send_hwm] *)
Definition lb_send_hwm (bytes : Z) : ListenBuilder -> ListenBuilder := on_listen_qos (set_snd_hwm bytes).
(** src/include/duct/convenience.h:103-106 [ListenBuilder::recv_hwm] *)
Definition lb_recv_hwm (bytes : Z) : ListenBuilder -> ListenBuilder := on_listen_qos (set_rcv_hwm bytes).
(** src/include/duct/convenience.h:109-112 [ListenBuilder::backpressure] *)
Definition lb_backpressure (policy : BackpressurePolicy) : ListenBuilder -> ListenBuilder :=
  on_listen_qos (set_backpressure policy).
(** src/include/duct/convenience.h:115-122 [ListenBuilder::bind] *)
Definition lb_bind {W L} (T : Transports W L) (b : ListenBuilder) : M W L :=
  listen T (lb_address b) (lb_options b).

(** src/include/duct/convenience.h:179-181 [connect_raw] *)
Definition connect_raw {W L} (T : Transports W L) (address : string) : M W Dialled :=
  dial T address DialOptions_default.
(** src/include/duct/convenience.h:187-189 [bind_raw] *)
Definition bind_raw {W L} (T : Transports W L) (address : string) : M W L :=
  listen T address ListenOptions_default.

(** ** Operations on a pipe *)

Section operations.
Context {P : Type} `{PipeOps P}.

(** src/include/duct/convenience.h:202-212 [request] *)
Definition request (pipe : P) (req : payload) (timeout : Z) : option (P * Result payload) :=
  '(pipe, st) ← pipe_send pipe req (mkSendOptions timeout);
  if negb (status_ok st) then Some (pipe, RStatus st)
  else pipe_recv pipe (mkRecvOptions timeout).

(** src/include/duct/convenience.h:219-221 [reply] *)
Definition reply (pipe : P) (response : payload) : option (P * Status) :=
  pipe_send pipe response (mkSendOptions 0).

Fixpoint send_loop (pipe : P) (messages : list payload) (sent : Z) : option (P * Result Z) :=
  match messages with
  | [] => Some (pipe, RValue sent)
  | msg :: messages' =>
      '(pipe, st) ← pipe_send pipe msg (mkSendOptions 0);
      if negb (status_ok st) then Some (pipe, RStatus st)
      else send_loop pipe messages' (wrap64 (sent + 1))
  end.

(** src/include/duct/convenience.h:229-240 [send_batch] *)
Definition send_batch (pipe : P) (messages : list payload) : option (P * Result Z) := send_loop pipe messages 0.

Fixpoint batch_loop (pipe : P) (count : nat) (timeout : Z) (messages : list payload)
    : option (P * Result (list payload)) :=
  match count with
  | O => Some (pipe, RValue messages)
  | S count' =>
      '(pipe, msg) ← pipe_recv pipe (mkRecvOptions timeout);
      match msg with
      | RStatus st => Some (pipe, RStatus st)
      | RValue m => batch_loop pipe count' timeout (messages ++ [m])
      end
  end.

(** src/include/duct/convenience.h:249-263 [recv_batch] *)
Definition recv_batch (pipe : P) (count : nat) (timeout : Z) : option (P * Result (list payload)) :=
  batch_loop pipe count timeout [].

End operations.

(** ** Loops *)

(** One turn of a loop leaves the state to go on with, or returns. *)
Inductive turn (X : Type) := Again (x : X) | Returned (x : X) (st : Status).
Arguments Again {X}. Arguments Returned {X}.

Fixpoint run_loop {X} (body : X -> option (turn X)) (turns : nat) (x : X) : option (X * Status) :=
  match turns with
  | O => None
  | S turns' =>
      t ← body x;
      match t with
      | Again x => run_loop body turns' x
      | Returned x st => Some (x, st)
      end
  end.

Section loops.
Context {P S : Type} `{PipeOps P}.

(** The loop body that [echo_server], [serve] and [consume_loop] share: receive,
    return on an error (Ok when it is kClosed), and hand the message over. *)
Definition recv_turn (timeout : Z) (handle : P * S -> payload -> option (P * S * Status)) (x : P * S)
    : option (turn (P * S)) :=
  '(pipe, msg) ← pipe_recv (fst x) (mkRecvOptions timeout);
  match msg with
  | RStatus s => Some (Returned (pipe, snd x) (if bool_decide (code s = kClosed) then Ok else s))
  | RValue m =>
      '(y, st) ← handle (pipe, snd x) m;
      Some (if negb (status_ok st) then Returned y st else Again y)
  end.

(** The owned pipe is destroyed when the function returns. *)
Definition destroy (x : P * S) : P * S := (pipe_close (fst x), snd x).

Definition echo_handle (x : P * S) (m : payload) : option (P * S * Status) :=
  '(pipe, st) ← pipe_send (fst x) m (mkSendOptions 0); Some (pipe, snd x, st).

(** src/include/duct/convenience.h:279-294 [echo_server]

    The second component is not used. *)
Definition echo_server (turns : nat) (x : P * S) : option (P * S * Status) :=
  '(x, st) ← run_loop (recv_turn 0 echo_handle) turns x; Some (destroy x, st).

(** A handler with state [S], which does not touch the pipe. *)
Definition pure_handle (handler : S -> payload -> S * Status) (x : P * S) (m : payload)
    : option (P * S * Status) :=
  let '(s, st) := handler (snd x) m in Some (fst x, s, st).

(** src/include/duct/convenience.h:302-317 [serve] *)
Definition serve (handler : S -> payload -> S * Status) (turns : nat) (x : P * S) : option (P * S * Status) :=
  '(x, st) ← run_loop (recv_turn 0 (pure_handle handler)) turns x; Some (destroy x, st).

(** src/include/duct/convenience.h:345-362 [consume_loop] *)
Definition consume_loop (consume : S -> payload -> S * Status) (timeout : Z) (turns : nat) (x : P * S)
    : option (P * S * Status) :=
  run_loop (recv_turn timeout (pure_handle consume)) turns x.

Definition produce_turn (produce : S -> option payload * S) (timeout : Z) (x : P * S) : option (turn (P * S)) :=
  let '(msg, s) := produce (snd x) in
  match msg with
  | None => Some (Returned (fst x, s) Ok)
  | Some m =>
      '(pipe, st) ← pipe_send (fst x) m (mkSendOptions timeout);
      Some (if negb (status_ok st) then Returned (pipe, s) st else Again (pipe, s))
  end.

(** src/include/duct/convenience.h:326-336 [produce_loop] *)
Definition produce_loop (produce : S -> option payload * S) (timeout : Z) (turns : nat) (x : P * S)
    : option (P * S * Status) :=
  run_loop (produce_turn produce timeout) turns x.

End loops.

(** What a receiving loop returns for a failed receive. *)
Definition end_status (e : Status) : Status := if bool_decide (code e = kClosed) then Ok else e.

(** ** Lemmas *)

Section loop_lemmas.
Context {X : Type} (body : X -> option (turn X)).

(** The states a loop passes through before its last turn. *)
Inductive again : X -> nat -> X -> Prop :=
| again_here x : again x 0 x
| again_turn x y k z : body x = Some (Again y) -> again y k z -> again x (S k) z.

Lemma run_loop_inv n x y st :
  run_loop body n x = Some (y, st) ->
  exists k z, (k < n)%nat /\ again x k z /\ body z = Some (Returned y st).
Proof.
  revert x. induction n as [|n IH]; intros x; cbn; [done|].
  destruct (body x) as [[x1|x1 st1]|] eqn:E; cbn; [| |done].
  - intros (k & z & Hk & Ha & Hb)%IH. exists (S k), z. split; [lia|]. split; [by eapply again_turn|done].
  - intros [= <- <-]. exists O, x. split_and!; [lia|constructor|done].
Qed.

(** Enough turns give the result, whatever their number. *)
Lemma loop_returns x k z y st n :
  again x k z -> body z = Some (Returned y st) -> (k < n)%nat -> run_loop body n x = Some (y, st).
Proof.
  intros Ha. revert n. induction Ha as [x|x x1 k z E Ha IH]; intros n Hb Hn; (destruct n as [|n]; [lia|]); cbn.
  - by rewrite Hb.
  - rewrite E. cbn. apply IH; [done|lia].
Qed.

End loop_lemmas.

Section spec_lemmas.
Context {P S : Type} `{PipeOps P}.

Lemma send_loop_journal (p : journaled P) ms c p' r :
  send_loop p ms (wrap64 c) = Some (p', r) ->
  exists done, all_ok done /\
    match r with
    | RValue n => ms = done.*1 /\ journal p' = journal p ++ sends done /\ n = wrap64 (c + len ms)
    | RStatus e => exists m rest, ms = done.*1 ++ m :: rest /\ status_ok e = false /\
        journal p' = journal p ++ sends done ++ [DidSend m e]
    end.
Proof.
  revert p c. induction ms as [|m ms IH]; intros p c; cbn [send_loop].
  - intros [= <- <-]. exists []. split; [constructor|]. cbn. by rewrite app_nil_r, Z.add_0_r.
  - destruct (pipe_send p m _) as [[q st]|] eqn:E; cbn [mbind option_bind]; [|done].
    destruct p as [p l]. apply journal_send in E. cbn [journal].
    destruct (status_ok st) eqn:Est; cbn [negb].
    + rewrite wrap_add_l. intros (done & Hok & Hr)%IH. exists ((m, st) :: done).
      split; [by constructor|]. rewrite E in Hr. destruct r as [n|e].
      * destruct Hr as (-> & -> & ->). cbn [fmap list_fmap sends map fst snd length].
        rewrite <- app_assoc. split_and!; [done..|]. f_equal. lia.
      * destruct Hr as (m' & rest & -> & He & ->). exists m', rest. rewrite <- app_assoc. done.
    + intros [= <- <-]. exists []. split; [constructor|]. by exists m, ms.
Qed.

Lemma batch_loop_journal (p : journaled P) count timeout acc p' r :
  batch_loop p count timeout acc = Some (p', r) ->
  exists got,
    match r with
    | RValue ms => ms = acc ++ got /\ length got = count /\ journal p' = journal p ++ receives got
    | RStatus e => (length got < count)%nat /\ journal p' = journal p ++ receives got ++ [DidRecv (RStatus e)]
    end.
Proof.
  revert p acc. induction count as [|count IH]; intros p acc; cbn [batch_loop].
  - intros [= <- <-]. exists []. cbn. by rewrite !app_nil_r.
  - destruct (pipe_recv p _) as [[q [m|e]]|] eqn:E; cbn [mbind option_bind]; [| |done];
      destruct p as [p l]; apply journal_recv in E; cbn [journal].
    + intros (got & Hr)%IH. exists (m :: got). rewrite E in Hr. destruct r as [ms|e'].
      * destruct Hr as (-> & <- & ->). by rewrite <- !app_assoc.
      * destruct Hr as (? & ->). cbn [length receives map]. rewrite <- !app_assoc. split; [lia|done].
    + intros [= <- <-]. exists []. rewrite E. cbn. split_and!; [lia|done].
Qed.

Lemma echo_again (x y : journaled P * S) k :
  again (recv_turn 0 echo_handle) x k y ->
  exists ms, length ms = k /\ all_ok ms /\ journal y.1 = journal x.1 ++ echoes ms /\ y.2 = x.2.
Proof.
  induction 1 as [x|x x1 k z E Ha (ms & Hl & Hok & Hj & Hs)].
  - exists []. split_and!; [done|constructor|cbn; by rewrite app_nil_r|done].
  - destruct x as [[p l] s]. unfold recv_turn, echo_handle in E. cbn [fst snd] in E.
    destruct (pipe_recv _ _) as [[q [m|e]]|] eqn:Er; cbn [mbind option_bind fst snd] in E; [|done|done].
    destruct (pipe_send q m _) as [[q' st]|] eqn:Es; cbn [mbind option_bind fst snd] in E; [|done].
    destruct (status_ok st) eqn:Est; cbn [negb] in E; [|done]. injection E as <-.
    apply journal_recv in Er. destruct q as [q lq]. apply journal_send in Es. cbn [journal fst snd] in *.
    exists ((m, st) :: ms). split; [cbn; by rewrite Hl|]. split; [by constructor|]. split; [|done].
    rewrite Hj, Es, Er. cbn [echoes flat_map fst snd app]. by rewrite <- !app_assoc.
Qed.

(** The states a handler passes through on messages it accepts. *)
Inductive accepts (handler : S -> payload -> S * Status) : S -> list payload -> S -> Prop :=
| accepts_nil s : accepts handler s [] s
| accepts_cons s m s1 st ms s2 :
    handler s m = (s1, st) -> status_ok st = true -> accepts handler s1 ms s2 -> accepts handler s (m :: ms) s2.

Lemma handler_again timeout handler (x y : journaled P * S) k :
  again (recv_turn timeout (pure_handle handler)) x k y ->
  exists ms, length ms = k /\ journal y.1 = journal x.1 ++ receives ms /\ accepts handler x.2 ms y.2.
Proof.
  induction 1 as [x|x x1 k z E Ha (ms & Hl & Hj & Hs)].
  - exists []. cbn. rewrite app_nil_r. split_and!; [done..|constructor].
  - destruct x as [[p l] s]. unfold recv_turn, pure_handle in E. cbn [fst snd] in E.
    destruct (pipe_recv _ _) as [[q [m|e]]|] eqn:Er; cbn [mbind option_bind fst snd] in E; [|done|done].
    destruct (handler s m) as [s1 st] eqn:Eh. cbn [mbind option_bind fst snd] in E.
    destruct (status_ok st) eqn:Est; cbn [negb] in E; [|done]. injection E as <-.
    apply journal_recv in Er. cbn [journal fst snd] in *. exists (m :: ms). split; [cbn; by rewrite Hl|].
    rewrite Hj, Er. cbn [receives map]. rewrite <- app_assoc. split; [done|]. by econstructor.
Qed.

(** How a receiving loop with a handler ends. *)
Lemma handler_loop_journal timeout handler turns (x y : journaled P * S) st :
  run_loop (recv_turn timeout (pure_handle handler)) turns x = Some (y, st) ->
  exists ms s1, accepts handler x.2 ms s1 /\
    ((exists e, journal y.1 = journal x.1 ++ receives ms ++ [DidRecv (RStatus e)] /\ y.2 = s1 /\ st = end_status e) \/
     (exists m, journal y.1 = journal x.1 ++ receives (ms ++ [m]) /\ handler s1 m = (y.2, st) /\ status_ok st = false)).
Proof.
  intros (k & z & _ & (ms & _ & Hj & Ha)%handler_again & E)%run_loop_inv. exists ms, z.2. split; [done|].
  destruct z as [[p l] s]. unfold recv_turn, pure_handle in E. cbn [fst snd journal] in *.
  destruct (pipe_recv _ _) as [[q [m|e]]|] eqn:Er; cbn [mbind option_bind fst snd] in E; [| |done];
    apply journal_recv in Er; cbn [journal] in Er; rewrite Hj, <- app_assoc in Er.
  - destruct (handler s m) as [s1 st1] eqn:Eh. cbn [mbind option_bind fst snd] in E.
    destruct (status_ok st1) eqn:Est; cbn [negb] in E; [done|]. injection E as <- <-. right. exists m.
    unfold receives. rewrite map_app. done.
  - injection E as <- <-. left. exists e. done.
Qed.

(** The messages a producer gives, one after another. *)
Inductive produces (produce : S -> option payload * S) : S -> list payload -> S -> Prop :=
| produces_nil s : produces produce s [] s
| produces_cons s m s1 ms s2 :
    produce s = (Some m, s1) -> produces produce s1 ms s2 -> produces produce s (m :: ms) s2.

Lemma produce_again produce timeout (x y : journaled P * S) k :
  again (produce_turn produce timeout) x k y ->
  exists ms, length ms = k /\ all_ok ms /\ journal y.1 = journal x.1 ++ sends ms /\ produces produce x.2 ms.*1 y.2.
Proof.
  induction 1 as [x|x x1 k z E Ha (ms & Hl & Hok & Hj & Hs)].
  - exists []. cbn. rewrite app_nil_r. split_and!; [done|constructor|done|constructor].
  - destruct x as [[p l] s]. unfold produce_turn in E. cbn [fst snd] in E.
    destruct (produce s) as [[m|] s1] eqn:Ep; [|done].
    destruct (pipe_send _ m _) as [[q st]|] eqn:Es; cbn [mbind option_bind fst snd] in E; [|done].
    destruct (status_ok st) eqn:Est; cbn [negb] in E; [|done]. injection E as <-.
    apply journal_send in Es. cbn [journal fst snd] in *. exists ((m, st) :: ms).
    split; [cbn; by rewrite Hl|]. split; [by constructor|]. rewrite Hj, Es. cbn [sends map fst snd fmap list_fmap].
    rewrite <- app_assoc. split; [done|]. by econstructor.
Qed.

End spec_lemmas.

(** ** Theorems *)

(** the builder's setters each change the option they name and keep what the
    others set, so that a chain connects with exactly the options it spells, over
    the address of the factory. *)
Theorem builder_options W L (T : Transports W L) address timeout bytes rbytes policy initial interval cb :
  db_connect T (db_on_state_change cb (db_heartbeat interval (db_auto_reconnect initial
     (db_backpressure policy (db_recv_hwm rbytes (db_send_hwm bytes (db_timeout timeout
       (DialBuilder_make address)))))))) =
    dial T address (mkDialOptions timeout (mkQosOptions bytes rbytes policy 0 0 kAtMostOnce)
      (mkReconnectPolicy true initial 30000 two_point_zero 0 interval) cb) /\
  (forall b, db_send_hwm bytes (db_timeout timeout b) = db_timeout timeout (db_send_hwm bytes b) /\
     db_heartbeat interval (db_auto_reconnect initial b) = db_auto_reconnect initial (db_heartbeat interval b) /\
     db_backpressure policy (db_recv_hwm rbytes b) = db_recv_hwm rbytes (db_backpressure policy b)) /\
  db_connect T (DialBuilder_make address) = connect_raw T address.
Proof. done. Qed.

(** a batch is sent in order and stops at the first failure: success means
    that every message was handed to the pipe and accepted, and returns their
    number; a failure is the answer to the first message that was refused, after
    all before it were accepted, and none after it is tried. A batch received is
    complete, in order; when a receive fails, the messages already received are
    gone with the error. *)
Theorem batches {P} `{PipeOps P} (p : journaled P) ms count timeout :
  (forall p' r, send_batch p ms = Some (p', r) ->
     exists done, all_ok done /\
       match r with
       | RValue n => ms = done.*1 /\ journal p' = journal p ++ sends done /\ n = wrap64 (len ms)
       | RStatus e => exists m rest, ms = done.*1 ++ m :: rest /\ status_ok e = false /\
           journal p' = journal p ++ sends done ++ [DidSend m e]
       end) /\
  (forall p' r, recv_batch p count timeout = Some (p', r) ->
     match r with
     | RValue got => length got = count /\ journal p' = journal p ++ receives got
     | RStatus e => exists got, (length got < count)%nat /\
         journal p' = journal p ++ receives got ++ [DidRecv (RStatus e)]
     end).
Proof.
  split.
  - intros p' r Hr. by apply (send_loop_journal p ms 0).
  - intros p' r (got & Hr)%batch_loop_journal. destruct r; [|by exists got].
    by destruct Hr as (-> & ? & ?).
Qed.

(** a request is one send and, if it is accepted, one receive with the same
    timeout, whose answer is returned; a refused request receives nothing. *)
Theorem request_is_send_recv {P} `{PipeOps P} (p : journaled P) req timeout p' r :
  request p req timeout = Some (p', r) ->
  exists st, (status_ok st = true /\ journal p' = journal p ++ [DidSend req st; DidRecv r]) \/
    (status_ok st = false /\ r = RStatus st /\ journal p' = journal p ++ [DidSend req st]).
Proof.
  unfold request. destruct (pipe_send p req _) as [[q st]|] eqn:E; cbn [mbind option_bind]; [|done].
  destruct p as [p l]. apply journal_send in E. cbn [journal]. exists st.
  destruct (status_ok st) eqn:Est; cbn [negb] in *.
  - left. destruct q as [q lq]. match goal with H : _ = Some _ |- _ => apply journal_recv in H as -> end.
    cbn [journal] in E. by rewrite E, <- app_assoc.
  - right. simplify_eq. done.
Qed.

(** C20: the echo server answers every message it receives with that message, one
    for one and in order, until a receive or a send fails, and destroys the pipe:
    a receive that finds the pipe closed is a normal end, any other failure is
    the status returned. And it does return: on a pipe from which [k] messages
    come and are accepted back before a receive fails, [k + 1] turns are
    enough. *)
Theorem echo_server_spec {P S} `{PipeOps P} (x : journaled P * S) :
  (forall turns y st, echo_server turns x = Some (y, st) ->
     exists ms, all_ok ms /\
       ((exists e, journal y.1 = journal x.1 ++ echoes ms ++ [DidRecv (RStatus e)] /\ st = end_status e) \/
        (exists m, journal y.1 = journal x.1 ++ echoes ms ++ [DidRecv (RValue m); DidSend m st] /\
           status_ok st = false)) /\
       exists p, y.1 = pipe_close p) /\
  (forall k z p e turns, again (recv_turn 0 echo_handle) x k z ->
     pipe_recv z.1 (mkRecvOptions 0) = Some (p, RStatus e) -> (k < turns)%nat ->
     echo_server turns x = Some (pipe_close p, x.2, end_status e)).
Proof.
  split.
  - intros turns y st. unfold echo_server.
    destruct (run_loop _ turns x) as [[y1 st1]|] eqn:E; cbn [mbind option_bind]; [|done].
    intros [= <- <-]. apply run_loop_inv in E as (k & z & _ & (ms & _ & Hok & Hj & _)%echo_again & E).
    exists ms. split; [done|]. split; [|by eexists]. destruct z as [[p l] s], y1 as [[p1 l1] s1].
    unfold recv_turn, echo_handle in E. cbn [fst snd journal destroy pipe_close journaled_ops] in *.
    destruct (pipe_recv _ _) as [[q [m|e]]|] eqn:Er; cbn [mbind option_bind fst snd] in E; [| |done].
    + destruct (pipe_send q m _) as [[q' st']|] eqn:Es; cbn [mbind option_bind fst snd] in E; [|done].
      destruct (status_ok st') eqn:Est; cbn [negb] in E; [done|]. injection E as -> <- <-.
      apply journal_recv in Er. destruct q as [q lq]. apply journal_send in Es. cbn [journal] in *.
      right. exists m. split; [|done]. by rewrite Es, Er, Hj, <- !app_assoc.
    + injection E as -> <- <-. apply journal_recv in Er. cbn [journal] in Er. left. exists e.
      by rewrite Er, Hj, <- app_assoc.
  - intros k z p e turns Ha Hr Hk. destruct (echo_again _ _ _ Ha) as (_ & _ & _ & _ & Hs). unfold echo_server.
    rewrite (loop_returns _ x k z (p, x.2) (end_status e) turns Ha); [done| |done].
    unfold recv_turn. rewrite Hr. cbn [mbind option_bind]. by rewrite Hs.
Qed.

(** [serve] and [consume_loop] give the handler every message received, once
    and in order, with the state the messages before left; they end at the first
    message the handler refuses, with its status, or at the first receive that
    fails, with Ok if the pipe was closed. Only [serve] destroys the pipe. *)
Theorem handlers_see_every_message {P S} `{PipeOps P} (handler : S -> payload -> S * Status) timeout turns
    (x y : journaled P * S) st :
  serve handler turns x = Some (y, st) \/ consume_loop handler timeout turns x = Some (y, st) ->
  exists ms s1, accepts handler x.2 ms s1 /\
    ((exists e, journal y.1 = journal x.1 ++ receives ms ++ [DidRecv (RStatus e)] /\ y.2 = s1 /\ st = end_status e) \/
     (exists m, journal y.1 = journal x.1 ++ receives (ms ++ [m]) /\ handler s1 m = (y.2, st) /\ status_ok st = false)).
Proof.
  intros [E|E]; [|by apply handler_loop_journal in E].
  unfold serve in E. destruct (run_loop _ turns x) as [[y1 st1]|] eqn:E1; cbn [mbind option_bind] in E; [|done].
  injection E as <- <-. apply handler_loop_journal in E1. by destruct y1 as [[p l] s].
Qed.

(** the producer loop sends what the function produces, in order, until it
    produces nothing, and then returns Ok; it stops at the first message the pipe
    refuses, with the pipe's status, and produces no further. *)
Theorem producer_sends_all {P S} `{PipeOps P} (produce : S -> option payload * S) timeout turns
    (x y : journaled P * S) st :
  produce_loop produce timeout turns x = Some (y, st) ->
  exists ms s1, all_ok ms /\ produces produce x.2 ms.*1 s1 /\
    ((journal y.1 = journal x.1 ++ sends ms /\ produce s1 = (None, y.2) /\ st = Ok) \/
     (exists m, journal y.1 = journal x.1 ++ sends ms ++ [DidSend m st] /\ produce s1 = (Some m, y.2) /\
        status_ok st = false)).
Proof.
  intros (k & z & _ & (ms & _ & Hok & Hj & Hp)%produce_again & E)%run_loop_inv. exists ms, z.2.
  split_and!; [done..|]. destruct z as [[p l] s]. unfold produce_turn in E. cbn [fst snd journal] in *.
  destruct (produce s) as [[m|] s1] eqn:Ep; [|injection E as <- <-; by left].
  destruct (pipe_send _ m _) as [[q st1]|] eqn:Es; cbn [mbind option_bind] in E; [|done].
  destruct (status_ok st1) eqn:Est; cbn [negb] in E; [done|]. injection E as <- <-. right.
  apply journal_send in Es. cbn [journal] in Es. exists m. cbn [fst snd].
  by rewrite Es, Hj, <- app_assoc.
Qed.

(** ** Witnesses *)

(** A pipe that will receive the given results and accepts a number of sends. *)
Record feed := mkFeed { incoming : list (Result payload); room : nat }.
#[local] Instance feed_ops : PipeOps feed := {|
  pipe_send p m opt :=
    match room p with
    | O => Some (p, timeout "full")
    | S n => Some (mkFeed (incoming p) n, Ok)
    end;
  pipe_recv p opt :=
    match incoming p with
    | [] => Some (p, RStatus (closed "peer closed"))
    | r :: l => Some (mkFeed l (room p), r)
    end;
  pipe_close p := mkFeed [] 0;
|}.

Definition msg_a : payload := [Init.Byte.x61].
Definition msg_b : payload := [Init.Byte.x62].
Definition two_messages : journaled feed := mkJ (mkFeed [RValue msg_a; RValue msg_b] 9) [].

Lemma batches_witness :
  exists done, all_ok done /\ exists m rest, [msg_a; msg_b] = done.*1 ++ m :: rest /\
    status_ok (timeout "full") = false /\
    [DidSend msg_a Ok; DidSend msg_b (timeout "full")] = [] ++ sends done ++ [DidSend m (timeout "full")].
Proof.
  exact (proj1 (batches (mkJ (mkFeed [] 1) []) [msg_a; msg_b] 0 0)
    (mkJ (mkFeed [] 0) [DidSend msg_a Ok; DidSend msg_b (timeout "full")]) (RStatus (timeout "full")) eq_refl).
Defined.

Lemma request_is_send_recv_witness :
  exists st, (status_ok st = true /\ [DidSend msg_b Ok; DidRecv (RValue msg_a)] = [] ++ [DidSend msg_b st; DidRecv (RValue msg_a)]) \/
    (status_ok st = false /\ RValue msg_a = RStatus st /\
     [DidSend msg_b Ok; DidRecv (RValue msg_a)] = [] ++ [DidSend msg_b st]).
Proof.
  exact (request_is_send_recv two_messages msg_b 5000
    (mkJ (mkFeed [RValue msg_b] 8) [DidSend msg_b Ok; DidRecv (RValue msg_a)]) (RValue msg_a) eq_refl).
Defined.

Lemma echo_server_spec_witness :
  echo_server 3 (two_messages, tt) =
    Some (mkJ (mkFeed [] 0) [DidRecv (RValue msg_a); DidSend msg_a Ok; DidRecv (RValue msg_b); DidSend msg_b Ok;
                             DidRecv (RStatus (closed "peer closed"))], tt, Ok).
Proof.
  refine (eq_trans (proj2 (echo_server_spec (two_messages, tt)) 2%nat
    (mkJ (mkFeed [] 7) [DidRecv (RValue msg_a); DidSend msg_a Ok; DidRecv (RValue msg_b); DidSend msg_b Ok], tt)
    (mkJ (mkFeed [] 7) [DidRecv (RValue msg_a); DidSend msg_a Ok; DidRecv (RValue msg_b); DidSend msg_b Ok;
                        DidRecv (RStatus (closed "peer closed"))]) (closed "peer closed") 3%nat _ _ _) eq_refl).
  - repeat (eapply again_turn; [reflexivity|]). apply again_here.
  - reflexivity.
  - lia.
Defined.

(** Counts its messages and refuses the empty one. *)
Definition count_handler (n : nat) (m : payload) : nat * Status :=
  if bool_decide (m = []) then (n, invalid_argument "empty") else (S n, Ok).

Lemma handlers_see_every_message_witness :
  exists ms s1, accepts count_handler O ms s1 /\
    ((exists e, [DidRecv (RValue msg_a); DidRecv (RValue [])] = [] ++ receives ms ++ [DidRecv (RStatus e)] /\
        1%nat = s1 /\ invalid_argument "empty" = end_status e) \/
     (exists m, [DidRecv (RValue msg_a); DidRecv (RValue [])] = [] ++ receives (ms ++ [m]) /\
        count_handler s1 m = (1%nat, invalid_argument "empty") /\ status_ok (invalid_argument "empty") = false)).
Proof.
  apply (handlers_see_every_message count_handler 0 5 (mkJ (mkFeed [RValue msg_a; RValue []; RValue msg_b] 0) [], O)
    (mkJ (mkFeed [RValue msg_b] 0) [DidRecv (RValue msg_a); DidRecv (RValue [])], 1%nat)).
  right. reflexivity.
Defined.

(** Produces the messages of a list. *)
Definition from_list (l : list payload) : option payload * list payload := (head l, tail l).

Lemma producer_sends_all_witness :
  exists ms s1, all_ok ms /\ produces from_list [msg_a; msg_b] ms.*1 s1 /\
    (([DidSend msg_a Ok; DidSend msg_b Ok] = [] ++ sends ms /\ from_list s1 = (None, []) /\ Ok = Ok) \/
     (exists m, [DidSend msg_a Ok; DidSend msg_b Ok] = [] ++ sends ms ++ [DidSend m Ok] /\
        from_list s1 = (Some m, []) /\ status_ok Ok = false)).
Proof.
  exact (producer_sends_all from_list 0 3 (mkJ (mkFeed [] 2) [], [msg_a; msg_b])
    (mkJ (mkFeed [] 0) [DidSend msg_a Ok; DidSend msg_b Ok], []) Ok eq_refl).
Defined.
