(* ===== verification/Async.v ===== *)
(** * Asynchronous operations (include/duct/async.h)

    [Channel], a queue between threads; [EventLoop], which polls pipes under its
    mutex; and the operations that run on a thread of their own. As in [Queue], a
    member function is a critical section; here the sleepers of the condition
    variable are part of the state, and a notification wakes one or all of
    them. *)

From S2P Require Import Prelude Status Options Pipe.

(** ** Channel *)

Section channel.
Context {A : Type}.

(** src/include/duct/async.h:299-302 [Channel] *)
Record Channel := mkChannel { queue_ : list A; closed_ : bool }.
Definition Channel_new : Channel := mkChannel [] false.

(** What a critical section does to the condition variable. *)
Inductive signal := NoSignal | NotifyOne | NotifyAll.

(** src/include/duct/async.h:242-250 [Channel::send] *)
Definition ch_send (item : A) (c : Channel) : Channel * bool * signal :=
  if negb (closed_ c) then (mkChannel (queue_ c ++ [item]) (closed_ c), true, NotifyOne)
  else (c, false, NoSignal).

(** src/include/duct/async.h:257-257 [Channel::recv, the predicate] *)
Definition recv_pred (c : Channel) : bool := negb (bool_decide (length (queue_ c) = O)) || closed_ c.

(** src/include/duct/async.h:259-265 [Channel::recv, with the predicate true]

    The item, when [recv] returns true. *)
Definition recv_go (c : Channel) : Channel * option A :=
  match queue_ c with
  | [] => (c, None)
  | item :: q => (mkChannel q (closed_ c), Some item)
  end.

(** src/include/duct/async.h:271-279 [Channel::try_recv] *)
Definition try_recv (c : Channel) : Channel * option A :=
  match queue_ c with
  | [] => (c, None)
  | item :: q => (mkChannel q (closed_ c), Some item)
  end.

(** src/include/duct/async.h:284-288 [Channel::close] *)
Definition ch_close (c : Channel) : Channel * signal := (mkChannel (queue_ c) true, NotifyAll).

(** src/include/duct/async.h:293-296 [Channel::empty] *)
Definition ch_empty (c : Channel) : bool := bool_decide (length (queue_ c) = O).

(** The channel, the receivers asleep on the condition variable and those woken
    that have not taken the mutex again, the items accepted and the items
    received, in order. *)
Record ch_state := mkCh {
  chan : Channel;
  sleeping : nat;
  woken : nat;
  put : list A;
  got : list A;
}.
Definition ch_start : ch_state := mkCh Channel_new 0 0 [] [].

Definition wake (sg : signal) (s w : nat) : nat * nat :=
  match sg with
  | NoSignal => (s, w)
  | NotifyOne => match s with O => (O, w) | S s' => (s', S w) end
  | NotifyAll => (O, (s + w)%nat)
  end.

Inductive ch_step : ch_state -> ch_state -> Prop :=
| step_send c s w p g item c' r sg :
    ch_send item c = (c', r, sg) ->
    ch_step (mkCh c s w p g) (mkCh c' (fst (wake sg s w)) (snd (wake sg s w)) (if r then p ++ [item] else p) g)
(* a receiver enters recv *)
| step_recv c s w p g c' r :
    recv_pred c = true -> recv_go c = (c', r) ->
    ch_step (mkCh c s w p g) (mkCh c' s w p (g ++ option_list r))
| step_sleep c s w p g :
    recv_pred c = false -> ch_step (mkCh c s w p g) (mkCh c (S s) w p g)
(* one that was woken looks at the predicate again *)
| step_woken_recv c s w p g c' r :
    recv_pred c = true -> recv_go c = (c', r) ->
    ch_step (mkCh c s (S w) p g) (mkCh c' s w p (g ++ option_list r))
| step_woken_sleep c s w p g :
    recv_pred c = false -> ch_step (mkCh c s (S w) p g) (mkCh c (S s) w p g)
(* a spurious wake-up *)
| step_spurious c s w p g : ch_step (mkCh c (S s) w p g) (mkCh c s (S w) p g)
| step_try c s w p g c' r :
    try_recv c = (c', r) -> ch_step (mkCh c s w p g) (mkCh c' s w p (g ++ option_list r))
| step_close c s w p g c' sg :
    ch_close c = (c', sg) ->
    ch_step (mkCh c s w p g) (mkCh c' (fst (wake sg s w)) (snd (wake sg s w)) p g).

Definition ch_reachable : ch_state -> Prop := rtc ch_step ch_start.

(** No item is unaccounted for, and no receiver sleeps through one. *)
Record ch_inv (s : ch_state) : Prop := {
  inv_items : put s = got s ++ queue_ (chan s);
  inv_awake : (0 < sleeping s)%nat -> closed_ (chan s) = false /\ (length (queue_ (chan s)) <= woken s)%nat;
}.

Lemma recv_pred_false c : recv_pred c = false -> queue_ c = [] /\ closed_ c = false.
Proof.
  unfold recv_pred. rewrite orb_false_iff, negb_false_iff, bool_decide_eq_true.
  intros [Hq ?]. split; [by apply nil_length_inv|done].
Qed.

Lemma recv_go_items c c' r : recv_go c = (c', r) ->
  queue_ c = option_list r ++ queue_ c' /\ closed_ c' = closed_ c /\
  (length (queue_ c') <= pred (length (queue_ c)))%nat.
Proof. unfold recv_go. destruct (queue_ c) eqn:E; intros [= <- <-]; cbn; rewrite ?E; cbn; split_and!; (done || lia). Qed.

Lemma try_recv_items c c' r : try_recv c = (c', r) ->
  queue_ c = option_list r ++ queue_ c' /\ closed_ c' = closed_ c /\
  (length (queue_ c') <= length (queue_ c))%nat.
Proof. unfold try_recv. destruct (queue_ c) eqn:E; intros [= <- <-]; cbn; rewrite ?E; cbn; split_and!; (done || lia). Qed.

Lemma ch_step_items s s' : put s = got s ++ queue_ (chan s) -> ch_step s s' -> put s' = got s' ++ queue_ (chan s').
Proof.
  intros Hi Hst. destruct Hst; cbn [chan put got] in *; subst p; try done.
  - unfold ch_send in *. destruct (closed_ c); simplify_eq/=; [done|]. by rewrite <- app_assoc.
  - apply recv_go_items in H0 as (-> & _). by rewrite <- app_assoc.
  - apply recv_go_items in H0 as (-> & _). by rewrite <- app_assoc.
  - apply try_recv_items in H as (-> & _). by rewrite <- app_assoc.
  - by injection H as <- <-.
Qed.

Definition awake (s : ch_state) : Prop :=
  (0 < sleeping s)%nat -> closed_ (chan s) = false /\ (length (queue_ (chan s)) <= woken s)%nat.

Lemma ch_step_awake s s' : awake s -> ch_step s s' -> awake s'.
Proof.
  unfold awake. intros Ha Hst. destruct Hst; cbn [chan sleeping woken] in *.
  - unfold ch_send in *. destruct (closed_ c) eqn:Ec; injection H as <- <- <-; cbn; [by rewrite Ec|].
    destruct s as [|s]; cbn; [lia|]. rewrite length_app. cbn. intros _. destruct Ha as [_ Ha]; [lia|]. split; [done|lia].
  - apply recv_go_items in H0 as (_ & -> & Hl). intros [? ?]%Ha. split; [done|lia].
  - apply recv_pred_false in H as [-> ->]. cbn. intros _. split; [done|lia].
  - apply recv_go_items in H0 as (_ & -> & Hl). intros [? ?]%Ha. split; [done|lia].
  - apply recv_pred_false in H as [-> ->]. cbn. intros _. split; [done|lia].
  - intros _. destruct Ha as [? ?]; [lia|]. split; [done|lia].
  - apply try_recv_items in H as (_ & -> & Hl). intros [? ?]%Ha. split; [done|lia].
  - injection H as <- <-. cbn. lia.
Qed.

Lemma ch_reachable_inv s : ch_reachable s -> ch_inv s.
Proof.
  intros Hr. split.
  - eapply (rtc_invariant ch_step (fun s => put s = got s ++ queue_ (chan s))); [|exact Hr|done].
    intros; by eapply ch_step_items.
  - eapply (rtc_invariant ch_step awake); [|exact Hr|cbv; lia]. intros; by eapply ch_step_awake.
Qed.

Lemma closed_stays s s' : rtc ch_step s s' -> closed_ (chan s) = true -> closed_ (chan s') = true /\ put s' = put s.
Proof.
  intros Hr Hc. eapply (rtc_invariant ch_step (fun s' => closed_ (chan s') = true /\ put s' = put s)); [|exact Hr|done].
  intros s1 s2 [H1 H2] Hst. destruct Hst; cbn [chan put] in *; try done.
  - unfold ch_send in *. rewrite H1 in H. simplify_eq/=. done.
  - apply recv_go_items in H0 as (_ & -> & _). done.
  - apply recv_go_items in H0 as (_ & -> & _). done.
  - apply try_recv_items in H as (_ & -> & _). done.
  - by injection H as <- <-.
Qed.

End channel.
Arguments Channel : clear implicits.
Arguments ch_state : clear implicits.

(** ** Operations on a thread of their own *)

Section threads.
Context {P : Type} `{PipeOps P}.

(** src/include/duct/async.h:53-57 [async_send]

    What the future holds when the thread is done. *)
Definition async_send (pipe : P) (msg : payload) : option (P * Outcome unit) :=
  '(pipe, st) ← pipe_send pipe msg (mkSendOptions 0); Some (pipe, throw_if_error st).

(** src/include/duct/async.h:62-66 [async_recv] *)
Definition async_recv (pipe : P) : option (P * Outcome payload) :=
  '(pipe, r) ← pipe_recv pipe (mkRecvOptions 0); Some (pipe, value_or_throw r).

(** src/include/duct/async.h:104-109 [async_send, with a callback]

    The argument of the one call of the callback. *)
Definition async_send_callback (pipe : P) (msg : payload) : option (P * Status) :=
  pipe_send pipe msg (mkSendOptions 0).

(** src/include/duct/async.h:114-119 [async_recv, with a callback] *)
Definition async_recv_callback (pipe : P) : option (P * Result payload) := pipe_recv pipe (mkRecvOptions 0).

(** src/include/duct/async.h:337-341 [run_echo_serverInBackground, one message]

    Whether the connection goes on; the answer of [send] is not looked at. *)
Definition echo_turn (pipe : P) : option (P * bool) :=
  '(pipe, msg) ← pipe_recv pipe (mkRecvOptions 0);
  match msg with
  | RStatus _ => Some (pipe, false)
  | RValue m => '(pipe, _) ← pipe_send pipe m (mkSendOptions 0); Some (pipe, true)
  end.

(** src/include/duct/async.h:335-343 [run_echo_serverInBackground, one connection]

    For a number of messages; with more, the thread is still at work. *)
Fixpoint echo_connection (turns : nat) (pipe : P) : option P :=
  match turns with
  | O => None
  | S turns' =>
      '(pipe, more) ← echo_turn pipe;
      if more : bool then echo_connection turns' pipe else Some pipe
  end.

(** ** The event loop *)

(** src/include/duct/async.h:209-213 [EventLoop::PipeEntry]

    Whether each callback is set. *)
Record PipeEntry := mkEntry { entry_pipe : P; on_message : bool; on_error : bool }.

(** A call of an entry's callback. *)
Inductive callback_call := CalledMessage (m : payload) | CalledError (s : Status).

(** What the loop does with what one pipe's [recv] returned: the calls, and
    whether it was activity. *)
Definition entry_result (e : PipeEntry) (msg : Result payload) : list callback_call * bool :=
  match msg with
  | RValue m => (if on_message e then [CalledMessage m] else [], true)
  | RStatus s =>
      (if negb (bool_decide (code s = kTimeout)) && negb (bool_decide (code s = kClosed)) then
         if on_error e then [CalledError s] else []
       else [], false)
  end.

(** src/include/duct/async.h:158-176 [EventLoop::run, one pass]

    The entries, the calls made for each of them, in order, and whether any
    received. *)
Fixpoint loop_pass (pipes : list PipeEntry) : option (list PipeEntry * list (list callback_call) * bool) :=
  match pipes with
  | [] => Some ([], [], false)
  | e :: pipes' =>
      '(p, msg) ← pipe_recv (entry_pipe e) (mkRecvOptions 100);
      let '(calls, active) := entry_result e msg in
      '(rest, more, active') ← loop_pass pipes';
      Some (mkEntry p (on_message e) (on_error e) :: rest, calls :: more, active || active')
  end.

(** src/include/duct/async.h:143-149 [EventLoop::add_pipe] *)
Definition add_pipe (e : PipeEntry) (pipes : list PipeEntry) : list PipeEntry := pipes ++ [e].

End threads.
Arguments PipeEntry : clear implicits.

(** A thread in [run]: about to lock, in the test of [running_], in a pass, in
    [wait_for], woken and about to lock, returned. *)
Inductive loop_pc := LStart | LTest | LPass | LWait | LWoken | LDone.

(** A thread in [stop]: outside, holding the mutex, in [join] holding it. *)
Inductive stop_pc := SIdle | SLocked | SJoin.

Inductive owner := Free | Background | Foreground | Stopper.

(** The mutex, [running_], the loop's own thread, a thread that called [run]
    itself, a thread that calls [stop], and the calls of [stop] that returned. *)
Record loop_state := mkLoop {
  mutex : owner;
  running : bool;
  thread : option loop_pc;
  caller : option loop_pc;
  stopper : stop_pc;
  stops : nat;
}.
Definition loop_start : loop_state := mkLoop Free true None None SIdle 0.

(** src/include/duct/async.h:154-183 [EventLoop::run, the control]

    One step of a thread that owns the mutex as [me]: the mutex, its place. A
    pass may or may not have found activity. *)
Inductive run_step (me : owner) (running : bool) : owner * loop_pc -> owner * loop_pc -> Prop :=
| r_lock : run_step me running (Free, LStart) (me, LTest)
| r_go : running = true -> run_step me running (me, LTest) (me, LPass)
| r_leave : running = false -> run_step me running (me, LTest) (Free, LDone)
| r_active : run_step me running (me, LPass) (me, LTest)
| r_wait : run_step me running (me, LPass) (Free, LWait)
| r_woken o : run_step me running (o, LWait) (o, LWoken)
| r_relock : run_step me running (Free, LWoken) (me, LTest).

(** src/include/duct/async.h:188-206 [EventLoop::runInBackground, EventLoop::stop] *)
Inductive loop_step : loop_state -> loop_state -> Prop :=
| e_thread m m' r pc pc' c st n :
    run_step Background r (m, pc) (m', pc') ->
    loop_step (mkLoop m r (Some pc) c st n) (mkLoop m' r (Some pc') c st n)
| e_caller m m' r t pc pc' st n :
    run_step Foreground r (m, pc) (m', pc') ->
    loop_step (mkLoop m r t (Some pc) st n) (mkLoop m' r t (Some pc') st n)
(* runInBackground *)
| e_background r c st n :
    loop_step (mkLoop Free r None c st n) (mkLoop Free true (Some LStart) c st n)
(* a thread calls run *)
| e_run m r t st n : loop_step (mkLoop m r t None st n) (mkLoop m r t (Some LStart) st n)
(* stop *)
| e_stop r t c n : loop_step (mkLoop Free r t c SIdle n) (mkLoop Stopper false t c SLocked n)
| e_not_joinable r c n :
    loop_step (mkLoop Stopper r None c SLocked n) (mkLoop Free r None c SIdle (S n))
| e_join r pc c n :
    loop_step (mkLoop Stopper r (Some pc) c SLocked n) (mkLoop Stopper r (Some pc) c SJoin n)
| e_joined r c n :
    loop_step (mkLoop Stopper r (Some LDone) c SJoin n) (mkLoop Free r None c SIdle (S n)).

Definition loop_reachable : loop_state -> Prop := rtc loop_step loop_start.

(** Who owns the mutex is where it owns it; the loop's own thread runs while it
    is not being stopped. *)
Record loop_inv (s : loop_state) : Prop := {
  inv_thread : mutex s = Background <-> thread s = Some LTest \/ thread s = Some LPass;
  inv_caller : mutex s = Foreground <-> caller s = Some LTest \/ caller s = Some LPass;
  inv_stopper : mutex s = Stopper <-> stopper s <> SIdle;
  inv_running : thread s <> None -> mutex s <> Stopper -> running s = true;
  inv_stopping : mutex s = Stopper -> running s = false;
  inv_alive : thread s <> Some LDone;
}.

Lemma loop_step_inv s s' : loop_inv s -> loop_step s s' -> loop_inv s'.
Proof.
  intros [H1 H2 H3 H4 H5 H6] Hst. destruct Hst; cbn [mutex running thread caller stopper stops] in *;
    try (match goal with H : run_step _ _ _ _ |- _ => inversion H; subst; clear H end);
    (split; cbn [mutex running thread caller stopper stops]; intuition congruence).
Qed.

Lemma loop_reachable_inv s : loop_reachable s -> loop_inv s.
Proof.
  intros Hr. eapply (rtc_invariant loop_step loop_inv); [exact loop_step_inv|exact Hr|].
  split; cbn; naive_solver.
Qed.

(** The state [stop] cannot leave. *)
Definition stuck (s : loop_state) : Prop :=
  mutex s = Stopper /\ stopper s <> SIdle /\ exists pc, thread s = Some pc /\ pc <> LDone /\ pc <> LTest /\ pc <> LPass.

Lemma stuck_step s s' : stuck s -> loop_step s s' -> stuck s' /\ stops s' = stops s.
Proof.
  intros (H1 & H2 & pc & H3 & H4 & H5 & H6) Hst.
  destruct Hst; cbn [mutex running thread caller stopper stops] in *; simplify_eq;
    try (match goal with H : run_step _ _ _ _ |- _ => inversion H; subst; clear H end);
    unfold stuck; cbn; naive_solver.
Qed.

(** The shortest way of a thread in [run] to a place where the mutex is free. *)
Lemma caller_releases r t pc n :
  exists m pc', pc' <> LTest /\ pc' <> LPass /\ m = Free /\
    forall o, (o = Foreground /\ (pc = LTest \/ pc = LPass) \/ o = Free /\ pc <> LTest /\ pc <> LPass) ->
      rtc loop_step (mkLoop o r t (Some pc) SIdle n) (mkLoop m r t (Some pc') SIdle n).
Proof.
  destruct pc.
  1,4,5,6: (exists Free; eexists; split_and!; [| |done|]; [| |intros o [[-> [?|?]]|[-> _]]; [done..|apply rtc_refl]]; done).
  - destruct r.
    + exists Free, LWait. split_and!; [done..|]. intros o [[-> _]|(_ & ? & ?)]; [|done].
      eapply rtc_l; [by apply e_caller, r_go|]. eapply rtc_l; [by apply e_caller, r_wait|]. apply rtc_refl.
    + exists Free, LDone. split_and!; [done..|]. intros o [[-> _]|(_ & ? & ?)]; [|done].
      eapply rtc_l; [by apply e_caller, r_leave|]. apply rtc_refl.
  - exists Free, LWait. split_and!; [done..|]. intros o [[-> _]|(_ & ? & ?)]; [|done].
    eapply rtc_l; [by apply e_caller, r_wait|]. apply rtc_refl.
Qed.

(** A thread in [run] leaves once [running_] is false and the mutex is free. *)
Lemma caller_leaves t pc n :
  pc <> LTest -> pc <> LPass ->
  rtc loop_step (mkLoop Free false t (Some pc) SIdle n) (mkLoop Free false t (Some LDone) SIdle n).
Proof.
  intros H1 H2.
  assert (Hlast : rtc loop_step (mkLoop Foreground false t (Some LTest) SIdle n) (mkLoop Free false t (Some LDone) SIdle n)).
  { eapply rtc_l; [by apply e_caller, r_leave|]. apply rtc_refl. }
  destruct pc; try done.
  - eapply rtc_l; [apply e_caller, r_lock|done].
  - eapply rtc_l; [apply e_caller, r_woken|]. eapply rtc_l; [apply e_caller, r_relock|done].
  - eapply rtc_l; [apply e_caller, r_relock|done].
Qed.

(** ** Theorems *)

(** C22: a channel delivers every item it accepts exactly once, in the order of
    acceptance, through any interleaving of senders, receivers, polls, spurious
    wake-ups and [close]: the items received and those queued are the items
    accepted. And no receiver sleeps through an item or the close: while one is
    asleep the channel is open, and for every queued item there is a receiver
    awake that has yet to look. *)
Theorem channel_fifo A (s : ch_state A) :
  ch_reachable s ->
  put s = got s ++ queue_ (chan s) /\
  ((0 < sleeping s)%nat -> closed_ (chan s) = false /\ (length (queue_ (chan s)) <= woken s)%nat).
Proof. intros Hr. by destruct (ch_reachable_inv s Hr). Qed.

(** closing a channel is final and loses nothing: from then on [send] answers
    false and changes nothing, [recv] never blocks, and it answers false only
    when every item accepted has been received. *)
Theorem channel_close A (s s' : ch_state A) item :
  ch_reachable s -> closed_ (chan s) = true -> rtc ch_step s s' ->
  put s' = put s /\ ch_send item (chan s') = (chan s', false, NoSignal) /\
  recv_pred (chan s') = true /\ (snd (recv_go (chan s')) = None -> got s' = put s).
Proof.
  intros Hr Hc Hst. destruct (closed_stays s s' Hst Hc) as [Hc' Hp].
  assert (Hr' : ch_reachable s') by (by eapply rtc_trans). destruct (ch_reachable_inv s' Hr') as [Hi _].
  split; [done|]. unfold ch_send, recv_pred, recv_go. rewrite Hc', orb_true_r. cbn.
  split_and!; [done..|]. rewrite <- Hp, Hi. destruct (queue_ (chan s')); [|done]. by rewrite app_nil_r.
Qed.

(** C32: [stop] on a loop that runs in the background never returns: it joins the
    loop's thread while holding the mutex, which that thread needs to see that
    it should stop. In every run from the moment [stop] holds the mutex, [stop]
    is not left, the loop's thread does not end and no pass is made. *)
Theorem event_loop_stop_deadlocks s s' :
  loop_reachable s -> thread s <> None -> stopper s <> SIdle -> rtc loop_step s s' ->
  stopper s' <> SIdle /\ stops s' = stops s /\ mutex s' = Stopper /\
  exists pc, thread s' = Some pc /\ pc <> LDone /\ pc <> LPass.
Proof.
  intros Hr Ht Hs Hst. destruct (loop_reachable_inv s Hr) as [H1 H2 H3 H4 H5 H6]. apply H3 in Hs as Hm.
  assert (Hstuck : stuck s).
  { split; [done|]. split; [done|]. destruct (thread s) as [pc|]; [|done]. exists pc. rewrite Hm in H1. naive_solver. }
  assert (stuck s' /\ stops s' = stops s) as [(H7 & H8 & pc & H9 & H10 & H11 & H12) H13].
  { eapply (rtc_invariant loop_step (fun s' => stuck s' /\ stops s' = stops s)); [|exact Hst|done].
    intros s1 s2 [Hs1 Hn] Hs2. destruct (stuck_step s1 s2 Hs1 Hs2). split; [done|congruence]. }
  split_and!; [done..|]. by exists pc.
Qed.

(** [stop] works on a loop that a thread runs by calling [run] itself: from
    every reachable state without a background thread, there is a run in which
    [stop] returns and that thread leaves [run]. *)
Theorem event_loop_stop_foreground s :
  loop_reachable s -> thread s = None -> stopper s = SIdle ->
  exists s', rtc loop_step s s' /\ stops s' = S (stops s) /\ running s' = false /\
    (caller s <> None -> caller s' = Some LDone).
Proof.
  intros Hr Ht Hs. destruct (loop_reachable_inv s Hr) as [H1 H2 H3 _ _ _].
  destruct s as [m r t c st n]. cbn [mutex running thread caller stopper stops] in *. subst t st.
  assert (Hm : m = Free \/ m = Foreground) by (destruct m; naive_solver).
  assert (Hstop : forall c, rtc loop_step (mkLoop Free r None c SIdle n) (mkLoop Free false None c SIdle (S n))).
  { intros c'. eapply rtc_l; [apply e_stop|]. eapply rtc_l; [apply e_not_joinable|]. apply rtc_refl. }
  destruct c as [pc|].
  - destruct (caller_releases r None pc n) as (m' & pc' & Hp1 & Hp2 & -> & Hrel).
    exists (mkLoop Free false None (Some LDone) SIdle (S n)). split_and!; [|done..].
    eapply rtc_trans; [apply Hrel; destruct Hm as [-> | ->]; naive_solver|].
    eapply rtc_trans; [apply Hstop|by apply caller_leaves].
  - exists (mkLoop Free false None None SIdle (S n)). split_and!; [|done..].
    destruct Hm as [-> | ->]; [apply Hstop|]. by destruct H2 as [H2 _]; destruct (H2 eq_refl).
Qed.

Section journals.
Context {P : Type} `{PipeOps P}.

(** a pass of the loop receives from every pipe once, in the order of
    [add_pipe], and hands each entry its own pipe's answer: a message to its
    message callback, an error other than kTimeout and kClosed to its error
    callback, nothing else; there was activity exactly if some pipe delivered a
    message. *)
Theorem loop_pass_spec (pipes pipes' : list (PipeEntry (journaled P))) calls active :
  loop_pass pipes = Some (pipes', calls, active) ->
  exists rs, length rs = length pipes /\
    map (fun e => journal (entry_pipe e)) pipes' =
      zip_with (fun e r => journal (entry_pipe e) ++ [DidRecv r]) pipes rs /\
    calls = zip_with (fun e r => fst (entry_result e r)) pipes rs /\
    (active = true <-> Exists (fun r => ok r = true) rs) /\
    map (fun e => (on_message e, on_error e)) pipes' = map (fun e => (on_message e, on_error e)) pipes.
Proof.
  revert pipes' calls active. induction pipes as [|e pipes IH]; intros pipes' calls active; cbn [loop_pass].
  - intros [= <- <- <-]. exists []. cbn. split_and!; [done..| |done]. by rewrite Exists_nil.
  - destruct (pipe_recv _ _) as [[p msg]|] eqn:Er; cbn [mbind option_bind]; [|done].
    destruct e as [[q l] om oe]. cbn [entry_pipe] in Er. apply journal_recv in Er.
    destruct (entry_result _ msg) as [cs act] eqn:Ee.
    destruct (loop_pass pipes) as [[[rest more] active']|]; cbn [mbind option_bind]; [|done].
    intros [= <- <- <-]. destruct (IH rest more active' eq_refl) as (rs & Hl & Hj & -> & Hact & Hcb).
    exists (msg :: rs). cbn [zip_with map length entry_pipe on_message on_error journal fst].
    rewrite Hl, Er, Hj, Ee, Hcb. split_and!; [done..| |done].
    rewrite orb_true_iff, Exists_cons, Hact. unfold entry_result in Ee.
    destruct msg; injection Ee as <- <-; cbn [ok]; naive_solver.
Qed.

(** a connection of the background echo server gets every message back, one
    for one and in order, until a receive fails; unlike [echo_server] it goes on
    after a send that fails. *)
Theorem background_echo turns (p p' : journaled P) :
  echo_connection turns p = Some p' ->
  exists ms e, journal p' = journal p ++ echoes ms ++ [DidRecv (RStatus e)].
Proof.
  revert p. induction turns as [|turns IH]; intros p; cbn [echo_connection]; [done|]. unfold echo_turn.
  destruct (pipe_recv p _) as [[q [m|e]]|] eqn:Er; cbn [mbind option_bind]; [| |done];
    destruct p as [p l]; apply journal_recv in Er; cbn [journal].
  - destruct (pipe_send q m _) as [[q' st]|] eqn:Es; cbn [mbind option_bind]; [|done].
    destruct q as [q lq]. apply journal_send in Es. cbn [journal] in *.
    intros (ms & e & Hj)%IH. exists ((m, st) :: ms), e. rewrite Hj, Es, Er.
    cbn [echoes flat_map fst snd app]. by rewrite <- !app_assoc.
  - intros [= <-]. exists [], e. by rewrite Er.
Qed.

End journals.

(** ** Witnesses *)

(** Two items sent, the first received. *)
Definition one_left : ch_state nat := mkCh (mkChannel [2%nat] false) 0 0 [1%nat; 2%nat] [1%nat].
Lemma one_left_reachable : ch_reachable one_left.
Proof.
  eapply rtc_l; [eapply (step_send _ 0 0 [] [] 1%nat _ true NotifyOne); reflexivity|].
  eapply rtc_l; [eapply (step_send _ 0 0 _ [] 2%nat _ true NotifyOne); reflexivity|].
  eapply rtc_l; [eapply (step_recv _ 0 0 _ [] _ (Some 1%nat)); reflexivity|]. apply rtc_refl.
Qed.

Lemma channel_fifo_witness :
  [1%nat; 2%nat] = [1%nat] ++ [2%nat] /\
  ((0 < sleeping one_left)%nat -> closed_ (chan one_left) = false /\ (length (queue_ (chan one_left)) <= woken one_left)%nat).
Proof. exact (channel_fifo nat one_left one_left_reachable). Defined.

(** Then closed, and emptied. *)
Definition one_closed : ch_state nat := mkCh (mkChannel [2%nat] true) 0 0 [1%nat; 2%nat] [1%nat].
Definition all_got : ch_state nat := mkCh (mkChannel [] true) 0 0 [1%nat; 2%nat] [1%nat; 2%nat].
Lemma one_closed_reachable : ch_reachable one_closed.
Proof.
  eapply rtc_r; [exact one_left_reachable|]. apply (step_close _ 0 0 _ _ (mkChannel [2%nat] true) NotifyAll). reflexivity.
Qed.

Lemma channel_close_witness :
  put all_got = put one_closed /\ ch_send 3%nat (chan all_got) = (chan all_got, false, NoSignal) /\
  recv_pred (chan all_got) = true /\ (snd (recv_go (chan all_got)) = None -> got all_got = put one_closed).
Proof.
  apply (channel_close nat one_closed all_got 3%nat one_closed_reachable); [reflexivity|].
  apply rtc_once. apply (step_recv (mkChannel [2%nat] true) 0 0 [1%nat; 2%nat] [1%nat] (mkChannel [] true) (Some 2%nat)); reflexivity.
Defined.

(** A loop in the background, waiting, and [stop] with the mutex. *)
Definition being_stopped : loop_state := mkLoop Stopper false (Some LWait) None SLocked 0.
Lemma being_stopped_reachable : loop_reachable being_stopped.
Proof.
  eapply rtc_l; [apply e_background|]. eapply rtc_l; [apply e_thread, r_lock|].
  eapply rtc_l; [by apply e_thread, r_go|]. eapply rtc_l; [apply e_thread, r_wait|].
  eapply rtc_l; [apply e_stop|]. apply rtc_refl.
Qed.

Lemma event_loop_stop_deadlocks_witness :
  SJoin <> SIdle /\ 0%nat = stops being_stopped /\ Stopper = Stopper /\
  exists pc, Some LWoken = Some pc /\ pc <> LDone /\ pc <> LPass.
Proof.
  apply (event_loop_stop_deadlocks being_stopped (mkLoop Stopper false (Some LWoken) None SJoin 0) being_stopped_reachable);
    [discriminate|discriminate|].
  eapply rtc_l; [apply e_join|]. eapply rtc_l; [apply e_thread, r_woken|]. apply rtc_refl.
Defined.

Lemma event_loop_stop_foreground_witness :
  exists s', rtc loop_step (mkLoop Free true None (Some LStart) SIdle 0) s' /\ stops s' = 1%nat /\ running s' = false /\
    (caller (mkLoop Free true None (Some LStart) SIdle 0) <> None -> caller s' = Some LDone).
Proof.
  apply (event_loop_stop_foreground (mkLoop Free true None (Some LStart) SIdle 0)); [|reflexivity..].
  apply rtc_once, e_run.
Defined.
