(* ===== verification/Slots.v ===== *)
(** * What the variables of a program hold

    A move-only object owns at most one resource. For a map from variables to
    such objects, the multiset of the resources they own, and how it changes when
    a variable is set or goes out of scope: the arithmetic of the conservation
    laws of [Raii], [Utils] and [Logging]. *)

From stdpp Require Export gmultiset.
From S2P Require Import Prelude.

(** Keeps the operations on multisets as [multiset_solver] expects them. *)
#[global] Arguments gmultiset_disj_union : simpl never.
#[global] Arguments gmultiset_difference : simpl never.
#[global] Arguments gmultiset_singleton : simpl never.
#[global] Arguments gmultiset_empty : simpl never.

Section slots.
Context {A : Type} (holds : A -> option nat).

(** What one object, and what all variables, own. *)
Definition held (a : A) : gmultiset nat := list_to_set_disj (option_list (holds a)).
Definition owned (m : gmap nat A) : gmultiset nat := list_to_set_disj (omap holds (map_to_list m).*2).

Lemma owned_cons m l v a :
  map_to_list m ≡ₚ (v, a) :: l -> owned m = held a ⊎ list_to_set_disj (omap holds l.*2).
Proof.
  intros Hm. unfold owned, held. rewrite Hm, <- list_to_set_disj_app. f_equal. cbn. by destruct (holds a).
Qed.

Lemma owned_empty : owned ∅ = ∅.
Proof. unfold owned. by rewrite map_to_list_empty. Qed.

Lemma owned_insert m v a : m !! v = None -> owned (<[v := a]> m) = held a ⊎ owned m.
Proof. intros Hv. by apply (owned_cons _ (map_to_list m) v a), map_to_list_insert. Qed.

Lemma owned_delete m v a : m !! v = Some a -> owned m = held a ⊎ owned (delete v m).
Proof. intros Hv. apply (owned_cons _ (map_to_list (delete v m)) v a). by rewrite map_to_list_delete. Qed.

Lemma owned_update m v a a' : m !! v = Some a -> owned (<[v := a']> m) ⊎ held a = held a' ⊎ owned m.
Proof.
  intros Hv. rewrite (owned_delete m v a Hv), <- insert_delete_eq, owned_insert by apply lookup_delete_eq.
  multiset_solver.
Qed.

Lemma held_none a : holds a = None -> held a = ∅.
Proof. unfold held. by intros ->. Qed.

Lemma held_some a n : holds a = Some n -> held a = {[+ n +]}.
Proof. unfold held. intros ->. cbn. multiset_solver. Qed.

End slots.
