(* ===== verification/Raii.v ===== *)
(** * The scoped wrappers (include/duct/raii.h)

    [ScopedPipe] and [ScopedListener] own a pipe or a listener and close it when
    they are destroyed. The member functions are functions of the wrapper, with
    the calls they make on what it owns; a program is a sequence of them on
    named variables, and the law of conservation over such programs says what
    becomes of every pipe. *)

From S2P Require Import Prelude Slots Status Options Pipe Address Qos Dial.

(** ** The wrappers *)

Section scoped.
Context {P : Type}.

(** src/include/duct/raii.h:68-69 [ScopedPipe] *)
Record Scoped := mkScoped { pipe_ : option P }.

(** What happens to an owned object. *)
Inductive effect := Closed (p : P) | Destroyed (p : P).

(** src/include/duct/raii.h:19-19 [ScopedPipe::ScopedPipe] *)
Definition sp_default : Scoped := mkScoped None.
(** src/include/duct/raii.h:20-20 [ScopedPipe::ScopedPipe(std::unique_ptr<Pipe>)] *)
Definition sp_make (p : P) : Scoped := mkScoped (Some p).

(** src/include/duct/raii.h:49-54 [ScopedPipe::close] *)
Definition sp_close (s : Scoped) : Scoped * list effect :=
  match pipe_ s with
  | Some p => (mkScoped None, [Closed p; Destroyed p])
  | None => (s, [])
  end.

(** src/include/duct/raii.h:22-22 [ScopedPipe::~ScopedPipe] *)
Definition sp_destroy (s : Scoped) : list effect := snd (sp_close s).

(** src/include/duct/raii.h:29-29 [ScopedPipe::ScopedPipe(ScopedPipe&&)]

    The new wrapper and what is left of the old one. *)
Definition sp_move (other : Scoped) : Scoped * Scoped := (mkScoped (pipe_ other), mkScoped None).

(** src/include/duct/raii.h:30-36 [ScopedPipe::operator=(ScopedPipe&&)]

    For two different objects; assigning one to itself does nothing. *)
Definition sp_assign (this other : Scoped) : Scoped * Scoped * list effect :=
  let '(this, e) := sp_close this in
  (mkScoped (pipe_ other), mkScoped None, e).

(** src/include/duct/raii.h:44-46 [ScopedPipe::release] *)
Definition sp_release (s : Scoped) : Scoped * option P := (mkScoped None, pipe_ s).

(** src/include/duct/raii.h:57-57 [ScopedPipe::operator bool] *)
Definition sp_valid (s : Scoped) : bool := bool_decide (is_Some (pipe_ s)).

(** src/include/duct/raii.h:60-62 [ScopedPipe::send]

    [None] also when there is no pipe: the call is undefined. *)
Definition sp_send `{PipeOps P} (s : Scoped) (msg : payload) (opt : SendOptions) : option (Scoped * Status) :=
  p ← pipe_ s; '(p, st) ← pipe_send p msg opt; Some (mkScoped (Some p), st).

(** src/include/duct/raii.h:64-66 [ScopedPipe::recv] *)
Definition sp_recv `{PipeOps P} (s : Scoped) (opt : RecvOptions) : option (Scoped * Result payload) :=
  p ← pipe_ s; '(p, r) ← pipe_recv p opt; Some (mkScoped (Some p), r).

End scoped.
Arguments Scoped : clear implicits.
Arguments effect : clear implicits.

(** [ScopedListener] is the same text over a listener. *)

(** src/include/duct/raii.h:130-131 [ScopedListener] *)
Definition ScopedListener (L : Type) : Type := Scoped L.
(** src/include/duct/raii.h:107-112 [ScopedListener::close] *)
Definition sl_close {L} (s : ScopedListener L) : ScopedListener L * list (effect L) := sp_close s.
(** src/include/duct/raii.h:80-80 [ScopedListener::~ScopedListener] *)
Definition sl_destroy {L} (s : ScopedListener L) : list (effect L) := sp_destroy s.
(** src/include/duct/raii.h:87-87 [ScopedListener::ScopedListener(ScopedListener&&)] *)
Definition sl_move {L} (other : ScopedListener L) : ScopedListener L * ScopedListener L := sp_move other.
(** src/include/duct/raii.h:88-94 [ScopedListener::operator=(ScopedListener&&)] *)
Definition sl_assign {L} (this other : ScopedListener L)
    : ScopedListener L * ScopedListener L * list (effect L) := sp_assign this other.
(** src/include/duct/raii.h:102-104 [ScopedListener::release] *)
Definition sl_release {L} (s : ScopedListener L) : ScopedListener L * option L := sp_release s.

(** src/include/duct/raii.h:118-124 [ScopedListener::accept] *)
Definition sl_accept {L P} `{ListenerOps L P} (s : ScopedListener L)
    : option (ScopedListener L * Result (Scoped P)) :=
  l ← pipe_ s;
  '(l, result) ← listener_accept l;
  Some (mkScoped (Some l), match result with RValue p => RValue (sp_make p) | RStatus e => RStatus e end).

(** src/include/duct/raii.h:126-128 [ScopedListener::local_address] *)
Definition sl_local_address {L P} `{ListenerOps L P} (s : ScopedListener L) : option (Result string) :=
  l ← pipe_ s; Some (listener_local_address l).

Definition scoped_result {A} (r : Result A) : Result (Scoped A) :=
  match r with RValue p => RValue (sp_make p) | RStatus e => RStatus e end.

(** src/include/duct/raii.h:141-147 [connect] *)
Definition connect {W L} (T : Transports W L) (address : string) (opt : DialOptions) : M W (Scoped Dialled) := fun w =>
  '(result, w) ← dial T address opt w; Some (scoped_result result, w).

(** src/include/duct/raii.h:152-158 [bind] *)
Definition bind {W L} (T : Transports W L) (address : string) (opt : ListenOptions) : M W (ScopedListener L) := fun w =>
  '(result, w) ← listen T address opt w; Some (scoped_result result, w).

(** ** Programs *)

Abbreviation pid := nat.
Abbreviation var := nat.

(** The wrappers in scope, the pipes the program holds in plain unique
    pointers, and those that have been closed and destroyed by a wrapper. *)
Record world := mkWorld {
  vars : gmap var (Scoped pid);
  outside : gmultiset pid;
  closed : gmultiset pid;
  gone : gmultiset pid;
}.

Definition apply_effect (w : world) (e : effect pid) : world :=
  match e with
  | Closed p => mkWorld (vars w) (outside w) ({[+ p +]} ⊎ closed w) (gone w)
  | Destroyed p => mkWorld (vars w) (outside w) (closed w) ({[+ p +]} ⊎ gone w)
  end.
Definition apply_effects (es : list (effect pid)) (w : world) : world := foldl apply_effect w es.

Definition set_var (v : var) (s : Scoped pid) (w : world) : world :=
  mkWorld (<[v := s]> (vars w)) (outside w) (closed w) (gone w).

Inductive cmd :=
| Default (v : var)
| Wrap (v : var) (p : pid)
| MoveInto (v other : var)
| Assign (v other : var)
| Release (v : var)
| Close (v : var)
| EndScope (v : var).

(** A command on variables that are, or are not yet, in scope. *)
Definition run_cmd (c : cmd) (w : world) : option world :=
  match c with
  | Default v => if bool_decide (vars w !! v = None) then Some (set_var v sp_default w) else None
  | Wrap v p =>
      if bool_decide (vars w !! v = None /\ p ∈ outside w) then
        Some (set_var v (sp_make p) (mkWorld (vars w) (outside w ∖ {[+ p +]}) (closed w) (gone w)))
      else None
  | MoveInto v other =>
      o ← vars w !! other;
      if bool_decide (vars w !! v = None) then
        let '(this, o) := sp_move o in Some (set_var v this (set_var other o w))
      else None
  | Assign v other =>
      this ← vars w !! v; o ← vars w !! other;
      if bool_decide (v = other) then Some w
      else
        let '(this, o, es) := sp_assign this o in
        Some (set_var v this (set_var other o (apply_effects es w)))
  | Release v =>
      s ← vars w !! v;
      let '(s, p) := sp_release s in
      let w := set_var v s w in
      Some (mkWorld (vars w) (list_to_set_disj (option_list p) ⊎ outside w) (closed w) (gone w))
  | Close v =>
      s ← vars w !! v;
      let '(s, es) := sp_close s in Some (set_var v s (apply_effects es w))
  | EndScope v =>
      s ← vars w !! v;
      let w := apply_effects (sp_destroy s) w in
      Some (mkWorld (delete v (vars w)) (outside w) (closed w) (gone w))
  end.

Fixpoint run_cmds (cs : list cmd) (w : world) : option world :=
  match cs with
  | [] => Some w
  | c :: cs' => w ← run_cmd c w; run_cmds cs' w
  end.

Definition start (pids : gmultiset pid) : world := mkWorld ∅ pids ∅ ∅.

(** ** Conservation *)

Abbreviation held := (Slots.held pipe_).
Abbreviation owned := (Slots.owned pipe_).

Lemma close_effects s w :
  let w' := apply_effects (snd (sp_close s)) w in
  pipe_ (fst (sp_close s)) = None /\ vars w' = vars w /\ outside w' = outside w /\
  closed w' = held s ⊎ closed w /\ gone w' = held s ⊎ gone w.
Proof. destruct s as [[p|]]; cbn; split_and!; try done; unfold held; cbn; multiset_solver. Qed.

Definition conserved (pids : gmultiset pid) (w : world) : Prop :=
  owned (vars w) ⊎ outside w ⊎ gone w = pids /\ closed w = gone w.

Lemma run_cmd_conserved pids c w w' : conserved pids w -> run_cmd c w = Some w' -> conserved pids w'.
Proof.
  intros [Ho Hc]. destruct c as [v|v p|v o|v o|v|v|v]; cbn [run_cmd].
  - case_bool_decide as Hv; [|done]. intros [= <-]. split; [|done]. cbn.
    rewrite owned_insert, (held_none pipe_ sp_default) by done. multiset_solver.
  - case_bool_decide as Hv; [|done]. destruct Hv as [Hv Hp]. intros [= <-]. split; [|done]. cbn.
    rewrite owned_insert by done. unfold held. cbn. multiset_solver.
  - destruct (vars w !! o) as [so|] eqn:Eo; cbn [mbind option_bind]; [|done].
    case_bool_decide as Hv; [|done]. intros [= <-]. split; [|done]. cbn.
    rewrite owned_insert by (rewrite lookup_insert_ne; congruence).
    pose proof (owned_update pipe_ (vars w) o so (mkScoped None) Eo) as Hu. rewrite (held_none pipe_ (mkScoped None)) in Hu by done.
    change (held {| pipe_ := pipe_ so |}) with (held so). multiset_solver.
  - destruct (vars w !! v) as [sv|] eqn:Ev; cbn [mbind option_bind]; [|done].
    destruct (vars w !! o) as [so|] eqn:Eo; cbn [mbind option_bind]; [|done].
    case_bool_decide as Hvo; [by intros [= <-]|].
    pose proof (close_effects sv w) as He. unfold sp_assign. destruct (sp_close sv) as [s1 es]. cbn [fst snd] in *.
    destruct He as (_ & Hvars & Hout & Hcl & Hgo). intros [= <-]. unfold set_var. cbn [vars outside closed gone].
    rewrite Hvars, Hout, Hcl, Hgo, Hc. split; [|done].
    pose proof (owned_update pipe_ (vars w) o so (mkScoped None) Eo) as Hu. rewrite (held_none pipe_ (mkScoped None)) in Hu by done.
    pose proof (owned_update pipe_ (<[o := mkScoped None]> (vars w)) v sv (mkScoped (pipe_ so))) as Hu2.
    rewrite lookup_insert_ne in Hu2 by congruence. specialize (Hu2 Ev).
    change (held {| pipe_ := pipe_ so |}) with (held so) in Hu2. cbn. multiset_solver.
  - destruct (vars w !! v) as [sv|] eqn:Ev; cbn [mbind option_bind]; [|done]. intros [= <-]. split; [|done]. cbn.
    pose proof (owned_update pipe_ (vars w) v sv (mkScoped None) Ev) as Hu. rewrite (held_none pipe_ (mkScoped None)) in Hu by done.
    fold (held sv). multiset_solver.
  - destruct (vars w !! v) as [sv|] eqn:Ev; cbn [mbind option_bind]; [|done].
    pose proof (close_effects sv w) as He. destruct (sp_close sv) as [s1 es]. cbn [fst snd] in *.
    destruct He as (Hn & Hvars & Hout & Hcl & Hgo). intros [= <-]. unfold set_var. split; cbn; [|by rewrite Hcl, Hgo, Hc].
    rewrite Hvars, Hout, Hgo. pose proof (owned_update pipe_ (vars w) v sv s1 Ev) as Hu. rewrite (held_none pipe_ s1) in Hu by done.
    multiset_solver.
  - destruct (vars w !! v) as [sv|] eqn:Ev; cbn [mbind option_bind]; [|done].
    pose proof (close_effects sv w) as He. unfold sp_destroy. destruct (sp_close sv) as [s1 es]. cbn [fst snd] in *.
    destruct He as (_ & Hvars & Hout & Hcl & Hgo). intros [= <-]. split; cbn; [|by rewrite Hcl, Hgo, Hc].
    rewrite Hvars, Hout, Hgo. pose proof (owned_delete pipe_ (vars w) v sv Ev) as Hu. multiset_solver.
Qed.

Lemma run_cmds_conserved pids cs w w' : conserved pids w -> run_cmds cs w = Some w' -> conserved pids w'.
Proof.
  revert w. induction cs as [|c cs IH]; intros w Hw; cbn; [by intros [= <-]|].
  destruct (run_cmd c w) as [w1|] eqn:E; cbn [mbind option_bind]; [|done].
  apply IH. by eapply run_cmd_conserved.
Qed.

Lemma start_conserved pids : conserved pids (start pids).
Proof. split; [|done]. cbn. rewrite owned_empty. multiset_solver. Qed.

(** ** Theorems *)

(** C30: the wrappers neither lose, share nor close twice what they own. Through any
    program of constructions, moves, assignments (to itself too), releases,
    closes and ends of scope, every pipe is in exactly one place: one wrapper,
    one plain pointer, or closed and destroyed by a wrapper; and a wrapper
    destroys a pipe exactly when it has closed it. Once every wrapper is out of
    scope, all pipes the program does not hold itself have been closed, once. *)
Theorem scoped_conservation pids cs w :
  run_cmds cs (start pids) = Some w ->
  owned (vars w) ⊎ outside w ⊎ gone w = pids /\ closed w = gone w /\
  ((forall p, multiplicity p pids <= 1)%nat ->
     forall p, (multiplicity p (owned (vars w)) + multiplicity p (outside w) + multiplicity p (closed w) <= 1)%nat) /\
  (vars w = ∅ -> closed w ⊎ outside w = pids).
Proof.
  intros Hr. destruct (run_cmds_conserved pids cs _ w (start_conserved pids) Hr) as [Ho Hc].
  split_and!; [done..| |].
  - intros Hp p. specialize (Hp p). rewrite <- Ho, !multiplicity_disj_union in Hp. rewrite Hc. lia.
  - intros Hv. rewrite Hv in Ho. rewrite owned_empty in Ho.
    rewrite Hc, <- Ho. multiset_solver.
Qed.

(** a moved-from, released or closed wrapper is empty and its end of scope does
    nothing; closing again does nothing. *)
Theorem scoped_empties P (s other : Scoped P) :
  sp_destroy (snd (sp_move s)) = [] /\ sp_destroy (fst (sp_release s)) = [] /\
  sp_close (fst (sp_close s)) = (fst (sp_close s), []) /\
  sp_valid (fst (sp_close s)) = false /\ sp_valid (fst (sp_release s)) = false /\
  (let '(this, other', es) := sp_assign s other in
   pipe_ this = pipe_ other /\ sp_valid other' = false /\ es = sp_destroy s).
Proof. destruct s as [[p|]], other as [[q|]]; cbn; split_and!; done. Qed.

(** ** Witnesses *)

(** Two pipes: one moved on and closed by the scope, one released. *)
Definition sample_program : list cmd :=
  [Wrap 0 7; MoveInto 1 0; Wrap 2 8; Assign 0 1; Assign 0 0; Release 2; Close 1; EndScope 0; EndScope 1;
   EndScope 2]%nat.

Lemma sample_program_runs :
  run_cmds sample_program (start {[+ 7%nat; 8%nat +]}) = Some (mkWorld ∅ {[+ 8%nat +]} {[+ 7%nat +]} {[+ 7%nat +]}).
Proof. vm_compute. reflexivity. Qed.

Lemma scoped_conservation_witness :
  owned ∅ ⊎ {[+ 8%nat +]} ⊎ {[+ 7%nat +]} = {[+ 7%nat; 8%nat +]}.
Proof.
  exact (proj1 (scoped_conservation {[+ 7%nat; 8%nat +]} sample_program _ sample_program_runs)).
Defined.
