(* ===== verification/FloatText.v ===== *)
(** * The text of floating-point numbers

    [std::to_string] of a [float] or a [double], which utils.h appends to a
    string: the C library's ["%f"], with its default rounding. The number is the
    exact binary value; the text is the decimal with six places nearest to it,
    and the even one of two that are equally near. *)

From S2P Require Import Prelude Options Address.
From Stdlib Require Import Floats.SpecFloat.

(** [n / d] to the nearest integer, to the even one half-way. *)
Definition round_half_even (n d : Z) : Z :=
  let q := n / d in
  let r := n mod d in
  if 2 * r <? d then q else if d <? 2 * r then q + 1 else if Z.even q then q else q + 1.

(** The millionths of [m * 2 ^ e]. *)
Definition micros (m : positive) (e : Z) : Z :=
  if 0 <=? e then Z.pos m * 2 ^ e * 10 ^ 6 else round_half_even (Z.pos m * 10 ^ 6) (2 ^ (- e)).

(** The last [k] decimal digits. *)
Fixpoint fixed_digits (k : nat) (z : Z) (acc : string) : string :=
  match k with
  | O => acc
  | S k' => fixed_digits k' (z / 10) (String (ascii_of_code (48 + z mod 10)) acc)
  end.

(** The digits available before the point, enough for the largest [double]. *)
Definition max_digits : nat := 310.

Definition sign_text (s : bool) : string := if s then "-" else EmptyString.

(** [nan_sign] is the sign bit of a value that is not a number, which the C
    library shows. *)
Definition double_to_string (nan_sign : bool) (d : double) : string :=
  match d with
  | S754_nan => sign_text nan_sign +:+ "nan"
  | S754_infinity s => sign_text s +:+ "inf"
  | S754_zero s => sign_text s +:+ "0.000000"
  | S754_finite s m e =>
      let v := micros m e in
      sign_text s +:+ to_string_go max_digits (v / 10 ^ 6) EmptyString +:+ "." +:+ fixed_digits 6 (v mod 10 ^ 6) EmptyString
  end.

(** ** Lemmas *)

(** [n / d] is at most half a unit away, and exactly half only of an even one. *)
Definition nearest (n d q : Z) : Prop :=
  2 * Z.abs (q * d - n) <= d /\ (2 * Z.abs (q * d - n) = d -> Z.even q = true).

Lemma round_half_even_nearest n d : 0 < d -> nearest n d (round_half_even n d).
Proof.
  intros Hd. unfold nearest, round_half_even. pose proof (Z.div_mod n d ltac:(lia)) as Hn.
  pose proof (Z.mod_pos_bound n d Hd) as Hr. set (q := n / d) in *. set (r := n mod d) in *.
  destruct (Z.ltb_spec (2 * r) d); [|destruct (Z.ltb_spec d (2 * r)); [|destruct (Z.even q) eqn:Eq]].
  - replace (q * d - n) with (- r) by lia. split; [lia|]. intros; exfalso; lia.
  - replace ((q + 1) * d - n) with (d - r) by lia. split; [lia|]. intros; exfalso; lia.
  - replace (q * d - n) with (- r) by lia. split; [lia|done].
  - replace ((q + 1) * d - n) with (d - r) by lia. split; [lia|]. intros _.
    by rewrite Z.add_1_r, Z.even_succ, <- Z.negb_even, Eq.
Qed.

Lemma micros_nonneg m e : 0 <= micros m e.
Proof.
  unfold micros. destruct (Z.leb_spec 0 e) as [He|He]; [pose proof (Z.pow_pos_nonneg 2 e); lia|].
  assert (0 < 2 ^ (- e)) by (apply Z.pow_pos_nonneg; lia).
  assert (0 <= Z.pos m * 10 ^ 6 / 2 ^ (- e)) by (apply Z.div_pos; lia).
  unfold round_half_even. repeat case_match; lia.
Qed.

Lemma micros_bound m e : Z.pos m < 2 ^ 53 -> e <= 971 -> micros m e / 10 ^ 6 < 10 ^ Z.of_nat max_digits.
Proof.
  intros Hm He. apply Z.div_lt_upper_bound; [lia|]. unfold micros.
  assert (Hbig : 2 ^ 53 * 2 ^ 971 < 10 ^ Z.of_nat max_digits) by (vm_compute; reflexivity).
  destruct (Z.leb_spec 0 e) as [H0|H0].
  - assert (2 ^ e <= 2 ^ 971) by (apply Z.pow_le_mono_r; lia). nia.
  - assert (1 <= 2 ^ (- e)) by (pose proof (Z.pow_pos_nonneg 2 (- e)); lia).
    destruct (round_half_even_nearest (Z.pos m * 10 ^ 6) (2 ^ (- e)) ltac:(lia)) as [Hn _].
    assert (Hone : 10 ^ 6 * (2 ^ 53 + 1) < 10 ^ 6 * 10 ^ Z.of_nat max_digits) by (vm_compute; reflexivity).
    set (v := round_half_even _ _) in *. set (D := 2 ^ (- e)) in *. nia.
Qed.

Lemma scan_fixed k z acc a n :
  scan_digits (fixed_digits k z acc) a n = scan_digits acc (a * 10 ^ Z.of_nat k + z mod 10 ^ Z.of_nat k) (n + k).
Proof.
  revert z acc. induction k as [|k IH]; intros z acc; cbn [fixed_digits].
  - rewrite Z.mod_1_r, Z.mul_1_r, Z.add_0_r, Nat.add_0_r. done.
  - rewrite IH. pose proof (Z.mod_pos_bound z 10 ltac:(lia)) as Hm. destruct (ascii_code_digit (z mod 10) Hm) as [Hc Hd].
    cbn [scan_digits]. rewrite Hd, Hc. rewrite Nat2Z.inj_succ, Z.pow_succ_r by lia.
    f_equal; [|lia]. rewrite (Z.rem_mul_r z 10) by (pose proof (Z.pow_pos_nonneg 10 (Z.of_nat k)); lia). lia.
Qed.

Lemma fixed_digits_text k z acc :
  String.length (fixed_digits k z acc) = (k + String.length acc)%nat /\
  str_forallb is_digit (fixed_digits k z acc) = str_forallb is_digit acc.
Proof.
  revert z acc. induction k as [|k IH]; intros z acc; cbn [fixed_digits]; [done|].
  pose proof (Z.mod_pos_bound z 10 ltac:(lia)) as Hm. destruct (ascii_code_digit (z mod 10) Hm) as [_ Hd].
  destruct (IH (z / 10) (String (ascii_of_code (48 + z mod 10)) acc)) as [-> ->]. cbn. rewrite Hd. split; [lia|done].
Qed.

Lemma digits_text f z :
  (0 < f)%nat -> 0 <= z < 10 ^ Z.of_nat f ->
  all_digits (to_string_go f z EmptyString) /\ decimal_value (to_string_go f z EmptyString) = z.
Proof.
  intros Hf Hz. destruct (scan_to_string_go f z EmptyString Hf Hz) as (k & Hk & Hs & Hl & Hp). split; [split|].
  - intros E. rewrite E in Hl. cbn in Hl. lia.
  - exact Hp.
  - unfold decimal_value. rewrite Hs. cbn. lia.
Qed.

(** The text of a finite number is the nearest decimal with six places: a sign,
    the digits of the integer part, a point and exactly six digits, and the number
    they spell is the number of millionths nearest to the exact binary value, the
    even one when two are equally near. It holds of every finite [double], the
    largest included, and so of every [float]. *)
Lemma double_text_nearest nan_sign s m e :
  Z.pos m < 2 ^ 53 -> e <= 971 ->
  exists ip fp,
    double_to_string nan_sign (S754_finite s m e) = sign_text s +:+ ip +:+ "." +:+ fp /\
    all_digits ip /\ all_digits fp /\ String.length fp = 6%nat /\
    let v := decimal_value ip * 10 ^ 6 + decimal_value fp in
    if 0 <=? e then v = Z.pos m * 2 ^ e * 10 ^ 6 else nearest (Z.pos m * 10 ^ 6) (2 ^ (- e)) v.
Proof.
  intros Hm He. unfold double_to_string. set (v := micros m e).
  pose proof (micros_nonneg m e) as H0. pose proof (micros_bound m e Hm He) as Hb. fold v in H0, Hb.
  destruct (digits_text max_digits (v / 10 ^ 6)) as [Hi Hiv]; [unfold max_digits; lia|split; [apply Z.div_pos; lia|done]|].
  exists (to_string_go max_digits (v / 10 ^ 6) EmptyString), (fixed_digits 6 (v mod 10 ^ 6) EmptyString).
  destruct (fixed_digits_text 6 (v mod 10 ^ 6) EmptyString) as [Hl Hd].
  assert (Hfv : decimal_value (fixed_digits 6 (v mod 10 ^ 6) EmptyString) = v mod 10 ^ 6).
  { unfold decimal_value. rewrite scan_fixed. cbn [scan_digits fst]. change (10 ^ Z.of_nat 6) with (10 ^ 6).
    by rewrite Z.mod_mod. }
  split; [done|]. split; [done|]. split; [split; [intros E; by rewrite E in Hl|done]|]. split; [done|].
  rewrite Hiv, Hfv, Z.mul_comm, <- Z.div_mod by done. cbn zeta. subst v. unfold micros.
  destruct (Z.leb_spec 0 e); [done|]. apply round_half_even_nearest, Z.pow_pos_nonneg; lia.
Qed.

(** ** Examples *)

(** 0.1 with its sign. *)
Lemma minus_a_tenth :
  (exists ip fp,
    double_to_string false (S754_finite true 7205759403792794 (-56)) = sign_text true +:+ ip +:+ "." +:+ fp /\
    all_digits ip /\ all_digits fp /\ String.length fp = 6%nat /\
    nearest (7205759403792794 * 10 ^ 6) (2 ^ 56) (decimal_value ip * 10 ^ 6 + decimal_value fp)) /\
  double_to_string false (S754_finite true 7205759403792794 (-56)) = "-0.100000".
Proof.
  split; [|vm_compute; reflexivity].
  apply (double_text_nearest false true 7205759403792794 (-56)); [vm_compute; reflexivity|lia].
Defined.

Example half_way : double_to_string false (S754_finite false 4503599627370497 (-53)) = "0.500000" /\
  double_to_string false (S754_finite false 9007199254740991 971) <> EmptyString /\
  double_to_string false (S754_finite false 5 (-1)) = "2.500000" /\ double_to_string true S754_nan = "-nan".
Proof. split_and!; vm_compute; (reflexivity || discriminate). Qed.
