(* ===== verification/Utils.v ===== *)
(** * Utilities (include/duct/utils.h)

    Timers, the periodic executor, scope guards and [Defer], the string builder
    and strong types. A [steady_clock] reading is an argument, in nanoseconds;
    a callable is known by a number, and the calls made are results. The address
    builders of this header are in [Address]. *)

From Stdlib Require Import Floats.SpecFloat.
From S2P Require Import Slots Prelude Options Address FloatText.

(** ** Time *)

(** src/include/duct/utils.h:110-112 [operator_ms]

    A duration in its own unit, a signed 64-bit count. *)
Definition signed64 (z : Z) : Z := if wrap64 z <? 2 ^ 63 then wrap64 z else wrap64 z - 2 ^ 64.
Definition lit_ms (value : Z) : Z := signed64 value.
(** src/include/duct/utils.h:113-115 [operator_s] *)
Definition lit_s (value : Z) : Z := signed64 value.
(** src/include/duct/utils.h:116-118 [operator_min] *)
Definition lit_min (value : Z) : Z := signed64 value.
(** src/include/duct/utils.h:119-121 [operator_h] *)
Definition lit_h (value : Z) : Z := signed64 value.

(** The implicit conversions between units: to nanoseconds. *)
Definition s_to_ns (s : Z) : Z := s * 1000000000.
Definition min_to_ns (m : Z) : Z := m * 60 * 1000000000.
Definition h_to_ns (h : Z) : Z := h * 3600 * 1000000000.

(** src/include/duct/utils.h:127-133 [Timer] *)
Record Timer := mkTimer { timer_start : Z }.
(** src/include/duct/utils.h:136-136 [Timer::reset] *)
Definition timer_reset (now : Z) (t : Timer) : Timer := mkTimer now.
(** src/include/duct/utils.h:139-142 [Timer::elapsed]

    In a unit of [period] nanoseconds: [duration_cast] truncates. *)
Definition timer_elapsed (period now : Z) (t : Timer) : Z := Z.quot (now - timer_start t) period.
(** src/include/duct/utils.h:145-148 [Timer::has_elapsed]

    [duration] in units of [period] nanoseconds; the comparison is made in the
    common unit. *)
Definition has_elapsed (period now duration : Z) (t : Timer) : bool :=
  timer_elapsed 1 now t >=? duration * period.

(** src/include/duct/utils.h:184-187 [PeriodicExecutor]

    [pe_callback]: whether a callback is set. *)
Record PeriodicExecutor := mkPeriodic { pe_interval : Z; pe_callback : bool; last_exec : Z }.
(** src/include/duct/utils.h:161-162 [PeriodicExecutor::PeriodicExecutor] *)
Definition PeriodicExecutor_make (interval : Z) (callback : bool) (now : Z) : PeriodicExecutor :=
  mkPeriodic interval callback now.
(** src/include/duct/utils.h:165-167 [PeriodicExecutor::execute_now]

    Whether the callback is called. *)
Definition execute_now (p : PeriodicExecutor) : bool := pe_callback p.
(** src/include/duct/utils.h:170-180 [PeriodicExecutor::tick]

    The executor, the result, and whether the callback is called. *)
Definition tick (now : Z) (p : PeriodicExecutor) : PeriodicExecutor * bool * bool :=
  let elapsed := now - last_exec p in
  if elapsed >=? ms_to_ns (pe_interval p) then
    (mkPeriodic (pe_interval p) (pe_callback p) now, true, pe_callback p)
  else (p, false, false).

(** The times at which a sequence of ticks executes. *)
Fixpoint executions (nows : list Z) (p : PeriodicExecutor) : list Z * PeriodicExecutor :=
  match nows with
  | [] => ([], p)
  | now :: nows' =>
      let '(p, done, _) := tick now p in
      let '(ts, p) := executions nows' p in
      (if done then now :: ts else ts, p)
  end.

(** ** Scope guards *)

(** src/include/duct/utils.h:228-230 [ScopeGuard] *)
Record ScopeGuard := mkGuard { guard_f : nat; guard_active : bool }.
(** src/include/duct/utils.h:202-202 [ScopeGuard::ScopeGuard] *)
Definition ScopeGuard_make (f : nat) : ScopeGuard := mkGuard f true.
(** src/include/duct/utils.h:236-239 [make_scope_guard] *)
Definition make_scope_guard (f : nat) : ScopeGuard := ScopeGuard_make f.
(** src/include/duct/utils.h:203-205 [ScopeGuard::~ScopeGuard]

    The calls made. *)
Definition guard_destroy (g : ScopeGuard) : list nat := if guard_active g then [guard_f g] else [].
(** src/include/duct/utils.h:212-215 [ScopeGuard::ScopeGuard(ScopeGuard&&)]

    The new guard and what is left of the old one. *)
Definition guard_move (other : ScopeGuard) : ScopeGuard * ScopeGuard :=
  (mkGuard (guard_f other) (guard_active other), mkGuard (guard_f other) false).
(** src/include/duct/utils.h:218-223 [ScopeGuard::trigger] *)
Definition guard_trigger (g : ScopeGuard) : ScopeGuard * list nat :=
  if guard_active g then (mkGuard (guard_f g) false, [guard_f g]) else (g, []).
(** src/include/duct/utils.h:226-226 [ScopeGuard::cancel] *)
Definition guard_cancel (g : ScopeGuard) : ScopeGuard := mkGuard (guard_f g) false.

(** src/include/duct/utils.h:319-329 [Defer]

    The calls its destructor makes. *)
Definition defer_destroy (f : nat) : list nat := [f].

(** ** Strings *)

(** [std::to_string] of a signed integer. *)
Definition int_to_string (z : Z) : string := if z <? 0 then "-" +:+ to_string (- z) else to_string z.

(** src/include/duct/utils.h:308-309 [StringBuilder] *)
Record StringBuilder := mkBuilder { buffer : string }.
(** src/include/duct/utils.h:250-253 [StringBuilder::append(std::string_view)] *)
Definition append_text (s : string) (b : StringBuilder) : StringBuilder := mkBuilder (buffer b +:+ s).
(** src/include/duct/utils.h:261-264 [StringBuilder::append(int)]

    And [long] and [long long], whose bodies are the same. *)
Definition append_int (value : Z) (b : StringBuilder) : StringBuilder := mkBuilder (buffer b +:+ int_to_string value).
(** src/include/duct/utils.h:266-269 [StringBuilder::append(unsigned int)]

    And [unsigned long] and [unsigned long long], whose bodies are the same. *)
Definition append_uint (value : Z) (b : StringBuilder) : StringBuilder := mkBuilder (buffer b +:+ to_string value).
(** src/include/duct/utils.h:296-299 [StringBuilder::append(double)] *)
Definition append_double (nan_sign : bool) (value : double) (b : StringBuilder) : StringBuilder :=
  mkBuilder (buffer b +:+ double_to_string nan_sign value).
(** src/include/duct/utils.h:291-294 [StringBuilder::append(float)]

    A [float] is widened to a [double] of the same value. *)
Definition append_float (nan_sign : bool) (value : double) (b : StringBuilder) : StringBuilder :=
  append_double nan_sign value b.
(** src/include/duct/utils.h:304-304 [StringBuilder::clear] *)
Definition builder_clear (b : StringBuilder) : StringBuilder := mkBuilder EmptyString.
(** src/include/duct/utils.h:305-305 [StringBuilder::size] *)
Definition builder_size (b : StringBuilder) : Z := Z.of_nat (String.length (buffer b)).
(** src/include/duct/utils.h:306-306 [StringBuilder::empty] *)
Definition builder_empty (b : StringBuilder) : bool := bool_decide (buffer b = EmptyString).

(** What is appended. *)
Inductive piece := Text (s : string) | Int (z : Z) | Uint (z : Z) | Double (nan_sign : bool) (d : double).
Definition append_piece (b : StringBuilder) (p : piece) : StringBuilder :=
  match p with Text s => append_text s b | Int z => append_int z b | Uint z => append_uint z b | Double n d => append_double n d b end.
Definition piece_text (p : piece) : string :=
  match p with Text s => s | Int z => int_to_string z | Uint z => to_string z | Double n d => double_to_string n d end.

(** ** Strong types *)

Section strong_type.

(** The type wrapped, with its operators [==] and [<=] and so on, each with the
    meaning the type gives it. *)
Context {T : Type} (t_eq t_ne t_lt t_le t_gt t_ge : T -> T -> bool).

(** src/include/duct/utils.h:347-350 [StrongType]

    The tag is a type only. *)
Record StrongType (Tag : Type) := mkStrong { strong_value : T }.
Arguments strong_value {Tag}.
(** src/include/duct/utils.h:355-357 [StrongType::operator==] *)
Definition strong_eq {Tag} (this other : StrongType Tag) : bool := t_eq (strong_value this) (strong_value other).
(** src/include/duct/utils.h:358-360 [StrongType::operator!=] *)
Definition strong_ne {Tag} (this other : StrongType Tag) : bool := t_ne (strong_value this) (strong_value other).
(** src/include/duct/utils.h:361-363 [StrongType::operator<] *)
Definition strong_lt {Tag} (this other : StrongType Tag) : bool := t_lt (strong_value this) (strong_value other).
(** src/include/duct/utils.h:364-366 [StrongType::operator<=] *)
Definition strong_le {Tag} (this other : StrongType Tag) : bool := t_le (strong_value this) (strong_value other).
(** src/include/duct/utils.h:367-369 [StrongType::operator>] *)
Definition strong_gt {Tag} (this other : StrongType Tag) : bool := t_gt (strong_value this) (strong_value other).
(** src/include/duct/utils.h:370-372 [StrongType::operator>=] *)
Definition strong_ge {Tag} (this other : StrongType Tag) : bool := t_ge (strong_value this) (strong_value other).

End strong_type.

(** ** Programs on guards *)

(** The guards in scope, the calls made and the calls cancelled. *)
Record guards := mkGuards {
  guard_vars : gmap nat ScopeGuard;
  guard_calls : gmultiset nat;
  cancelled : gmultiset nat;
}.

Inductive guard_cmd :=
| Guard (v f : nat)
| MoveGuard (v other : nat)
| Trigger (v : nat)
| Cancel (v : nat)
| EndGuard (v : nat).

(** The callable a guard will still call. *)
Definition pending (g : ScopeGuard) : option nat := if guard_active g then Some (guard_f g) else None.

Definition run_guard (c : guard_cmd) (w : guards) : option guards :=
  match c with
  | Guard v f =>
      if bool_decide (guard_vars w !! v = None) then
        Some (mkGuards (<[v := make_scope_guard f]> (guard_vars w)) (guard_calls w) (cancelled w))
      else None
  | MoveGuard v other =>
      o ← guard_vars w !! other;
      if bool_decide (guard_vars w !! v = None) then
        let '(g, o) := guard_move o in
        Some (mkGuards (<[v := g]> (<[other := o]> (guard_vars w))) (guard_calls w) (cancelled w))
      else None
  | Trigger v =>
      g ← guard_vars w !! v;
      let '(g, calls) := guard_trigger g in
      Some (mkGuards (<[v := g]> (guard_vars w)) (list_to_set_disj calls ⊎ guard_calls w) (cancelled w))
  | Cancel v =>
      g ← guard_vars w !! v;
      Some (mkGuards (<[v := guard_cancel g]> (guard_vars w)) (guard_calls w)
              (list_to_set_disj (option_list (pending g)) ⊎ cancelled w))
  | EndGuard v =>
      g ← guard_vars w !! v;
      Some (mkGuards (delete v (guard_vars w)) (list_to_set_disj (guard_destroy g) ⊎ guard_calls w) (cancelled w))
  end.

Fixpoint run_guards (cs : list guard_cmd) (w : guards) : option guards :=
  match cs with
  | [] => Some w
  | c :: cs' => w ← run_guard c w; run_guards cs' w
  end.

(** The callables guarded by a program. *)
Definition guarded (cs : list guard_cmd) : gmultiset nat :=
  list_to_set_disj (omap (fun c => match c with Guard _ f => Some f | _ => None end) cs).

Definition no_guards : guards := mkGuards ∅ ∅ ∅.

(** ** Lemmas *)

Lemma tick_spec now p :
  let '(p', done, called) := tick now p in
  pe_interval p' = pe_interval p /\ called = (done && pe_callback p) /\ pe_callback p' = pe_callback p /\
  (done = true -> last_exec p' = now /\ ms_to_ns (pe_interval p) <= now - last_exec p) /\
  (done = false -> p' = p /\ now - last_exec p < ms_to_ns (pe_interval p)).
Proof. unfold tick. destruct (geb_spec (now - last_exec p) (ms_to_ns (pe_interval p))); cbn;
  split_and!; intros; try done; (split; [done|lia]). Qed.

(** The last element with a default. *)
Lemma list_last_cons {A} (x d : A) l : List.last (x :: l) d = List.last l x.
Proof. revert x d. induction l as [|y l IH]; intros x d; [done|]. change (List.last (y :: l) d = List.last (y :: l) x). by rewrite !IH. Qed.

(** Consecutive elements are at least [d] apart, the first from [t]. *)
Inductive spaced (d : Z) : Z -> list Z -> Prop :=
| spaced_nil t : spaced d t []
| spaced_cons t u l : d <= u - t -> spaced d u l -> spaced d t (u :: l).

Lemma spaced_total d t l : spaced d t l -> len l * d <= List.last l t - t.
Proof.
  induction 1 as [t|t u l Hd Hl IH]; [cbn; lia|]. rewrite list_last_cons. cbn [length]. lia.
Qed.

Lemma executions_spaced nows p ts p' :
  executions nows p = (ts, p') ->
  spaced (ms_to_ns (pe_interval p)) (last_exec p) ts /\ last_exec p' = List.last ts (last_exec p) /\
  pe_interval p' = pe_interval p /\ sublist ts nows.
Proof.
  revert p ts p'. induction nows as [|now nows IH]; intros p ts p'; cbn [executions].
  - intros [= <- <-]. split_and!; [constructor|done..|constructor].
  - pose proof (tick_spec now p) as Ht. destruct (tick now p) as [[p1 done] called].
    destruct Ht as (Hi & _ & _ & Hyes & Hno).
    destruct (executions nows p1) as [ts1 p2] eqn:E. apply IH in E as (Hs & Hl & Hi2 & Hsub).
    destruct done; intros [= <- <-].
    + destruct (Hyes eq_refl) as [He Hd]. rewrite Hi, He in Hs. rewrite He in Hl.
      split_and!; [by constructor| |congruence|by constructor].
      by rewrite Hl, list_last_cons.
    + destruct (Hno eq_refl) as [-> _]. split_and!; [done..|by constructor].
Qed.

Lemma builder_fold ps b :
  buffer (foldl append_piece b ps) = buffer b +:+ foldr (fun p s => piece_text p +:+ s) EmptyString ps.
Proof.
  revert b. induction ps as [|p ps IH]; intros b; cbn [foldl foldr]; [by rewrite str_app_nil_r|].
  rewrite IH. destruct p; cbn [append_piece append_text append_int append_uint append_double buffer piece_text];
    by rewrite str_app_assoc.
Qed.

Lemma held_move g : held pending (guard_move g).1 = held pending g /\ held pending (guard_move g).2 = ∅.
Proof. destruct g as [f []]; done. Qed.

(** Every guarded callable is pending in one guard, called or cancelled. *)
Definition accounted (total : gmultiset nat) (w : guards) : Prop :=
  owned pending (guard_vars w) ⊎ guard_calls w ⊎ cancelled w = total.

Lemma run_guard_accounted total c w w' :
  accounted total w -> run_guard c w = Some w' -> accounted (guarded [c] ⊎ total) w'.
Proof.
  unfold accounted. intros Ha. destruct c as [v f|v o|v|v|v]; cbn [run_guard].
  - case_bool_decide as Hv; [|done]. intros [= <-]. cbn.
    rewrite owned_insert, (held_some pending _ f) by done. multiset_solver.
  - destruct (guard_vars w !! o) as [g|] eqn:Eo; cbn [mbind option_bind]; [|done].
    case_bool_decide as Hv; [|done]. intros [= <-]. destruct (held_move g) as [H1 H2].
    unfold guard_move in H1, H2. cbn [fst snd] in H1, H2.
    pose proof (owned_update pending (guard_vars w) o g (mkGuard (guard_f g) false) Eo) as Hu. cbn.
    rewrite owned_insert by (rewrite lookup_insert_ne; congruence). rewrite H1. rewrite H2 in Hu. multiset_solver.
  - destruct (guard_vars w !! v) as [g|] eqn:Ev; cbn [mbind option_bind]; [|done].
    pose proof (owned_update pending (guard_vars w) v g (guard_trigger g).1 Ev) as Hu.
    destruct g as [f []]; cbn [guard_trigger guard_active guard_f fst] in *; intros [= <-]; cbn.
    + rewrite (held_some pending _ f), (held_none pending (mkGuard f false)) in Hu by done. multiset_solver.
    + rewrite (held_none pending (mkGuard f false)) in Hu by done. multiset_solver.
  - destruct (guard_vars w !! v) as [g|] eqn:Ev; cbn [mbind option_bind]; [|done]. intros [= <-]. cbn.
    pose proof (owned_update pending (guard_vars w) v g (guard_cancel g) Ev) as Hu.
    rewrite (held_none pending (guard_cancel g)) in Hu by done. fold (held pending g). multiset_solver.
  - destruct (guard_vars w !! v) as [g|] eqn:Ev; cbn [mbind option_bind]; [|done]. intros [= <-]. cbn.
    pose proof (owned_delete pending (guard_vars w) v g Ev) as Hu.
    destruct g as [f []]; cbn [guard_destroy guard_active guard_f].
    + rewrite (held_some pending _ f) in Hu by done. multiset_solver.
    + rewrite (held_none pending (mkGuard f false)) in Hu by done. multiset_solver.
Qed.

Lemma guarded_cons c cs : guarded (c :: cs) = guarded [c] ⊎ guarded cs.
Proof. unfold guarded. rewrite <- list_to_set_disj_app. f_equal. by destruct c. Qed.

Lemma run_guards_accounted total cs w w' :
  accounted total w -> run_guards cs w = Some w' -> accounted (guarded cs ⊎ total) w'.
Proof.
  revert total w. induction cs as [|c cs IH]; intros total w Ha; cbn [run_guards].
  - intros [= <-]. unfold accounted, guarded in *. cbn. multiset_solver.
  - destruct (run_guard c w) as [w1|] eqn:E; cbn [mbind option_bind]; [|done].
    intros Hr. eapply run_guard_accounted in E; [|exact Ha]. apply (IH _ _ E) in Hr.
    unfold accounted in *. rewrite guarded_cons. multiset_solver.
Qed.

(** ** Theorems *)

(** guards call what they guard exactly once. Through any program of guards,
    moves, triggers, cancellations and ends of scope, every guarded callable is
    still pending in one guard, has been called, or was cancelled while pending:
    each once. So when every guard is out of scope, what was not cancelled has
    been called, and nothing has been called twice. *)
Theorem guards_call_once cs w :
  run_guards cs no_guards = Some w ->
  owned pending (guard_vars w) ⊎ guard_calls w ⊎ cancelled w = guarded cs /\
  (guard_vars w = ∅ -> cancelled w = ∅ -> guard_calls w = guarded cs) /\
  (forall f, (multiplicity f (guarded cs) <= 1)%nat -> (multiplicity f (guard_calls w) <= 1)%nat).
Proof.
  intros Hr. assert (accounted ∅ no_guards) as H0 by (unfold accounted; cbn; rewrite owned_empty; multiset_solver).
  apply (run_guards_accounted _ _ _ _ H0) in Hr. unfold accounted in Hr.
  assert (Ha : owned pending (guard_vars w) ⊎ guard_calls w ⊎ cancelled w = guarded cs) by multiset_solver.
  split_and!; [done| |].
  - intros Hv Hc. rewrite Hv, Hc, owned_empty in Ha. rewrite <- Ha. multiset_solver.
  - intros f Hf. rewrite <- Ha, !multiplicity_disj_union in Hf. lia.
Qed.

(** the executor keeps its period: whatever the times at which it is ticked, two
    executions are at least an interval apart, the first at least an interval
    after its creation, so that in any span it executes at most as often as the
    interval allows; it executes only when ticked, and a tick an interval or more
    after the last execution always executes. *)
Theorem executor_keeps_period interval callback created nows ts p now :
  executions nows (PeriodicExecutor_make interval callback created) = (ts, p) ->
  spaced (ms_to_ns interval) created ts /\
  len ts * ms_to_ns interval <= List.last ts created - created /\ sublist ts nows /\
  (let '(_, done, called) := tick now p in
   (done = true <-> ms_to_ns interval <= now - List.last ts created) /\ (called = true -> done = true)).
Proof.
  intros (Hs & Hl & Hi & Hsub)%executions_spaced. cbn [pe_interval last_exec PeriodicExecutor_make] in *.
  split; [done|]. split; [by apply spaced_total|]. split; [done|].
  pose proof (tick_spec now p) as Ht. destruct (tick now p) as [[p1 done] called].
  rewrite Hi, Hl in Ht. destruct Ht as (_ & -> & _ & Hyes & Hno). split; [|by destruct done].
  split; [by intros [_ ?]%Hyes|]. intros Hle. destruct done; [done|]. destruct (Hno eq_refl). lia.
Qed.

(** a timer's two readings agree: at any time not before its start, it has
    elapsed a whole number of units exactly if that number is at most the
    elapsed count, for every unit the clock can express; and [reset] starts it
    again from nothing. *)
Theorem timer_readings_agree t now period d :
  timer_start t <= now -> 0 < period ->
  (has_elapsed period now d t = true <-> d <= timer_elapsed period now t) /\
  timer_elapsed period now (timer_reset now t) = 0 /\ 0 <= timer_elapsed period now t.
Proof.
  intros Hn Hp. unfold has_elapsed, timer_elapsed. rewrite Z.quot_1_r. cbn [timer_start timer_reset].
  rewrite Z.sub_diag, Z.quot_0_l by lia. rewrite Z.quot_div_nonneg by lia.
  destruct (geb_spec (now - timer_start t) (d * period)); split_and!; try done; try (apply Z.div_pos; lia).
  - split; [|done]. intros _. apply Z.div_le_lower_bound; lia.
  - split; [done|]. intros Hd. assert (d * period <= now - timer_start t); [|lia].
    transitivity ((now - timer_start t) / period * period); [by apply Z.mul_le_mono_nonneg_r; lia|].
    rewrite Z.mul_comm. apply Z.mul_div_le. lia.
Qed.

(** a strong type over the integers is ordered as they are: exactly one of [<],
    [==] and [>] holds of two values, the other three operators are their
    negations, and [<=] is reflexive, antisymmetric and transitive. *)
Theorem strong_type_order {Tag} (a b c : @StrongType Z Tag) :
  let lt := strong_lt Z.ltb in let le := strong_le Z.leb in
  let gt := strong_gt Z.gtb in let ge := strong_ge Z.geb in
  let eq := strong_eq Z.eqb in let ne := strong_ne (fun x y => negb (x =? y)) in
  (lt a b, eq a b, gt a b) ∈ [(true, false, false); (false, true, false); (false, false, true)] /\
  ne a b = negb (eq a b) /\ le a b = negb (gt a b) /\ ge a b = negb (lt a b) /\
  le a a = true /\ (le a b = true -> le b a = true -> a = b) /\
  (le a b = true -> le b c = true -> le a c = true).
Proof.
  destruct a as [a], b as [b], c as [c].
  unfold strong_lt, strong_le, strong_gt, strong_ge, strong_eq, strong_ne. cbn [strong_value]. cbv zeta.
  rewrite Z.gtb_ltb, Z.geb_leb.
  split_and!; try done; [|by rewrite Z.leb_antisym|by rewrite Z.leb_antisym|by apply Z.leb_refl| |].
  - destruct (Z.ltb_spec a b), (Z.eqb_spec a b), (Z.ltb_spec b a); try lia; set_solver.
  - intros H1%Z.leb_le H2%Z.leb_le. f_equal. lia.
  - intros H1%Z.leb_le H2%Z.leb_le. apply Z.leb_le. lia.
Qed.

(** a builder holds the texts appended to it since it was cleared, in order, and
    its size is the sum of theirs. *)
Theorem builder_concatenates ps b :
  let b' := foldl append_piece (builder_clear b) ps in
  buffer b' = foldr (fun p s => piece_text p +:+ s) EmptyString ps /\
  builder_size b' = sum_sizes (fun p => Z.of_nat (String.length (piece_text p))) ps /\
  builder_empty b' = bool_decide (Forall (fun p => piece_text p = EmptyString) ps).
Proof.
  cbn zeta. unfold builder_size, builder_empty. rewrite builder_fold. cbn [builder_clear buffer String.append].
  split_and!; [done| |].
  - induction ps as [|p ps IH]; [done|]. cbn [foldr].
    by rewrite str_length_app, sum_sizes_cons, Nat2Z.inj_add, IH.
  - apply bool_decide_ext. clear. induction ps as [|p ps IH]; cbn [foldr]; [by rewrite Forall_nil|].
    rewrite Forall_cons, <- IH. destruct (piece_text p) eqn:E; cbn; [tauto|]. split; [done|]. by intros [? _].
Qed.


(** the port literal takes the value modulo 65536: it is the value written
    exactly if that fits 16 bits, and an oversized literal is another valid port
    without a diagnosis. *)
Theorem port_literal_truncates value :
  0 <= value ->
  (port_value (port_literal value) = value <-> value <= 65535) /\
  0 <= port_value (port_literal value) <= 65535 /\ port_value (port_literal 70000) = 4464.
Proof.
  intros Hv. cbn. pose proof (wrap_range 16 value ltac:(lia)) as Hr. split_and!; [|lia|lia|done].
  split; [lia|]. intros Hle. apply (wrap_small 16). lia.
Qed.

(** ** Witnesses *)


(** One guard moved and triggered, one cancelled, one left to its scope. *)
Definition guard_program : list guard_cmd :=
  [Guard 0 10; MoveGuard 1 0; Trigger 0; Trigger 1; Trigger 1; Guard 2 11; Cancel 2; Guard 3 12;
   EndGuard 0; EndGuard 1; EndGuard 2; EndGuard 3]%nat.
Definition guard_result : guards := mkGuards ∅ {[+ 10%nat; 12%nat +]} {[+ 11%nat +]}.
Lemma guard_program_runs : run_guards guard_program no_guards = Some guard_result.
Proof. vm_compute. reflexivity. Qed.

Lemma guards_call_once_witness :
  owned pending ∅ ⊎ {[+ 10%nat; 12%nat +]} ⊎ {[+ 11%nat +]} = guarded guard_program.
Proof. exact (proj1 (guards_call_once guard_program guard_result guard_program_runs)). Defined.

Lemma executor_keeps_period_witness :
  spaced 10000000 0 [12000000; 25000000] /\ 2 * 10000000 <= 25000000 - 0 /\
  sublist [12000000; 25000000] [5000000; 12000000; 20000000; 25000000] /\
  (let '(_, done, called) := tick 35000000 (mkPeriodic 10 true 25000000) in
   (done = true <-> 10000000 <= 35000000 - 25000000) /\ (called = true -> done = true)).
Proof.
  exact (executor_keeps_period 10 true 0 [5000000; 12000000; 20000000; 25000000] [12000000; 25000000]
    (mkPeriodic 10 true 25000000) 35000000 eq_refl).
Defined.

Lemma timer_readings_agree_witness :
  (has_elapsed 1000000 7999999 7 (mkTimer 0) = true <-> 7 <= timer_elapsed 1000000 7999999 (mkTimer 0)) /\
  timer_elapsed 1000000 7999999 (timer_reset 7999999 (mkTimer 0)) = 0 /\
  0 <= timer_elapsed 1000000 7999999 (mkTimer 0).
Proof. apply (timer_readings_agree (mkTimer 0) 7999999 1000000 7); cbn; lia. Defined.

Lemma port_literal_truncates_witness :
  (port_value (port_literal 8080) = 8080 <-> 8080 <= 65535) /\ 0 <= port_value (port_literal 8080) <= 65535 /\
  port_value (port_literal 70000) = 4464.
Proof. apply (port_literal_truncates 8080). lia. Defined.
