(* ===== verification/Logging.v ===== *)
(** * Logging (include/duct/logging.h, src/logging.cc)

    Loggers refer to each other through shared pointers, so they live in a store
    and a [PrefixLogger] names its base by address. [log] and [set_level] follow
    the chain of bases; a program can only wrap loggers that exist, and that is
    why they return ([logging_returns]). The text written and the callbacks
    called are results. *)

From S2P Require Import Prelude.

(** ** Levels *)

(** src/include/duct/logging.h:19-26 [LogLevel] *)
Inductive LogLevel := kTrace | kDebug | kInfo | kWarning | kError | kFatal.

#[export] Instance LogLevel_eq_dec : EqDecision LogLevel.
Proof. solve_decision. Defined.

(** src/include/duct/logging.h:28-38 [to_string(LogLevel)]

    The default case is for values that are not enumerators. *)
Definition level_to_string (level : LogLevel) : string :=
  match level with
  | kTrace => "TRACE" | kDebug => "DEBUG" | kInfo => "INFO"
  | kWarning => "WARNING" | kError => "ERROR" | kFatal => "FATAL"
  end.

Definition rank (level : LogLevel) : Z :=
  match level with kTrace => 0 | kDebug => 1 | kInfo => 2 | kWarning => 3 | kError => 4 | kFatal => 5 end.
(** [level >= threshold] *)
Definition at_least (level threshold : LogLevel) : bool := rank level >=? rank threshold.

(** ** Loggers *)

(** The classes derived from [Logger], with their members; a callback is modelled
    by whether it is set. *)
Inductive kind := Console | Null | Callback (callback : bool) | Prefix (base : nat) (prefix : string).

(** src/include/duct/logging.h:69-70 [Logger] *)
Record Logger := mkLogger { logger_kind : kind; level_ : LogLevel }.

Abbreviation store := (gmap nat Logger).

(** A line on a stream, or a call of the callback of a logger. *)
Inductive output := Cout (line : string) | Cerr (line : string) | Called (logger : nat) (level : LogLevel) (message : string).

(** src/src/logging.cc:12-19 [ConsoleLogger::log] *)
Definition console_log (threshold level : LogLevel) (message : string) : list output :=
  if negb (at_least level threshold) then []
  else
    let line := "[" +:+ level_to_string level +:+ "] " +:+ message in
    [if at_least level kWarning then Cerr line else Cout line].

(** src/include/duct/logging.h:107-111 [CallbackLogger::log] *)
Definition callback_log (id : nat) (callback : bool) (threshold level : LogLevel) (message : string) : list output :=
  if callback && at_least level threshold then [Called id level message] else [].

(** src/include/duct/logging.h:129-133 [Logger::log, through the bases]

    [None]: the address is not that of a logger, or the fuel does not reach the
    end of the chain. *)
Fixpoint log (fuel : nat) (st : store) (id : nat) (level : LogLevel) (message : string) : option (list output) :=
  match fuel with
  | O => None
  | S fuel' =>
      l ← st !! id;
      match logger_kind l with
      | Console => Some (console_log (level_ l) level message)
      | Null => Some []
      | Callback cb => Some (callback_log id cb (level_ l) level message)
      | Prefix base prefix =>
          if at_least level (level_ l) then log fuel' st base level (prefix +:+ message) else Some []
      end
  end.

(** src/include/duct/logging.h:135-135 [Logger::flush, through the bases]

    The addresses of the console loggers whose streams are flushed; the other
    classes have nothing to flush. *)
Fixpoint flush (fuel : nat) (st : store) (id : nat) : option (list nat) :=
  match fuel with
  | O => None
  | S fuel' =>
      l ← st !! id;
      match logger_kind l with
      | Console => Some [id]
      | Null | Callback _ => Some []
      | Prefix base _ => flush fuel' st base
      end
  end.

Definition set_own_level (id : nat) (level : LogLevel) (st : store) : store :=
  alter (fun l => mkLogger (logger_kind l) level) id st.

(** src/include/duct/logging.h:136-139 [Logger::set_level, through the bases]

    For the other classes, the assignment at line 58. *)
Fixpoint set_level (fuel : nat) (st : store) (id : nat) (level : LogLevel) : option store :=
  match fuel with
  | O => None
  | S fuel' =>
      l ← st !! id;
      let st := set_own_level id level st in
      match logger_kind l with
      | Prefix base _ => set_level fuel' st base level
      | _ => Some st
      end
  end.

(** ** Programs *)

(** A program makes loggers, each over a base that exists, and sets levels; a
    new logger gets the next address. *)
Inductive log_cmd :=
| NewConsole (level : LogLevel)
| NewNull
| NewCallback (callback : bool)
| NewPrefix (base : nat) (prefix : string)
| SetLevel (id : nat) (level : LogLevel).

Record loggers := mkLoggers { log_store : store; log_next : nat }.

Definition new_logger (l : Logger) (s : loggers) : loggers :=
  mkLoggers (<[log_next s := l]> (log_store s)) (S (log_next s)).

Definition run_log_cmd (c : log_cmd) (s : loggers) : option loggers :=
  match c with
  | NewConsole level => Some (new_logger (mkLogger Console level) s)
  | NewNull => Some (new_logger (mkLogger Null kInfo) s)
  | NewCallback cb => Some (new_logger (mkLogger (Callback cb) kInfo) s)
  | NewPrefix base prefix =>
      if bool_decide (is_Some (log_store s !! base)) then
        Some (new_logger (mkLogger (Prefix base prefix) kInfo) s)
      else None
  | SetLevel id level =>
      st ← set_level (S id) (log_store s) id level; Some (mkLoggers st (log_next s))
  end.

Fixpoint run_log_cmds (cs : list log_cmd) (s : loggers) : option loggers :=
  match cs with
  | [] => Some s
  | c :: cs' => s ← run_log_cmd c s; run_log_cmds cs' s
  end.

Definition no_loggers : loggers := mkLoggers ∅ 0.

(** ** The chain of a logger *)

(** The thresholds and prefixes from a logger down to the logger at the end. *)
Inductive chain (st : store) : nat -> list (LogLevel * string) -> nat -> Prop :=
| chain_end id l :
    st !! id = Some l -> (forall b p, logger_kind l <> Prefix b p) -> chain st id [] id
| chain_prefix id l base prefix ps sink :
    st !! id = Some l -> logger_kind l = Prefix base prefix -> chain st base ps sink ->
    chain st id ((level_ l, prefix) :: ps) sink.

(** The addresses on it. *)
Inductive on_chain (st : store) : nat -> nat -> Prop :=
| on_here id : on_chain st id id
| on_base id l base prefix x :
    st !! id = Some l -> logger_kind l = Prefix base prefix -> on_chain st base x -> on_chain st id x.

(** What the logger at the end of a chain does. *)
Definition sink_log (st : store) (sink : nat) (level : LogLevel) (message : string) : list output :=
  match st !! sink with
  | Some l =>
      match logger_kind l with
      | Console => console_log (level_ l) level message
      | Callback cb => callback_log sink cb (level_ l) level message
      | Null | Prefix _ _ => []
      end
  | None => []
  end.

(** Bases come before what wraps them. *)
Definition store_wf (s : loggers) : Prop :=
  (forall id l, log_store s !! id = Some l -> (id < log_next s)%nat) /\
  (forall id l base prefix, log_store s !! id = Some l -> logger_kind l = Prefix base prefix ->
     (base < id)%nat /\ is_Some (log_store s !! base)).

(** ** Lemmas *)

Lemma chain_length st id ps sink : chain st id ps sink -> (forall id l base prefix,
  st !! id = Some l -> logger_kind l = Prefix base prefix -> (base < id)%nat) -> (length ps <= id)%nat.
Proof.
  induction 1 as [|id l base prefix ps sink Hl Hk Hc IH]; intros Hwf; cbn; [lia|].
  specialize (IH Hwf). pose proof (Hwf _ _ _ _ Hl Hk). lia.
Qed.

Lemma wf_chain s id : store_wf s -> is_Some (log_store s !! id) -> exists ps sink, chain (log_store s) id ps sink.
Proof.
  intros [_ Hwf]. induction id as [id IH] using lt_wf_ind. intros [l Hl].
  destruct (logger_kind l) as [| |cb|base prefix] eqn:Ek.
  1-3: by exists [], id; eapply chain_end; [exact Hl|]; intros ? ?; rewrite Ek.
  destruct (Hwf _ _ _ _ Hl Ek) as [Hb Hs]. destruct (IH base Hb Hs) as (ps & sink & Hc).
  exists ((level_ l, prefix) :: ps), sink. by econstructor.
Qed.

Lemma log_chain st id ps sink fuel level message :
  chain st id ps sink -> (length ps < fuel)%nat ->
  log fuel st id level message =
    Some (if forallb (fun p => at_least level p.1) ps then
            sink_log st sink level (foldl (fun m p => p.2 +:+ m) message ps)
          else []).
Proof.
  intros Hc. revert fuel message. induction Hc as [id l Hl Hk|id l base prefix ps sink Hl Hk Hc IH];
    intros fuel message Hf; (destruct fuel as [|fuel]; [lia|]); cbn [log]; rewrite Hl; cbn [mbind option_bind].
  - cbn. unfold sink_log. rewrite Hl. destruct (logger_kind l) eqn:E; try done. by edestruct Hk.
  - rewrite Hk. cbn [forallb foldl fst snd length] in *. destruct (at_least level (level_ l)); cbn; [|done].
    apply IH. lia.
Qed.

Lemma flush_chain st id ps sink fuel :
  chain st id ps sink -> (length ps < fuel)%nat ->
  flush fuel st id = Some (match logger_kind <$> st !! sink with Some Console => [sink] | _ => [] end).
Proof.
  intros Hc. revert fuel. induction Hc as [id l Hl Hk|id l base prefix ps sink Hl Hk Hc IH];
    intros fuel Hf; (destruct fuel as [|fuel]; [lia|]); cbn [flush]; rewrite Hl; cbn [mbind option_bind].
  - cbn. destruct (logger_kind l) eqn:E; [done..|by edestruct Hk].
  - rewrite Hk. apply IH. cbn in Hf. lia.
Qed.

Lemma set_own_level_kind id level st x :
  (set_own_level id level st !! x) =
    (fun l => mkLogger (logger_kind l) (if bool_decide (x = id) then level else level_ l)) <$> (st !! x).
Proof.
  unfold set_own_level. case_bool_decide as E; [subst; by rewrite lookup_alter_eq|].
  rewrite lookup_alter_ne by done. by destruct (st !! x) as [[]|].
Qed.

Lemma set_own_level_chain id level st x ps sink :
  chain st x ps sink -> exists ps', chain (set_own_level id level st) x ps' sink /\ length ps' = length ps.
Proof.
  induction 1 as [x l Hl Hk|x l base prefix ps sink Hl Hk Hc (ps' & IH & Hps)].
  - exists []. split; [|done]. eapply chain_end; [by rewrite set_own_level_kind, Hl|done].
  - eexists (_ :: ps'). split; [|cbn; by rewrite Hps]. eapply chain_prefix; [by rewrite set_own_level_kind, Hl|done..].
Qed.

Lemma set_own_level_on_chain id level st x y :
  on_chain st x y -> on_chain (set_own_level id level st) x y.
Proof.
  induction 1 as [|x l base prefix y Hl Hk Hc IH]; [constructor|].
  eapply on_base; [by rewrite set_own_level_kind, Hl|exact Hk|exact IH].
Qed.

Lemma set_own_level_on_chain_inv id level st x y :
  on_chain (set_own_level id level st) x y -> on_chain st x y.
Proof.
  induction 1 as [|x l base prefix y Hl Hk Hc IH]; [constructor|].
  rewrite set_own_level_kind in Hl. apply fmap_Some in Hl as (l' & Hl & ->). by eapply on_base.
Qed.

(** [set_level] keeps the classes, and what already has the level. *)
Lemma set_level_kinds fuel st id level st' x :
  set_level fuel st id level = Some st' ->
  logger_kind <$> st' !! x = logger_kind <$> st !! x /\
  (forall l, st !! x = Some l -> level_ l = level -> st' !! x = Some l).
Proof.
  revert st id. induction fuel as [|fuel IH]; intros st id; cbn [set_level]; [done|].
  destruct (st !! id) as [l|] eqn:El; [|done]. cbn [mbind option_bind].
  assert (Hone : logger_kind <$> set_own_level id level st !! x = logger_kind <$> st !! x /\
    (forall l, st !! x = Some l -> level_ l = level -> set_own_level id level st !! x = Some l)).
  { rewrite set_own_level_kind. destruct (st !! x) as [[k v]|]; [|done]. cbn. split; [done|].
    intros ? [= <-] <-. cbn. by case_bool_decide. }
  destruct Hone as [Hk Hl].
  destruct (logger_kind l); intros H; try (injection H as <-; done).
  apply IH in H as [Hk' Hl']. split; [by rewrite Hk'|eauto].
Qed.

(** [set_level] returns, and changes exactly the levels on the chain. *)
Lemma set_level_chain fuel st id ps sink level :
  chain st id ps sink -> (length ps < fuel)%nat ->
  exists st', set_level fuel st id level = Some st' /\
    (forall x, on_chain st id x -> st' !! x = (fun l => mkLogger (logger_kind l) level) <$> st !! x) /\
    (forall x, ~ on_chain st id x -> st' !! x = st !! x).
Proof.
  revert st id ps. induction fuel as [|fuel IH]; intros st id ps Hc Hf; [lia|]. cbn [set_level].
  assert (Hown : set_own_level id level st !! id = (fun l => mkLogger (logger_kind l) level) <$> st !! id)
    by (rewrite set_own_level_kind; by rewrite bool_decide_true).
  assert (Hother : forall x, x <> id -> set_own_level id level st !! x = st !! x)
    by (intros x Hx; unfold set_own_level; by rewrite lookup_alter_ne).
  inversion Hc as [? l Hl Hk|? l base prefix ps' ? Hl Hk Hc']; subst; rewrite Hl; cbn [mbind option_bind].
  - eexists. split; [|split; [intros x Hx|intros x Hx; apply Hother; intros ->; apply Hx; constructor]].
    + destruct (logger_kind l) eqn:E; [done..|by edestruct Hk].
    + inversion Hx as [|? l' b p ? Hl' Hk']; subst; [done|]. rewrite Hl in Hl'. injection Hl' as <-. by edestruct Hk.
  - rewrite Hk. destruct (set_own_level_chain id level _ _ _ _ Hc') as (qs & Hq & Hlen). cbn [length] in Hf.
    destruct (IH _ _ _ Hq ltac:(lia)) as (st' & Hs & Hon & Hoff). exists st'. split; [done|].
    pose proof (fun x => set_level_kinds _ _ _ _ _ x Hs) as Hkeep.
    split.
    + intros x Hx. inversion Hx as [|? l' b p ? Hl' Hk' Hc'']; subst.
      * destruct (Hkeep x) as [_ Hkeep']. rewrite Hl. cbn. apply Hkeep'; [by rewrite Hown, Hl|done].
      * rewrite Hl in Hl'. injection Hl' as <-. rewrite Hk in Hk'. injection Hk' as <- <-.
        rewrite Hon by (by apply set_own_level_on_chain). rewrite set_own_level_kind. by destruct (st !! x).
    + intros x Hx. rewrite Hoff.
      * apply Hother. intros ->. apply Hx. constructor.
      * intros H. apply Hx. eapply on_base; [exact Hl|exact Hk|by apply set_own_level_on_chain_inv in H].
Qed.

Lemma chain_sink st id ps sink : chain st id ps sink -> is_Some (st !! sink).
Proof. induction 1; [by eexists|done]. Qed.

Lemma chain_end_unique st id ps sink ps' sink' : chain st id ps sink -> chain st id ps' sink' -> sink = sink'.
Proof.
  intros Hc. revert ps'. induction Hc as [id l Hl Hk|id l base prefix ps sink Hl Hk Hc IH];
    intros ps' Hc'; inversion Hc' as [? l' Hl' Hk'|? l' b p ps1 ? Hl' Hk' Hc1]; subst;
    rewrite Hl in Hl'; injection Hl' as <-; try done.
  - by edestruct Hk.
  - by edestruct Hk'.
  - rewrite Hk in Hk'. injection Hk' as <- <-. by eapply IH.
Qed.

Lemma chain_relevel st st' id ps sink level :
  chain st id ps sink ->
  (forall x, on_chain st id x -> st' !! x = (fun l => mkLogger (logger_kind l) level) <$> st !! x) ->
  chain st' id ((fun p => (level, p.2)) <$> ps) sink /\ on_chain st id sink.
Proof.
  induction 1 as [id l Hl Hk|id l base prefix ps sink Hl Hk Hc IH]; intros Hst.
  - split; [|constructor]. eapply chain_end; [rewrite (Hst id) by constructor; by rewrite Hl|done].
  - destruct IH as [IH1 IH2]; [intros x Hx; apply Hst; by eapply on_base|]. split; [|by eapply on_base].
    eapply (chain_prefix st' id (mkLogger (Prefix base prefix) level)); [|done|exact IH1].
    rewrite (Hst id) by constructor. rewrite Hl. cbn. by rewrite Hk.
Qed.

Lemma store_wf_new l s :
  store_wf s -> (forall base p, logger_kind l = Prefix base p -> is_Some (log_store s !! base)) ->
  store_wf (new_logger l s).
Proof.
  intros [Hlt Hb] Hl. split; cbn [new_logger log_store log_next].
  - intros id l' [[<- _]|[_ H]]%lookup_insert_Some; [lia|]. specialize (Hlt _ _ H). lia.
  - intros id l' base p [[<- <-]|[_ H]]%lookup_insert_Some Hk.
    + destruct (Hl _ _ Hk) as [b Hbase]. specialize (Hlt _ _ Hbase) as Hlt'. split; [done|].
      rewrite lookup_insert_ne by lia. by eexists.
    + destruct (Hb _ _ _ _ H Hk) as [Hid [b Hbase]]. specialize (Hlt _ _ Hbase) as Hlt'. split; [done|].
      rewrite lookup_insert_ne by lia. by eexists.
Qed.

Lemma store_wf_set_level fuel s id level st :
  store_wf s -> set_level fuel (log_store s) id level = Some st -> store_wf (mkLoggers st (log_next s)).
Proof.
  intros [Hlt Hb] Hset. pose proof (fun x => proj1 (set_level_kinds _ _ _ _ _ x Hset)) as Hk.
  assert (Hback : forall x l, st !! x = Some l -> exists l', log_store s !! x = Some l' /\ logger_kind l' = logger_kind l).
  { intros x l Hx. specialize (Hk x). rewrite Hx in Hk. symmetry in Hk.
    by apply fmap_Some in Hk as (l' & Hl' & E); exists l'. }
  split; cbn [log_store log_next].
  - intros x l (l' & Hl' & _)%Hback. eauto.
  - intros x l base p (l' & Hl' & E)%Hback Hp. rewrite Hp in E.
    destruct (Hb _ _ _ _ Hl' E) as [? [b Hbase]]. split; [done|].
    specialize (Hk base). rewrite Hbase in Hk. by apply fmap_Some in Hk as (b' & -> & _).
Qed.

Lemma store_wf_run_one c s s' : store_wf s -> run_log_cmd c s = Some s' -> store_wf s'.
Proof.
  intros Hwf. destruct c; cbn [run_log_cmd].
  1-3: by intros [= <-]; apply store_wf_new.
  - case_bool_decide as Hb; [|done]. intros [= <-]. apply store_wf_new; [done|]. by intros ? ? [= <- <-].
  - intros (st & Hs & [= <-])%bind_Some. by eapply store_wf_set_level.
Qed.

Lemma store_wf_run cs s s' : store_wf s -> run_log_cmds cs s = Some s' -> store_wf s'.
Proof.
  revert s. induction cs as [|c cs IH]; intros s Hwf; cbn; [by intros [= <-]|].
  intros (s1 & H1 & H2)%bind_Some. by eapply IH; [eapply store_wf_run_one|].
Qed.

Lemma store_wf_empty : store_wf no_loggers.
Proof. by split. Qed.

Lemma chain_bound s id ps sink : store_wf s -> chain (log_store s) id ps sink -> (length ps <= id)%nat.
Proof. intros [_ Hwf] Hc. eapply chain_length; [exact Hc|]. intros ? ? ? ? Hl Hk. by destruct (Hwf _ _ _ _ Hl Hk). Qed.

(** ** What logging does *)

(** C26: Every call on a logger returns. In the store a program builds, however
    loggers are wrapped, [log], [flush] and [set_level] on any logger finish
    with any fuel above its address: a flush is the one of the logger at the end
    of the chain, and the message reaches the logger at the end of the
    chain exactly when its level passes every threshold on the way, and then
    with the prefixes in front, the outermost nearest to the text. *)
Theorem logging_returns cs s id :
  run_log_cmds cs no_loggers = Some s -> is_Some (log_store s !! id) ->
  exists ps sink, chain (log_store s) id ps sink /\
    (forall fuel level message, (id < fuel)%nat ->
       log fuel (log_store s) id level message =
         Some (if forallb (fun p => at_least level p.1) ps then
                 sink_log (log_store s) sink level (foldl (fun m p => p.2 +:+ m) message ps)
               else [])) /\
    (forall fuel, (id < fuel)%nat ->
       flush fuel (log_store s) id = Some (match logger_kind <$> log_store s !! sink with Some Console => [sink] | _ => [] end)) /\
    (forall fuel level, (id < fuel)%nat -> is_Some (set_level fuel (log_store s) id level)).
Proof.
  intros Hr Hid. pose proof (store_wf_run _ _ _ store_wf_empty Hr) as Hwf.
  destruct (wf_chain _ _ Hwf Hid) as (ps & sink & Hc). pose proof (chain_bound _ _ _ _ Hwf Hc) as Hb.
  exists ps, sink. split; [done|]. split; [|split].
  - intros fuel level message Hf. apply log_chain; [done|lia].
  - intros fuel Hf. eapply flush_chain; [done|lia].
  - intros fuel level Hf. destruct (set_level_chain fuel _ _ _ _ level Hc) as (st & ? & _); [lia|eauto].
Qed.

Definition wrapped : list log_cmd :=
  [NewConsole kDebug; NewPrefix 0 "[net] "; NewPrefix 1 "[shm] "; SetLevel 2 kWarning].

Lemma logging_returns_witness :
  exists s ps sink, run_log_cmds wrapped no_loggers = Some s /\ chain (log_store s) 2 ps sink /\
    log 3 (log_store s) 2 kError "lost" = Some [Cerr "[ERROR] [net] [shm] lost"].
Proof.
  destruct (run_log_cmds wrapped no_loggers) as [s|] eqn:E; [|vm_compute in E; discriminate E].
  destruct (logging_returns wrapped s 2 E) as (ps & sink & Hc & _);
    [vm_compute in E; injection E as <-; by eexists|].
  exists s, ps, sink. split; [done|]. split; [exact Hc|].
  vm_compute in E. injection E as <-. by vm_compute.
Defined.

Lemma forallb_relevel l level (ps : list (LogLevel * string)) :
  forallb (fun p => at_least l p.1) ((fun p => (level, p.2)) <$> ps) = bool_decide (ps = []) || at_least l level.
Proof.
  induction ps as [|p ps IH]; [done|]. rewrite fmap_cons. cbn [forallb fst]. rewrite IH.
  rewrite (bool_decide_false (p :: ps = [])) by done. by destruct (at_least l level), (bool_decide _).
Qed.

Lemma foldl_relevel (level : LogLevel) message (ps : list (LogLevel * string)) :
  foldl (fun m p => p.2 +:+ m) message ((fun p => (level, p.2)) <$> ps) = foldl (fun m p => p.2 +:+ m) message ps.
Proof. revert message. induction ps as [|p ps IH]; intros message; [done|]. apply IH. Qed.

(** The logger at the end applies its own threshold. *)
Lemma sink_log_below st sink l level message :
  level_ <$> st !! sink = Some level -> at_least l level = false -> sink_log st sink l message = [].
Proof.
  unfold sink_log. destruct (st !! sink) as [[k v]|]; [|done]. cbn. intros [= ->] Hl.
  destruct k as [| |cb|]; [|done| |done].
  - unfold console_log. by rewrite Hl.
  - unfold callback_log. by rewrite Hl, andb_false_r.
Qed.

(** Setting the level of a logger decides alone what it passes on. After
    [set_level] on a logger that wraps others, exactly the loggers on its chain
    have the new level and all else is unchanged; a message at or above the
    level reaches the end of the chain with its prefixes, any other writes
    nothing. *)
Theorem set_level_decides cs s id level :
  run_log_cmds cs no_loggers = Some s -> is_Some (log_store s !! id) ->
  exists st ps sink, set_level (S id) (log_store s) id level = Some st /\
    chain (log_store s) id ps sink /\
    (forall x, on_chain (log_store s) id x -> st !! x = (fun l => mkLogger (logger_kind l) level) <$> log_store s !! x) /\
    (forall x, ~ on_chain (log_store s) id x -> st !! x = log_store s !! x) /\
    (forall fuel l message, (id < fuel)%nat ->
       log fuel st id l message =
         Some (if at_least l level then sink_log st sink l (foldl (fun m p => p.2 +:+ m) message ps) else [])).
Proof.
  intros Hr Hid. pose proof (store_wf_run _ _ _ store_wf_empty Hr) as Hwf.
  destruct (wf_chain _ _ Hwf Hid) as (ps & sink & Hc). pose proof (chain_bound _ _ _ _ Hwf Hc) as Hb.
  destruct (set_level_chain (S id) _ _ _ _ level Hc) as (st & Hs & Hon & Hoff); [lia|].
  exists st, ps, sink. destruct (chain_relevel _ st _ _ _ level Hc Hon) as [Hc' Hsink].
  split; [done|]. split; [done|]. split; [done|]. split; [done|].
  intros fuel l message Hf.
  rewrite (log_chain _ _ _ _ _ _ _ Hc') by (rewrite length_fmap; lia).
  rewrite forallb_relevel, foldl_relevel. f_equal.
  destruct (at_least l level) eqn:E; rewrite ?orb_true_r, ?orb_false_r; [done|].
  case_bool_decide; [|done]. apply (sink_log_below _ _ _ level); [|done].
  rewrite (Hon _ Hsink). destruct (chain_sink _ _ _ _ Hc) as [l' ->]. done.
Qed.

Lemma set_level_decides_witness :
  exists s st, run_log_cmds wrapped no_loggers = Some s /\ set_level 3 (log_store s) 2 kTrace = Some st /\
    log 3 st 2 kDebug "probe" = Some [Cout "[DEBUG] [net] [shm] probe"].
Proof.
  destruct (run_log_cmds wrapped no_loggers) as [s|] eqn:E; [|vm_compute in E; discriminate E].
  destruct (set_level_decides wrapped s 2 kTrace E) as (st & ps & sink & Hs & _);
    [vm_compute in E; injection E as <-; by eexists|].
  exists s, st. split; [done|]. split; [exact Hs|].
  vm_compute in E. injection E as <-. vm_compute in Hs. injection Hs as <-. by vm_compute.
Defined.

(** ** Log streams *)

(** src/include/duct/logging.h:215-218 [LogStream] *)
Record LogStream := mkStream { s_level : LogLevel; s_logger : nat; s_buffer : string; s_handled : bool }.
(** src/include/duct/logging.h:186-187 [LogStream::LogStream] *)
Definition LogStream_make (level : LogLevel) (logger : nat) : LogStream := mkStream level logger "" false.
(** src/include/duct/logging.h:207-212 [LogStream::operator<<]

    The text is what the value's own [operator<<] writes. *)
Definition stream_write (text : string) (s : LogStream) : LogStream :=
  mkStream (s_level s) (s_logger s) (s_buffer s +:+ text) (s_handled s).
(** src/include/duct/logging.h:189-193 [LogStream::~LogStream]

    The calls of [Logger::log]. *)
Definition stream_destroy (s : LogStream) : list (nat * LogLevel * string) :=
  if negb (s_handled s) then [(s_logger s, s_level s, s_buffer s)] else [].

Section streams.

(** What moving from a string leaves in it. *)
Variable moved_from : string -> string.

(** src/include/duct/logging.h:200-204 [LogStream::LogStream(LogStream&&)]

    The new stream and what is left of the old one. *)
Definition stream_move (other : LogStream) : LogStream * LogStream :=
  (mkStream (s_level other) (s_logger other) (s_buffer other) (s_handled other),
   mkStream (s_level other) (s_logger other) (moved_from (s_buffer other)) true).

(** What is done with a stream and with the objects it was moved out of. *)
Inductive stream_op := Write (text : string) | Move | WriteOld (i : nat) (text : string).

Definition run_stream_op (o : stream_op) (p : LogStream * list LogStream) : LogStream * list LogStream :=
  let '(s, olds) := p in
  match o with
  | Write text => (stream_write text s, olds)
  | Move => let '(s', old) := stream_move s in (s', old :: olds)
  | WriteOld i text => (s, alter (stream_write text) i olds)
  end.

Definition run_stream_ops (os : list stream_op) (s : LogStream) : LogStream * list LogStream :=
  foldl (fun p o => run_stream_op o p) (s, []) os.

(** The text written through the stream itself. *)
Definition written (os : list stream_op) : string :=
  foldl (fun acc o => match o with Write text => acc +:+ text | _ => acc end) "" os.

Lemma run_stream_ops_inv os level logger :
  let '(s, olds) := run_stream_ops os (LogStream_make level logger) in
  s = mkStream level logger (written os) false /\ Forall (fun o => s_handled o = true) olds.
Proof.
  induction os as [|o os IH] using rev_ind; [by repeat constructor|].
  unfold run_stream_ops, written in *. rewrite !foldl_app.
  destruct (foldl _ (LogStream_make _ _, []) os) as [s olds]. destruct IH as [-> Ho].
  destruct o as [text| |i text]; cbn; split; try done; [by constructor|].
  apply Forall_alter; [done|]. by intros x _.
Qed.

Lemma handled_silent olds : Forall (fun o => s_handled o = true) olds -> concat (stream_destroy <$> olds) = [].
Proof. induction 1 as [|o olds Ho _ IH]; [done|]. rewrite fmap_cons. cbn. rewrite IH. unfold stream_destroy. by rewrite Ho. Qed.

(** A log stream logs once. Whatever is written to it, however often it is
    moved, and in whatever order the objects it passed through are destroyed,
    the destructors make one call of [log], with the level and the logger it was
    made with and all the text in order. *)
Theorem stream_logs_once os level logger order s olds :
  run_stream_ops os (LogStream_make level logger) = (s, olds) -> order ≡ₚ s :: olds ->
  concat (stream_destroy <$> order) = [(logger, level, written os)].
Proof.
  intros Hr Hp. pose proof (run_stream_ops_inv os level logger) as H. rewrite Hr in H. destruct H as [-> Ho].
  assert (Hc : concat (stream_destroy <$> order) ≡ₚ [(logger, level, written os)]).
  { rewrite Hp, fmap_cons. cbn [concat]. by rewrite (handled_silent _ Ho). }
  by apply Permutation_singleton_r in Hc.
Qed.

End streams.

Lemma stream_logs_once_witness :
  let '(s, olds) := run_stream_ops (fun _ => "") [Write "port "; Move; WriteOld 0 "lost"; Write "80"; Move] (LogStream_make kInfo 4) in
  concat (stream_destroy <$> olds ++ [s]) = [(4%nat, kInfo, "port 80")].
Proof.
  apply (stream_logs_once (fun _ => "") [Write "port "; Move; WriteOld 0 "lost"; Write "80"; Move] kInfo 4 _ _ _ eq_refl).
  rewrite Permutation_app_comm. reflexivity.
Defined.

(** ** The global logger *)

(** The holder of [src/logging.cc], the loggers that exist, and the reference
    each thread has from [get_logger]. *)
(** src/src/logging.cc:33-35 [LoggerHolder] *)
Record LoggerHolder := mkHolder { holder_logger : nat; alive : gset nat; refs : gmap nat nat }.

Inductive global_op :=
| GetLogger (thread : nat)
| SetLogger (new_logger : nat)
| UseLogger (thread : nat).

(** src/src/logging.cc:37-40 [LoggerHolder::get] *)
Definition holder_get (thread : nat) (h : LoggerHolder) : LoggerHolder :=
  mkHolder (holder_logger h) (alive h) (<[thread := holder_logger h]> (refs h)).

(** src/src/logging.cc:42-45 [LoggerHolder::set]

    [kept]: the loggers that something else also owns. The logger that is
    replaced is destroyed unless it is one of them. *)
Definition holder_set (kept : gset nat) (new_logger : nat) (h : LoggerHolder) : LoggerHolder :=
  let old := holder_logger h in
  let alive' := {[new_logger]} ∪ alive h in
  mkHolder new_logger
    (if bool_decide (old ∈ kept) || bool_decide (old = new_logger) then alive' else alive' ∖ {[old]}) (refs h).

(** The functions of the global logger, on a store of loggers. *)

(** src/include/duct/logging.h:163-165 [set_log_level] *)
Definition set_log_level (level : LogLevel) (h : LoggerHolder) (st : store) : option store :=
  set_level (S (holder_logger h)) st (holder_logger h) level.
(** src/include/duct/logging.h:168-170 [log] *)
Definition global_log (level : LogLevel) (msg : string) (h : LoggerHolder) (st : store) : option (list output) :=
  log (S (holder_logger h)) st (holder_logger h) level msg.
(** src/include/duct/logging.h:172-172 [trace] *)
Definition trace := global_log kTrace.
(** src/include/duct/logging.h:173-173 [debug] *)
Definition debug := global_log kDebug.
(** src/include/duct/logging.h:174-174 [info] *)
Definition info := global_log kInfo.
(** src/include/duct/logging.h:175-175 [warning] *)
Definition warning := global_log kWarning.
(** src/include/duct/logging.h:176-176 [error] *)
Definition error := global_log kError.
(** src/include/duct/logging.h:177-177 [fatal] *)
Definition fatal := global_log kFatal.

(** [None]: a thread calls a logger that has been destroyed. *)
Definition global_step (kept : gset nat) (o : global_op) (h : LoggerHolder) : option LoggerHolder :=
  match o with
  | GetLogger t => Some (holder_get t h)
  | SetLogger l => Some (holder_set kept l h)
  | UseLogger t =>
      match refs h !! t with
      | Some l => if bool_decide (l ∈ alive h) then Some h else None
      | None => Some h
      end
  end.

Fixpoint global_steps (kept : gset nat) (os : list global_op) (h : LoggerHolder) : option LoggerHolder :=
  match os with
  | [] => Some h
  | o :: os' => h ← global_step kept o h; global_steps kept os' h
  end.

(** The holder as it starts, with its console logger. *)
Definition holder0 (l : nat) : LoggerHolder := mkHolder l {[l]} ∅.

Definition refs_alive (h : LoggerHolder) : Prop :=
  holder_logger h ∈ alive h /\ (forall t l, refs h !! t = Some l -> l ∈ alive h).

Lemma global_step_safe kept o h :
  refs_alive h -> holder_logger h ∈ kept -> (forall l, o = SetLogger l -> l ∈ kept) ->
  exists h', global_step kept o h = Some h' /\ refs_alive h' /\ holder_logger h' ∈ kept.
Proof.
  intros [Hc Hr] Hk Ho. destruct o as [t|l|t]; cbn [global_step].
  - eexists. split; [done|]. repeat split; cbn; [done| |done].
    intros t' l [[_ <-]|[_ H]]%lookup_insert_Some; [done|eauto].
  - eexists. split; [done|]. unfold holder_set. rewrite (bool_decide_true (holder_logger h ∈ kept)) by done.
    repeat split; cbn; [set_solver| |by apply Ho]. intros t' l' H. set_solver.
  - eexists. split; [|repeat split; [exact Hc|exact Hr|exact Hk]].
    destruct (refs h !! t) as [l|] eqn:E; [|done]. by rewrite bool_decide_true by eauto.
Qed.

(** The reference [get_logger] returns is not counted: with threads that log
    while another replaces the global logger, a program that keeps a shared
    pointer to every logger it installs never calls a destroyed one, and a
    program that leaves them to [set_logger] can: between a thread's [get] and
    its [log], [set] destroys the logger. *)
Theorem global_logger_lifetime :
  (forall kept os l, l ∈ kept -> (forall l', SetLogger l' ∈ os -> l' ∈ kept) ->
     is_Some (global_steps kept os (holder0 l))) /\
  (forall l new t, new <> l -> global_steps ∅ [GetLogger t; SetLogger new; UseLogger t] (holder0 l) = None).
Proof.
  split.
  - intros kept os l Hl Hos.
    assert (H : refs_alive (holder0 l)) by (split; [cbn; set_solver|done]).
    assert (Hk : holder_logger (holder0 l) ∈ kept) by done.
    revert H Hk. generalize (holder0 l). clear Hl l.
    induction os as [|o os IH]; intros h H Hk; cbn; [by eexists|].
    destruct (global_step_safe kept o h H Hk) as (h' & -> & H' & Hk').
    + intros l' ->. apply Hos. by left.
    + apply IH; [|done..]. intros l' Hl'. apply Hos. by right.
  - intros l new t Hne. cbn. rewrite lookup_insert_eq. cbn.
    rewrite (bool_decide_false (l ∈ ∅)) by set_solver. rewrite (bool_decide_false (l = new)) by done. cbn.
    rewrite bool_decide_false; [done|]. set_solver.
Qed.

Lemma global_logger_lifetime_witness :
  is_Some (global_steps {[1%nat; 2%nat]} [GetLogger 0; SetLogger 2; UseLogger 0] (holder0 1)) /\
  global_steps ∅ [GetLogger 0; SetLogger 2; UseLogger 0] (holder0 1) = None.
Proof.
  destruct global_logger_lifetime as [Hsafe Hlost]. split; [|by apply Hlost].
  apply Hsafe; [set_solver|]. intros l' Hl. repeat (apply elem_of_cons in Hl as [Hl|Hl]); try done; [injection Hl as ->; set_solver|set_solver].
Defined.

(** after [set_log_level] the global functions obey it: with a console logger
    installed, however wrapped, [error] and [fatal] write to the error stream
    whatever the level up to kError is, and below the level nothing is written. *)
Theorem global_level cs s h level :
  run_log_cmds cs no_loggers = Some s -> is_Some (log_store s !! holder_logger h) ->
  exists st, set_log_level level h (log_store s) = Some st /\
    (forall l msg, at_least l level = false -> global_log l msg h st = Some []) /\
    (forall ps sink, chain (log_store s) (holder_logger h) ps sink ->
       logger_kind <$> log_store s !! sink = Some Console ->
       forall l msg, at_least l level = true -> exists text,
         global_log l msg h st = Some [if at_least l kWarning then Cerr text else Cout text]).
Proof.
  intros Hr Hid. destruct (set_level_decides cs s _ level Hr Hid) as (st & ps & sink & Hs & Hc & Hon & _ & Hlog).
  exists st. split; [exact Hs|]. unfold global_log. split.
  - intros l msg Hl. rewrite Hlog by lia. by rewrite Hl.
  - intros ps' sink' Hc' Hk l msg Hl. rewrite Hlog, Hl by lia.
    destruct (chain_relevel _ st _ _ _ level Hc Hon) as [_ Hsink].
    rewrite (chain_end_unique _ _ _ _ _ _ Hc' Hc) in Hk. destruct (log_store s !! sink) as [[k v]|] eqn:E; [|done].
    cbn in Hk. injection Hk as ->. unfold sink_log. rewrite (Hon _ Hsink), E. cbn.
    unfold console_log. rewrite Hl. cbn. by eexists.
Qed.

Lemma global_level_witness :
  let h := holder0 2 in
  exists s st, run_log_cmds wrapped no_loggers = Some s /\ set_log_level kDebug h (log_store s) = Some st /\
    trace "lost" h st = Some [].
Proof.
  cbv zeta. destruct (run_log_cmds wrapped no_loggers) as [s|] eqn:E; [|vm_compute in E; discriminate E].
  destruct (global_level wrapped s (holder0 2) kDebug E) as (st & Hs & Hl & _);
    [vm_compute in E; injection E as <-; by eexists|].
  exists s, st. split; [reflexivity|]. split; [exact Hs|]. apply Hl. reflexivity.
Defined.
