(* ===== verification/Metrics.v ===== *)
(** * Metrics (include/duct/logging.h)

    Counters, gauges and histograms, and the registry that hands them out by
    name. Values are binary64 numbers, added as the hardware adds them. The
    registry returns shared pointers: a program that asks twice for a name updates
    one object, which is what [registry_refines_names] states against a
    specification that knows names only. *)

From Stdlib Require Import SpecFloat.
From S2P Require Import Prelude.

(** ** Values *)

Abbreviation double := spec_float.
Definition dadd : double -> double -> double := SFadd 53 1024.
Definition dsub : double -> double -> double := SFsub 53 1024.
Definition ddiv : double -> double -> double := SFdiv 53 1024.
Definition zero : double := S754_zero false.
(** The conversion of a [std::size_t]. *)
Definition double_of_size (n : Z) : double := binary_normalize 53 1024 n 0 false.

(** ** The metrics *)

(** src/include/duct/logging.h:239-243 [MetricType] *)
Inductive MetricType := kCounter | kGauge | kHistogram.

(** src/include/duct/logging.h:281-282 [Counter] *)
Record Counter := mkCounter { counter_name : string; counter_value_ : double }.
(** src/include/duct/logging.h:261-261 [Counter::Counter] *)
Definition Counter_make (name : string) : Counter := mkCounter name zero.
(** src/include/duct/logging.h:263-266 [Counter::increment] *)
Definition counter_increment (delta : double) (c : Counter) : Counter :=
  mkCounter (counter_name c) (dadd (counter_value_ c) delta).
(** src/include/duct/logging.h:268-271 [Counter::reset] *)
Definition counter_reset (c : Counter) : Counter := mkCounter (counter_name c) zero.
(** src/include/duct/logging.h:275-278 [Counter::value] *)
Definition counter_value (c : Counter) : double := counter_value_ c.

(** src/include/duct/logging.h:316-317 [Gauge] *)
Record Gauge := mkGauge { gauge_name : string; gauge_value_ : double }.
(** src/include/duct/logging.h:291-291 [Gauge::Gauge] *)
Definition Gauge_make (name : string) : Gauge := mkGauge name zero.
(** src/include/duct/logging.h:293-296 [Gauge::set] *)
Definition gauge_set (value : double) (g : Gauge) : Gauge := mkGauge (gauge_name g) value.
(** src/include/duct/logging.h:298-301 [Gauge::increment] *)
Definition gauge_increment (delta : double) (g : Gauge) : Gauge := mkGauge (gauge_name g) (dadd (gauge_value_ g) delta).
(** src/include/duct/logging.h:303-306 [Gauge::decrement] *)
Definition gauge_decrement (delta : double) (g : Gauge) : Gauge := mkGauge (gauge_name g) (dsub (gauge_value_ g) delta).
(** src/include/duct/logging.h:310-313 [Gauge::value] *)
Definition gauge_value (g : Gauge) : double := gauge_value_ g.

(** src/include/duct/logging.h:355-358 [Histogram] *)
Record Histogram := mkHistogram {
  histogram_name : string; values_ : list double; count_ : Z; sum_ : double }.
(** src/include/duct/logging.h:326-326 [Histogram::Histogram] *)
Definition Histogram_make (name : string) : Histogram := mkHistogram name [] 0 zero.
(** src/include/duct/logging.h:328-333 [Histogram::observe] *)
Definition histogram_observe (value : double) (h : Histogram) : Histogram :=
  mkHistogram (histogram_name h) (values_ h ++ [value]) (wrap64 (count_ h + 1)) (dadd (sum_ h) value).
(** src/include/duct/logging.h:337-337 [Histogram::value] *)
Definition histogram_value (h : Histogram) : double := double_of_size (count_ h).
(** src/include/duct/logging.h:339-342 [Histogram::count] *)
Definition histogram_count (h : Histogram) : Z := count_ h.
(** src/include/duct/logging.h:344-347 [Histogram::sum] *)
Definition histogram_sum (h : Histogram) : double := sum_ h.
(** src/include/duct/logging.h:349-352 [Histogram::mean] *)
Definition histogram_mean (h : Histogram) : double :=
  if count_ h >? 0 then ddiv (sum_ h) (double_of_size (count_ h)) else zero.

(** The class of a metric behind [Metric], with its name and its value. *)
Inductive Metric := MCounter (c : Counter) | MGauge (g : Gauge) | MHistogram (h : Histogram).

(** src/include/duct/logging.h:248-254 [Metric, with the overrides at 274, 309 and 336] *)
Definition metric_type (m : Metric) : MetricType :=
  match m with MCounter _ => kCounter | MGauge _ => kGauge | MHistogram _ => kHistogram end.

(** ** The registry *)

Section registry.
Context {M : Type} (make : string -> M).

(** One of the three maps, with the objects its pointers lead to. *)
Record registry := mkRegistry { entries : gmap string nat; objects : gmap nat M; fresh_object : nat }.

(** src/include/duct/logging.h:372-381 [MetricRegistry::get_counter]

    The three lookups are the same text for three classes. The address returned
    is the shared pointer. *)
Definition get_metric (name : string) (r : registry) : nat * registry :=
  match entries r !! name with
  | Some a => (a, r)
  | None =>
      let a := fresh_object r in
      (a, mkRegistry (<[name := a]> (entries r)) (<[a := make name]> (objects r)) (S a))
  end.

(** Programs: [Get v name] is [auto v = registry.get_...(name)], [Do v f] calls
    a member function, which does [f] to the object, through [v]. *)
Inductive reg_cmd := Get (v : nat) (name : string) | Do (v : nat) (f : M -> M).

(** [None]: the variable has not been set. *)
Definition reg_step (c : reg_cmd) (s : registry * gmap nat nat) : option (registry * gmap nat nat) :=
  let '(r, vars) := s in
  match c with
  | Get v name => let '(a, r) := get_metric name r in Some (r, <[v := a]> vars)
  | Do v f =>
      a ← vars !! v;
      Some (mkRegistry (entries r) (alter f a (objects r)) (fresh_object r), vars)
  end.

Fixpoint reg_steps (cs : list reg_cmd) (s : registry * gmap nat nat) : option (registry * gmap nat nat) :=
  match cs with
  | [] => Some s
  | c :: cs' => s ← reg_step c s; reg_steps cs' s
  end.

Definition registry0 : registry * gmap nat nat := (mkRegistry ∅ ∅ 0, ∅).

(** The object a variable leads to. *)
Definition reg_read (v : nat) (s : registry * gmap nat nat) : option M := a ← s.2 !! v; objects s.1 !! a.

(** The specification: one value for each name, and variables that name names. *)
Definition named_step (c : reg_cmd) (s : gmap string M * gmap nat string) : option (gmap string M * gmap nat string) :=
  let '(m, vars) := s in
  match c with
  | Get v name => Some (<[name := default (make name) (m !! name)]> m, <[v := name]> vars)
  | Do v f => name ← vars !! v; Some (alter f name m, vars)
  end.

Fixpoint named_steps (cs : list reg_cmd) (s : gmap string M * gmap nat string) : option (gmap string M * gmap nat string) :=
  match cs with
  | [] => Some s
  | c :: cs' => s ← named_step c s; named_steps cs' s
  end.

Definition named0 : gmap string M * gmap nat string := (∅, ∅).
Definition named_read (v : nat) (s : gmap string M * gmap nat string) : option M := name ← s.2 !! v; s.1 !! name.

(** The simulation relation. *)
Record names_objects (s : registry * gmap nat nat) (t : gmap string M * gmap nat string) : Prop := {
  no_bound name a : entries s.1 !! name = Some a -> (a < fresh_object s.1)%nat;
  no_inj name name' a : entries s.1 !! name = Some a -> entries s.1 !! name' = Some a -> name = name';
  no_value name : t.1 !! name = (a ← entries s.1 !! name; objects s.1 !! a);
  no_entry name a : entries s.1 !! name = Some a -> is_Some (objects s.1 !! a);
  no_var v : s.2 !! v = (name ← t.2 !! v; entries s.1 !! name);
  no_named v name : t.2 !! v = Some name -> is_Some (entries s.1 !! name);
}.

Lemma names_objects0 : names_objects registry0 named0.
Proof. by split. Qed.

Lemma get_metric_sim name v s t :
  names_objects s t ->
  let '(a, r) := get_metric name s.1 in
  names_objects (r, <[v := a]> s.2) (<[name := default (make name) (t.1 !! name)]> t.1, <[v := name]> t.2).
Proof.
  intros H. unfold get_metric. destruct (entries s.1 !! name) as [a|] eqn:E.
  - destruct (no_entry _ _ H _ _ E) as [o Ho].
    assert (Ht : t.1 !! name = Some o) by (rewrite (no_value _ _ H), E; done).
    split; cbn; try apply H.
    + intros n. rewrite Ht. cbn. rewrite insert_id by done. apply H.
    + intros v'. destruct (decide (v = v')) as [<-|Hv]; [by rewrite !lookup_insert_eq|].
      rewrite !lookup_insert_ne by done. apply H.
    + intros v' n [[_ <-]|[_ Hv]]%lookup_insert_Some; [by eexists|by eapply no_named].
  - assert (Ht : t.1 !! name = None) by (rewrite (no_value _ _ H), E; done). rewrite Ht. cbn [default].
    pose proof (fun n a He => no_bound _ _ H n a He) as Hb.
    split; cbn.
    + intros n a [[_ <-]|[_ He]]%lookup_insert_Some; [lia|]. specialize (Hb _ _ He). lia.
    + intros n n' a [[<- <-]|[Hn He]]%lookup_insert_Some [[<- Ha]|[Hn' He']]%lookup_insert_Some; try done.
      * specialize (Hb _ _ He'). lia.
      * subst. specialize (Hb _ _ He). lia.
      * by eapply no_inj.
    + intros n. destruct (decide (name = n)) as [<-|Hn]; [by rewrite !lookup_insert_eq; cbn; rewrite lookup_insert_eq|].
      rewrite !lookup_insert_ne by done. rewrite (no_value _ _ H). destruct (entries s.1 !! n) as [a|] eqn:En; [|done]. cbn.
      specialize (Hb _ _ En). by rewrite lookup_insert_ne by lia.
    + intros n a [[_ <-]|[_ He]]%lookup_insert_Some; [by rewrite lookup_insert_eq; eexists|].
      specialize (Hb _ _ He) as Hlt. rewrite lookup_insert_ne by lia. by eapply no_entry.
    + intros v'. destruct (decide (v = v')) as [<-|Hv]; [rewrite !lookup_insert_eq; cbn; by rewrite lookup_insert_eq|].
      rewrite !lookup_insert_ne by done. rewrite (no_var _ _ H). destruct (t.2 !! v') as [n|] eqn:En; [|done]. cbn.
      destruct (no_named _ _ H _ _ En) as [a Ha]. rewrite lookup_insert_ne; [done|]. intros ->. congruence.
    + intros v' n [[_ <-]|[_ Hv]]%lookup_insert_Some; [by rewrite lookup_insert_eq; eexists|].
      destruct (decide (name = n)) as [<-|Hn]; [by rewrite lookup_insert_eq; eexists|].
      rewrite lookup_insert_ne by done. by eapply no_named.
Qed.

Lemma do_sim v f s t a name :
  names_objects s t -> t.2 !! v = Some name -> entries s.1 !! name = Some a ->
  names_objects (mkRegistry (entries s.1) (alter f a (objects s.1)) (fresh_object s.1), s.2) (alter f name t.1, t.2).
Proof.
  intros H Hv He. split; cbn; try apply H.
  - intros n. destruct (decide (name = n)) as [<-|Hn].
    + rewrite lookup_alter_eq, (no_value _ _ H), He. cbn. by rewrite lookup_alter_eq.
    + rewrite lookup_alter_ne by done. rewrite (no_value _ _ H). destruct (entries s.1 !! n) as [b|] eqn:En; [|done]. cbn.
      rewrite lookup_alter_ne; [done|]. intros ->. by apply Hn, (no_inj _ _ H _ _ b).
  - intros n b Hb. apply lookup_alter_is_Some. by eapply no_entry.
Qed.

Lemma reg_step_sim c s t :
  names_objects s t ->
  match reg_step c s, named_step c t with
  | Some s', Some t' => names_objects s' t'
  | None, None => True
  | _, _ => False
  end.
Proof.
  intros H. destruct s as [r vars], t as [m names], c as [v name|v f]; cbn [reg_step named_step].
  - pose proof (get_metric_sim name v _ _ H) as Hg. cbn [fst snd] in Hg. by destruct (get_metric name r).
  - pose proof (no_var _ _ H v) as Hv. cbn [fst snd] in Hv. rewrite Hv.
    destruct (names !! v) as [n|] eqn:En; [|done]. cbn.
    destruct (no_named _ _ H v n En) as [a Ha]. cbn in Ha. rewrite Ha. cbn. by apply (do_sim v f (r, vars) (m, names) a n).
Qed.

Lemma reg_steps_sim cs s t :
  names_objects s t ->
  match reg_steps cs s, named_steps cs t with
  | Some s', Some t' => names_objects s' t'
  | None, None => True
  | _, _ => False
  end.
Proof.
  revert s t. induction cs as [|c cs IH]; intros s t H; cbn; [done|].
  pose proof (reg_step_sim c s t H) as Hs. destruct (reg_step c s) as [s'|], (named_step c t) as [t'|]; try done.
  by apply IH.
Qed.

Lemma read_sim v s t : names_objects s t -> reg_read v s = named_read v t.
Proof.
  intros H. unfold reg_read, named_read. rewrite (no_var _ _ H). destruct (t.2 !! v) as [n|]; [|done]. cbn.
  by rewrite (no_value _ _ H).
Qed.

(** C31: The registry keeps one metric for each name. A program that asks for
    metrics by name, any number of times and in any order, and calls members
    through the pointers it got observes the same as on a plain map from names to
    metrics: two pointers for one name share every update, pointers for different
    names share none, and a metric starts as its constructor makes it. *)
Theorem registry_refines_names cs :
  match reg_steps cs registry0, named_steps cs named0 with
  | Some s, Some t => forall v, reg_read v s = named_read v t
  | None, None => True
  | _, _ => False
  end.
Proof.
  pose proof (reg_steps_sim cs _ _ names_objects0) as H.
  destruct (reg_steps cs registry0), (named_steps cs named0); try done. intros v. by apply read_sim.
Qed.

End registry.

(** src/include/duct/logging.h:372-381 [MetricRegistry::get_counter] *)
Definition get_counter (name : string) (r : registry) : nat * registry := get_metric Counter_make name r.
(** src/include/duct/logging.h:384-392 [MetricRegistry::get_gauge] *)
Definition get_gauge (name : string) (r : registry) : nat * registry := get_metric Gauge_make name r.
(** src/include/duct/logging.h:394-403 [MetricRegistry::get_histogram] *)
Definition get_histogram (name : string) (r : registry) : nat * registry := get_metric Histogram_make name r.

(** The counters of the repository's example: two pointers, one counter. *)
Example shared_counter :
  let one := double_of_size 1 in
  (s ← reg_steps Counter_make [Get 0 "requests_total"; Do 0 (counter_increment one); Get 1 "requests_total";
                               Do 1 (counter_increment one)] registry0;
   counter_value <$> reg_read 0 s) = Some (double_of_size 2).
Proof. by vm_compute. Qed.

(** ** Histograms *)

(** A histogram reports what was observed: the number of observations modulo
    2^64, their sum in the order observed, and the mean, which is 0 for none; the
    values are kept in order. *)
Theorem histogram_reports name vs :
  let h := foldl (fun h v => histogram_observe v h) (Histogram_make name) vs in
  values_ h = vs /\ histogram_count h = wrap64 (len vs) /\ histogram_sum h = foldl dadd zero vs /\
  (vs = [] -> histogram_mean h = zero) /\
  (0 < len vs < 2 ^ 64 -> histogram_mean h = ddiv (foldl dadd zero vs) (double_of_size (len vs))).
Proof.
  assert (H : let h := foldl (fun h v => histogram_observe v h) (Histogram_make name) vs in
    values_ h = vs /\ count_ h = wrap64 (len vs) /\ sum_ h = foldl dadd zero vs).
  { induction vs as [|v vs IH] using rev_ind; [done|]. rewrite !foldl_app. cbn in IH |- *.
    destruct IH as (-> & -> & ->). split; [done|]. split; [|done].
    rewrite length_app. cbn [length]. unfold wrap. rewrite Nat2Z.inj_add. by rewrite Zplus_mod_idemp_l. }
  destruct H as (Hv & Hc & Hs). repeat split; try done.
  - intros ->. done.
  - intros Hlen. unfold histogram_mean. rewrite Hc, Hs. unfold wrap. rewrite Z.mod_small by lia.
    destruct (Z.gtb_spec (len vs) 0); [done|lia].
Qed.

Lemma histogram_reports_witness :
  let vs := [double_of_size 10; double_of_size 20; double_of_size 15] in
  let h := foldl (fun h v => histogram_observe v h) (Histogram_make "request_duration_ms") vs in
  histogram_count h = 3 /\ histogram_mean h = double_of_size 15.
Proof.
  cbv zeta. destruct (histogram_reports "request_duration_ms" [double_of_size 10; double_of_size 20; double_of_size 15])
    as (_ & Hc & _ & _ & Hm).
  split; [rewrite Hc; reflexivity|]. rewrite Hm; [vm_compute; reflexivity|cbn; lia].
Defined.

(** A counter can decrease: [increment] takes any delta, so the value after
    [increment(-1.0)] is below the one before. *)
Theorem counter_decreases name :
  let c := counter_increment (double_of_size (-1)) (Counter_make name) in
  SFcompare (counter_value c) (counter_value (Counter_make name)) = Some Lt.
Proof. by vm_compute. Qed.
