(* ===== verification/EchoServer.v ===== *)
(** * The background echo server, end to end (include/duct/async.h)

    [run_echo_serverInBackground]: the thread that accepts, the threads of the
    connections and the function that stops the server, as steps that interleave;
    and the composition of [request], the shared-memory transport and a
    connection of the server: what a client sends comes back. *)

From S2P Require Import Prelude Status Options Pipe ShmNames ShmRing Shm Wire Dial Convenience Async.

(** ** Dialling and listening on a thread *)

Definition in_pointer {A} (r : Result A) : Result (option A) :=
  match r with RValue a => RValue (Some a) | RStatus e => RStatus e end.

(** src/include/duct/async.h:71-76 [async_dial]

    What the future holds when the thread is done: the pointer, or the exception
    [value_or_throw] threw. *)
Definition async_dial {W L} (T : Transports W L) (address : string) (opt : DialOptions) (w : W)
    : option (Outcome (option Dialled) * W) :=
  '(result, w) ← dial T address opt w; Some (value_or_throw (in_pointer result), w).

(** src/include/duct/async.h:81-86 [async_listen] *)
Definition async_listen {W L} (T : Transports W L) (address : string) (opt : ListenOptions) (w : W)
    : option (Outcome (option L) * W) :=
  '(result, w) ← listen T address opt w; Some (value_or_throw (in_pointer result), w).

(** ** The server *)

(** The thread that accepts: at the test of [running], in [accept], with a
    connection it is about to hand to a thread, returned. *)
Inductive accept_pc := ATest | AAccept | ASpawn (conn : nat) | ADone.

(** The function [run_echo_serverInBackground] returns: not called, [running]
    set, the listener closed and [join] called, returned. *)
Inductive stop_call := NotCalled | Flagged | Joining | Stopped.

(** src/include/duct/async.h:315-319 [ServerState]

    With the threads of connections started and, of these, the ones whose loop
    has ended. *)
Record ServerState := mkServer {
  accepting : accept_pc;
  server_running : bool;
  listener_open : bool;
  stop_fn : stop_call;
  accepted : list nat;
  started : list nat;
  finished : gset nat;
}.

(** src/include/duct/async.h:318-321 [ServerState, as made] *)
Definition server_start : ServerState := mkServer ATest true true NotCalled [] [] ∅.

(** src/include/duct/async.h:314-325 [run_echo_serverInBackground, up to the thread] *)
Definition run_echo_server {W L} (T : Transports W L) (address : string) (w : W)
    : option (Outcome (ServerState * option L) * W) :=
  '(result, w) ← listen T address ListenOptions_default w;
  Some (match value_or_throw (in_pointer result) with
        | Returns l => Returns (server_start, l)
        | Throws e => Throws e
        end, w).

(** src/include/duct/async.h:325-353 [run_echo_serverInBackground, threads]

    An open listener accepts a connection or fails; [accept] on a closed one
    fails. *)
Inductive server_step : ServerState -> ServerState -> Prop :=
| v_test_go o st ac sd fi :
    server_step (mkServer ATest true o st ac sd fi) (mkServer AAccept true o st ac sd fi)
| v_test_end o st ac sd fi :
    server_step (mkServer ATest false o st ac sd fi) (mkServer ADone false o st ac sd fi)
| v_accept c r st ac sd fi :
    c ∉ ac ->
    server_step (mkServer AAccept r true st ac sd fi) (mkServer (ASpawn c) r true st (ac ++ [c]) sd fi)
| v_accept_fails r o st ac sd fi :
    server_step (mkServer AAccept r o st ac sd fi) (mkServer ADone r o st ac sd fi)
| v_spawn c r o st ac sd fi :
    server_step (mkServer (ASpawn c) r o st ac sd fi) (mkServer ATest r o st ac (sd ++ [c]) fi)
(* a connection's loop ends *)
| v_finish c pc r o st ac sd fi :
    c ∈ sd -> c ∉ fi ->
    server_step (mkServer pc r o st ac sd fi) (mkServer pc r o st ac sd ({[c]} ∪ fi))
(* the returned function *)
| v_flag pc r o ac sd fi :
    server_step (mkServer pc r o NotCalled ac sd fi) (mkServer pc false o Flagged ac sd fi)
| v_close pc r o ac sd fi :
    server_step (mkServer pc r o Flagged ac sd fi) (mkServer pc r false Joining ac sd fi)
| v_join r o ac sd fi :
    server_step (mkServer ADone r o Joining ac sd fi) (mkServer ADone r o Stopped ac sd fi).

Definition server_reachable : ServerState -> Prop := rtc server_step server_start.

(** The connection accepted that has no thread yet. *)
Definition in_hand (pc : accept_pc) : list nat := match pc with ASpawn c => [c] | _ => [] end.

Record server_inv (s : ServerState) : Prop := {
  sv_handed : accepted s = started s ++ in_hand (accepting s);
  sv_distinct : NoDup (accepted s);
  sv_finished : forall c, c ∈ finished s -> c ∈ started s;
  sv_flag : stop_fn s <> NotCalled -> server_running s = false;
  sv_closed : stop_fn s = Joining \/ stop_fn s = Stopped -> listener_open s = false;
  sv_joined : stop_fn s = Stopped -> accepting s = ADone;
}.

Lemma server_step_inv s s' : server_inv s -> server_step s s' -> server_inv s'.
Proof.
  intros [H1 H2 H3 H4 H5 H6] Hst. destruct Hst;
    cbn [accepting server_running listener_open stop_fn accepted started finished in_hand] in *;
    (split; cbn [accepting server_running listener_open stop_fn accepted started finished in_hand]);
    rewrite ?app_nil_r in *; subst; try done; try (intuition congruence).
  - apply NoDup_app. split; [done|]. split; [|apply NoDup_singleton]. set_solver.
  - set_solver.
  - set_solver.
Qed.

Lemma server_reachable_inv s : server_reachable s -> server_inv s.
Proof.
  intros Hr. eapply (rtc_invariant server_step server_inv); [exact server_step_inv|exact Hr|].
  split; cbn; try done; try apply NoDup_nil_2; naive_solver.
Qed.

(** Steps the accepting thread has left once [running] is false and the listener
    closed. *)
Definition accept_left (pc : accept_pc) : nat :=
  match pc with ADone => 0 | ATest | AAccept => 1 | ASpawn _ => 2 end.

(** every connection accepted is served, by exactly one thread; and stopping
    ends the accepting but not the serving. In every reachable state the
    connections accepted are those with a thread and at most one in hand, without
    repetition. Once the returned function has returned, the accepting thread has
    ended, no step accepts or starts anything, and the threads still running are
    those of connections that have not ended by themselves: nothing closes
    them. *)
Theorem server_accounts s :
  server_reachable s ->
  NoDup (accepted s) /\ accepted s = started s ++ in_hand (accepting s) /\
  (stop_fn s = Stopped ->
     accepting s = ADone /\ accepted s = started s /\
     (forall s', server_step s s' -> accepted s' = accepted s /\ started s' = started s /\ stop_fn s' = Stopped /\
        exists c, c ∈ started s /\ c ∉ finished s /\ finished s' = {[c]} ∪ finished s)).
Proof.
  intros Hr. destruct (server_reachable_inv s Hr) as [H1 H2 H3 H4 H5 H6]. split; [done|]. split; [done|].
  intros Hs. specialize (H6 Hs). rewrite H6 in H1. cbn [in_hand] in H1. rewrite app_nil_r in H1.
  split; [done|]. split; [done|]. intros s' Hst. destruct Hst; cbn in *; simplify_eq. naive_solver.
Qed.

(** stopping returns. Once the returned function has set [running] and
    closed the listener, the accepting thread is never blocked, it has at most
    two steps left, and each brings it nearer its end; then the join
    succeeds. *)
Theorem server_stop_returns s :
  server_reachable s -> stop_fn s = Joining ->
  (accept_left (accepting s) <= 2)%nat /\
  (forall s', server_step s s' -> accepting s' = accepting s \/ (accept_left (accepting s') < accept_left (accepting s))%nat) /\
  exists s', rtc server_step s s' /\ stop_fn s' = Stopped /\
    forall c, c ∈ accepted s -> c ∈ started s'.
Proof.
  intros Hr Hs. destruct (server_reachable_inv s Hr) as [H1 H2 H3 H4 H5 H6].
  assert (Hf : server_running s = false) by (apply H4; congruence).
  assert (Ho : listener_open s = false) by (apply H5; by left).
  split; [by destruct (accepting s); cbn; lia|]. split.
  - intros s' Hst. destruct Hst; cbn in *; simplify_eq; try (by left); right; lia.
  - destruct s as [pc r o st ac sd fi]. cbn in *. subst r o st ac. destruct pc as [| |c|]; cbn.
    + eexists. split; [eapply rtc_l; [apply v_test_end|]; apply rtc_once, v_join|]. cbn. by rewrite app_nil_r.
    + eexists. split; [eapply rtc_l; [apply v_accept_fails|]; apply rtc_once, v_join|]. cbn. by rewrite app_nil_r.
    + eexists. split; [eapply rtc_l; [apply v_spawn|]; eapply rtc_l; [apply v_test_end|]; apply rtc_once, v_join|]. done.
    + eexists. split; [apply rtc_once, v_join|]. cbn. by rewrite app_nil_r.
Qed.

(** the future of a dial or listen on a thread holds what the call itself
    gives: the connection, or an exception with the code and text of the status;
    a server whose address cannot be listened on throws that exception and starts
    no thread. *)
Theorem async_outcomes {W L} (T : Transports W L) address opt lopt w :
  (forall r w', dial T address opt w = Some (r, w') ->
     exists o, async_dial T address opt w = Some (o, w') /\
       match r with
       | RValue d => o = Returns (Some d)
       | RStatus e => if status_ok e then o = Returns None else o = Throws (Exception_of_status e)
       end) /\
  (forall r w', listen T address lopt w = Some (r, w') ->
     exists o, async_listen T address lopt w = Some (o, w') /\
       match r with
       | RValue l => o = Returns (Some l)
       | RStatus e => if status_ok e then o = Returns None else o = Throws (Exception_of_status e)
       end) /\
  (forall e w', listen T address ListenOptions_default w = Some (RStatus e, w') -> status_ok e = false ->
     run_echo_server T address w = Some (Throws (Exception_of_status e), w')).
Proof.
  unfold async_dial, async_listen, run_echo_server. split_and!.
  - intros r w' ->. eexists. split; [reflexivity|]. destruct r as [d|e]; [done|].
    unfold value_or_throw, throw_if_error. cbn [in_pointer status]. by destruct (status_ok e).
  - intros r w' ->. eexists. split; [reflexivity|]. destruct r as [d|e]; [done|].
    unfold value_or_throw, throw_if_error. cbn [in_pointer status]. by destruct (status_ok e).
  - intros e w' -> He. cbn [mbind option_bind in_pointer]. unfold value_or_throw, throw_if_error. cbn [status]. by rewrite He.
Qed.

(** A server with one connection served and one in hand, the returned function
    in its join; and the same server stopped. *)
Definition being_joined : ServerState := mkServer (ASpawn 2) false false Joining [1%nat; 2%nat] [1%nat] ∅.
Definition joined : ServerState := mkServer ADone false false Stopped [1%nat; 2%nat] [1%nat; 2%nat] ∅.

Lemma being_joined_reachable : server_reachable being_joined.
Proof.
  eapply rtc_l; [apply v_test_go|]. eapply rtc_l; [apply (v_accept 1); set_solver|]. eapply rtc_l; [apply v_spawn|].
  eapply rtc_l; [apply v_test_go|]. eapply rtc_l; [apply (v_accept 2); set_solver|].
  eapply rtc_l; [apply v_flag|]. eapply rtc_l; [apply v_close|]. apply rtc_refl.
Qed.

Lemma joined_reachable : server_reachable joined.
Proof.
  eapply rtc_trans; [exact being_joined_reachable|]. eapply rtc_l; [apply v_spawn|].
  eapply rtc_l; [apply v_test_end|]. apply rtc_once, v_join.
Qed.

Lemma server_accounts_witness : accepted joined = started joined /\ exists s', server_step joined s'.
Proof.
  destruct (server_accounts joined joined_reachable) as (_ & _ & H). destruct (H eq_refl) as (_ & He & _).
  split; [exact He|]. eexists. apply (v_finish 1); set_solver.
Defined.

Lemma server_stop_returns_witness : exists s', rtc server_step being_joined s' /\ stop_fn s' = Stopped.
Proof.
  destruct (server_stop_returns being_joined being_joined_reachable eq_refl) as (_ & _ & s' & H1 & H2 & _).
  exists s'. split; [exact H1|exact H2].
Defined.

(** ** A client of the server over shared memory *)

(** The two ends of a connection on one kernel: a client, and the thread of the
    connection in the server, which runs when the client waits for an answer. *)
Record linked := mkLinked { client_end : shm_side; server_pipe : ShmPipe; server_evs : list wait_event }.

#[export] Instance linked_ops : PipeOps linked := {|
  pipe_send p m opt :=
    '(c, st) ← pipe_send (client_end p) m opt; Some (mkLinked c (server_pipe p) (server_evs p), st);
  pipe_recv p opt :=
    let c := client_end p in
    '(s, _) ← echo_turn (mkSide (server_pipe p) (side_kernel c) (server_evs p));
    '(c, r) ← pipe_recv (mkSide (side_pipe c) (side_kernel s) (side_evs c)) opt;
    Some (mkLinked c (side_pipe s) (side_evs s), r);
  pipe_close p := mkLinked (pipe_close (client_end p)) (server_pipe p) (server_evs p);
|}.

(** One [request] after another. *)
Fixpoint requests {P} `{PipeOps P} (p : P) (ms : list payload) (timeout : Z) : option (P * list (Result payload)) :=
  match ms with
  | [] => Some (p, [])
  | m :: ms' => '(p, r) ← request p m timeout; '(p, rs) ← requests p ms' timeout; Some (p, r :: rs)
  end.

(** Both rings of the connection are empty. *)
Definition idle (p q : ShmPipe) (o : Z) (k : kernel) : Prop :=
  handles_wf (h_ p) o /\ handles_wf (h_ q) o /\ is_client_ p = true /\ is_client_ q = false /\
  (forall d k, dir_channel d (h_ q) o k = dir_channel d (h_ p) o k) /\
  forall d, quiescent (dir_channel d (h_ p) o k) [].

Lemma request_idle p q o k m timeout evs evs' :
  idle p q o k -> small m ->
  exists k', request (mkLinked (mkSide p k (Taken :: Taken :: evs)) q (Taken :: Taken :: evs')) m timeout =
      Some (mkLinked (mkSide p k' evs) q evs', RValue m) /\ idle p q o k'.
Proof.
  intros (Hp & Hq & Hcp & Hcq & Hpq & Hid) Hm. unfold request. cbn [pipe_send pipe_recv linked_ops ShmPipe_ops client_end side_pipe side_kernel side_evs].
  destruct (shm_send_quiescent p o m (mkSendOptions timeout) (Taken :: evs) k []) as (k1 & -> & H1 & H1'); [done..|].
  rewrite Hcp in H1, H1'. cbn [negb app mbind option_bind server_pipe server_evs] in *.
  change (status_ok Ok) with true. cbn [negb]. cbv iota.
  unfold echo_turn. cbn [pipe_send pipe_recv linked_ops ShmPipe_ops client_end side_pipe side_kernel side_evs server_pipe server_evs].
  destruct (shm_recv_quiescent q o m (mkRecvOptions 0) (Taken :: evs') k1 []) as (k2 & -> & H2 & H2');
    [done|rewrite Hcq; cbn; by rewrite Hpq|].
  rewrite Hcq in H2, H2'. cbn [negb mbind option_bind side_pipe side_kernel side_evs] in *.
  rewrite Hpq in H2. rewrite !Hpq, H1' in H2'.
  destruct (shm_send_quiescent q o m (mkSendOptions 0) evs' k2 []) as (k3 & -> & H3 & H3');
    [done..|rewrite Hcq, Hpq, H2'; apply Hid|].
  rewrite Hcq in H3, H3'. cbn [negb app mbind option_bind side_pipe side_kernel side_evs] in *.
  rewrite Hpq in H3. rewrite !Hpq in H3'.
  destruct (shm_recv_quiescent p o m (mkRecvOptions timeout) evs k3 []) as (k4 & -> & H4 & H4');
    [done|by rewrite Hcp|].
  rewrite Hcp in H4, H4'. cbn [negb mbind option_bind] in *.
  exists k4. split; [done|]. unfold idle. split_and!; try done.
  intros [|]; [|exact H4]. rewrite H4', H3'. exact H2.
Qed.

Lemma requests_idle p q o k ms timeout :
  idle p q o k -> Forall small ms ->
  exists p', requests (mkLinked (mkSide p k (replicate (2 * length ms) Taken)) q (replicate (2 * length ms) Taken)) ms timeout =
    Some (p', map RValue ms).
Proof.
  intros Hi Hs. revert k Hi. induction Hs as [|m ms Hm Hs IH]; intros k Hi; [by eexists|].
  replace (2 * length (m :: ms))%nat with (S (S (2 * length ms))) by (cbn; lia). cbn [replicate requests map].
  destruct (request_idle p q o k m timeout (replicate (2 * length ms) Taken) (replicate (2 * length ms) Taken) Hi Hm)
    as (k' & -> & Hi'). cbn [mbind option_bind].
  destruct (IH k' Hi') as (p' & ->). by exists p'.
Qed.


