(* ===== verification/QosShm.v ===== *)
(** * A queueing pipe over shared memory

    [dial] wraps a shared-memory pipe in a [QosPipe]. The shared-memory pipe
    discharges the [Carrier] interface for every outcome of its calls, so what
    [Qos] proves about any carrier holds of the two together: what the far end
    can receive is, in every interleaving, what the worker has sent. *)

From S2P Require Import Prelude Status Options Pipe ShmNames ShmRing Shm Wire Qos.

(** ** Every outcome of a wait, a send and a receive *)

Lemma sem_wait_cases t evs n st n' evs' :
  sem_wait_opt t evs n = Some (st, n', evs') ->
  if status_ok st then st = Ok /\ 0 < n /\ n' = n - 1 else n' = n.
Proof.
  assert (H : forall b, sem_wait_loop b evs n = Some (st, n', evs') ->
            if status_ok st then st = Ok /\ 0 < n /\ n' = n - 1 else n' = n).
  { intros b. induction evs as [|[|e] evs IH]; cbn [sem_wait_loop]; [done| |].
    - destruct (gtb_spec n 0); [|done]. intros [= <- <- <-]. split_and!; [done|lia|done].
    - destruct (e =? EINTR); [exact IH|]. destruct (b && _); by intros [= <- <- <-]. }
  unfold sem_wait_opt. destruct (t =? 0); apply H.
Qed.

Lemma k_set_count_id v k h o d :
  dir_channel d h o (k_set_count v (k_counts k !!! v) k) = dir_channel d h o k.
Proof.
  assert (H : forall w, k_counts (k_set_count v (k_counts k !!! v) k) !!! w = k_counts k !!! w).
  { intros w. cbn [k_set_count k_counts]. destruct (decide (v = w)) as [->|Hv]; [by rewrite lookup_total_insert_eq|].
    by rewrite lookup_total_insert_ne. }
  unfold dir_channel. by rewrite !H.
Qed.

Lemma shm_send_total p o m opt evs k q st k' evs' :
  handles_wf (h_ p) o -> quiescent (dir_channel (is_client_ p) (h_ p) o k) q ->
  shm_send p m opt evs k = Some (st, k', evs') ->
  (status_ok st = true -> small m) /\
  quiescent (dir_channel (is_client_ p) (h_ p) o k') (if status_ok st then q ++ [m] else q) /\
  dir_channel (negb (is_client_ p)) (h_ p) o k' = dir_channel (negb (is_client_ p)) (h_ p) o k.
Proof.
  intros Hh Hq Hs. pose proof (quiescent_counts _ _ Hq) as (_ & Hsp & _).
  unfold shm_send in Hs. rewrite (proj1 Hh) in Hs.
  destruct (gtb_spec (len m) kSlotPayloadMax) as [Hbig|Hsm]; [by injection Hs as <- <- _|].
  destruct (sem_wait_opt _ _ _) as [[[st0 n] evs0]|] eqn:Ew; cbn [mbind option_bind] in Hs; [|done].
  pose proof (sem_wait_cases _ _ _ _ _ _ Ew) as Hw. destruct (status_ok st0) eqn:Est; cbn [negb] in Hs.
  - destruct Hw as (-> & Hpos & ->). cbn [dir_channel spaces] in Hsp. rewrite Hsp in Hpos.
    destruct (shm_send_quiescent p o m (mkSendOptions 0) evs0 k q Hh) as (k1 & Hk1 & H1 & H2); [unfold small; lia|lia|done|].
    unfold shm_send in Hk1. rewrite (proj1 Hh), sem_wait_taken in Hk1.
    destruct (gtb_spec (len m) kSlotPayloadMax); [lia|].
    destruct (gtb_spec (k_counts k !!! dir_spaces (is_client_ p) (h_ p)) 0); [|lia].
    cbn [mbind option_bind] in Hk1. change (status_ok Ok) with true in Hk1. cbn [negb] in Hk1.
    rewrite Hs in Hk1. injection Hk1 as -> -> ->. split; [intros _; unfold small; lia|by split].
  - injection Hs as <- <- _. rewrite Est. subst n. rewrite !k_set_count_id. by split.
Qed.

Lemma shm_recv_frame p o opt evs k r k' evs' :
  handles_wf (h_ p) o -> shm_recv p opt evs k = Some (r, k', evs') ->
  dir_channel (is_client_ p) (h_ p) o k' = dir_channel (is_client_ p) (h_ p) o k.
Proof.
  intros Hh Hr. unfold shm_recv in Hr. rewrite (proj1 Hh) in Hr. set (d := negb (is_client_ p)) in *.
  assert (Hd : is_client_ p <> d) by (unfold d; by destruct (is_client_ p)).
  destruct (sem_wait_opt _ _ _) as [[[st0 n] evs0]|] eqn:Ew; cbn [mbind option_bind] in Hr; [|done].
  set (k1 := k_set_count (dir_items d (h_ p)) n k) in *.
  assert (Hk1 : dir_channel (is_client_ p) (h_ p) o k1 = dir_channel (is_client_ p) (h_ p) o k)
    by (apply (dir_channel_count d); [done|by left|done]).
  destruct (negb (status_ok st0)); [by injection Hr as _ <- _|].
  destruct (recv_body (dir_channel d (h_ p) o k1)) as [c r'] eqn:Ec. injection Hr as _ <- _.
  destruct (dir_channel_store d (h_ p) o k1 c (dir_spaces d (h_ p)) (spaces c) Hh) as [_ H2].
  { right. split_and!; [done..|]. unfold recv_body in Ec. destruct (_ >? _); by injection Ec as <- _. }
  by rewrite H2.
Qed.

(** ** The interface *)

(** A connection: which end this is, its handles and the mapped object. *)
Record shm_connection := mkConn { conn_client : bool; conn_handles : ShmHandles; conn_object : Z }.

#[export, refine] Instance shm_carrier : Carrier shm_side := {|
  connection := shm_connection;
  carries c p q :=
    is_client_ (side_pipe p) = conn_client c /\ h_ (side_pipe p) = conn_handles c /\
    handles_wf (conn_handles c) (conn_object c) /\
    quiescent (dir_channel (conn_client c) (conn_handles c) (conn_object c) (side_kernel p)) q;
|}.
Proof.
  - intros [d h o] [p k evs] q m opt p' st (Hd & Hp & Hh & Hq) Hs. cbn in Hd, Hp, Hh, Hq. subst d h.
    cbn [pipe_send ShmPipe_ops side_pipe side_kernel side_evs] in Hs.
    destruct (shm_send p m opt evs k) as [[[st' k'] evs']|] eqn:E; [|done]. injection Hs as <- <-.
    pose proof (shm_send_total p o m opt evs k q st' k' evs' Hh Hq E) as (_ & Hq' & _).
    destruct (status_ok st'); [|left]; cbn; by split_and!.
  - intros [d h o] [p k evs] q opt p' r (Hd & Hp & Hh & Hq) Hs. cbn in Hd, Hp, Hh, Hq. subst d h.
    cbn [pipe_recv ShmPipe_ops side_pipe side_kernel side_evs] in Hs.
    destruct (shm_recv p opt evs k) as [[[r' k'] evs']|] eqn:E; [|done]. injection Hs as <- <-.
    cbn. split_and!; [done..|]. by rewrite (shm_recv_frame p o opt evs k r' k' evs').
Defined.

Lemma shm_refuses m : kSlotPayloadMax < len m -> refuses (P := shm_side) m.
Proof.
  intros Hm [p k evs] opt p' st Hs. cbn [pipe_send ShmPipe_ops side_pipe side_kernel side_evs] in Hs.
  unfold shm_send in Hs. destruct (mem (h_ p)) as [o|]; [|by injection Hs as _ <-].
  destruct (gtb_spec (len m) kSlotPayloadMax); [|lia]. by injection Hs as _ <-.
Qed.

(** ** Theorems *)


(** C40: one large message stops a queue for good. [QosPipe] accepts any message up
    to the high water mark, 4 MiB by default; the shared-memory transport refuses
    those above 64 KiB, and the worker keeps a refused message at the front and
    tries again. Once such a message is first in a queue without time to live or
    kDropOld, no step of any thread sends anything; and the first such [send] on
    an idle pipe returns Ok and gets there. *)
Theorem large_message_blocks_queue u q m :
  lossless q -> kSlotPayloadMax < len m -> len m <= snd_hwm_bytes q ->
  (forall (s s' : qos_state shm_side), reachable u q s -> (exists rest, queued (obj s) = m :: rest) ->
     rtc qos_step s s' -> sent s' = sent s /\ exists rest, queued (obj s') = m :: rest) /\
  exists s, reachable u q s /\ accepted s = [m] /\ running (obj s) = true /\
    forall s', rtc qos_step s s' -> sent s' = [].
Proof.
  intros Hq Hm Hl.
  assert (Hgen : forall (s s' : qos_state shm_side), reachable u q s -> (exists rest, queued (obj s) = m :: rest) ->
     rtc qos_step s s' -> sent s' = sent s /\ exists rest, queued (obj s') = m :: rest).
  { intros s s' Hr Hm1 Hst. destruct (reachable_qos _ _ _ Hr) as [Hi Hqos].
    destruct (blocked_forever m s s' (shm_refuses m Hm)) as [(_ & _ & Hm2) Hsent]; [|done|done].
    split; [done|]. by rewrite Hqos. }
  split; [exact Hgen|].
  destruct (first_message u q m) as (s & Hr & Ha & Hmq & Hrun & Hs); [unfold kSlotPayloadMax in Hm; lia|done|].
  exists s. split_and!; [done..|]. intros s' Hst.
  destruct (Hgen s s' Hr) as [-> _]; [rewrite Hmq; by eexists|done..].
Qed.

(** ** Witnesses *)


Lemma large_message_blocks_queue_witness :
  exists s : qos_state shm_side, reachable (mkSide dialled_pipe dialled_kernel []) QosOptions_default s /\
    running (obj s) = true /\ forall s', rtc qos_step s s' -> sent s' = [].
Proof.
  destruct (large_message_blocks_queue (mkSide dialled_pipe dialled_kernel []) QosOptions_default
    (replicate 65537 Init.Byte.x00)) as [_ (s & H1 & _ & H2 & H3)].
  - split; [discriminate|discriminate].
  - rewrite length_replicate. vm_compute. reflexivity.
  - rewrite length_replicate. vm_compute. discriminate.
  - exists s. split; [exact H1|]. split; [exact H2|exact H3].
Defined.
