(* ===== verification/QosStream.v ===== *)
(** * Queueing pipes over streams

    The TCP and Unix-socket pipes are framed streams: each call of [send] writes
    one frame, or part of one and fails. Both discharge [LastingCarrier], so a
    [QosPipe] around either delivers exactly what its worker sent, in every
    interleaving and also after the pipe has failed or been closed. *)

From S2P Require Import Prelude Status Options Pipe SocketUtils Wire Tcp Uds Qos.

(** ** Framed streams *)

(** A pipe whose calls are those of wire.cc on a socket, or do not touch it. *)
Class StreamPipe {H : HostOrder} (P : Type) `{PipeOps P} := {
  stream : P -> sock;
  stream_send p m opt p' st :
    pipe_send p m opt = Some (p', st) ->
    (stream p' = stream p /\ status_ok st = false) \/ write_frame (stream p) m 0 = Done st (stream p');
  stream_recv p opt p' r :
    pipe_recv p opt = Some (p', r) -> stream p' = stream p \/ read_frame (stream p) = Done r (stream p');
  stream_close p : stream (pipe_close p) = stream p;
}.

Lemma read_frame_out {H : HostOrder} s r s' : read_frame s = Done r s' -> so_out s' = so_out s.
Proof.
  unfold read_frame. pose proof (read_exact_spec s (Z.to_nat kHeaderLen)) as Hh.
  destruct (read_exact s _) as [[st hdr] s1|s1]; [|done]. destruct Hh as (Ho & _).
  destruct (negb _); [by intros [= _ <-]|]. destruct (decode_header hdr) as [h|e]; [|by intros [= _ <-]].
  repeat case_match; try done; try (by intros [= _ <-]);
    match goal with E : read_exact ?a ?n = _ |- _ => pose proof (read_exact_spec a n) as Hp; rewrite E in Hp; destruct Hp as (Ho' & _) end;
    intros [= _ <-]; congruence.
Qed.

(** A frame written: all of it, none of it, or a part and the connection lost. *)
Lemma write_frame_cases {H : HostOrder} s m st s' :
  write_frame s m 0 = Done st s' ->
  so_out s `prefix_of` so_out s' /\
  if status_ok st then fits m /\ so_out s' = so_out s ++ frames [m]
  else so_out s' = so_out s \/ connection_lost st.
Proof.
  intros Hw. pose proof (write_frame_prefix H s m 0) as Hp. rewrite Hw in Hp.
  destruct Hp as (_ & sent & rest & Hf & Ho & Hst & Hok & Hbig). split; [rewrite Ho; by eexists|].
  unfold write_frame in Hw. destruct (gtb_spec (len m) kMaxFramePayload) as [Hgt|Hle].
  - destruct (Hbig Hgt) as [-> Hc]. rewrite app_nil_r in Ho. destruct (status_ok st) eqn:E; [|by left].
    apply status_ok_spec in E. congruence.
  - destruct (status_ok st) eqn:E.
    + split; [unfold fits; lia|]. destruct Hok as [->|?]; [|congruence]. rewrite (proj1 Hst eq_refl), app_nil_r in Hf.
      unfold frames. cbn. by rewrite app_nil_r, Ho, <- Hf.
    + right. destruct (write_all s _) as [st1 s1|] eqn:E1; [|done]. unfold write_all in *. destruct (status_ok st1).
      * apply write_all_loop_code in Hw as [->|Hc]; [discriminate E|exact Hc].
      * injection Hw as -> _. apply write_all_loop_code in E1 as [->|Hc]; [discriminate E|exact Hc].
Qed.

Section carrier.
Context {H : HostOrder} {P : Type} `{StreamPipe P}.

(** A connection is known by what had been written before. *)
#[export, refine] Instance stream_carrier : Carrier P := {|
  connection := list byte;
  carries base p q := so_out (stream p) = base ++ frames q /\ Forall fits q;
|}.
Proof.
  - intros base p q m opt p' st [Ho Hf] Hs. apply stream_send in Hs as [[-> ->]|Hw]; [by left|].
    apply write_frame_cases in Hw as [_ Hw]. destruct (status_ok st).
    + destruct Hw as [Hm ->]. rewrite Ho, frames_app, app_assoc. split; [done|]. by apply Forall_app; split; [|constructor].
    + destruct Hw as [->|?]; [by left|by right].
  - intros base p q opt p' r [Ho Hf] Hr. apply stream_recv in Hr as [->|Hr]; [done|].
    apply read_frame_out in Hr as ->. done.
Defined.

#[export, refine] Instance stream_lasting : LastingCarrier P := {|
  leaves base p q := (base ++ frames q) `prefix_of` so_out (stream p) /\ Forall fits q;
|}.
Proof.
  - intros base p q [-> Hf]. done.
  - intros base p q m opt p' st [Ho Hf] Hs. split; [|done]. etrans; [exact Ho|].
    apply stream_send in Hs as [[-> _]|Hw]; [done|]. by apply write_frame_cases in Hw as [? _].
  - intros base p q opt p' r [Ho Hf] Hr. split; [|done]. etrans; [exact Ho|].
    apply stream_recv in Hr as [->|Hr]; [done|]. by apply read_frame_out in Hr as ->.
  - intros base p q Ho. by rewrite stream_close.
Defined.

End carrier.

(** ** The two transports *)

#[export, refine] Instance TcpPipe_stream {H : HostOrder} : StreamPipe TcpPipe := {| stream := tp_sock |}.
Proof.
  - intros p m opt p' st. cbn. unfold tcp_send. destruct (tp_fd p =? kInvalidSocket); [intros [= <- <-]; by left|].
    destruct (write_frame _ _ _) as [st' s|]; [|done]. intros [= <- <-]. by right.
  - intros p opt p' r. cbn. unfold tcp_recv. destruct (tp_fd p =? kInvalidSocket); [intros [= <- <-]; by left|].
    destruct (read_frame _) as [r' s|]; [|done]. intros [= <- <-]. by right.
  - intros p. cbn. unfold tcp_close. by destruct (negb _).
Defined.

#[export, refine] Instance UdsPipe_stream {H : HostOrder} : StreamPipe UdsPipe := {| stream := up_sock |}.
Proof.
  - intros p m opt p' st. cbn. unfold uds_send. destruct (up_fd p <? 0); [intros [= <- <-]; by left|].
    destruct (send_timeout opt >? 0); [destruct (up_polls p) as [|a polls]; [done|]; cbn [up_sock]; destruct (negb _) eqn:E|].
    1: { intros [= <- <-]. left. split; [done|]. by apply negb_true_iff. }
    all: unfold up_done; cbn; destruct (write_frame _ _ _) as [st' s|]; [|done]; intros [= <- <-]; by right.
  - intros p opt p' r. cbn. unfold uds_recv. destruct (up_fd p <? 0); [intros [= <- <-]; by left|].
    destruct (recv_timeout opt >? 0); [destruct (up_polls p) as [|a polls]; [done|]; cbn [up_sock]; destruct (negb _) eqn:E|].
    1: { intros [= <- <-]. by left. }
    all: unfold up_done; cbn; destruct (read_frame _) as [r' s|]; [|done]; intros [= <- <-]; by right.
  - intros p. cbn. unfold uds_close. by repeat case_match.
Defined.

(** ** Delivery *)

(** C6: a queueing pipe over TCP or a Unix socket delivers what its worker sent.
    In every interleaving of senders, receivers, the worker and [close], whatever
    the kernel does with the writes (cutting, interrupting, failing part of the
    way, closing), a peer of either byte order that reads the bytes written gets
    the messages the worker counted as sent, unchanged and in order, and while
    the pipe runs nothing else has been written; the messages sent before a
    failure are not lost by it. Without time to live and kDropOld the messages
    sent and those queued are those accepted. *)
Theorem qos_over_stream (H1 H2 : HostOrder) {P} `{PipeOps P} `{!StreamPipe (H := H1) P} (u : P) q s evs out :
  so_out (stream (H := H1) u) = [] -> reachable u q s -> live evs -> (frames_size (sent s) <= transfers evs)%nat ->
  let wire := so_out (stream (H := H1) (underlying (obj s))) in
  exists evs' rest,
    read_frames (H := H2) (mkSock evs wire out) (length (sent s)) = Done (map RValue (sent s)) (mkSock evs' rest out) /\
    (running (obj s) = true -> rest = []) /\
    (lossless q -> sent s ++ queued (obj s) = accepted s).
Proof.
  intros Hu Hr Hl Ht wire.
  assert (Hc : carries (P := P) [] u []) by done.
  pose proof (qos_leaves (P := P) [] u [] q s Hc Hr) as [Hleft Hf]. cbn [app] in Hleft, Hf.
  destruct Hleft as [rest Hrest]. fold wire in Hrest.
  destruct (read_frames_live (H := H2) (sent s) evs out rest Hf Hl Ht) as (evs' & Hread).
  exists evs', rest. split; [by rewrite Hrest|]. split; [|intros; by eapply lossless_reachable].
  intros Hrun. pose proof (qos_carries (P := P) [] u [] q s Hc Hr Hrun) as [Hout _]. cbn [app] in Hout. fold wire in Hout.
  rewrite Hrest in Hout. rewrite <- (app_nil_r (frames (sent s))) in Hout at 2. by apply app_inv_head in Hout.
Qed.

(** A connection over which bytes go one at a time, and a pipe around it that has
    sent one message. *)
Definition slow_pipe (n : nat) (out : list byte) : TcpPipe := mkTcpPipe 3 (mkSock (replicate n (EvXfer 1)) [] out) {[3]}.
Definition one_sent : qos_state TcpPipe :=
  mkQS (mkQos (slow_pipe 0 (frame_bytes hello 0)) QosOptions_default [] true 0 0) WLoop [] [hello] [hello].

Lemma one_sent_reachable : reachable (P := TcpPipe) (H := TcpPipe_ops (H := little_host)) (slow_pipe 21 []) QosOptions_default one_sent.
Proof.
  eapply rtc_l; [apply (q_enter _ _ _ _ _ hello); reflexivity|].
  eapply rtc_l; [apply (q_queue _ WLoop [] [] [] [] hello false 0); [discriminate|reflexivity]|].
  eapply rtc_l; [apply (q_pass _ _ _ _ 0 0); reflexivity|].
  apply rtc_once.
  refine (q_sent _ hello [] [hello] [] _ Ok _). vm_compute. reflexivity.
Qed.

Lemma qos_over_stream_witness :
  exists evs' rest,
    read_frames (H := big_host) (mkSock interrupted_chunks (frame_bytes hello 0) []) 1 = Done [RValue hello] (mkSock evs' rest []) /\
    rest = [].
Proof.
  destruct (qos_over_stream little_host big_host (H := TcpPipe_ops (H := little_host))
      (StreamPipe0 := TcpPipe_stream (H := little_host)) (slow_pipe 21 []) QosOptions_default one_sent interrupted_chunks [])
    as (evs' & rest & Hread & Hrest & _).
  - reflexivity.
  - exact one_sent_reachable.
  - repeat constructor.
  - vm_compute. lia.
  - exists evs', rest. split; [exact Hread|exact (Hrest eq_refl)].
Defined.
