(* ===== verification/QosWake.v ===== *)
(** * Sleeping and waking in the QoS pipe (src/qos_pipe.cc)

    [Qos] lets a blocked sender or the worker run again at any time. Here the
    condition variable [send_cv_] is part of the state: who sleeps on it, and
    the calls of [notify_one] and [notify_all] that have not been made yet. Every
    run of this finer model is a run of [Qos] ([wake_refines]), so the theorems
    there hold here; and who wakes whom can be stated. *)

From S2P Require Import Prelude Status Options Pipe Qos.

Section wake.
Context {P : Type} `{PipeOps P}.

(** The worker: about to take the mutex, asleep, inside the wrapped pipe's
    [send], gone. *)
Inductive wake_pc := KLoop | KAsleep | KSending (m : payload) | KExited.

(** A call of [send] past its first checks: its message, and whether the deadline
    of its wait has passed. *)
Abbreviation caller := (payload * bool)%type.

(** The object; the worker; the senders about to take the mutex; those asleep;
    the senders that have queued a message and not called [notify_one] yet; the
    calls of [close] that have not called [notify_all] yet; what was accepted and
    sent. *)
Record wake_state := mkWake {
  w_obj : QosPipe P;
  w_worker : wake_pc;
  ready : list caller;
  parked : list caller;
  unnotified : nat;
  closing : nat;
  w_accepted : list payload;
  w_sent : list payload;
}.

Definition wake_start (u : P) (q : QosOptions) : wake_state := mkWake (QosPipe_make u q) KLoop [] [] 0 0 [] [].

(** What brings a step about: a caller or the environment, or the object. *)
Inductive cause := Entering | TimingOut | Spurious | Closing | Running.

(** src/src/qos_pipe.cc:38-169 [QosPipe, the waits and notifications]

    The critical sections are those of [Qos]. [notify_one] wakes any one of the
    sleepers, or nobody if there is none. *)
Inductive wake_step : cause -> wake_state -> wake_state -> Prop :=
| k_enter s w rd pk n c acc snt msg :
    send_check msg s = None ->
    wake_step Entering (mkWake s w rd pk n c acc snt) (mkWake s w ((msg, false) :: rd) pk n c acc snt)
| k_timeout s w rd pk1 pk2 n c acc snt msg b :
    wake_step TimingOut (mkWake s w rd (pk1 ++ (msg, b) :: pk2) n c acc snt)
      (mkWake s w ((msg, true) :: rd) (pk1 ++ pk2) n c acc snt)
| k_spurious s w rd pk1 pk2 n c acc snt x :
    wake_step Spurious (mkWake s w rd (pk1 ++ x :: pk2) n c acc snt) (mkWake s w (x :: rd) (pk1 ++ pk2) n c acc snt)
| k_worker_spurious s rd pk n c acc snt :
    wake_step Spurious (mkWake s KAsleep rd pk n c acc snt) (mkWake s KLoop rd pk n c acc snt)
(* a sender runs with the mutex *)
| k_return s w rd1 rd2 pk n c acc snt msg b now st s' :
    (forall m, w <> KSending m) -> send_locked b now msg s = SReturn st s' ->
    wake_step Running (mkWake s w (rd1 ++ (msg, b) :: rd2) pk n c acc snt) (mkWake s' w (rd1 ++ rd2) pk n c acc snt)
| k_queue s w rd1 rd2 pk n c acc snt msg b now s' :
    (forall m, w <> KSending m) -> send_locked b now msg s = SQueued s' ->
    wake_step Running (mkWake s w (rd1 ++ (msg, b) :: rd2) pk n c acc snt)
      (mkWake s' w (rd1 ++ rd2) pk (S n) c (acc ++ [msg]) snt)
| k_sleep s w rd1 rd2 pk n c acc snt msg b now :
    (forall m, w <> KSending m) -> send_locked b now msg s = SWait ->
    wake_step Running (mkWake s w (rd1 ++ (msg, b) :: rd2) pk n c acc snt)
      (mkWake s w (rd1 ++ rd2) ((msg, b) :: pk) n c acc snt)
(* notify_one, after the mutex is released *)
| k_notify_sender s w rd pk1 pk2 n c acc snt x :
    wake_step Running (mkWake s w rd (pk1 ++ x :: pk2) (S n) c acc snt) (mkWake s w (x :: rd) (pk1 ++ pk2) n c acc snt)
| k_notify_worker s rd pk n c acc snt :
    wake_step Running (mkWake s KAsleep rd pk (S n) c acc snt) (mkWake s KLoop rd pk n c acc snt)
| k_notify_nobody s w rd n c acc snt :
    w <> KAsleep -> wake_step Running (mkWake s w rd [] (S n) c acc snt) (mkWake s w rd [] n c acc snt)
(* the worker *)
| k_pass s rd pk n c acc snt now now' s' r :
    worker_pass_of now now' s = (s', r) ->
    wake_step Running (mkWake s KLoop rd pk n c acc snt)
      (mkWake s' (match r with WExit => KExited | WSend m => KSending m | WWait => KAsleep | WAgain => KLoop end)
         rd pk n c acc snt)
| k_sent s m rd pk n c acc snt s' st :
    worker_send m s = Some (s', st) ->
    wake_step Running (mkWake s (KSending m) rd pk n c acc snt)
      (mkWake s' (if running s' then KLoop else KExited) rd pk n c acc (snt ++ if status_ok st then [m] else []))
| k_recv s w rd pk n c acc snt opt s' r :
    qos_recv s opt = Some (s', r) ->
    wake_step Running (mkWake s w rd pk n c acc snt) (mkWake s' w rd pk n c acc snt)
(* close *)
| k_close s w rd pk n c acc snt :
    (forall m, w <> KSending m) ->
    wake_step Closing (mkWake s w rd pk n c acc snt) (mkWake (close_locked s) w rd pk n (S c) acc snt)
| k_notify_all s w rd pk n c acc snt :
    wake_step Running (mkWake s w rd pk n (S c) acc snt)
      (mkWake s (match w with KAsleep => KLoop | _ => w end) (pk ++ rd) [] n c acc snt)
| k_close_underlying s w rd pk n c acc snt :
    running s = false ->
    wake_step Running (mkWake s w rd pk n c acc snt) (mkWake (close_underlying s) w rd pk n c acc snt).

Definition any_step (s s' : wake_state) : Prop := exists c, wake_step c s s'.
Definition wake_reachable (u : P) (q : QosOptions) : wake_state -> Prop := rtc any_step (wake_start u q).

(** ** Refinement *)

Definition coarse_pc (w : wake_pc) : worker_pc :=
  match w with KLoop | KAsleep => WLoop | KSending m => WSending m | KExited => WExited end.

(** The same state with the sleepers forgotten. *)
Record coarse (s : wake_state) (t : qos_state P) : Prop := {
  co_obj : obj t = w_obj s;
  co_worker : worker t = coarse_pc (w_worker s);
  co_entered : entered t ≡ₚ (ready s ++ parked s).*1;
  co_accepted : accepted t = w_accepted s;
  co_sent : sent t = w_sent s;
}.

Lemma not_sending_coarse w : (forall m, w <> KSending m) -> forall m, coarse_pc w <> WSending m.
Proof. intros Hw m. destruct w; try done. by destruct (Hw m0). Qed.

(** A caller among the ready ones is among the entered ones. *)
Lemma entered_split (en : list payload) msg b (rd1 rd2 pk : list caller) :
  en ≡ₚ ((rd1 ++ (msg, b) :: rd2) ++ pk).*1 ->
  exists en1 en2, en = en1 ++ msg :: en2 /\ en1 ++ en2 ≡ₚ ((rd1 ++ rd2) ++ pk).*1.
Proof.
  intros Hp. assert (Hin : msg ∈ en).
  { rewrite Hp, !fmap_app, fmap_cons. set_solver. }
  apply list_elem_of_split in Hin as (en1 & en2 & ->). exists en1, en2. split; [done|].
  apply (Permutation_cons_inv (a := msg)). rewrite Permutation_middle, Hp, !fmap_app, fmap_cons. cbn.
  by rewrite <- !app_assoc, Permutation_middle.
Qed.

(** Moving callers between ready and asleep is no step of the coarse model. *)
Lemma coarse_move s t w' rd' pk' n' c' :
  coarse s t -> coarse_pc w' = coarse_pc (w_worker s) -> (rd' ++ pk').*1 ≡ₚ (ready s ++ parked s).*1 ->
  coarse (mkWake (w_obj s) w' rd' pk' n' c' (w_accepted s) (w_sent s)) t.
Proof. intros [H1 H2 H3 H4 H5] Hw Hp. split; cbn; try done; [by rewrite Hw|by rewrite H3, Hp]. Qed.

#[local] Ltac fine_move Hco :=
  eexists; split; [apply rtc_refl|];
  apply (coarse_move _ _ _ _ _ _ _ Hco); cbn [w_worker ready parked coarse_pc];
  [done|rewrite ?fmap_app, ?fmap_cons, ?fmap_app, ?fmap_cons; cbn; solve_Permutation].

Lemma wake_step_coarse c s s' t :
  coarse s t -> wake_step c s s' -> exists t', rtc qos_step t t' /\ coarse s' t'.
Proof.
  intros Hco Hst. destruct Hst; try (fine_move Hco); destruct Hco as [Eo Ew Ee Ea Es]; destruct t as [o w' en acc' snt'];
    cbn [w_obj w_worker ready parked w_accepted w_sent obj worker entered accepted sent coarse_pc] in *; subst.
  - exists (mkQS s (coarse_pc w) (msg :: en) acc snt). split; [by apply rtc_once, q_enter|].
    split; cbn; try done. by rewrite Ee.
  - apply entered_split in Ee as (en1 & en2 & -> & Hp). exists (mkQS s' (coarse_pc w) (en1 ++ en2) acc snt).
    split; [|by split]. apply rtc_once. eapply q_return; [by apply not_sending_coarse|done].
  - apply entered_split in Ee as (en1 & en2 & -> & Hp). exists (mkQS s' (coarse_pc w) (en1 ++ en2) (acc ++ [msg]) snt).
    split; [|by split]. apply rtc_once. eapply q_queue; [by apply not_sending_coarse|done].
  - eexists. split; [eapply rtc_once, q_pass; eassumption|]. split; cbn; try done. by destruct r.
  - eexists. split; [eapply rtc_once, q_sent; eassumption|]. split; cbn; try done. by destruct (running s').
  - eexists. split; [eapply rtc_once, q_recv; eassumption|]. by split.
  - eexists. split; [eapply rtc_once, q_close; by apply not_sending_coarse|]. by split.
  - eexists. split; [apply rtc_refl|]. split; cbn; try done; [by destruct w|by rewrite Ee, app_nil_r, (Permutation_app_comm pk)].
  - eexists. split; [by apply rtc_once, q_close_underlying|]. by split.
Qed.

Lemma wake_coarse u q s :
  wake_reachable u q s -> exists t, reachable u q t /\ coarse s t.
Proof.
  intros Hr. eapply (rtc_invariant any_step (fun s => exists t, reachable u q t /\ coarse s t)); [|exact Hr|].
  - intros s1 s2 (t & Ht & Hco) [c Hst]. destruct (wake_step_coarse c s1 s2 t Hco Hst) as (t' & Ht' & Hco').
    exists t'. split; [by eapply rtc_trans|done].
  - exists (qos_start u q). split; [apply rtc_refl|by split].
Qed.
(** ** Who wakes the worker *)

Lemma send_locked_running b now msg (s s' : QosPipe P) : send_locked b now msg s = SQueued s' -> running s' = running s.
Proof. unfold send_locked, send_block, send_enqueue. by repeat case_match; intros; simplify_eq. Qed.

(** [send] waits or refuses only at the mark. *)
Lemma send_locked_at_mark b now msg (s : QosPipe P) :
  (forall s', send_locked b now msg s <> SQueued s') -> snd_hwm_bytes (qos s) <= send_bytes s.
Proof.
  unfold send_locked, send_enqueue. destruct (geb_spec (send_bytes s) (snd_hwm_bytes (qos s))); [lia|].
  intros Hq. by destruct (Hq _ eq_refl).
Qed.

Record wake_inv (s : wake_state) : Prop := {
  wi_awake : w_worker s = KAsleep -> running (w_obj s) = true ->
    send_queue (w_obj s) = [] \/ (0 < unnotified s)%nat \/ ready s <> [] \/ snd_hwm_bytes (qos (w_obj s)) <= send_bytes (w_obj s);
  wi_closing : w_worker s = KAsleep -> running (w_obj s) = false -> (0 < closing s)%nat;
}.

Lemma cons_ne_nil {A} (x : A) l : x :: l <> []. Proof. done. Qed.
Lemma middle_ne_nil {A} (x : A) l1 l2 : l1 ++ x :: l2 <> []. Proof. by destruct l1. Qed.

Lemma wake_step_inv c s s' : wake_inv s -> wake_step c s s' -> wake_inv s'.
Proof.
  intros [H1 H2] Hst. destruct Hst; cbn [w_worker w_obj unnotified ready closing] in *; split;
    cbn [w_worker w_obj unnotified ready closing]; intros Hw Hrun; subst; try done; try (by auto);
    try (right; left; lia); try (right; right; left; apply cons_ne_nil).
  - apply send_locked_return in H3 as E. subst s'. right; right; right. apply (send_locked_at_mark b now msg). congruence.
  - apply send_locked_return in H3 as E. subst s'. by apply H2.
  - apply send_locked_running in H3. apply H2; congruence.
  - right; right; right. apply (send_locked_at_mark b now msg). congruence.
  - destruct r; try done. unfold worker_pass_of in H0. left.
    destruct (running s); cbn in H0; [|done]. destruct (send_queue s) eqn:Eq; [by injection H0 as <-|].
    repeat case_match; simplify_eq.
  - destruct r; try done. unfold worker_pass_of in H0. destruct (running s) eqn:Er; cbn in H0; [|done].
    destruct (send_queue s) eqn:Eq; [injection H0 as <-; congruence|]. repeat case_match; simplify_eq.
  - by destruct (running s').
  - by destruct (running s').
  - unfold qos_recv in H0. destruct (pipe_recv _ _) as [[? ?]|]; [|done]. injection H0 as <- _. by apply H1.
  - unfold qos_recv in H0. destruct (pipe_recv _ _) as [[? ?]|]; [|done]. injection H0 as <- _. by apply H2.
  - lia.
  - by destruct w.
  - by destruct w.
Qed.

Lemma wake_reachable_inv u q s : wake_reachable u q s -> wake_inv s.
Proof.
  intros Hr. eapply (rtc_invariant any_step wake_inv); [|exact Hr|by split].
  intros s1 s2 Hi [c Hst]. by eapply wake_step_inv.
Qed.

(** ** Who wakes a sender *)

(** Only sleepers are left: no sender is about to run, and no notification is
    outstanding. *)
Definition quiet (s : wake_state) : Prop := ready s = [] /\ unnotified s = 0%nat /\ closing s = 0%nat.

Lemma quiet_step s s' : quiet s -> wake_step Running s s' -> quiet s' /\ parked s' = parked s.
Proof.
  intros (Hrd & Hn & Hc) Hst. inversion Hst; subst; unfold quiet; cbn [ready unnotified closing parked] in *; subst;
    try done; by destruct rd1.
Qed.

Lemma quiet_steps s s' : quiet s -> rtc (wake_step Running) s s' -> quiet s' /\ parked s' = parked s.
Proof.
  intros Hq Hr. eapply (rtc_invariant (wake_step Running) (fun s' => quiet s' /\ parked s' = parked s)); [|exact Hr|done].
  intros s1 s2 [H1 H2] Hst. destruct (quiet_step s1 s2 H1 Hst). split; [done|congruence].
Qed.

(** ** Theorems *)


(** C18: the worker does not sleep through messages. In every reachable state in
    which it is asleep, no sender is about to run and no notification is
    outstanding, the pipe is open and the queue is empty, or its bytes are at the
    high water mark: although senders sleep on the same condition variable, a
    notification that reaches a sender instead of the worker is passed on, or
    finds the queue at the mark. *)
Theorem worker_not_forgotten u q s :
  wake_reachable u q s -> w_worker s = KAsleep -> quiet s ->
  running (w_obj s) = true /\ (send_queue (w_obj s) = [] \/ snd_hwm_bytes (qos (w_obj s)) <= send_bytes (w_obj s)).
Proof.
  intros Hr Hw (Hrd & Hn & Hc). destruct (wake_reachable_inv u q s Hr) as [H1 H2].
  destruct (running (w_obj s)) eqn:E; [|specialize (H2 Hw eq_refl); lia].
  split; [done|]. destruct (H1 Hw eq_refl) as [?|[?|[?|?]]]; [by left|lia|done|by right].
Qed.

End wake.

Definition three_bytes : QosOptions := mkQosOptions 3 3 kBlock 1 0 kAtMostOnce.

(** a sender blocked at the high water mark is forgotten. The worker notifies
    nobody, neither when it takes messages out of the queue nor when it stops on
    an error: once only sleepers are left, no step of the pipe wakes them, and
    only their own timeout, another call or [close] does. Such a state is reached
    with the queue empty: a message expires while a second sender waits for its
    space. *)
Theorem blocked_sender_forgotten :
  (forall {P} `{PipeOps P} (s s' : wake_state (P := P)), quiet s -> rtc (wake_step Running) s s' -> parked s' = parked s) /\
  (forall {P} `{PipeOps P} (u : P), exists s, wake_reachable u three_bytes s /\
     quiet s /\ parked s = [(abc, false)] /\ send_queue (w_obj s) = [] /\ send_bytes (w_obj s) = 0 /\
     running (w_obj s) = true).
Proof.
  split; [intros P HP s s' Hq Hr; by destruct (quiet_steps s s' Hq Hr)|].
  intros P HP u. set (o := set_queue [mkQueued abc 0] 3 1 (QosPipe_make u three_bytes)).
  exists (mkWake (QosPipe_make u three_bytes) KAsleep [] [(abc, false)] 0 0 [abc] []). split; [|done].
  eapply rtc_l; [exists Entering; apply (k_enter _ _ _ _ _ _ _ _ abc); reflexivity|].
  eapply rtc_l; [exists Running; apply (k_queue _ KLoop [] [] [] 0 0 [] [] abc false 0 o); [discriminate|reflexivity]|].
  eapply rtc_l; [exists Running; apply k_notify_nobody; discriminate|].
  eapply rtc_l; [exists Entering; apply (k_enter _ _ _ _ _ _ _ _ abc); reflexivity|].
  eapply rtc_l; [exists Running; apply (k_sleep o KLoop [] [] [] 0 0 [abc] [] abc false 0); [discriminate|reflexivity]|].
  apply (rtc_l _ _ (mkWake (QosPipe_make u three_bytes) KLoop [] [(abc, false)] 0 0 [abc] [])).
  { exists Running. apply (k_pass o [] [(abc, false)] 0 0 [abc] [] 2000000 2000000 (QosPipe_make u three_bytes) WAgain). reflexivity. }
  apply rtc_once. exists Running.
  apply (k_pass (QosPipe_make u three_bytes) [] [(abc, false)] 0 0 [abc] [] 0 0 (QosPipe_make u three_bytes) WWait). reflexivity.
Qed.

(** ** Witnesses *)

(** The worker asleep over an empty queue, before any call. *)
Definition idle_worker : wake_state (P := sink) :=
  mkWake (QosPipe_make ([] : sink) three_bytes) KAsleep [] [] 0 0 [] [].
Lemma idle_worker_reachable : wake_reachable (H := sink_ops) ([] : sink) three_bytes idle_worker.
Proof. apply rtc_once. exists Running. apply (k_pass (H := sink_ops) (QosPipe_make ([] : sink) three_bytes) [] [] 0 0 [] [] 0 0 (QosPipe_make ([] : sink) three_bytes) WWait). reflexivity. Qed.


Lemma worker_not_forgotten_witness :
  running (w_obj idle_worker) = true /\ (send_queue (w_obj idle_worker) = [] \/ 3 <= send_bytes (w_obj idle_worker)).
Proof.
  apply (worker_not_forgotten (H := sink_ops) [] three_bytes idle_worker idle_worker_reachable); [reflexivity|repeat split].
Defined.

Lemma blocked_sender_forgotten_witness :
  exists s, wake_reachable (H := sink_ops) ([] : sink) three_bytes s /\
    forall s', rtc (wake_step (H := sink_ops) Running) s s' -> parked s' = [(abc, false)].
Proof.
  destruct blocked_sender_forgotten as [Hkeep Hex]. destruct (Hex sink sink_ops []) as (s & Hr & Hq & Hp & _).
  exists s. split; [exact Hr|]. intros s' Hs. rewrite <- Hp. exact (Hkeep sink sink_ops s s' Hq Hs).
Defined.
