(* ===== verification/ReconnectCalls.v ===== *)
(** * Calls through the reconnecting pipe (src/reconnect_pipe.cc)

    One call of [send] or [recv] of a [ReconnectPipe], place by place, while
    everything else (the worker, other calls, [close]) takes the steps of
    [Reconnect]. A call tries the connections it finds one after another until
    one gives an answer other than a lost connection. *)

From S2P Require Import Prelude Status Options StateCallback Reconnect.

(** ** The call *)

Section call.

(** What the inner call returns ([Result<void>] or [Result<Message>]), its status
    and the result made from a status alone. *)
Context {A : Type} (after : A -> after_call) (of_status : Status -> A).
Context (policy : ReconnectPolicy) (timeout : Z).

(** Where the call is: in [wait_connected]; about to take the snapshot; in the
    inner call on a connection; about to report it lost; past the lock of that
    report; returned. *)
Inductive call_pc :=
| PWait
| PSnapshot
| PInner (c : conn)
| PMark (c : conn) (reason : string)
| PReport (c : conn) (reason : string)
| PReturned (a : A).

(** The place, and what the connections answered so far. *)
Record call := mkCall { pc : call_pc; answers : list (conn * A) }.
Definition call_start : call := mkCall PWait [].

(** src/src/reconnect_pipe.cc:97-100 [ReconnectPipe::snapshot_inner] *)
Definition snapshot_inner (r : ReconnectPipe) : option conn := inner r.

(** src/src/reconnect_pipe.cc:28-64 [ReconnectPipe::send, ReconnectPipe::recv]

    A step of the call, with what it does to the rest; a connection that has
    been closed answers kClosed. *)
Inductive call_step : sys * call -> sys * call -> Prop :=
(* wait_connected *)
| c_wait s as_ timed_out st :
    wait_connected timeout timed_out (rc s) = Some st ->
    call_step (s, mkCall PWait as_)
      (s, mkCall (if status_ok st then PSnapshot else PReturned (of_status st)) as_)
(* snapshot_inner *)
| c_snapshot s as_ :
    call_step (s, mkCall PSnapshot as_)
      (s, mkCall (match snapshot_inner (rc s) with Some c => PInner c | None => PWait end) as_)
(* the inner call *)
| c_inner s as_ c a :
    (c ∈ shut_conns s -> exists reason, after a = MarkAndRetry reason) ->
    call_step (s, mkCall (PInner c) as_)
      (s, mkCall (match after a with ReturnIt => PReturned a | MarkAndRetry reason => PMark c reason end) (as_ ++ [(c, a)]))
(* mark_disconnected *)
| c_stale s as_ c reason r' :
    mark_disconnected c reason (rc s) = (r', None) ->
    call_step (s, mkCall (PMark c reason) as_) (s, mkCall PWait as_)
| c_mark s as_ c reason r' c' :
    mark_disconnected c reason (rc s) = (r', Some c') ->
    call_step (s, mkCall (PMark c reason) as_)
      (mkSys r' (worker s) (log s) (dialled s) ((c', reason) :: reports s) (closer s) (shut_conns s),
       mkCall (PReport c' reason) as_)
| c_report s as_ c reason l1 l2 r' l' :
    reports s = l1 ++ (c, reason) :: l2 -> set_state kDisconnected reason (rc s, log s) = (r', l') ->
    call_step (s, mkCall (PReport c reason) as_)
      (mkSys r' (worker s) l' (dialled s) (l1 ++ l2) (closer s) (c :: shut_conns s), mkCall PWait as_).

(** The call, or the rest, which leaves the call's own report to it. *)
Inductive system_step : sys * call -> sys * call -> Prop :=
| y_call x y : call_step x y -> system_step x y
| y_rest s s' k :
    rc_step policy s s' ->
    match pc k with PReport c reason => (c, reason) ∈ reports s' | _ => True end ->
    system_step (s, k) (s', k).

Definition call_reachable : sys * call -> Prop := rtc system_step (rc_start, call_start).

(** A step of the call is a step of the reconnecting pipe, or none. *)
Lemma call_step_refines s k s' k' : call_step (s, k) (s', k') -> rtc (rc_step policy) s s'.
Proof.
  intros Hst. inversion Hst; subst; try apply rtc_refl; apply rtc_once.
  - by eapply s_mark.
  - by eapply s_report.
Qed.

Lemma system_step_refines x y : system_step x y -> rtc (rc_step policy) x.1 y.1.
Proof. intros [[s k] [s' k'] Hst|s s' k Hst _]; [by eapply call_step_refines|by apply rtc_once]. Qed.

Lemma call_reachable_rc s k : call_reachable (s, k) -> reachable policy s.
Proof.
  intros Hr. change s with (s, k).1.
  eapply (rtc_invariant system_step (fun x => reachable policy x.1)); [|exact Hr|apply rtc_refl].
  intros x y Hx Hst. eapply rtc_trans; [exact Hx|by apply system_step_refines].
Qed.

Lemma reachable_start s : reachable policy s -> call_reachable (s, call_start).
Proof.
  intros Hr. apply (rtc_congruence (fun s => (s, call_start)) (R := rc_step policy)); [|exact Hr].
  intros x y Hst. by apply y_rest.
Qed.

(** ** Connections that are gone *)

(** A connection that can not be installed (again). *)
Definition settled (s : sys) (c : conn) : Prop := (c < dialled s)%nat /\ worker s <> WInstall c.
Definition gone (s : sys) (c : conn) : Prop := settled s c /\ inner (rc s) <> Some c.

(** Numbers are handed out once. *)
Record numbered (s : sys) : Prop := {
  nu_inner c : inner (rc s) = Some c -> (c < dialled s)%nat;
  nu_install c : worker s = WInstall c -> (c < dialled s)%nat;
}.

Lemma worker_step_install dial fresh w x c x' :
  worker_step policy dial fresh w x = Some (WInstall c, x') -> c = fresh.
Proof.
  unfold worker_step. destruct x as [r l]. destruct w; repeat case_match; intros; simplify_eq; try done.
  destruct (next_delay policy delay); simplify_eq/=.
Qed.

Lemma worker_step_numbers s w' dial r' l' :
  worker_step policy dial (dialled s) (worker s) (rc s, log s) = Some (w', (r', l')) ->
  let n' := match w' with WInstall _ => S (dialled s) | _ => dialled s end in
  (dialled s <= n')%nat /\ (forall c, w' = WInstall c -> c = dialled s /\ (c < n')%nat).
Proof.
  intros Hw. destruct w'; cbn; (split; [lia|]); intros c0 Hc; simplify_eq.
  apply worker_step_install in Hw. lia.
Qed.

Lemma numbered_step s s' : numbered s -> rc_step policy s s' -> numbered s'.
Proof.
  intros [H1 H2] Hst. destruct Hst as [s w' dial r' l' Hw|s which reason r' c Hm|s l1 c reason l2 r' l' Hr Hset
    |s r' c Hc Hcl|s c r' l' Hc Hset|s c Hc|s Hc Hd]; try (by split).
  - pose proof (worker_step_numbers _ _ _ _ _ Hw) as [Hle Hin]. apply worker_step_frame in Hw as (_ & _ & F).
    split; cbn [rc worker dialled]; intros c Hc; [|by apply Hin].
    destruct F as [F|(c0 & F1 & _ & F2)]; [rewrite F in Hc; specialize (H1 c Hc); lia|].
    rewrite F2 in Hc. injection Hc as <-. specialize (H2 c0 F1). lia.
  - apply mark_disconnected_some in Hm as (_ & _ & _ & _ & Hi & _). split; cbn; [by rewrite Hi|done].
  - apply set_state_frame in Hset as (_ & _ & _ & Hi & _). split; cbn; [by rewrite Hi|done].
  - injection Hcl as <- <-. by split.
  - apply set_state_frame in Hset as (_ & _ & _ & Hi & _). split; cbn; [by rewrite Hi|done].
Qed.

Lemma settled_step s s' c : settled s c -> rc_step policy s s' -> settled s' c.
Proof.
  intros [H1 H2] Hst. destruct Hst; try (by split).
  pose proof (worker_step_numbers _ _ _ _ _ H) as [Hle Hin]. split; cbn [dialled worker]; [lia|].
  intros Hw. destruct (Hin c Hw) as [-> _]. lia.
Qed.

Lemma gone_step s s' c : gone s c -> rc_step policy s s' -> gone s' c.
Proof.
  intros [Hs Hi] Hst. split; [by eapply settled_step|]. destruct Hs as [_ Hw].
  destruct Hst as [s w' dial r' l' H|s which reason r' c' Hm|s l1 c' reason l2 r' l' Hr Hset
    |s r' c' Hc Hcl|s c' r' l' Hc Hset|s c' Hc|s Hc Hd]; cbn [rc] in *; try done.
  - apply worker_step_frame in H as (_ & _ & [->|(c0 & ? & _ & ->)]); [done|congruence].
  - by apply mark_disconnected_some in Hm as (_ & _ & _ & _ & -> & _).
  - by apply set_state_frame in Hset as (_ & _ & _ & -> & _).
  - by injection Hcl as <- _.
  - by apply set_state_frame in Hset as (_ & _ & _ & -> & _).
Qed.

Lemma closed_step s s' : rc_closed (rc s) = true -> rc_step policy s s' -> rc_closed (rc s') = true.
Proof.
  intros Hc Hst. destruct Hst as [s w' dial r' l' H|s which reason r' c' Hm|s l1 c' reason l2 r' l' Hr Hset
    |s r' c' Hc' Hcl|s c' r' l' Hc' Hset|s c' Hc'|s Hc' Hd]; cbn [rc] in *; try done.
  - by apply worker_step_frame in H as (-> & _).
  - apply mark_disconnected_some in Hm as (_ & _ & Hf & _). congruence.
  - by apply set_state_frame in Hset as (-> & _).
  - by injection Hcl as <- _.
  - by apply set_state_frame in Hset as (-> & _).
Qed.

Lemma steps_keep (Q : sys -> Prop) s s' :
  (forall s s', Q s -> rc_step policy s s' -> Q s') -> rtc (rc_step policy) s s' -> Q s -> Q s'.
Proof. intros HQ Hr Hs. eapply (rtc_invariant (rc_step policy) Q); [exact HQ|exact Hr|exact Hs]. Qed.

Lemma reachable_inner_settled s c : reachable policy s -> inner (rc s) = Some c -> settled s c.
Proof.
  intros Hr Hi. assert (Hn : numbered s) by (eapply (steps_keep numbered); [exact numbered_step|exact Hr|by split]).
  destruct (reachable_ok _ _ Hr) as [Hok _]. split; [by apply Hn|]. intros Hw.
  pose proof (ok_dialling _ _ Hok) as Hd. rewrite Hw in Hd. rewrite (Hd eq_refl) in Hi. done.
Qed.

(** ** What a call has tried *)

Definition lost (x : conn * A) : Prop := exists reason, after x.2 = MarkAndRetry reason.

(** The status [wait_connected] gives up with. *)
Definition gave_up (st : Status) : Prop := code st = kClosed \/ code st = kIoError \/ code st = kTimeout.

Definition returned_ok (k : call) (a : A) : Prop :=
  (Forall lost (answers k) /\ exists st, a = of_status st /\ gave_up st) \/
  exists l c, answers k = l ++ [(c, a)] /\ Forall lost l /\ after a = ReturnIt.

Definition pc_inv (s : sys) (k : call) : Prop :=
  match pc k with
  | PWait => Forall lost (answers k) /\ (Forall (gone s) (answers k).*1 \/ rc_closed (rc s) = true)
  | PSnapshot => Forall lost (answers k) /\ Forall (gone s) (answers k).*1
  | PInner c => Forall lost (answers k) /\ Forall (gone s) (answers k).*1 /\ settled s c /\ c ∉ (answers k).*1
  | PMark c reason =>
      Forall lost (answers k) /\ exists l a, answers k = l ++ [(c, a)] /\ Forall (gone s) l.*1 /\ settled s c
  | PReport c reason => Forall lost (answers k) /\ Forall (gone s) (answers k).*1 /\ (c, reason) ∈ reports s
  | PReturned a => returned_ok k a
  end.

Definition call_inv (x : sys * call) : Prop := NoDup (answers x.2).*1 /\ pc_inv x.1 x.2.

Lemma pc_inv_rest s s' k :
  pc_inv s k -> rc_step policy s s' -> match pc k with PReport c reason => (c, reason) ∈ reports s' | _ => True end ->
  pc_inv s' k.
Proof.
  intros Hk Hst Hrep. unfold pc_inv in *.
  assert (Hg : forall l, Forall (gone s) l -> Forall (gone s') l).
  { intros l Hl. eapply Forall_impl; [exact Hl|]. intros c Hc. by eapply gone_step. }
  destruct (pc k); naive_solver eauto using settled_step, closed_step.
Qed.

Lemma wait_connected_cases b r st :
  wait_connected timeout b r = Some st ->
  if status_ok st then rc_closed r = false else gave_up st.
Proof.
  unfold wait_connected, gave_up. destruct (negb _).
  - destruct (_ && b); [|done]. intros [= <-]. cbn. by right; right.
  - destruct (rc_closed r); [intros [= <-]; cbn; by left|].
    destruct (permanently_failed r); [intros [= <-]; cbn; by right; left|]. by intros [= <-].
Qed.

(** Names the hypothesis an inverted step brings. *)
#[local] Ltac name_step :=
  try match goal with
      | E : wait_connected _ _ _ = Some _ |- _ => rename E into Hm
      | E : mark_disconnected _ _ _ = _ |- _ => rename E into Hm
      end.

(** Taking a connection out, or finding that it is not there, makes it gone. *)
Lemma mark_gone c reason s r' o :
  settled s c -> mark_disconnected c reason (rc s) = (r', o) ->
  match o with
  | Some c' => c' = c /\ inner r' = None
  | None => r' = rc s /\ (gone s c \/ rc_closed (rc s) = true)
  end.
Proof.
  intros Hs Hm. destruct o as [c'|].
  - by apply mark_disconnected_some in Hm as (_ & ? & _ & _ & ? & _).
  - unfold mark_disconnected in Hm. destruct (rc_closed (rc s)) eqn:Ec; [injection Hm as <-; split; [done|by right]|].
    destruct (inner (rc s)) as [c0|] eqn:Ei; [|injection Hm as <-; split; [done|left; split; [done|by rewrite Ei]]].
    case_bool_decide as E; cbn in Hm; [done|]. injection Hm as <-. split; [done|]. left. split; [done|]. congruence.
Qed.

Lemma gone_inner_none s s' c : settled s c -> dialled s' = dialled s -> worker s' = worker s -> inner (rc s') = None -> gone s' c.
Proof. intros [H1 H2] Hd Hw Hi. split; [|by rewrite Hi]. split; congruence. Qed.

Lemma reconnect_call_inv s k s' k' :
  reachable policy s -> call_inv (s, k) -> call_step (s, k) (s', k') -> call_inv (s', k').
Proof.
  intros Hr [Hnd Hk] Hst. unfold call_inv, pc_inv in *.
  inversion Hst; subst; cbn [fst snd pc answers rc worker dialled reports] in *; name_step.
  - split; [done|]. destruct Hk as [Hl Hg]. apply wait_connected_cases in Hm. destruct (status_ok st).
    + split; [done|]. destruct Hg; [done|congruence].
    + left. split; [done|]. by eexists.
  - split; [done|]. destruct Hk as [Hl Hg]. unfold snapshot_inner.
    destruct (inner (rc s')) as [c|] eqn:Ei; [|split; [done|by left]].
    split_and!; [done|done|by apply reachable_inner_settled|].
    intros Hin. rewrite Forall_forall in Hg. by destruct (Hg c Hin) as [_ ?].
  - destruct Hk as (Hl & Hg & Hs & Hc). rewrite fmap_app. split.
    { apply NoDup_app. split_and!; [done| |apply NoDup_singleton]. intros x Hx ->%list_elem_of_singleton. done. }
    destruct (after a) as [|reason] eqn:Ea.
    + right. by exists as_, c.
    + split; [apply Forall_app; split; [done|]; constructor; [by exists reason|constructor]|]. by exists as_, a.
  - destruct Hk as (Hl & l & a & Ha & Hg & Hs). split; [done|]. split; [done|].
    pose proof (mark_gone _ _ _ _ _ Hs Hm) as (_ & [Hgone|Hc]); [left|by right].
    rewrite Ha, fmap_app, Forall_app. split; [done|]. constructor; [done|constructor].
  - destruct Hk as (Hl & l & a & Ha & Hg & Hs). pose proof (mark_gone _ _ _ _ _ Hs Hm) as [-> Hi].
    split; [done|]. split; [done|]. split; [|by left].
    rewrite Ha, fmap_app, Forall_app. split; [|constructor; [|constructor]].
    + eapply Forall_impl; [exact Hg|]. intros d [Hd _]. by apply (gone_inner_none s).
    + by apply (gone_inner_none s).
  - destruct Hk as (Hl & Hg & Hrep). split; [done|]. split; [done|]. left.
    eapply Forall_impl; [exact Hg|]. intros d Hd.
    eapply gone_step; [exact Hd|]. by eapply s_report.
Qed.

Lemma call_reachable_inv s k : call_reachable (s, k) -> call_inv (s, k).
Proof.
  intros Hr.
  assert (H : reachable policy (s, k).1 /\ call_inv (s, k)); [|apply H].
  eapply (rtc_invariant system_step (fun x => reachable policy x.1 /\ call_inv x)); [|exact Hr|].
  - intros x y [Hx Hi] Hst. split; [eapply rtc_trans; [exact Hx|by apply system_step_refines]|].
    destruct Hst as [[s1 k1] [s2 k2] Hst|s1 s2 k1 Hst Hrep]; [by eapply reconnect_call_inv|].
    destruct Hi as [Hnd Hk]. split; [done|]. by eapply pc_inv_rest.
  - split; [apply rtc_refl|]. split; [constructor|]. split; [constructor|]. left. constructor.
Qed.

(** All connections tried were lost, but possibly the last, whose answer is then
    what the call returned. *)
Lemma answers_shape s k :
  call_reachable (s, k) ->
  NoDup (answers k).*1 /\
  (Forall lost (answers k) \/
   exists l c a, answers k = l ++ [(c, a)] /\ Forall lost l /\ after a = ReturnIt /\ pc k = PReturned a).
Proof.
  intros Hr. destruct (call_reachable_inv s k Hr) as [Hnd Hk]. split; [done|]. unfold pc_inv in Hk. cbn [fst snd] in Hk.
  destruct (pc k); try (left; apply Hk). destruct Hk as [[Hl _]|(l & c & Ha & Hl & Hret)]; [by left|].
  right. by exists l, c, a.
Qed.

(** ** Ending *)

(** Steps the call has left once the pipe is closed. *)
Definition steps_left (k : call) : nat :=
  match pc k with
  | PReturned _ => 0 | PWait => 1 | PReport _ _ => 2 | PMark _ _ => 3 | PInner _ => 4 | PSnapshot => 5
  end.

Lemma closed_call_step s k s' k' :
  rc_closed (rc s) = true -> call_step (s, k) (s', k') ->
  rc_closed (rc s') = true /\ (steps_left k' < steps_left k)%nat.
Proof.
  intros Hc Hst. split.
  { eapply (steps_keep (fun s => rc_closed (rc s) = true)); [exact closed_step|by eapply call_step_refines|done]. }
  inversion Hst; subst; unfold steps_left; cbn [pc]; name_step.
  - apply wait_connected_cases in Hm. destruct (status_ok st); [congruence|lia].
  - destruct (snapshot_inner _); lia.
  - destruct (after a); lia.
  - lia.
  - lia.
  - lia.
Qed.

Lemma call_progress s k a :
  lost (O, a) -> call_inv (s, k) -> rc_closed (rc s) = true -> (steps_left k <> 0)%nat -> exists x, call_step (s, k) x.
Proof.
  intros Ha [_ Hk] Hc Hn. destruct k as [p as_]. unfold pc_inv, steps_left in *. cbn [fst snd pc answers] in *.
  destruct p as [| |c|c reason|c reason|b]; [| | | | |done].
  - eexists. apply (c_wait s as_ false (closed "pipe closed")).
    unfold wait_connected, connected_pred. by rewrite Hc.
  - eexists. apply c_snapshot.
  - eexists. apply (c_inner s as_ c a). by intros _.
  - destruct (mark_disconnected c reason (rc s)) as [r' [c'|]] eqn:Em; eexists; [by eapply c_mark|by eapply c_stale].
  - destruct Hk as (_ & _ & Hrep). apply list_elem_of_split in Hrep as (l1 & l2 & Hrep).
    destruct (set_state kDisconnected reason (rc s, log s)) as [r' l'] eqn:Es. eexists. by eapply c_report.
Qed.

Lemma call_finishes n s k a :
  lost (O, a) -> call_reachable (s, k) -> rc_closed (rc s) = true -> (steps_left k <= n)%nat ->
  exists s' k' b, rtc call_step (s, k) (s', k') /\ pc k' = PReturned b.
Proof.
  intros Ha. revert s k. induction n as [|n IH]; intros s k Hr Hc Hn.
  - exists s, k. unfold steps_left in Hn. destruct (pc k) eqn:E; try lia. by eexists; split; [apply rtc_refl|].
  - destruct (decide (steps_left k = 0%nat)) as [E|E].
    { exists s, k. unfold steps_left in E. destruct (pc k) eqn:E'; try lia. by eexists; split; [apply rtc_refl|]. }
    destruct (call_progress s k a Ha (call_reachable_inv s k Hr) Hc E) as ([s1 k1] & Hst).
    destruct (closed_call_step _ _ _ _ Hc Hst) as [Hc1 Hlt].
    destruct (IH s1 k1) as (s' & k' & b & Hrun & Hb); [|done|lia|].
    { eapply rtc_r; [exact Hr|by apply y_call]. }
    exists s', k', b. split; [|done]. by eapply rtc_l.
Qed.

End call.

Arguments call : clear implicits.
Arguments call_pc : clear implicits.

(** ** Theorems *)

Lemma lost_send x : lost after_send x -> is_disconnect_error x.2 = true /\ status_ok x.2 = false.
Proof. intros [reason Hx]. unfold after_send in Hx. by repeat case_match. Qed.

Lemma lost_recv x : lost (after_recv (A := list byte)) x -> is_disconnect_error (status x.2) = true /\ ok x.2 = false.
Proof. intros [reason Hx]. unfold after_recv in Hx. by repeat case_match. Qed.

Lemma no_ok {B} (f : B -> bool) l : Forall (fun x => f x = false) l -> List.filter f l = [].
Proof. induction 1 as [|x l Hx _ IH]; [done|]. cbn. by rewrite Hx. Qed.

Lemma gave_up_not_ok st : gave_up st -> status_ok st = false.
Proof. intros H. apply status_ok_false. intros E. destruct H as [H|[H|H]]; congruence. Qed.

(** C17: a message sent through a reconnecting pipe is accepted at most once. In
    every interleaving of a [send] with the worker, other calls and [close], no
    connection is given the message twice; every connection tried but the last
    answered that it was lost; and [send] returns Ok exactly if one connection,
    the last, accepted the message. Otherwise none did, and the result is the
    last connection's answer or the pipe's own (closed, attempts exhausted,
    timed out). *)
Theorem send_at_most_once policy timeout s k :
  call_reachable after_send (fun st => st) policy timeout (s, k) ->
  let oks := List.filter (fun x => status_ok x.2) (answers k) in
  NoDup (answers k).*1 /\ (length oks <= 1)%nat /\
  forall st, pc k = PReturned st ->
    (status_ok st = true <-> oks <> []) /\
    ((exists l c, answers k = l ++ [(c, st)] /\ Forall (fun x => is_disconnect_error x.2 = true) l) \/
     (gave_up st /\ Forall (fun x => is_disconnect_error x.2 = true) (answers k))).
Proof.
  intros Hr oks. destruct (answers_shape _ _ _ _ _ _ Hr) as [Hnd Hshape]. split; [done|].
  assert (Hno : forall l, Forall (lost after_send) l -> List.filter (fun x : conn * Status => status_ok x.2) l = []).
  { intros l Hl. apply no_ok. eapply Forall_impl; [exact Hl|]. intros x Hx. by apply lost_send. }
  assert (Hdis : forall l, Forall (lost after_send) l -> Forall (fun x => is_disconnect_error x.2 = true) l).
  { intros l Hl. eapply Forall_impl; [exact Hl|]. intros x Hx. by apply lost_send. }
  destruct (call_reachable_inv _ _ _ _ _ _ Hr) as [_ Hk]. unfold pc_inv in Hk. cbn [fst snd] in Hk.
  unfold oks. destruct Hshape as [Hl|(l & c & a & -> & Hl & Hret & Hpc)].
  - rewrite (Hno _ Hl). split; [cbn; lia|]. intros st Hst. rewrite Hst in Hk.
    destruct Hk as [[_ (st' & -> & Hg)]|(l & c & Ha & Hl' & Hret)].
    + split; [rewrite (gave_up_not_ok _ Hg); split; congruence|]. right. split; [done|by apply Hdis].
    + split; [|left; exists l, c; split; [done|by apply Hdis]]. rewrite Ha, Forall_app, Forall_singleton in Hl.
      destruct Hl as [_ Hlost]. destruct Hlost as [reason Hlost]. cbn in Hlost. congruence.
  - rewrite List.filter_app, (Hno _ Hl). cbn [app List.filter snd].
    split; [destruct (status_ok a); cbn; lia|]. intros st Hst. rewrite Hpc in Hst. injection Hst as <-.
    split; [by destruct (status_ok a)|]. left. exists l, c. split; [done|by apply Hdis].
Qed.

(** a message received through a reconnecting pipe is returned: in every
    interleaving of a [recv] with the rest, a connection that hands over a message
    is the last one tried, that message is what [recv] returns, and no connection
    is asked twice. *)
Theorem recv_drops_nothing policy timeout s k c (m : list byte) :
  call_reachable (after_recv (A := list byte)) RStatus policy timeout (s, k) ->
  (c, RValue m) ∈ answers k ->
  pc k = PReturned (RValue m) /\ NoDup (answers k).*1 /\
  exists l, answers k = l ++ [(c, RValue m)] /\ Forall (fun x => is_disconnect_error (status x.2) = true) l.
Proof.
  intros Hr Hin. destruct (answers_shape _ _ _ _ _ _ Hr) as [Hnd Hshape].
  assert (Hnot : forall l, Forall (lost (after_recv (A := list byte))) l -> (c, RValue m) ∉ l).
  { intros l Hl Hi. rewrite Forall_forall in Hl. by destruct (lost_recv _ (Hl _ Hi)) as [_ ?]. }
  destruct Hshape as [Hl|(l & c' & a & Ha & Hl & _ & Hpc)]; [by destruct (Hnot _ Hl)|].
  rewrite Ha, elem_of_app, list_elem_of_singleton in Hin. destruct Hin as [Hi|[= <- <-]]; [by destruct (Hnot _ Hl)|].
  split; [done|]. split; [done|]. exists l. split; [done|]. eapply Forall_impl; [exact Hl|]. intros x Hx. by apply lost_recv.
Qed.


(** ** Witnesses *)

(** A call on a pipe whose first connection answers at once. *)
Lemma answered_reachable {A} (after : A -> after_call) of_status a :
  after a = ReturnIt ->
  call_reachable after of_status ReconnectPolicy_default 0 (connected_state, mkCall (PReturned a) [(O, a)]).
Proof.
  intros Ha. eapply rtc_trans; [apply reachable_start, connected_state_reachable|].
  eapply rtc_l; [apply y_call, (c_wait _ _ _ connected_state [] false Ok); reflexivity|].
  eapply rtc_l; [apply y_call, c_snapshot|]. apply rtc_once, y_call.
  pose proof (c_inner after of_status 0 connected_state [] O a) as Hst. rewrite Ha in Hst. apply Hst. cbn. intros H. by apply not_elem_of_nil in H.
Qed.

Lemma send_at_most_once_witness :
  let k := mkCall (PReturned Ok) [(O, Ok)] in
  length (List.filter (fun x : conn * Status => status_ok x.2) (answers k)) = 1%nat /\
  (length (List.filter (fun x : conn * Status => status_ok x.2) (answers k)) <= 1)%nat.
Proof.
  intros k. destruct (send_at_most_once ReconnectPolicy_default 0 connected_state k) as (_ & Hle & _);
    [apply (answered_reachable after_send); reflexivity|]. split; [reflexivity|exact Hle].
Defined.

Lemma recv_drops_nothing_witness :
  let k := mkCall (PReturned (RValue [Init.Byte.x41])) [(O, RValue [Init.Byte.x41])] in
  exists l, answers k = l ++ [(O, RValue [Init.Byte.x41])].
Proof.
  intros k. destruct (recv_drops_nothing ReconnectPolicy_default 0 connected_state k O [Init.Byte.x41]) as (_ & _ & l & Hl & _).
  - apply (answered_reachable after_recv). reflexivity.
  - cbn. left.
  - by exists l.
Defined.

(** Closed while a call waits. *)
Definition closed_state : sys :=
  mkSys (mkRC true false kConnecting true EmptyString None) WConnected [(kConnecting, "initial connect")] 1 [] (CLocked (Some O)) [].
Lemma closed_state_reachable : call_reachable after_send (fun st => st) ReconnectPolicy_default 0 (closed_state, call_start).
Proof.
  apply reachable_start. eapply rtc_r; [exact connected_state_reachable|]. by eapply s_close.
Qed.

