(* ===== verification/Programs.v ===== *)
(** * The programs over the library (examples/)

    The example programs the build makes (duct_echo_server, duct_echo_client,
    qos_test, shm_test, pipe_test) as interaction trees: the events are the calls
    of the library and the output, the leaf is the exit code of [main]. [run]
    gives a program its answers; [Network] runs two of them against each other. *)

From S2P Require Import Prelude Status Wire Options Address Dial.
From ITree Require Import ITree.

#[export] Instance itree_bind E : MBind (itree E) := fun A B k t => ITree.bind t k.
#[export] Instance itree_ret E : MRet (itree E) := fun A x => Ret x.

(** ** What a program does

    Each program has at most one listener and one pipe; a line of output is
    without its end of line, and every [send] and [recv] has the options [{}]. *)

Variant duct_event : Type -> Type :=
| EListen (address : string) : duct_event (Result unit)
| EAccept : duct_event (Result unit)
| EDial (address : string) (opt : DialOptions) : duct_event (Result unit)
| ESend (msg : list byte) : duct_event Status
| ERecv : duct_event (Result (list byte))
| EOut (line : string) : duct_event unit
| EErr (line : string) : duct_event unit
| ESleep (ms : Z) : duct_event unit.

Definition program : Type := list string -> itree duct_event Z.

Definition call {T} (e : duct_event T) : itree duct_event T := ITree.trigger e.
Definition out (line : string) : itree duct_event unit := call (EOut line).
Definition err (line : string) : itree duct_event unit := call (EErr line).

Definition text (bs : list byte) : string := String.string_of_list_byte bs.
Definition bytes_of (s : string) : list byte := String.list_byte_of_string s.

(** [argv[i]]. *)
Definition arg (argv : list string) (i : nat) : string := default EmptyString (argv !! i).

(** [static_cast<int>(code)] *)
Definition code_number (c : StatusCode) : Z :=
  match c with
  | kOk => 0
  | kInvalidArgument => 1
  | kNotSupported => 2
  | kIoError => 3
  | kTimeout => 4
  | kClosed => 5
  | kProtocolError => 6
  end.

(** What the echo programs say of a status. *)
Definition report (what : string) (s : Status) : string :=
  what +:+ to_string (code_number (code s)) +:+ " " +:+ message s.

(** [for (int i = first; i < first + n; ++i)], a body that answers false
    breaking out of it. *)
Fixpoint for_loop (n : nat) (i : Z) (body : Z -> itree duct_event bool) : itree duct_event unit :=
  match n with
  | O => mret tt
  | S n' => go ← body i; if go : bool then for_loop n' (i + 1) body else mret tt
  end.

(** src/examples/duct_echo_server.cc:29-40 [main, one turn of the loop]

    Whether the loop ends. *)
Definition echo_turn : itree duct_event (unit + unit) :=
  msg ← call ERecv;
  match msg with
  | RStatus s => err (report "recv: " s);; mret (inr tt)
  | RValue m =>
      st ← call (ESend m);
      if status_ok st then mret (inl tt)
      else err (report "send: " st);; mret (inr tt)
  end.

(** src/examples/duct_echo_server.cc:7-43 [main] *)
Definition duct_echo_server : program := fun argv =>
  if len argv <? 2 then err ("usage: " +:+ arg argv 0 +:+ " <address>");; mret 2
  else
    let address := arg argv 1 in
    lis ← call (EListen address);
    match lis with
    | RStatus s => err (report "listen failed: " s);; mret 1
    | RValue _ =>
        err ("listening on " +:+ address);;
        p ← call EAccept;
        match p with
        | RStatus s => err (report "accept failed: " s);; mret 1
        | RValue _ => ITree.iter (fun _ => echo_turn) tt;; mret 0
        end
    end.

(** src/examples/duct_echo_client.cc:6-36 [main] *)
Definition duct_echo_client : program := fun argv =>
  if len argv <? 3 then err ("usage: " +:+ arg argv 0 +:+ " <address> <message>");; mret 2
  else
    let address := arg argv 1 in
    let body := arg argv 2 in
    p ← call (EDial address DialOptions_default);
    match p with
    | RStatus s => err (report "dial failed: " s);; mret 1
    | RValue _ =>
        st ← call (ESend (bytes_of body));
        if negb (status_ok st) then err (report "send failed: " st);; mret 1
        else
          r ← call ERecv;
          match r with
          | RStatus s => err (report "recv failed: " s);; mret 1
          | RValue m => out (text m);; mret 0
          end
    end.

(** src/examples/qos_test.cc:19-47 [main, the server] *)
Definition qos_test_server : itree duct_event Z :=
  lis ← call (EListen "tcp://127.0.0.1:9001");
  match lis with
  | RStatus s => err ("listen failed: " +:+ message s);; mret 1
  | RValue _ =>
      out "Server listening on tcp://127.0.0.1:9001";;
      pipe ← call EAccept;
      match pipe with
      | RStatus s => err ("accept failed: " +:+ message s);; mret 1
      | RValue _ =>
          out "Client connected";;
          for_loop 50 0 (fun i =>
            msg ← call ERecv;
            match msg with
            | RStatus s => err ("recv failed: " +:+ message s);; mret false
            | RValue m =>
                out ("Received message " +:+ to_string i);;
                call (ESleep 100);;
                st ← call (ESend m);
                if status_ok st then mret true
                else err ("send failed: " +:+ message st);; mret false
            end);;
          mret 0
      end
  end.

(** src/examples/qos_test.cc:50-68 [main, the options of a client's mode]

    The options and the line the client begins with; [None] is a mode that is
    not known. *)
Definition qos_test_options (mode : string) : option (DialOptions * string) :=
  let opts policy :=
    mkDialOptions 5000
      (let q := QosOptions_default in
       mkQosOptions 1024 (rcv_hwm_bytes q) policy (ttl q) (linger q) (reliability q))
      (reconnect DialOptions_default) (on_state_change DialOptions_default) in
  if bool_decide (mode = "client-block") then Some (opts kBlock, "Client with BLOCK backpressure")
  else if bool_decide (mode = "client-drop") then Some (opts kDropNew, "Client with DROP_NEW backpressure")
  else if bool_decide (mode = "client-failfast") then Some (opts kFailFast, "Client with FAIL_FAST backpressure")
  else None.

(** src/examples/qos_test.cc:70-98 [main, a client] *)
Definition qos_test_client (opts : DialOptions) : itree duct_event Z :=
  pipe ← call (EDial "tcp://127.0.0.1:9001" opts);
  match pipe with
  | RStatus s => err ("dial failed: " +:+ message s);; mret 1
  | RValue _ =>
      for_loop 50 0 (fun i =>
        st ← call (ESend (bytes_of ("message " +:+ to_string i)));
        if negb (status_ok st) then
          err ("send " +:+ to_string i +:+ " failed: " +:+ message st);; mret false
        else out ("Sent message " +:+ to_string i);; mret true);;
      for_loop 50 0 (fun i =>
        echoed ← call ERecv;
        match echoed with
        | RStatus s => err ("recv " +:+ to_string i +:+ " failed: " +:+ message s);; mret false
        | RValue m => out ("Received echo: " +:+ text m);; mret true
        end);;
      mret 0
  end.

(** src/examples/qos_test.cc:8-102 [main] *)
Definition qos_test : program := fun argv =>
  if negb (len argv =? 2) then
    err ("usage: " +:+ arg argv 0 +:+ " <mode>");;
    err "modes: server, client-block, client-drop, client-failfast";; mret 2
  else
    let mode := arg argv 1 in
    if bool_decide (mode = "server") then qos_test_server
    else
      match qos_test_options mode with
      | None => err ("unknown mode: " +:+ mode);; mret 2
      | Some (opts, line) => out line;; qos_test_client opts
      end.

(** src/examples/shm_test.cc:18-53 [main, the server] *)
Definition shm_test_server (bus_name : string) : itree duct_event Z :=
  out ("Starting Windows shared memory server on bus: " +:+ bus_name);;
  lis ← call (EListen ("shm://" +:+ bus_name));
  match lis with
  | RStatus s => err ("listen failed: " +:+ message s);; mret 1
  | RValue _ =>
      out "Waiting for client connection...";;
      pipe ← call EAccept;
      match pipe with
      | RStatus s => err ("accept failed: " +:+ message s);; mret 1
      | RValue _ =>
          out "Client connected!";;
          for_loop 5 0 (fun _ =>
            msg ← call ERecv;
            match msg with
            | RStatus s => err ("recv failed: " +:+ message s);; mret false
            | RValue m =>
                out ("Server received: " +:+ text m);;
                st ← call (ESend m);
                if negb (status_ok st) then err ("send failed: " +:+ message st);; mret false
                else mret true
            end);;
          out "Server done.";;
          mret 0
      end
  end.

Definition client_message (i : Z) : string := "Message " +:+ to_string i +:+ " from client".

(** src/examples/shm_test.cc:55-93 [main, the client] *)
Definition shm_test_client (bus_name : string) : itree duct_event Z :=
  out ("Starting Windows shared memory client to bus: " +:+ bus_name);;
  call (ESleep 1000);;
  pipe ← call (EDial ("shm://" +:+ bus_name) DialOptions_default);
  match pipe with
  | RStatus s => err ("dial failed: " +:+ message s);; mret 1
  | RValue _ =>
      out "Connected to server!";;
      for_loop 5 0 (fun i =>
        let msg_str := client_message i in
        st ← call (ESend (bytes_of msg_str));
        if negb (status_ok st) then err ("send failed: " +:+ message st);; mret false
        else out ("Client sent: " +:+ msg_str);; mret true);;
      for_loop 5 0 (fun _ =>
        echoed ← call ERecv;
        match echoed with
        | RStatus s => err ("recv failed: " +:+ message s);; mret false
        | RValue m => out ("Client received echo: " +:+ text m);; mret true
        end);;
      out "Client done.";;
      mret 0
  end.

(** src/examples/shm_test.cc:7-100 [main] *)
Definition shm_test : program := fun argv =>
  if negb (len argv =? 3) then
    err ("usage: " +:+ arg argv 0 +:+ " <mode> <bus_name>");;
    err "modes: server, client";; mret 2
  else
    let mode := arg argv 1 in
    let bus_name := arg argv 2 in
    if bool_decide (mode = "server") then shm_test_server bus_name
    else if bool_decide (mode = "client") then shm_test_client bus_name
    else err ("unknown mode: " +:+ mode);; mret 2.

(** src/examples/pipe_test.cc:18-56 [main, the server] *)
Definition pipe_test_server (pipe_name : string) : itree duct_event Z :=
  out ("Starting Windows named pipe server: " +:+ pipe_name);;
  lis ← call (EListen ("pipe://" +:+ pipe_name));
  match lis with
  | RStatus s => err ("listen failed: " +:+ message s);; mret 1
  | RValue _ =>
      out "Waiting for client connection...";;
      pipe ← call EAccept;
      match pipe with
      | RStatus s => err ("accept failed: " +:+ message s);; mret 1
      | RValue _ =>
          out "Client connected!";;
          for_loop 10 0 (fun _ =>
            msg ← call ERecv;
            match msg with
            | RStatus s => err ("recv failed: " +:+ message s);; mret false
            | RValue m =>
                let received := text m in
                out ("Server received: " +:+ received);;
                let echo_msg := "Echo: " +:+ received in
                st ← call (ESend (bytes_of echo_msg));
                if negb (status_ok st) then err ("send failed: " +:+ message st);; mret false
                else out ("Server sent: " +:+ echo_msg);; mret true
            end);;
          out "Server done.";;
          mret 0
      end
  end.

(** src/examples/pipe_test.cc:58-97 [main, the client] *)
Definition pipe_test_client (pipe_name : string) : itree duct_event Z :=
  out ("Starting Windows named pipe client to: " +:+ pipe_name);;
  call (ESleep 500);;
  pipe ← call (EDial ("pipe://" +:+ pipe_name) DialOptions_default);
  match pipe with
  | RStatus s => err ("dial failed: " +:+ message s);; mret 1
  | RValue _ =>
      out "Connected to server!";;
      for_loop 10 0 (fun i =>
        let msg_str := client_message i in
        st ← call (ESend (bytes_of msg_str));
        if negb (status_ok st) then err ("send failed: " +:+ message st);; mret false
        else
          out ("Client sent: " +:+ msg_str);;
          echoed ← call ERecv;
          match echoed with
          | RStatus s => err ("recv failed: " +:+ message s);; mret false
          | RValue m =>
              out ("Client received: " +:+ text m);;
              call (ESleep 100);;
              mret true
          end);;
      out "Client done.";;
      mret 0
  end.

(** src/examples/pipe_test.cc:7-104 [main] *)
Definition pipe_test : program := fun argv =>
  if negb (len argv =? 3) then
    err ("usage: " +:+ arg argv 0 +:+ " <mode> <pipe_name>");;
    err "modes: server, client";; mret 2
  else
    let mode := arg argv 1 in
    let pipe_name := arg argv 2 in
    if bool_decide (mode = "server") then pipe_test_server pipe_name
    else if bool_decide (mode = "client") then pipe_test_client pipe_name
    else err ("unknown mode: " +:+ mode);; mret 2.

(** ** A program and what it is answered

    [run] gives a program the answers of a handler with a state; the result is
    the state, the lines it wrote and its exit code, [None] when [fuel] nodes are
    not enough or the handler does not answer. *)

Inductive written := ToOut (line : string) | ToErr (line : string).

Section run.
Context {W : Type} (listens dials : string -> Status).
Context (accepts : W -> option (W * Result unit)).
Context (sends : W -> list byte -> option (W * Status)) (recvs : W -> option (W * Result (list byte))).

Definition as_result (s : Status) : Result unit := if status_ok s then RValue tt else RStatus s.

Definition answer {T} (e : duct_event T) (w : W) : option (W * list written * T) :=
  match e with
  | EListen a => Some (w, [], as_result (listens a))
  | EAccept => '(w, r) ← accepts w; Some (w, [], r)
  | EDial a _ => Some (w, [], as_result (dials a))
  | ESend m => '(w, st) ← sends w m; Some (w, [], st)
  | ERecv => '(w, r) ← recvs w; Some (w, [], r)
  | EOut line => Some (w, [ToOut line], tt)
  | EErr line => Some (w, [ToErr line], tt)
  | ESleep _ => Some (w, [], tt)
  end.

Fixpoint run (fuel : nat) (t : itree duct_event Z) (w : W) : option (W * list written * Z) :=
  match fuel with
  | O => None
  | S fuel' =>
      match observe t with
      | RetF r => Some (w, [], r)
      | TauF t' => run fuel' t' w
      | VisF e k =>
          '(w, ls, x) ← answer e w;
          '(w, ls', r) ← run fuel' (k x) w;
          Some (w, ls ++ ls', r)
      end
  end.

Lemma run_call fuel t w {T} (e : duct_event T) k w' ls x w'' ls' lines r :
  observe t = VisF e k -> answer e w = Some (w', ls, x) -> lines = ls ++ ls' ->
  run fuel (k x) w' = Some (w'', ls', r) -> run (S fuel) t w = Some (w'', lines, r).
Proof. intros Ht Ha -> Hr. cbn [run]. rewrite Ht, Ha. cbn. by rewrite Hr. Qed.

Lemma run_returns fuel t w r : observe t = RetF r -> run (S fuel) t w = Some (w, [], r).
Proof. intros Ht. cbn [run]. by rewrite Ht. Qed.

End run.

Lemma text_bytes_of s : text (bytes_of s) = s.
Proof. apply String.string_of_list_byte_of_string. Qed.

(** What the library answers, as [listens] and [dials]. *)
Definition listen_status {W L} (T : Transports W L) (w : W) (address : string) : Status :=
  match Dial.listen T address ListenOptions_default w with Some (RStatus e, _) => e | _ => Ok end.
Definition dial_status {W L} (T : Transports W L) (w : W) (address : string) : Status :=
  match Dial.dial T address DialOptions_default w with Some (RStatus e, _) => e | _ => Ok end.

(** The first node of a tree, and a whole run of two. *)
Ltac observe_head :=
  match goal with |- ?l = _ => let l' := eval lazy head in l in exact (@eq_refl _ l') end.

(** ** Theorems *)

(** On POSIX, where the library has no named pipes, pipe_test says so and exits
    with 1 in either mode, having sent and received nothing: [listen] and [dial]
    are those of the POSIX build ([Dial.posix]) in any state of the system. *)
Theorem pipe_test_posix {H : HostOrder} (a : posix_answers) (s : posix_system) {W} accepts sends recvs (w : W)
    pipe_name argv0 :
  pipe_name <> EmptyString ->
  run (listen_status (posix a) s) (dial_status (posix a) s) accepts sends recvs 20
      (pipe_test [argv0; "server"; pipe_name]) w =
    Some (w, [ToOut ("Starting Windows named pipe server: " +:+ pipe_name);
              ToErr "listen failed: listen scheme not supported yet: pipe"], 1) /\
  run (listen_status (posix a) s) (dial_status (posix a) s) accepts sends recvs 20
      (pipe_test [argv0; "client"; pipe_name]) w =
    Some (w, [ToOut ("Starting Windows named pipe client to: " +:+ pipe_name);
              ToErr "dial failed: dial scheme not supported yet: pipe"], 1).
Proof.
  intros Hn.
  assert (Hl : listen_status (posix a) s ("pipe://" +:+ pipe_name) =
               not_supported "listen scheme not supported yet: pipe").
  { unfold listen_status, listen. change ("pipe://" +:+ pipe_name) with ("pipe" +:+ "://" +:+ pipe_name).
    by rewrite parse_named_url by auto. }
  assert (Hd : dial_status (posix a) s ("pipe://" +:+ pipe_name) =
               not_supported "dial scheme not supported yet: pipe").
  { unfold dial_status, dial. change ("pipe://" +:+ pipe_name) with ("pipe" +:+ "://" +:+ pipe_name).
    by rewrite parse_named_url by auto. }
  split.
  - eapply run_call; [observe_head|reflexivity|reflexivity|].
    eapply run_call; [observe_head|exact (f_equal (fun st => Some (w, [], as_result st)) Hl)|reflexivity|].
    eapply run_call; [observe_head|reflexivity|reflexivity|].
    apply run_returns. observe_head.
  - eapply run_call; [observe_head|reflexivity|reflexivity|].
    eapply run_call; [observe_head|reflexivity|reflexivity|].
    eapply run_call; [observe_head|exact (f_equal (fun st => Some (w, [], as_result st)) Hd)|reflexivity|].
    eapply run_call; [observe_head|reflexivity|reflexivity|].
    apply run_returns. observe_head.
Qed.

(** ** Witnesses *)

#[local] Instance any_order : HostOrder := true.

Lemma pipe_test_posix_witness :
  (run (listen_status (posix no_resolver) idle_system) (dial_status (posix no_resolver) idle_system)
     (fun _ => None) (fun _ _ => None) (fun _ => None) 20 (pipe_test ["pipe_test"; "server"; "mypipe"]) tt) =
  Some (tt, [ToOut "Starting Windows named pipe server: mypipe";
             ToErr "listen failed: listen scheme not supported yet: pipe"], 1).
Proof.
  exact (proj1 (pipe_test_posix no_resolver idle_system (fun _ => None) (fun _ _ => None) (fun _ => None) tt
    "mypipe" "pipe_test" ltac:(discriminate))).
Defined.
