(* ===== verification/Runs.v ===== *)
(** * Runs of a step relation

    What holds of the runs of any system: two steps that join make one run stand
    for all ([run_to_end]), and a system whose steps are unseen, or are a step of
    another one, has runs as short, and ends where that one ends ([run_seen],
    [refined_runs]). [Network] uses the first for two programs, [RingNetwork] and
    [StreamNetwork] the second for what a connection is made of. *)

From S2P Require Import Prelude.

(** ** Steps that join *)

Section joining.
Context {A} (step : relation A).
Hypothesis diamond : forall s a b, step s a -> step s b -> a = b \/ exists c, step a c /\ step b c.

(** A step towards anywhere is a step towards the end. *)
Lemma step_to_end n s t a : nsteps step (S n) s t -> nf step t -> step s a -> nsteps step n a t.
Proof.
  revert s a. induction n as [|n IH]; intros s a Hst Hnf Ha.
  all: inversion Hst as [|? ? b ? Hb Hbt]; subst; destruct (diamond s a b) as [->|(c & Hac & Hbc)]; [done..|done|].
  - inversion Hbt; subst. destruct Hnf. by exists c.
  - eapply nsteps_l; [done|]. by eapply IH.
Qed.

Lemma run_to_end m n s t u :
  nsteps step n s t -> nf step t -> nsteps step m s u -> (m <= n)%nat /\ nsteps step (n - m) u t.
Proof.
  revert n s. induction m as [|m IH]; intros n s Hn Hnf Hm.
  - inversion Hm; subst. rewrite Nat.sub_0_r. split; [lia|done].
  - inversion Hm as [|? ? a ? Ha Hau]; subst. destruct n as [|n].
    + inversion Hn; subst. destruct Hnf. by exists a.
    + destruct (IH n a) as [? ?]; [by eapply step_to_end|done..|]. split; [lia|done].
Qed.

End joining.

(** ** Runs that end *)

(** When no run from [s] has more than [n] steps, each can be continued to its
    end. *)
Lemma bounded_runs_end {A} (step : relation A) (ok : A -> Prop) n s :
  (forall s s', ok s -> step s s' -> ok s') -> (forall s, ok s -> nf step s \/ exists s', step s s') -> ok s ->
  (forall m u, nsteps step m s u -> (m <= n)%nat) -> exists v, rtc step s v /\ nf step v.
Proof.
  intros Hkeep Hdec. revert s. induction n as [|n IH]; intros s Hok Hb; destruct (Hdec s Hok) as [Hnf|[s' Hst]].
  1,3: exists s; split; [apply rtc_refl|done].
  - specialize (Hb 1%nat s' (nsteps_once _ _ Hst)). lia.
  - destruct (IH s') as (v & Hv & Hnf); [by eapply Hkeep|..].
    + intros m u Hm. specialize (Hb (S m) u (nsteps_l _ _ _ _ _ Hst Hm)). lia.
    + exists v. split; [by eapply rtc_l|done].
Qed.

(** ** Steps seen as those of another system *)

Section seen.
Context {C A} (cstep : relation C) (astep : relation A) (ok : C -> Prop) (see : C -> A).
Context (left_of : C -> nat) (more : nat).

(** A step is unseen and leaves less to do until the next that is seen, or is one
    of the other system. *)
Definition step_seen : Prop := forall s s',
  ok s -> cstep s s' ->
  ok s' /\ ((see s' = see s /\ (left_of s' < left_of s)%nat) \/
            (astep (see s) (see s') /\ (left_of s' <= left_of s + more)%nat)).

Hypothesis seen_step : step_seen.

Lemma run_seen m s u :
  ok s -> nsteps cstep m s u ->
  ok u /\ exists j, nsteps astep j (see s) (see u) /\ (m + left_of u <= left_of s + S more * j)%nat.
Proof.
  intros Hs Hm. revert Hs. induction Hm as [s|m s s' u Hst _ IH]; intros Hs.
  - split; [done|]. exists 0%nat. split; [constructor|lia].
  - destruct (seen_step _ _ Hs Hst) as [Hs' Hseen]. destruct (IH Hs') as (Hu & j & Hj & Hl).
    split; [done|]. destruct Hseen as [[Heq ?]|[Hone ?]].
    + exists j. rewrite <- Heq. split; [done|lia].
    + exists (S j). split; [by eapply nsteps_l|lia].
Qed.

(** How long the runs are when those of the other system are no longer than
    [n]. *)
Definition run_bound (n : nat) (s : C) : nat := left_of s + S more * n.

Lemma refined_runs n s m u :
  ok s -> (forall j a, nsteps astep j (see s) a -> (j <= n)%nat) -> nsteps cstep m s u -> (m <= run_bound n s)%nat.
Proof.
  intros Hs Hn Hm. destruct (run_seen _ _ _ Hs Hm) as (_ & j & Hj & Hl). unfold run_bound.
  specialize (Hn _ _ Hj). nia.
Qed.

Lemma refined_runs_end n s m u :
  ok s -> (forall j a, nsteps astep j (see s) a -> (j <= n)%nat) ->
  (forall s, ok s -> nf cstep s \/ exists s', cstep s s') -> nsteps cstep m s u -> exists v, rtc cstep u v /\ nf cstep v.
Proof.
  intros Hs Hn Hdec Hm. apply (bounded_runs_end _ ok (run_bound n s)); [|done|by eapply run_seen|].
  { intros s1 s2 H1 H12. by destruct (seen_step _ _ H1 H12). }
  intros m' u' Hm'.
  pose proof (refined_runs _ _ _ _ Hs Hn (nsteps_trans _ _ _ _ _ Hm Hm')). lia.
Qed.

End seen.
