(* ===== verification/Network.v ===== *)
(** * Two programs over a connection (examples/)

    Two of the programs of [Programs] run against each other over a connection
    that keeps order and holds a number of messages each way; a process is a
    sequence of calls, and the steps of the two interleave in every way. The moves
    of the two processes commute, so one run of two programs stands for all of
    them ([one_run_is_all]). [Duplex] puts what a connection is made of in its
    place: the rings of shared memory ([RingNetwork]) or two streams of bytes
    ([StreamNetwork]). *)

From S2P Require Import Prelude Status Wire Options Address Dial Programs Runs.
From ITree Require Import ITree.

(** ** Two programs over a connection

    A server and a client. [listen] takes one address; a [dial] of a scheme that
    can be dialled waits for its listener, which the programs' own delays see to. *)

(** A connection: whether it has room for a message beside those it holds one
    way, the longest it takes and what [send] answers to a longer one, and what
    [recv] answers when there is no message and the other process has returned,
    its pipe closed with it. The streams tell the end of a connection; shared
    memory does not, and [lost] is [None]. A message to a process that has returned
    is kept, whatever the transport; the programs below send none. *)
Record connection := mkConnection {
  room : list (list byte) -> list byte -> bool;
  limit : nat;
  refusal : Status;
  lost : option Status;
}.

(** Room for a number of messages, and for any. *)
Definition holds (n : nat) (q : list (list byte)) (_ : list byte) : bool := bool_decide (length q < n)%nat.
Definition endless (_ : list (list byte)) (_ : list byte) : bool := true.

Definition set_room (r : list (list byte) -> list byte -> bool) (conn : connection) : connection :=
  mkConnection r (limit conn) (refusal conn) (lost conn).

(** What is received leaves room for no less. *)
Class KeepsRoom (conn : connection) : Prop := {
  room_after m0 q m : room conn (m0 :: q) m = true -> room conn q m = true;
}.

#[export] Instance holds_keeps n limit refusal lost : KeepsRoom (mkConnection (holds n) limit refusal lost).
Proof. split. intros m0 q m [=Hr%bool_decide_eq_true_1]. apply bool_decide_eq_true_2. cbn in Hr. lia. Qed.
#[export] Instance endless_keeps conn : KeepsRoom (set_room endless conn).
Proof. done. Qed.

Inductive role := AServer | AClient.

Record proc := mkProc { prog : itree duct_event Z; wrote : list written }.

Record net := mkNet {
  listening : option string;
  dialled : nat;
  to_server : list (list byte);
  to_client : list (list byte);
}.

Record sys := mkSys { server : proc; client : proc; link : net }.

Definition exit_code (p : proc) : option Z :=
  match observe (prog p) with RetF r => Some r | _ => None end.
Definition exited (p : proc) : bool := match exit_code p with Some _ => true | None => false end.

Definition inbox (ro : role) (n : net) : list (list byte) :=
  match ro with AServer => to_server n | AClient => to_client n end.
Definition outbox (ro : role) (n : net) : list (list byte) :=
  match ro with AServer => to_client n | AClient => to_server n end.
Definition set_inbox (ro : role) (q : list (list byte)) (n : net) : net :=
  match ro with
  | AServer => mkNet (listening n) (dialled n) q (to_client n)
  | AClient => mkNet (listening n) (dialled n) (to_server n) q
  end.
Definition set_outbox (ro : role) (q : list (list byte)) (n : net) : net :=
  match ro with
  | AServer => mkNet (listening n) (dialled n) (to_server n) q
  | AClient => mkNet (listening n) (dialled n) q (to_client n)
  end.

Section system.
Context (conn : connection) (listens dials : string -> Status).

(** What one call does to the connection, what it writes and answers; [None]
    while it has to wait. *)
Definition perform (ro : role) (peer_gone : bool) {T} (e : duct_event T) (n : net)
    : option (net * list written * T) :=
  match e with
  | EListen a =>
      match ro, listening n with
      | AServer, None =>
          if status_ok (listens a) then Some (mkNet (Some a) (dialled n) (to_server n) (to_client n), [], RValue tt)
          else Some (n, [], RStatus (listens a))
      | _, _ => None
      end
  | EAccept =>
      match ro, dialled n with
      | AServer, S d => Some (mkNet (listening n) d (to_server n) (to_client n), [], RValue tt)
      | _, _ => None
      end
  | EDial a _ =>
      match ro with
      | AServer => None
      | AClient =>
          if status_ok (dials a) then
            if bool_decide (listening n = Some a) then
              Some (mkNet (listening n) (S (dialled n)) (to_server n) (to_client n), [], RValue tt)
            else None
          else Some (n, [], RStatus (dials a))
      end
  | ESend m =>
      if bool_decide (length m <= limit conn)%nat then
        if room conn (outbox ro n) m then
          Some (set_outbox ro (outbox ro n ++ [m]) n, [], Ok)
        else None
      else Some (n, [], refusal conn)
  | ERecv =>
      match inbox ro n with
      | m :: q => Some (set_inbox ro q n, [], RValue m)
      | [] => if peer_gone then st ← lost conn; Some (n, [], RStatus st) else None
      end
  | EOut line => Some (n, [ToOut line], tt)
  | EErr line => Some (n, [ToErr line], tt)
  | ESleep _ => Some (n, [], tt)
  end.

Definition advance (ro : role) (peer_gone : bool) (p : proc) (n : net) : option (proc * net) :=
  match observe (prog p) with
  | RetF _ => None
  | TauF t => Some (mkProc t (wrote p), n)
  | VisF e k =>
      '(n, ls, x) ← perform ro peer_gone e n;
      Some (mkProc (k x) (wrote p ++ ls), n)
  end.

Definition move (ro : role) (s : sys) : option sys :=
  match ro with
  | AServer => '(p, n) ← advance AServer (exited (client s)) (server s) (link s); Some (mkSys p (client s) n)
  | AClient => '(p, n) ← advance AClient (exited (server s)) (client s) (link s); Some (mkSys (server s) p n)
  end.

Definition sys_step (s s' : sys) : Prop := exists ro, move ro s = Some s'.

(** One schedule: the server goes first while it can, [n] steps at most. *)
Fixpoint schedule (n : nat) (s : sys) : nat * sys :=
  match n with
  | O => (O, s)
  | S n' =>
      match move AServer s with
      | Some s' => let '(k, t) := schedule n' s' in (S k, t)
      | None =>
          match move AClient s with
          | Some s' => let '(k, t) := schedule n' s' in (S k, t)
          | None => (O, s)
          end
      end
  end.

(** Whether the other process has returned only matters when it has. *)
Lemma perform_peer ro g {T} (e : duct_event T) n r :
  perform ro false e n = Some r -> perform ro g e n = Some r.
Proof. destruct e; cbn; try done. by destruct (inbox ro n). Qed.

Lemma advance_runs ro g p n r : advance ro g p n = Some r -> exited p = false.
Proof. unfold advance, exited, exit_code. by destruct (observe (prog p)). Qed.

End system.

(** Two calls, one of each process, commute, even with more room for one. *)
Lemma perform_commutes conn1 conn2 listens dials {T U} g h (e : duct_event T) (f : duct_event U) n n1 ls1 x1 n2 ls2 x2 :
  KeepsRoom conn1 -> KeepsRoom conn2 ->
  perform conn1 listens dials AServer false e n = Some (n1, ls1, x1) ->
  perform conn2 listens dials AClient false f n = Some (n2, ls2, x2) ->
  exists n3, perform conn2 listens dials AClient h f n1 = Some (n3, ls2, x2) /\
             perform conn1 listens dials AServer g e n2 = Some (n3, ls1, x1).
Proof.
  intros Hr1 Hr2 H1 H2. destruct n as [l d ts tc].
  destruct e; cbn in H1; try discriminate; destruct f; cbn in H2; try discriminate;
    repeat case_match; simplify_eq/=; repeat case_bool_decide; simplify_eq/=;
    repeat match goal with
    | H : status_ok _ = _ |- _ => rewrite H; clear H
    | H : room _ (_ :: _) _ = true |- _ => rewrite (room_after _ _ _ H); clear H
    | H : room _ _ _ = true |- _ => rewrite H; clear H
    end; eauto.
Qed.

(** The moves of the two processes commute. *)
Lemma moves_commute conn1 conn2 listens dials s a b :
  KeepsRoom conn1 -> KeepsRoom conn2 ->
  move conn1 listens dials AServer s = Some a -> move conn2 listens dials AClient s = Some b ->
  exists c, move conn2 listens dials AClient a = Some c /\ move conn1 listens dials AServer b = Some c.
Proof.
  intros Hr1 Hr2. destruct s as [p q n]. cbn [move server client link]. intros Ha Hb.
  destruct (advance conn1 listens dials AServer (exited q) p n) as [[p1 n1]|] eqn:E1; [|done]. injection Ha as <-.
  destruct (advance conn2 listens dials AClient (exited p) q n) as [[q1 n2]|] eqn:E2; [|done]. injection Hb as <-.
  assert (Hp : exited p = false) by by eapply advance_runs.
  assert (Hq : exited q = false) by by eapply advance_runs.
  rewrite Hp in E2. rewrite Hq in E1. cbn [server client link].
  unfold advance in E1, E2 |- *.
  destruct (observe (prog p)) as [|t|T e k] eqn:Op; [done| |];
    destruct (observe (prog q)) as [|u|U f h] eqn:Oq; try done; cbn in E1, E2.
  - simplify_eq/=. eauto.
  - injection E1 as <- <-. destruct (perform _ _ _ AClient false f n) as [[[n' ls] x]|] eqn:P2; simplify_eq/=.
    apply (perform_peer _ _ _ _ (exited (mkProc t (wrote p)))) in P2 as ->. cbn. eauto.
  - injection E2 as <- <-. destruct (perform _ _ _ AServer false e n) as [[[n' ls] x]|] eqn:P1; simplify_eq/=.
    apply (perform_peer _ _ _ _ (exited (mkProc u (wrote q)))) in P1 as ->. cbn. eauto.
  - destruct (perform _ _ _ AServer false e n) as [[[n' ls] x]|] eqn:P1; simplify_eq/=.
    destruct (perform _ _ _ AClient false f n) as [[[n'' ls'] y]|] eqn:P2; simplify_eq/=.
    destruct (perform_commutes conn1 conn2 listens dials (exited (mkProc (h y) (wrote q ++ ls')))
                (exited (mkProc (k x) (wrote p ++ ls))) e f _ _ _ _ _ _ _ Hr1 Hr2 P1 P2) as (n3 & H3 & H4).
    rewrite H3, H4. cbn. eauto.
Qed.

(** The calls that are not of a pipe leave the messages alone, and are the same
    over any connection. *)
Definition of_pipe {T} (e : duct_event T) : bool := match e with ESend _ | ERecv => true | _ => false end.

Lemma perform_other conn conn' listens dials ro g {T} (e : duct_event T) l d ts tc :
  of_pipe e = false ->
  perform conn listens dials ro g e (mkNet l d ts tc) =
  '(n, ls, x) ← perform conn' listens dials ro false e (mkNet l d [] []);
  Some (mkNet (listening n) (dialled n) ts tc, ls, x).
Proof.
  intros He. destruct e; try done; cbn; repeat case_match; simplify_eq/=; repeat case_match; simplify_eq/=; done.
Qed.

Definition other (ro : role) : role := match ro with AServer => AClient | AClient => AServer end.

Section runs.
Context (conn : connection) {Hroom : KeepsRoom conn} (listens dials : string -> Status).
Abbreviation move := (move conn listens dials).
Abbreviation sys_step := (sys_step conn listens dials).
Abbreviation schedule := (schedule conn listens dials).

Lemma step_diamond s a b : sys_step s a -> sys_step s b -> a = b \/ exists c, sys_step a c /\ sys_step b c.
Proof.
  intros [r1 H1] [r2 H2]. destruct r1, r2; simplify_eq; [by left| | |by left]; right.
  - destruct (moves_commute conn conn listens dials s a b) as (c & ? & ?); [done..|]. exists c. split; eexists; done.
  - destruct (moves_commute conn conn listens dials s b a) as (c & ? & ?); [done..|]. exists c. split; eexists; done.
Qed.

Definition run_to_end := Runs.run_to_end sys_step step_diamond.

Lemma schedule_steps n s k t : schedule n s = (k, t) -> nsteps sys_step k s t.
Proof.
  revert s k t. induction n as [|n IH]; intros s k t; cbn [schedule]; [intros [= <- <-]; constructor|].
  destruct (move AServer s) as [s'|] eqn:E1; [|destruct (move AClient s) as [s'|] eqn:E2].
  3: intros [= <- <-]; constructor.
  all: destruct (schedule n s') as [k' t'] eqn:E; intros [= <- <-]; eapply nsteps_l; [eexists; done|by apply IH].
Qed.

Lemma schedule_run n s : nsteps sys_step (schedule n s).1 s (schedule n s).2.
Proof. apply (schedule_steps n), surjective_pairing. Qed.

Lemma returned_final s : exited (server s) = true -> exited (client s) = true -> nf sys_step s.
Proof.
  intros Hp Hq [s' [[] H]]; cbn in H.
  - destruct (advance _ _ _ AServer _ _ _) as [[? ?]|] eqn:E; [|done]. apply advance_runs in E. congruence.
  - destruct (advance _ _ _ AClient _ _ _) as [[? ?]|] eqn:E; [|done]. apply advance_runs in E. congruence.
Qed.

Lemma stopped s : move AServer s = None -> move AClient s = None -> nf sys_step s.
Proof. intros H1 H2 [s' [[] ?]]; congruence. Qed.

End runs.

(** Two programs that have just been started. *)
Definition started (p q : itree duct_event Z) : sys :=
  mkSys (mkProc p []) (mkProc q []) (mkNet None 0 [] []).

(** Every run from [s] is finite and, whatever the schedule, ends in one state,
    from which neither process moves. *)
Definition comes_to (conn : connection) (listens dials : string -> Status) (s t : sys) : Prop :=
  nf (sys_step conn listens dials) t /\
  exists n, forall m u, nsteps (sys_step conn listens dials) m s u ->
    (m <= n)%nat /\ nsteps (sys_step conn listens dials) (n - m) u t.

Lemma run_comes_to conn {Hroom : KeepsRoom conn} listens dials n s t :
  nsteps (sys_step conn listens dials) n s t ->
  nf (sys_step conn listens dials) t -> comes_to conn listens dials s t.
Proof. intros Hn Hnf. split; [done|]. exists n. intros m u. by apply run_to_end. Qed.

Lemma schedule_comes_to conn {Hroom : KeepsRoom conn} listens dials n s :
  let t := (schedule conn listens dials n s).2 in
  move conn listens dials AServer t = None -> move conn listens dials AClient t = None ->
  comes_to conn listens dials s t.
Proof. intros t Hp Hq. eapply (run_comes_to conn); [apply schedule_run|by apply stopped]. Qed.

(** The state after the dial a client is at. *)
Definition dial_done (k : Result unit -> itree duct_event Z) (s : sys) : sys :=
  mkSys (server s) (mkProc (k (RValue tt)) (wrote (client s) ++ []))
    (mkNet (listening (link s)) (S (dialled (link s))) (to_server (link s)) (to_client (link s))).

Lemma dial_move conn listens dials s a opt k :
  observe (prog (client s)) = VisF (EDial a opt) k -> listening (link s) = Some a -> status_ok (dials a) = true ->
  sys_step conn listens dials s (dial_done k s).
Proof.
  intros Hk Hl Hd. exists AClient. cbn [move]. unfold advance. rewrite Hk. cbn.
  rewrite Hd, bool_decide_eq_true_2 by done. done.
Qed.

(** A process, and the state after the send it is at. *)
Definition side (ro : role) (s : sys) : proc := match ro with AServer => server s | AClient => client s end.
Definition set_side (ro : role) (p : proc) (s : sys) : sys :=
  match ro with AServer => mkSys p (client s) (link s) | AClient => mkSys (server s) p (link s) end.
Definition set_link (n : net) (s : sys) : sys := mkSys (server s) (client s) n.

Definition send_done (ro : role) (st : Status) (ms : list (list byte)) (k : Status -> itree duct_event Z) (s : sys)
    : sys :=
  set_side ro (mkProc (k st) (wrote (side ro s) ++ [])) (set_link (set_outbox ro (outbox ro (link s) ++ ms) (link s)) s).

Lemma send_move conn listens dials ro s m k :
  observe (prog (side ro s)) = VisF (ESend m) k -> (length m <= limit conn)%nat ->
  room conn (outbox ro (link s)) m = true ->
  sys_step conn listens dials s (send_done ro Ok [m] k s).
Proof.
  intros Hk Hl Hc. exists ro. destruct ro; cbn [side] in Hk; cbn [move]; unfold advance; rewrite Hk; cbn [perform];
    by rewrite bool_decide_eq_true_2, Hc by done.
Qed.

Lemma refused_move conn listens dials ro s m k :
  observe (prog (side ro s)) = VisF (ESend m) k -> ~ (length m <= limit conn)%nat ->
  sys_step conn listens dials s (send_done ro (refusal conn) [] k s).
Proof.
  intros Hk Hl. exists ro. destruct s as [p q [l d ts tc]].
  destruct ro; cbn [side server client] in Hk; cbn [move server client link]; unfold advance; rewrite Hk;
    cbn [perform]; rewrite bool_decide_eq_false_2 by done; unfold send_done; cbn; by rewrite !app_nil_r.
Qed.

(** Where a run has come is where the rest of it comes. *)
Lemma after_step conn {Hroom : KeepsRoom conn} listens dials s s' t :
  sys_step conn listens dials s s' -> comes_to conn listens dials s' t -> comes_to conn listens dials s t.
Proof.
  intros Hs [Hnf [n Hn]]. destruct (Hn 0%nat s' (nsteps_O _ _)) as [_ Hrun]. rewrite Nat.sub_0_r in Hrun.
  apply (run_comes_to conn _ _ (S n)); [by eapply nsteps_l|done].
Qed.

Lemma after_schedule conn {Hroom : KeepsRoom conn} listens dials n s t :
  comes_to conn listens dials (schedule conn listens dials n s).2 t -> comes_to conn listens dials s t.
Proof.
  intros [Hnf [m Hm]]. destruct (Hm 0%nat _ (nsteps_O _ _)) as [_ Hrun]. rewrite Nat.sub_0_r in Hrun.
  eapply (run_comes_to conn); [eapply nsteps_trans; [apply schedule_run|exact Hrun]|done].
Qed.

(** A process at a call of [send], of [recv]. *)
Definition in_send (p : proc) : Prop :=
  match observe (prog p) with VisF (ESend _) _ => True | _ => False end.
Definition in_recv (p : proc) : Prop :=
  match observe (prog p) with VisF ERecv _ => True | _ => False end.

Lemma exited_not_sending p : exited p = true -> ~ in_send p.
Proof. unfold exited, exit_code, in_send. destruct (observe (prog p)); [by intros _ []|done..]. Qed.

(** ** More room

    With more room the same is reached, where the two do not end in a [send] that
    waits for it. *)

Section more_room.
Context (conn : connection) (r : list (list byte) -> list byte -> bool) (listens dials : string -> Status).
Context {Hroom : KeepsRoom conn} {Hroom' : KeepsRoom (set_room r conn)}.
Hypothesis wider : forall q m, room conn q m = true -> r q m = true.
Abbreviation conn' := (set_room r conn).

Lemma move_wider ro s s' : move conn listens dials ro s = Some s' -> move conn' listens dials ro s = Some s'.
Proof.
  assert (Hadv : forall ro g p n x, advance conn listens dials ro g p n = Some x ->
                                    advance conn' listens dials ro g p n = Some x).
  { clear -wider. intros ro g p n x. unfold advance. destruct (observe (prog p)) as [|t|T e k]; [done..|].
    intros Hx. enough (forall y, perform conn listens dials ro g e n = Some y ->
                                 perform conn' listens dials ro g e n = Some y) as Hp.
    { destruct (perform conn listens dials ro g e n) as [y|] eqn:E; [|done]. by rewrite (Hp y). }
    clear Hx. intros y. destruct e; try done. cbn. case_bool_decide; [|done].
    destruct (room conn _ _) eqn:E; [|done]. by rewrite (wider _ _ E). }
  destruct ro; cbn [move].
  - destruct (advance conn _ _ _ _ _ _) as [y|] eqn:E; [|done]. by rewrite (Hadv _ _ _ _ _ E).
  - destruct (advance conn _ _ _ _ _ _) as [y|] eqn:E; [|done]. by rewrite (Hadv _ _ _ _ _ E).
Qed.

Lemma advance_not_sending ro g p n :
  ~ in_send p -> advance conn' listens dials ro g p n = advance conn listens dials ro g p n.
Proof. unfold in_send, advance. destruct (observe (prog p)) as [|t|T e k]; [done..|]. by destruct e. Qed.

Lemma nf_wider t :
  ~ in_send (server t) -> ~ in_send (client t) ->
  nf (sys_step conn listens dials) t -> nf (sys_step conn' listens dials) t.
Proof.
  intros Hs Hc Hnf [s' [ro Hm]]. destruct Hnf. exists s', ro. destruct ro; cbn [move] in *; by rewrite advance_not_sending in Hm.
Qed.

Lemma comes_to_wider s t :
  comes_to conn listens dials s t -> ~ in_send (server t) -> ~ in_send (client t) -> comes_to conn' listens dials s t.
Proof.
  intros [Hnf [n Hn]] Hs Hc. destruct (Hn 0%nat s (nsteps_O _ _)) as [_ Hrun]. rewrite Nat.sub_0_r in Hrun.
  apply (run_comes_to conn' _ _ n); [|by apply nf_wider].
  clear -Hrun wider. induction Hrun as [|n s s' t [ro Hm] _ IH]; [constructor|].
  eapply nsteps_l; [exists ro; by apply move_wider|done].
Qed.

(** A move that can be made still can be, when the other process has moved. *)
Lemma move_stays ro s s' b :
  move conn listens dials ro s = Some s' -> sys_step conn' listens dials s b ->
  b = s' \/ exists c, move conn listens dials ro b = Some c /\ sys_step conn' listens dials s' c.
Proof.
  intros Hm [ro' Hb]. destruct ro, ro'.
  - left. apply move_wider in Hm. congruence.
  - right. destruct (moves_commute conn conn' listens dials s s' b) as (c & ? & ?); [done..|].
    exists c. split; [done|by exists AClient].
  - right. destruct (moves_commute conn' conn listens dials s b s') as (c & ? & ?); [done..|].
    exists c. split; [done|by exists AServer].
  - left. apply move_wider in Hm. congruence.
Qed.

Lemma run_past ro s s' a :
  move conn listens dials ro s = Some s' -> rtc (sys_step conn' listens dials) s a ->
  rtc (sys_step conn' listens dials) s' a \/ exists c, sys_step conn listens dials a c.
Proof.
  intros Hm Hrun. revert s' Hm. induction Hrun as [s|s b a Hb Hba IH]; intros s' Hm; [right; exists s', ro; done|].
  destruct (move_stays _ _ _ _ Hm Hb) as [->|(c & Hc & Hsc)]; [by left|].
  destruct (IH _ Hc) as [?|?]; [left; by eapply rtc_l|by right].
Qed.

(** Wherever the two have come with more room, if neither can move without it then
    they have come to their end. *)
Lemma stuck_is_end s t a :
  comes_to conn listens dials s t -> ~ in_send (server t) -> ~ in_send (client t) ->
  rtc (sys_step conn' listens dials) s a -> nf (sys_step conn listens dials) a -> a = t.
Proof.
  intros [Hnf [n Hn]] Hs Hc Ha Hstuck. destruct (Hn 0%nat s (nsteps_O _ _)) as [_ Hrun].
  rewrite Nat.sub_0_r in Hrun. apply nf_wider in Hnf; [|done..]. clear Hn.
  induction Hrun as [t|n s s' t [ro Hm] _ IH].
  - inversion Ha as [|? b ? Hb]; [done|]. destruct Hnf. by exists b.
  - destruct (run_past _ _ _ _ Hm Ha) as [Ha'|[c Hac]]; [by apply IH|]. destruct Hstuck. by exists c.
Qed.

End more_room.

(** The numbers a loop goes through. *)
Definition numbers (n : nat) : list Z := map Z.of_nat (seq 0 n).

(** The two programs of qos_test over a connection with the given room. *)
Definition qos_test_pair (argv0 argv0' : string) : sys :=
  started (qos_test [argv0; "server"]) (qos_test [argv0'; "client-block"]).

Ltac run_both := cbv -[report text bytes_of String.append]; reflexivity.

(** One schedule for [n] steps, up to a dial, and the dial. *)
Ltac run_to_dial n :=
  eapply (after_schedule _ _ _ n); eapply (after_step _); [eapply dial_move; [observe_head|reflexivity..]|].

(** The same up to a send, which is done or refused. *)
Ltac run_to_send n ro :=
  eapply (after_schedule _ _ _ n); eapply (after_step _);
    [first [eapply (send_move _ _ _ ro); [observe_head|by eauto|done]
           |eapply (refused_move _ _ _ ro); [observe_head|by eauto]]|].

(** ** The echo programs *)

(** What the two have come to when the client was given [body]. *)
Definition echoed (conn : connection) (address body : string) (t : sys) : Prop :=
  ((length (bytes_of body) <= limit conn)%nat -> exit_code (client t) = Some 0 /\ wrote (client t) = [ToOut body]) /\
  (~ (length (bytes_of body) <= limit conn)%nat ->
   exit_code (client t) = Some 1 /\ wrote (client t) = [ToErr (report "send failed: " (refusal conn))]) /\
  to_server (link t) = [] /\ to_client (link t) = [] /\
  match lost conn with
  | Some st => exit_code (server t) = Some 0 /\
      wrote (server t) = [ToErr ("listening on " +:+ address); ToErr (report "recv: " st)]
  | None => in_recv (server t) /\ wrote (server t) = [ToErr ("listening on " +:+ address)]
  end.

Lemma echo_pair_comes conn {Hroom : KeepsRoom conn} address body argv0 argv0' :
  status_ok (refusal conn) = false -> ((length (bytes_of body) <= limit conn)%nat -> room conn [] (bytes_of body) = true) ->
  exists t,
    comes_to conn (fun _ => Ok) (fun _ => Ok)
      (started (duct_echo_server [argv0; address]) (duct_echo_client [argv0'; address; body])) t /\
    echoed conn address body t.
Proof.
  destruct conn as [rm mx refusal lost]. unfold echoed. cbn [room limit Network.refusal Network.lost].
  intros Href Hfits. assert (Hb : [ToOut (text (bytes_of body))] = [ToOut body]) by by rewrite text_bytes_of.
  destruct (le_lt_dec (length (bytes_of body)) mx) as [Hf|Hf].
  - specialize (Hfits Hf). destruct lost; (eexists; split;
      [run_to_dial 2%nat; run_to_send 1%nat AClient; run_to_send 1%nat AServer;
       apply (schedule_comes_to _ _ _ 20); run_both|]).
    all: split_and!; [intros _; split; [run_both|etrans; [run_both|exact Hb]]|done|..]; run_both || exact I.
  - apply Nat.lt_nge in Hf. destruct refusal as [[] why]; try discriminate Href; destruct lost; (eexists; split;
      [run_to_dial 2%nat; run_to_send 1%nat AClient; apply (schedule_comes_to _ _ _ 20); run_both|]).
    all: split_and!; [done|intros _; split; run_both|..]; run_both || exact I.
Qed.

(** ** Theorems *)

(** the schedule does not matter: when one run of two programs over a
    connection ends with both returned, every run of them is finite, no longer
    than that one, and can only end in the same state, with the same output and
    exit codes; so a deadlock of the two is impossible. It holds of any two
    programs, any room that a message received gives back and any answers of [listen] and [dial]. *)
Theorem one_run_is_all conn {Hroom : KeepsRoom conn} listens dials n s t m u :
  nsteps (sys_step conn listens dials) n s t -> exited (server t) = true -> exited (client t) = true ->
  nsteps (sys_step conn listens dials) m s u ->
  (m <= n)%nat /\ nsteps (sys_step conn listens dials) (n - m) u t /\
  (nf (sys_step conn listens dials) u -> u = t).
Proof.
  intros Hn Hp Hq Hm. destruct (run_to_end conn listens dials m n s t u) as [Hl Hr]; [done|by apply returned_final|done|].
  split_and!; [done..|]. intros Hnf. inversion Hr as [|? ? v ? Hv]; [done|]. destruct Hnf. by exists v.
Qed.


(** shm_test as client against shm_test as server on the same bus: with room
    for five messages each way, in every schedule both exit with 0, the server
    having received the five messages in order and the client having received
    their echoes in order, and nothing is left over. *)
Theorem shm_test_programs cap limit refusal lost bus_name argv0 argv0' :
  exists t,
    comes_to (mkConnection (holds (5 + cap)) (64 + limit) refusal lost) (fun _ => Ok) (fun _ => Ok)
      (started (shm_test [argv0; "server"; bus_name]) (shm_test [argv0'; "client"; bus_name])) t /\
    exit_code (server t) = Some 0 /\
    wrote (server t) =
      map ToOut (["Starting Windows shared memory server on bus: " +:+ bus_name; "Waiting for client connection...";
                  "Client connected!"] ++
                 map (fun i => "Server received: " +:+ client_message i) (numbers 5) ++ ["Server done."]) /\
    exit_code (client t) = Some 0 /\
    wrote (client t) =
      map ToOut (["Starting Windows shared memory client to bus: " +:+ bus_name; "Connected to server!"] ++
                 map (fun i => "Client sent: " +:+ client_message i) (numbers 5) ++
                 map (fun i => "Client received echo: " +:+ client_message i) (numbers 5) ++ ["Client done."]) /\
    to_server (link t) = [] /\ to_client (link t) = [].
Proof.
  eexists. split_and!.
  - run_to_dial 5%nat.
    apply (schedule_comes_to _ _ _ 100); vm_compute; reflexivity.
  - vm_compute; reflexivity.
  - vm_compute; reflexivity.
  - vm_compute; reflexivity.
  - vm_compute; reflexivity.
  - vm_compute; reflexivity.
  - vm_compute; reflexivity.
Qed.

(** pipe_test as client against pipe_test as server, where the build has named
    pipes: with room for one message each way, in every schedule both exit with 0
    after ten rounds, each reply being the message with its prefix. *)
Theorem pipe_test_programs cap limit refusal lost pipe_name argv0 argv0' :
  exists t,
    comes_to (mkConnection (holds (1 + cap)) (64 + limit) refusal lost) (fun _ => Ok) (fun _ => Ok)
      (started (pipe_test [argv0; "server"; pipe_name]) (pipe_test [argv0'; "client"; pipe_name])) t /\
    exit_code (server t) = Some 0 /\
    wrote (server t) =
      map ToOut (["Starting Windows named pipe server: " +:+ pipe_name; "Waiting for client connection...";
                  "Client connected!"] ++
                 flat_map (fun i => ["Server received: " +:+ client_message i;
                                     "Server sent: " +:+ "Echo: " +:+ client_message i]) (numbers 10) ++
                 ["Server done."]) /\
    exit_code (client t) = Some 0 /\
    wrote (client t) =
      map ToOut (["Starting Windows named pipe client to: " +:+ pipe_name; "Connected to server!"] ++
                 flat_map (fun i => ["Client sent: " +:+ client_message i;
                                     "Client received: " +:+ "Echo: " +:+ client_message i]) (numbers 10) ++
                 ["Client done."]).
Proof.
  eexists. split_and!.
  - run_to_dial 5%nat.
    apply (schedule_comes_to _ _ _ 200); vm_compute; reflexivity.
  - vm_compute; reflexivity.
  - vm_compute; reflexivity.
  - vm_compute; reflexivity.
  - vm_compute; reflexivity.
Qed.


(** ** Witnesses *)

(** The echo programs on an address, and the state they come to. *)
Definition echo_pair : sys :=
  started (duct_echo_server ["s"; "tcp://:9000"]) (duct_echo_client ["c"; "tcp://:9000"; "hi"]).
Definition a_stream : connection := mkConnection (holds 1) 1024 (protocol_error "too large") (Some (closed "peer closed")).
Definition echo_end : nat * sys := schedule a_stream (fun _ => Ok) (fun _ => Ok) 100 echo_pair.

Lemma one_run_is_all_witness :
  echo_end.1 = 12%nat /\ exit_code (client echo_end.2) = Some 0 /\
  nsteps (sys_step a_stream (fun _ => Ok) (fun _ => Ok)) (echo_end.1 - 0) echo_pair echo_end.2.
Proof.
  split; [vm_compute; reflexivity|]. split; [vm_compute; reflexivity|].
  apply (one_run_is_all a_stream (fun _ => Ok) (fun _ => Ok) echo_end.1 echo_pair echo_end.2 0 echo_pair).
  - exact (schedule_run a_stream (fun _ => Ok) (fun _ => Ok) 100 echo_pair).
  - vm_compute; reflexivity.
  - vm_compute; reflexivity.
  - apply nsteps_O.
Defined.

