(* ===== verification/Duplex.v ===== *)
(** * Two programs over a connection as it is made

    A connection is two ways, one for each direction: a ring of shared memory
    ([RingNetwork]) or a stream of bytes ([StreamNetwork]). A call of [send] or
    [recv] takes many steps, and those of the two programs interleave in every way.
    [Way] has the steps of a way; [SeenWay] says what they promise, as seen through
    the messages that are in it; and what [Network] shows of two programs over its
    connection is carried here to their runs over any two ways that keep the
    promise ([duplex_runs]). *)

From S2P Require Import Prelude Status Options Dial Programs Runs Network.
From ITree Require Import ITree.

(** ** The connection and its steps *)

(** One way of a connection of state [D]: what [Network] is told of the connection,
    and a step of a call of [send] or [recv], with the answer when the call returns
    and [None] while it waits. The choice is what is left to the system. *)
Class Way (D : Type) := {
  choice : Type;
  a_choice : choice;
  way_conn : connection;
  way_start : D;
  way_send : role -> choice -> list byte -> D -> option (D * option Status);
  way_recv : role -> choice -> bool -> D -> option (D * option (Result (list byte)));
}.

(** The connection, with its address and dials. *)
Record duplex (D : Type) := mkDuplex {
  d_listening : option string;
  d_dialled : nat;
  c2s : D;
  s2c : D;
}.
Arguments mkDuplex {D} _ _ _ _.
Arguments d_listening {D} _.
Arguments d_dialled {D} _.
Arguments c2s {D} _.
Arguments s2c {D} _.

(** Two programs over it. *)
Record dsys (D : Type) := mkDsys { dserver : proc; dclient : proc; dlink : duplex D }.
Arguments mkDsys {D} _ _ _.
Arguments dserver {D} _.
Arguments dclient {D} _.
Arguments dlink {D} _.

(** src/src/shm_transport.cc:389-389 [ShmPipe::send, tx]

    The way a side sends on. *)
Definition tx {D} (ro : role) (l : duplex D) : D := match ro with AServer => s2c l | AClient => c2s l end.
(** src/src/shm_transport.cc:410-410 [ShmPipe::recv, rx]

    The way a side receives from. *)
Definition rx {D} (ro : role) (l : duplex D) : D := match ro with AServer => c2s l | AClient => s2c l end.
Definition set_tx {D} (ro : role) (d : D) (l : duplex D) : duplex D :=
  match ro with
  | AServer => mkDuplex (d_listening l) (d_dialled l) (c2s l) d
  | AClient => mkDuplex (d_listening l) (d_dialled l) d (s2c l)
  end.
Definition set_rx {D} (ro : role) (d : D) (l : duplex D) : duplex D :=
  match ro with
  | AServer => mkDuplex (d_listening l) (d_dialled l) d (s2c l)
  | AClient => mkDuplex (d_listening l) (d_dialled l) (c2s l) d
  end.

Section steps.
Context {D} {W : Way D} (listens dials : string -> Status).

(** A call that is not of a pipe is that of [Network]. *)
Definition other_call (ro : role) {T} (e : duct_event T) (l : duplex D) : option (duplex D * list written * option T) :=
  '(n, ls, x) ← perform way_conn listens dials ro false e (mkNet (d_listening l) (d_dialled l) [] []);
  Some (mkDuplex (listening n) (dialled n) (c2s l) (s2c l), ls, Some x).

(** A step of a call: what it does to the connection, what it writes, and the answer
    if the call returns. *)
Definition dcall (ro : role) (k : choice) (peer_gone : bool) {T} (e : duct_event T) (l : duplex D)
    : option (duplex D * list written * option T) :=
  match e in duct_event T return option (duplex D * list written * option T) with
  | ESend m => '(d, x) ← way_send ro k m (tx ro l); Some (set_tx ro d l, [], x)
  | ERecv => '(d, x) ← way_recv ro k peer_gone (rx ro l); Some (set_rx ro d l, [], x)
  | EListen a => other_call ro (EListen a) l
  | EAccept => other_call ro EAccept l
  | EDial a opt => other_call ro (EDial a opt) l
  | EOut line => other_call ro (EOut line) l
  | EErr line => other_call ro (EErr line) l
  | ESleep ms => other_call ro (ESleep ms) l
  end.

Definition dadvance (ro : role) (k : choice) (peer_gone : bool) (p : proc) (l : duplex D) : option (proc * duplex D) :=
  match observe (prog p) with
  | RetF _ => None
  | TauF t => Some (mkProc t (wrote p), l)
  | VisF e c =>
      '(l, ls, x) ← dcall ro k peer_gone e l;
      Some (match x with Some x => mkProc (c x) (wrote p ++ ls) | None => p end, l)
  end.

Definition dmove (ro : role) (k : choice) (s : dsys D) : option (dsys D) :=
  match ro with
  | AServer =>
      '(p, l) ← dadvance AServer k (exited (dclient s)) (dserver s) (dlink s); Some (mkDsys p (dclient s) l)
  | AClient =>
      '(p, l) ← dadvance AClient k (exited (dserver s)) (dclient s) (dlink s); Some (mkDsys (dserver s) p l)
  end.

Definition dstep (s s' : dsys D) : Prop := exists ro k, dmove ro k s = Some s'.

Definition dstarted (p q : itree duct_event Z) : dsys D :=
  mkDsys (mkProc p []) (mkProc q []) (mkDuplex None 0 way_start way_start).

End steps.

(** ** What a way promises *)

(** The state seen: the messages sent and not received, the calls under way, whether
    the [send] under way has taken effect, and how many steps a call has at most
    until it does. *)
Class Seen (D : Type) := {
  way_ok : D -> Prop;
  messages : D -> list (list byte);
  sending : D -> option (list byte);
  receiving : D -> bool;
  committed : D -> bool;
  send_left : D -> nat;
  recv_left : D -> nat;
  idle_left : nat;
  longest : nat;
  wide : list (list byte) -> list byte -> bool;
}.

Section effects.
Context {D} {W : Way D} {V : Seen D}.

(** The connection of [Network] whose steps these are; [way_conn] may have less
    room. *)
Definition wide_conn : connection := set_room wide way_conn.

Definition takes (m : list byte) (d : D) : Prop :=
  (length m <= limit way_conn)%nat /\ wide (messages d) m = true.

(** What a step of [send] does: it refuses, goes on, takes effect with the call to
    be finished, finishes it, or does both at once. *)
Inductive send_effect (m : list byte) (d d' : D) : option Status -> Prop :=
| effect_refused : sending d = None -> d' = d -> ~ (length m <= limit way_conn)%nat -> send_effect m d d' (Some (refusal way_conn))
| effect_quiet :
    sending d' = Some m -> committed d = false -> committed d' = false -> messages d' = messages d ->
    (send_left d' < match sending d with None => idle_left | Some _ => send_left d end)%nat -> send_effect m d d' None
| effect_commit :
    committed d = false -> committed d' = true -> sending d' = Some m -> messages d' = messages d ++ [m] -> takes m d ->
    send_effect m d d' None
| effect_return : committed d = true -> sending d' = None -> messages d' = messages d -> send_effect m d d' (Some Ok)
| effect_put :
    committed d = false -> sending d' = None -> messages d' = messages d ++ [m] -> takes m d ->
    send_effect m d d' (Some Ok).

(** What a step of [recv] does: it goes on, returns a message, or says that the
    other side is gone. *)
Inductive recv_effect (gone : bool) (d d' : D) : option (Result (list byte)) -> Prop :=
| effect_wait : messages d' = messages d -> (recv_left d' < recv_left d)%nat -> recv_effect gone d d' None
| effect_get m : receiving d' = false -> messages d = m :: messages d' -> recv_effect gone d d' (Some (RValue m))
| effect_end st :
    gone = true -> receiving d' = false -> messages d = [] -> messages d' = [] -> lost way_conn = Some st ->
    recv_effect gone d d' (Some (RStatus st)).

End effects.

Class SeenWay (D : Type) {W : Way D} {V : Seen D} : Prop := {
  start_ok : way_ok way_start /\ messages way_start = [] /\ sending way_start = None /\ receiving way_start = false;
  send_law ro k m d d' x :
    way_ok d -> sending d = None \/ sending d = Some m -> way_send ro k m d = Some (d', x) ->
    way_ok d' /\ receiving d' = receiving d /\ recv_left d' = recv_left d /\ send_effect m d d' x;
  recv_law ro k gone d d' x :
    way_ok d -> (gone = true -> sending d = None) -> way_recv ro k gone d = Some (d', x) ->
    way_ok d' /\ sending d' = sending d /\ committed d' = committed d /\ send_left d' = send_left d /\
    recv_effect gone d d' x;
  send_waits ro k m d :
    way_ok d -> sending d = None \/ sending d = Some m -> way_send ro k m d = None ->
    committed d = false /\ (length m <= limit way_conn)%nat /\ room way_conn (messages d) m = false /\
    forall k', way_send ro k' m d = None;
  recv_waits ro k gone d :
    way_ok d -> way_recv ro k gone d = None ->
    (committed d = false -> messages d = [] /\ (gone = true -> lost way_conn = None)) /\
    forall k', way_recv ro k' gone d = None;
  committed_sends d : sending d = None -> committed d = false;
  committed_left d : committed d = true -> (idle_left < send_left d)%nat;
  idle_recv d : receiving d = false -> recv_left d = idle_left;
  left_bound d : way_ok d -> (send_left d <= longest)%nat /\ (recv_left d <= longest)%nat;
}.

(** ** A move of a process *)

Section ways.
Context {D} {W : Way D} {V : Seen D} {S : SeenWay D} (listens dials : string -> Status).
Implicit Types (l : duplex D) (d : D) (p q : proc).
Abbreviation advance := (advance wide_conn listens dials).

Lemma tx_set_tx ro d l : tx ro (set_tx ro d l) = d. Proof. by destruct ro. Qed.
Lemma rx_set_tx ro d l : rx ro (set_tx ro d l) = rx ro l. Proof. by destruct ro. Qed.
Lemma tx_set_rx ro d l : tx ro (set_rx ro d l) = tx ro l. Proof. by destruct ro. Qed.
Lemma rx_set_rx ro d l : rx ro (set_rx ro d l) = d. Proof. by destruct ro. Qed.

(** The state of [Network] a state of the connection stands for. *)
Definition seen_net l : net := mkNet (d_listening l) (d_dialled l) (messages (c2s l)) (messages (s2c l)).

Lemma outbox_tx ro l : outbox ro (seen_net l) = messages (tx ro l). Proof. by destruct ro. Qed.
Lemma inbox_rx ro l : inbox ro (seen_net l) = messages (rx ro l). Proof. by destruct ro. Qed.
Lemma set_outbox_tx ro d l : set_outbox ro (messages d) (seen_net l) = seen_net (set_tx ro d l).
Proof. by destruct ro. Qed.
Lemma set_inbox_rx ro d l : set_inbox ro (messages d) (seen_net l) = seen_net (set_rx ro d l).
Proof. by destruct ro. Qed.
Lemma set_outbox_same ro l : set_outbox ro (messages (tx ro l)) (seen_net l) = seen_net l. Proof. by destruct ro. Qed.
Lemma set_inbox_same ro l : set_inbox ro (messages (rx ro l)) (seen_net l) = seen_net l. Proof. by destruct ro. Qed.

(** A process whose [send] has taken effect is past it. *)
Definition caught_up d p : proc :=
  if committed d then
    match observe (prog p) with
    | @VisF _ _ _ X e k =>
        match e in duct_event Y return (Y -> itree duct_event Z) -> proc with
        | ESend _ => fun k => mkProc (k Ok) (wrote p)
        | _ => fun _ => p
        end k
    | _ => p
    end
  else p.

Definition seen (s : dsys D) : sys :=
  mkSys (caught_up (s2c (dlink s)) (dserver s)) (caught_up (c2s (dlink s)) (dclient s)) (seen_net (dlink s)).

Definition both_ok l : Prop := way_ok (c2s l) /\ way_ok (s2c l).

Lemma both_ok_side ro l : both_ok l <-> way_ok (tx ro l) /\ way_ok (rx ro l).
Proof. unfold both_ok. destruct ro; cbn; tauto. Qed.

(** A call is under way only while its process is at that call. *)
Definition coupled (ro : role) p l : Prop :=
  match observe (prog p) with
  | VisF (ESend m) _ => receiving (rx ro l) = false /\ (sending (tx ro l) = None \/ sending (tx ro l) = Some m)
  | VisF ERecv _ => sending (tx ro l) = None
  | _ => sending (tx ro l) = None /\ receiving (rx ro l) = false
  end.

Definition role_left (ro : role) l : nat :=
  match sending (tx ro l) with Some _ => send_left (tx ro l) | None => recv_left (rx ro l) end.

(** What a move of one process leaves to the other. *)
Definition same_far (ro : role) l l' : Prop :=
  (sending (rx ro l') = sending (rx ro l) /\ committed (rx ro l') = committed (rx ro l) /\
   send_left (rx ro l') = send_left (rx ro l)) /\
  (receiving (tx ro l') = receiving (tx ro l) /\ recv_left (tx ro l') = recv_left (tx ro l)).

(** A move is unseen, and brings the next that is seen nearer, or is the move of
    [Network]. *)
Definition move_seen ro g p p' l l' : Prop :=
  (caught_up (tx ro l') p' = caught_up (tx ro l) p /\ seen_net l' = seen_net l /\ (role_left ro l' < role_left ro l)%nat)
  \/ advance ro g (caught_up (tx ro l) p) (seen_net l) = Some (caught_up (tx ro l') p', seen_net l').

Definition moved ro g p p' l l' : Prop :=
  both_ok l' /\ coupled ro p' l' /\ same_far ro l l' /\ move_seen ro g p p' l l'.

Lemma coupled_idle ro p l : sending (tx ro l) = None -> receiving (rx ro l) = false -> coupled ro p l.
Proof.
  intros Hw Hr. unfold coupled. destruct (observe (prog p)) as [| |T e k]; try by split.
  destruct e; try done; by auto.
Qed.

Lemma caught_up_id d p : committed d = false -> caught_up d p = p.
Proof. unfold caught_up. by intros ->. Qed.

Lemma caught_up_sent d p m k :
  committed d = true -> observe (prog p) = VisF (ESend m) k -> caught_up d p = mkProc (k Ok) (wrote p).
Proof. intros Hd Hp. unfold caught_up. by rewrite Hd, Hp. Qed.

Lemma role_left_bound ro l : both_ok l -> (role_left ro l <= longest)%nat.
Proof.
  intros [Htx Hrx]%(both_ok_side ro). unfold role_left.
  destruct (left_bound _ Htx), (left_bound _ Hrx). by destruct (sending _).
Qed.

Lemma role_left_idle ro l : sending (tx ro l) = None -> receiving (rx ro l) = false -> role_left ro l = idle_left.
Proof. intros Hw Hr. unfold role_left. rewrite Hw. by apply idle_recv. Qed.

Lemma perform_send ro g m n :
  (length m <= limit way_conn)%nat -> wide (outbox ro n) m = true ->
  perform wide_conn listens dials ro g (ESend m) n = Some (set_outbox ro (outbox ro n ++ [m]) n, [], Ok).
Proof. intros Hl Hr. cbn [perform limit room wide_conn set_room]. by rewrite bool_decide_eq_true_2, Hr. Qed.

Lemma send_moved ro k g p l m c d x :
  both_ok l -> coupled ro p l -> observe (prog p) = VisF (ESend m) c -> way_send ro k m (tx ro l) = Some (d, x) ->
  moved ro g p (match x with Some x => mkProc (c x) (wrote p ++ []) | None => p end) l (set_tx ro d l).
Proof.
  intros Hok Hc Hp Hs. pose proof Hok as [Htx Hrx]%(both_ok_side ro). unfold coupled in Hc.
  rewrite Hp in Hc. destruct Hc as [Hr Hm]. destruct (send_law _ _ _ _ _ _ Htx Hm Hs) as (Hd & Hrv & Hrl & He).
  unfold moved, same_far, move_seen.
  rewrite (both_ok_side ro), tx_set_tx, rx_set_tx, <- !set_outbox_tx. split; [done|].
  assert (Hidle : sending d = None -> coupled ro (mkProc (c (default Ok x)) (wrote p ++ [])) (set_tx ro d l))
    by (intros ?; by apply coupled_idle; rewrite ?tx_set_tx, ?rx_set_tx).
  assert (Hbusy : sending d = Some m -> coupled ro p (set_tx ro d l))
    by (intros ?; unfold coupled; rewrite Hp, tx_set_tx, rx_set_tx; by auto).
  destruct He as [Hi -> Hb|Hs' H0 H0' Hq Hl|H0 H1 Hs' Hq [Hl Hroom]|H1 Hs' Hq|H0 Hs' Hq [Hl Hroom]].
  - split_and!; [by apply Hidle|done..|right]. rewrite !caught_up_id by (by apply committed_sends).
    unfold Network.advance. rewrite Hp. cbn [perform limit wide_conn set_room]. rewrite bool_decide_eq_false_2 by done.
    by rewrite set_outbox_same.
  - split_and!; [by apply Hbusy|done..|left]. rewrite !caught_up_id, Hq, set_outbox_same by done. split_and!; [done..|].
    unfold role_left. rewrite tx_set_tx, rx_set_tx, Hs'. destruct (sending (tx ro l)); [done|]. by rewrite idle_recv.
  - split_and!; [by apply Hbusy|done..|right]. rewrite (caught_up_sent d p m c), caught_up_id by done.
    unfold Network.advance. rewrite Hp, perform_send by (by rewrite ?outbox_tx). rewrite outbox_tx, Hq. cbn. by rewrite app_nil_r.
  - assert (sending (tx ro l) = Some m).
    { destruct Hm as [Hm|Hm]; [|done]. apply committed_sends in Hm. congruence. }
    split_and!; [by apply Hidle|done..|left]. rewrite (caught_up_sent (tx ro l) p m c), caught_up_id by (done || by apply committed_sends).
    rewrite Hq, set_outbox_same, app_nil_r. split_and!; [done..|].
    rewrite role_left_idle by (by rewrite ?tx_set_tx, ?rx_set_tx). unfold role_left. case_match; [|done]. by apply committed_left.
  - split_and!; [by apply Hidle|done..|right]. rewrite !caught_up_id by (done || by apply committed_sends).
    unfold Network.advance. rewrite Hp, perform_send by (by rewrite ?outbox_tx). by rewrite outbox_tx, Hq.
Qed.

(** What [recv] returns in [Network] it returns whatever is known of the other. *)
Lemma recv_moved ro k g g' p l c d x :
  both_ok l -> coupled ro p l -> (g = true -> g' = true /\ sending (rx ro l) = None) ->
  observe (prog p) = VisF ERecv c -> way_recv ro k g (rx ro l) = Some (d, x) ->
  moved ro g' p (match x with Some x => mkProc (c x) (wrote p ++ []) | None => p end) l (set_rx ro d l).
Proof.
  intros Hok Hc Hg Hp Hs. pose proof Hok as [Htx Hrx]%(both_ok_side ro). unfold coupled in Hc.
  rewrite Hp in Hc. destruct (recv_law _ _ _ _ _ _ Hrx (fun h => proj2 (Hg h)) Hs) as (Hd & Hsd & Hcm & Hsl & He).
  unfold moved, same_far, move_seen.
  rewrite (both_ok_side ro), tx_set_rx, rx_set_rx, <- !set_inbox_rx. split; [done|].
  rewrite !caught_up_id by (by apply committed_sends).
  assert (Hadv : advance ro g' p (seen_net l) =
                 '(n, ls, y) ← perform wide_conn listens dials ro g' ERecv (seen_net l); Some (mkProc (c y) (wrote p ++ ls), n))
    by (unfold Network.advance; by rewrite Hp).
  rewrite Hadv. cbn [perform]. rewrite inbox_rx.
  destruct He as [Hq Hl|m Hr Hq|st Hgone Hr Hq Hq' Hlost].
  - split_and!; [unfold coupled; by rewrite Hp, tx_set_rx|done..|left]. rewrite Hq, set_inbox_same. split_and!; [done..|].
    unfold role_left. by rewrite tx_set_rx, rx_set_rx, Hc.
  - split_and!; [by apply coupled_idle; rewrite ?tx_set_rx, ?rx_set_rx|done..|right]. by rewrite Hq.
  - split_and!; [by apply coupled_idle; rewrite ?tx_set_rx, ?rx_set_rx|done..|right].
    destruct (Hg Hgone) as [-> _]. rewrite Hq, Hq'. cbn [lost wide_conn set_room]. rewrite Hlost. cbn.
    rewrite <- Hq. by rewrite set_inbox_same.
Qed.

(** A call that is not of a pipe is made in [Network] too, and leaves the two ways
    alone. *)
Lemma other_call_seen conn ro g {T} (e : duct_event T) l :
  of_pipe e = false ->
  match other_call listens dials ro e l with
  | Some (l', ls, x) =>
      exists y, x = Some y /\ c2s l' = c2s l /\ s2c l' = s2c l /\
        perform conn listens dials ro g e (seen_net l) = Some (seen_net l', ls, y)
  | None => perform conn listens dials ro g e (seen_net l) = None
  end.
Proof.
  intros He. unfold seen_net, other_call. rewrite (perform_other conn way_conn) by done.
  destruct (perform way_conn _ _ _ _ _ _) as [[[n ls] x]|]; cbn; [|done]. by exists x.
Qed.

Lemma other_moved ro g p l {T} (e : duct_event T) c l' ls x :
  both_ok l -> coupled ro p l -> observe (prog p) = VisF e c -> of_pipe e = false ->
  other_call listens dials ro e l = Some (l', ls, x) ->
  moved ro g p (match x with Some x => mkProc (c x) (wrote p ++ ls) | None => p end) l l'.
Proof.
  intros Hok Hc Hp He Ho. pose proof (other_call_seen wide_conn ro g e l He) as Hs. rewrite Ho in Hs.
  destruct Hs as (y & -> & H1 & H2 & Hperf).
  assert (tx ro l' = tx ro l /\ rx ro l' = rx ro l) as [Ht Hx] by by destruct ro.
  assert (sending (tx ro l) = None /\ receiving (rx ro l) = false) as [Hi Hr].
  { unfold coupled in Hc. rewrite Hp in Hc. by destruct e. }
  unfold moved, same_far, move_seen. rewrite (both_ok_side ro), Ht, Hx, <- both_ok_side.
  split_and!; [done|by apply coupled_idle; rewrite ?Ht, ?Hx|done..|right].
  rewrite !caught_up_id by (by apply committed_sends). unfold Network.advance. by rewrite Hp, Hperf.
Qed.

Lemma advance_moved ro k g g' p l p' l' :
  both_ok l -> coupled ro p l -> (g = true -> g' = true /\ sending (rx ro l) = None) ->
  dadvance listens dials ro k g p l = Some (p', l') -> moved ro g' p p' l l'.
Proof.
  intros Hok Hc Hg Ha. unfold dadvance in Ha. destruct (observe (prog p)) as [|t|T e c] eqn:Hp; [done| |].
  - injection Ha as <- <-. unfold coupled in Hc. rewrite Hp in Hc. destruct Hc as [Hi Hr].
    split_and!; [done|by apply coupled_idle|done..|right]. rewrite !caught_up_id by (by apply committed_sends).
    unfold Network.advance. by rewrite Hp.
  - destruct (dcall listens dials ro k g e l) as [[[l0 ls] x]|] eqn:Hcall; [|done].
    cbn in Ha. injection Ha as <- <-. destruct e; cbn [dcall] in Hcall.
    4: { destruct (way_send _ _ _ _) as [[d y]|] eqn:Hs; [|done]. injection Hcall as <- <- <-. by eapply send_moved. }
    4: { destruct (way_recv _ _ _ _) as [[d y]|] eqn:Hs; [|done]. injection Hcall as <- <- <-. by eapply recv_moved. }
    all: by eapply other_moved.
Qed.

(** A process that waits here, whatever the choice, waits in [Network], unless the
    other is past a [send] that it has not finished. *)
Lemma advance_waits ro k g p l :
  both_ok l -> coupled ro p l -> dadvance listens dials ro k g p l = None ->
  committed (tx ro l) = false /\ (forall k', dadvance listens dials ro k' g p l = None) /\
  (committed (rx ro l) = false -> Network.advance way_conn listens dials ro g p (seen_net l) = None).
Proof.
  intros [Htx Hrx]%(both_ok_side ro) Hc Ha. unfold dadvance in *. unfold Network.advance, coupled in *.
  destruct (observe (prog p)) as [|t|T e c]; [by split_and!; [apply committed_sends, Hc|..]|done|].
  destruct e; cbn [dcall] in *.
  4: { destruct (way_send _ _ _ _) as [[d y]|] eqn:Hs; [done|]. destruct Hc as [_ Hm].
    destruct (send_waits _ _ _ _ Htx Hm Hs) as (Hcm & Hfit & Hroom & Hall). split_and!; [done|intros k'; by rewrite Hall|].
    intros _. cbn [perform]. by rewrite outbox_tx, bool_decide_eq_true_2, Hroom. }
  4: { destruct (way_recv _ _ _ _) as [[d y]|] eqn:Hs; [done|]. destruct (recv_waits _ _ _ _ Hrx Hs) as [Hnone Hall].
    split_and!; [by apply committed_sends|intros k'; by rewrite Hall|]. intros Hcm. destruct (Hnone Hcm) as [Hq Hlost].
    cbn [perform]. rewrite inbox_rx, Hq. destruct g; [by rewrite Hlost|done]. }
  all: split_and!; [apply committed_sends, Hc|intros _; exact Ha|intros _].
  all: match goal with |- context [perform _ _ _ _ _ ?e _] =>
         pose proof (other_call_seen way_conn ro g e l eq_refl) as Ho end.
  all: destruct (other_call _ _ _ _ _) as [[[? ?] x]|]; [by destruct x|by rewrite Ho].
Qed.

(** ** A step of the two *)

Definition dsys_ok (s : dsys D) : Prop :=
  both_ok (dlink s) /\ coupled AServer (dserver s) (dlink s) /\ coupled AClient (dclient s) (dlink s).

Definition left_of (s : dsys D) : nat := role_left AServer (dlink s) + role_left AClient (dlink s).

Lemma far_side ro p l l' :
  same_far ro l l' ->
  caught_up (tx (other ro) l') p = caught_up (tx (other ro) l) p /\
  role_left (other ro) l' = role_left (other ro) l /\ (coupled (other ro) p l -> coupled (other ro) p l').
Proof.
  intros [(Hs & Hc & Hsl) [Hr Hrl]]. unfold caught_up, role_left, coupled.
  destruct ro; cbn [other tx rx] in *; by rewrite Hs, Hc, Hsl, Hr, Hrl.
Qed.

(** A process that is not in [send] has none under way. *)
Lemma not_sending ro p l : coupled ro p l -> ~ in_send p -> sending (tx ro l) = None.
Proof.
  unfold coupled, in_send. destruct (observe (prog p)) as [|t|T e c]; [by intros [? _]..|]. destruct e; try done; by intros [? _].
Qed.

Lemma exited_seen ro p l :
  coupled ro p l -> exited p = true -> exited (caught_up (tx ro l) p) = true /\ sending (tx ro l) = None.
Proof.
  intros Hc He. pose proof (not_sending _ _ _ Hc (exited_not_sending _ He)) as Hs.
  by rewrite caught_up_id by (by apply committed_sends).
Qed.

Lemma step_is_seen : step_seen (dstep listens dials) (sys_step wide_conn listens dials) dsys_ok seen left_of (longest + longest).
Proof.
  intros [p q l] s' (Hok & Hcp & Hcq) ([] & k & Hm); cbn [dmove dserver dclient dlink] in *.
  - destruct (dadvance _ _ AServer k _ p l) as [[p' l']|] eqn:Ha; [|done]. injection Hm as <-.
    apply (advance_moved _ _ _ (exited (client (seen (mkDsys p q l))))) in Ha as (Hok' & Hc' & Hfar & Hs);
      [|done..|by apply (exited_seen AClient)].
    destruct (far_side _ q _ _ Hfar) as (Hq & Hl & Hcq'). cbn [other tx] in *. split; [by split_and!; [| |apply Hcq']|].
    unfold left_of, seen. cbn [dserver dclient dlink]. rewrite Hq, Hl. pose proof (role_left_bound AServer _ Hok').
    unfold move_seen in Hs. cbn [tx] in Hs. destruct Hs as [(-> & -> & ?)|Hadv]; [left; split; [done|lia]|right; split; [|lia]].
    exists AServer. cbn [move server client link]. unfold seen in Hadv. cbn [client dserver dclient dlink] in Hadv. by rewrite Hadv.
  - destruct (dadvance _ _ AClient k _ q l) as [[q' l']|] eqn:Ha; [|done]. injection Hm as <-.
    apply (advance_moved _ _ _ (exited (server (seen (mkDsys p q l))))) in Ha as (Hok' & Hc' & Hfar & Hs);
      [|done..|by apply (exited_seen AServer)].
    destruct (far_side _ p _ _ Hfar) as (Hq & Hl & Hcp'). cbn [other tx] in *. split; [by split_and!; [|apply Hcp'|]|].
    unfold left_of, seen. cbn [dserver dclient dlink]. rewrite Hq, Hl. pose proof (role_left_bound AClient _ Hok').
    unfold move_seen in Hs. cbn [tx] in Hs. destruct Hs as [(-> & -> & ?)|Hadv]; [left; split; [done|lia]|right; split; [|lia]].
    exists AClient. cbn [move server client link]. unfold seen in Hadv. cbn [server dserver dclient dlink] in Hadv. by rewrite Hadv.
Qed.

(** Neither process moves. *)
Definition dstuck (s : dsys D) : Prop :=
  dadvance listens dials AServer a_choice (exited (dclient s)) (dserver s) (dlink s) = None /\
  dadvance listens dials AClient a_choice (exited (dserver s)) (dclient s) (dlink s) = None.

Lemma dstuck_nf s : nf (dstep listens dials) s -> dstuck s.
Proof.
  intros Hnf. split.
  - destruct (dadvance _ _ AServer _ _ _ _) as [[p' l']|] eqn:E; [|done].
    destruct Hnf. eexists _, AServer, a_choice. cbn [dmove]. by rewrite E.
  - destruct (dadvance _ _ AClient _ _ _ _) as [[p' l']|] eqn:E; [|done].
    destruct Hnf. eexists _, AClient, a_choice. cbn [dmove]. by rewrite E.
Qed.

Lemma step_dec s : dsys_ok s -> nf (dstep listens dials) s \/ exists s', dstep listens dials s s'.
Proof.
  intros (Hok & Hcp & Hcq).
  destruct (dmove listens dials AServer a_choice s) as [s'|] eqn:E1; [right; by exists s', AServer, a_choice|].
  destruct (dmove listens dials AClient a_choice s) as [s'|] eqn:E2; [right; by exists s', AClient, a_choice|].
  left. intros [s' ([] & k & Hm)]; cbn [dmove] in *.
  - destruct (dadvance _ _ AServer a_choice _ _ _) as [[? ?]|] eqn:E; [done|].
    apply advance_waits in E as (_ & Hall & _); [|done..]. by rewrite Hall in Hm.
  - destruct (dadvance _ _ AClient a_choice _ _ _) as [[? ?]|] eqn:E; [done|].
    apply advance_waits in E as (_ & Hall & _); [|done..]. by rewrite Hall in Hm.
Qed.

(** Where neither process moves, neither moves in [Network], nor is past a [send] it
    has not finished. *)
Lemma stuck_seen s :
  dsys_ok s -> dstuck s ->
  nf (sys_step way_conn listens dials) (seen s) /\ server (seen s) = dserver s /\ client (seen s) = dclient s.
Proof.
  destruct s as [p q l]. intros (Hok & Hcp & Hcq) [Hp Hq]. cbn [dserver dclient dlink] in *.
  apply advance_waits in Hp as (Hcms & _ & Hp); [|done..]. apply advance_waits in Hq as (Hcmc & _ & Hq); [|done..].
  cbn [tx rx] in *. unfold seen. cbn [dserver dclient dlink server client]. rewrite !caught_up_id by done.
  split_and!; [|done..]. apply stopped; cbn [move server client link]; [by rewrite Hp|by rewrite Hq].
Qed.

End ways.

(** ** The runs of two programs *)

(** Every run is finite, can be continued to an end and can only end with the
    processes as they are in [t] and the messages of [t] sent and not received. *)
Definition duplex_comes_to {D} {W : Way D} {V : Seen D} (listens dials : string -> Status) (s : dsys D) (t : sys) : Prop :=
  exists n, forall m u, nsteps (dstep listens dials) m s u ->
    (m <= n)%nat /\
    (exists v, rtc (dstep listens dials) u v /\ nf (dstep listens dials) v) /\
    (nf (dstep listens dials) u ->
     dserver u = server t /\ dclient u = client t /\ seen_net (dlink u) = link t).

Section runs.
Context {D} {W : Way D} {V : Seen D} {S : SeenWay D} (listens dials : string -> Status).
Context {Hroom : KeepsRoom way_conn} {Hwide : KeepsRoom wide_conn}.
Context (p q : itree duct_event Z) (t : sys).
Hypothesis comes : comes_to way_conn listens dials (started p q) t.
Hypothesis wider : forall b m, room way_conn b m = true -> wide b m = true.
Hypothesis room_enough : (~ in_send (server t) /\ ~ in_send (client t)) \/ forall b m, wide b m = room way_conn b m.

Lemma dstarted_ok : dsys_ok (dstarted p q).
Proof. destruct start_ok as (Hok & _ & Hs & Hr). split_and!; [by split|by apply coupled_idle..]. Qed.

Lemma dstarted_seen : seen (dstarted p q) = started p q.
Proof.
  destruct start_ok as (_ & Hq & Hs & _). apply committed_sends in Hs. unfold seen, seen_net, dstarted.
  cbn [dserver dclient dlink c2s s2c d_listening d_dialled]. by rewrite !caught_up_id, Hq.
Qed.

Lemma same_room_step s a :
  (forall b m, wide b m = room way_conn b m) -> sys_step wide_conn listens dials s a -> sys_step way_conn listens dials s a.
Proof.
  intros Heq [ro Hm]. exists ro. assert (set_room (room way_conn) wide_conn = way_conn) as <-.
  { unfold wide_conn, set_room. by destruct way_conn. }
  apply move_wider; [|done]. intros b m. cbn. by rewrite Heq.
Qed.

Lemma wide_comes : exists n, forall j a, nsteps (sys_step wide_conn listens dials) j (started p q) a -> (j <= n)%nat.
Proof.
  destruct room_enough as [[Hs Hc]|Heq].
  - destruct (comes_to_wider way_conn wide listens dials wider _ _ comes Hs Hc) as [_ [n Hn]].
    exists n. intros j a Hj. by destruct (Hn j a).
  - destruct comes as [_ [n Hn]]. exists n. intros j a Hj. destruct (Hn j a) as [? _]; [|done].
    eapply nsteps_congruence with (f := id) in Hj; [exact Hj|]. intros s b. by apply same_room_step.
Qed.

Lemma duplex_end m u :
  nsteps (dstep listens dials) m (dstarted p q) u -> nf (dstep listens dials) u -> dsys_ok u /\ dstuck listens dials u /\ seen u = t.
Proof.
  intros Hm Hu. destruct (run_seen _ _ _ _ _ _ (step_is_seen listens dials) _ _ _ dstarted_ok Hm) as (Hok & j & Hj & _).
  rewrite dstarted_seen in Hj. pose proof (dstuck_nf _ _ _ Hu) as Hst. split_and!; [done..|].
  destruct (stuck_seen _ _ _ Hok Hst) as [Hnf _]. destruct room_enough as [[Hs Hc]|Heq].
  - by eapply (stuck_is_end way_conn wide); [..|eapply rtc_nsteps_2|].
  - destruct comes as [_ [n Hn]]. destruct (Hn j (seen u)) as [_ Hrest].
    { eapply nsteps_congruence with (f := id) in Hj; [exact Hj|]. intros s b. by apply same_room_step. }
    inversion Hrest as [|? ? v ? Hv]; [done|]. destruct Hnf. by exists v.
Qed.

Lemma duplex_runs : duplex_comes_to listens dials (dstarted p q) t.
Proof.
  destruct wide_comes as [n Hn]. rewrite <- dstarted_seen in Hn.
  exists (run_bound left_of (longest + longest) n (dstarted p q)). intros m u Hm. split_and!.
  - eapply (refined_runs _ _ _ _ _ _ (step_is_seen _ _)); [apply dstarted_ok|done..].
  - eapply (refined_runs_end _ _ _ _ _ _ (step_is_seen _ _)); [apply dstarted_ok|done|apply step_dec|done].
  - intros Hu. destruct (duplex_end _ _ Hm Hu) as (Hok & Hst & <-).
    by destruct (stuck_seen _ _ _ Hok Hst) as (_ & -> & ->).
Qed.

End runs.
