(* ===== verification/RingNetwork.v ===== *)
(** * Two programs over a shared-memory connection, access by access

    The connection of [Duplex] made of what src/shm_transport.cc makes it of: two
    rings of [ShmRing] with their semaphores. A call of [send] or [recv] is the
    memory accesses of [ShmRing.producer_step] and [ShmRing.consumer_step], and
    every access of one program may come between any two of the other.
    [programs_over_rings] carries what [Network] shows of two programs to their
    runs over the rings. *)

From S2P Require Import Prelude Status Wire Options Address Dial ShmRing Programs Runs Network Duplex.
From ITree Require Import ITree.

(** ** The calls, a step at a time *)

(** src/src/shm_transport.cc:386-386 [ShmPipe::send, the answer to a message that is too long] *)
Definition too_large : Status := invalid_argument "message too large; fragmentation TODO".
(** A shared-memory connection as [Network] sees it. *)
Definition shm_connection : connection :=
  mkConnection (holds (Z.to_nat kSlotCount)) (Z.to_nat kSlotPayloadMax) too_large None.

(** src/src/shm_transport.cc:385-404 [ShmPipe::send, a step of a call]

    The check of the size, the wait for a space without a timeout ([None] while
    there is none), then the accesses of [producer_step]. The answer is there when
    the call returns. *)
Definition send_step (m : list byte) (r : ring_state) : option (ring_state * option Status) :=
  let c := chan r in
  match prod r with
  | PIdle =>
      if len m >? kSlotPayloadMax then Some (r, Some too_large)
      else if 0 <? spaces c then
        Some (mkRS (mkChan (ring c) (items c) (spaces c - 1)) (PHold m) (cons r) (published r) (returned r), None)
      else None
  | p =>
      '(p', c') ← producer_step p c;
      Some (mkRS c' p' (cons r) (published r ++ publishes p) (returned r),
            match p' with PIdle => Some Ok | _ => None end)
  end.

(** src/src/shm_transport.cc:414-427 [ShmPipe::recv, a step of a call] *)
Definition recv_step (r : ring_state) : option (ring_state * option (Result (list byte))) :=
  let c := chan r in
  match cons r with
  | CIdle =>
      if 0 <? items c then
        Some (mkRS (mkChan (ring c) (items c - 1) (spaces c)) (prod r) CHold (published r) (returned r), None)
      else None
  | k =>
      '(k', c', v) ← consumer_step k c;
      Some (mkRS c' (prod r) k' (published r)
             (returned r ++ match v with Some v => [v] | None => [] end), v)
  end.

#[export] Instance ring_way : Way ring_state := {|
  choice := unit;
  a_choice := tt;
  way_conn := shm_connection;
  way_start := ring_start;
  way_send _ _ := send_step;
  way_recv _ _ _ := recv_step;
|}.

(** ** What is seen of a ring *)

(** The messages published and not yet returned. *)
Definition queued (r : ring_state) : list (list byte) := queue (ring_fifo r).

(** The message of a call of [send] under way. *)
Definition held (p : producer) : option (list byte) :=
  match p with PIdle => None | PHold m | PLoaded m _ | PLen m _ | PData m _ | PStored m => Some m end.

(** A message is published, and its call still to post the semaphore. *)
Definition published_it (p : producer) : bool := match p with PStored _ => true | _ => false end.

(** How many steps a call has until it takes effect; after it, [send] still posts. *)
Definition producer_left (p : producer) : nat :=
  match p with PIdle => 5 | PHold _ => 4 | PLoaded _ _ => 3 | PLen _ _ => 2 | PData _ _ => 1 | PStored _ => 6 end.
Definition consumer_left (k : consumer) : nat :=
  match k with CIdle => 5 | CHold => 4 | CLoaded _ => 3 | CLen _ _ => 2 | CData _ _ => 1 | CStored _ => 0 end.

#[export] Instance ring_seen : Seen ring_state := {|
  way_ok := reachable;
  messages := queued;
  sending r := held (prod r);
  receiving r := match cons r with CIdle => false | _ => true end;
  committed r := published_it (prod r);
  send_left r := producer_left (prod r);
  recv_left r := consumer_left (cons r);
  idle_left := 5;
  longest := 6;
  wide := room shm_connection;
|}.

(** ** A step of a ring *)

Lemma fits_small m : (length m <= limit shm_connection)%nat <-> small m.
Proof. unfold small. cbn [limit shm_connection]. unfold kSlotPayloadMax. lia. Qed.

Lemma queued_room r : reachable r -> len (queued r) = nP r - nC r + c_stored (cons r).
Proof. intros Hr. by apply ring_counts, reachable_inv. Qed.

Lemma ring_send_law m r r' x :
  reachable r -> held (prod r) = None \/ held (prod r) = Some m -> send_step m r = Some (r', x) ->
  reachable r' /\ cons r' = cons r /\ send_effect m r r' x.
Proof.
  intros Hr Hm. pose proof (reachable_inv _ Hr) as Hi. pose proof (inv_prod _ Hi) as Hp.
  pose proof (queued_room _ Hr) as Hq. pose proof (inv_spaces _ Hi) as Hsp. destruct (ring_counts _ Hi) as [Hle _].
  assert (Hnext : forall r', ring_step r r' -> reachable r') by (intros; eapply rtc_r; done).
  destruct r as [c p k pub ret]. unfold send_step, producer_inv in *. cbn [prod cons chan published returned] in *.
  destruct p as [|m'|m' h|m' h|m' h|m']; cbn [held producer_step publishes] in *; destruct Hm as [Hm|Hm]; simplify_eq/=.
  - destruct (gtb_spec (len m) kSlotPayloadMax) as [Hb|Hb]; [intros [= <- <-]|destruct (Z.ltb_spec 0 (spaces c)); intros [= <- <-]].
    + split_and!; [done..|]. apply (effect_refused (W := ring_way)); [done..|]. change (~ (length m <= limit shm_connection)%nat). rewrite fits_small. unfold small. lia.
    + split_and!; [apply Hnext, step_send_wait; lia|done|]. by apply effect_quiet; [..|cbn; lia].
  - intros [= <- <-]. split_and!; [by apply Hnext, step_producer|done|].
    by apply effect_quiet; cbn; rewrite ?app_nil_r; [..|lia].
  - intros [= <- <-]. split_and!; [by apply Hnext, step_producer|done|].
    by apply effect_quiet; cbn; rewrite ?app_nil_r; [..|lia].
  - intros [= <- <-]. split_and!; [by apply Hnext, step_producer|done|].
    by apply effect_quiet; cbn; rewrite ?app_nil_r; [..|lia].
  - intros [= <- <-]. split_and!; [by apply Hnext, step_producer|done|].
    apply effect_commit; [done..| |split; [apply fits_small, Hp|]].
    + unfold messages, ring_seen, queued, ring_fifo. cbn. by rewrite drop_app_le.
    + apply bool_decide_eq_true_2. unfold nP, nC in *. cbn in *. pose proof (c_stored_range k). unfold kSlotCount in *. lia.
  - intros [= <- <-]. split_and!; [by apply Hnext, step_producer|done|].
    apply effect_return; [done..|]. unfold messages, ring_seen, queued, ring_fifo. cbn. by rewrite app_nil_r.
Qed.

(** Past the wait a step of [recv] is one of [consumer_step]. *)
Lemma recv_step_cases r r' x :
  recv_step r = Some (r', x) ->
  (cons r = CIdle /\ x = None /\ 0 < items (chan r) /\
   r' = mkRS (mkChan (ring (chan r)) (items (chan r) - 1) (spaces (chan r))) (prod r) CHold (published r) (returned r)) \/
  (cons r <> CIdle /\ exists k' c', consumer_step (cons r) (chan r) = Some (k', c', x) /\
   r' = mkRS c' (prod r) k' (published r) (returned r ++ match x with Some v => [v] | None => [] end)).
Proof.
  intros Hs. assert (cons r = CIdle \/ cons r <> CIdle) as [Hk|Hk] by (destruct (cons r); auto).
  - left. unfold recv_step in Hs. rewrite Hk in Hs. destruct (Z.ltb_spec 0 (items (chan r))); [|done].
    by injection Hs as <- <-.
  - right. split; [done|].
    assert (Hs' : ('(k', c', v) ← consumer_step (cons r) (chan r);
                   Some (mkRS c' (prod r) k' (published r) (returned r ++ match v with Some v => [v] | None => [] end), v)) =
                  Some (r', x)) by (rewrite <- Hs; unfold recv_step; by destruct (cons r)).
    destruct (consumer_step (cons r) (chan r)) as [[[k' c'] v]|]; [|done]. injection Hs' as <- <-. eauto.
Qed.

Lemma ring_recv_law gone r r' x :
  reachable r -> recv_step r = Some (r', x) -> reachable r' /\ prod r' = prod r /\ recv_effect gone r r' x.
Proof.
  intros Hr Hs. destruct (recv_step_cases _ _ _ Hs) as [(Hk & -> & Hit & ->)|(Hk & k' & c' & Hst & ->)];
    destruct r as [c p k pub ret]; cbn [chan prod cons published returned] in *.
  - subst k. split_and!; [eapply rtc_r; [done|by apply step_recv_wait]|done|]. by apply effect_wait; [..|cbn; lia].
  - assert (Hr' : reachable (mkRS c' p k' pub (ret ++ match x with Some v => [v] | None => [] end)))
      by (eapply rtc_r; [done|by apply step_consumer]).
    split_and!; [done..|]. destruct x as [v|].
    + destruct (ring_counts _ (reachable_inv _ Hr')) as [Hle _].
      pose proof (inv_returned _ (reachable_inv _ Hr')) as Hret. cbn [published returned] in *.
      rewrite length_app, Nat.add_1_r in *. cbn [length] in *.
      destruct (lookup_lt_is_Some_2 pub (length ret)) as [m Hm]; [lia|].
      rewrite (take_S_r _ _ m), map_app in Hret by done.
      apply app_inj_tail in Hret as [_ ->].
      apply effect_get; [by destruct k; simplify_eq/=; repeat case_match; simplify_eq/=|].
      unfold messages, ring_seen, queued, ring_fifo. cbn [published returned queue]. rewrite length_app, Nat.add_1_r. by apply drop_S.
    + rewrite app_nil_r. apply effect_wait; [done|]. unfold recv_left, ring_seen.
      destruct k; simplify_eq/=; repeat case_match; simplify_eq/=; lia.
Qed.

Lemma send_step_waits m r :
  reachable r -> send_step m r = None ->
  prod r = PIdle /\ small m /\ room shm_connection (queued r) m = false.
Proof.
  intros Hr Hs. pose proof (queued_room _ Hr) as Hq. pose proof (inv_spaces _ (reachable_inv _ Hr)) as Hsp.
  destruct r as [c p k pub ret]. unfold send_step in Hs. cbn [prod chan cons] in *.
  destruct p; try done. destruct (gtb_spec (len m) kSlotPayloadMax); [done|].
  destruct (Z.ltb_spec 0 (spaces c)); [done|]. split_and!; [done|unfold small; lia|].
  apply bool_decide_eq_false_2. cbn [p_holds] in *. unfold kSlotCount in *. lia.
Qed.

Lemma recv_step_waits r : reachable r -> recv_step r = None -> published_it (prod r) = false -> queued r = [].
Proof.
  intros Hr Hs. pose proof (queued_room _ Hr) as Hq. pose proof (inv_items _ (reachable_inv _ Hr)) as Hit.
  destruct r as [c p k pub ret]. unfold recv_step in Hs. cbn [prod chan cons] in *.
  destruct k; cbn in Hs; repeat case_match; try done. intros Hp. assert (p_stored p = 0) by by destruct p.
  apply length_zero_iff_nil. cbn [c_holds c_stored] in *. lia.
Qed.

(** The rings keep the promise of [Duplex]. *)
#[export] Instance ring_seen_way : SeenWay ring_state.
Proof.
  split.
  - by split; [apply rtc_refl|].
  - intros ro [] m r r' x Hr Hm Hs. destruct (ring_send_law m r r' x Hr Hm Hs) as (? & Hk & ?). cbn. by rewrite Hk.
  - intros ro [] gone r r' x Hr _ Hs. destruct (ring_recv_law gone r r' x Hr Hs) as (? & Hp & ?). cbn. by rewrite Hp.
  - intros ro [] m r Hr _ Hs. destruct (send_step_waits m r Hr Hs) as (Hp & Hm & Hroom).
    split_and!; [cbn; by rewrite Hp|by apply fits_small|done|by intros []].
  - intros ro [] gone r Hr Hs. split; [|by intros []]. intros Hp. split; [|done]. by apply recv_step_waits.
  - intros r. cbn. by destruct (prod r).
  - intros r. cbn. destruct (prod r); done || (cbn; lia).
  - intros r. cbn. by destruct (cons r).
  - intros r _. cbn. destruct (prod r), (cons r); cbn; lia.
Qed.

(** Two programs over the rings. *)
Abbreviation rings_step := (dstep (D := ring_state)).
Abbreviation rings_started := (dstarted (D := ring_state)).
Abbreviation rings_come_to := (duplex_comes_to (D := ring_state)).

Lemma rings_runs listens dials p q t :
  comes_to shm_connection listens dials (started p q) t -> rings_come_to listens dials (rings_started p q) t.
Proof. intros Ht. apply (duplex_runs (D := ring_state)); [apply holds_keeps..|exact Ht|done|by right]. Qed.

(** ** Theorems *)

(** C9: the rings of shared memory do for two programs what the connection of
    [Network] does: if every schedule of the two over a connection that holds 64
    messages of up to 64 KiB each way comes to a state, then every interleaving of
    their memory accesses and semaphore operations over the two rings is finite,
    can be continued to an end, and ends with the same output and exit codes and
    the same messages left. *)
Theorem programs_over_rings listens dials p q t :
  comes_to shm_connection listens dials (started p q) t -> rings_come_to listens dials (rings_started p q) t.
Proof. apply rings_runs. Qed.

(** shm_test as client against shm_test as server over the rings: however
    the accesses of the two interleave, both come to their end and exit with 0,
    the server having printed the five messages and the client their echoes. *)
Theorem shm_test_over_rings bus_name argv0 argv0' :
  exists n, forall m u,
    nsteps (rings_step (fun _ => Ok) (fun _ => Ok)) m
      (rings_started (shm_test [argv0; "server"; bus_name]) (shm_test [argv0'; "client"; bus_name])) u ->
    (m <= n)%nat /\
    (nf (rings_step (fun _ => Ok) (fun _ => Ok)) u ->
     exit_code (dserver u) = Some 0 /\ exit_code (dclient u) = Some 0 /\
     wrote (dserver u) =
       map ToOut (["Starting Windows shared memory server on bus: " +:+ bus_name; "Waiting for client connection...";
                   "Client connected!"] ++
                  map (fun i => "Server received: " +:+ client_message i) (numbers 5) ++ ["Server done."]) /\
     wrote (dclient u) =
       map ToOut (["Starting Windows shared memory client to bus: " +:+ bus_name; "Connected to server!"] ++
                  map (fun i => "Client sent: " +:+ client_message i) (numbers 5) ++
                  map (fun i => "Client received echo: " +:+ client_message i) (numbers 5) ++ ["Client done."]) /\
     queued (c2s (dlink u)) = [] /\ queued (s2c (dlink u)) = []).
Proof.
  destruct (shm_test_programs 59 65472 too_large None bus_name argv0 argv0') as (t & Ht & Hs & Hws & Hc & Hwc & Hl1 & Hl2).
  change (mkConnection (holds (5 + 59)) _ _ _) with shm_connection in Ht.
  destruct (rings_runs _ _ _ _ _ Ht) as [n Hn].
  exists n. intros m u Hm. destruct (Hn m u Hm) as (Hb & _ & Hend). split; [done|].
  intros Hu. destruct (Hend Hu) as (-> & -> & Hl).
  rewrite <- Hl in Hl1, Hl2. by split_and!.
Qed.

(** ** Witnesses *)

(** The echo programs over shared memory, and the state they come to: the client
    has its echo, the server waits in [recv] for ever. *)
Definition echo_server_prog : itree duct_event Z := duct_echo_server ["s"; "shm://bus"].
Definition echo_client_prog : itree duct_event Z := duct_echo_client ["c"; "shm://bus"; "hi"].
Definition echo_rings_end : sys :=
  (schedule shm_connection (fun _ => Ok) (fun _ => Ok) 100 (started echo_server_prog echo_client_prog)).2.

Lemma programs_over_rings_witness :
  exit_code (client echo_rings_end) = Some 0 /\ wrote (client echo_rings_end) = [ToOut "hi"] /\
  in_recv (server echo_rings_end) /\
  rings_come_to (fun _ => Ok) (fun _ => Ok) (rings_started echo_server_prog echo_client_prog) echo_rings_end.
Proof.
  split; [vm_compute; reflexivity|]. split; [vm_compute; reflexivity|]. split; [vm_compute; exact I|].
  apply (programs_over_rings (fun _ => Ok) (fun _ => Ok) echo_server_prog echo_client_prog echo_rings_end).
  apply (schedule_comes_to shm_connection (fun _ => Ok) (fun _ => Ok) 100); vm_compute; reflexivity.
Defined.
