(* ===== verification/StreamNetwork.v ===== *)
(** * Two programs over streams of bytes

    The connection of [Duplex] made of what src/wire.cc and a stream socket make
    of it: two streams of bytes with room for [B] bytes each. A call of [send] or
    [recv] is the transfers of the loops of [write_all] and [read_exact]: each
    moves as many bytes as the system likes, one at least, and the transfers of
    one program come between those of the other in every way.
    [programs_over_streams] carries what [Network] shows of two programs to their
    runs over the streams; [stream_steps_are_wire] says that the steps are those of
    [Wire]. An interrupted transfer, which the loops repeat, changes nothing and has
    no step, and the connection does not fail: [Wire] has both. *)

From S2P Require Import Prelude Status Wire Options Address Dial Programs Runs Network Duplex.
From ITree Require Import ITree.

(** ** The calls, a transfer at a time *)

(** Where a side is in [write_frame]: not in it, in [write_all] of the header or of
    the message, with what is left to write. *)
Inductive writer :=
| WIdle
| WHead (m rest : list byte)
| WBody (m rest : list byte).

(** Where a side is in [read_frame]: in [read_exact] of the header or of the
    message, with what has been read. A side that is not in it has read nothing. *)
Inductive reader :=
| RHead (got : list byte)
| RBody (h : FrameHeader) (got : list byte).

(** One way of the connection: the bytes in the system, the two calls, and, for the
    proofs, the messages sent and not yet received. *)
Record stream := mkStream { held : list byte; wr : writer; rd : reader; whole : list (list byte) }.

(** src/src/wire.cc:160-162 [write_frame, the answer to a message that is too long] *)
Definition frame_too_large : Status := invalid_argument "message too large; enable fragmentation (todo)".

Section calls.
Context (B : nat) {H : HostOrder}.

(** src/src/wire.cc:113-128 [write_all, a turn of the loop]

    A [::send] that transfers: it waits for room ([None]) and takes what fits of
    what it likes. *)
Definition write_some (k : nat) (p held : list byte) : option (list byte * list byte) :=
  let room := (B - length held)%nat in
  if (room =? 0)%nat then None
  else
    let w := Z.to_nat (sys_send (EvXfer k) (Nat.min (length p) room)).1 in
    Some (drop w p, held ++ take w p).

(** src/src/wire.cc:138-152 [read_exact, a turn of the loop]

    A [::recv] that transfers: it waits for bytes ([None]). *)
Definition read_some (k n : nat) (held : list byte) : option (list byte * list byte) :=
  '(r, _) ← sys_recv (EvXfer k) n (length held);
  Some (take (Z.to_nat r) held, drop (Z.to_nat r) held).

(** src/src/wire.cc:159-176 [write_frame, a step of a call]

    The check of the size and the header, then the transfers. The answer is there
    when the call returns. *)
Definition send_step (k : nat) (m : list byte) (s : stream) : option (stream * option Status) :=
  let sent b := (mkStream b WIdle (rd s) (whole s ++ [m]), Some Ok) in
  match wr s with
  | WIdle =>
      if len m >? kMaxFramePayload then Some (s, Some frame_too_large)
      else Some (mkStream (held s) (WHead m (encode_header (frame_header m 0) hdr_buffer)) (rd s) (whole s), None)
  | WHead _ rest =>
      '(rest, b) ← write_some k rest (held s);
      Some match rest, m with
           | _ :: _, _ => (mkStream b (WHead m rest) (rd s) (whole s), None)
           | [], _ :: _ => (mkStream b (WBody m m) (rd s) (whole s), None)
           | [], [] => sent b
           end
  | WBody _ rest =>
      '(rest, b) ← write_some k rest (held s);
      Some match rest with
           | _ :: _ => (mkStream b (WBody m rest) (rd s) (whole s), None)
           | [] => sent b
           end
  end.

(** What [read_exact] still waits for. *)
Definition wanted (r : reader) : nat :=
  match r with
  | RHead got => Z.to_nat kHeaderLen - length got
  | RBody h got => Z.to_nat (payload_len h) - length got
  end.

(** src/src/wire.cc:178-192 [read_frame, a step of a call]

    The end of the stream is read where no byte is left and the other side is
    closed. *)
Definition recv_step (k : nat) (peer_gone : bool) (s : stream) : option (stream * option (Result (list byte))) :=
  let got_all b v := (mkStream b (wr s) (RHead []) (tail (whole s)), Some (RValue v)) in
  match read_some k (wanted (rd s)) (held s) with
  | None =>
      if peer_gone then Some (mkStream (held s) (wr s) (RHead []) (whole s), Some (RStatus (closed "peer closed")))
      else None
  | Some (bs, b) =>
      Some match rd s with
           | RHead got =>
               let hdr := got ++ bs in
               if (length hdr <? Z.to_nat kHeaderLen)%nat then (mkStream b (wr s) (RHead hdr) (whole s), None)
               else
                 match decode_header hdr with
                 | RStatus e => (mkStream b (wr s) (RHead []) (whole s), Some (RStatus e))
                 | RValue h =>
                     if negb (payload_len h =? 0) then (mkStream b (wr s) (RBody h []) (whole s), None)
                     else got_all b []
                 end
           | RBody h got =>
               let buf := got ++ bs in
               if (length buf <? Z.to_nat (payload_len h))%nat then (mkStream b (wr s) (RBody h buf) (whole s), None)
               else got_all b buf
           end
  end.

End calls.

Definition stream_start : stream := mkStream [] WIdle (RHead []) [].

(** A stream connection as [Network] sees it: room for the frames of its messages. *)
Definition stream_room (B : nat) (q : list (list byte)) (m : list byte) : bool :=
  bool_decide (frames_size (q ++ [m]) <= B)%nat.
Definition stream_connection (B : nat) : connection :=
  mkConnection (stream_room B) (Z.to_nat kMaxFramePayload) frame_too_large (Some (closed "peer closed")).

#[export] Instance stream_keeps B : KeepsRoom (stream_connection B).
Proof.
  split. intros m0 q m [=Hr%bool_decide_eq_true_1]. apply bool_decide_eq_true_2.
  cbn [app] in Hr. rewrite frames_size_cons in Hr. lia.
Qed.

#[export] Instance stream_way (B : nat) (host : role -> HostOrder) : Way stream := {|
  choice := nat;
  a_choice := O;
  way_conn := stream_connection B;
  way_start := stream_start;
  way_send ro := send_step B (H := host ro);
  way_recv ro := recv_step (H := host ro);
|}.

(** ** What the bytes of a stream stand for *)

(** The message of the call under way, and what is left to write of its frame. *)
Definition pending (w : writer) : list (list byte) :=
  match w with WIdle => [] | WHead m _ | WBody m _ => [m] end.
Definition unwritten (w : writer) : list byte :=
  match w with WIdle => [] | WHead m rest => rest ++ m | WBody _ rest => rest end.
(** What has been read of a frame. *)
Definition read_part (r : reader) : list byte :=
  match r with RHead got => got | RBody h got => header_bytes h ++ got end.

Definition writer_ok (w : writer) : Prop :=
  match w with
  | WIdle => True
  | WHead _ rest => (0 < length rest <= 16)%nat
  | WBody m rest => (0 < length rest <= length m)%nat
  end.
Definition reader_ok (ms : list (list byte)) (r : reader) : Prop :=
  match r with
  | RHead got => (length got < 16)%nat
  | RBody h got => exists m q, ms = m :: q /\ h = frame_header m 0 /\ (length got < length m)%nat
  end.

(** What has been read, is in the system and is left to write are the frames of the
    messages that are not yet received. *)
Record stream_ok (s : stream) : Prop := mkStreamOk {
  ok_fits : Forall fits (whole s ++ pending (wr s));
  ok_bytes : read_part (rd s) ++ held s ++ unwritten (wr s) = frames (whole s ++ pending (wr s));
  ok_writer : writer_ok (wr s);
  ok_reader : reader_ok (whole s ++ pending (wr s)) (rd s);
}.

(** How many steps a side has at most until its call takes effect. *)
Definition write_left (w : writer) : nat :=
  match w with WIdle => 0 | WHead m rest => length rest + length m | WBody _ rest => length rest end.
Definition read_left (r : reader) : nat :=
  match r with
  | RHead got => 16 - length got + Z.to_nat (kMaxFramePayload + 1)
  | RBody h got => Z.to_nat (payload_len h) - length got
  end.
#[export] Instance stream_seen : Seen stream := {|
  way_ok := stream_ok;
  messages := whole;
  sending s := head (pending (wr s));
  receiving s := match rd s with RHead [] => false | _ => true end;
  committed _ := false;
  send_left s := write_left (wr s);
  recv_left s := read_left (rd s);
  idle_left := read_left (RHead []);
  longest := read_left (RHead []);
  wide := endless;
|}.

Lemma xfer_cases k n : (0 < n)%nat -> (0 < Z.to_nat (sys_send (EvXfer k) n).1 <= n)%nat.
Proof. intros Hn. cbn. lia. Qed.

Lemma write_some_spec B k p b p' b' :
  write_some B k p b = Some (p', b') -> p <> [] ->
  (length b < B)%nat /\ (length p' < length p)%nat /\ b' ++ p' = b ++ p.
Proof.
  unfold write_some. intros Hw Hp. destruct (Nat.eqb_spec (B - length b) 0); [done|]. injection Hw as <- <-.
  assert (0 < length p)%nat by by destruct p; cbn; lia || done.
  pose proof (xfer_cases k (Nat.min (length p) (B - length b)) ltac:(lia)) as Hx.
  split_and!; [lia|rewrite length_drop; lia|]. by rewrite <- app_assoc, take_drop.
Qed.

Lemma write_some_waits B k p b : write_some B k p b = None <-> (B <= length b)%nat.
Proof. unfold write_some. destruct (Nat.eqb_spec (B - length b) 0); split; done || lia. Qed.

Lemma read_some_spec k n b bs b' :
  read_some k n b = Some (bs, b') -> (0 < n)%nat -> (0 < length bs <= n)%nat /\ bs ++ b' = b.
Proof.
  unfold read_some, sys_recv. intros Hr Hn. destruct (Nat.eqb_spec (length b) 0) as [|Hb]; [done|].
  pose proof (xfer_cases k (Nat.min n (length b)) ltac:(lia)) as Hx.
  destruct (sys_send _ _) as [r e]. cbn in Hr, Hx. injection Hr as <- <-.
  split; [rewrite length_take; lia|apply take_drop].
Qed.

Lemma read_some_waits k n b : read_some k n b = None <-> b = [].
Proof. unfold read_some, sys_recv. destruct b; cbn; split; done. Qed.

(** ** The steps of a call are those of write_frame and read_frame *)

(** A call with nothing between its steps. *)
Fixpoint send_run {H : HostOrder} (B : nat) (ks : list nat) (m : list byte) (s : stream) : option (stream * Status) :=
  match ks with
  | [] => None
  | k :: ks => '(s, x) ← send_step B k m s; match x with Some x => Some (s, x) | None => send_run B ks m s end
  end.
Fixpoint recv_run {H : HostOrder} (ks : list nat) (s : stream) : option (stream * Result (list byte)) :=
  match ks with
  | [] => None
  | k :: ks => '(s, x) ← recv_step k false s; match x with Some x => Some (s, x) | None => recv_run ks s end
  end.

(** The same answer with the same bytes left, or neither returns. *)
Definition agrees {A} (bytes : sock -> list byte) (o : option (stream * A)) (r : Wire.run A) : Prop :=
  match o, r with
  | Some (s, x), Done y sk => x = y /\ held s = bytes sk
  | None, Blocks _ => True
  | _, _ => False
  end.

(** A turn of [write_all] with room for all that is left. *)
Lemma write_roomy B k evs p b :
  p <> [] -> (length b + length p <= B)%nat ->
  exists p' b', write_some B k p b = Some (p', b') /\ (length b' + length p' = length b + length p)%nat /\
    write_all_loop (EvXfer k :: evs) [] b p = write_all_loop evs [] b' p'.
Proof.
  intros Hp HB. assert (0 < length p)%nat by (destruct p; [done|cbn; lia]).
  set (w := Nat.min (Nat.max 1 k) (length p)). exists (drop w p), (b ++ take w p).
  assert (Hw : (0 < w)%nat) by lia. split_and!.
  - unfold write_some. destruct (Nat.eqb_spec (B - length b) 0); [lia|]. rewrite (Nat.min_l (length p)) by lia.
    cbn [sys_send fst]. by rewrite Nat2Z.id.
  - rewrite length_app, length_take, length_drop. lia.
  - destruct p; [done|]. cbn [write_all_loop sys_send]. fold w.
    rewrite (proj2 (Z.ltb_ge _ _)), (proj2 (Z.eqb_neq _ _)), Nat2Z.id by lia. done.
Qed.

Lemma write_done evs inb out : write_all_loop evs inb out [] = Done Ok (mkSock evs inb out).
Proof. by destruct evs. Qed.

Lemma body_run {H : HostOrder} B ks m rest b r ms :
  rest <> [] -> (length b + length rest <= B)%nat ->
  agrees so_out (send_run B ks m (mkStream b (WBody m rest) r ms)) (write_all_loop (map EvXfer ks) [] b rest).
Proof.
  revert rest b. induction ks as [|k ks IH]; intros rest b Hr HB; [by destruct rest|].
  destruct (write_roomy B k (map EvXfer ks) rest b) as (rest' & b' & Hw & HB' & Hloop); [done..|].
  cbn [map]. rewrite Hloop. cbn [send_run]. unfold send_step. cbn [wr held]. rewrite Hw. cbn.
  destruct rest' as [|c rest']; [by rewrite write_done|]. apply IH; [done|lia].
Qed.

Lemma head_run {H : HostOrder} B ks m rest b r ms :
  rest <> [] -> (length b + length rest + length m <= B)%nat ->
  agrees so_out (send_run B ks m (mkStream b (WHead m rest) r ms))
    (match write_all_loop (map EvXfer ks) [] b rest with
     | Blocks s' => Blocks s'
     | Done st s' => if status_ok st then write_all s' m else Done st s'
     end).
Proof.
  revert rest b. induction ks as [|k ks IH]; intros rest b Hr HB; [by destruct rest|].
  destruct (write_roomy B k (map EvXfer ks) rest b) as (rest' & b' & Hw & HB' & Hloop); [done|lia|].
  cbn [map]. rewrite Hloop. cbn [send_run]. unfold send_step. cbn [wr held]. rewrite Hw. cbn.
  destruct rest' as [|c rest']; [|apply IH; [done|lia]]. rewrite write_done. cbn.
  unfold write_all. cbn [so_evs so_in so_out]. destruct m as [|c m]; [by rewrite write_done|].
  apply body_run; [done|cbn in *; lia].
Qed.

(** A turn of [read_exact]. *)
Lemma read_turn k n evs out buf b :
  (0 < n)%nat ->
  match read_some k n b with
  | None => exists s, read_exact_loop (EvXfer k :: evs) b out buf n = Blocks s
  | Some (bs, b') =>
      read_exact_loop (EvXfer k :: evs) b out buf n = read_exact_loop evs b' out (buf ++ bs) (n - length bs)
  end.
Proof.
  intros Hn. destruct n as [|n]; [lia|]. unfold read_some. cbn [read_exact_loop sys_recv].
  destruct (Nat.eqb_spec (length b) 0) as [|Hb]; cbn [mbind option_bind]; [by eexists|].
  cbn [sys_send]. set (r := Nat.min (Nat.max 1 k) (Nat.min (S n) (length b))). assert (Hr : (0 < r <= length b)%nat) by lia.
  rewrite (proj2 (Z.ltb_ge _ _)), (proj2 (Z.eqb_neq _ _)), Nat2Z.id by lia. by rewrite length_take_le by lia.
Qed.

Lemma read_done evs inb out buf : read_exact_loop evs inb out buf 0 = Done (Ok, buf) (mkSock evs inb out).
Proof. by destruct evs. Qed.

Lemma body_recv {H : HostOrder} ks h got b w ms out :
  (length got < Z.to_nat (payload_len h))%nat ->
  agrees so_in (recv_run ks (mkStream b w (RBody h got) ms))
    (match read_exact_loop (map EvXfer ks) b out got (Z.to_nat (payload_len h) - length got) with
     | Blocks s' => Blocks s'
     | Done (st', buf) s' => if status_ok st' then Done (RValue buf) s' else Done (RStatus st') s'
     end).
Proof.
  revert got b. induction ks as [|k ks IH]; intros got b Hg.
  - cbn. by destruct (Z.to_nat _ - _)%nat eqn:E; [lia|].
  - cbn [map recv_run]. unfold recv_step. cbn [rd held wanted].
    pose proof (read_turn k (Z.to_nat (payload_len h) - length got) (map EvXfer ks) out got b ltac:(lia)) as Ht.
    destruct (read_some _ _ _) as [[bs b']|] eqn:E; [|by destruct Ht as [? ->]].
    apply read_some_spec in E as [Hl _]; [|lia]. rewrite Ht, <- Nat.sub_add_distr, <- length_app. cbn [wr whole].
    destruct (Nat.ltb_spec (length (got ++ bs)) (Z.to_nat (payload_len h))); [by apply IH|].
    rewrite (proj2 (Nat.sub_0_le _ _)), read_done by done. done.
Qed.

Lemma head_recv {H : HostOrder} ks got b w ms out :
  (length got < 16)%nat ->
  agrees so_in (recv_run ks (mkStream b w (RHead got) ms))
    (match read_exact_loop (map EvXfer ks) b out got (16 - length got) with
     | Blocks s' => Blocks s'
     | Done (st, hdr) s' =>
         if negb (status_ok st) then Done (RStatus st) s'
         else
           match decode_header hdr with
           | RStatus e => Done (RStatus e) s'
           | RValue h =>
               if negb (payload_len h =? 0) then
                 match read_exact s' (Z.to_nat (payload_len h)) with
                 | Blocks s'' => Blocks s''
                 | Done (st', buf) s'' =>
                     if status_ok st' then Done (RValue buf) s'' else Done (RStatus st') s''
                 end
               else Done (RValue []) s'
           end
     end).
Proof.
  revert got b. induction ks as [|k ks IH]; intros got b Hg.
  - cbn [map]. by destruct (16 - length got)%nat eqn:E; [lia|].
  - cbn [map recv_run]. unfold recv_step. cbn [rd held wanted]. change (Z.to_nat kHeaderLen) with 16%nat.
    pose proof (read_turn k (16 - length got) (map EvXfer ks) out got b ltac:(lia)) as Ht.
    destruct (read_some _ _ _) as [[bs b']|] eqn:E; [|by destruct Ht as [? ->]].
    apply read_some_spec in E as [Hl _]; [|lia]. rewrite Ht, <- Nat.sub_add_distr, <- length_app. cbn [wr whole].
    destruct (Nat.ltb_spec (length (got ++ bs)) 16); [by apply IH|].
    rewrite (proj2 (Nat.sub_0_le _ _)), read_done by done. cbn [status_ok code negb]. simpl negb. cbv iota.
    assert (length (got ++ bs) = 16)%nat as Hd%decode_header_cases by (rewrite length_app in *; lia).
    destruct (decode_header (got ++ bs)) as [h|e]; [|done]. destruct Hd as (_ & (_ & _ & _ & Hpay & _) & _).
    destruct (Z.eqb_spec (payload_len h) 0) as [Hz|Hz]; simpl negb; cbv iota; [done|].
    unfold read_exact. cbn [so_evs so_in so_out]. rewrite <- (Nat.sub_0_r (Z.to_nat (payload_len h))).
    apply body_recv. cbn. lia.
Qed.

(** ** A step of a stream *)

(** A turn of [write_all] moves bytes on. *)
Lemma write_turn B k rest b rest' b' front back :
  write_some B k rest b = Some (rest', b') -> (0 < length rest)%nat ->
  front ++ b' ++ rest' ++ back = front ++ b ++ rest ++ back /\ (length rest' < length rest)%nat.
Proof.
  intros Hw Hl. apply write_some_spec in Hw as (_ & Hlt & Hcat); [|intros ->; cbn in Hl; lia].
  split; [|done]. by rewrite (app_assoc b'), Hcat, <- app_assoc.
Qed.

Lemma fits_last ms m : Forall fits (ms ++ [m]) -> fits m.
Proof. rewrite Forall_app, Forall_singleton. tauto. Qed.

Lemma fits_limit B m : (length m <= limit (stream_connection B))%nat <-> fits m.
Proof. unfold fits. cbn [limit stream_connection]. unfold kMaxFramePayload. lia. Qed.

Lemma stream_send_law B host ro k m s s' x :
  stream_ok s -> head (pending (wr s)) = None \/ head (pending (wr s)) = Some m ->
  send_step B (H := host ro) k m s = Some (s', x) ->
  stream_ok s' /\ rd s' = rd s /\ send_effect (W := stream_way B host) m s s' x.
Proof.
  intros [Hf Hb Hw Hr] Hm. unfold send_step.
  destruct s as [b w r ms]. cbn [wr rd held whole] in *. destruct w as [|m' rest|m' rest]; cbn [pending unwritten] in *.
  - rewrite encode_header_bytes, !app_nil_r in * by done.
    destruct (gtb_spec (len m) kMaxFramePayload) as [Hl|Hl]; intros [= <- <-].
    { split_and!; [split; by rewrite ?app_nil_r|done|]. apply (effect_refused (W := stream_way B host)); [done..|]. rewrite fits_limit. unfold fits. lia. }
    split_and!; [|done|apply effect_quiet; [done..|cbn [send_left sending stream_seen head pending idle_left write_left read_left wr length]; rewrite header_bytes_length; unfold kMaxFramePayload in *; lia]].
    split; cbn [wr rd held whole pending unwritten].
    + apply Forall_app. split; [done|]. apply Forall_singleton. unfold fits. lia.
    + rewrite frames_app, <- Hb, <- !app_assoc. by rewrite frames_cons, app_nil_r.
    + cbn [writer_ok]. rewrite header_bytes_length. lia.
    + unfold reader_ok in *. destruct r as [|h got]; [done|]. destruct Hr as (m0 & q & -> & ? & ?).
      by exists m0, (q ++ [m]).
  - destruct Hm as [[=]|[= ->]]. pose proof (fits_last _ _ Hf) as Hfm.
    destruct (write_some B k rest b) as [[rest' b']|] eqn:E; [|done]. cbn.
    apply (write_turn _ _ _ _ _ _ (read_part r) m) in E as [Hcat Hlt]; [|cbn in Hw; lia]. rewrite <- Hcat in Hb.
    destruct rest' as [|c rest']; [destruct m as [|c m]|]; intros [= <- <-].
    + split_and!; [split; cbn in *; rewrite ?app_nil_r in *; done|done|by apply effect_put; [..|split; [apply (fits_limit B)|]]].
    + split_and!; [split; cbn in *; done || lia|done|]. apply effect_quiet; [done..|cbn in *; lia].
    + split_and!; [split; cbn in *; done || lia|done|]. apply effect_quiet; [done..|cbn in *; lia].
  - destruct Hm as [[=]|[= ->]]. pose proof (fits_last _ _ Hf) as Hfm.
    destruct (write_some B k rest b) as [[rest' b']|] eqn:E; [|done]. cbn.
    apply (write_turn _ _ _ _ _ _ (read_part r) []) in E as [Hcat Hlt]; [|cbn in Hw; lia].
    rewrite !app_nil_r in Hcat. rewrite <- Hcat in Hb.
    destruct rest' as [|c rest']; intros [= <- <-].
    + split_and!; [split; cbn in *; rewrite ?app_nil_r in *; done|done|by apply effect_put; [..|split; [apply (fits_limit B)|]]].
    + split_and!; [split; cbn in *; done || lia|done|]. apply effect_quiet; [done..|cbn in *; lia].
Qed.

Lemma header_decoded {H : HostOrder} m :
  fits m -> decode_header (header_bytes (frame_header m 0)) = RValue (frame_header m 0).
Proof. intros Hm. destruct (frame_header_wf m 0) as (Hwf & Hck & _); [done..|]. by rewrite decode_header_bytes. Qed.

Lemma frame_payload m : fits m -> payload_len (frame_header m 0) = len m.
Proof. intros Hm. by destruct (frame_header_wf m 0) as (_ & _ & ?). Qed.

(** Sixteen bytes off the front of frames are the header of the first. *)
Lemma header_off hdr back ms :
  length hdr = 16%nat -> hdr ++ back = frames ms ->
  exists m q, ms = m :: q /\ hdr = header_bytes (frame_header m 0) /\ back = m ++ frames q.
Proof.
  intros Hl Hb. destruct ms as [|m q]; [by destruct hdr|]. rewrite frames_cons in Hb.
  unfold frame_bytes in Hb. rewrite <- app_assoc in Hb. apply app_inj_1 in Hb as [-> ->]; [|by rewrite header_bytes_length].
  by exists m, q.
Qed.

(** A message of which nothing is left to write is one of those sent. *)
Lemma first_sent ms w m q b :
  writer_ok w -> ms ++ pending w = m :: q -> b ++ unwritten w = frames q ->
  exists ms', ms = m :: ms' /\ q = ms' ++ pending w.
Proof.
  intros Hw Hms Hb. destruct ms as [|m0 ms']; [|injection Hms as -> <-; eauto].
  destruct w as [|m0 rest|m0 rest]; [done|..]; injection Hms as -> <-; cbn in Hw;
    apply (f_equal length) in Hb; cbn in Hb; rewrite !length_app in Hb; lia.
Qed.

(** Less than a frame with nothing to follow is nothing. *)
Lemma nothing_read ms r :
  reader_ok ms r -> Forall fits ms -> read_part r = frames ms -> ms = [].
Proof.
  intros Hr Hf Hb. apply (f_equal length) in Hb. rewrite frames_length in Hb.
  destruct r as [got|h got]; cbn [read_part reader_ok] in Hr, Hb.
  - destruct ms; [done|]. rewrite frames_size_cons in Hb. lia.
  - destruct Hr as (m & q & -> & -> & Hl). rewrite length_app, header_bytes_length, frames_size_cons in Hb. lia.
Qed.

Lemma wanted_pos ms r : reader_ok ms r -> Forall fits ms -> (0 < wanted r)%nat.
Proof.
  intros Hr Hf. destruct r as [got|h got]; cbn in Hr |- *; [unfold kHeaderLen; lia|].
  destruct Hr as (m & q & -> & -> & Hl). apply Forall_inv in Hf. rewrite frame_payload by done. lia.
Qed.

(** A message that has been read whole. *)
Lemma got_all w ms m q b got :
  writer_ok w -> Forall fits (ms ++ pending w) -> ms ++ pending w = m :: q ->
  got ++ b ++ unwritten w = m ++ frames q -> length got = length m ->
  got = m /\ stream_ok (mkStream b w (RHead []) (tail ms)) /\ ms = m :: tail ms.
Proof.
  intros Hw Hf Hms Hb Hl. apply app_inj_1 in Hb as [-> Hb]; [|done].
  destruct (first_sent _ _ _ _ _ Hw Hms Hb) as (ms' & -> & ->). apply Forall_inv_tail in Hf.
  split_and!; [done|split; cbn; done || lia|done].
Qed.

Lemma stream_recv_law B host ro k gone s s' x :
  stream_ok s -> (gone = true -> wr s = WIdle) -> recv_step (H := host ro) k gone s = Some (s', x) ->
  stream_ok s' /\ wr s' = wr s /\ recv_effect (W := stream_way B host) gone s s' x.
Proof.
  intros [Hf Hb Hw Hr] Hgone. unfold recv_step. destruct s as [b w r ms]. cbn [wr rd held whole] in *.
  destruct (read_some k (wanted r) b) as [[bs b']|] eqn:E.
  - apply read_some_spec in E as [Hl <-]; [|by eapply wanted_pos].
    destruct r as [got|h got]; cbn [read_part wanted] in *.
    + rewrite <- app_assoc, (app_assoc got) in Hb. change (Z.to_nat kHeaderLen) with 16%nat in *.
      assert (Hlen : length (got ++ bs) = (length got + length bs)%nat) by apply length_app.
      destruct (Nat.ltb_spec (length (got ++ bs)) 16); [intros [= <- <-]|].
      * split_and!; [by split|done|]. apply effect_wait; [done|cbn [recv_left stream_seen rd read_left]; lia].
      * cbn in Hr. apply header_off in Hb as (m & q & Hms & -> & Hrest); [|lia].
        assert (Hfm : fits m) by (rewrite Hms in Hf; by apply Forall_inv in Hf).
        rewrite header_decoded, frame_payload by done.
        destruct (Z.eqb_spec (len m) 0) as [Hz|Hz]; intros [= <- <-].
        -- destruct m; [|cbn in Hz; lia]. destruct (got_all w ms [] q b' []) as (_ & ? & ?); [done..|].
           split_and!; [done..|]. by apply effect_get.
        -- assert (0 < length m)%nat by lia. split_and!; [split|done|apply effect_wait]; cbn [recv_left messages stream_seen wr rd held whole read_part read_left];
             rewrite ?frame_payload, ?app_nil_r by done; try done.
           ++ rewrite Hrest, Hms, frames_cons. unfold frame_bytes. by rewrite <- app_assoc.
           ++ by exists m, q.
           ++ unfold fits, kMaxFramePayload in *. cbn [length]. lia.
    + destruct Hr as (m & q & Hms & -> & Hg). assert (Hfm : fits m) by (rewrite Hms in Hf; by apply Forall_inv in Hf).
      rewrite frame_payload, Nat2Z.id in * by done.
      assert (Hlen : length (got ++ bs) = (length got + length bs)%nat) by apply length_app.
      destruct (Nat.ltb_spec (length (got ++ bs)) (length m)); intros [= <- <-].
      * split_and!; [split|done|apply effect_wait]; cbn [recv_left messages stream_seen wr rd held whole read_part read_left]; try done.
        -- by rewrite <- Hb, <- !app_assoc.
        -- by exists m, q.
        -- rewrite frame_payload by done. lia.
      * assert (Hrest : (got ++ bs) ++ b' ++ unwritten w = m ++ frames q).
        { rewrite Hms, frames_cons in Hb. unfold frame_bytes in Hb. rewrite <- !app_assoc in Hb.
          apply app_inv_head in Hb. by rewrite <- app_assoc. }
        destruct (got_all w ms m q b' (got ++ bs)) as (-> & ? & ?); [done..|lia|].
        split_and!; [done..|]. by apply effect_get.
  - apply read_some_waits in E as ->. destruct gone; [|done]. intros [= <- <-]. specialize (Hgone eq_refl) as ->.
    cbn [pending unwritten] in *. rewrite !app_nil_r in *. rewrite (nothing_read _ _ Hr Hf Hb) in *.
    split_and!; [split; cbn; done || lia|done|]. by apply effect_end.
Qed.

(** A step waits for room or for bytes, whatever the number it would transfer. *)
Lemma send_step_none {H : HostOrder} B k m s :
  send_step B k m s = None <-> wr s <> WIdle /\ (B <= length (held s))%nat.
Proof.
  unfold send_step. destruct (wr s) as [|m' rest|m' rest].
  1: destruct (_ >? _); split; [done|by intros [? _]|done|by intros [? _]].
  all: rewrite <- (write_some_waits B k rest); destruct (write_some _ _ _ _) as [[? ?]|]; split; try done; by intros [_ ?].
Qed.

Lemma recv_step_none {H : HostOrder} k gone s :
  recv_step k gone s = None <-> held s = [] /\ gone = false.
Proof.
  unfold recv_step. rewrite <- (read_some_waits k (wanted (rd s))).
  destruct (read_some _ _ _) as [[? ?]|]; [|destruct gone]; split; try done; by intros [??].
Qed.

Lemma stream_send_waits {H : HostOrder} B k m s :
  stream_ok s -> wr s = WIdle \/ pending (wr s) = [m] -> send_step B k m s = None ->
  wr s <> WIdle /\ fits m /\ stream_room B (whole s) m = false.
Proof.
  intros [Hf Hb Hw _] Hm [Hi Hfull]%send_step_none. destruct Hm as [?|Hm]; [done|]. rewrite Hm in *.
  split_and!; [done|by apply fits_last in Hf|]. apply bool_decide_eq_false_2. rewrite <- frames_length, <- Hb, !length_app.
  assert (0 < length (unwritten (wr s)))%nat; [|lia].
  destruct (wr s); cbn [writer_ok unwritten] in *; rewrite ?length_app; done || lia.
Qed.

Lemma stream_recv_waits {H : HostOrder} k gone s :
  stream_ok s -> recv_step k gone s = None -> gone = false /\ whole s = [].
Proof.
  intros [Hf Hb Hw Hr] [Hh ->]%recv_step_none. split; [done|]. rewrite Hh in Hb. apply (f_equal length) in Hb.
  rewrite frames_length, !length_app in Hb. destruct (whole s) as [|m q]; [done|]. cbn [app] in *.
  rewrite frames_size_cons, <- frames_length, frames_app, length_app in Hb.
  assert (length (unwritten (wr s)) <= length (frames (pending (wr s))))%nat.
  { rewrite frames_length. destruct (wr s); cbn [writer_ok unwritten pending length] in *; rewrite ?length_app, ?frames_size_cons; lia. }
  destruct (rd s) as [got|h got]; cbn [reader_ok read_part] in *; [cbn in Hb; lia|].
  destruct Hr as (m' & q' & [= <- <-] & -> & Hl). rewrite length_app, header_bytes_length in Hb. cbn in Hb. lia.
Qed.

Lemma idle_writer w : head (pending w) = None -> w = WIdle.
Proof. by destruct w. Qed.

Lemma idle_reader r : match r with RHead [] => false | _ => true end = false -> r = RHead [].
Proof. by destruct r as [[]|]. Qed.

Lemma stream_left s : stream_ok s -> (write_left (wr s) <= read_left (RHead []))%nat /\ (read_left (rd s) <= read_left (RHead []))%nat.
Proof.
  intros [Hf Hb Hw Hr]. unfold read_left. split.
  - assert (Hm : forall m, In m (pending (wr s)) -> fits m) by (apply Forall_app in Hf as [_ Hf]; by apply List.Forall_forall).
    unfold fits, kMaxFramePayload in *. destruct (wr s) as [|m rest|m rest]; cbn [write_left writer_ok pending length] in *; [lia|..];
      specialize (Hm m (or_introl eq_refl)); lia.
  - destruct (rd s) as [got|h got]; cbn [length]; [lia|]. destruct Hr as (m & q & Hms & -> & _). rewrite Hms in Hf.
    apply Forall_inv in Hf. rewrite frame_payload by done. unfold fits, kMaxFramePayload in *. lia.
Qed.

(** The streams keep the promise of [Duplex]. *)
#[export] Instance stream_seen_way B host : SeenWay stream (W := stream_way B host).
Proof.
  split.
  - split_and!; [|done..]. split; cbn; [done..|lia].
  - intros ro k m s s' x Hok Hm Hs. destruct (stream_send_law _ _ _ _ _ _ _ _ Hok Hm Hs) as (? & Hr & ?). cbn. by rewrite Hr.
  - intros ro k gone s s' x Hok Hg Hs.
    destruct (stream_recv_law B host ro k gone s s' x Hok (fun h => idle_writer _ (Hg h)) Hs) as (? & Hw & ?). cbn. by rewrite Hw.
  - intros ro k m s Hok Hm Hs. assert (Hm' : wr s = WIdle \/ pending (wr s) = [m]).
    { cbn in Hm. destruct (wr s); [by left|right..]; destruct Hm; simplify_eq/=; done. }
    destruct (stream_send_waits _ _ _ _ Hok Hm' Hs) as (_ & Hfit & Hroom). split_and!; [done|by apply (fits_limit B)|done|].
    intros k'. by apply send_step_none, (send_step_none (H := host ro) B k m).
  - intros ro k gone s Hok Hs. destruct (stream_recv_waits _ _ _ Hok Hs) as [-> Hq]. split; [done|].
    intros k'. by apply recv_step_none, (recv_step_none (H := host ro) k).
  - done.
  - done.
  - intros s Hr. cbn in *. by rewrite (idle_reader _ Hr).
  - apply stream_left.
Qed.

Definition streams_started (p q : itree duct_event Z) : dsys stream :=
  mkDsys (mkProc p []) (mkProc q []) (mkDuplex None 0 stream_start stream_start).

Section runs.
Context (B : nat) (host : role -> HostOrder) (listens dials : string -> Status).

Abbreviation streams_step := (dstep (W := stream_way B host) listens dials).

(** The bytes left at the end are those of whole frames. *)
Lemma bytes_left ro k g p l :
  stream_ok (rx ro l) -> coupled ro p l -> wr (rx ro l) = WIdle ->
  dadvance (W := stream_way B host) listens dials ro k g p l = None -> held (rx ro l) = frames (whole (rx ro l)).
Proof.
  intros Hok Hc Hw Ha. pose proof (ok_bytes _ Hok) as Hb. rewrite Hw in Hb. cbn [unwritten pending] in Hb.
  rewrite !app_nil_r in Hb. rewrite <- Hb. unfold coupled in Hc. unfold dadvance in Ha.
  assert (receiving (rx ro l) = false -> held (rx ro l) = read_part (rd (rx ro l)) ++ held (rx ro l)) as Hidle
    by by intros ->%idle_reader.
  destruct (observe (prog p)) as [|t|T e c]; [by apply Hidle, Hc|by apply Hidle, Hc|].
  destruct e; try by apply Hidle, Hc. cbn [dcall] in Ha. destruct (way_recv _ _ _ _) as [[s y]|] eqn:Hs; [done|].
  destruct (stream_recv_waits _ _ _ Hok Hs) as [_ Hq]. apply recv_step_none in Hs as [Hh _]. rewrite Hh, Hq in *. by rewrite Hb.
Qed.

Lemma end_bytes s :
  dsys_ok s -> dstuck (W := stream_way B host) listens dials s -> ~ in_send (dserver s) -> ~ in_send (dclient s) ->
  held (c2s (dlink s)) = frames (whole (c2s (dlink s))) /\ held (s2c (dlink s)) = frames (whole (s2c (dlink s))).
Proof.
  intros ([Hup Hdown] & Hcp & Hcq) [Hs Hc] Hp Hq. split.
  - eapply (bytes_left AServer); [done..| |done]. by apply idle_writer, (not_sending (V := stream_seen) AClient (dclient s) (dlink s)).
  - eapply (bytes_left AClient); [done..| |done]. by apply idle_writer, (not_sending (V := stream_seen) AServer (dserver s) (dlink s)).
Qed.

(** As [duplex_comes_to], and the bytes left in the system are the frames of the
    messages of [t]. *)
Definition streams_come_to (s : dsys stream) (t : sys) : Prop :=
  duplex_comes_to (W := stream_way B host) listens dials s t /\
  forall u, rtc streams_step s u -> nf streams_step u ->
    held (c2s (dlink u)) = frames (to_server (link t)) /\ held (s2c (dlink u)) = frames (to_client (link t)).

Lemma streams_runs p q t :
  comes_to (stream_connection B) listens dials (started p q) t -> ~ in_send (server t) -> ~ in_send (client t) ->
  streams_come_to (streams_started p q) t.
Proof.
  intros Ht Hs Hc. assert (Hwide : forall b m, stream_room B b m = true -> endless b m = true) by done.
  split; [apply (duplex_runs (W := stream_way B host) (V := stream_seen)); [apply _|apply _|done|done|by left]|]. intros u [m Hm]%rtc_nsteps_1 Hu.
  destruct (duplex_end (W := stream_way B host) (V := stream_seen) listens dials p q t Ht Hwide (or_introl (conj Hs Hc)) m u Hm Hu)
    as (Hok & Hst & <-).
  destruct (stuck_seen _ _ _ Hok Hst) as (_ & Hds & Hdc). rewrite Hds in Hs. rewrite Hdc in Hc. by apply end_bytes.
Qed.

End runs.

(** ** Theorems *)

(** C10: the streams of bytes do for two programs what the connection of [Network]
    does: if every schedule of the two over a connection with room for [B] bytes of
    frames each way comes to a state in which neither is in [send], then every
    interleaving of their transfers over two streams that hold [B] bytes, whatever
    the number of bytes of each transfer and the byte orders of the two hosts, is
    finite, can be continued to an end, and ends with the same output and exit
    codes and with the frames of the same messages as the bytes left. *)
Theorem programs_over_streams B host listens dials p q t :
  comes_to (stream_connection B) listens dials (started p q) t ->
  ~ in_send (server t) -> ~ in_send (client t) ->
  streams_come_to B host listens dials (streams_started p q) t.
Proof. apply streams_runs. Qed.

(** duct_echo_client against duct_echo_server over streams that hold a frame of the
    text: however the transfers of the two interleave, they come to their end, the
    client having written the text, or what [send] answered to one too long, the
    server having heard that the client is gone, and no byte is left. *)
Theorem echo_over_streams B host address body argv0 argv0' :
  (16 + length (bytes_of body) <= B)%nat ->
  exists t,
    streams_come_to B host (fun _ => Ok) (fun _ => Ok)
      (streams_started (duct_echo_server [argv0; address]) (duct_echo_client [argv0'; address; body])) t /\
    echoed (stream_connection B) address body t.
Proof.
  intros HB. destruct (echo_pair_comes (stream_connection B) address body argv0 argv0') as (t & Ht & He); [done| |].
  { intros _. apply bool_decide_eq_true_2. cbn [app]. rewrite frames_size_cons. change (frames_size []) with 0%nat. lia. }
  exists t. split; [|done]. pose proof He as (Hfit & Hlong & _ & _ & Hs).
  apply streams_runs; [done|..]; apply exited_not_sending.
  - destruct Hs as [Hs _]. unfold exited. by rewrite Hs.
  - unfold exited. destruct (le_lt_dec (length (bytes_of body)) (limit (stream_connection B))) as [Hl|Hl].
    + by destruct (Hfit Hl) as [-> _].
    + by destruct (Hlong (proj1 (Nat.lt_nge _ _) Hl)) as [-> _].
Qed.

(** the steps of [send] and [recv] are those of the code: with nothing between
    them and room for the frame, the steps of a call transfer the same bytes and
    give the same answer as [write_frame] and [read_frame] of [Wire] over a socket
    whose transfers are of the same sizes, whatever these are and whatever bytes
    have arrived, and wait where those wait. *)
Theorem stream_steps_are_wire (H : HostOrder) B k ks m s :
  (wr s = WIdle -> (length (held s) + 16 + length m <= B)%nat ->
   agrees so_out (send_run B (k :: ks) m s) (write_frame (mkSock (map EvXfer ks) [] (held s)) m 0)) /\
  (rd s = RHead [] -> agrees so_in (recv_run ks s) (read_frame (mkSock (map EvXfer ks) (held s) []))).
Proof.
  destruct s as [b w r ms]. cbn [wr rd held]. split.
  - intros -> HB. cbn [send_run]. unfold send_step, write_frame. cbn [wr rd held whole].
    destruct (len m >? kMaxFramePayload); cbn [mbind option_bind]; [done|]. unfold write_all at 1. cbn [so_evs so_in so_out].
    rewrite encode_header_bytes by done. pose proof (header_bytes_length (frame_header m 0)) as Hh.
    apply head_run; [intros E; by rewrite E in Hh|lia].
  - intros ->. apply (head_recv ks [] b w ms []). cbn. lia.
Qed.

(** ** Witnesses *)

(** The echo programs with streams of twenty bytes, and a client of the other byte
    order. *)
Definition two_hosts (ro : role) : HostOrder := match ro with AServer => true | AClient => false end.
Definition echo_server_prog : itree duct_event Z := duct_echo_server ["s"; "tcp://:9000"].
Definition echo_client_prog : itree duct_event Z := duct_echo_client ["c"; "tcp://:9000"; "hi"].
Definition echo_streams_end : sys :=
  (schedule (stream_connection 20) (fun _ => Ok) (fun _ => Ok) 100 (started echo_server_prog echo_client_prog)).2.

Lemma programs_over_streams_witness :
  exit_code (client echo_streams_end) = Some 0 /\ wrote (client echo_streams_end) = [ToOut "hi"] /\
  exit_code (server echo_streams_end) = Some 0 /\
  streams_come_to 20 two_hosts (fun _ => Ok) (fun _ => Ok) (streams_started echo_server_prog echo_client_prog)
    echo_streams_end.
Proof.
  split; [vm_compute; reflexivity|]. split; [vm_compute; reflexivity|]. split; [vm_compute; reflexivity|].
  apply (programs_over_streams 20 two_hosts (fun _ => Ok) (fun _ => Ok) echo_server_prog echo_client_prog echo_streams_end).
  - apply (schedule_comes_to (stream_connection 20) (fun _ => Ok) (fun _ => Ok) 100); vm_compute; reflexivity.
  - vm_compute. intros [].
  - vm_compute. intros [].
Defined.
