(* ===== verification/UtilsExample.v ===== *)
(** * The example of the utilities (examples/utils_example.cc)

    The nine examples as functions of what the clock answers, over the models of
    [Address], [Utils], [Logging] and [Metrics], and the program that chooses one.
    Lines are UTF-8 and without their end of line. *)

From Stdlib Require Import Floats.SpecFloat.
From S2P Require Import Prelude Options Address FloatText Utils Logging Metrics Programs.

(** ** Numbers in streams

    [operator<<] of a [double]: the C library's ["%g"], six significant digits. *)

(** The number of decimal digits of [z], up to [fuel]. *)
Fixpoint digit_count (fuel : nat) (z : Z) : Z :=
  match fuel with
  | O => 0
  | S fuel' => if z =? 0 then 0 else 1 + digit_count fuel' (z / 10)
  end.

(** [m * 2 ^ e * 10 ^ k], as a fraction. *)
Definition scaled (m : positive) (e k : Z) : Z * Z :=
  (Z.pos m * 2 ^ Z.max 0 e * 10 ^ Z.max 0 k, 2 ^ Z.max 0 (- e) * 10 ^ Z.max 0 (- k)).

(** The power of ten of the first digit: [10 ^ 330] makes the least [double] an
    integer part, and the largest has 309 digits more. *)
Definition first_digit (m : positive) (e : Z) : Z :=
  let '(n, d) := scaled m e 330 in digit_count 640 (n / d) - 331.

(** The zeros at the end of a number with [places] decimals. *)
Fixpoint strip_zeros (places : nat) (z : Z) : Z * nat :=
  match places with
  | O => (z, O)
  | S places' => if z mod 10 =? 0 then strip_zeros places' (z / 10) else (z, places)
  end.

Definition fixed_text (places : nat) (z : Z) : string :=
  let '(z, places) := strip_zeros places z in
  let p := 10 ^ Z.of_nat places in
  to_string (z / p) +:+ match places with O => EmptyString | _ => "." +:+ fixed_digits places (z mod p) EmptyString end.

Definition stream_double (nan_sign : bool) (d : double) : string :=
  match d with
  | S754_nan => sign_text nan_sign +:+ "nan"
  | S754_infinity s => sign_text s +:+ "inf"
  | S754_zero s => sign_text s +:+ "0"
  | S754_finite s m e =>
      let x := first_digit m e in
      let '(n, dn) := scaled m e (5 - x) in
      let r := round_half_even n dn in
      let '(x, r) := if r =? 10 ^ 6 then (x + 1, 10 ^ 5) else (x, r) in
      sign_text s +:+
      if (-4 <=? x) && (x <? 6) then fixed_text (Z.to_nat (5 - x)) r
      else fixed_text 5 r +:+ "e" +:+ (if x <? 0 then "-" else "+") +:+
           (if Z.abs x <? 10 then "0" else EmptyString) +:+ to_string (Z.abs x)
  end.

(** A literal [n / d]. *)
Definition decimal (n d : Z) : double := ddiv (double_of_size n) (double_of_size d).

Example stream_double_values :
  map (stream_double false) [decimal 314 100; decimal 155 10; double_of_size 2; double_of_size 1000000;
                             decimal 1 10000; decimal 1 100000; decimal 9999996 10; double_of_size 123456; decimal 1 3] =
  ["3.14"; "15.5"; "2"; "1e+06"; "0.0001"; "1e-05"; "1e+06"; "123456"; "0.333333"].
Proof. vm_compute. reflexivity. Qed.

(** ** [std::stoi]

    White space, a sign, digits, and whatever follows; [None] is an exception. *)
Definition is_space (c : Ascii.ascii) : bool := (ascii_code c =? 32) || ((9 <=? ascii_code c) && (ascii_code c <=? 13)).

Fixpoint skip_space (s : string) : string :=
  match s with
  | String c s' => if is_space c then skip_space s' else s
  | EmptyString => s
  end.

Definition stoi (s : string) : option Z :=
  let s := skip_space s in
  let '(neg, s) :=
    match s with
    | String c s' => if ascii_code c =? 45 then (true, s') else if ascii_code c =? 43 then (false, s') else (false, s)
    | EmptyString => (false, s)
    end in
  let '(v, n) := scan_digits s 0 0 in
  let v := if neg : bool then - v else v in
  if (n =? 0)%nat || (v <? - 2 ^ 31) || (2 ^ 31 <=? v) then None else Some v.

(** What a program writes and its exit code; [None] is an exception nothing
    catches. *)
Definition ended : Type := list written * option Z.

(** The [main] of the examples: the usage, the number, the example; [None] is a
    number there is no example of. *)
Definition choose_example (usage : list string) (example : Z -> option (list written)) (argv : list string) : ended :=
  if len argv <? 2 then
    (map ToErr (("用法: " +:+ arg argv 0 +:+ " <example_number>") :: "示例:" :: usage), Some 2)
  else
    match stoi (arg argv 1) with
    | None => ([], None)
    | Some i =>
        match example i with
        | Some lines => (lines, Some 0)
        | None => ([ToErr ("无效的示例编号: " +:+ int_to_string i)], Some 1)
        end
    end.

(** ** The examples *)

(** src/examples/utils_example.cc:17-35 [example_type_safe_address] *)
Definition example_type_safe_address : list written :=
  let addr1 := mkTcpAddr "127.0.0.1" (port_literal 9000) in
  let addr2 := mkTcpAddr "localhost" (port_literal 8080) in
  map ToOut
    ["=== 示例 1: 类型安全的地址构建器 ===";
     "TCP 地址: " +:+ TcpAddr_build addr1;
     "TCP 地址: " +:+ TcpAddr_build addr2;
     "SHM 地址: " +:+ ShmAddr_build "gamebus";
     "UDS 地址: " +:+ UdsAddr_build "/tmp/mysocket"].

(** src/examples/utils_example.cc:38-55 [example_timer]

    The clock when the timer is made and when it is read, twice. *)
Definition example_timer (now now1 now2 : Z) : list written :=
  let timer := mkTimer now in
  map ToOut
    (["";
      "=== 示例 2: 计时器 ===";
      "经过时间: " +:+ int_to_string (timer_elapsed 1000000 now1 timer) +:+ " ms"] ++
     (if has_elapsed 1000000 now2 (lit_ms 150) timer then ["已超过 150ms"] else [])).

(** What a callable of these examples writes. *)
Definition called (f : nat) : list written :=
  match f with
  | 0%nat => [ToOut "作用域结束，执行清理..."]
  | _ => [ToOut "延迟执行：清理资源"]
  end.

(** src/examples/utils_example.cc:58-70 [example_scope_guard] *)
Definition example_scope_guard : list written :=
  [ToOut ""; ToOut "=== 示例 3: 作用域守卫 ==="] ++
  (let guard := make_scope_guard 0 in
   [ToOut "在作用域内工作"] ++ flat_map called (guard_destroy guard)) ++
  [ToOut "已离开作用域"].

(** src/examples/utils_example.cc:73-82 [example_defer] *)
Definition example_defer : list written :=
  [ToOut ""; ToOut "=== 示例 4: 延迟调用 ==="; ToOut "执行一些操作..."] ++ flat_map called (defer_destroy 1).

(** src/examples/utils_example.cc:85-99 [example_string_builder] *)
Definition example_string_builder : list written :=
  let builder := mkBuilder EmptyString in
  let builder := append_text "! Version: " (append_text "duct" (append_text "Hello, " builder)) in
  let builder := append_int 1 (append_text "." (append_int 0 builder)) in
  let builder := append_int 0 (append_text "." builder) in
  [ToOut ""; ToOut "=== 示例 5: 字符串构建器 ==="; ToOut (buffer builder)].

Inductive UserIdTag :=.

(** src/examples/utils_example.cc:102-114 [example_strong_type] *)
Definition example_strong_type : list written :=
  let user1 := mkStrong UserIdTag 123 in
  let user2 := mkStrong UserIdTag 456 in
  [ToOut ""; ToOut "=== 示例 6: 强类型包装器 ==="] ++
  (if strong_lt Z.ltb user1 user2 then [ToOut "user1 < user2"] else []).

Definition console (o : output) : list written :=
  match o with Cout line => [ToOut line] | Cerr line => [ToErr line] | Called _ _ _ => [] end.

(** The loggers, the holder of the global one and what has been written. *)
Record log_world := mkLogWorld { lw_loggers : loggers; lw_holder : LoggerHolder; lw_lines : list written }.

(** As the program starts: the console logger of the holder. *)
Definition log_start : log_world :=
  mkLogWorld (mkLoggers {[0%nat := mkLogger Console kInfo]} 1) (holder0 0) [].

Definition say (lines : list written) (w : log_world) : log_world :=
  mkLogWorld (lw_loggers w) (lw_holder w) (lw_lines w ++ lines).
Definition global (f : LoggerHolder -> store -> option (list output)) (w : log_world) : option log_world :=
  os ← f (lw_holder w) (log_store (lw_loggers w)); Some (say (flat_map console os) w).
(** [std::make_shared] of a logger: its address. *)
Definition make_logger (c : log_cmd) (w : log_world) : option (nat * log_world) :=
  ls ← run_log_cmd c (lw_loggers w); Some (log_next (lw_loggers w), mkLogWorld ls (lw_holder w) (lw_lines w)).
(** [set_logger], of a logger that [kept] says is also owned by the caller. *)
Definition install (kept : gset nat) (l : nat) (w : log_world) : log_world :=
  mkLogWorld (lw_loggers w) (holder_set kept l (lw_holder w)) (lw_lines w).

(** The logging macros: [DUCT_INFO], and [DUCT_LOG_STREAM] with what is written to
    it, destroyed at the end of its statement. *)
(** src/include/duct/logging.h:226-228 [DUCT_INFO] *)
Definition duct_info : string -> LoggerHolder -> store -> option (list output) := global_log kInfo.
(** src/include/duct/logging.h:222-223 [DUCT_LOG_STREAM] *)
Definition duct_log_stream (level : LogLevel) (texts : list string) (w : log_world) : option log_world :=
  let s := foldl (fun s t => stream_write t s) (LogStream_make level (holder_logger (lw_holder w))) texts in
  foldl (fun w '(id, level, msg) =>
      w ← w; os ← log (S id) (log_store (lw_loggers w)) id level msg; Some (say (flat_map console os) w))
    (Some w) (stream_destroy s).

(** src/examples/utils_example.cc:117-146 [example_logging] *)
Definition example_logging : option log_world :=
  let w := say [ToOut ""; ToOut "=== 示例 7: 日志功能 ==="] log_start in
  st ← set_log_level kDebug (lw_holder w) (log_store (lw_loggers w));
  let w := mkLogWorld (mkLoggers st (log_next (lw_loggers w))) (lw_holder w) (lw_lines w) in
  w ← global (trace "这是 trace 消息") w;
  w ← global (debug "这是 debug 消息") w;
  w ← global (info "这是 info 消息") w;
  w ← global (warning "这是 warning 消息") w;
  w ← global (error "这是 error 消息") w;
  w ← global (duct_info "使用宏记录日志") w;
  w ← duct_log_stream kInfo ["流式日志: "; to_string 42; ", "; stream_double false (decimal 314 100)] w;
  '(base, w) ← make_logger (NewConsole kInfo) w;
  '(prefixed_logger, w) ← make_logger (NewPrefix base "[MyApp] ") w;
  let w := install {[prefixed_logger]} prefixed_logger w in
  w ← global (duct_info "使用带前缀的日志记录器") w;
  '(plain, w) ← make_logger (NewConsole kInfo) w;
  Some (install {[prefixed_logger]} plain w).

Definition one : double := double_of_size 1.

(** src/examples/utils_example.cc:149-174 [example_metrics]

    The registry's three maps are empty when the program starts. *)
Definition example_metrics : list written :=
  let '(c, counters) := get_counter "requests_total" (mkRegistry ∅ ∅ 0) in
  let counters := alter (counter_increment one) c (objects counters) in
  let counters := alter (counter_increment one) c counters in
  let '(g, gauges) := get_gauge "active_connections" (mkRegistry ∅ ∅ 0) in
  let gauges := alter (gauge_set (double_of_size 10)) g (objects gauges) in
  let gauges := alter (gauge_decrement one) g (alter (gauge_increment one) g gauges) in
  let '(h, histograms) := get_histogram "request_duration_ms" (mkRegistry ∅ ∅ 0) in
  let histograms := alter (histogram_observe (decimal 105 10)) h (objects histograms) in
  let histograms := alter (histogram_observe (decimal 203 10)) h histograms in
  let histograms := alter (histogram_observe (decimal 157 10)) h histograms in
  let number (d : double) := stream_double false d in
  [ToOut ""; ToOut "=== 示例 8: 指标收集 ===";
   ToOut ("请求总数: " +:+ number (default zero (counter_value <$> counters !! c)));
   ToOut ("活跃连接: " +:+ number (default zero (gauge_value <$> gauges !! g)));
   ToOut ("请求数: " +:+ to_string (default 0 (histogram_count <$> histograms !! h)));
   ToOut ("平均耗时: " +:+ number (default zero (histogram_mean <$> histograms !! h)) +:+ " ms")].

(** The loop of the example: the clock at each tick, and [counter]. *)
Fixpoint tick_loop (nows : list Z) (counter : Z) (executor : PeriodicExecutor) : list written :=
  match nows with
  | [] => []
  | now :: nows' =>
      let '(executor, _, executed) := tick now executor in
      if executed then
        ToOut ("周期执行: 第 " +:+ int_to_string (counter + 1) +:+ " 次") :: tick_loop nows' (counter + 1) executor
      else tick_loop nows' counter executor
  end.

(** src/examples/utils_example.cc:177-191 [example_periodic_executor]

    The clock when the executor is made and at its three ticks. *)
Definition example_periodic_executor (now t1 t2 t3 : Z) : list written :=
  [ToOut ""; ToOut "=== 示例 9: 周期性执行器 ==="] ++
  tick_loop [t1; t2; t3] 0 (PeriodicExecutor_make (lit_ms 100) true now).

(** src/examples/utils_example.cc:193-227 [main] *)
Definition utils_example (clock : nat -> Z) : list string -> ended :=
  choose_example
    ["  1 - 类型安全的地址构建器"; "  2 - 计时器"; "  3 - 作用域守卫"; "  4 - 延迟调用"; "  5 - 字符串构建器";
     "  6 - 强类型包装器"; "  7 - 日志功能"; "  8 - 指标收集"; "  9 - 周期性执行器"]
    (fun example =>
      match example with
      | 1 => Some example_type_safe_address
      | 2 => Some (example_timer (clock 0%nat) (clock 1%nat) (clock 2%nat))
      | 3 => Some example_scope_guard
      | 4 => Some example_defer
      | 5 => Some example_string_builder
      | 6 => Some example_strong_type
      | 7 => Some (default [] (lw_lines <$> example_logging))
      | 8 => Some example_metrics
      | 9 => Some (example_periodic_executor (clock 0%nat) (clock 1%nat) (clock 2%nat) (clock 3%nat))
      | _ => None
      end).

(** ** Theorems *)

(** The examples that do not look at the clock print what their comments say: the
    addresses; the guard after the work of its scope, and the deferred call last;
    the version; everything logged from the debug level up, warnings and errors on
    the error stream, the prefix where it was set; and the totals of the metrics.
    Each exits with 0. A number there is no example of exits with 1, no argument
    with 2, and what is not a number ends the program with an exception. *)
Theorem utils_example_prints clock argv0 :
  let lines (n : string) (ls : list written) := utils_example clock [argv0; n] = (ls, Some 0) in
  lines "1" (map ToOut ["=== 示例 1: 类型安全的地址构建器 ==="; "TCP 地址: tcp://127.0.0.1:9000";
                        "TCP 地址: tcp://localhost:8080"; "SHM 地址: shm://gamebus"; "UDS 地址: uds:///tmp/mysocket"]) /\
  lines "3" (map ToOut [""; "=== 示例 3: 作用域守卫 ==="; "在作用域内工作"; "作用域结束，执行清理..."; "已离开作用域"]) /\
  lines "4" (map ToOut [""; "=== 示例 4: 延迟调用 ==="; "执行一些操作..."; "延迟执行：清理资源"]) /\
  lines "5" (map ToOut [""; "=== 示例 5: 字符串构建器 ==="; "Hello, duct! Version: 0.1.0"]) /\
  lines "6" (map ToOut [""; "=== 示例 6: 强类型包装器 ==="; "user1 < user2"]) /\
  lines "7" (map ToOut [""; "=== 示例 7: 日志功能 ==="; "[DEBUG] 这是 debug 消息"; "[INFO] 这是 info 消息"] ++
             map ToErr ["[WARNING] 这是 warning 消息"; "[ERROR] 这是 error 消息"] ++
             map ToOut ["[INFO] 使用宏记录日志"; "[INFO] 流式日志: 42, 3.14"; "[INFO] [MyApp] 使用带前缀的日志记录器"]) /\
  lines "8" (map ToOut [""; "=== 示例 8: 指标收集 ==="; "请求总数: 2"; "活跃连接: 10"; "请求数: 3"; "平均耗时: 15.5 ms"]) /\
  (utils_example clock [argv0; "10"]).2 = Some 1 /\ (utils_example clock [argv0]).2 = Some 2 /\
  utils_example clock [argv0; "one"] = ([], None).
Proof. cbv zeta. split_and!; vm_compute; reflexivity. Qed.

(** With a clock that shows at least the time the program has slept, the timer
    example reports it and says that 150 ms are over, and the executor, which is
    asked after 150 ms each time, executes every time. *)
Theorem utils_example_keeps_time clock argv0 (slept := fun i j ms => clock i + ms * 1000000 <= clock j) :
  (slept 0%nat 1%nat 100 -> slept 0%nat 2%nat 150 ->
   exists ms, 100 <= ms /\
     utils_example clock [argv0; "2"] =
       (map ToOut [""; "=== 示例 2: 计时器 ==="; "经过时间: " +:+ int_to_string ms +:+ " ms"; "已超过 150ms"], Some 0)) /\
  (slept 0%nat 1%nat 150 -> slept 1%nat 2%nat 150 -> slept 2%nat 3%nat 150 ->
   utils_example clock [argv0; "9"] =
     (map ToOut [""; "=== 示例 9: 周期性执行器 ==="; "周期执行: 第 1 次"; "周期执行: 第 2 次"; "周期执行: 第 3 次"], Some 0)).
Proof.
  unfold slept. split.
  - intros H1 H2. exists (timer_elapsed 1000000 (clock 1%nat) (mkTimer (clock 0%nat))). split.
    + unfold timer_elapsed. cbn [timer_start]. apply Z.quot_le_lower_bound; lia.
    + assert (E : has_elapsed 1000000 (clock 2%nat) (lit_ms 150) (mkTimer (clock 0%nat)) = true).
      { unfold has_elapsed, timer_elapsed. rewrite Z.quot_1_r. change (lit_ms 150) with 150. cbn [timer_start]. lia. }
      change (utils_example clock [argv0; "2"]) with (example_timer (clock 0%nat) (clock 1%nat) (clock 2%nat), Some 0).
      unfold example_timer. by rewrite E.
  - intros H1 H2 H3.
    change (utils_example clock [argv0; "9"]) with
      (example_periodic_executor (clock 0%nat) (clock 1%nat) (clock 2%nat) (clock 3%nat), Some 0).
    unfold example_periodic_executor, PeriodicExecutor_make. change (lit_ms 100) with 100.
    assert (Ht : forall now last, last + 150 * 1000000 <= now ->
      tick now (mkPeriodic 100 true last) = (mkPeriodic 100 true now, true, true)).
    { intros now last Hl. unfold tick. cbn [pe_interval pe_callback last_exec]. unfold ms_to_ns.
      by rewrite (proj2 (Z.geb_le _ _)) by lia. }
    cbn [tick_loop]. by rewrite !Ht by lia.
Qed.
