(* ===== verification/AsyncExample.v ===== *)
(** * The example of the asynchronous operations (examples/async_example.cc)

    The six examples over the models of [Async], [EchoServer] and [Future]. The
    fourth, a producer and a consumer with a [Channel] between them, is a step
    relation of its own, whose runs are runs of [Async.ch_step]: it ends, with
    every message received, in every interleaving ([channel_example_ends]). The
    third never comes to its last line ([event_loop_example_hangs]). Lines are
    UTF-8 and without their end of line; those of different threads are kept
    apart. *)

From S2P Require Import Prelude Status Options Pipe Async EchoServer Programs UtilsExample.

(** ** The channel between two threads *)

(** src/examples/async_example.cc:119-119 [example_channel, the text of a message] *)
Definition channel_message (i : nat) : string := "Message " +:+ to_string (Z.of_nat i).

(** The lines of the two threads. *)
Definition sent_line (i : nat) : string := "生产者: 发送消息 " +:+ to_string (Z.of_nat i).
Definition closed_line : string := "生产者: 关闭 channel".
Definition got_line (msg : string) : string := "消费者: 收到消息: " +:+ msg.
Definition total_line (n : Z) : string := "消费者: 收到 " +:+ to_string n +:+ " 条消息后退出".

(** The producer: before message [i] is made and sent, before the line about it,
    in the sleep after it, before [close], before its last line, returned. *)
Inductive producer_pc := PSend (i : nat) | PTell (i : nat) | PNap (i : nat) | PClose | PLast | PDone.
(** The consumer: before [recv], asleep in it, woken in it, with a message it has
    not written, out of the loop, returned. *)
Inductive consumer_pc := CRecv | CAsleep | CWoken | CGot (msg : string) | CLast | CDone.
(** The main thread: before each [join], returned. *)
Inductive main_pc := MJoinProducer | MJoinConsumer | MDone.

Record example := mkExample {
  channel : Channel string;
  ppc : producer_pc;
  cpc : consumer_pc;
  mpc : main_pc;
  count : Z;
  plines : list string;
  clines : list string;
}.

Definition example_start : example := mkExample Channel_new (PSend 0) CRecv MJoinProducer 0 [] [].

(** What a notification does to a consumer that may be asleep. *)
Definition notified (sg : signal) (k : consumer_pc) : consumer_pc :=
  match sg, k with NotifyOne, CAsleep | NotifyAll, CAsleep => CWoken | _, _ => k end.

(** src/examples/async_example.cc:118-125 [example_channel, the producer] *)
Definition produce (x : example) : option example :=
  let '(mkExample ch p k m n pl cl) := x in
  match p with
  | PSend i =>
      if (i <? 5)%nat then
        let '(ch, _, sg) := ch_send (channel_message i) ch in
        Some (mkExample ch (PTell i) (notified sg k) m n pl cl)
      else Some (mkExample ch PClose k m n pl cl)
  | PTell i => Some (mkExample ch (PNap i) k m n (pl ++ [sent_line i]) cl)
  | PNap i => Some (mkExample ch (PSend (S i)) k m n pl cl)
  | PClose => let '(ch, sg) := ch_close ch in Some (mkExample ch PLast (notified sg k) m n pl cl)
  | PLast => Some (mkExample ch PDone k m n (pl ++ [closed_line]) cl)
  | PDone => None
  end.

(** src/examples/async_example.cc:130-139 [example_channel, the consumer]

    [None] too while it is asleep. *)
Definition consume (x : example) : option example :=
  let '(mkExample ch p k m n pl cl) := x in
  match k with
  | CRecv | CWoken =>
      if recv_pred ch then
        let '(ch, r) := recv_go ch in
        Some (mkExample ch p (match r with Some msg => CGot msg | None => CLast end) m n pl cl)
      else Some (mkExample ch p CAsleep m n pl cl)
  | CAsleep | CDone => None
  | CGot msg => Some (mkExample ch p CRecv m (n + 1) pl (cl ++ [got_line msg]))
  | CLast => Some (mkExample ch p CDone m n pl (cl ++ [total_line n]))
  end.

(** src/examples/async_example.cc:142-143 [example_channel, the joins] *)
Definition join (x : example) : option example :=
  let '(mkExample ch p k m n pl cl) := x in
  match m, p, k with
  | MJoinProducer, PDone, _ => Some (mkExample ch p k MJoinConsumer n pl cl)
  | MJoinConsumer, _, CDone => Some (mkExample ch p k MDone n pl cl)
  | _, _, _ => None
  end.

(** src/examples/async_example.cc:114-143 [example_channel, the threads] *)
Inductive example_step : example -> example -> Prop :=
| x_produce x x' : produce x = Some x' -> example_step x x'
| x_consume x x' : consume x = Some x' -> example_step x x'
| x_join x x' : join x = Some x' -> example_step x x'.

(** A wake-up nobody asked for. *)
Inductive spurious : example -> example -> Prop :=
| x_spurious ch p m n pl cl : spurious (mkExample ch p CAsleep m n pl cl) (mkExample ch p CWoken m n pl cl).

Definition example_any (x x' : example) : Prop := example_step x x' \/ spurious x x'.
Definition example_reachable : example -> Prop := rtc example_any example_start.

(** *** The invariant *)

(** The messages sent. *)
Definition sent (p : producer_pc) : nat :=
  match p with PSend i => i | PTell i | PNap i => S i | PClose | PLast | PDone => 5 end.
Definition closing (p : producer_pc) : bool := match p with PLast | PDone => true | _ => false end.
Definition producer_lines (p : producer_pc) : list string :=
  map sent_line
    (seq 0 match p with PSend i | PTell i => i | PNap i => S i | PClose | PLast | PDone => 5 end) ++
  match p with PDone => [closed_line] | _ => [] end.

Definition in_hand (k : consumer_pc) : nat := match k with CGot _ => 1 | _ => 0 end.
Definition consumer_lines (k : consumer_pc) (n : nat) : list string :=
  map (fun i => got_line (channel_message i)) (seq 0 n) ++
  match k with CDone => [total_line (Z.of_nat n)] | _ => [] end.

Record example_inv (x : example) (n : nat) : Prop := {
  ei_count : count x = Z.of_nat n;
  ei_sent : (sent (ppc x) <= 5)%nat /\ match ppc x with PTell i | PNap i => (i < 5)%nat | _ => True end;
  ei_closed : closed_ (channel x) = closing (ppc x);
  ei_taken : (n + in_hand (cpc x) + length (queue_ (channel x)))%nat = sent (ppc x);
  ei_queue : queue_ (channel x) = map channel_message (seq (n + in_hand (cpc x)) (length (queue_ (channel x))));
  ei_hand : forall msg, cpc x = CGot msg -> msg = channel_message n;
  ei_asleep : cpc x = CAsleep -> closing (ppc x) = false;
  ei_out : cpc x = CLast \/ cpc x = CDone -> closing (ppc x) = true /\ n = 5%nat;
  ei_plines : plines x = producer_lines (ppc x);
  ei_clines : clines x = consumer_lines (cpc x) n;
  ei_main : (mpc x <> MJoinProducer -> ppc x = PDone) /\ (mpc x = MDone -> cpc x = CDone);
}.

Lemma example_start_inv : example_inv example_start 0.
Proof. split; cbn; try done; naive_solver lia. Qed.

(** Only the sleep of the consumer is touched by a notification. *)
Lemma notified_same sg k n :
  in_hand (notified sg k) = in_hand k /\ (forall msg, notified sg k = CGot msg <-> k = CGot msg) /\
  (notified sg k = CLast <-> k = CLast) /\ (notified sg k = CDone <-> k = CDone) /\
  consumer_lines (notified sg k) n = consumer_lines k n /\
  (notified sg k = CAsleep -> sg = NoSignal).
Proof. destruct sg, k; cbn; split_and!; try done; split; congruence. Qed.

Lemma seq_snoc a n : seq a (S n) = seq a n ++ [(a + n)%nat].
Proof. rewrite <- Nat.add_1_r, seq_app. done. Qed.

(** A step of the producer that keeps the channel and the consumer. *)
Lemma produce_quiet x n p' pl' :
  example_inv x n -> sent p' = sent (ppc x) -> (sent p' <= 5)%nat -> closing p' = closing (ppc x) ->
  match p' with PTell i | PNap i => (i < 5)%nat | _ => True end ->
  pl' = producer_lines p' -> (mpc x <> MJoinProducer -> p' = PDone) ->
  example_inv (mkExample (channel x) p' (cpc x) (mpc x) (count x) pl' (clines x)) n.
Proof.
  intros [H1 H2 H3 H4 H5 H6 H7 H8 H9 H10 H11] Hs Hl Hc Hi Hpl Hm.
  split; cbn [channel ppc cpc mpc count plines clines]; rewrite ?Hs, ?Hc; try done; try tauto.
Qed.

Lemma produce_inv x x' n : example_inv x n -> produce x = Some x' -> example_inv x' n.
Proof.
  intros Hx. pose proof Hx as [H1 H2 H3 H4 H5 H6 H7 H8 H9 H10 H11].
  destruct x as [[q cl] p k m c pl cls]. cbn [channel ppc cpc mpc count plines clines queue_ closed_] in *.
  assert (Hm : p <> PDone -> m = MJoinProducer) by (destruct m; [done|..]; intros; by destruct H11 as [H11 _]; specialize (H11 ltac:(done))).
  destruct p as [i|i|i| | |]; cbn [produce ch_send ch_close closed_ closing] in *; try done.
  - (* send *) destruct (Nat.ltb_spec i 5) as [Hi|Hi].
    + unfold ch_send. cbn [closed_ queue_]. rewrite H3. cbn [negb].
      destruct (notified_same NotifyOne k n) as (E1 & E2 & E3 & E4 & E5 & E6).
      remember (notified NotifyOne k) as k' eqn:Ek. intros [= <-].
      split; cbn [channel ppc cpc mpc count plines clines queue_ closed_ sent closing]; rewrite ?E1, ?E2, ?E3, ?E4, ?E5; try done.
      * rewrite length_app. cbn [length sent] in *. lia.
      * rewrite length_app, Nat.add_1_r, seq_snoc, map_app. cbn [map]. rewrite <- H5. do 3 f_equal. cbn [sent] in *. lia.
      * intros msg Hmsg%E2. by apply H6.
      * by rewrite Hm.
    + intros [= <-]. cbn [sent] in H2. assert (i = 5%nat) as -> by lia.
      by apply (produce_quiet (mkExample (mkChannel q cl) (PSend 5) k m c pl cls)); try done; rewrite Hm.
  - intros [= <-]. apply (produce_quiet (mkExample (mkChannel q cl) (PTell i) k m c pl cls)); try done; [cbn; lia|tauto| |by rewrite Hm].
    rewrite H9. unfold producer_lines. rewrite !app_nil_r, seq_snoc, map_app. done.
  - intros [= <-]. apply (produce_quiet (mkExample (mkChannel q cl) (PNap i) k m c pl cls)); try done; [cbn; lia|by rewrite Hm].
  - (* close *) destruct (notified_same NotifyAll k n) as (E1 & E2 & E3 & E4 & E5 & E6).
    remember (notified NotifyAll k) as k' eqn:Ek. intros [= <-].
    split; cbn [channel ppc cpc mpc count plines clines queue_ closed_ sent closing]; rewrite ?E1, ?E2, ?E3, ?E4, ?E5; try done.
    + intros msg Hmsg%E2. by apply H6.
    + by intros ?%E6.
    + intros Hk. split; [done|]. by apply H8.
    + by rewrite Hm.
  - intros [= <-]. apply (produce_quiet (mkExample (mkChannel q cl) PLast k m c pl cls)); try done. by rewrite H9.
Qed.

Lemma consume_inv x x' n : example_inv x n -> consume x = Some x' -> exists n', example_inv x' n'.
Proof.
  intros [H1 H2 H3 H4 H5 H6 H7 H8 H9 H10 H11].
  destruct x as [[q cl] p k m c pl cls]. cbn [channel ppc cpc mpc count plines clines queue_ closed_] in *.
  assert (Hrecv : k = CRecv \/ k = CWoken ->
    (if recv_pred (mkChannel q cl) then
       let '(ch, r) := recv_go (mkChannel q cl) in
       Some (mkExample ch p (match r with Some msg => CGot msg | None => CLast end) m c pl cls)
     else Some (mkExample (mkChannel q cl) p CAsleep m c pl cls)) = Some x' -> example_inv x' n).
  { intros Hk. assert (in_hand k = 0%nat /\ cls = consumer_lines CRecv n /\ k <> CDone) as (Hh & Hl & Hd)
      by (destruct Hk as [-> | ->]; done).
    rewrite Hh, Nat.add_0_r in *. unfold recv_pred, recv_go. cbn [queue_ closed_].
    assert (Hmain : (m <> MJoinProducer -> p = PDone) /\ (m = MDone -> forall k', k' = CDone))
      by (split; [apply H11|intros Hm; by destruct Hd; apply H11]).
    destruct Hmain as [Hmain1 Hmain2]. assert (Hsent : closing p = true -> sent p = 5%nat) by by destruct p.
    destruct q as [|msg q]; cbn [length] in *.
    - destruct cl; cbn; intros [= <-]; split; cbn [channel ppc cpc mpc count plines clines queue_ closed_ in_hand length];
        rewrite ?Nat.add_0_r in *; try done; try (by split; [|intros; by apply Hmain2]).
      + intros _. split; [done|]. rewrite H4. by apply Hsent.
      + by intros [?|?].
    - cbn. intros [= <-]. cbn [seq map] in H5. injection H5 as Hmsg Hq.
      split; cbn [channel ppc cpc mpc count plines clines queue_ closed_ in_hand length];
        try done; try (by split; [|intros; by apply Hmain2]).
      + lia.
      + by rewrite Nat.add_1_r.
      + intros ? [= <-]. done.
      + by intros [?|?]. }
  destruct k as [| | |msg| |]; cbn [consume]; try done.
  - intros Hx. exists n. by apply Hrecv; [left|].
  - intros Hx. exists n. by apply Hrecv; [right|].
  - intros [= <-]. exists (S n). specialize (H6 msg eq_refl). subst msg. cbn [in_hand] in *.
    split; cbn [channel ppc cpc mpc count plines clines queue_ closed_ in_hand]; try done.
    + lia.
    + lia.
    + by rewrite Nat.add_0_r, <- (Nat.add_1_r n).
    + by intros [?|?].
    + rewrite H10. unfold consumer_lines. by rewrite !app_nil_r, seq_snoc, map_app.
    + split; [apply H11|]. intros Hm. by destruct H11 as [_ H]; specialize (H Hm).
  - intros [= <-]. exists n. cbn [in_hand] in *.
    split; cbn [channel ppc cpc mpc count plines clines queue_ closed_ in_hand]; try done.
    + intros _. apply H8. by left.
    + rewrite H10, H1. unfold consumer_lines. by rewrite app_nil_r.
    + split; [apply H11|done].
Qed.

Lemma join_inv x x' n : example_inv x n -> join x = Some x' -> example_inv x' n.
Proof.
  intros [H1 H2 H3 H4 H5 H6 H7 H8 H9 H10 H11]. destruct x as [ch p k m c pl cls]. unfold join.
  cbn [channel ppc cpc mpc count plines clines] in *.
  destruct m; [destruct p; try done|assert (p = PDone) as -> by (by apply H11); destruct k; try done|done].
  all: intros [= <-]; split; cbn [channel ppc cpc mpc count plines clines]; done.
Qed.

Lemma spurious_inv x x' n : example_inv x n -> spurious x x' -> example_inv x' n.
Proof.
  intros [H1 H2 H3 H4 H5 H6 H7 H8 H9 H10 H11] Hs. destruct Hs.
  split; cbn [channel ppc cpc mpc count plines clines in_hand] in *; try done.
  - by intros [?|?].
  - split; [apply H11|]. intros Hm. by destruct H11 as [_ H]; specialize (H Hm).
Qed.

Lemma example_any_inv x x' : (exists n, example_inv x n) -> example_any x x' -> exists n, example_inv x' n.
Proof.
  intros [n Hn] [Hst|Hst]; [destruct Hst|].
  - exists n. by eapply produce_inv.
  - by eapply consume_inv.
  - exists n. by eapply join_inv.
  - exists n. by eapply spurious_inv.
Qed.

Lemma example_reachable_inv x : example_reachable x -> exists n, example_inv x n.
Proof.
  intros Hr. eapply (rtc_invariant example_any (fun x => exists n, example_inv x n)); [exact example_any_inv|exact Hr|].
  exists 0%nat. apply example_start_inv.
Qed.

(** *** The end *)

Definition producer_left (p : producer_pc) : nat :=
  match p with
  | PSend i => 3 * (5 - i) + 3
  | PTell i => 3 * (5 - i) + 2
  | PNap i => 3 * (5 - i) + 1
  | PClose => 2 | PLast => 1 | PDone => 0
  end.
Definition consumer_left (k : consumer_pc) : nat :=
  match k with CRecv | CWoken => 3 | CAsleep => 1 | CGot _ => 4 | CLast => 1 | CDone => 0 end.
Definition main_left (m : main_pc) : nat := match m with MJoinProducer => 2 | MJoinConsumer => 1 | MDone => 0 end.

(** Every step that is not a spurious wake-up makes it smaller. *)
Definition steps_left (x : example) : nat :=
  10 * producer_left (ppc x) + 4 * length (queue_ (channel x)) + consumer_left (cpc x) + main_left (mpc x).

Lemma notified_left sg k : (consumer_left (notified sg k) <= consumer_left k + 2)%nat.
Proof. destruct sg, k; cbn; lia. Qed.

Lemma example_step_left x x' n : example_inv x n -> example_step x x' -> (steps_left x' < steps_left x)%nat.
Proof.
  intros Hx Hst. pose proof (ei_sent _ _ Hx) as [Hs Hi]. unfold steps_left. destruct Hst as [x x' H|x x' H|x x' H].
  - destruct x as [[q cl] p k m c pl cls]. cbn [ppc] in *.
    pose proof (notified_left NotifyOne k). pose proof (notified_left NotifyAll k). pose proof (notified_left NoSignal k).
    destruct p; cbn [produce] in H; unfold ch_send, ch_close in H; cbn [closed_ queue_] in H; try done;
      repeat case_match; simplify_eq;
      repeat match goal with
             | E : (_ <? _)%nat = true |- _ => apply Nat.ltb_lt in E
             | E : (_ <? _)%nat = false |- _ => apply Nat.ltb_ge in E
             end;
      cbn [ppc cpc mpc channel queue_ producer_left sent] in *; rewrite ?length_app; cbn [length]; lia.
  - destruct x as [[q cl] p k m c pl cls].
    destruct k, q, cl; cbn -[got_line total_line] in H; try done; injection H as <-;
      cbn [ppc cpc mpc channel queue_ consumer_left length]; lia.
  - destruct x as [ch p k m c pl cls]. destruct m, p, k; cbn in H; try done; injection H as <-;
      cbn [ppc cpc mpc channel main_left]; lia.
Qed.

(** Some thread can go on until the main thread has returned. *)
Lemma example_progress x n : example_inv x n -> mpc x <> MDone -> exists x', example_step x x'.
Proof.
  intros Hx Hm. pose proof (ei_asleep _ _ Hx) as Ha. destruct x as [ch p k m c pl cls]. cbn [ppc cpc mpc] in *.
  assert (Hp : p <> PDone -> exists x', produce (mkExample ch p k m c pl cls) = Some x').
  { destruct p as [i| | | | |]; intros; try done; cbn [produce]; [|eauto..].
    destruct (i <? 5)%nat; [|eauto]. destruct (ch_send _ ch) as [[? ?] ?]. eauto. }
  destruct p eqn:Ep; try (destruct Hp as [x' Hx']; [done|]; exists x'; by apply x_produce).
  assert (Hk : k <> CDone -> exists x', consume (mkExample ch PDone k m c pl cls) = Some x').
  { destruct k; intros; try done; try (by specialize (Ha eq_refl)); cbn [consume]; [..|eauto|eauto];
      (destruct (recv_pred ch); [destruct (recv_go ch)|]; eauto). }
  destruct k eqn:Ek; try (destruct Hk as [x' Hx']; [done|]; exists x'; by apply x_consume).
  destruct m; [| |done]; (eexists; apply x_join; reflexivity).
Qed.

Lemma example_finishes x n : example_inv x n -> exists x', rtc example_step x x' /\ mpc x' = MDone.
Proof.
  remember (steps_left x) as l eqn:El. revert x n El. induction l as [l IH] using lt_wf_ind. intros x n -> Hx.
  destruct (mpc x) eqn:Em; [| |by exists x; split; [apply rtc_refl|]].
  all: destruct (example_progress x n Hx ltac:(congruence)) as [x1 H1];
    destruct (example_any_inv x x1 (ex_intro _ n Hx) (or_introl H1)) as [n1 Hx1];
    destruct (IH _ (example_step_left _ _ _ Hx H1) x1 n1 eq_refl Hx1) as (x' & Hr & Hd);
    exists x'; split; [by eapply rtc_l|done].
Qed.

Lemma example_bounded x n k x' : example_inv x n -> nsteps example_step k x x' -> (k + steps_left x' <= steps_left x)%nat.
Proof.
  intros Hx Hk. revert n Hx. induction Hk as [x|k x x1 x' H1 _ IH]; intros n Hx; [lia|].
  destruct (example_any_inv x x1 (ex_intro _ n Hx) (or_introl H1)) as [n1 Hx1].
  pose proof (IH n1 Hx1). pose proof (example_step_left _ _ _ Hx H1). lia.
Qed.

(** ** The event loop *)

(** src/examples/async_example.cc:85-94 [example_event_loop, the callbacks]

    What the callbacks of pipe [i] write. *)
Definition loop_line (i : nat) (c : callback_call) : written :=
  match c with
  | CalledMessage m => ToOut ("管道 " +:+ to_string (Z.of_nat i) +:+ " 收到消息: " +:+ text m)
  | CalledError s => ToErr ("管道 " +:+ to_string (Z.of_nat i) +:+ " 错误: " +:+ status_to_string s)
  end.

Section pipes.
Context {P : Type} `{PipeOps P}.

(** src/examples/async_example.cc:74-95 [example_event_loop, the pipes]

    What is written while dialling, and the entries of the loop. *)
Fixpoint add_pipes (i : nat) (results : list (Result P)) : list written * list (PipeEntry P) :=
  match results with
  | [] => ([], [])
  | RStatus _ :: results' =>
      let '(ls, es) := add_pipes (S i) results' in
      (ToErr ("连接 " +:+ to_string (Z.of_nat i) +:+ " 失败") :: ls, es)
  | RValue p :: results' => let '(ls, es) := add_pipes (S i) results' in (ls, mkEntry p true true :: es)
  end.

End pipes.

(** The main thread from the line before [runInBackground]: about to start the
    loop, asleep, in [stop], returned. *)
Inductive loop_main := LMStart | LMNap | LMStop | LMReturned.

Record loop_example := mkLoopExample { lm_pc : loop_main; lm_loop : loop_state; lm_lines : list written }.

(** src/examples/async_example.cc:97-107 [example_event_loop, the run]

    The steps of [Async.loop_step] that this program can take: the loop's own
    thread among those of the main thread, which alone starts and stops the loop. *)
Inductive loop_example_step : loop_example -> loop_example -> Prop :=
| le_start r c n ls :
    loop_example_step (mkLoopExample LMStart (mkLoop Free r None c SIdle n) ls)
      (mkLoopExample LMNap (mkLoop Free true (Some LStart) c SIdle n) ls)
| le_thread m m' r pc pc' c st n lm ls :
    run_step Background r (m, pc) (m', pc') ->
    loop_example_step (mkLoopExample lm (mkLoop m r (Some pc) c st n) ls)
      (mkLoopExample lm (mkLoop m' r (Some pc') c st n) ls)
| le_stop r t c n ls :
    loop_example_step (mkLoopExample LMNap (mkLoop Free r t c SIdle n) ls)
      (mkLoopExample LMStop (mkLoop Stopper false t c SLocked n) ls)
| le_not_joinable r c n ls :
    loop_example_step (mkLoopExample LMStop (mkLoop Stopper r None c SLocked n) ls)
      (mkLoopExample LMReturned (mkLoop Free r None c SIdle (S n)) (ls ++ [ToOut "事件循环已停止"]))
| le_join r pc c n ls :
    loop_example_step (mkLoopExample LMStop (mkLoop Stopper r (Some pc) c SLocked n) ls)
      (mkLoopExample LMStop (mkLoop Stopper r (Some pc) c SJoin n) ls)
| le_joined r c n ls :
    loop_example_step (mkLoopExample LMStop (mkLoop Stopper r (Some LDone) c SJoin n) ls)
      (mkLoopExample LMReturned (mkLoop Free r None c SIdle (S n)) (ls ++ [ToOut "事件循环已停止"])).

Definition loop_lines : list written := [ToOut "事件循环运行中..."].
Definition loop_example_start : loop_example := mkLoopExample LMStart loop_start loop_lines.

Lemma loop_example_sim x x' : loop_example_step x x' -> loop_step (lm_loop x) (lm_loop x').
Proof. intros Hst. destruct Hst; cbn [lm_loop]; by constructor. Qed.

(** The main thread is where the loop's state says. *)
Definition loop_example_inv (x : loop_example) : Prop :=
  loop_reachable (lm_loop x) /\ lm_lines x = loop_lines /\
  match lm_pc x with
  | LMStart => thread (lm_loop x) = None /\ stopper (lm_loop x) = SIdle
  | LMNap => thread (lm_loop x) <> None /\ stopper (lm_loop x) = SIdle
  | LMStop => thread (lm_loop x) <> None /\ stopper (lm_loop x) <> SIdle
  | LMReturned => False
  end.

Lemma loop_example_step_inv x x' : loop_example_inv x -> loop_example_step x x' -> loop_example_inv x'.
Proof.
  intros (Hr & Hl & Hpc) Hst. pose proof (loop_example_sim _ _ Hst) as Hsim.
  assert (Hr' : loop_reachable (lm_loop x')) by (by eapply rtc_r).
  pose proof (inv_alive _ (loop_reachable_inv _ Hr)) as Halive.
  unfold loop_example_inv. split; [done|]. clear Hsim Hr Hr'.
  destruct Hst; cbn [lm_pc lm_loop lm_lines thread stopper stops] in *; try tauto; try done.
  - destruct lm; naive_solver.
  - split; [done|]. by destruct Hpc.
Qed.

(** ** The other examples *)

Section pipes.
Context {P : Type} `{PipeOps P}.

(** src/examples/async_example.cc:19-39 [example_async_future]

    [dialled]: what the result of [async_dial] holds, a pipe or an exception.
    [None]: the send does not return. *)
Definition example_async_future (dialled : Outcome P) : option (list written) :=
  let head := ToOut "=== 示例 1: Future 风格的异步操作 ===" in
  match dialled with
  | Throws e => Some [head; ToErr ("错误: " +:+ what e)]
  | Returns pipe =>
      '(_, sent) ← async_send pipe (bytes_of "Hello, async!");
      Some ([head; ToOut "已连接到服务器"] ++
            match sent with
            | Returns _ => [ToOut "消息已发送"]
            | Throws e => [ToErr ("错误: " +:+ what e)]
            end)
  end.

(** src/examples/async_example.cc:42-65 [example_async_callback]

    What the main thread writes, and what the detached thread writes if it comes
    to it before the program ends. *)
Definition example_async_callback (dialled : Result P) : list written * option (list written) :=
  let head := [ToOut ""; ToOut "=== 示例 2: 回调风格的异步操作 ==="] in
  match dialled with
  | RStatus s => (head ++ [ToErr ("连接失败: " +:+ status_to_string s)], None)
  | RValue pipe =>
      (head,
       '(_, result) ← async_send_callback pipe (bytes_of "Hello with callback!");
       Some (if status_ok result then [ToOut "发送成功 (回调)"]
             else [ToErr ("发送失败: " +:+ status_to_string result)]))
  end.

(** src/examples/async_example.cc:168-179 [example_background_server, the messages] *)
Fixpoint echo_rounds (n : nat) (i : Z) (pipe : P) : option (P * list written) :=
  match n with
  | O => Some (pipe, [])
  | S n' =>
      '(pipe, _) ← pipe_send pipe (bytes_of ("Echo " +:+ to_string i)) (mkSendOptions 0);
      '(pipe, echo) ← pipe_recv pipe (mkRecvOptions 0);
      let ls := match echo with RValue m => [ToOut ("收到回显: " +:+ text m)] | RStatus _ => [] end in
      '(pipe, ls') ← echo_rounds n' (i + 1) pipe;
      Some (pipe, ls ++ ls')
  end.

(** src/examples/async_example.cc:147-184 [example_background_server]

    [listening]: what [run_echo_serverInBackground] does, which may throw; the
    exit code is [None] then, as nothing catches the exception. [stop]: whether
    the function that stops the server returns. *)
Definition example_background_server (listening : Outcome unit) (dialled : Result P) (stop : option unit)
    : option (list written * option Z) :=
  let head := [ToOut ""; ToOut "=== 示例 5: 后台服务器 ==="] in
  match listening with
  | Throws _ => Some (head, None)
  | Returns _ =>
      let head := head ++ [ToOut "服务器已在后台启动"] in
      match dialled with
      | RStatus s => stop;; Some (head ++ [ToErr ("连接失败: " +:+ status_to_string s)], Some 0)
      | RValue pipe =>
          '(_, ls) ← echo_rounds 3 0 pipe;
          stop;;
          Some (head ++ ls ++ [ToOut "服务器已停止"], Some 0)
      end
  end.

(** src/examples/async_example.cc:206-211 [example_batch_async, the waiting]

    [outcomes]: of the ten sends, in the order they were started. An exception is
    not caught. *)
Fixpoint wait_all (i : nat) (outcomes : list (Outcome unit)) : list written * option Z :=
  match outcomes with
  | [] => ([ToOut "所有消息发送完成"], Some 0)
  | Throws _ :: _ => ([], None)
  | Returns _ :: outcomes' =>
      let '(ls, r) := wait_all (S i) outcomes' in
      (ToOut ("消息 " +:+ to_string (Z.of_nat i) +:+ " 发送完成") :: ls, r)
  end.

(** src/examples/async_example.cc:187-212 [example_batch_async] *)
Definition example_batch_async (dialled : Result P) (outcomes : list (Outcome unit)) : list written * option Z :=
  let head := [ToOut ""; ToOut "=== 示例 6: 批量异步操作 ==="] in
  match dialled with
  | RStatus s => (head ++ [ToErr ("连接失败: " +:+ status_to_string s)], Some 0)
  | RValue _ => let '(ls, r) := wait_all 0 outcomes in (head ++ ls, r)
  end.

End pipes.

(** src/examples/async_example.cc:214-242 [main]

    [run]: what an example writes until it returns. *)
Definition async_example (run : Z -> list written) : list string -> ended :=
  choose_example
    ["  1 - Future 风格异步操作"; "  2 - 回调风格异步操作"; "  3 - 事件循环"; "  4 - Channel 线程间通信"; "  5 - 后台服务器";
     "  6 - 批量异步操作"]
    (fun i => if (1 <=? i) && (i <=? 6) then Some (run i) else None).

(** ** Theorems *)

(** C11: the producer and the consumer of the channel example, with the main
    thread that joins them: from every state they reach, whatever the interleaving
    and the spurious wake-ups, their own steps are bounded in number, come to the
    end, and stop nowhere else; and at the end the producer has written its six
    lines, and the consumer each of the five messages in order and that there were
    five. *)
Theorem channel_example_ends x :
  example_reachable x ->
  (exists x', rtc example_step x x' /\ mpc x' = MDone) /\
  (forall k x', nsteps example_step k x x' -> (k <= steps_left x)%nat) /\
  (nf example_step x -> mpc x = MDone) /\
  (mpc x = MDone ->
   plines x = map sent_line (seq 0 5) ++ [closed_line] /\
   clines x = map (fun i => got_line (channel_message i)) (seq 0 5) ++ [total_line 5]).
Proof.
  intros [n Hx]%example_reachable_inv. split_and!.
  - by eapply example_finishes.
  - intros k x' Hk. pose proof (example_bounded _ _ _ _ Hx Hk). lia.
  - intros Hnf. destruct (mpc x) eqn:Em; [| |done]; destruct Hnf; eapply example_progress; (done || congruence).
  - intros Hm. destruct (ei_main _ _ Hx) as [Hp Hk]. rewrite Hm in Hp, Hk. specialize (Hp ltac:(done)). specialize (Hk eq_refl).
    rewrite (ei_plines _ _ Hx), (ei_clines _ _ Hx), Hp, Hk.
    destruct (ei_out _ _ Hx) as [_ ->]; [by right|]. done.
Qed.

(** The event loop example never writes its last line and never returns: in every
    state it reaches, the main thread has not come back from [stop]. *)
Theorem event_loop_example_hangs x :
  rtc loop_example_step loop_example_start x -> lm_lines x = loop_lines /\ lm_pc x <> LMReturned.
Proof.
  intros Hr. assert (loop_example_inv x) as (_ & Hl & Hpc).
  { eapply (rtc_invariant loop_example_step loop_example_inv); [exact loop_example_step_inv|exact Hr|].
    split; [apply rtc_refl|]. done. }
  split; [done|]. by destruct (lm_pc x).
Qed.

(** ** Witnesses *)

Lemma channel_example_ends_witness :
  exists x', rtc example_step example_start x' /\ mpc x' = MDone.
Proof. exact (proj1 (channel_example_ends example_start (rtc_refl _ _))). Defined.
