(* ===== verification/ConvenienceExample.v ===== *)
(** * The example of the convenience operations (examples/convenience_example.cc)

    The seven examples over the models of [Convenience] and [Raii] and any
    implementation of the Pipe interface: what they write, as functions of what
    dialling and listening answer. [None] is an example that does not return, or
    not in the turns given. Lines are UTF-8 and without their end of line. *)

From S2P Require Import Prelude Status Options Pipe Address Qos Dial Convenience Raii Programs UtilsExample.

Definition failed (what : string) (s : Status) : written := ToErr (what +:+ status_to_string s).
Definition title (line : string) : list written := [ToOut ""; ToOut line].

(** src/examples/convenience_example.cc:20-23 [example_builder_api, the builder] *)
Definition example_builder : DialBuilder :=
  db_auto_reconnect 100
    (db_send_hwm (8 * 1024 * 1024) (db_timeout (5 * 1000) (DialBuilder_make (tcp_url "127.0.0.1" 9000)))).

Section examples.
Context {P : Type} `{PipeOps P}.

(** src/examples/convenience_example.cc:16-32 [example_builder_api]

    [connected]: what [connect] of [example_builder] answers. *)
Definition example_builder_api {D} (connected : Result D) : list written :=
  ToOut "=== 示例 1: 构建器 API ===" ::
  match connected with
  | RStatus s => [failed "连接失败: " s]
  | RValue _ => [ToOut "已连接到服务器"]
  end.

(** src/examples/convenience_example.cc:35-55 [example_raii]

    With what becomes of the pipe, which its wrapper closes. *)
Definition example_raii (dialled : Result P) : option (list written * list (effect P)) :=
  let head := title "=== 示例 2: RAII 风格 ===" in
  match scoped_result dialled with
  | RStatus s => Some (head ++ [failed "连接失败: " s], [])
  | RValue pipe =>
      '(pipe, st) ← sp_send pipe (bytes_of "Hello, duct!") (mkSendOptions 0);
      Some (head ++ (if negb (status_ok st) then [failed "发送失败: " st] else []), sp_destroy pipe)
  end.

(** src/examples/convenience_example.cc:58-80 [example_request_response] *)
Definition example_request_response (dialled : Result P) : option (list written * list (effect P)) :=
  let head := title "=== 示例 3: 请求-响应模式 ===" in
  match scoped_result dialled with
  | RStatus s => Some (head ++ [failed "连接失败: " s], [])
  | RValue pipe =>
      p ← pipe_ pipe;
      '(p, response) ← request p (bytes_of "ping") (5 * 1000);
      Some (head ++ match response with
                    | RValue m => [ToOut ("收到响应: " +:+ text m)]
                    | RStatus s => [failed "请求失败: " s]
                    end, sp_destroy (mkScoped (Some p)))
  end.

(** src/examples/convenience_example.cc:95-98 [example_batch_operations, the messages] *)
Definition batch_messages : list (list byte) :=
  map (fun i => bytes_of ("message " +:+ to_string (Z.of_nat i))) (seq 0 10).

(** src/examples/convenience_example.cc:83-104 [example_batch_operations] *)
Definition example_batch_operations (dialled : Result P) : option (list written * list (effect P)) :=
  let head := title "=== 示例 4: 批量操作 ===" in
  match scoped_result dialled with
  | RStatus s => Some (head ++ [failed "连接失败: " s], [])
  | RValue pipe =>
      p ← pipe_ pipe;
      '(p, sent) ← send_batch p batch_messages;
      Some (head ++ match sent with
                    | RValue n => [ToOut ("成功发送 " +:+ to_string n +:+ " 条消息")]
                    | RStatus _ => []
                    end, sp_destroy (mkScoped (Some p)))
  end.

(** src/examples/convenience_example.cc:119-126 [example_callback_handler, the handler] *)
Definition print_message (lines : list written) (m : list byte) : list written * Status :=
  (lines ++ [ToOut ("收到消息: " +:+ text m)], Ok).

(** src/examples/convenience_example.cc:107-127 [example_callback_handler]

    With the pipe as [serve] destroyed it. *)
Definition example_callback_handler (turns : nat) (dialled : Result P)
    : option (list written * option P) :=
  let head := title "=== 示例 5: 回调处理器 ===" in
  match dialled with
  | RStatus s => Some (head ++ [failed "连接失败: " s], None)
  | RValue pipe => '(x, _) ← serve print_message turns (pipe, head); Some (snd x, Some (fst x))
  end.

(** src/examples/convenience_example.cc:130-147 [example_exception_style]

    [dialled]: what [value_or_throw] of the result does. *)
Definition example_exception_style (dialled : Outcome P) : option (list written * list (effect P)) :=
  let head := title "=== 示例 6: 异常风格 ===" in
  let caught (e : Exception) := ToErr ("异常: " +:+ what e) in
  match dialled with
  | Throws e => Some (head ++ [caught e], [])
  | Returns p =>
      '(pipe, st) ← sp_send (sp_make p) (bytes_of "Hello!") (mkSendOptions 0);
      Some (head ++ match throw_if_error st with
                    | Returns _ => [ToOut "消息发送成功"]
                    | Throws e => [caught e]
                    end, sp_destroy pipe)
  end.

(** src/examples/convenience_example.cc:150-177 [example_echo_server]

    [bound] and [accepted]: what [raii::bind] and [accept] answer. *)
Definition example_echo_server {L} (turns : nat) (bound : Result (ScopedListener L)) (accepted : Result (Scoped P))
    : option (list written) :=
  let head := title "=== 示例 7: Echo 服务器 ===" in
  match bound with
  | RStatus s => Some (head ++ [failed "监听失败: " s])
  | RValue _ =>
      let head := head ++ [ToOut "等待连接..."] in
      match accepted with
      | RStatus s => Some (head ++ [failed "接受连接失败: " s])
      | RValue pipe =>
          p ← snd (sp_release pipe);
          '(_, st) ← echo_server turns (p, tt);
          Some (head ++ [ToOut "客户端已连接"] ++
                (if negb (status_ok st) then [failed "Echo 服务器错误: " st] else []))
      end
  end.

End examples.

(** src/examples/convenience_example.cc:179-209 [main]

    [run]: what an example writes until it returns. *)
Definition convenience_example (run : Z -> list written) : list string -> ended :=
  choose_example
    ["  1 - 构建器 API"; "  2 - RAII 风格"; "  3 - 请求-响应模式"; "  4 - 批量操作"; "  5 - 回调处理器"; "  6 - 异常风格";
     "  7 - Echo 服务器"]
    (fun i => if (1 <=? i) && (i <=? 7) then Some (run i) else None).

(** ** Theorems *)

Lemma print_message_accepts lines ms lines' :
  accepts print_message lines ms lines' -> lines' = lines ++ map (fun m => ToOut ("收到消息: " +:+ text m)) ms.
Proof.
  induction 1 as [lines|lines m lines1 st ms lines2 E _ _ IH]; [by rewrite app_nil_r|].
  injection E as <- <-. by rewrite IH, <- app_assoc.
Qed.

(** The callback example writes every message that comes, in order, and returns
    when a receive fails, its pipe closed. *)
Theorem callback_example_prints {P} `{PipeOps P} turns (p : P) lines q :
  example_callback_handler turns (RValue (mkJ p [])) = Some (lines, Some q) ->
  exists ms e,
    journal q = receives ms ++ [DidRecv (RStatus e)] /\
    lines = title "=== 示例 5: 回调处理器 ===" ++ map (fun m => ToOut ("收到消息: " +:+ text m)) ms.
Proof.
  unfold example_callback_handler. destruct (serve _ _ _) as [[x st]|] eqn:E; cbn [mbind option_bind]; [|done].
  intros [= <- <-].
  destruct (handlers_see_every_message print_message 0 turns _ _ _ (or_introl E)) as (ms & s1 & Ha & Hend).
  apply print_message_accepts in Ha as ->. destruct Hend as [(e & Hj & Hl & _)|(m & _ & Hp & Hst)].
  - exists ms, e. by rewrite Hj, Hl.
  - by injection Hp as _ <-.
Qed.

(** The batch example says that ten messages were sent exactly when the pipe has
    accepted all ten, in order; and however it goes, the pipe it dialled is closed
    and destroyed once. *)
Theorem batch_example_reports {P} `{PipeOps P} (p : P) lines effects :
  example_batch_operations (RValue (mkJ p [])) = Some (lines, effects) ->
  exists q, effects = [Closed q; Destroyed q] /\
    ((lines = title "=== 示例 4: 批量操作 ===" ++ [ToOut "成功发送 10 条消息"] /\
      exists sts, Forall (fun st => status_ok st = true) sts /\ journal q = sends (zip batch_messages sts) /\
        length sts = 10%nat) \/
     (lines = title "=== 示例 4: 批量操作 ===" /\
      exists done m st, all_ok done /\ status_ok st = false /\ journal q = sends done ++ [DidSend m st])).
Proof.
  unfold example_batch_operations. cbn [scoped_result sp_make pipe_ mbind option_bind].
  destruct (send_batch _ _) as [[q r]|] eqn:E; [|done]. intros [= <- <-]. exists q. split; [done|].
  destruct (batches (mkJ p []) batch_messages 0 0) as [Hb _]. destruct (Hb _ _ E) as (done & Hok & Hr).
  destruct r as [n|e].
  - destruct Hr as (Hms & Hj & ->). left. split; [reflexivity|]. exists done.*2. split_and!.
    + by apply Forall_fmap.
    + by rewrite Hms, zip_fst_snd.
    + rewrite length_fmap, <- (length_fmap fst), <- Hms. done.
  - destruct Hr as (m & rest & _ & He & Hj). right. split; [done|]. by exists done, m, e.
Qed.
