(* ===== verification/Tests.v ===== *)
(** * The unit tests (tests/duct_tests.cc)

    The tests of the repository as functions over the model: a test is given the
    answers of the system and yields the number of its expectations that fail.
    [tests_pass] shows that the program [main] of the tests exits with 0 whatever
    a system that does its part answers. The test of SIGPIPE does nothing but on
    macOS, and the blocks for Windows are not followed. Closing the listener and
    joining the thread at the end of a test change no expectation and are left
    out; the listener's thread is the [accept] that meets the dial. *)

From S2P Require Import Prelude Status Options Wire Address ShmNames ShmRing Shm Pipe Qos Dial.

(** src/tests/duct_tests.cc:30-42 [EXPECT_TRUE, EXPECT_EQ]

    What one expectation adds to [g_failures]. *)
Definition expect (b : bool) : nat := if b then 0 else 1.

Definition bytes_of (s : string) : payload := String.list_byte_of_string s.
Definition text (m : payload) : string := String.string_of_list_byte m.

(** src/tests/duct_tests.cc:44-76 [test_address_parse] *)
Definition test_address_parse : nat :=
  let a1 := parse "127.0.0.1:1234" in
  let a2 := parse "tcp://:9" in
  let a3 := parse "shm://gamebus" in
  let a4 := parse "uds:///tmp/duct.sock" in
  let a5 := parse "pipe://mypipe" in
  sum_list [
    expect (ok a1);
    expect (bool_decide (scheme (value a1) = kTcp));
    expect (bool_decide (host (tcp (value a1)) = "127.0.0.1"));
    expect (port (tcp (value a1)) =? 1234);
    expect (ok a2);
    expect (bool_decide (host (tcp (value a2)) = "127.0.0.1"));
    expect (port (tcp (value a2)) =? 9);
    expect (ok a3);
    expect (bool_decide (scheme (value a3) = kShm));
    expect (bool_decide (name (value a3) = "gamebus"));
    expect (ok a4);
    expect (bool_decide (scheme (value a4) = kUds));
    expect (bool_decide (name (value a4) = "/tmp/duct.sock"));
    expect (ok a5);
    expect (bool_decide (scheme (value a5) = kPipe));
    expect (bool_decide (name (value a5) = "mypipe"))].

(** ** Over shared memory *)

(** What the system answers to the calls that set up one connection, and the
    kernel they find. *)
Record bus_answers := mkBus {
  ba_strerror : Z -> string;
  ba_errno : Z;
  ba_kernel : kernel;
  ba_listen_fd : Z;
  ba_r1 : Z;
  ba_r2 : Z;
  ba_create : resource_answers;
  ba_dial_fd : Z;
  ba_dial_evs : list io_event;
  ba_accept_fd : Z;
  ba_accept_evs : list io_event;
  ba_open : resource_answers;
}.

(** [sizeof(sockaddr_un::sun_path)] *)
Definition sun_path_size : Z := 108.

Record connected := mkConnected { listener : ShmListener; client : ShmPipe; server : ShmPipe; kernel_ : kernel }.

(** [dial_opt]: without the QoS wrapper. *)
Definition dial_opt : DialOptions :=
  mkDialOptions (dial_timeout DialOptions_default)
    (let q := QosOptions_default in mkQosOptions 0 0 (backpressure q) (ttl q) (linger q) (reliability q))
    (reconnect DialOptions_default) (on_state_change DialOptions_default).

(** src/tests/duct_tests.cc:176-208 [test_shm_backpressure_timeout, up to the sends]

    The listener, the dial and the accept that meets it, which all three tests
    over shared memory begin with: the failures, and the connection if there is
    one. *)
Definition connect (e : bus_answers) (bus : string) : option (nat * option connected) :=
  match shm_listen (ba_strerror e) sun_path_size bus ListenOptions_default (ba_listen_fd e) (ba_errno e) true true
          (ba_kernel e) with
  | (RStatus _, _) => Some (1%nat, None)
  | (RValue lis, k) =>
      '(c, k, s) ← shm_dial (ba_strerror e) sun_path_size bus dial_opt (ba_r1 e) (ba_r2 e) (ba_create e)
                     (ba_dial_fd e) (ba_errno e) true (mkSock (ba_dial_evs e) [] []) k;
      match c with
      | RStatus _ => Some (1%nat, None)
      | RValue c =>
          '(sr, k) ← shm_accept (ba_strerror e) lis (ba_accept_fd e) (ba_errno e)
                       (mkSock (ba_accept_evs e) (so_out s) []) (ba_open e) k;
          match sr with
          | RStatus _ => Some (1%nat, None)
          | RValue p => Some (0%nat, Some (mkConnected lis c p k))
          end
      end
  end.

(** src/tests/duct_tests.cc:83-89 [test_shm_echo_one, the server]

    With a connection accepted; its pipe is destroyed on return. *)
Definition echo_one_server (p : ShmPipe) (evs : list wait_event) (k : kernel) : option (Status * kernel) :=
  '(msg, k, evs) ← shm_recv p (mkRecvOptions 0) evs k;
  match msg with
  | RStatus s => Some (s, snd (shm_close p k))
  | RValue m => '(st, k, _) ← shm_send p m (mkSendOptions 0) evs k; Some (st, snd (shm_close p k))
  end.

(** src/tests/duct_tests.cc:78-122 [test_shm_echo_one]

    [evs] and [server_evs] are the waits of the two sides; [in_time] is whether
    the server is found ready. *)
Definition test_shm_echo_one (e : bus_answers) (evs server_evs : list wait_event) (in_time : bool) : option nat :=
  '(failures, w) ← connect e "duct_testbus";
  match w with
  | None => Some failures
  | Some w =>
      '(st, k, evs) ← shm_send (client w) (bytes_of "hello") (mkSendOptions 0) evs (kernel_ w);
      if negb (status_ok st) then Some (expect false)
      else
        '(sr, k) ← echo_one_server (server w) server_evs k;
        '(echoed, k, _) ← shm_recv (client w) (mkRecvOptions 0) evs k;
        match echoed with
        | RStatus _ => Some (expect false)
        | RValue m =>
            Some (expect (bool_decide (text m = "hello")) + expect in_time + (if in_time then expect (status_ok sr) else 0))%nat
        end
  end.

(** src/tests/duct_tests.cc:211-218 [test_shm_backpressure_timeout, the loop]

    The failures, whether a timeout was seen, and the messages accepted. *)
Fixpoint fill (n : nat) (p : ShmPipe) (opt : SendOptions) (evs : list wait_event) (k : kernel)
    : option (nat * bool * nat) :=
  match n with
  | O => Some (0%nat, false, 0%nat)
  | S n' =>
      '(st, k, evs) ← shm_send p (bytes_of "x") opt evs k;
      if negb (status_ok st) then Some (expect (bool_decide (code st = kTimeout)), true, 0%nat)
      else '(f, saw, sent) ← fill n' p opt evs k; Some (f, saw, S sent)
  end.

(** src/tests/duct_tests.cc:176-223 [test_shm_backpressure_timeout]

    The failures, and the messages accepted. *)
Definition test_shm_backpressure_timeout (e : bus_answers) (evs : list wait_event) : option (nat * nat) :=
  '(failures, w) ← connect e "duct_testbp";
  match w with
  | None => Some (failures, 0%nat)
  | Some w =>
      '(f, saw_timeout, sent) ← fill 256 (client w) (mkSendOptions 50) evs (kernel_ w);
      Some (f + expect saw_timeout, sent)%nat
  end.

(** src/tests/duct_tests.cc:288-292 [test_shm_burst_without_receiver, the loop] *)
Fixpoint burst (n : nat) (p : ShmPipe) (opt : SendOptions) (evs : list wait_event) (k : kernel) : option nat :=
  match n with
  | O => Some 0%nat
  | S n' =>
      '(st, k, evs) ← shm_send p (bytes_of "x") opt evs k;
      if negb (status_ok st) then Some (expect false) else burst n' p opt evs k
  end.

(** src/tests/duct_tests.cc:253-296 [test_shm_burst_without_receiver] *)
Definition test_shm_burst_without_receiver (e : bus_answers) (evs : list wait_event) : option nat :=
  '(failures, w) ← connect e "duct_testburst";
  match w with
  | None => Some failures
  | Some w => burst 8 (client w) (mkSendOptions 100) evs (kernel_ w)
  end.

(** ** The other tests *)

(** src/tests/duct_tests.cc:124-132 [test_pipe_echo_one, on POSIX] *)
Definition test_pipe_echo_one {H : HostOrder} (a : posix_answers) (w : posix_system) : option nat :=
  '(lis_r, _) ← listen (posix a) "pipe://duct_testpipe_echo" ListenOptions_default w;
  Some (expect (negb (ok lis_r)) +
        (if negb (ok lis_r) then expect (bool_decide (code (status lis_r) = kNotSupported)) else 0))%nat.

(** src/tests/duct_tests.cc:298-305 [test_wire_decode_rejects_bad_magic] *)
Definition test_wire_decode_rejects_bad_magic {H : HostOrder} : nat :=
  let hdr := replicate (Z.to_nat kHeaderLen) Init.Byte.x00 in
  let decoded := decode_header hdr in
  (expect (negb (ok decoded)) +
   (if negb (ok decoded) then expect (bool_decide (code (status decoded) = kProtocolError)) else 0))%nat.

(** The three messages the writer sends. *)
Definition big : payload := replicate (Z.to_nat kMaxFramePayload) Init.Byte.x78.
Definition wire_messages : list payload := [bytes_of "one"; bytes_of "two"; big].

(** src/tests/duct_tests.cc:413-448 [test_wire_socketpair_frames, the frames]

    The writer and the reader over one socket pair, given the transfers of each. *)
Definition test_wire_socketpair_frames {H : HostOrder} (writer reader : list io_event) : option nat :=
  match write_frames (mkSock writer [] []) wire_messages with
  | Blocks _ => None
  | Done _ s =>
      match read_frames (mkSock reader (so_out s) []) 3 with
      | Done [r1; r2; r3] _ =>
          Some (expect (ok r1) + (if ok r1 then expect (bool_decide (text (value r1) = "one")) else 0) +
                expect (ok r2) + (if ok r2 then expect (bool_decide (text (value r2) = "two")) else 0) +
                expect (ok r3) + (if ok r3 then expect (len (value r3) =? kMaxFramePayload)%Z else 0))%nat
      | _ => None
      end
  end.

(** What the system answers to the whole program. *)
Record test_answers := mkTests {
  t_echo : bus_answers;
  t_echo_waits : list wait_event;
  t_echo_server_waits : list wait_event;
  t_echo_in_time : bool;
  t_posix : posix_answers;
  t_system : posix_system;
  t_full : bus_answers;
  t_full_waits : list wait_event;
  t_burst : bus_answers;
  t_burst_waits : list wait_event;
  t_writer : list io_event;
  t_reader : list io_event;
}.

(** src/tests/duct_tests.cc:455-471 [main]

    The exit code and the last line. *)
Definition main {H : HostOrder} (t : test_answers) : option (Z * string) :=
  let f1 := test_address_parse in
  f2 ← test_shm_echo_one (t_echo t) (t_echo_waits t) (t_echo_server_waits t) (t_echo_in_time t);
  f3 ← test_pipe_echo_one (t_posix t) (t_system t);
  '(f4, _) ← test_shm_backpressure_timeout (t_full t) (t_full_waits t);
  f5 ← test_shm_burst_without_receiver (t_burst t) (t_burst_waits t);
  let f6 := test_wire_decode_rejects_bad_magic in
  f7 ← test_wire_socketpair_frames (t_writer t) (t_reader t);
  let g_failures := sum_list [f1; f2; f3; f4; f5; f6; f7] in
  Some (if negb (Nat.eqb g_failures 0) then (1, "FAIL (" +:+ to_string (Z.of_nat g_failures) +:+ ")") else (0, "OK")).

(** ** A system that does its part *)

Definition serves (bus : string) (e : bus_answers) : Prop :=
  0 <= ba_listen_fd e /\ 0 <= ba_r1 e < 2 ^ 32 /\ 0 <= ba_r2 e < 2 ^ 32 /\
  good_answers (ba_create e) /\ ra_truncate (ba_create e) = true /\
  unused_names (make_names bus (random_conn_id_hex16 (ba_r1 e) (ba_r2 e))) (ba_kernel e) /\
  0 <= ba_dial_fd e /\ live (ba_dial_evs e) /\ (16 <= transfers (ba_dial_evs e))%nat /\
  0 <= ba_accept_fd e /\ live (ba_accept_evs e) /\ (16 <= transfers (ba_accept_evs e))%nat /\
  good_answers (ba_open e).

(** Two ends of one connection, both rings empty. *)
Definition fresh_ends (w : connected) (o : Z) : Prop :=
  is_client_ (client w) = true /\ is_client_ (server w) = false /\
  handles_wf (h_ (client w)) o /\ handles_wf (h_ (server w)) o /\
  (forall d k, dir_channel d (h_ (server w)) o k = dir_channel d (h_ (client w)) o k) /\
  forall d, dir_channel d (h_ (client w)) o (kernel_ w) = zero_channel.

Lemma connect_good e bus :
  serves bus e -> Z.of_nat (String.length (bootstrap_path (make_names bus "0000000000000000"))) < sun_path_size ->
  exists w o, connect e bus = Some (0%nat, Some w) /\ fresh_ends w o.
Proof.
  intros (Hl & H1 & H2 & Hc & Ht & Hu & Hd & Hdl & Hdt & Ha & Hal & Hat & Ho) Hpath.
  unfold connect, shm_listen, uds_listen.
  destruct (Z.ltb_spec (ba_listen_fd e) 0); [lia|].
  rewrite Z.geb_leb, (proj2 (Z.leb_gt _ _)) by done. cbn [negb].
  match goal with |- context [shm_dial _ _ _ _ _ _ _ _ _ _ _ ?k0] => set (k := k0) end.
  assert (Hu' : unused_names (make_names bus (random_conn_id_hex16 (ba_r1 e) (ba_r2 e))) k) by done.
  destruct (shm_dial_good (ba_strerror e) sun_path_size bus dial_opt (ba_r1 e) (ba_r2 e) (ba_create e) (ba_dial_fd e)
              (ba_errno e) (mkSock (ba_dial_evs e) [] []) k) as (p & k1 & s1 & Hdial); try done.
  rewrite Hdial. cbn [mbind option_bind].
  destruct (shm_accept_meets (ba_strerror e) sun_path_size bus bus dial_opt (ba_r1 e) (ba_r2 e) (ba_create e)
              (ba_dial_fd e) (ba_errno e) true (mkSock (ba_dial_evs e) [] []) k p k1 s1
              (mkShmListener (make_names bus "0000000000000000") (ba_listen_fd e)) (ba_accept_fd e) (ba_errno e)
              (ba_open e) (ba_accept_evs e) [] []) as (q & k2 & Hacc & Hcp & Hcq & _ & o & Hp & Hq & Hch); try done.
  rewrite app_nil_r in Hacc. rewrite Hacc. cbn [mbind option_bind].
  eexists _, o. split; [reflexivity|]. unfold fresh_ends. cbn [client server kernel_].
  split_and!; [done..|intros d k'; by destruct (Hch d k')|intros d; by destruct (Hch d k2)].
Qed.

(** Destroying a pipe changes neither memory nor counts. *)
Lemma shm_close_memory p k : k_mem (snd (shm_close p k)) = k_mem k /\ k_counts (snd (shm_close p k)) = k_counts k.
Proof.
  unfold shm_close. destruct (_ && _); [done|]. unfold close_handles, close_sem.
  destruct (owner_ p), (mem (h_ p)), (shm_fd (h_ p) >=? 0), (c2s_items (h_ p)), (c2s_spaces (h_ p)),
    (s2c_items (h_ p)), (s2c_spaces (h_ p)); done.
Qed.

Lemma dir_channel_closed d h o p k : dir_channel d h o (snd (shm_close p k)) = dir_channel d h o k.
Proof. unfold dir_channel. by destruct (shm_close_memory p k) as [-> ->]. Qed.

Lemma small_text s : (String.length s < 100)%nat -> small (bytes_of s).
Proof. intros H. unfold small, bytes_of. rewrite list_byte_of_string_length. unfold kSlotPayloadMax. lia. Qed.

Lemma echo_one_passes e evs evs' :
  serves "duct_testbus" e ->
  test_shm_echo_one e (Taken :: Taken :: evs) (Taken :: Taken :: evs') true = Some 0%nat.
Proof.
  intros Hs. destruct (connect_good e "duct_testbus" Hs) as (w & o & Hc & Hcp & Hcq & Hp & Hq & Hpq & Hz); [done|].
  unfold test_shm_echo_one. rewrite Hc. cbn [mbind option_bind].
  pose proof (small_text "hello" ltac:(cbn; lia)) as Hm. set (m := bytes_of "hello") in *.
  destruct (shm_send_quiescent (client w) o m (mkSendOptions 0) (Taken :: evs) (kernel_ w) []) as (k1 & -> & A1 & A2);
    [done..|rewrite Hz; apply zero_quiescent|].
  rewrite Hcp in A1, A2. cbn [negb app mbind option_bind] in *. change (status_ok Ok) with true. cbn [negb]. cbv iota.
  unfold echo_one_server.
  destruct (shm_recv_quiescent (server w) o m (mkRecvOptions 0) (Taken :: evs') k1 []) as (k2 & -> & B1 & B2);
    [done|rewrite Hcq; cbn [negb]; by rewrite Hpq|].
  rewrite Hcq in B1, B2. cbn [negb mbind option_bind] in *. rewrite !Hpq, A2, Hz in B2.
  destruct (shm_send_quiescent (server w) o m (mkSendOptions 0) evs' k2 []) as (k3 & -> & C1 & C2);
    [done..|rewrite Hcq, Hpq, B2; apply zero_quiescent|].
  rewrite Hcq, Hpq in C1. cbn [negb app mbind option_bind] in *.
  destruct (shm_recv_quiescent (client w) o m (mkRecvOptions 0) evs (snd (shm_close (server w) k3)) []) as (k4 & -> & _);
    [done|rewrite Hcp, dir_channel_closed; exact C1|].
  cbn [mbind option_bind]. change (status_ok Ok) with true. reflexivity.
Qed.

(** The waits a semaphore allows a [send] with a timeout: taken, interrupted,
    timed out. *)
Definition wait_allowed (w : wait_event) : Prop := w = Taken \/ w = WaitErr EINTR \/ w = WaitErr ETIMEDOUT.

(** A [send] of a small message with a timeout, however its waits end. *)
Lemma send_any_waits p o m opt evs k q st k' evs' :
  handles_wf (h_ p) o -> quiescent (dir_channel (is_client_ p) (h_ p) o k) q -> small m -> send_timeout opt <> 0 ->
  Forall wait_allowed evs -> shm_send p m opt evs k = Some (st, k', evs') ->
  status_ok st = true /\ len q < kSlotCount /\ Forall wait_allowed evs' /\
    quiescent (dir_channel (is_client_ p) (h_ p) o k') (q ++ [m]) \/
  code st = kTimeout.
Proof.
  intros Hh Hq Hm Ht Hev. pose proof (shm_send_branches p o m opt) as Hb. induction Hev as [|e evs He Hev IH].
  - unfold shm_send, sem_wait_opt. rewrite (proj1 Hh), (proj2 (Z.eqb_neq _ _)) by done.
    destruct (gtb_spec (len m) kSlotPayloadMax); [unfold small in Hm; lia|done].
  - destruct (Hb evs k q Hh Hq) as (_ & Hsend & Hfull & Htime & Hintr). intros H.
    destruct He as [->|[->| ->]].
    + left. destruct (decide (len q < kSlotCount)) as [Hl|Hl].
      * destruct (Hsend Hm Hl) as (k1 & Hk1 & H1 & _). rewrite Hk1 in H. simplify_eq. done.
      * assert (len q = kSlotCount).
        { destruct (quiescent_counts _ _ Hq) as (_ & Hsp & _). destruct Hq as (pub & ret & Hr & _).
          apply reachable_inv in Hr. destruct (inv_spaces _ Hr) as [H0 _]. cbn [chan] in H0. lia. }
        by rewrite Hfull in H.
    + rewrite Hintr in H by done. by apply IH.
    + right. destruct (Htime Hm Ht) as (st' & k1 & Hk1 & ? & _). rewrite Hk1 in H. by simplify_eq.
Qed.

Lemma fill_outcome n p o evs k q f saw sent :
  handles_wf (h_ p) o -> quiescent (dir_channel (is_client_ p) (h_ p) o k) q -> Forall wait_allowed evs ->
  fill n p (mkSendOptions 50) evs k = Some (f, saw, sent) ->
  f = 0%nat /\ (sent = 0%nat \/ len q + Z.of_nat sent <= kSlotCount) /\ (kSlotCount - len q < Z.of_nat n -> saw = true).
Proof.
  intros Hh. pose proof (small_text "x" ltac:(cbn; lia)) as Hm.
  revert evs k q f saw sent. induction n as [|n IH]; intros evs k q f saw sent Hq Hev H; cbn [fill] in H.
  { injection H as <- <- <-. split; [done|]. split; [by left|]. intros.
    destruct (quiescent_counts _ _ Hq) as (_ & Hsp & _). destruct Hq as (pub & ret & Hr & _).
    apply reachable_inv in Hr. destruct (inv_spaces _ Hr) as [H0 _]. cbn [chan] in H0. lia. }
  destruct (shm_send p (bytes_of "x") (mkSendOptions 50) evs k) as [[[st k1] evs1]|] eqn:E; [|done].
  cbn [mbind option_bind] in H.
  destruct (send_any_waits p o _ (mkSendOptions 50) evs k q st k1 evs1 Hh Hq Hm ltac:(cbn; lia) Hev E)
    as [(Hst & Hl & Hev1 & Hq1)|Hc].
  - rewrite Hst in H. cbn [negb] in H. destruct (fill n p _ evs1 k1) as [[[f1 saw1] sent1]|] eqn:E1; [|done].
    cbn [mbind option_bind] in H. injection H as <- <- <-.
    destruct (IH _ _ _ _ _ _ Hq1 Hev1 E1) as (-> & Hs & Hsaw). rewrite length_app in Hs, Hsaw. cbn [length] in Hs, Hsaw.
    split; [done|]. split; [right; lia|]. intros. apply Hsaw. lia.
  - unfold status_ok in H. rewrite Hc in H. cbn in H. injection H as <- <- <-. split_and!; [done|by left|done].
Qed.

Lemma fill_prompt r n p o k q evs :
  handles_wf (h_ p) o -> quiescent (dir_channel (is_client_ p) (h_ p) o k) q ->
  len q + Z.of_nat r = kSlotCount -> (r < n)%nat ->
  fill n p (mkSendOptions 50) (replicate r Taken ++ WaitErr ETIMEDOUT :: evs) k = Some (0%nat, true, r).
Proof.
  intros Hh. pose proof (small_text "x" ltac:(cbn; lia)) as Hm.
  revert n k q. induction r as [|r IH]; intros [|n] k q Hq Hl Hn; try lia; cbn [fill replicate app].
  - destruct (shm_send_branches p o (bytes_of "x") (mkSendOptions 50) evs k q Hh Hq) as (_ & _ & _ & Ht & _).
    destruct (Ht Hm ltac:(cbn; lia)) as (st & k' & -> & Hc & _). cbn [mbind option_bind].
    unfold status_ok. rewrite Hc. done.
  - destruct (shm_send_quiescent p o (bytes_of "x") (mkSendOptions 50) (replicate r Taken ++ WaitErr ETIMEDOUT :: evs) k q)
      as (k1 & -> & Hq1 & _); [done..|lia|done|].
    cbn [mbind option_bind]. change (status_ok Ok) with true. cbn [negb]. cbv iota.
    rewrite (IH n k1 (q ++ [bytes_of "x"])); [done|done|rewrite length_app; cbn [length]; lia|lia].
Qed.

Lemma burst_prompt n p o opt k q evs :
  handles_wf (h_ p) o -> quiescent (dir_channel (is_client_ p) (h_ p) o k) q ->
  len q + Z.of_nat n <= kSlotCount -> burst n p opt (replicate n Taken ++ evs) k = Some 0%nat.
Proof.
  intros Hh. pose proof (small_text "x" ltac:(cbn; lia)) as Hm.
  revert k q. induction n as [|n IH]; intros k q Hq Hl; cbn [burst replicate app]; [done|].
  destruct (shm_send_quiescent p o (bytes_of "x") opt (replicate n Taken ++ evs) k q) as (k1 & -> & Hq1 & _); [done..|lia|done|].
  cbn [mbind option_bind]. change (status_ok Ok) with true. cbn [negb]. cbv iota.
  apply (IH k1 (q ++ [bytes_of "x"])); [done|]. rewrite length_app. cbn [length]. lia.
Qed.

Lemma big_size : len big = kMaxFramePayload.
Proof. unfold big. rewrite length_replicate. by rewrite Z2Nat.id. Qed.

Lemma wire_messages_fit : Forall fits wire_messages.
Proof.
  unfold wire_messages, fits. repeat apply Forall_cons_2; try apply Forall_nil_2.
  - vm_compute. discriminate.
  - vm_compute. discriminate.
  - by rewrite big_size.
Qed.

Lemma wire_frames_pass (H : HostOrder) writer reader :
  live writer -> (frames_size wire_messages <= transfers writer)%nat ->
  live reader -> (frames_size wire_messages <= transfers reader)%nat ->
  test_wire_socketpair_frames writer reader = Some 0%nat.
Proof.
  intros Hl1 Ht1 Hl2 Ht2. unfold test_wire_socketpair_frames.
  destruct (write_frames_live wire_messages writer [] [] wire_messages_fit Hl1 Ht1) as (w' & ->). cbn [app so_out].
  destruct (read_frames_live wire_messages reader [] [] wire_messages_fit Hl2 Ht2) as (r' & Hr).
  rewrite app_nil_r in Hr. change (length wire_messages) with 3%nat in Hr. rewrite Hr. cbn [wire_messages map ok value].
  rewrite big_size. reflexivity.
Qed.

Lemma address_tests_pass : test_address_parse = 0%nat.
Proof. vm_compute. reflexivity. Qed.

Lemma decode_test_passes (H : HostOrder) : test_wire_decode_rejects_bad_magic = 0%nat.
Proof. destruct H; vm_compute; reflexivity. Qed.

Lemma pipe_test_passes (H : HostOrder) a w : test_pipe_echo_one a w = Some 0%nat.
Proof. reflexivity. Qed.

(** The system does its part in every test: connections are set up, waits that
    can be served are, a full ring times out, and sockets keep transferring. *)
Record system_works (t : test_answers) : Prop := {
  sw_echo : serves "duct_testbus" (t_echo t);
  sw_echo_waits : exists evs, t_echo_waits t = Taken :: Taken :: evs;
  sw_echo_server_waits : exists evs, t_echo_server_waits t = Taken :: Taken :: evs;
  sw_in_time : t_echo_in_time t = true;
  sw_full : serves "duct_testbp" (t_full t);
  sw_full_waits : exists evs, t_full_waits t = replicate 64 Taken ++ WaitErr ETIMEDOUT :: evs;
  sw_burst : serves "duct_testburst" (t_burst t);
  sw_burst_waits : exists evs, t_burst_waits t = replicate 8 Taken ++ evs;
  sw_writer : live (t_writer t) /\ (frames_size wire_messages <= transfers (t_writer t))%nat;
  sw_reader : live (t_reader t) /\ (frames_size wire_messages <= transfers (t_reader t))%nat;
}.

(** ** Theorems *)


(** The test of backpressure does not depend on the timing: whenever the
    semaphore's waits are taken, interrupted or timed out in any order, if the
    loop of sends ends then it has seen the timeout and at most the 64 messages
    that the ring holds were accepted. *)
Theorem backpressure_any_waits e evs f sent :
  serves "duct_testbp" e -> Forall wait_allowed evs -> test_shm_backpressure_timeout e evs = Some (f, sent) ->
  f = 0%nat /\ (sent <= 64)%nat.
Proof.
  intros Hs Hev. destruct (connect_good e "duct_testbp" Hs) as (w & o & Hc & Hcp & _ & Hp & _ & _ & Hz); [done|].
  unfold test_shm_backpressure_timeout. rewrite Hc. cbn [mbind option_bind].
  destruct (fill 256 (client w) (mkSendOptions 50) evs (kernel_ w)) as [[[f1 saw] n]|] eqn:E; [|done].
  cbn [mbind option_bind]. intros [= <- <-].
  destruct (fill_outcome 256 (client w) o evs (kernel_ w) [] f1 saw n) as (-> & Hn & Hsaw); [done|rewrite Hz; apply zero_quiescent|done..|].
  rewrite Hsaw by done. change kSlotCount with 64 in Hn. cbn [length] in Hn. split; [done|lia].
Qed.

(** ** Witnesses *)

(** Connections on an idle system. *)
Definition idle_bus (r : Z) : bus_answers :=
  mkBus no_strerror 0 empty_kernel 5 r 9 (all_good 3) 4 (replicate 16 (EvXfer 1)) 6 (replicate 16 (EvXfer 1)) (all_good 8).

Lemma idle_bus_serves bus r : 0 <= r < 2 ^ 32 -> serves bus (idle_bus r).
Proof.
  intros Hr. unfold serves, idle_bus. cbn [ba_listen_fd ba_r1 ba_r2 ba_create ba_kernel ba_dial_fd ba_dial_evs ba_accept_fd ba_accept_evs ba_open].
  split_and!; try done; try lia; try (repeat split; done); try (vm_compute; repeat constructor).
Qed.

(** A socket that moves one byte at a time. *)
Definition byte_by_byte : list io_event := replicate (Z.to_nat 70000) (EvXfer 1).

Lemma byte_by_byte_live : live byte_by_byte /\ (frames_size wire_messages <= transfers byte_by_byte)%nat.
Proof.
  assert (Ht : forall n, transfers (replicate n (EvXfer 1)) = n) by (induction n as [|n IH]; [done|]; unfold transfers in *; cbn; by rewrite IH).
  split; [by apply Forall_replicate|]. unfold byte_by_byte. rewrite Ht.
  unfold wire_messages. rewrite !frames_size_cons. unfold big. rewrite length_replicate.
  change (frames_size []) with 0%nat. change (length (bytes_of "one")) with 3%nat. change (length (bytes_of "two")) with 3%nat.
  unfold kMaxFramePayload. lia.
Qed.

Definition sample_tests : test_answers :=
  mkTests (idle_bus 1) [Taken; Taken] [Taken; Taken] true no_resolver idle_system
    (idle_bus 2) (replicate 64 Taken ++ [WaitErr ETIMEDOUT]) (idle_bus 3) (replicate 8 Taken ++ [])
    byte_by_byte byte_by_byte.

Lemma sample_system_works : system_works sample_tests.
Proof.
  split; try apply idle_bus_serves; try lia; try (by eexists); apply byte_by_byte_live.
Qed.


Lemma backpressure_any_waits_witness :
  exists f sent, test_shm_backpressure_timeout (idle_bus 2) (replicate 7 Taken ++ [WaitErr EINTR; WaitErr ETIMEDOUT]) = Some (f, sent) /\
    f = 0%nat /\ (sent <= 64)%nat.
Proof.
  assert (H : exists r, test_shm_backpressure_timeout (idle_bus 2) (replicate 7 Taken ++ [WaitErr EINTR; WaitErr ETIMEDOUT]) = Some r)
    by (eexists; vm_compute; reflexivity).
  destruct H as [[f sent] H]. exists f, sent. split; [exact H|].
  refine (backpressure_any_waits (idle_bus 2) (replicate 7 Taken ++ [WaitErr EINTR; WaitErr ETIMEDOUT]) f sent _ _ H).
  - apply idle_bus_serves. lia.
  - repeat apply Forall_cons_2; try apply Forall_nil_2; unfold wait_allowed; auto.
Defined.
