(* ===== verification/Future.v ===== *)
(** * The results of asynchronous operations (include/duct/async.h)

    [AsyncResult], the [std::future] of a call made by [std::async] on a thread of
    its own: a thread that starts calls, keeps or discards their results, asks
    for them and drops them, and the threads that make the calls on one shared
    pipe. The destructor of such a future, and an assignment over it, wait for
    the call. *)

From S2P Require Import Prelude Status Options Pipe Async.

Section futures.
Context {P : Type} `{PipeOps P}.

(** ** Calls and their results *)

Inductive op := OpSend (msg : payload) | OpRecv.
Inductive op_value := SendValue (o : Outcome unit) | RecvValue (o : Outcome payload).

(** A call on its thread. *)
Definition perform (o : op) (p : P) : option (P * op_value) :=
  match o with
  | OpSend m => '(p, r) ← async_send p m; Some (p, SendValue r)
  | OpRecv => '(p, r) ← async_recv p; Some (p, RecvValue r)
  end.

(** The state a thread shares with its future. *)
Inductive task := Running (o : op) | Finished (v : op_value).

(** src/include/duct/async.h:47-47 [AsyncResult]

    The shared state of [future_], when it has one: a default-constructed
    [AsyncResult], and one whose result was taken, has none. *)
Record AsyncResult := mkAsyncResult { future_ : option nat }.

(** What a call on a future does when it is reached: its answer, a wait for the
    thread, or undefined behaviour without a shared state. *)
Inductive asked (A : Type) := Answers (a : A) | Waits | Undefined.
Arguments Answers {A} a. Arguments Waits {A}. Arguments Undefined {A}.

Definition task_of (ts : gmap nat task) (r : AsyncResult) : option task := i ← future_ r; ts !! i.

(** src/include/duct/async.h:33-33 [AsyncResult::get] *)
Definition ar_get (ts : gmap nat task) (r : AsyncResult) : asked (op_value * AsyncResult) :=
  match task_of ts r with
  | Some (Finished v) => Answers (v, mkAsyncResult None)
  | Some (Running _) => Waits
  | None => Undefined
  end.

(** src/include/duct/async.h:36-39 [AsyncResult::wait_for]

    At the end of the wait: whether the status is [ready], and otherwise
    [timeout]; a call made by [std::async] with a thread is never [deferred]. *)
Definition ar_wait_for (ts : gmap nat task) (r : AsyncResult) : asked bool :=
  match task_of ts r with
  | Some (Finished _) => Answers true
  | Some (Running _) => Answers false
  | None => Undefined
  end.

(** src/include/duct/async.h:42-44 [AsyncResult::is_ready] *)
Definition ar_is_ready (ts : gmap nat task) (r : AsyncResult) : asked bool := ar_wait_for ts r.

(** The release of a shared state, by the destructor or an assignment. *)
Definition ar_release (ts : gmap nat task) (r : AsyncResult) : asked unit :=
  match task_of ts r with Some (Running _) => Waits | _ => Answers tt end.

(** ** A thread that uses them *)

Inductive cmd :=
| CStart (x : nat) (o : op)   (* x = async_send(pipe, msg), x = async_recv(pipe) *)
| CDiscard (o : op)           (* async_send(pipe, msg); *)
| CGet (x : nat)
| CWait (x : nat)
| CReady (x : nat)
| CDrop (x : nat).            (* x goes out of scope *)

Inductive heard := Got (i : nat) (v : op_value) | Ready (i : nat) (b : bool).

Record world := mkWorld {
  code : list cmd;
  releasing : AsyncResult;          (* the temporary being destroyed *)
  vars : gmap nat AsyncResult;
  tasks : gmap nat task;
  started : list op;                (* call i is the i-th *)
  pipe : P;
  performed : list (nat * op_value);
  hears : list heard;
}.

Definition begin (c : list cmd) (p : P) : world := mkWorld c (mkAsyncResult None) ∅ ∅ [] p [] [].
Definition no_result : AsyncResult := mkAsyncResult None.
Definition var (vs : gmap nat AsyncResult) (x : nat) : AsyncResult := default no_result (vs !! x).

(** src/include/duct/async.h:53-66 [async_send, async_recv]

    The calls with the threads [std::async] starts, and a thread that uses their
    results through [AsyncResult]: one rule for each statement, for the end of the destruction of a temporary,
    and for a call on its thread. *)
Inductive future_step : world -> world -> Prop :=
| f_perform i o v c r vs ts st p p' pf hs :
    ts !! i = Some (Running o) -> perform o p = Some (p', v) ->
    future_step (mkWorld c r vs ts st p pf hs)
                (mkWorld c r vs (<[i := Finished v]> ts) st p' (pf ++ [(i, v)]) hs)
| f_start x o c vs ts st p pf hs :
    future_step (mkWorld (CStart x o :: c) no_result vs ts st p pf hs)
                (mkWorld c (var vs x) (<[x := mkAsyncResult (Some (length st))]> vs)
                   (<[length st := Running o]> ts) (st ++ [o]) p pf hs)
| f_discard o c vs ts st p pf hs :
    future_step (mkWorld (CDiscard o :: c) no_result vs ts st p pf hs)
                (mkWorld c (mkAsyncResult (Some (length st))) vs (<[length st := Running o]> ts) (st ++ [o]) p pf hs)
| f_release r c vs ts st p pf hs :
    r <> no_result -> ar_release ts r = Answers tt ->
    future_step (mkWorld c r vs ts st p pf hs) (mkWorld c no_result vs ts st p pf hs)
| f_get x i c v r vs ts st p pf hs :
    future_ (var vs x) = Some i -> ar_get ts (var vs x) = Answers (v, r) ->
    future_step (mkWorld (CGet x :: c) no_result vs ts st p pf hs)
                (mkWorld c no_result (<[x := r]> vs) ts st p pf (hs ++ [Got i v]))
| f_wait x i c b vs ts st p pf hs :
    future_ (var vs x) = Some i -> ar_wait_for ts (var vs x) = Answers b ->
    future_step (mkWorld (CWait x :: c) no_result vs ts st p pf hs)
                (mkWorld c no_result vs ts st p pf (hs ++ [Ready i b]))
| f_ready x i c b vs ts st p pf hs :
    future_ (var vs x) = Some i -> ar_is_ready ts (var vs x) = Answers b ->
    future_step (mkWorld (CReady x :: c) no_result vs ts st p pf hs)
                (mkWorld c no_result vs ts st p pf (hs ++ [Ready i b]))
| f_drop x c vs ts st p pf hs :
    future_step (mkWorld (CDrop x :: c) no_result vs ts st p pf hs)
                (mkWorld c (var vs x) (delete x vs) ts st p pf hs).

Definition future_reaches (c : list cmd) (p : P) (w : world) : Prop := rtc future_step (begin c p) w.

(** The calls performed, in order, are what happened to the pipe. *)
Inductive replays (st : list op) (p : P) : list (nat * op_value) -> P -> Prop :=
| replays_nil : replays st p [] p
| replays_snoc l q i o v q' :
    replays st p l q -> st !! i = Some o -> perform o q = Some (q', v) -> replays st p (l ++ [(i, v)]) q'.

(** What a variable, or the temporary being destroyed, holds. *)
Definition held (w : world) (k : option nat) : option nat :=
  match k with Some x => future_ (var (vars w) x) | None => future_ (releasing w) end.
Definition holds (w : world) (i : nat) : Prop := exists k, held w k = Some i.

Definition got_of (h : heard) : option nat := match h with Got i _ => Some i | Ready _ _ => None end.

(** What is true of every task and of what was performed, of who holds what, and
    of what was heard. *)
Record tasks_inv (p0 : P) (w : world) : Prop := {
  fi_running : forall i o, tasks w !! i = Some (Running o) -> started w !! i = Some o;
  fi_finished : forall i v, tasks w !! i = Some (Finished v) <-> (i, v) ∈ performed w;
  fi_tasks : forall i, is_Some (tasks w !! i) <-> (i < length (started w))%nat;
  fi_once : NoDup ((performed w).*1);
  fi_replays : replays (started w) p0 (performed w) (pipe w);
}.

Record holders_inv (w : world) : Prop := {
  fi_held : forall i o, tasks w !! i = Some (Running o) -> holds w i;
  fi_bound : forall i, holds w i -> (i < length (started w))%nat;
  fi_unique : forall k k' i, held w k = Some i -> held w k' = Some i -> k = k';
}.

Record heard_inv (w : world) : Prop := {
  fi_got : forall i v, Got i v ∈ hears w -> (i, v) ∈ performed w /\ ~ holds w i;
  fi_got_once : NoDup (omap got_of (hears w));
  fi_ready : forall i, Ready i true ∈ hears w -> i ∈ (performed w).*1;
}.

Lemma var_insert vs x r y : var (<[x := r]> vs) y = if decide (x = y) then r else var vs y.
Proof. unfold var. rewrite lookup_insert. by case_decide. Qed.
Lemma var_delete vs x y : var (delete x vs) y = if decide (x = y) then no_result else var vs y.
Proof. unfold var. rewrite lookup_delete. by case_decide. Qed.

Lemma replays_more st st' p l q : replays st p l q -> replays (st ++ st') p l q.
Proof. induction 1; [constructor|]. econstructor; [done|by apply lookup_app_l_Some|done]. Qed.

Lemma no_holders c p i : ~ holds (begin c p) i.
Proof. intros [[x|] Hk]; cbn in Hk; [|done]. unfold var in Hk. by rewrite lookup_empty in Hk. Qed.

Lemma tasks_begin c p : tasks_inv p (begin c p).
Proof.
  split; cbn.
  - intros i o. by rewrite lookup_empty.
  - intros i v. rewrite lookup_empty. split; [done|]. by intros ?%elem_of_nil.
  - intros i. rewrite lookup_empty. split; [by intros [??]|lia].
  - constructor.
  - constructor.
Qed.

Lemma holders_begin c p : holders_inv (begin c p).
Proof.
  split.
  - intros i o. cbn. by rewrite lookup_empty.
  - by intros i ?%no_holders.
  - intros k k' i Hk. destruct (no_holders c p i). by exists k.
Qed.

Lemma heard_begin c p : heard_inv (begin c p).
Proof.
  split; cbn.
  - by intros i v ?%elem_of_nil.
  - constructor.
  - by intros i ?%elem_of_nil.
Qed.

Lemma spawn_tasks p0 o c r vs ts st p pf hs c' r' vs' :
  tasks_inv p0 (mkWorld c r vs ts st p pf hs) ->
  tasks_inv p0 (mkWorld c' r' vs' (<[length st := Running o]> ts) (st ++ [o]) p pf hs).
Proof.
  intros [H1 H2 H3 H4 H5]; cbn in *.
  assert (Hn : ts !! length st = None).
  { apply eq_None_not_Some. rewrite H3. lia. }
  split; cbn.
  - intros i o'. destruct (decide (i = length st)) as [->|Hi].
    + rewrite lookup_insert_eq, list_lookup_middle by done. congruence.
    + rewrite lookup_insert_ne by done. intros Hr%H1. by apply lookup_app_l_Some.
  - intros i v. rewrite <- H2. destruct (decide (i = length st)) as [->|Hi].
    + rewrite lookup_insert_eq, Hn. done.
    + by rewrite lookup_insert_ne.
  - intros i. rewrite length_app. cbn. destruct (decide (i = length st)) as [->|Hi].
    + rewrite lookup_insert_eq. split; [lia|by eexists].
    + rewrite lookup_insert_ne, H3 by done. lia.
  - done.
  - by apply replays_more.
Qed.

Lemma perform_tasks p0 i o v c r vs ts st p p' pf hs :
  ts !! i = Some (Running o) -> perform o p = Some (p', v) ->
  tasks_inv p0 (mkWorld c r vs ts st p pf hs) ->
  tasks_inv p0 (mkWorld c r vs (<[i := Finished v]> ts) st p' (pf ++ [(i, v)]) hs).
Proof.
  intros Hi Hp [H1 H2 H3 H4 H5]; cbn in *.
  assert (Hnew : i ∉ pf.*1).
  { intros ([j v'] & -> & Hj)%list_elem_of_fmap. cbn in Hi. apply H2 in Hj. congruence. }
  split; cbn.
  - intros j o'. destruct (decide (j = i)) as [->|Hj]; [by rewrite lookup_insert_eq|].
    rewrite lookup_insert_ne by done. apply H1.
  - intros j v'. rewrite elem_of_app, list_elem_of_singleton. destruct (decide (j = i)) as [->|Hj].
    + rewrite lookup_insert_eq. split; [intros [= ->]; by right|]. intros [Hj|[= ->]]; [|done].
      destruct Hnew. apply list_elem_of_fmap. by exists (i, v').
    + rewrite lookup_insert_ne, H2 by done. naive_solver.
  - intros j. destruct (decide (j = i)) as [->|Hj].
    + rewrite lookup_insert_eq. split; [intros _; apply H3; by eexists|by eexists].
    + by rewrite lookup_insert_ne.
  - rewrite fmap_app. apply NoDup_app. split; [done|]. split; [|apply NoDup_singleton].
    cbn. intros j Hj ->%list_elem_of_singleton. done.
  - econstructor; [done|by apply H1|done].
Qed.

Lemma future_step_tasks p0 w w' : tasks_inv p0 w -> future_step w w' -> tasks_inv p0 w'.
Proof.
  intros Hi Hst. destruct Hst; try (destruct Hi; by split).
  - by eapply perform_tasks.
  - by eapply spawn_tasks.
  - by eapply spawn_tasks.
Qed.

(** The holders after a call was started: [held'] holds the new task in one place,
    and the rest where [move] says. *)
Lemma spawn_holders w w' o k0 (move : option nat -> option nat) :
  holders_inv w -> tasks w' = <[length (started w) := Running o]> (tasks w) -> started w' = started w ++ [o] ->
  held w' k0 = Some (length (started w)) ->
  (forall k i, k <> k0 -> held w' k = Some i -> held w (move k) = Some i) ->
  (forall k k', k <> k0 -> k' <> k0 -> move k = move k' -> k = k') ->
  (forall k i, held w k = Some i -> exists k', k' <> k0 /\ held w' k' = Some i) ->
  holders_inv w'.
Proof.
  intros [H1 H2 H3] Ht Hs Hk0 Hm Hinj Hfrom. split; rewrite ?Ht, ?Hs.
  - intros i o'. destruct (decide (i = length (started w))) as [->|Hi]; [by exists k0|].
    rewrite lookup_insert_ne by done. intros [k Hk]%H1. destruct (Hfrom k i Hk) as (k' & _ & ?). by exists k'.
  - intros i [k Hk]. rewrite length_app. cbn. destruct (decide (k = k0)) as [->|Hne]; [rewrite Hk0 in Hk; injection Hk; lia|].
    apply Hm in Hk; [|done]. pose proof (H2 i (ex_intro _ _ Hk)). lia.
  - assert (Hold : forall k i, k <> k0 -> held w' k = Some i -> (i < length (started w))%nat).
    { intros k i Hne Hk. apply H2. exists (move k). by apply Hm. }
    intros k k' i Hk Hk'. destruct (decide (k = k0)) as [->|Hne], (decide (k' = k0)) as [->|Hne']; [done| | |].
    + rewrite Hk0 in Hk. injection Hk as <-. apply Hold in Hk'; [lia|done].
    + rewrite Hk0 in Hk'. injection Hk' as <-. apply Hold in Hk; [lia|done].
    + apply Hinj; [done..|]. apply Hm in Hk; [|done]. apply Hm in Hk'; [|done]. by eapply H3.
Qed.

(** The holders after a statement that only moves them, those of [drop] apart. *)
Lemma move_holders w w' (move : option nat -> option nat) :
  holders_inv w -> tasks w' = tasks w -> started w' = started w ->
  (forall k i, held w' k = Some i -> held w (move k) = Some i) ->
  (forall k k' i, held w' k = Some i -> held w' k' = Some i -> move k = move k' -> k = k') ->
  (forall k i o, tasks w !! i = Some (Running o) -> held w k = Some i -> holds w' i) ->
  holders_inv w'.
Proof.
  intros [H1 H2 H3] Ht Hs Hm Hinj Hfrom. split; rewrite ?Ht, ?Hs.
  - intros i o Hi. destruct (H1 i o Hi) as [k Hk]. by eapply Hfrom.
  - intros i [k Hk]. apply H2. exists (move k). by apply Hm.
  - intros k k' i Hk Hk'. eapply Hinj; [done..|]. eapply H3; by apply Hm.
Qed.

Lemma future_step_holders w w' : holders_inv w -> future_step w w' -> holders_inv w'.
Proof.
  intros Hi Hst. destruct Hst.
  - destruct Hi as [I1 I2 I3]. split; cbn in *; [|exact I2|exact I3].
    intros j o' Hj. destruct (decide (j = i)) as [->|Hne]; [by rewrite lookup_insert_eq in Hj|].
    rewrite lookup_insert_ne in Hj by done. by eapply I1.
  - eapply (spawn_holders _ _ o (Some x) (fun k => match k with None => Some x | _ => k end)); [done..| | | |]; cbn [held vars releasing].
    + by rewrite var_insert, decide_True.
    + intros [y|] i Hne; cbn; [|done]. rewrite var_insert, decide_False by congruence. done.
    + intros [y|] [y'|] ? ?; congruence.
    + intros [y|] i; cbn; [|done]. destruct (decide (y = x)) as [->|Hne]; [by exists None|].
      exists (Some y). cbn. rewrite var_insert, decide_False by congruence. split; [congruence|done].
  - eapply (spawn_holders _ _ o None id); [done..| | | |]; cbn [held vars releasing]; [done| |done|].
    + by intros [y|] i.
    + intros [y|] i; cbn; [|done]. by exists (Some y).
  - eapply (move_holders _ _ id); [done..| | |]; cbn [held vars releasing].
    + by intros [y|] i.
    + by intros k k' i.
    + intros [y|] i o Hr Hk; cbn in *; [by exists (Some y)|].
      unfold ar_release, task_of in *. rewrite Hk in *. cbn in *. by rewrite Hr in *.
  - eapply (move_holders _ _ id); [done..| | |]; cbn [held vars releasing].
    + intros [y|] j; cbn; [|done]. rewrite var_insert. case_decide; [|done]. subst.
      unfold ar_get in *. repeat case_match; by simplify_eq.
    + by intros k k' j.
    + intros [y|] j o Hr Hk; cbn in *; [|done]. exists (Some y). cbn. rewrite var_insert, decide_False; [done|].
      intros <-. unfold ar_get, task_of in *. rewrite Hk in *. cbn in *. by rewrite Hr in *.
  - by destruct Hi.
  - by destruct Hi.
  - eapply (move_holders _ _ (fun k => match k with None => Some x | _ => k end)); [done..| | |]; cbn [held vars releasing].
    + intros [y|] j; cbn; [|done]. rewrite var_delete. by case_decide.
    + intros [y|] [y'|] j; cbn; rewrite ?var_delete; repeat case_decide; cbn; congruence.
    + intros [y|] j o Hr Hk; cbn in *; [|done]. destruct (decide (x = y)) as [->|Hne]; [by exists None|].
      exists (Some y). cbn. by rewrite var_delete, decide_False.
Qed.

Lemma performed_bound p0 w i v : tasks_inv p0 w -> (i, v) ∈ performed w -> (i < length (started w))%nat.
Proof. intros Ht Hi. apply (fi_tasks p0 w Ht). apply (fi_finished p0 w Ht) in Hi. by eexists. Qed.

(** What was heard stays true when nothing is said and no performed call finds a
    new holder. *)
Lemma heard_mono w w' :
  heard_inv w -> hears w' = hears w -> (forall x, x ∈ performed w -> x ∈ performed w') ->
  (forall i v, (i, v) ∈ performed w -> holds w' i -> holds w i) -> heard_inv w'.
Proof.
  intros [H1 H2 H3] Hh Hp Ho. split; rewrite ?Hh; [|done|].
  - intros i v Hg. destruct (H1 i v Hg) as [Hv Hn]. split; [by apply Hp|]. intros Hw. by apply Hn, (Ho i v).
  - intros i Hr. apply H3, list_elem_of_fmap in Hr as (x & -> & Hx). apply list_elem_of_fmap. exists x. eauto.
Qed.

(** A poll adds a true answer. *)
Lemma heard_poll w w' i b p0 :
  tasks_inv p0 w -> heard_inv w -> hears w' = hears w ++ [Ready i b] -> performed w' = performed w ->
  (forall k, held w' k = held w k) -> (b = true -> exists v, tasks w !! i = Some (Finished v)) -> heard_inv w'.
Proof.
  intros Ht [H1 H2 H3] Hh Hp Ho Hb.
  assert (Hholds : forall j, holds w' j -> holds w j) by (intros j [k Hk]; exists k; by rewrite <- Ho).
  split; rewrite ?Hh, ?Hp.
  - intros j v [Hg|Hg%list_elem_of_singleton]%elem_of_app; [|done].
    destruct (H1 j v Hg) as [? Hn]. split; [done|]. intros Hw. by apply Hn, Hholds.
  - rewrite omap_app, app_nil_r. done.
  - intros j [Hr|Hr%list_elem_of_singleton]%elem_of_app; [by apply H3|]. injection Hr as -> <-.
    destruct Hb as [v Hv]; [done|]. apply (fi_finished p0 w Ht) in Hv. apply list_elem_of_fmap. by exists (i, v).
Qed.

Lemma polled ts r i b : future_ r = Some i -> ar_wait_for ts r = Answers b -> b = true -> exists v, ts !! i = Some (Finished v).
Proof. unfold ar_wait_for, task_of. intros Hr Ha Hb. rewrite Hr in Ha. cbn in Ha. destruct (ts !! i) as [[o|v]|]; [congruence|by exists v|done]. Qed.

Lemma future_step_heard p0 w w' : tasks_inv p0 w -> holders_inv w -> heard_inv w -> future_step w w' -> heard_inv w'.
Proof.
  intros Ht Ho Hh Hst. pose proof (fun i v => performed_bound p0 w i v Ht) as Hb. destruct Hst.
  - eapply (heard_mono _ _ Hh); cbn; [done| |done]. intros y Hy. apply elem_of_app. by left.
  - eapply (heard_mono _ _ Hh); cbn; [done..|]. intros i v Hp [[y|] Hk]; cbn in Hk; [|by exists (Some x)].
    rewrite var_insert in Hk. case_decide; [|by exists (Some y)]. injection Hk as <-. apply Hb in Hp. cbn in Hp. lia.
  - eapply (heard_mono _ _ Hh); cbn; [done..|]. intros i v Hp [[y|] Hk]; cbn in Hk; [by exists (Some y)|].
    injection Hk as <-. apply Hb in Hp. cbn in Hp. lia.
  - eapply (heard_mono _ _ Hh); cbn; [done..|]. intros i v Hp [[y|] Hk]; [by exists (Some y)|done].
  - match goal with H : ar_get _ _ = _ |- _ => unfold ar_get, task_of in H; rename H into Hget end.
    match goal with H : future_ _ = Some i |- _ => rename H into Hx end. rewrite Hx in Hget. cbn in Hget.
    destruct (ts !! i) as [[o|v']|] eqn:Hi; [done| |done]. injection Hget as -> <-.
    assert (Hw : holds (mkWorld (CGet x :: c) no_result vs ts st p pf hs) i) by by exists (Some x).
    destruct Hh as [H1 H2 H3]. cbn in *.
    assert (Hnot : forall j, holds (mkWorld c no_result (<[x := no_result]> vs) ts st p pf (hs ++ [Got i v])) j ->
                     holds (mkWorld (CGet x :: c) no_result vs ts st p pf hs) j /\ j <> i).
    { intros j [[y|] Hk]; cbn in Hk; [|done]. rewrite var_insert in Hk. case_decide; [done|]. split; [by exists (Some y)|].
      intros ->. pose proof (fi_unique _ Ho (Some x) (Some y) i Hx Hk). congruence. }
    split; cbn.
    + intros j v' [Hg|Hg%list_elem_of_singleton]%elem_of_app.
      * destruct (H1 j v' Hg) as [? Hn]. split; [done|]. intros Hw'. by apply Hn, Hnot.
      * injection Hg as -> ->. split; [by apply (fi_finished _ _ Ht)|]. intros Hw'. by apply Hnot in Hw' as [_ ?].
    + rewrite omap_app. cbn. apply NoDup_app. split; [done|]. split; [|apply NoDup_singleton].
      intros j (h & Hj & Hg)%list_elem_of_omap ->%list_elem_of_singleton. destruct h; [|done]. injection Hg as ->.
      by apply H1 in Hj as [_ ?].
    + intros j [Hr|Hr%list_elem_of_singleton]%elem_of_app; [by apply H3|done].
  - eapply (heard_poll _ _ i b p0); [done..| |]; cbn; [done|]. by eapply polled.
  - eapply (heard_poll _ _ i b p0); [done..| |]; cbn; [done|]. by eapply polled.
  - eapply (heard_mono _ _ Hh); cbn; [done..|]. intros i v Hp [[y|] Hk]; cbn in Hk; [|by exists (Some x)].
    rewrite var_delete in Hk. case_decide; [done|by exists (Some y)].
Qed.

Lemma future_invariants c p w : future_reaches c p w -> tasks_inv p w /\ holders_inv w /\ heard_inv w.
Proof.
  intros Hr. eapply (rtc_invariant future_step (fun w => tasks_inv p w /\ holders_inv w /\ heard_inv w)); [|exact Hr|].
  - intros w1 w2 (H1 & H2 & H3) Hst.
    split; [by eapply future_step_tasks|]. split; [by eapply future_step_holders|by eapply future_step_heard].
  - split; [apply tasks_begin|]. split; [apply holders_begin|apply heard_begin].
Qed.

(** A program that discards every result, after some steps. *)
Record discarding (os : list op) (w : world) : Prop := {
  di_vars : vars w = ∅;
  di_code : exists rest, os = started w ++ rest /\ code w = map CDiscard rest;
  di_order : (performed w).*1 = seq 0 (length (performed w));
  di_turn : releasing w = no_result /\ length (performed w) = length (started w) \/
            exists n, length (started w) = S n /\ releasing w = mkAsyncResult (Some n) /\
              (length (performed w) = n \/ length (performed w) = S n);
}.

Lemma discarding_running os p0 w i o :
  tasks_inv p0 w -> discarding os w -> tasks w !! i = Some (Running o) ->
  i = length (performed w) /\ length (started w) = S i.
Proof.
  intros Ht [_ _ Ho Hturn] Hi.
  assert (Hlt : (i < length (started w))%nat) by (apply (fi_tasks p0 w Ht); by eexists).
  assert (Hnot : ~ (i < length (performed w))%nat).
  { intros Hl. assert (Hin : i ∈ (performed w).*1) by (rewrite Ho; apply elem_of_seq; lia).
    apply list_elem_of_fmap in Hin as ([j v] & -> & Hj). cbn in *. apply (fi_finished p0 w Ht) in Hj. congruence. }
  destruct Hturn as [[_ ?]|(n & ? & _ & ?)]; lia.
Qed.

Lemma discarding_step os p0 w w' : tasks_inv p0 w -> discarding os w -> future_step w w' -> discarding os w'.
Proof.
  intros Ht Hd Hst. pose proof (fun i o => discarding_running os p0 w i o Ht Hd) as Hrun.
  destruct Hd as [Hv (rest & Hos & Hc) Ho Hturn]. destruct Hst; cbn in *;
    try (destruct rest; cbn in Hc; discriminate).
  - match goal with H : ts !! i = _ |- _ => apply Hrun in H as [Hi Hl] end. split; cbn; [done|by exists rest| |].
    + rewrite fmap_app, Ho, length_app. cbn. rewrite Nat.add_1_r, seq_S. by rewrite Hi.
    + rewrite length_app. cbn. destruct Hturn as [[_ ?]|(n & ? & ? & ?)]; [lia|]. right. exists n. split_and!; [done..|lia].
  - destruct rest as [|o' rest]; [done|]. injection Hc as <- ->. destruct Hturn as [[_ Hl]|(n & _ & ? & _)]; [|done].
    split; cbn; [done| |done|].
    + exists rest. by rewrite <- app_assoc.
    + right. exists (length st). rewrite length_app. cbn. split_and!; [lia|done|by left].
  - split; cbn; [done|by exists rest|done|]. left. split; [done|].
    destruct Hturn as [[-> Hl]|(n & Hl & -> & [Hn|Hn])]; [done| |lia].
    destruct (fi_tasks p0 _ Ht n) as [_ Hs]. cbn in Hs. destruct Hs as [[o|v] Hn']; [lia| |].
    + match goal with H : ar_release _ _ = _ |- _ => unfold ar_release, task_of in H; cbn in H; by rewrite Hn' in H end.
    + apply (fi_finished p0 _ Ht) in Hn'. cbn in Hn'. exfalso.
      assert (Hin : n ∈ pf.*1) by (apply list_elem_of_fmap; by exists (n, v)).
      rewrite Ho in Hin. apply elem_of_seq in Hin. lia.
Qed.

Lemma discarding_reaches os p w : future_reaches (map CDiscard os) p w -> tasks_inv p w /\ discarding os w.
Proof.
  intros Hr. eapply (rtc_invariant future_step (fun w => tasks_inv p w /\ discarding os w)); [|exact Hr|].
  - intros w1 w2 [H1 H2] Hst. split; [by eapply future_step_tasks|by eapply discarding_step].
  - split; [apply tasks_begin|]. split; cbn; [done|by exists os|done|by left].
Qed.
End futures.

(** ** Theorems *)


(** no call outlives its [AsyncResult]: a call that is still to be made belongs
    to a variable or to the temporary being destroyed, so when a thread has
    dropped all of them every call it started has been made. *)
Theorem no_call_outlives {P} `{PipeOps P} c (p : P) w :
  future_reaches c p w ->
  (forall i o, tasks w !! i = Some (Running o) -> holds w i) /\
  (vars w = ∅ -> releasing w = no_result -> (performed w).*1 ≡ₚ seq 0 (length (started w))).
Proof.
  intros Hr. destruct (future_invariants c p w Hr) as (Ht & Ho & _). split; [apply (fi_held w Ho)|].
  intros Hv Hrel. apply NoDup_Permutation; [apply (fi_once p w Ht)|apply NoDup_seq|].
  intros i. rewrite elem_of_seq. split.
  - intros ([j v] & -> & Hj)%list_elem_of_fmap. cbn. pose proof (performed_bound p w j v Ht Hj). lia.
  - intros [_ Hl]. apply (fi_tasks p w Ht) in Hl as [[o|v] Hi].
    + destruct (fi_held w Ho i o Hi) as [[x|] Hk]; cbn in Hk; [rewrite Hv in Hk|rewrite Hrel in Hk; done].
      unfold var in Hk. by rewrite lookup_empty in Hk.
    + apply (fi_finished p w Ht) in Hi. apply list_elem_of_fmap. by exists (i, v).
Qed.

(** a result that is discarded makes its call synchronous: a program whose
    statements are [async_send(pipe, msg);] and [async_recv(pipe);] makes the
    calls in the order they are written, each one over before the next starts,
    because the destructor of the unnamed [AsyncResult] waits. *)
Theorem discarded_in_order {P} `{PipeOps P} os (p : P) w :
  future_reaches (map CDiscard os) p w ->
  (performed w).*1 = seq 0 (length (performed w)) /\ (exists rest, os = started w ++ rest) /\
  (length (started w) <= S (length (performed w)))%nat /\
  (code w = [] -> releasing w = no_result ->
     length (performed w) = length os /\ replays os p (performed w) (pipe w)).
Proof.
  intros Hr. destruct (discarding_reaches os p w Hr) as [Ht [_ (rest & Hos & Hc) Ho Hturn]].
  split_and!; [done|by exists rest|destruct Hturn as [[_ ?]|(n & ? & _ & ?)]; lia|].
  intros Hcode Hrel. rewrite Hcode in Hc. destruct rest; [|done]. rewrite app_nil_r in Hos. subst os.
  destruct Hturn as [[_ Hl]|(n & _ & Hn & _)]; [|rewrite Hrel in Hn; done].
  split; [done|apply (fi_replays p w Ht)].
Qed.

(** ** Witnesses *)

(** A pipe that keeps what it sent. *)
#[local] Instance sent_ops : PipeOps (list payload) := {|
  pipe_send p m opt := Some (p ++ [m], Ok);
  pipe_recv p opt := Some (p, RStatus (timeout "no message"));
  pipe_close p := p;
|}.

Definition msg_1 : payload := [Init.Byte.x31].
Definition msg_2 : payload := [Init.Byte.x32].
Definition sent_ok : op_value := SendValue (Returns tt).

(** Two sends with their results kept, made in the other order. *)
Definition kept : list cmd := [CStart 0 (OpSend msg_1); CStart 1 (OpSend msg_2); CReady 0; CGet 1; CGet 0; CDrop 0; CDrop 1].

(** The result of kept calls fixes no order: two messages whose results are kept
    may be sent in the other order. *)
Lemma kept_may_reorder : exists w, future_reaches kept [] w /\ pipe w = [msg_2; msg_1] /\ code w = [] /\
  hears w = [Ready 0 false; Got 1 sent_ok; Got 0 sent_ok] /\ releasing w = no_result /\ vars w = ∅.
Proof.
  eexists. split; [|split_and!].
  - unfold future_reaches, kept, begin.
    eapply rtc_l; [apply f_start|]. change (var ∅ 0) with no_result. cbn [app length].
    eapply rtc_l; [apply f_start|]. rewrite var_insert. cbn [app length].
    eapply rtc_l; [eapply (f_perform 1); vm_compute; reflexivity|]. cbn [app].
    eapply rtc_l; [eapply (f_ready 0 0 _ false); vm_compute; reflexivity|]. cbn [app].
    eapply rtc_l; [eapply (f_get 1 1); vm_compute; reflexivity|]. cbn [app].
    eapply rtc_l; [eapply (f_perform 0); vm_compute; reflexivity|]. cbn [app].
    eapply rtc_l; [eapply (f_get 0 0); vm_compute; reflexivity|]. cbn [app].
    eapply rtc_l; [apply f_drop|]. rewrite var_insert. cbn [decide].
    eapply rtc_l; [apply f_drop|]. apply rtc_refl.
  - reflexivity.
  - reflexivity.
  - reflexivity.
  - vm_compute. reflexivity.
  - vm_compute. reflexivity.
Qed.


Lemma no_call_outlives_witness :
  exists w, pipe w = [msg_2; msg_1] /\ (performed w).*1 ≡ₚ seq 0 (length (started w)).
Proof.
  destruct kept_may_reorder as (w & Hr & Hp & _ & _ & Hrel & Hv). exists w. split; [exact Hp|].
  exact (proj2 (no_call_outlives kept [] w Hr) Hv Hrel).
Defined.

Lemma discarded_run : exists w, future_reaches (map CDiscard [OpSend msg_1; OpSend msg_2]) [] w /\
  code w = [] /\ releasing w = no_result /\ pipe w = [msg_1; msg_2].
Proof.
  eexists. split; [|split_and!].
  - unfold future_reaches, begin. cbn [map].
    eapply rtc_l; [apply f_discard|]. cbn [app length].
    eapply rtc_l; [eapply (f_perform 0); vm_compute; reflexivity|]. cbn [app].
    eapply rtc_l; [eapply f_release; [discriminate|vm_compute; reflexivity]|].
    eapply rtc_l; [apply f_discard|]. cbn [app length].
    eapply rtc_l; [eapply (f_perform 1); vm_compute; reflexivity|]. cbn [app].
    eapply rtc_l; [eapply f_release; [discriminate|vm_compute; reflexivity]|]. apply rtc_refl.
  - reflexivity.
  - reflexivity.
  - reflexivity.
Qed.

Lemma discarded_in_order_witness :
  exists w, pipe w = [msg_1; msg_2] /\ length (performed w) = 2%nat.
Proof.
  destruct discarded_run as (w & Hr & Hc & Hrel & Hp). exists w. split; [exact Hp|].
  exact (proj1 (proj2 (proj2 (proj2 (discarded_in_order [OpSend msg_1; OpSend msg_2] [] w Hr))) Hc Hrel)).
Defined.
